(* ===== verification/_CoqProject ===== *)
-Q . S2P
Prelude.v
Numeric.v
Text.v
Error.v
Floats.v
Encoder.v
Command.v
Parser.v
IndexMap.v
Eviction.v
Entry.v
Sieve.v
AdaptiveClimb.v
Glob.v
Aof.v
ConfigFile.v
Cli.v
Engine.v
WriteGuard.v
Commands.v
Frames.v
EngineInv.v
MemoryLimit.v
Replay.v
Startup.v
Server.v
Reachable.v
Connection.v
Listener.v
Monitor.v
Spec.v
Refinement.v
LogState.v
Durability.v
Restart.v
Web.v
Dashboard.v
DashboardProps.v
GroupCommit.v
Shutdown.v
Rewrite.v
Background.v
LoadGen.v
HitRatio.v
HitRatioMain.v
Process.v
EndToEnd.v
