(* ===== verification/Prelude.v ===== *)
(** * ferrum-kv: a verification development

    ferrum-kv is a Redis-like key-value server: one in-memory engine behind a lock,
    a RESP server and a small HTTP dashboard in front of it, an append-only file
    (AOF) behind it. This library models the program from its Rust source (paths
    below are under src/src/) and proves what makes it correct. Everything the code
    computes is an executable definition; code that runs concurrently is a step
    relation; what the program takes from outside is a parameter with its
    documented laws.

    ** The parts and the files that model them

    Shared ground
    - Prelude (this file): bytes, machine integers with their wrap-around, the
      [result] type, the state-and-error monad [SE], [triple] and [preserves] for
      reasoning about it, tactics and hints.
    - Numeric, Text, Floats: what the code uses of the standard library: decimal
      text, trimming, UTF-8, [Debug] quoting, IEEE-754 binary32 and binary64 on the
      Standard Library's [spec_float], shortest decimal printing.
    - Error: error/kind.rs.
    - IndexMap: the classes [IndexMap] (the indexmap crate) and [HashIter] (the
      iteration order of [HashMap], unspecified), each with an instance.

    Protocol
    - Encoder: protocol/encoder.rs, persistence/resp.rs. Command, Parser:
      protocol/parser.rs ([build_command], [parse_frame]).

    Storage
    - Eviction: storage/eviction.rs. Sieve: storage/sieve.rs. AdaptiveClimb:
      storage/adaptive_climb.rs. Entry: storage/engine/entry.rs, util.rs, types.rs.
      Glob: [glob_match] of storage/engine/mod.rs.
    - Engine: [KvEngine] of storage/engine/mod.rs with storage/expire.rs and
      network/monitor.rs; its cells are the fields of one record. WriteGuard:
      write_guard.rs. Commands: the public data commands, [Op] and [run_op] that
      name them for histories, and [Event] for histories in which the rewrite worker
      runs beside the commands.

    Persistence
    - Aof: persistence/writer.rs and config.rs, over a file with a buffer, contents
      and a durable length, and a script of what the disk does to each system call.
      GroupCommit: the same writer with its threads interleaving. Rewrite: appends
      and barriers beside the steps of any number of BGREWRITEAOF workers, the
      temporary and the renamed file included. Replay: persistence/replay.rs.
    - Background: the loop of the sweeper thread (storage/expire.rs) and of the
      flusher thread (persistence/writer.rs), with the clock, the sleep, the stop flag
      and what other threads do in between as steps.

    Server
    - Server: [execute_command] and the replies of network/server.rs. Connection:
      [handle_client], the counter of connections, the MONITOR line. Listener:
      [accept_loop] with its tasks interleaving on one engine. Monitor:
      network/monitor.rs and [run_monitor_loop], every stream with its channel.
      Shutdown: network/shutdown.rs.
    - Web, Dashboard: network/dashboard/http.rs and mod.rs.
    - ConfigFile: config/file.rs. Cli: cli.rs. Startup: main.rs up to the point where it
      serves. Process: [run_listener] of network/server.rs, [serve] of
      network/dashboard/mod.rs and the rest of main.rs: the accept loop, the sweeper, the
      dashboard, the rewrite workers and the signal handler on one engine, how they end,
      and what is left running when [main] does.

    Programs
    - LoadGen: examples/load_gen.rs. HitRatio, HitRatioMain:
      examples/hit_ratio_bench.rs. Both are run against the modelled server: each frame
      goes through the handler of a connection, the replies are read back from bytes, and
      the servers of the second are [Startup.main] on the command lines it builds.

    A connection (Connection) feeds bytes to Parser, runs commands with Server,
    which calls Commands; a command takes a WriteGuard on the Engine, which asks
    Eviction, Sieve or AdaptiveClimb for victims and appends to Aof. The Dashboard
    calls the same engine, and its console the same Parser and Server. Startup reads
    Cli and ConfigFile, runs Replay, and hands the engine to the server, as Process
    continues. Frames is the interface through which Monitor, LoadGen and HitRatio use the
    commands: a class of properties of the engine that no data command disturbs.

    ** What is proved

    - Functional correctness. Spec is an abstract store: a map from keys to values
      with deadlines. Refinement shows that every history of calls in clock order,
      without a memory limit, is answered as Spec allows. Glob, Sieve, AdaptiveClimb and
      Eviction are proved equal to reference definitions of what they compute.
    - Invariants. EngineInv: the memory counter is the sum of the entries' sizes and
      every call keeps the engine well formed. Reachable: so is every state that calls
      and commands lead to, which the dashboard's JSON relies on. MemoryLimit: what [maxmemory]
      guarantees for each kind of policy, and that the bounded eviction loop is long
      enough.
    - Durability. Aof: what a successful append, barrier and rewrite leave on disk,
      failures included; GroupCommit: the same promise for concurrent writers. Rewrite:
      a rewrite that ends well has kept every write made while it ran. Background:
      what everysec may lose is one interval. Replay: recovery of a log cut at any byte,
      and termination on any file, by returning or by the abort of an allocation that
      is not granted. LogState, Durability and Restart: after any history on
      a disk that works, with rewrites beside the commands, playing the log gives the
      store, so the engine built at the next start has the same keys and values, and
      deadlines within two milliseconds (under the conditions on clocks, deadlines and
      rewrite workers that the theorems state). EndToEnd: the same from the sockets
      on, for whole processes: every layer of the server and of the dashboard keeps the
      log in step, so what clients were told is there after a restart.
    - Protocol. Encoding and parsing are inverse, partial frames are never misread,
      every command gets exactly one well-formed reply ([CONFIG] with a line break in its
      arguments apart, which the code echoes), chunking is irrelevant up to the bound of the
      read buffer,
      nothing runs before AUTH (MONITOR apart, which the code lets through). Listener:
      the same for any number of clients under every interleaving, and the limit on
      connections. Monitor: a stream shows every command but those
      the code never broadcasts once, in order.
    - Configuration. A configuration file is read back as it was written, sizes are
      exact, and flags win over the file and the file over the defaults.
    - Dashboard. Who may change the store, bounded buffers, well-formed JSON, base64
      and console round trips (DashboardProps).
    - Threads. No task misses the shutdown signal; a background thread stops within
      its interval; repeated sweeps remove every expired key. Process: after a signal the
      process ends in a bounded number of steps and waits, and when no thread and no
      command is still running beside [main] the log it leaves is complete.
    - Programs. The load generator ends without an error under every fair schedule of
      its clients, and every cell of the benchmark's table is the share of its own
      reads that were answered with a value.

    ** Bounds and fuel

    Integers are [Z] with the wrap or saturation of their width written where the
    source has it; the memory counter theorem assumes less than 2^63 bytes written
    in all. Loops that are not structural run on fuel that is proved enough: the
    parser and the connection consume a byte per round (fuel: the bytes left),
    the replay loop ends within a round per byte ([replay_total]), the glob matcher
    and the JSON decoder recurse on what is left of the text, decimal printing on
    the number of bits, the benchmark's binary search on the length of its table
    ([partition_point_split]). The eviction loop keeps the source's own bound, len + 16.

    ** Time, order and failure

    A clock is a pair of the monotonic and the wall clock, given to each call as an
    argument; histories have the clocks in order. The engine runs one call at a time,
    as its lock makes it; reads that go from the shared lock to the exclusive one take
    a second clock for the second phase. The disk may refuse any call. [None]
    in Server and Dashboard is a panic, and is proved not to happen.

    ** Not modelled

    - Sockets, tokio and its scheduler, with [start] (which binds and calls
      [run_listener]; [main] does not use it) and [raise_listen_backlog]. Which event
      comes next is an input of Connection, Listener and Process; what the host answers
      while a listener is set up is an argument. A request to the dashboard is one step of
      Process.
    - In the restart theorems, interleaving inside a half of the rewrite worker: taking
      the snapshot, and writing and swapping the file, are each atomic, and no rewrite
      is claimed while an aborted worker is still running (Rewrite and Restart show
      what happens otherwise; GroupCommit shows what a swap does to a barrier in
      progress). Interleaving of clients inside a command: its phases are adjacent.
    - In Background the flusher and the sweeper run on a disk and an engine that others
      touch between their steps, never inside one.
    - Memory orderings weaker than sequential consistency, lock poisoning, the counters
      [fsyncs] and [fsync_skips] in GroupCommit, and the width of [seq] and [synced] there.
    - Failing allocations, but for those of lengths that a log file declares (Replay) and
      of the benchmark's tables (HitRatio).
    - In [Debug] quoting (Text), the table of printable code points: every character outside
      ASCII is taken to be printable.
    - Log lines, the page index.html, the criterion harnesses under benches/.

    ** Left to do

    The flag of a MONITOR stream in Listener (its sessions are followed in Monitor
    alone); the restart theorems over the steps of Rewrite; requests to the dashboard that
    interleave with commands. *)
From Stdlib Require Import Strings.Byte.
From stdpp Require Import gmap list strings countable fin_maps numbers.

Local Open Scope Z_scope.

(** ** Bytes *)

(** [Vec<u8>] and [&[u8]]: sequences of machine bytes. *)
Abbreviation bytes := (list byte).

#[export] Instance byte_eq_decision : EqDecision byte := Byte.byte_eq_dec.

#[export] Instance byte_countable : Countable byte :=
  inj_countable Byte.to_N Byte.of_N Byte.of_to_N.

(** A byte-string literal, Rust's [b"..."]. *)
Definition str (s : string) : bytes := String.list_byte_of_string s.

(** Boolean equality on byte strings, Rust's [==] on slices. *)
Definition bytes_eqb (x y : bytes) : bool := bool_decide (x = y).

(** [b as u32]/[b as i64]: the unsigned value of a byte. *)
Definition b2z (b : byte) : Z := Z.of_N (Byte.to_N b).

(** [z as u8]: truncation of an integer to its low eight bits. *)
Definition z2b (z : Z) : byte :=
  match Byte.of_N (Z.to_N (z mod 256)) with Some b => b | None => x00 end.

(** [v.len()] as a [usize]/[u64]. *)
Definition blen {A} (l : list A) : Z := Z.of_nat (length l).

Definition CRLF : bytes := [x0d; x0a].

(** ** Machine integers, at their width *)

Definition u8_max : Z := 255.
Definition u16_max : Z := 65535.
Definition u32_max : Z := 4294967295.
Definition u64_max : Z := 18446744073709551615.
Definition i64_min : Z := -9223372036854775808.
Definition i64_max : Z := 9223372036854775807.

(** Wrap-around of unsigned arithmetic. *)
Definition wrap16 (z : Z) : Z := z mod 65536.
Definition wrap32 (z : Z) : Z := z mod 4294967296.
Definition wrap64 (z : Z) : Z := z mod 18446744073709551616.

(** [z as i64] for an integer that is taken modulo 2^64. *)
Definition as_i64 (z : Z) : Z :=
  let w := wrap64 z in if w <=? i64_max then w else w - 18446744073709551616.

(** [u64::saturating_add], [uN::saturating_sub] and [i64::saturating_add]. *)
Definition sat_add_u64 (a b : Z) : Z := Z.min (a + b) u64_max.
Definition sat_sub (a b : Z) : Z := Z.max 0 (a - b).
Definition sat_add_i64 (a b : Z) : Z := Z.max i64_min (Z.min (a + b) i64_max).

Definition in_i64 (z : Z) : bool := (i64_min <=? z) && (z <=? i64_max).
Definition in_u64 (z : Z) : bool := (0 <=? z) && (z <=? u64_max).

(** [i64::checked_add], [checked_mul] and [checked_neg]. *)
Definition checked_i64 (z : Z) : option Z := if in_i64 z then Some z else None.

(** ** Results and the state-and-error monad *)

(** Rust's [Result<A, E>]. *)
Inductive result (E A : Type) : Type :=
| Ok (a : A)
| Err (e : E).
Arguments Ok {E A} a.
Arguments Err {E A} e.

(** A computation on a shared state [S] that may return early with an error:
    the mutations made before an early return stay, as they do in the code. *)
Definition SE (S E A : Type) : Type := S → result E A * S.

#[export] Instance se_ret {S E} : MRet (SE S E) := λ A a s, (Ok a, s).

#[export] Instance se_bind {S E} : MBind (SE S E) := λ A B f m s,
  match m s with
  | (Ok a, s') => f a s'
  | (Err e, s') => (Err e, s')
  end.

(** [return Err(e)] / the [?] operator's error exit. *)
Definition throw {S E A} (e : E) : SE S E A := λ s, (Err e, s).

(** Reading and updating the state. *)
Definition gets {S E A} (f : S → A) : SE S E A := λ s, (Ok (f s), s).
Definition modify {S E} (f : S → S) : SE S E () := λ s, (Ok tt, f s).

(** Runs [m] for its effect on the state and hands its outcome back as a
    value (a Rust call whose [Result] is inspected instead of propagated). *)
Definition attempt {S E A} (m : SE S E A) : SE S E (result E A) :=
  λ s, let '(r, s') := m s in (Ok r, s').

(** [for x in l { f(x)? }] *)
Fixpoint for_each {S E A} (l : list A) (f : A → SE S E ()) : SE S E () :=
  match l with
  | [] => mret tt
  | x :: l' => f x;; for_each l' f
  end.

(** [r?] on a plain result. *)
Definition lift_result {S E A} (r : result E A) : SE S E A := λ s, (r, s).

(** ** Triples: pre- and postconditions of monadic code *)

Definition triple {S E A} (P : S → Prop) (m : SE S E A)
    (Q : result E A → S → Prop) : Prop :=
  ∀ s, P s → Q (m s).1 (m s).2.

(** [I] holds after [m] whenever it held before, whatever [m] returns. *)
Definition preserves {S E A} (I : S → Prop) (m : SE S E A) : Prop :=
  triple I m (λ _ s, I s).

(** ** Automation *)

Create HintDb ferrum discriminated.
#[export] Hint Constants Opaque : ferrum.
#[export] Hint Variables Opaque : ferrum.
Create HintDb preserve discriminated.
#[export] Hint Constants Opaque : preserve.
#[export] Hint Variables Opaque : preserve.

(** Destructs the scrutinee of the innermost [match]/[if] of the goal. *)
Ltac case_goal :=
  match goal with
  | |- context [match ?x with _ => _ end] =>
      lazymatch x with
      | context [match _ with _ => _ end] => fail
      | _ => destruct x eqn:?
      end
  end.

(** Turns boolean arithmetic facts into propositions. *)
Ltac bool_to_prop :=
  repeat match goal with
  | H : _ && _ = true |- _ => apply andb_prop in H; destruct H
  | H : (_ <=? _) = true |- _ => apply Z.leb_le in H
  | H : (_ <=? _) = false |- _ => apply Z.leb_gt in H
  | H : (_ <? _) = true |- _ => apply Z.ltb_lt in H
  | H : (_ <? _) = false |- _ => apply Z.ltb_ge in H
  | H : (_ =? _) = true |- _ => apply Z.eqb_eq in H
  | H : (_ =? _) = false |- _ => apply Z.eqb_neq in H
  | H : bool_decide _ = true |- _ => apply bool_decide_eq_true in H
  | H : bool_decide _ = false |- _ => apply bool_decide_eq_false in H
  end.

(** [lia] with the machine-integer constants unfolded. *)
Ltac mlia :=
  unfold u8_max, u16_max, u32_max, u64_max, i64_min, i64_max, blen,
    sat_sub, sat_add_u64, sat_add_i64 in *; lia.

(** ** Lemmas on triples *)

Section triples.
Context {S E : Type}.
Implicit Types I P : S → Prop.

Lemma triple_bind {A B} P (m : SE S E A) (f : A → SE S E B) Q R :
  triple P m R →
  (∀ a, triple (R (Ok a)) (f a) Q) →
  (∀ e s, R (Err e) s → Q (Err e) s) →
  triple P (m ≫= f) Q.
Proof.
  intros Hm Hf He s HP. specialize (Hm s HP).
  unfold mbind, se_bind. destruct (m s) as [[a|e] s']; simpl in *.
  - by apply Hf.
  - by apply He.
Qed.

Lemma triple_weaken {A} P P' (m : SE S E A) (Q Q' : result E A → S → Prop) :
  triple P m Q → (∀ s, P' s → P s) → (∀ r s, Q r s → Q' r s) → triple P' m Q'.
Proof. intros H HP HQ s Hs. apply HQ, H, HP, Hs. Qed.

Lemma preserves_bind {A B} I (m : SE S E A) (f : A → SE S E B) :
  preserves I m → (∀ a, preserves I (f a)) → preserves I (m ≫= f).
Proof. intros Hm Hf. by eapply triple_bind. Qed.

Lemma preserves_ret {A} I (a : A) : preserves I (mret a : SE S E A).
Proof. by intros s. Qed.

Lemma preserves_throw {A} I (e : E) : preserves I (throw e : SE S E A).
Proof. by intros s. Qed.

Lemma preserves_gets {A} I (f : S → A) : preserves I (gets f : SE S E A).
Proof. by intros s. Qed.

(** The rest of the computation may rely on what the state was. *)
Lemma preserves_read {A B} I (g : S → A) (f : A → SE S E B) :
  (∀ s, I s → preserves I (f (g s))) → preserves I (gets g ≫= f).
Proof. intros Hf s Hs. exact (Hf s Hs s Hs). Qed.

Lemma preserves_modify I (f : S → S) :
  (∀ s, I s → I (f s)) → preserves I (modify f : SE S E ()).
Proof. intros Hf s Hs. by apply Hf. Qed.

Lemma preserves_attempt {A} I (m : SE S E A) :
  preserves I m → preserves I (attempt m).
Proof.
  intros Hm s Hs. specialize (Hm s Hs). unfold attempt.
  by destruct (m s) as [r s'].
Qed.

Lemma preserves_lift_result {A} I (r : result E A) :
  preserves I (lift_result r : SE S E A).
Proof. by intros s. Qed.

Lemma preserves_for_each {A} I (l : list A) (f : A → SE S E ()) :
  (∀ x, x ∈ l → preserves I (f x)) → preserves I (for_each l f).
Proof.
  induction l as [|x l IH]; simpl; intros Hf.
  - apply preserves_ret.
  - apply preserves_bind; [apply Hf; by left|].
    intros _. apply IH. intros y Hy. apply Hf. by right.
Qed.

End triples.

#[export] Hint Resolve preserves_bind preserves_ret preserves_throw
  preserves_gets preserves_attempt preserves_lift_result : preserve.

(** ** Lemmas on bytes and integers *)

Lemma b2z_range b : 0 ≤ b2z b ≤ 255.
Proof. unfold b2z. pose proof (Byte.to_N_bounded b). lia. Qed.

Lemma b2z_inj b1 b2 : b2z b1 = b2z b2 → b1 = b2.
Proof.
  unfold b2z. intros H. apply N2Z.inj in H.
  pose proof (Byte.of_to_N b1) as E1. pose proof (Byte.of_to_N b2) as E2.
  rewrite H in E1. congruence.
Qed.

Lemma z2b_b2z b : z2b (b2z b) = b.
Proof. by destruct b. Qed.

Lemma b2z_z2b z : 0 ≤ z ≤ 255 → b2z (z2b z) = z.
Proof.
  intros Hz. unfold z2b, b2z. rewrite Z.mod_small by lia.
  destruct (Byte.of_N (Z.to_N z)) as [b|] eqn:E.
  - apply Byte.to_of_N in E. rewrite E. lia.
  - exfalso. apply Byte.of_N_None_iff in E. lia.
Qed.

Lemma bytes_eqb_eq x y : bytes_eqb x y = true ↔ x = y.
Proof. apply bool_decide_eq_true. Qed.

Lemma bytes_eqb_refl x : bytes_eqb x x = true.
Proof. by apply bytes_eqb_eq. Qed.

Lemma blen_app {A} (l k : list A) : blen (l ++ k) = blen l + blen k.
Proof. unfold blen. rewrite length_app. lia. Qed.

Lemma blen_cons {A} (x : A) l : blen (x :: l) = 1 + blen l.
Proof. unfold blen. cbn [length]. lia. Qed.

Lemma blen_nonneg {A} (l : list A) : 0 ≤ blen l.
Proof. unfold blen. lia. Qed.

#[export] Hint Resolve blen_nonneg : ferrum.
