(* ===== verification/Numeric.v ===== *)
(** * Decimal text of machine integers

    The code renders lengths, counters and timestamps with [to_string] and
    reads them back with [str::parse]. This file models both directions of the
    Rust standard library's decimal conversions on byte strings, ASCII case
    folding and trimming, and proves that parsing inverts printing. *)
From S2P Require Import Prelude.
From Stdlib Require Import Strings.Byte.
From stdpp Require Import gmap list strings numbers.
Local Open Scope Z_scope.

(** ** Printing *)

(** The ASCII digit of [0 <= d <= 9]. *)
Definition digit (d : Z) : byte := z2b (48 + d).

(** Most significant digit first; [fuel] bounds the number of digits. *)
Fixpoint dec_digits (fuel : nat) (n : Z) : bytes :=
  match fuel with
  | O => []
  | S f => (if n <? 10 then [] else dec_digits f (n / 10)) ++ [digit (n mod 10)]
  end.

(** Number of fuel units that suffice for [n]: one per binary digit. *)
Definition dec_fuel (n : Z) : nat := S (Z.to_nat (Z.log2 n)).

(** [u64::to_string], [usize::to_string]. *)
Definition to_string_u (n : Z) : bytes := dec_digits (dec_fuel n) n.

(** [i64::to_string]. *)
Definition to_string_i (n : Z) : bytes :=
  if n <? 0 then x2d :: to_string_u (- n) else to_string_u n.

(** ** Parsing *)

(** [u8::is_ascii_digit] and the digit's value. *)
Definition is_digit (b : byte) : bool := (48 <=? b2z b) && (b2z b <=? 57).
Definition digit_val (b : byte) : Z := b2z b - 48.

(** Accumulates decimal digits; [None] on any other byte. *)
Fixpoint digits_val (acc : Z) (s : bytes) : option Z :=
  match s with
  | [] => Some acc
  | c :: s' => if is_digit c then digits_val (10 * acc + digit_val c) s' else None
  end.

(** At least one digit. *)
Definition parse_digits (s : bytes) : option Z :=
  match s with [] => None | _ => digits_val 0 s end.

(** Integer in range or a parse error. The accumulation in the library stops at
    the first overflow; the magnitude only grows with further digits, so the
    range test on the final value decides the same. *)
Definition in_range (lo hi : Z) (o : option Z) : option Z :=
  match o with
  | Some z => if (lo <=? z) && (z <=? hi) then Some z else None
  | None => None
  end.

(** [str::parse::<i64>]: an optional sign, then digits. *)
Definition parse_i64 (s : bytes) : option Z :=
  match s with
  | c :: s' =>
      if decide (c = x2b) then in_range i64_min i64_max (parse_digits s')
      else if decide (c = x2d) then
        in_range i64_min i64_max (Z.opp <$> parse_digits s')
      else in_range i64_min i64_max (parse_digits s)
  | [] => None
  end.

(** [str::parse] for an unsigned type with maximum [hi]: an optional [+]. *)
Definition parse_unsigned (hi : Z) (s : bytes) : option Z :=
  match s with
  | c :: s' =>
      if decide (c = x2b) then in_range 0 hi (parse_digits s')
      else in_range 0 hi (parse_digits s)
  | [] => None
  end.
Definition parse_u64 : bytes → option Z := parse_unsigned u64_max.
Definition parse_usize : bytes → option Z := parse_unsigned u64_max.
Definition parse_u16 : bytes → option Z := parse_unsigned u16_max.

(** ** ASCII case and whitespace *)

(** [u8::to_ascii_uppercase] / [to_ascii_lowercase]. *)
Definition to_upper (b : byte) : byte :=
  if (97 <=? b2z b) && (b2z b <=? 122) then z2b (b2z b - 32) else b.
Definition to_lower (b : byte) : byte :=
  if (65 <=? b2z b) && (b2z b <=? 90) then z2b (b2z b + 32) else b.

(** [<[u8]>::eq_ignore_ascii_case]. *)
Definition eq_ignore_ascii_case (x y : bytes) : bool :=
  bytes_eqb (map to_lower x) (map to_lower y).

(** [char::is_whitespace] by the length of the character's encoding: ASCII, two
    bytes (U+0085, U+00A0) and three bytes (U+1680, U+2000 to U+200A, U+2028,
    U+2029, U+202F, U+205F, U+3000). *)
Definition is_space (b : byte) : bool :=
  ((9 <=? b2z b) && (b2z b <=? 13)) || (b2z b =? 32).
Definition is_space2 (a b : byte) : bool :=
  (b2z a =? 194) && ((b2z b =? 133) || (b2z b =? 160)).
Definition is_space3 (a b c : byte) : bool :=
  ((b2z a =? 225) && (b2z b =? 154) && (b2z c =? 128)) ||
  ((b2z a =? 226) && (b2z b =? 128) &&
     (((128 <=? b2z c) && (b2z c <=? 138)) || (b2z c =? 168) || (b2z c =? 169) || (b2z c =? 175))) ||
  ((b2z a =? 226) && (b2z b =? 129) && (b2z c =? 159)) ||
  ((b2z a =? 227) && (b2z b =? 128) && (b2z c =? 128)).

(** Drops leading whitespace; [flip] reads the bytes of a character backwards. *)
Fixpoint trim_front_ws (flip : bool) (s : bytes) : bytes :=
  match s with
  | [] => []
  | a :: s1 =>
      if is_space a then trim_front_ws flip s1
      else match s1 with
           | [] => s
           | b :: s2 =>
               if (if flip then is_space2 b a else is_space2 a b) then trim_front_ws flip s2
               else match s2 with
                    | [] => s
                    | c :: s3 =>
                        if (if flip then is_space3 c b a else is_space3 a b c)
                        then trim_front_ws flip s3 else s
                    end
           end
  end.

(** [str::trim] *)
Definition trim (s : bytes) : bytes :=
  rev (trim_front_ws true (rev (trim_front_ws false s))).

(** ** Lemmas *)

Lemma b2z_digit d : 0 ≤ d ≤ 9 → b2z (digit d) = 48 + d.
Proof. intros Hd. unfold digit. apply b2z_z2b. lia. Qed.

Lemma is_digit_digit d : 0 ≤ d ≤ 9 → is_digit (digit d) = true.
Proof. intros Hd. unfold is_digit. rewrite b2z_digit by lia. lia. Qed.

Lemma digit_val_digit d : 0 ≤ d ≤ 9 → digit_val (digit d) = d.
Proof. intros Hd. unfold digit_val. rewrite b2z_digit by lia. lia. Qed.

Lemma digits_val_app acc s t :
  digits_val acc (s ++ t) = digits_val acc s ≫= λ a, digits_val a t.
Proof.
  revert acc. induction s as [|c s IH]; intros acc; simpl; [done|].
  destruct (is_digit c); [apply IH|done].
Qed.

Lemma dec_digits_val fuel n :
  0 ≤ n → n < 2 ^ Z.of_nat fuel → digits_val 0 (dec_digits fuel n) = Some n.
Proof.
  revert n. induction fuel as [|f IH]; intros n Hn Hlt.
  { change (2 ^ Z.of_nat 0) with 1 in Hlt. simpl. f_equal. lia. }
  cbn [dec_digits]. rewrite digits_val_app.
  assert (0 ≤ n mod 10 ≤ 9) by (pose proof (Z.mod_pos_bound n 10); lia).
  assert (Hpre : digits_val 0 (if n <? 10 then [] else dec_digits f (n / 10))
                 = Some (n / 10)).
  { destruct (n <? 10) eqn:E; bool_to_prop.
    - simpl. f_equal. symmetry. apply Z.div_small. lia.
    - apply IH; [apply Z.div_pos; lia|].
      rewrite Nat2Z.inj_succ, Z.pow_succ_r in Hlt by lia.
      apply Z.div_lt_upper_bound; lia. }
  rewrite Hpre. simpl. rewrite is_digit_digit, digit_val_digit by lia.
  f_equal. pose proof (Z.div_mod n 10). lia.
Qed.

Lemma dec_digits_all_digits fuel n :
  0 ≤ n → Forall (λ b, is_digit b = true) (dec_digits fuel n).
Proof.
  revert n. induction fuel as [|f IH]; intros n Hn; [constructor|].
  cbn [dec_digits]. apply Forall_app. split.
  - destruct (n <? 10); [constructor|]. apply IH, Z.div_pos; lia.
  - constructor; [|constructor]. apply is_digit_digit.
    pose proof (Z.mod_pos_bound n 10). lia.
Qed.

Lemma to_string_u_digits n :
  0 ≤ n → Forall (λ b, is_digit b = true) (to_string_u n).
Proof. apply dec_digits_all_digits. Qed.

Lemma to_string_u_nonempty n : to_string_u n ≠ [].
Proof. unfold to_string_u, dec_fuel. simpl. by intros []%app_eq_nil. Qed.

Lemma dec_digits_length fuel n : (length (dec_digits fuel n) ≤ fuel)%nat.
Proof.
  revert n. induction fuel as [|f IH]; intros n; simpl; [done|].
  rewrite length_app. simpl. case_match; [simpl; lia|]. specialize (IH (n / 10)). lia.
Qed.

Lemma to_string_u_length n : blen (to_string_u n) ≤ Z.log2 n + 1.
Proof.
  pose proof (dec_digits_length (dec_fuel n) n) as Hl. pose proof (Z.log2_nonneg n).
  unfold blen, to_string_u, dec_fuel in *. lia.
Qed.

Lemma to_string_i_length z : in_i64 z = true → blen (to_string_i z) ≤ 65.
Proof.
  unfold in_i64, i64_min, i64_max. intros Hz. apply andb_prop in Hz as [H1 H2].
  apply Z.leb_le in H1, H2.
  assert (Hu : ∀ n, n ≤ 9223372036854775808 → blen (to_string_u n) ≤ 64).
  { intros n Hn. pose proof (to_string_u_length n). pose proof (Z.log2_le_mono _ _ Hn) as Hl.
    change (Z.log2 9223372036854775808) with 63 in Hl. lia. }
  unfold to_string_i. destruct (z <? 0); [|specialize (Hu z); lia].
  rewrite blen_cons. specialize (Hu (- z)). lia.
Qed.

Lemma digits_val_to_string n : 0 ≤ n → digits_val 0 (to_string_u n) = Some n.
Proof.
  intros Hn. apply dec_digits_val; [done|]. unfold dec_fuel.
  rewrite Nat2Z.inj_succ, Z2Nat.id by apply Z.log2_nonneg.
  destruct (Z.eq_dec n 0) as [->|]; [done|]. apply Z.log2_spec. lia.
Qed.

Lemma parse_digits_to_string n : 0 ≤ n → parse_digits (to_string_u n) = Some n.
Proof.
  intros Hn. rewrite <- (digits_val_to_string n) by done. unfold parse_digits.
  destruct (to_string_u n) eqn:E; [by apply to_string_u_nonempty in E|done].
Qed.

Lemma is_digit_not_sign c : is_digit c = true → c ≠ x2b ∧ c ≠ x2d.
Proof. by destruct c. Qed.

Lemma to_string_u_head n :
  0 ≤ n → ∃ c s, to_string_u n = c :: s ∧ is_digit c = true.
Proof.
  intros Hn. destruct (to_string_u n) as [|c s] eqn:E.
  - by apply to_string_u_nonempty in E.
  - exists c, s. split; [done|].
    pose proof (to_string_u_digits n Hn) as H. rewrite E in H.
    by inversion H.
Qed.

Lemma parse_unsigned_to_string hi n :
  0 ≤ n ≤ hi → parse_unsigned hi (to_string_u n) = Some n.
Proof.
  intros Hn. destruct (to_string_u_head n) as (c & s & E & Hc); [lia|].
  pose proof (parse_digits_to_string n) as Hp. rewrite E in *.
  apply is_digit_not_sign in Hc as [Hp1 _]. unfold parse_unsigned.
  rewrite decide_False by done. rewrite Hp by lia. unfold in_range.
  destruct (_ && _) eqn:B; [done|lia].
Qed.

(** A positive number does not start with a zero. *)
Lemma dec_digits_head_pos fuel n :
  0 < n → n < 2 ^ Z.of_nat fuel → ∃ c s, dec_digits fuel n = c :: s ∧ c ≠ x30.
Proof.
  revert n. induction fuel as [|f IH]; intros n Hn Hlt.
  { change (2 ^ Z.of_nat 0) with 1 in Hlt. lia. }
  cbn [dec_digits]. destruct (n <? 10) eqn:E; bool_to_prop.
  - exists (digit (n mod 10)), []. split; [done|]. rewrite Z.mod_small by lia. intros Hd.
    pose proof (b2z_digit n ltac:(lia)) as Hb. rewrite Hd in Hb. change (b2z x30) with 48 in Hb. lia.
  - destruct (IH (n / 10)) as (c & s & -> & Hc); [apply Z.div_str_pos; lia| |by exists c, (s ++ [digit (n mod 10)])].
    rewrite Nat2Z.inj_succ, Z.pow_succ_r in Hlt by lia. apply Z.div_lt_upper_bound; lia.
Qed.
Lemma to_string_u_head_pos n : 0 < n → head (to_string_u n) ≠ Some x30.
Proof.
  intros Hn. destruct (dec_digits_head_pos (dec_fuel n) n) as (c & s & E & Hc); [done| |].
  - unfold dec_fuel. rewrite Nat2Z.inj_succ, Z2Nat.id by apply Z.log2_nonneg. by apply Z.log2_spec.
  - unfold to_string_u. rewrite E. simpl. congruence.
Qed.

(** What is read is in range. *)
Lemma in_range_spec lo hi o z : in_range lo hi o = Some z → lo ≤ z ≤ hi.
Proof. unfold in_range. repeat case_match; intros; simplify_eq; bool_to_prop; lia. Qed.
Lemma parse_unsigned_range hi s z : parse_unsigned hi s = Some z → 0 ≤ z ≤ hi.
Proof. unfold parse_unsigned. repeat case_match; intros; try done; by eapply in_range_spec. Qed.

Lemma parse_i64_to_string_u n :
  0 ≤ n ≤ i64_max → parse_i64 (to_string_u n) = Some n.
Proof.
  intros Hn. destruct (to_string_u_head n) as (c & s & E & Hc); [lia|].
  pose proof (parse_digits_to_string n) as Hp. rewrite E in *.
  apply is_digit_not_sign in Hc as [Hp1 Hp2]. unfold parse_i64.
  rewrite !decide_False by done. rewrite Hp by lia. unfold in_range.
  destruct (_ && _) eqn:B; [done|mlia].
Qed.

Lemma parse_i64_to_string n : in_i64 n = true → parse_i64 (to_string_i n) = Some n.
Proof.
  unfold in_i64. intros H; bool_to_prop. unfold to_string_i.
  destruct (n <? 0) eqn:E; bool_to_prop.
  - unfold parse_i64. rewrite decide_False, decide_True by done.
    rewrite parse_digits_to_string by lia. simpl. unfold in_range.
    rewrite Z.opp_involutive. destruct (_ && _) eqn:B; [done|lia].
  - apply parse_i64_to_string_u. lia.
Qed.

Lemma is_digit_not_cr c : is_digit c = true → c ≠ x0d.
Proof. by destruct c. Qed.

Lemma to_string_u_no_cr n : 0 ≤ n → Forall (λ b, b ≠ x0d) (to_string_u n).
Proof.
  intros Hn. eapply Forall_impl; [|by apply to_string_u_digits].
  intros b. apply is_digit_not_cr.
Qed.

Lemma to_upper_idem b : to_upper (to_upper b) = to_upper b.
Proof. by destruct b. Qed.

#[export] Hint Resolve to_string_u_no_cr parse_digits_to_string : ferrum.

Lemma in_range_in_i64 o z : in_range i64_min i64_max o = Some z → in_i64 z = true.
Proof. unfold in_range, in_i64. repeat case_match; naive_solver. Qed.

Lemma parse_i64_in_i64 s z : parse_i64 s = Some z → in_i64 z = true.
Proof. unfold parse_i64. repeat case_match; eauto using in_range_in_i64; done. Qed.
