(* ===== verification/Text.v ===== *)
(** * Text: UTF-8 validity, lossy decoding and [Debug] quoting

    Models what the code uses of [std::str] and [String]: [from_utf8],
    [from_utf8_lossy], the [{:?}] formatting of characters and strings that
    appear in error messages, and the splitting of strings. *)
From S2P Require Import Prelude Numeric.
From Stdlib Require Import Strings.Byte.
From stdpp Require Import gmap strings numbers list.
Local Open Scope Z_scope.

Definition is_cont (b : byte) : bool := (128 <=? b2z b) && (b2z b <=? 191).

(** Byte at index [i], or [0] past the end (the library's [safe_get]). *)
Definition at0 (s : bytes) (i : nat) : byte := nth i s x00.

Definition between (lo hi : Z) (b : byte) : bool := (lo <=? b2z b) && (b2z b <=? hi).

(** Examines the sequence at the head of a non-empty [s]: the number of bytes
    it takes and whether it is a valid encoding. An invalid sequence takes its
    maximal valid prefix, as in [Utf8Chunks]. *)
Definition utf8_step (s : bytes) : nat * bool :=
  let c := at0 s 0 in
  if b2z c <? 128 then (1%nat, true)
  else if between 194 223 c then
    if is_cont (at0 s 1) then (2%nat, true) else (1%nat, false)
  else if between 224 239 c then
    let second_ok :=
      if b2z c =? 224 then between 160 191 (at0 s 1)
      else if b2z c =? 237 then between 128 159 (at0 s 1)
      else is_cont (at0 s 1) in
    if second_ok then
      if is_cont (at0 s 2) then (3%nat, true) else (2%nat, false)
    else (1%nat, false)
  else if between 240 244 c then
    let second_ok :=
      if b2z c =? 240 then between 144 191 (at0 s 1)
      else if b2z c =? 244 then between 128 143 (at0 s 1)
      else is_cont (at0 s 1) in
    if second_ok then
      if is_cont (at0 s 2) then
        if is_cont (at0 s 3) then (4%nat, true) else (3%nat, false)
      else (2%nat, false)
    else (1%nat, false)
  else (1%nat, false).

(** [std::str::from_utf8(s).is_ok()]; every step consumes a byte, so the length
    of the input is enough fuel. *)
Fixpoint utf8_valid_fuel (fuel : nat) (s : bytes) : bool :=
  match fuel, s with
  | _, [] => true
  | O, _ => false
  | S f, _ => let '(n, ok) := utf8_step s in ok && utf8_valid_fuel f (drop n s)
  end.
Definition utf8_valid (s : bytes) : bool := utf8_valid_fuel (length s) s.

(** U+FFFD, the replacement character. *)
Definition replacement : bytes := [xef; xbf; xbd].

(** [String::from_utf8_lossy]. *)
Fixpoint utf8_lossy_fuel (fuel : nat) (s : bytes) : bytes :=
  match fuel, s with
  | _, [] => []
  | O, _ => []
  | S f, _ =>
      let '(n, ok) := utf8_step s in
      (if ok then take n s else replacement) ++ utf8_lossy_fuel f (drop n s)
  end.
Definition utf8_lossy (s : bytes) : bytes := utf8_lossy_fuel (length s) s.

(** Lower-case hexadecimal without leading zeros, for [\u{..}]. *)
Definition hex_digit (d : Z) : byte := if d <? 10 then z2b (48 + d) else z2b (87 + d).
Definition hex_byte (z : Z) : bytes :=
  if z <? 16 then [hex_digit z] else [hex_digit (z / 16); hex_digit (z mod 16)].
Definition unicode_escape (z : Z) : bytes := str "\u{" ++ hex_byte z ++ str "}".

(** Escapes shared by the [Debug] output of characters and strings. *)
Definition debug_common (b : byte) : option bytes :=
  if decide (b = x00) then Some (str "\0")
  else if decide (b = x09) then Some (str "\t")
  else if decide (b = x0d) then Some (str "\r")
  else if decide (b = x0a) then Some (str "\n")
  else if decide (b = x5c) then Some (str "\\")
  else if (b2z b <? 32) || (b2z b =? 127) then Some (unicode_escape (b2z b))
  else None.

(** [format!("{:?}", b as char)]: [b] read as a Latin-1 character. *)
Definition debug_char (b : byte) : bytes :=
  [x27] ++
  match debug_common b with
  | Some e => e
  | None =>
      if decide (b = x27) then str "\'"
      else if b2z b <? 128 then [b]
      else if (b2z b <=? 160) || (b2z b =? 173) then unicode_escape (b2z b)
      else [z2b (192 + b2z b / 64); z2b (128 + b2z b mod 64)]
  end ++ [x27].

(** [format!("{:?}", s)] for text; characters outside ASCII are taken to be
    printable and pass through. *)
Definition debug_str (s : bytes) : bytes :=
  [x22] ++
  flat_map (λ b, match debug_common b with
                 | Some e => e
                 | None => if decide (b = x22) then [x5c; x22] else [b]
                 end) s ++ [x22].

(** ** Taking strings apart *)

(** [str::strip_suffix] and [str::strip_prefix]. *)
Definition str_strip_suffix (s suffix : bytes) : option bytes :=
  let n := (length s - length suffix)%nat in
  if bool_decide ((length suffix ≤ length s)%nat ∧ drop n s = suffix) then Some (take n s) else None.
Definition str_strip_prefix (s prefix : bytes) : option bytes :=
  if bool_decide (take (length prefix) s = prefix) then Some (drop (length prefix) s) else None.

(** [str::lines]: the pieces that end with a line feed, without it and without a
    carriage return before it, and the rest if it is not empty. *)
Fixpoint lines (s : bytes) : list bytes :=
  match s with
  | [] => []
  | c :: s1 =>
      let more := match lines s1 with [] => [[c]] | l :: ls => (c :: l) :: ls end in
      if bool_decide (c = x0a) then [] :: lines s1
      else match s1 with
           | [] => more
           | d :: s2 => if bool_decide (c = x0d) && bool_decide (d = x0a) then [] :: lines s2 else more
           end
  end.

(** The text up to the first whitespace character, and the text after it if there
    is one: the items of [splitn(2, char::is_whitespace)]. *)
Fixpoint break_ws (s : bytes) : bytes * option bytes :=
  match s with
  | [] => ([], None)
  | a :: s1 =>
      let more := let '(w, rest) := break_ws s1 in (a :: w, rest) in
      if is_space a then ([], Some s1)
      else match s1 with
           | [] => more
           | b :: s2 =>
               if is_space2 a b then ([], Some s2)
               else match s2 with
                    | [] => more
                    | c :: s3 => if is_space3 a b c then ([], Some s3) else more
                    end
           end
  end.

(** [s.split_whitespace().next()] *)
Definition first_word (s : bytes) : option bytes :=
  match trim_front_ws false s with
  | [] => None
  | s => Some (break_ws s).1
  end.

(** [slice.split(|&b| b == sep)] and [str::split] at an ASCII character. *)
Fixpoint split_on (sep : byte) (s : bytes) : list bytes :=
  match s with
  | [] => [[]]
  | c :: s =>
      if bool_decide (c = sep) then [] :: split_on sep s
      else match split_on sep s with [] => [[c]] | l :: ls => (c :: l) :: ls end
  end.

(** [str::split_once] at an ASCII character. *)
Fixpoint split_once (sep : byte) (s : bytes) : option (bytes * bytes) :=
  match s with
  | [] => None
  | c :: s =>
      if bool_decide (c = sep) then Some ([], s)
      else match split_once sep s with Some (k, v) => Some (c :: k, v) | None => None end
  end.

(** ** Lemmas *)

Lemma utf8_step_pos s : (1 ≤ (utf8_step s).1)%nat.
Proof. unfold utf8_step. repeat case_match; simpl; lia. Qed.

Lemma ascii_step b s : b2z b < 128 → utf8_step (b :: s) = (1%nat, true).
Proof. intros H. unfold utf8_step, at0. simpl. destruct (_ <? _) eqn:E; [done|lia]. Qed.

Lemma ascii_utf8_valid s : Forall (λ b, b2z b < 128) s → utf8_valid s = true.
Proof.
  intros H. unfold utf8_valid. induction H as [|b s Hb Hs IH]; [done|].
  simpl. rewrite ascii_step by done. simpl. by rewrite drop_0.
Qed.

Lemma is_digit_ascii b : is_digit b = true → b2z b < 128.
Proof. unfold is_digit. intros H; bool_to_prop. lia. Qed.

Lemma to_string_u_utf8 n : 0 ≤ n → utf8_valid (to_string_u n) = true.
Proof.
  intros Hn. apply ascii_utf8_valid.
  eapply Forall_impl; [by apply to_string_u_digits|]. intros b. apply is_digit_ascii.
Qed.

Lemma to_string_i_utf8 n : in_i64 n = true → utf8_valid (to_string_i n) = true.
Proof.
  intros _. unfold to_string_i. destruct (n <? 0) eqn:E; bool_to_prop.
  - apply ascii_utf8_valid. constructor; [done|].
    eapply Forall_impl; [apply to_string_u_digits; lia|].
    intros b. apply is_digit_ascii.
  - by apply to_string_u_utf8.
Qed.

#[export] Hint Resolve to_string_u_utf8 to_string_i_utf8 : ferrum.

(** ** Words and lines *)

(** A printable ASCII character other than the space. *)
Definition graphic (b : byte) : bool := (33 <=? b2z b) && (b2z b <=? 126).

Lemma graphic_not_space b : graphic b = true → is_space b = false.
Proof.
  unfold graphic, is_space. intros Hb. bool_to_prop.
  apply orb_false_intro; [apply andb_false_intro2, Z.leb_gt|apply Z.eqb_neq]; lia.
Qed.
Lemma graphic_space2 a b : graphic a = true ∨ graphic b = true → is_space2 a b = false.
Proof.
  unfold graphic, is_space2. intros Hg. apply not_true_iff_false. intros E.
  apply andb_prop in E as [E1 E2]. apply orb_prop in E2 as [E2|E2];
    destruct Hg as [Hg|Hg]; bool_to_prop; lia.
Qed.
Lemma graphic_space3 a b c : graphic a = true ∨ graphic c = true → is_space3 a b c = false.
Proof.
  unfold graphic, is_space3. intros Hg. apply not_true_iff_false. intros E.
  repeat match goal with
         | H : _ || _ = true |- _ => apply orb_prop in H as [H|H]
         | H : _ && _ = true |- _ => apply andb_prop in H as [? H]
         end; destruct Hg as [Hg|Hg]; bool_to_prop; lia.
Qed.

(** Text that begins and ends with a graphic character. *)
Definition solid (s : bytes) : bool :=
  match head s, last s with Some a, Some b => graphic a && graphic b | _, _ => false end.

Lemma trim_front_solid flip a s : graphic a = true → trim_front_ws flip (a :: s) = a :: s.
Proof.
  intros Ha. simpl. rewrite graphic_not_space by done.
  destruct s as [|b [|c s]]; [done|..]; destruct flip; rewrite graphic_space2 by auto; try done;
    by rewrite graphic_space3 by auto.
Qed.

Lemma solid_cons s : solid s = true → ∃ a s', s = a :: s' ∧ graphic a = true.
Proof.
  unfold solid. destruct s as [|a s]; [done|]. simpl. destruct (last (a :: s)); [|done].
  intros Hs. apply andb_prop in Hs as [Ha _]. eauto.
Qed.
Lemma solid_rev s : solid s = true → solid (rev s) = true.
Proof.
  unfold solid. rewrite rev_alt. change (rev_append s []) with (reverse s).
  rewrite head_reverse, last_reverse.
  destruct (head s), (last s); try done. by rewrite andb_comm.
Qed.

Lemma trim_solid s : solid s = true → trim s = s.
Proof.
  intros Hs. unfold trim. destruct (solid_cons s Hs) as (a & s' & E & Ha). rewrite E at 1.
  rewrite trim_front_solid, <- E by done.
  destruct (solid_cons _ (solid_rev s Hs)) as (b & s'' & E' & Hb).
  rewrite E', trim_front_solid, <- E' by done. apply rev_involutive.
Qed.

Lemma break_ws_word k v :
  Forall (λ b, graphic b = true) k → break_ws (k ++ x20 :: v) = (k, Some v).
Proof.
  induction 1 as [|a k Ha Hk IH]; [done|].
  cbn [app break_ws]. rewrite graphic_not_space, IH by done.
  destruct (k ++ x20 :: v) as [|b [|c s]]; [done|..]; rewrite graphic_space2 by auto; [done|].
  by rewrite graphic_space3 by auto.
Qed.

(** A line that does not end with a carriage return is read whole. *)
Lemma lines_line l rest :
  x0a ∉ l → last l ≠ Some x0d → lines (l ++ x0a :: rest) = l :: lines rest.
Proof.
  induction l as [|c l IH]; intros Hn Hl; [done|]. apply not_elem_of_cons in Hn as [Hc Hn].
  assert (Hcr : l = [] → c ≠ x0d) by (intros -> ->; done).
  assert (Hl' : last l ≠ Some x0d) by (destruct l; [done|exact Hl]).
  specialize (IH Hn Hl'). cbn [app lines]. rewrite bool_decide_false, IH by congruence.
  destruct l as [|d l]; cbn [app].
  - by rewrite bool_decide_false by auto.
  - apply not_elem_of_cons in Hn as [Hd _]. by rewrite (bool_decide_false (d = x0a)), andb_false_r by congruence.
Qed.

(** ** Valid text is kept *)

Lemma utf8_lossy_valid s : utf8_valid s = true → utf8_lossy s = s.
Proof.
  unfold utf8_valid, utf8_lossy. generalize (length s) as fuel. intros fuel. revert s.
  induction fuel as [|fuel IH]; intros s; destruct s as [|c s]; try done. cbn [utf8_valid_fuel utf8_lossy_fuel].
  destruct (utf8_step (c :: s)) as [n ok]. intros Hv. apply andb_prop in Hv as [-> Hv].
  rewrite IH by done. apply take_drop.
Qed.
