(* ===== verification/Error.v ===== *)
(** * The unified error type (src/src/error/kind.rs) *)
From S2P Require Import Prelude Numeric Text.
From Stdlib Require Import Strings.Byte.
From stdpp Require Import gmap list strings numbers.
Local Open Scope Z_scope.

(** [FerrumError]; an [io::Error] is represented by its rendered text. *)
Inductive FerrumError : Type :=
| IoError (msg : bytes)
| LockPoisoned (msg : bytes)
| Internal (msg : bytes)
| ParseError (msg : bytes)
| UnknownCommand (cmd : bytes)
| WrongArity (cmd : bytes)
| KeyTooLong (len max : Z)
| ValueTooLarge (len max : Z)
| OutOfMemory
| PersistenceError (msg : bytes)
| AofNotEnabled.

#[export] Instance FerrumError_eq_dec : EqDecision FerrumError.
Proof. solve_decision. Defined.

(** [impl Display for FerrumError]. *)
Definition display (e : FerrumError) : bytes :=
  match e with
  | IoError m => str "io error: " ++ m
  | LockPoisoned m => str "lock poisoned: " ++ m
  | Internal m => str "internal error: " ++ m
  | ParseError m => m
  | UnknownCommand c => str "unknown command: '" ++ c ++ str "'"
  | WrongArity c => str "wrong number of arguments for '" ++ c ++ str "' command"
  | KeyTooLong len max =>
      str "key too long (" ++ to_string_u len ++ str " bytes, max "
        ++ to_string_u max ++ str ")"
  | ValueTooLarge len max =>
      str "value too large (" ++ to_string_u len ++ str " bytes, max "
        ++ to_string_u max ++ str ")"
  | OutOfMemory => str "command not allowed when used memory > maxmemory"
  | PersistenceError m => str "persistence error: " ++ m
  | AofNotEnabled => str "BGREWRITEAOF cannot be issued when AOF is not enabled"
  end.

(** [Result<A, FerrumError>]. *)
Abbreviation res := (result FerrumError).
