(* ===== verification/Floats.v ===== *)
(** * IEEE-754 arithmetic used by the program

    [f32] drives the probabilistic LFU counter and the adaptive eviction score,
    [f64] the SIEVE-S horizon test and [INCRBYFLOAT]. Both are modelled by the
    Standard Library's [spec_float] at their precision: every operation rounds
    to nearest, ties to even, exactly as the machine does. Decimal conversion
    follows [str::parse::<f64>] (correctly rounded) and [f64::to_string] (the
    shortest decimal that reads back as the same number). *)
From S2P Require Import Prelude Numeric.
From Stdlib Require Import ZArith Lia Strings.Byte SpecFloat.
From stdpp Require Import gmap list strings numbers.
Local Open Scope Z_scope.

(** ** Decimal to binary, correctly rounded *)

(** Rounds [±d * 10^e] with [d > 0] at precision [prec], exponent range [emax]. *)
Definition round_dec_exact (prec emax : Z) (neg : bool) (d e : Z) : spec_float :=
  if 0 <=? e then
    let m := d * 10 ^ e in
    binary_normalize prec emax (if neg then - m else m) 0 false
  else
    let '(q, e', l) := SFdiv_core_binary prec emax d 0 (10 ^ (- e)) 0 in
    binary_round_aux prec emax neg q e' l.

(** Number of decimal digits of [d > 0]. *)
Definition dec_len (d : Z) : Z := blen (to_string_u d).

(** As [round_dec_exact], with the exponents that overflow or underflow every
    supported format decided up front. *)
Definition round_dec (prec emax : Z) (neg : bool) (d e : Z) : spec_float :=
  if d =? 0 then S754_zero neg
  else if 310 <? dec_len d + e then S754_infinity neg
  else if dec_len d + e <? -330 then S754_zero neg
  else round_dec_exact prec emax neg d e.

(** ** f32 *)

Module F32.
Definition of_Z (z : Z) : spec_float := binary_normalize 24 128 z 0 false.
Definition lit (d e : Z) : spec_float := round_dec 24 128 false d e.
Definition add : spec_float → spec_float → spec_float := SFadd 24 128.
Definition sub : spec_float → spec_float → spec_float := SFsub 24 128.
Definition mul : spec_float → spec_float → spec_float := SFmul 24 128.
Definition div : spec_float → spec_float → spec_float := SFdiv 24 128.
Definition neg : spec_float → spec_float := SFopp.
Definition ltb : spec_float → spec_float → bool := SFltb.
Definition leb : spec_float → spec_float → bool := SFleb.

(** [f32::min]: the other operand when one is NaN. *)
Definition min (x y : spec_float) : spec_float :=
  match x with
  | S754_nan => y
  | _ => if ltb y x then y else x
  end.

(** [f32::clamp]. *)
Definition clamp (lo hi x : spec_float) : spec_float :=
  let x := if ltb x lo then lo else x in
  if ltb hi x then hi else x.

Definition zero : spec_float := S754_zero false.
Definition one : spec_float := of_Z 1.
End F32.

(** ** f64 *)

Module F64.
Definition of_Z (z : Z) : spec_float := binary_normalize 53 1024 z 0 false.
Definition lit (d e : Z) : spec_float := round_dec 53 1024 false d e.
Definition add : spec_float → spec_float → spec_float := SFadd 53 1024.
Definition mul : spec_float → spec_float → spec_float := SFmul 53 1024.
Definition div : spec_float → spec_float → spec_float := SFdiv 53 1024.
Definition leb : spec_float → spec_float → bool := SFleb.
Definition zero : spec_float := S754_zero false.

(** [f64::is_finite]. *)
Definition is_finite (x : spec_float) : bool :=
  match x with S754_zero _ | S754_finite _ _ _ => true | _ => false end.

(** Splits off the leading run of digits: its value, its length, the rest. *)
Fixpoint take_digits (acc n : Z) (s : bytes) : Z * Z * bytes :=
  match s with
  | c :: s' =>
      if is_digit c then take_digits (10 * acc + digit_val c) (n + 1) s'
      else (acc, n, s)
  | [] => (acc, n, s)
  end.

(** The optional exponent part: [e] or [E], a sign, at least one digit. *)
Definition parse_exponent (s : bytes) : option Z :=
  match s with
  | [] => Some 0
  | c :: s' =>
      if bool_decide (c = x65) || bool_decide (c = x45) then
        let '(neg, s'') :=
          match s' with
          | c' :: r =>
              if decide (c' = x2d) then (true, r)
              else if decide (c' = x2b) then (false, r) else (false, s')
          | [] => (false, [])
          end in
        let '(v, n, rest) := take_digits 0 0 s'' in
        match rest with
        | [] => if n =? 0 then None else Some (if neg then - v else v)
        | _ => None
        end
      else None
  end.

(** The unsigned part of a number: [digits[.digits][exponent]]. *)
Definition parse_number (neg : bool) (s : bytes) : option spec_float :=
  let '(ip, ni, s1) := take_digits 0 0 s in
  let '(d, nf, s2) :=
    match s1 with
    | c :: r => if decide (c = x2e) then take_digits ip 0 r else (ip, 0, s1)
    | [] => (ip, 0, s1)
    end in
  if ni + nf =? 0 then None
  else match parse_exponent s2 with
       | Some e => Some (round_dec 53 1024 neg d (e - nf))
       | None => None
       end.

(** [str::parse::<f64>]. *)
Definition parse (s : bytes) : option spec_float :=
  match s with
  | [] => None
  | c :: r =>
      let '(neg, body) :=
        if decide (c = x2d) then (true, r)
        else if decide (c = x2b) then (false, r) else (false, s) in
      if eq_ignore_ascii_case body (str "nan") then Some S754_nan
      else if eq_ignore_ascii_case body (str "inf")
              || eq_ignore_ascii_case body (str "infinity")
      then Some (S754_infinity neg)
      else parse_number neg body
  end.

(** [m * 2^e < d * 10^k], on exact integers. *)
Definition lt_dec (m e d k : Z) : bool :=
  (m * 2 ^ Z.max e 0 * 10 ^ Z.max (- k) 0)
    <? (d * 10 ^ Z.max k 0 * 2 ^ Z.max (- e) 0).

(** The decimal exponent [k] with [10^(k-1) <= m * 2^e < 10^k]: an estimate
    from the binary exponent, then the first of five candidates that fits. *)
Definition dec_exp (m e : Z) : Z :=
  let k0 := (Z.log2 m + e) * 1233 / 4096 - 1 in
  let fix go (n : nat) (k : Z) :=
    match n with
    | O => k
    | S n' => if lt_dec m e 1 k then k else go n' (k + 1)
    end in
  go 5%nat k0.

(** [floor (m * 2^e * 10^j)]. *)
Definition scaled (m e j : Z) : Z :=
  (m * 2 ^ Z.max e 0 * 10 ^ Z.max j 0) / (2 ^ Z.max (- e) 0 * 10 ^ Z.max (- j) 0).

(** Is [c * 10^x] strictly closer to [m * 2^e] than [(c+1) * 10^x]? *)
Definition closer_below (m e c x : Z) : bool := lt_dec (2 * m) e (2 * c + 1) x.

(** The shortest digit string (as an integer) and its length. *)
Fixpoint shortest (fuel : nat) (n : Z) (x : spec_float) (m e k : Z) : Z * Z :=
  match fuel with
  | O => (scaled m e (n - k), n)
  | S f =>
      let c := scaled m e (n - k) in
      let ok d := SFeqb (round_dec 53 1024 false d (k - n)) x in
      match ok c, ok (c + 1) with
      | true, true => (if closer_below m e c (k - n) then c else c + 1, n)
      | true, false => (c, n)
      | false, true => (c + 1, n)
      | false, false => shortest f (n + 1) x m e k
      end
  end.

Definition zeros (n : Z) : bytes := repeat x30 (Z.to_nat n).

(** Positional notation of [0.d1d2...dn * 10^k]. *)
Definition positional (ds : bytes) (k : Z) : bytes :=
  if k <=? 0 then str "0." ++ zeros (- k) ++ ds
  else if blen ds <=? k then ds ++ zeros (k - blen ds)
  else take (Z.to_nat k) ds ++ str "." ++ drop (Z.to_nat k) ds.

(** Drops the trailing zeros a carry may leave (as in [10] for [9.99..]). *)
Fixpoint strip0 (fuel : nat) (d : Z) : Z :=
  match fuel with
  | O => d
  | S f => if (d mod 10 =? 0) && (0 <? d) then strip0 f (d / 10) else d
  end.

(** [f64::to_string]. *)
Definition to_string (x : spec_float) : bytes :=
  match x with
  | S754_nan => str "NaN"
  | S754_infinity s => (if s then str "-" else []) ++ str "inf"
  | S754_zero s => (if s then str "-" else []) ++ str "0"
  | S754_finite s m e =>
      let k := dec_exp (Zpos m) e in
      let '(d, n) := shortest 17 1 (S754_finite false m e) (Zpos m) e k in
      let k := if 10 ^ n <=? d then k + 1 else k in
      (if s then str "-" else []) ++ positional (to_string_u (strip0 20 d)) k
  end.

(** [format!("{v:.d}")]: [d] fractional digits of the exact value, rounded half
    to even. *)
Definition round_half_even (num den : Z) : Z :=
  let q := num / den in
  let r := num mod den in
  if 2 * r <? den then q
  else if den <? 2 * r then q + 1
  else if Z.even q then q else q + 1.

Definition fixed (d : Z) (x : spec_float) : bytes :=
  match x with
  | S754_nan => str "NaN"
  | S754_infinity s => (if s then str "-" else []) ++ str "inf"
  | S754_zero s => (if s then str "-" else []) ++ str "0." ++ zeros d
  | S754_finite s m e =>
      let q := round_half_even (Zpos m * 2 ^ Z.max e 0 * 10 ^ d) (2 ^ Z.max (- e) 0) in
      let frac := to_string_u (q mod 10 ^ d) in
      (if s then str "-" else []) ++ to_string_u (q / 10 ^ d) ++ str "."
        ++ zeros (d - blen frac) ++ frac
  end.
Definition fixed17 : spec_float → bytes := fixed 17.
End F64.

Example parse_print_tenth : F64.to_string (default S754_nan (F64.parse (str "0.1"))) = str "0.1".
Proof. vm_compute. reflexivity. Qed.
Example print_sum : option_map F64.to_string
   (x ← F64.parse (str "0.1"); y ← F64.parse (str "0.2"); Some (F64.add x y)) = Some (str "0.30000000000000004").
Proof. vm_compute. reflexivity. Qed.
Example print_big : option_map F64.to_string (F64.parse (str "1.5e21")) = Some (str "1500000000000000000000").
Proof. vm_compute. reflexivity. Qed.
Example print_small : option_map F64.to_string (F64.parse (str "-5e-324")) = Some (str "-" ++ str "0." ++ F64.zeros 323 ++ str "5").
Proof. vm_compute. reflexivity. Qed.
Example print_int : option_map F64.to_string (F64.parse (str "10.50")) = Some (str "10.5").
Proof. vm_compute. reflexivity. Qed.
Example fixed_ex : F64.fixed17 (default S754_nan (F64.parse (str "3.5"))) = str "3.50000000000000000".
Proof. vm_compute. reflexivity. Qed.
Example print_max : option_map F64.to_string (F64.parse (str "9007199254740993")) = Some (str "9007199254740992").
Proof. vm_compute. reflexivity. Qed.
Example print_23 : option_map F64.to_string (F64.parse (str "9.5367431640625e-7")) = Some (str "0.00000095367431640625").
Proof. vm_compute. reflexivity. Qed.

(** ** The printed length of an f64

    An [f64] has a mantissa below 2^53 and an exponent between -1074 and 971;
    every operation here stays within, so the text of a number is short. *)

Definition wf64 (x : spec_float) : Prop :=
  match x with S754_finite _ m e => Zpos m < 2 ^ 53 ∧ -1074 ≤ e ≤ 971 | _ => True end.

Lemma shr_1_le r : 2 * Z.abs (shr_m (shr_1 r)) ≤ Z.abs (shr_m r).
Proof. destruct r as [[|[p|p|]|[p|p|]] ? ?]; simpl; lia. Qed.

Lemma iter_shr_le p r : 2 ^ Zpos p * Z.abs (shr_m (SpecFloat.iter_pos shr_1 p r)) ≤ Z.abs (shr_m r).
Proof.
  revert r. induction p as [p IH|p IH|]; intros r; simpl SpecFloat.iter_pos.
  - pose proof (IH (shr_1 r)) as H1. pose proof (IH (SpecFloat.iter_pos shr_1 p (shr_1 r))) as H2.
    pose proof (shr_1_le r). replace (Zpos p~1) with (1 + (Zpos p + Zpos p)) by lia.
    rewrite !Z.pow_add_r by lia. nia.
  - pose proof (IH r) as H1. pose proof (IH (SpecFloat.iter_pos shr_1 p r)) as H2.
    replace (Zpos p~0) with (Zpos p + Zpos p) by lia. rewrite Z.pow_add_r by lia. nia.
  - pose proof (shr_1_le r). lia.
Qed.

Lemma digits2_pos_bound p : Zpos p < 2 ^ Zpos (digits2_pos p).
Proof.
  induction p as [p IH|p IH|]; simpl digits2_pos; [| |done];
    rewrite Pos2Z.inj_succ, Z.pow_succ_r by lia; lia.
Qed.

Lemma Zdigits2_bound m : Z.abs m < 2 ^ Zdigits2 m ∧ 0 ≤ Zdigits2 m.
Proof. destruct m as [|p|p]; simpl; [done|split; [apply digits2_pos_bound|lia]..]. Qed.

Lemma shr_fexp_bound m e l :
  let '(r, e') := shr_fexp 53 1024 m e l in Z.abs (shr_m r) < 2 ^ 53 ∧ -1074 ≤ e'.
Proof.
  unfold shr_fexp, shr. destruct (Zdigits2_bound m) as [Hm Hd].
  assert (Hr : shr_m (shr_record_of_loc m l) = m) by (by destruct l as [|[]]).
  set (d := Zdigits2 m) in *. unfold fexp, emin.
  destruct (Z.max (d + e - 53) (3 - 1024 - 53) - e) as [|p|p] eqn:En.
  1,3: rewrite Hr; split; [|lia]; eapply Z.lt_le_trans; [done|]; apply Z.pow_le_mono_r; lia.
  split; [|lia]. pose proof (iter_shr_le p (shr_record_of_loc m l)) as Hs. rewrite Hr in Hs.
  set (x := Z.abs (shr_m _)) in *. assert (Hle : 2 ^ d ≤ 2 ^ Zpos p * 2 ^ 53)
    by (rewrite <- Z.pow_add_r by lia; apply Z.pow_le_mono_r; lia).
  assert (0 < 2 ^ Zpos p) by (apply Z.pow_pos_nonneg; lia). nia.
Qed.

Lemma wf64_round_aux s m e l : wf64 (binary_round_aux 53 1024 s m e l).
Proof.
  unfold binary_round_aux. destruct (shr_fexp _ _ m e l) as [r1 e1].
  pose proof (shr_fexp_bound (round_nearest_even (shr_m r1) (loc_of_shr_record r1)) e1 loc_Exact) as Hb.
  destruct (shr_fexp _ _ _ e1 _) as [r2 e2]. destruct Hb as [Hm He].
  destruct (shr_m r2) as [|p|p]; [done| |done].
  destruct (e2 <=? 1024 - 53) eqn:E; [|done]. apply Z.leb_le in E. simpl in *. lia.
Qed.

Lemma wf64_normalize m e z : wf64 (binary_normalize 53 1024 m e z).
Proof.
  destruct m as [|p|p]; simpl; [done|..]; unfold binary_round;
    destruct (shl_align _ _ _); apply wf64_round_aux.
Qed.

Lemma wf64_add x y : wf64 x → wf64 y → wf64 (F64.add x y).
Proof.
  intros Hx Hy. unfold F64.add.
  destruct x as [[]|[]| |sx mx ex], y as [[]|[]| |sy my ey]; try done.
  unfold SFadd. apply wf64_normalize.
Qed.

Lemma wf64_round_dec neg d e : wf64 (round_dec 53 1024 neg d e).
Proof.
  unfold round_dec, round_dec_exact.
  repeat case_match; try done; first [apply wf64_normalize|apply wf64_round_aux].
Qed.

Lemma wf64_parse s x : F64.parse s = Some x → wf64 x.
Proof.
  unfold F64.parse. destruct s as [|c r]; [done|].
  destruct (if decide (c = x2d) then _ else _) as [neg body].
  repeat case_match; try (by intros [= <-]). unfold F64.parse_number.
  repeat case_match; try done; intros [= <-]; apply wf64_round_dec.
Qed.

(** The bound is crude: it only has to be a constant. *)
Definition F64_TEXT_MAX : Z := 4096.

Lemma dec_exp_bound m e :
  0 < m < 2 ^ 53 → -1074 ≤ e ≤ 971 → -325 ≤ F64.dec_exp m e ≤ 320.
Proof.
  intros Hm He. assert (0 ≤ Z.log2 m < 53) by (split; [apply Z.log2_nonneg|apply Z.log2_lt_pow2; lia]).
  unfold F64.dec_exp. set (k0 := _ * 1233 / 4096 - 1).
  assert (-325 ≤ k0 ≤ 310) by (unfold k0; split; 
    [apply Z.le_add_le_sub_r, Z.div_le_lower_bound|apply Z.le_sub_le_add_r, Z.div_le_upper_bound]; lia).
  clearbody k0. repeat case_match; lia.
Qed.

Lemma scaled_bound m e j B :
  0 < m < 2 ^ 53 → e ≤ 971 → j ≤ 343 → 2 ^ 53 * 2 ^ 971 * 10 ^ 343 ≤ B →
  0 ≤ F64.scaled m e j < B.
Proof.
  intros Hm He Hj HB. unfold F64.scaled.
  assert (Ha : 0 < 2 ^ Z.max e 0 ≤ 2 ^ 971) by (split; [apply Z.pow_pos_nonneg|apply Z.pow_le_mono_r]; lia).
  assert (Hb : 0 < 10 ^ Z.max j 0 ≤ 10 ^ 343) by (split; [apply Z.pow_pos_nonneg|apply Z.pow_le_mono_r]; lia).
  assert (Hc : 0 < 2 ^ Z.max (- e) 0) by (apply Z.pow_pos_nonneg; lia).
  assert (Hd : 0 < 10 ^ Z.max (- j) 0) by (apply Z.pow_pos_nonneg; lia).
  revert Hm Ha Hb Hc Hd HB.
  generalize (2 ^ 53), (2 ^ 971), (10 ^ 343), (2 ^ Z.max e 0), (10 ^ Z.max j 0),
    (2 ^ Z.max (- e) 0), (10 ^ Z.max (- j) 0).
  intros M A T a b c d Hm Ha Hb Hc Hd HB.
  assert (H1 : 0 < m * a ≤ M * A) by nia. assert (H2 : 0 < m * a * b) by nia.
  assert (H3 : m * a * b < B).
  { apply Z.lt_le_trans with (M * a * b); [nia|]. etrans; [|exact HB].
    apply Z.mul_le_mono_nonneg; nia. }
  assert (H4 : 1 ≤ c * d) by nia.
  split; [apply Z.div_pos; lia|]. apply Z.div_lt_upper_bound; [lia|].
  clear - H2 H3 H4. nia.
Qed.

Lemma shortest_bound fuel n x m e k B :
  0 < m < 2 ^ 53 → e ≤ 971 → -325 ≤ k → n + Z.of_nat fuel ≤ 18 →
  2 ^ 53 * 2 ^ 971 * 10 ^ 343 ≤ B →
  0 ≤ (F64.shortest fuel n x m e k).1 ≤ B.
Proof.
  intros Hm He Hk Hn HB. revert n Hn. induction fuel as [|f IH]; intros n Hn;
    (destruct (scaled_bound m e (n - k) B) as [H1 H2]; [done|done|lia|done|]);
    clear HB; simpl; [lia|]. repeat case_match; simpl; try lia. apply IH. lia.
Qed.

Lemma strip0_le fuel d : 0 ≤ d → 0 ≤ F64.strip0 fuel d ≤ d.
Proof.
  revert d. induction fuel as [|f IH]; intros d Hd; simpl; [lia|]. case_match; [|lia].
  assert (0 ≤ d / 10 ≤ d) by (split; [apply Z.div_pos|apply Z.div_le_upper_bound]; lia).
  specialize (IH (d / 10)). lia.
Qed.

Lemma blen_zeros n : blen (F64.zeros n) = Z.max n 0.
Proof. unfold blen, F64.zeros. rewrite repeat_length. lia. Qed.

Lemma positional_length ds k : blen (F64.positional ds k) ≤ 2 + Z.abs k + blen ds.
Proof.
  unfold F64.positional. pose proof (blen_nonneg ds).
  repeat case_match; rewrite ?blen_app, ?blen_zeros; bool_to_prop.
  - change (blen (str "0.")) with 2. lia.
  - lia.
  - unfold blen in *. rewrite length_take, length_drop. simpl length. lia.
Qed.

Lemma f64_text_bound x : wf64 x → blen (F64.to_string x) ≤ F64_TEXT_MAX.
Proof.
  intros Hx. destruct x as [[]|[]| |s m e]; [by vm_compute..|]. destruct Hx as [Hm He].
  unfold F64.to_string, F64_TEXT_MAX. assert (Hm' : 0 < Zpos m < 2 ^ 53) by lia.
  pose proof (dec_exp_bound (Zpos m) e Hm' He) as Hk. set (k := F64.dec_exp (Zpos m) e) in *.
  assert (HB : 2 ^ 53 * 2 ^ 971 * 10 ^ 343 ≤ 2 ^ 2396) by (vm_compute; discriminate).
  pose proof (shortest_bound 17 1 (S754_finite false m e) (Zpos m) e k _ Hm' ltac:(lia) ltac:(lia)
    ltac:(done) HB) as Hd.
  clear HB Hm Hm'. clearbody k. destruct (F64.shortest _ _ _ _ _ _) as [d n]. cbn [fst] in Hd.
  assert (Hlen : blen (to_string_u (F64.strip0 20 d)) ≤ 2400).
  { destruct Hd as [Hd0 Hd]. destruct (strip0_le 20 d Hd0) as [_ Hs]. set (y := F64.strip0 20 d) in *.
    assert (Hy : Z.log2 y ≤ Z.log2 (2 ^ 2396)) by (apply Z.log2_le_mono; by etrans).
    clear Hd Hs. rewrite Z.log2_pow2 in Hy by lia. pose proof (to_string_u_length y). lia. }
  clear Hd. rewrite blen_app. set (k' := if _ <=? _ then _ else _).
  pose proof (positional_length (to_string_u (F64.strip0 20 d)) k') as Hp.
  assert (Hs : blen (if s then str "-" else []) ≤ 1) by (destruct s; by vm_compute).
  assert (Z.abs k' ≤ 326) by (unfold k'; destruct (_ <=? d); lia).
  clearbody k'. lia.
Qed.

(** ** Ratios of counters are finite *)

Lemma digits2_pos_spec p : 2 ^ (Zpos (digits2_pos p) - 1) ≤ Zpos p.
Proof.
  induction p as [p IH|p IH|]; simpl digits2_pos; [| |done]; rewrite Pos2Z.inj_succ;
    replace (Z.succ (Zpos (digits2_pos p)) - 1) with (Z.succ (Zpos (digits2_pos p) - 1)) by lia;
    rewrite Z.pow_succ_r by lia; lia.
Qed.

Lemma Zdigits2_le m k : 0 ≤ m < 2 ^ k → 0 ≤ k → Zdigits2 m ≤ k.
Proof.
  intros [Hm Hk] H0. destruct m as [|p|p]; simpl; [lia| |lia].
  pose proof (digits2_pos_spec p) as Hd. destruct (Z.le_gt_cases (Zpos (digits2_pos p)) k) as [|Hgt]; [done|].
  pose proof (Z.pow_le_mono_r 2 k (Zpos (digits2_pos p) - 1)). lia.
Qed.

Lemma shr_1_half r : 0 ≤ shr_m r → shr_m (shr_1 r) = shr_m r / 2.
Proof.
  destruct r as [m r s]. cbn [shr_m]. intros Hm. destruct m as [|[p|p|]|p]; try done; simpl.
  - replace (Zpos p~1) with (1 + Zpos p * 2) by lia. by rewrite Z.div_add by lia.
  - replace (Zpos p~0) with (Zpos p * 2) by lia. by rewrite Z.div_mul by lia.
Qed.

Lemma iter_shr_div p r : 0 ≤ shr_m r → shr_m (SpecFloat.iter_pos shr_1 p r) = shr_m r / 2 ^ Zpos p.
Proof.
  revert r. induction p as [p IH|p IH|]; intros r Hr; simpl SpecFloat.iter_pos; [| |by rewrite shr_1_half].
  - assert (H1 : 0 ≤ shr_m (shr_1 r)) by (rewrite shr_1_half by done; apply Z.div_pos; lia).
    assert (H2 : 0 ≤ shr_m (SpecFloat.iter_pos shr_1 p (shr_1 r))) by (rewrite IH by done; apply Z.div_pos; lia).
    rewrite IH, IH, shr_1_half, !Z.div_div by lia. f_equal.
    replace (Zpos p~1) with (1 + (Zpos p + Zpos p)) by lia. rewrite !Z.pow_add_r by lia. lia.
  - assert (H1 : 0 ≤ shr_m (SpecFloat.iter_pos shr_1 p r)) by (rewrite IH by done; apply Z.div_pos; lia).
    rewrite IH, IH, Z.div_div by lia. f_equal. replace (Zpos p~0) with (Zpos p + Zpos p) by lia. by rewrite Z.pow_add_r by lia.
Qed.

Section ratios.
Context (prec emax : Z) (Hprec : 0 < prec) (Hemax : 68 + prec ≤ emax - prec).

(** What a shift to the precision leaves. *)
Lemma shr_fexp_spec m e l :
  0 ≤ m → emin prec emax ≤ e →
  let '(r, e') := shr_fexp prec emax m e l in
  0 ≤ shr_m r < 2 ^ prec ∧ (0 < m → 0 < shr_m r) ∧ e' = e + Z.max 0 (Zdigits2 m - prec).
Proof using Hprec.
  intros Hm He. unfold shr_fexp, shr, fexp.
  assert (Hr : shr_m (shr_record_of_loc m l) = m) by (by destruct l as [|[]]).
  destruct (Zdigits2_bound m) as [Hb Hd]. rewrite Z.abs_eq in Hb by done. set (d := Zdigits2 m) in *.
  replace (Z.max (d + e - prec) (emin prec emax) - e) with (Z.max (d - prec) (emin prec emax - e)) by lia.
  assert (Hlow : 0 < m → 2 ^ (d - 1) ≤ m) by (intros Hp; unfold d; destruct m as [|p|p]; [lia|apply digits2_pos_spec|lia]).
  destruct (Z.max (d - prec) (emin prec emax - e)) as [|p|p] eqn:En.
  1,3: rewrite Hr; split; [split; [done|]; eapply Z.lt_le_trans; [exact Hb|]; apply Z.pow_le_mono_r; lia|split; [done|lia]].
  assert (Hp : Zpos p = d - prec) by lia. rewrite iter_shr_div by (by rewrite Hr). rewrite Hr, Hp.
  assert (H2 : 2 ^ d = 2 ^ (d - prec) * 2 ^ prec) by (rewrite <- Z.pow_add_r by lia; f_equal; lia).
  assert (0 < 2 ^ (d - prec)) by (apply Z.pow_pos_nonneg; lia).
  split; [split; [by apply Z.div_pos|apply Z.div_lt_upper_bound; [done|lia]]|]. split; [|lia].
  intros Hpos. specialize (Hlow Hpos). apply Z.div_str_pos. split; [done|]. etrans; [|exact Hlow]. apply Z.pow_le_mono_r; lia.
Qed.

(** A number whose rounding does not overflow. *)
Definition bounded (lo hi : Z) (x : spec_float) : Prop :=
  match x with S754_zero _ => True | S754_finite _ m e => Zpos m < 2 ^ prec ∧ lo ≤ e ≤ hi + 1 | _ => False end.
Definition nonzero (x : spec_float) : Prop := match x with S754_finite _ _ _ => True | _ => False end.

Lemma round_aux_bounded s m e l hi :
  0 ≤ m → emin prec emax ≤ e → e + Z.max 0 (Zdigits2 m - prec) ≤ hi → hi < emax - prec →
  bounded e hi (binary_round_aux prec emax s m e l) ∧ (0 < m → nonzero (binary_round_aux prec emax s m e l)).
Proof using Hprec Hemax.
  intros Hm He Hb Hhi. unfold binary_round_aux. pose proof (shr_fexp_spec m e l Hm He) as H1.
  destruct (shr_fexp prec emax m e l) as [r1 e1]. destruct H1 as ([H1 H2] & H3 & ->).
  set (m1 := round_nearest_even _ _).
  assert (Hm1 : shr_m r1 ≤ m1 ≤ shr_m r1 + 1) by (unfold m1, round_nearest_even; repeat case_match; lia).
  assert (Hd : Zdigits2 m1 ≤ prec + 1).
  { apply Zdigits2_le; [|lia]. rewrite Z.pow_add_r by lia. change (2 ^ 1) with 2. lia. }
  pose proof (shr_fexp_spec m1 (e + Z.max 0 (Zdigits2 m - prec)) loc_Exact ltac:(lia) ltac:(lia)) as H4.
  destruct (shr_fexp prec emax m1 _ loc_Exact) as [r2 e2]. destruct H4 as ([H4 H5] & H6 & ->).
  destruct (shr_m r2) as [|p|p]; [split; [done|lia]| |lia].
  rewrite (proj2 (Z.leb_le _ _)) by lia. split; [split; [done|lia]|done].
Qed.

Lemma of_count_bounded z :
  0 ≤ z < 2 ^ 64 → bounded (1 - prec) 65 (binary_normalize prec emax z 0 false) ∧ (0 < z → nonzero (binary_normalize prec emax z 0 false)).
Proof using Hprec Hemax.
  intros [Hz Hb]. destruct z as [|p|p]; [by split|simpl|lia]. unfold binary_round, shl_align.
  assert (Hd : Zpos (digits2_pos p) ≤ 64) by (by apply (Zdigits2_le (Zpos p) 64)).
  unfold fexp. rewrite Z.add_0_r. replace (Z.max (Zpos (digits2_pos p) - prec) (emin prec emax) - 0)
    with (Zpos (digits2_pos p) - prec) by (unfold emin; lia).
  assert (Hgoal : ∀ m e, 1 - prec ≤ e → e + Z.max 0 (Zdigits2 (Zpos m) - prec) ≤ 65 →
    bounded (1 - prec) 65 (binary_round_aux prec emax false (Zpos m) e loc_Exact) ∧
    (0 < Zpos p → nonzero (binary_round_aux prec emax false (Zpos m) e loc_Exact))).
  { intros m e H1 H2. destruct (round_aux_bounded false (Zpos m) e loc_Exact 65) as [H3 H4]; [lia|unfold emin; lia|done|lia|].
    split; [|intros _; by apply H4]. destruct (binary_round_aux _ _ _ _ _ _); try done. cbn in *. lia. }
  destruct (Zpos (digits2_pos p) - prec) as [|n|n] eqn:En; [apply Hgoal; simpl; lia..|].
  rewrite (Z.max_l (Z.neg n)) by (unfold emin; lia). set (q := PosDef.Pos.iter xO p n).
  apply Hgoal; [lia|]. assert (Hn : Zpos q = Zpos p * 2 ^ Zpos n).
  { unfold q. clear. change (@PosDef.Pos.iter) with (@Pos.iter). induction n as [|n IH] using Pos.peano_ind; [simpl; lia|].
    rewrite Pos.iter_succ, Pos2Z.inj_succ, Z.pow_succ_r by lia. lia. }
  assert (Zdigits2 (Zpos q) ≤ prec) as Hw; [|rewrite Z.max_l; lia].
  apply Zdigits2_le; [|lia]. split; [lia|]. rewrite Hn.
  replace prec with (Zpos (digits2_pos p) + Zpos n) by lia. rewrite Z.pow_add_r by lia.
  apply Z.mul_lt_mono_pos_r; [apply Z.pow_pos_nonneg; lia|apply digits2_pos_bound].
Qed.

Lemma div_bounded x y :
  bounded (1 - prec) 65 x → bounded (1 - prec) 65 y → nonzero y →
  match SFdiv prec emax x y with S754_zero _ | S754_finite _ _ _ => True | _ => False end.
Proof using Hprec Hemax.
  intros Hx Hy Hn. destruct y as [sy|sy| |sy my ey]; try done. destruct Hy as [Hmy Hey].
  destruct x as [sx|sx| |sx mx ex]; try done. destruct Hx as [Hmx Hex]. simpl.
  unfold SFdiv_core_binary. set (d1 := Zdigits2 (Zpos mx)). set (d2 := Zdigits2 (Zpos my)).
  assert (H1 : d1 ≤ prec) by (apply Zdigits2_le; lia). assert (H1' : 1 ≤ d1) by (unfold d1; simpl; lia).
  assert (H2 : 1 ≤ d2 ≤ prec) by (split; [unfold d2; simpl; lia|apply Zdigits2_le; lia]).
  set (e := Z.min _ _). set (s := ex - ey - e). set (m := match s with Zpos _ => _ | _ => _ end).
  assert (He : emin prec emax ≤ e) by (unfold e, fexp, emin; lia).
  assert (Hs : 0 ≤ s) by (unfold s, e; lia).
  assert (Hm : m = Zpos mx * 2 ^ s).
  { unfold m. destruct s; [simpl; lia|by rewrite Z.shiftl_mul_pow2 by lia|lia]. }
  destruct (Z.div_eucl m (Zpos my)) as [q r] eqn:Eq. assert (Hq : q = m / Zpos my) by (unfold Z.div; by rewrite Eq).
  assert (0 < 2 ^ s) by (apply Z.pow_pos_nonneg; lia).
  assert (Hq0 : 0 ≤ q < 2 ^ (d1 + s)).
  { rewrite Hq. split; [apply Z.div_pos; lia|]. eapply Z.le_lt_trans; [apply Z.div_le_upper_bound with (q := m); [lia|nia]|].
    rewrite Hm, Z.pow_add_r by lia. apply Z.mul_lt_mono_pos_r; [done|]. apply digits2_pos_bound. }
  assert (Hdq : Zdigits2 q ≤ d1 + s) by (apply Zdigits2_le; [done|lia]).
  destruct (round_aux_bounded (xorb sx sy) q e (new_location (Zpos my) r) (65 + prec)) as [Hb _]; [lia|done|lia|lia|].
  by destruct (binary_round_aux _ _ _ _ _ _).
Qed.

(** The ratio of two counters. *)
Lemma ratio_bounded a b :
  0 ≤ a < 2 ^ 64 → 0 < b < 2 ^ 64 →
  match SFdiv prec emax (binary_normalize prec emax a 0 false) (binary_normalize prec emax b 0 false) with
  | S754_zero _ | S754_finite _ _ _ => True | _ => False end.
Proof using Hprec Hemax.
  intros Ha Hb. destruct (of_count_bounded b) as [H1 H2]; [lia|]. apply div_bounded; [by apply of_count_bounded|done|apply H2; lia].
Qed.
End ratios.

Lemma f32_ratio_finite a b : 0 ≤ a < 2 ^ 64 → 0 < b < 2 ^ 64 → F64.is_finite (F32.div (F32.of_Z a) (F32.of_Z b)) = true.
Proof.
  intros Ha Hb. pose proof (ratio_bounded 24 128 ltac:(lia) ltac:(lia) a b Ha Hb) as Hr. unfold F32.div, F32.of_Z.
  by destruct (SFdiv _ _ _ _).
Qed.
Lemma f64_ratio_finite a b : 0 ≤ a < 2 ^ 64 → 0 < b < 2 ^ 64 → F64.is_finite (F64.div (F64.of_Z a) (F64.of_Z b)) = true.
Proof.
  intros Ha Hb. pose proof (ratio_bounded 53 1024 ltac:(lia) ltac:(lia) a b Ha Hb) as Hr. unfold F64.div, F64.of_Z.
  by destruct (SFdiv _ _ _ _).
Qed.
