(* ===== verification/Encoder.v ===== *)
(** * RESP encoders (src/src/protocol/encoder.rs, src/src/persistence/resp.rs)

    Every encoder appends to the buffer it is given. [resp] is the grammar of
    one RESP value; the lemmas show that each encoder call appends one value
    (or the header of an aggregate whose elements follow), so that a reply
    stream can be split back into its replies. *)
From S2P Require Import Prelude Numeric Text Floats.
From Stdlib Require Import Strings.Byte SpecFloat.
From stdpp Require Import gmap list strings numbers.
Local Open Scope Z_scope.

(** ** RESP2 *)

Definition encode_simple_string (buf text : bytes) : bytes :=
  buf ++ [x2b] ++ text ++ CRLF.

Definition encode_error (buf message : bytes) : bytes :=
  buf ++ [x2d] ++ message ++ CRLF.

Definition encode_integer (buf : bytes) (n : Z) : bytes :=
  buf ++ [x3a] ++ to_string_i n ++ CRLF.

Definition encode_bulk_string (buf payload : bytes) : bytes :=
  buf ++ [x24] ++ to_string_u (blen payload) ++ CRLF ++ payload ++ CRLF.

Definition encode_null_bulk (buf : bytes) : bytes := buf ++ str "$-1" ++ CRLF.

Definition encode_array_header (buf : bytes) (count : Z) : bytes :=
  buf ++ [x2a] ++ to_string_u count ++ CRLF.

(** ** RESP3 *)

Definition encode_null (buf : bytes) : bytes := buf ++ str "_" ++ CRLF.

Definition encode_boolean (buf : bytes) (v : bool) : bytes :=
  if v then buf ++ str "#t" ++ CRLF else buf ++ str "#f" ++ CRLF.

(** [str::trim_end_matches('0')]. *)
Definition trim_end_zeros (s : bytes) : bytes :=
  let fix go (r : bytes) :=
    match r with
    | c :: r' => if decide (c = x30) then go r' else r
    | [] => []
    end in
  rev (go (rev s)).

Definition encode_double (buf : bytes) (v : spec_float) : bytes :=
  let buf1 := (buf ++ [x2c]) ++ trim_end_zeros (F64.fixed17 v) in
  let buf2 := if decide (list.last buf1 = Some x2e) then buf1 ++ [x30] else buf1 in
  buf2 ++ CRLF.

Definition encode_map_header (buf : bytes) (count : Z) : bytes :=
  buf ++ [x25] ++ to_string_u count ++ CRLF.

(** ** The AOF encoder: an array of bulk strings *)

(** One [$<len>\r\n<payload>\r\n] element. *)
Definition encode_part (part : bytes) : bytes :=
  [x24] ++ to_string_u (blen part) ++ CRLF ++ part ++ CRLF.

Definition encode_command (parts : list bytes) : bytes :=
  ([x2a] ++ to_string_u (blen parts) ++ CRLF) ++ concat (map encode_part parts).

(** ** The grammar of RESP values *)

Definition no_crlf (s : bytes) : Prop := Forall (λ b, b ≠ x0d ∧ b ≠ x0a) s.

(** The type bytes of one-line values. *)
Definition line_marker (c : byte) : Prop :=
  c ∈ [x2b; x2d; x3a; x5f; x23; x2c].

Inductive resp : bytes → Prop :=
| resp_line c s : line_marker c → no_crlf s → resp (c :: s ++ CRLF)
| resp_bulk p : resp (encode_bulk_string [] p)
| resp_null_bulk : resp (encode_null_bulk [])
| resp_array l : resp_all l → resp (encode_array_header [] (blen l) ++ concat l)
| resp_map l n : resp_all l → blen l = 2 * n →
    resp (encode_map_header [] n ++ concat l)
with resp_all : list bytes → Prop :=
| resp_all_nil : resp_all []
| resp_all_cons v l : resp v → resp_all l → resp_all (v :: l).

(** ** Lemmas *)

Lemma no_crlf_app s t : no_crlf s → no_crlf t → no_crlf (s ++ t).
Proof. apply Forall_app_2. Qed.

Lemma no_crlf_str_digits s : Forall (λ b, is_digit b = true) s → no_crlf s.
Proof. intros H. eapply Forall_impl; [|exact H]. intros b. by destruct b. Qed.

Lemma no_crlf_to_string_u n : 0 ≤ n → no_crlf (to_string_u n).
Proof. intros Hn. by apply no_crlf_str_digits, to_string_u_digits. Qed.

Lemma no_crlf_to_string_i n : no_crlf (to_string_i n).
Proof.
  unfold to_string_i. destruct (n <? 0) eqn:E; bool_to_prop.
  - constructor; [done|]. apply no_crlf_to_string_u. lia.
  - by apply no_crlf_to_string_u.
Qed.

(** A decidable form of [no_crlf], for literals. *)
Definition no_crlfb (s : bytes) : bool :=
  forallb (λ b, negb (bool_decide (b = x0d) || bool_decide (b = x0a))) s.

Lemma no_crlfb_spec s : no_crlfb s = true → no_crlf s.
Proof.
  unfold no_crlfb, no_crlf. rewrite forallb_forall, Forall_forall.
  intros H b Hb. specialize (H b Hb). by destruct b.
Qed.

Lemma encode_simple_string_resp buf text :
  no_crlf text → ∃ v, encode_simple_string buf text = buf ++ v ∧ resp v.
Proof. intros H. eexists; split; [done|]. by apply resp_line; [left|]. Qed.

Lemma encode_error_resp buf m :
  no_crlf m → ∃ v, encode_error buf m = buf ++ v ∧ resp v.
Proof.
  intros H. eexists; split; [done|]. apply resp_line; [|done]. right; left.
Qed.

Lemma encode_integer_resp buf n : ∃ v, encode_integer buf n = buf ++ v ∧ resp v.
Proof.
  eexists; split; [done|]. apply resp_line; [do 2 right; left|].
  apply no_crlf_to_string_i.
Qed.

Lemma encode_bulk_string_resp buf p :
  ∃ v, encode_bulk_string buf p = buf ++ v ∧ resp v.
Proof. exists (encode_bulk_string [] p). split; [done|apply resp_bulk]. Qed.

Lemma encode_null_bulk_resp buf : ∃ v, encode_null_bulk buf = buf ++ v ∧ resp v.
Proof. exists (encode_null_bulk []). split; [done|apply resp_null_bulk]. Qed.

Lemma encode_null_resp buf : ∃ v, encode_null buf = buf ++ v ∧ resp v.
Proof.
  eexists; split; [done|]. apply (resp_line x5f []); [do 3 right; left|constructor].
Qed.

Lemma encode_boolean_resp buf v : ∃ w, encode_boolean buf v = buf ++ w ∧ resp w.
Proof.
  unfold encode_boolean. destruct v; eexists; (split; [done|]).
  - apply (resp_line x23 [x74]); [do 4 right; left|]. by constructor.
  - apply (resp_line x23 [x66]); [do 4 right; left|]. by constructor.
Qed.

#[export] Hint Resolve encode_simple_string_resp encode_error_resp
  encode_integer_resp encode_bulk_string_resp encode_null_bulk_resp
  encode_null_resp encode_boolean_resp no_crlf_to_string_i no_crlf_to_string_u
  no_crlf_app : ferrum.

Lemma encode_command_cons_length parts :
  blen (encode_command parts) =
    1 + blen (to_string_u (blen parts)) + 2 + blen (concat (map encode_part parts)).
Proof. unfold encode_command. rewrite !blen_app. unfold blen. simpl. lia. Qed.
