(* ===== verification/Command.v ===== *)
(** * Commands (src/src/protocol/parser.rs)

    The [Command] type, its construction from a decoded argument vector
    ([build_command]) and the inverse rendering used by the slow log and by
    [MONITOR] ([args], [args_redacted]). *)
From S2P Require Import Prelude Numeric Text Error Floats.
From Stdlib Require Import Strings.Byte SpecFloat.
From stdpp Require Import gmap list strings numbers.
Local Open Scope Z_scope.

Inductive Command : Type :=
| CSet (key value : bytes)
| CSetNx (key value : bytes)
| CMSet (pairs : list (bytes * bytes))
| CMGet (keys : list bytes)
| CIncrBy (key : bytes) (delta : Z)
| CIncrByFloat (key : bytes) (delta : spec_float)
| CGet (key : bytes)
| CDel (keys : list bytes)
| CExists (keys : list bytes)
| CPing (msg : option bytes)
| CAppend (key value : bytes)
| CStrLen (key : bytes)
| CDbSize
| CFlushDb
| CExpire (key : bytes) (seconds : Z)
| CPExpire (key : bytes) (millis : Z)
| CPExpireAt (key : bytes) (abs_epoch_ms : Z)
| CPersist (key : bytes)
| CTtl (key : bytes)
| CPTtl (key : bytes)
| CMemoryUsage (key : bytes)
| CInfo (section : option bytes)
| CConfig (sub : bytes) (args : list bytes)
| CAuth (password : bytes)
| CSlowLog (sub : bytes) (args : list bytes)
| CRewriteAof
| CMonitor
| CHello (version : option Z).

(** ** Rendering a command back to its argument vector *)

Definition args (c : Command) : list bytes :=
  match c with
  | CSet k v => [str "SET"; k; v]
  | CSetNx k v => [str "SETNX"; k; v]
  | CMSet ps => str "MSET" :: flat_map (λ p, [p.1; p.2]) ps
  | CMGet ks => str "MGET" :: ks
  | CIncrBy k d => [str "INCRBY"; k; to_string_i d]
  | CIncrByFloat k d => [str "INCRBYFLOAT"; k; F64.to_string d]
  | CGet k => [str "GET"; k]
  | CDel ks => str "DEL" :: ks
  | CExists ks => str "EXISTS" :: ks
  | CPing None => [str "PING"]
  | CPing (Some m) => [str "PING"; m]
  | CAppend k v => [str "APPEND"; k; v]
  | CStrLen k => [str "STRLEN"; k]
  | CDbSize => [str "DBSIZE"]
  | CFlushDb => [str "FLUSHDB"]
  | CExpire k s => [str "EXPIRE"; k; to_string_i s]
  | CPExpire k ms => [str "PEXPIRE"; k; to_string_i ms]
  | CPExpireAt k ms => [str "PEXPIREAT"; k; to_string_i ms]
  | CPersist k => [str "PERSIST"; k]
  | CTtl k => [str "TTL"; k]
  | CPTtl k => [str "PTTL"; k]
  | CMemoryUsage k => [str "MEMORY"; str "USAGE"; k]
  | CInfo None => [str "INFO"]
  | CInfo (Some s) => [str "INFO"; s]
  | CConfig sub l => str "CONFIG" :: sub :: l
  | CAuth p => [str "AUTH"; p]
  | CSlowLog sub l => str "SLOWLOG" :: sub :: l
  | CRewriteAof => [str "BGREWRITEAOF"]
  | CMonitor => [str "MONITOR"]
  | CHello None => [str "HELLO"]
  | CHello (Some v) => [str "HELLO"; to_string_u v]
  end.

(** Like [args], with the password masked. *)
Definition args_redacted (c : Command) : list bytes :=
  match c with
  | CAuth _ => [str "AUTH"; str "***"]
  | _ => args c
  end.

(** ** Argument parsing *)

Definition ascii_uppercase (s : bytes) : bytes := map to_upper s.

Definition not_an_integer : FerrumError :=
  ParseError (str "value is not an integer or out of range").

(** A byte string that is not UTF-8 is not decimal text either, so one test
    covers both error exits. *)
Definition parse_integer_argument (s : bytes) : res Z :=
  match parse_i64 s with Some z => Ok z | None => Err not_an_integer end.

Definition parse_float_argument (s : bytes) : res spec_float :=
  match F64.parse s with
  | Some x => Ok x
  | None => Err (ParseError (str "value is not a valid float"))
  end.

(** [r?] in a function returning [Result<Command, FerrumError>]. *)
Definition try_cmd {A} (r : res A) (k : A → res Command) : res Command :=
  match r with Ok a => k a | Err e => Err e end.

(** ** Building a command

    One definition per group of arms of the source's [match]; each answers
    [None] when the name is not one of its own. *)

(** Pairs up an even argument list ([while let Some(k) = it.next()]). *)
Fixpoint pair_up (l : list bytes) : list (bytes * bytes) :=
  match l with
  | k :: v :: l' => (k, v) :: pair_up l'
  | _ => []
  end.

Definition arity (c : string) : res Command := Err (WrongArity (str c)).

(** [SET] .. [MGET]. *)
Definition build_set (upper : bytes) (l : list bytes) : option (res Command) :=
  if bytes_eqb upper (str "SET") then
    Some (match l with [k; v] => Ok (CSet k v) | _ => arity "SET" end)
  else if bytes_eqb upper (str "SETNX") then
    Some (match l with [k; v] => Ok (CSetNx k v) | _ => arity "SETNX" end)
  else if bytes_eqb upper (str "MSET") then
    Some (if (blen l =? 0) || negb (blen l mod 2 =? 0) then arity "MSET"
          else Ok (CMSet (pair_up l)))
  else if bytes_eqb upper (str "MGET") then
    Some (match l with [] => arity "MGET" | _ => Ok (CMGet l) end)
  else None.

(** [INCR], [DECR], [INCRBY], [DECRBY], [INCRBYFLOAT]. *)
Definition build_incr (upper : bytes) (l : list bytes) : option (res Command) :=
  if bytes_eqb upper (str "INCR") then
    Some (match l with [k] => Ok (CIncrBy k 1) | _ => arity "INCR" end)
  else if bytes_eqb upper (str "DECR") then
    Some (match l with [k] => Ok (CIncrBy k (-1)) | _ => arity "DECR" end)
  else if bytes_eqb upper (str "INCRBY") then
    Some (match l with
          | [k; d] => try_cmd (parse_integer_argument d) (λ z, Ok (CIncrBy k z))
          | _ => arity "INCRBY"
          end)
  else if bytes_eqb upper (str "DECRBY") then
    Some (match l with
          | [k; d] =>
              try_cmd (parse_integer_argument d) (λ z,
                match checked_i64 (- z) with
                | Some z' => Ok (CIncrBy k z')
                | None => Err not_an_integer
                end)
          | _ => arity "DECRBY"
          end)
  else if bytes_eqb upper (str "INCRBYFLOAT") then
    Some (match l with
          | [k; d] => try_cmd (parse_float_argument d) (λ x, Ok (CIncrByFloat k x))
          | _ => arity "INCRBYFLOAT"
          end)
  else None.

(** [GET] .. [FLUSHDB]. *)
Definition build_read (upper : bytes) (l : list bytes) : option (res Command) :=
  if bytes_eqb upper (str "GET") then
    Some (match l with [k] => Ok (CGet k) | _ => arity "GET" end)
  else if bytes_eqb upper (str "DEL") then
    Some (match l with [] => arity "DEL" | _ => Ok (CDel l) end)
  else if bytes_eqb upper (str "EXISTS") then
    Some (match l with [] => arity "EXISTS" | _ => Ok (CExists l) end)
  else if bytes_eqb upper (str "PING") then
    Some (match l with
          | [] => Ok (CPing None)
          | [m] => Ok (CPing (Some m))
          | _ => arity "PING"
          end)
  else if bytes_eqb upper (str "APPEND") then
    Some (match l with [k; v] => Ok (CAppend k v) | _ => arity "APPEND" end)
  else if bytes_eqb upper (str "STRLEN") then
    Some (match l with [k] => Ok (CStrLen k) | _ => arity "STRLEN" end)
  else if bytes_eqb upper (str "DBSIZE") then
    Some (match l with [] => Ok CDbSize | _ => arity "DBSIZE" end)
  else if bytes_eqb upper (str "FLUSHDB") then
    Some (match l with [] => Ok CFlushDb | _ => arity "FLUSHDB" end)
  else None.

(** [EXPIRE] .. [PTTL]. *)
Definition build_ttl (upper : bytes) (l : list bytes) : option (res Command) :=
  if bytes_eqb upper (str "EXPIRE") then
    Some (match l with
          | [k; d] => try_cmd (parse_integer_argument d) (λ z, Ok (CExpire k z))
          | _ => arity "EXPIRE"
          end)
  else if bytes_eqb upper (str "PEXPIRE") then
    Some (match l with
          | [k; d] => try_cmd (parse_integer_argument d) (λ z, Ok (CPExpire k z))
          | _ => arity "PEXPIRE"
          end)
  else if bytes_eqb upper (str "PEXPIREAT") then
    Some (match l with
          | [k; d] => try_cmd (parse_integer_argument d) (λ z, Ok (CPExpireAt k z))
          | _ => arity "PEXPIREAT"
          end)
  else if bytes_eqb upper (str "PERSIST") then
    Some (match l with [k] => Ok (CPersist k) | _ => arity "PERSIST" end)
  else if bytes_eqb upper (str "TTL") then
    Some (match l with [k] => Ok (CTtl k) | _ => arity "TTL" end)
  else if bytes_eqb upper (str "PTTL") then
    Some (match l with [k] => Ok (CPTtl k) | _ => arity "PTTL" end)
  else None.

(** [MEMORY], [INFO]. *)
Definition build_info (upper : bytes) (l : list bytes) : option (res Command) :=
  if bytes_eqb upper (str "MEMORY") then
    Some (match l with
          | sub :: k :: _ =>
              if bytes_eqb (ascii_uppercase sub) (str "USAGE")
              then Ok (CMemoryUsage k)
              else Err (UnknownCommand (str "MEMORY " ++ utf8_lossy sub))
          | _ => arity "MEMORY"
          end)
  else if bytes_eqb upper (str "INFO") then
    Some (match l with
          | [] => Ok (CInfo None)
          | [s] => Ok (CInfo (Some s))
          | _ => arity "INFO"
          end)
  else None.

(** [CONFIG GET], [CONFIG SET]. *)
Definition build_config (upper : bytes) (l : list bytes) : option (res Command) :=
  if bytes_eqb upper (str "CONFIG") then
    Some (match l with
          | [] => arity "CONFIG"
          | sub :: it =>
              if bytes_eqb (ascii_uppercase sub) (str "GET") then
                match it with
                | [param] => Ok (CConfig (str "GET") [param])
                | _ => arity "CONFIG GET"
                end
              else if bytes_eqb (ascii_uppercase sub) (str "SET") then
                match it with
                | [param; value] => Ok (CConfig (str "SET") [param; value])
                | _ => arity "CONFIG SET"
                end
              else Err (UnknownCommand (str "CONFIG " ++ utf8_lossy sub))
          end)
  else None.

(** [SLOWLOG GET | LEN | RESET]. *)
Definition build_slowlog (upper : bytes) (l : list bytes) : option (res Command) :=
  if bytes_eqb upper (str "SLOWLOG") then
    Some (match l with
          | [] => arity "SLOWLOG"
          | sub :: it =>
              if bytes_eqb (ascii_uppercase sub) (str "GET") then
                match it with
                | [] => Ok (CSlowLog (str "GET") [])
                | [count] => Ok (CSlowLog (str "GET") [count])
                | _ => arity "SLOWLOG GET"
                end
              else if bytes_eqb (ascii_uppercase sub) (str "LEN") then
                match it with
                | [] => Ok (CSlowLog (str "LEN") [])
                | _ => arity "SLOWLOG LEN"
                end
              else if bytes_eqb (ascii_uppercase sub) (str "RESET") then
                match it with
                | [] => Ok (CSlowLog (str "RESET") [])
                | _ => arity "SLOWLOG RESET"
                end
              else Err (UnknownCommand (str "SLOWLOG " ++ utf8_lossy sub))
          end)
  else None.

Definition build_auth (upper : bytes) (l : list bytes) : option (res Command) :=
  if bytes_eqb upper (str "AUTH") then
    Some (match l with [p] => Ok (CAuth p) | _ => arity "AUTH" end)
  else None.

(** [BGREWRITEAOF], [MONITOR], [HELLO]. *)
Definition build_server (upper : bytes) (l : list bytes) : option (res Command) :=
  if bytes_eqb upper (str "BGREWRITEAOF") then
    Some (match l with [] => Ok CRewriteAof | _ => arity "BGREWRITEAOF" end)
  else if bytes_eqb upper (str "MONITOR") then
    Some (match l with [] => Ok CMonitor | _ => arity "MONITOR" end)
  else if bytes_eqb upper (str "HELLO") then
    Some (match l with
          | [] => Ok (CHello None)
          | [v] =>
              if bytes_eqb v (str "2") then Ok (CHello (Some 2))
              else if bytes_eqb v (str "3") then Ok (CHello (Some 3))
              else Err (ParseError (str "NOPROTO unsupported protocol version"))
          | _ => arity "HELLO"
          end)
  else None.

(** The first group that knows the name answers. *)
Fixpoint first_some {A} (l : list (option A)) (d : A) : A :=
  match l with
  | [] => d
  | Some a :: _ => a
  | None :: l' => first_some l' d
  end.

(** [build_command]; the caller guarantees a non-empty vector. *)
Definition build_command (parts : list bytes) : res Command :=
  match parts with
  | [] => Err (Internal (str "array has at least one element"))
  | name :: l =>
      let upper := ascii_uppercase name in
      first_some
        [build_set upper l; build_incr upper l; build_read upper l;
         build_ttl upper l; build_info upper l; build_config upper l;
         build_auth upper l; build_slowlog upper l; build_server upper l]
        (Err (UnknownCommand (utf8_lossy name)))
  end.

(** ** Lemmas *)

(** Commands that [build_command] can produce. *)
Definition wf_command (c : Command) : Prop :=
  match c with
  | CMSet ps => ps ≠ []
  | CMGet ks | CDel ks | CExists ks => ks ≠ []
  | CIncrBy _ z | CExpire _ z | CPExpire _ z | CPExpireAt _ z => in_i64 z = true
  | CIncrByFloat _ x => wf64 x
  | CConfig sub l =>
      (sub = str "GET" ∧ length l = 1%nat) ∨ (sub = str "SET" ∧ length l = 2%nat)
  | CSlowLog sub l =>
      (sub = str "GET" ∧ (length l ≤ 1)%nat) ∨
      (sub = str "LEN" ∧ l = []) ∨ (sub = str "RESET" ∧ l = [])
  | CHello v => v = None ∨ v = Some 2 ∨ v = Some 3
  | _ => True
  end.

Lemma pair_up_flat ps : pair_up (flat_map (λ p : bytes * bytes, [p.1; p.2]) ps) = ps.
Proof. induction ps as [|[k v] ps IH]; simpl; [done|]. by rewrite IH. Qed.

Lemma blen_flat_pairs (ps : list (bytes * bytes)) :
  blen (flat_map (λ p, [p.1; p.2]) ps) = 2 * blen ps.
Proof.
  unfold blen. induction ps as [|p ps IH]; [done|].
  cbn [flat_map app length]. lia.
Qed.

Lemma parse_integer_argument_print z :
  in_i64 z = true → parse_integer_argument (to_string_i z) = Ok z.
Proof. intros H. unfold parse_integer_argument. by rewrite parse_i64_to_string. Qed.

Lemma checked_i64_in z z' : checked_i64 z = Some z' → in_i64 z' = true.
Proof. unfold checked_i64. case_match; naive_solver. Qed.

(** Decides the name tests on closed byte strings. *)
Ltac decide_names :=
  repeat match goal with
  | |- context [bytes_eqb ?a ?b] =>
      let r := eval vm_compute in (bytes_eqb a b) in
      lazymatch r with
      | true => change (bytes_eqb a b) with true
      | false => change (bytes_eqb a b) with false
      end; cbn iota
  end.

(** Unfolds [build_command] on a vector whose name is a literal. *)
Ltac build_on_literal :=
  unfold build_command, build_set, build_incr, build_read, build_ttl,
    build_info, build_config, build_auth, build_slowlog, build_server;
  decide_names; cbn [first_some].

Definition is_float_command (c : Command) : bool :=
  match c with CIncrByFloat _ _ => true | _ => false end.

Lemma build_args_mset ps :
  ps ≠ [] → build_command (args (CMSet ps)) = Ok (CMSet ps).
Proof.
  intros Hps. cbn [args]. build_on_literal.
  rewrite blen_flat_pairs, (Z.mul_comm 2), Z_mod_mult, pair_up_flat.
  destruct (_ =? 0) eqn:E; [|done].
  destruct ps; [done|]. unfold blen in E. simpl in E. lia.
Qed.

Lemma build_args_roundtrip c :
  wf_command c → is_float_command c = false → build_command (args c) = Ok c.
Proof.
  intros Hwf Hf. destruct c; try discriminate Hf; simpl in Hwf;
    try (by apply build_args_mset); cbn [args].
  all: repeat match goal with
       | o : option _ |- _ => destruct o
       | H : ?l ≠ [] |- _ => destruct l; [done|clear H]
       | H : _ ∨ _ |- _ => destruct H
       | H : _ ∧ _ |- _ => destruct H
       end; simplify_eq.
  all: repeat match goal with
       | H : length ?l = 1%nat |- _ => destruct l as [|? [|? ?]]; try done; clear H
       | H : length ?l = 2%nat |- _ => destruct l as [|? [|? [|? ?]]]; try done; clear H
       | H : (length ?l ≤ 1)%nat |- _ =>
           destruct l as [|? [|? ?]]; [clear H|clear H|simpl in H; lia]
       end.
  all: build_on_literal; try done.
  all: by rewrite parse_integer_argument_print.
Qed.

(** A group of arms only produces well-formed commands. *)
Definition wf_group (o : option (res Command)) : Prop :=
  ∀ c, o = Some (Ok c) → wf_command c.

Ltac solve_wf_group :=
  intros c; unfold arity, try_cmd, parse_integer_argument, parse_float_argument;
  repeat case_match; intros; simplify_eq; simpl;
  eauto using parse_i64_in_i64, checked_i64_in, wf64_parse.

Lemma build_set_wf u l : wf_group (build_set u l).
Proof.
  unfold build_set. solve_wf_group.
  match goal with H : _ || _ = false |- _ => apply orb_false_iff in H as [? ?] end.
  by destruct l as [|k [|v l]].
Qed.
Lemma build_incr_wf u l : wf_group (build_incr u l).
Proof. unfold build_incr. solve_wf_group. Qed.
Lemma build_read_wf u l : wf_group (build_read u l).
Proof. unfold build_read. solve_wf_group. Qed.
Lemma build_ttl_wf u l : wf_group (build_ttl u l).
Proof. unfold build_ttl. solve_wf_group. Qed.
Lemma build_info_wf u l : wf_group (build_info u l).
Proof. unfold build_info. solve_wf_group. Qed.
Lemma build_config_wf u l : wf_group (build_config u l).
Proof. unfold build_config. solve_wf_group. Qed.
Lemma build_auth_wf u l : wf_group (build_auth u l).
Proof. unfold build_auth. solve_wf_group. Qed.
Lemma build_slowlog_wf u l : wf_group (build_slowlog u l).
Proof. unfold build_slowlog. solve_wf_group. Qed.
Lemma build_server_wf u l : wf_group (build_server u l).
Proof. unfold build_server. solve_wf_group. Qed.

Lemma first_some_wf gs e c :
  Forall wf_group gs → first_some gs (Err e) = Ok c → wf_command c.
Proof.
  induction 1 as [|g gs Hg _ IH]; simpl; [done|].
  destruct g as [r|]; [|done]. intros ->. by apply Hg.
Qed.

Lemma build_command_wf parts c : build_command parts = Ok c → wf_command c.
Proof.
  destruct parts as [|name l]; [done|]. unfold build_command.
  apply first_some_wf.
  eauto 20 using build_set_wf, build_incr_wf, build_read_wf, build_ttl_wf,
    build_info_wf, build_config_wf, build_auth_wf, build_slowlog_wf,
    build_server_wf.
Qed.
