(* ===== verification/Parser.v ===== *)
(** * The incremental RESP frame parser (src/src/protocol/parser.rs)

    [parse_frame] and its helpers, on the byte buffer and cursor the source
    uses. The lemmas show that the parser inverts [encode_command], that a
    partial frame is never misread, and that an answer other than [Incomplete]
    does not depend on the bytes that follow the frame. *)
From S2P Require Import Prelude Numeric Text Error Floats Encoder Command.
From Stdlib Require Import Strings.Byte.
From stdpp Require Import gmap list strings numbers.
Local Open Scope Z_scope.

Inductive FrameParse : Type :=
| Complete (command : Command) (consumed : nat)
| Invalid (error : FerrumError) (consumed : nat)
| Incomplete.

Definition MAX_ARRAY_ELEMENTS : Z := 1048576.
Definition MAX_BULK_LEN : Z := 512 * 1024 * 1024.

(** [s.windows(2).position(|w| w == b"\r\n")]. *)
Fixpoint crlf_pos (s : bytes) : option nat :=
  match s with
  | a :: s' =>
      match s' with
      | b :: _ =>
          if bool_decide (a = x0d) && bool_decide (b = x0a) then Some 0%nat
          else S <$> crlf_pos s'
      | [] => None
      end
  | [] => None
  end.

Definition find_crlf (buf : bytes) (from : nat) : option nat :=
  if (length buf <=? from)%nat then None
  else (λ pos, (pos + from)%nat) <$> crlf_pos (drop from buf).

(** [&buf[a..b]]. *)
Definition slice (buf : bytes) (a b : nat) : bytes := take (b - a) (drop a buf).

Definition read_integer_line (buf : bytes) (start : nat) : res (option (Z * nat)) :=
  match find_crlf buf start with
  | None => Ok None
  | Some crlf =>
      let text := slice buf start crlf in
      if negb (utf8_valid text) then
        Err (ParseError (str "non-ASCII length prefix"))
      else match parse_i64 text with
           | None => Err (ParseError (str "invalid integer: " ++ debug_str text))
           | Some value => Ok (Some (value, (crlf + 2)%nat))
           end
  end.

Definition read_bulk_string (buf : bytes) (start : nat)
    : res (option (bytes * nat)) :=
  match buf !! start with
  | None => Ok None
  | Some c =>
      if negb (bool_decide (c = x24)) then
        Err (ParseError (str "expected '$' at start of bulk string, got "
                         ++ debug_char c))
      else
        match read_integer_line buf (start + 1) with
        | Err e => Err e
        | Ok None => Ok None
        | Ok (Some (len, after_len)) =>
            if len <? 0 then
              Err (ParseError (str "null bulk string is not allowed in requests"))
            else if MAX_BULK_LEN <? len then
              Err (ParseError (str "bulk string too large (" ++ to_string_u len
                               ++ str " bytes)"))
            else
              let payload_end := (after_len + Z.to_nat len)%nat in
              if (length buf <? payload_end + 2)%nat then Ok None
              else if negb (bytes_eqb (slice buf payload_end (payload_end + 2)) CRLF)
              then Err (ParseError (str "bulk string not terminated by CRLF"))
              else Ok (Some (slice buf after_len payload_end, (payload_end + 2)%nat))
        end
  end.

(** [for _ in 0..count { ... parts.push(s) }]. *)
Fixpoint read_parts (count : nat) (buf : bytes) (cursor : nat)
    : res (option (list bytes * nat)) :=
  match count with
  | O => Ok (Some ([], cursor))
  | S n =>
      match read_bulk_string buf cursor with
      | Err e => Err e
      | Ok None => Ok None
      | Ok (Some (s, next)) =>
          match read_parts n buf next with
          | Err e => Err e
          | Ok None => Ok None
          | Ok (Some (l, fin)) => Ok (Some (s :: l, fin))
          end
      end
  end.

Definition parse_frame (buf : bytes) : res FrameParse :=
  match buf with
  | [] => Ok Incomplete
  | c :: _ =>
      if negb (bool_decide (c = x2a)) then
        Err (ParseError (str "expected '*' at start of RESP array, got "
                         ++ debug_char c))
      else
        match read_integer_line buf 1 with
        | Err e => Err e
        | Ok None => Ok Incomplete
        | Ok (Some (count, next)) =>
            if count <? 1 then
              Err (ParseError (str "RESP array must contain at least one element, got "
                               ++ to_string_i count))
            else if MAX_ARRAY_ELEMENTS <? count then
              Err (ParseError (str "RESP array too large (" ++ to_string_u count
                   ++ str " elements, max " ++ to_string_u MAX_ARRAY_ELEMENTS
                   ++ str ")"))
            else
              match read_parts (Z.to_nat count) buf next with
              | Err e => Err e
              | Ok None => Ok Incomplete
              | Ok (Some (parts, cursor)) =>
                  match build_command parts with
                  | Ok cmd => Ok (Complete cmd cursor)
                  | Err e => Ok (Invalid e cursor)
                  end
              end
        end
  end.

(** ** Lemmas on slices and line ends *)

Lemma crlf_pos_line (l rest : bytes) :
  Forall (λ b, b ≠ x0d) l → crlf_pos (l ++ CRLF ++ rest) = Some (length l).
Proof.
  induction 1 as [|c l Hc _ IH]; [done|]. cbn [app crlf_pos].
  destruct (l ++ CRLF ++ rest) as [|b l'] eqn:E; [by destruct l|].
  rewrite bool_decide_eq_false_2 by done. cbn [andb]. by rewrite IH.
Qed.

Lemma crlf_pos_none_prefix (l : bytes) :
  Forall (λ b, b ≠ x0d) l → crlf_pos l = None ∧ crlf_pos (l ++ [x0d]) = None.
Proof.
  induction 1 as [|c l Hc Hl [IH1 IH2]]; [done|]. split.
  - cbn [crlf_pos]. destruct l; [done|].
    rewrite bool_decide_eq_false_2 by done. cbn [andb]. by rewrite IH1.
  - cbn [app crlf_pos]. destruct (l ++ [x0d]) eqn:E; [done|].
    rewrite bool_decide_eq_false_2 by done. cbn [andb]. by rewrite IH2.
Qed.

Lemma crlf_pos_app (s t : bytes) n :
  crlf_pos s = Some n → crlf_pos (s ++ t) = Some n.
Proof.
  revert n. induction s as [|a s IH]; intros n; [done|]. cbn [app crlf_pos].
  destruct s as [|b s']; [done|]. cbn [app]. destruct (_ && _); [done|].
  intros (m & Hm & ->)%fmap_Some. change (b :: s' ++ t) with ((b :: s') ++ t).
  by rewrite (IH m).
Qed.

Lemma crlf_pos_bound s n : crlf_pos s = Some n → (n + 2 ≤ length s)%nat.
Proof.
  revert n. induction s as [|a s IH]; intros n; [done|]. cbn [crlf_pos].
  destruct s as [|b s']; [done|]. destruct (_ && _).
  - intros [= <-]. simpl. lia.
  - intros (m & Hm & ->)%fmap_Some. apply IH in Hm. simpl in *. lia.
Qed.

Lemma slice_app (buf t : bytes) a b :
  (b ≤ length buf)%nat → slice (buf ++ t) a b = slice buf a b.
Proof.
  intros Hb. unfold slice. destruct (decide (a ≤ length buf)%nat).
  - rewrite drop_app_le, take_app_le by (rewrite ?length_drop; lia). done.
  - replace (b - a)%nat with 0%nat by lia. by rewrite !take_0.
Qed.

Lemma slice_middle (pre l rest : bytes) :
  slice (pre ++ l ++ rest) (length pre) (length pre + length l) = l.
Proof.
  unfold slice. rewrite drop_app_length.
  replace (length pre + length l - length pre)%nat with (length l) by lia.
  by rewrite take_app_length.
Qed.

Lemma find_crlf_bound buf from n :
  find_crlf buf from = Some n → (from ≤ n ∧ n + 2 ≤ length buf)%nat.
Proof.
  unfold find_crlf. destruct (_ <=? _)%nat eqn:E; [done|].
  apply Nat.leb_gt in E. intros (m & Hm & ->)%fmap_Some.
  apply crlf_pos_bound in Hm. rewrite length_drop in Hm. lia.
Qed.

Lemma find_crlf_app buf t from n :
  find_crlf buf from = Some n → find_crlf (buf ++ t) from = Some n.
Proof.
  unfold find_crlf. destruct (_ <=? _)%nat eqn:E; [done|].
  apply Nat.leb_gt in E. intros (m & Hm & ->)%fmap_Some.
  destruct (length (buf ++ t) <=? from)%nat eqn:E2.
  - apply Nat.leb_le in E2. rewrite length_app in E2. lia.
  - rewrite drop_app_le by lia. by rewrite (crlf_pos_app _ _ m).
Qed.

Lemma find_crlf_line pre (l rest : bytes) :
  Forall (λ b, b ≠ x0d) l →
  find_crlf (pre ++ l ++ CRLF ++ rest) (length pre) = Some (length pre + length l)%nat.
Proof.
  intros Hl. unfold find_crlf. destruct (_ <=? _)%nat eqn:E.
  - apply Nat.leb_le in E. rewrite !length_app in E. simpl in E. lia.
  - rewrite drop_app_length, crlf_pos_line by done. simpl. f_equal. lia.
Qed.

(** ** The parser inverts the encoder *)

Lemma read_integer_line_print pre n rest :
  0 ≤ n ≤ i64_max →
  read_integer_line (pre ++ to_string_u n ++ CRLF ++ rest) (length pre)
  = Ok (Some (n, (length pre + length (to_string_u n) + 2)%nat)).
Proof.
  intros Hn. unfold read_integer_line.
  rewrite find_crlf_line by (apply to_string_u_no_cr; lia).
  rewrite slice_middle, to_string_u_utf8 by lia. cbn [negb].
  by rewrite parse_i64_to_string_u.
Qed.

Lemma length_encode_part p :
  length (encode_part p) = (1 + length (to_string_u (blen p)) + 2 + length p + 2)%nat.
Proof. unfold encode_part. rewrite !length_app. simpl. lia. Qed.

Lemma read_bulk_string_encode pre p rest :
  blen p ≤ MAX_BULK_LEN →
  read_bulk_string (pre ++ encode_part p ++ rest) (length pre)
  = Ok (Some (p, (length pre + length (encode_part p))%nat)).
Proof.
  intros Hp. set (n := length (to_string_u (blen p))).
  set (buf := pre ++ encode_part p ++ rest).
  assert (Hbuf : buf = (pre ++ [x24]) ++ to_string_u (blen p) ++ CRLF ++ p ++ CRLF ++ rest).
  { unfold buf, encode_part. by rewrite <- !app_assoc. }
  assert (Hlen : length (encode_part p) = (1 + n + 2 + length p + 2)%nat)
    by apply length_encode_part.
  unfold read_bulk_string.
  assert (buf !! length pre = Some x24) as ->.
  { unfold buf. by rewrite lookup_app_r, Nat.sub_diag by lia. }
  rewrite bool_decide_eq_true_2 by done. cbn [negb].
  pose proof (read_integer_line_print (pre ++ [x24]) (blen p)
                (p ++ CRLF ++ rest)) as Hline.
  rewrite <- Hbuf, length_app in Hline. change (length [x24]) with 1%nat in Hline.
  rewrite Hline by (pose proof (blen_nonneg p); unfold MAX_BULK_LEN in *; mlia).
  clear Hline. fold n.
  destruct (blen p <? 0) eqn:E0; [unfold blen in E0; lia|].
  destruct (MAX_BULK_LEN <? blen p) eqn:E1; [lia|]. unfold blen. rewrite Nat2Z.id.
  assert (Hb : (length pre + 1 + n + 2 + length p + 2 ≤ length buf)%nat).
  { unfold buf. rewrite !length_app, Hlen. lia. }
  destruct (_ <? _)%nat eqn:E2; [apply Nat.ltb_lt in E2; lia|].
  set (h := (pre ++ [x24]) ++ to_string_u (blen p) ++ CRLF).
  assert (Hh : length h = (length pre + 1 + n + 2)%nat)
    by (unfold h; rewrite !length_app; unfold n; simpl; lia).
  assert (Hb1 : buf = h ++ p ++ CRLF ++ rest) by (rewrite Hbuf; unfold h; by rewrite <- !app_assoc).
  assert (Hb2 : buf = (h ++ p) ++ CRLF ++ rest) by (rewrite Hb1; by rewrite <- !app_assoc).
  assert (slice buf (length pre + 1 + n + 2 + length p)
            (length pre + 1 + n + 2 + length p + 2) = CRLF) as ->.
  { rewrite Hb2, <- Hh, <- length_app. apply (slice_middle (h ++ p) CRLF). }
  rewrite bytes_eqb_refl. cbn [negb].
  assert (slice buf (length pre + 1 + n + 2) (length pre + 1 + n + 2 + length p) = p) as ->.
  { rewrite Hb1, <- Hh. apply slice_middle. }
  do 3 f_equal. lia.
Qed.

Lemma read_parts_encode pre ps rest :
  Forall (λ p, blen p ≤ MAX_BULK_LEN) ps →
  read_parts (length ps) (pre ++ concat (map encode_part ps) ++ rest) (length pre)
  = Ok (Some (ps, (length pre + length (concat (map encode_part ps)))%nat)).
Proof.
  intros H. revert pre. induction H as [|p ps Hp _ IH]; intros pre.
  { simpl. do 3 f_equal. lia. }
  cbn [length read_parts map concat]. rewrite <- app_assoc.
  rewrite read_bulk_string_encode by done.
  specialize (IH (pre ++ encode_part p)). rewrite length_app, <- app_assoc in IH.
  rewrite IH, length_app. do 3 f_equal. lia.
Qed.

(** What the parser answers on an encoded argument vector. *)
Definition frame_of (parts : list bytes) (n : nat) : FrameParse :=
  match build_command parts with Ok c => Complete c n | Err e => Invalid e n end.

(** Argument vectors within the protocol limits. *)
Definition wf_parts (parts : list bytes) : Prop :=
  parts ≠ [] ∧ blen parts ≤ MAX_ARRAY_ELEMENTS ∧
  Forall (λ p, blen p ≤ MAX_BULK_LEN) parts.

Lemma parse_frame_encode parts rest :
  wf_parts parts →
  parse_frame (encode_command parts ++ rest)
  = Ok (frame_of parts (length (encode_command parts))).
Proof.
  intros (Hne & Hmax & Hall). unfold encode_command.
  set (body := concat (map encode_part parts)).
  pose proof (read_integer_line_print [x2a] (blen parts) (body ++ rest)) as Hline.
  assert (Hr : 1 ≤ blen parts ≤ MAX_ARRAY_ELEMENTS).
  { destruct parts; [done|]. unfold blen in *. simpl in *. lia. }
  specialize (Hline ltac:(unfold MAX_ARRAY_ELEMENTS in Hr; mlia)).
  set (h := [x2a] ++ to_string_u (blen parts) ++ CRLF) in *.
  assert (Hbuf : (h ++ body) ++ rest = [x2a] ++ to_string_u (blen parts) ++ CRLF ++ body ++ rest).
  { unfold h. by rewrite <- !app_assoc. }
  rewrite <- Hbuf in Hline. change (length [x2a]) with 1%nat in Hline.
  assert (Hh : length h = (1 + length (to_string_u (blen parts)) + 2)%nat).
  { unfold h. rewrite !length_app. simpl. lia. }
  unfold parse_frame.
  assert (∃ t, (h ++ body) ++ rest = x2a :: t) as [t Ht] by (by eexists).
  rewrite Ht. rewrite bool_decide_eq_true_2 by done. cbn [negb].
  rewrite <- Ht, Hline.
  destruct (_ <? 1) eqn:E1; [lia|]. destruct (_ <? blen parts) eqn:E2; [lia|].
  pose proof (read_parts_encode h parts rest Hall) as Hp.
  fold body in Hp. unfold blen at 1. rewrite Nat2Z.id, <- Hh, <- app_assoc, Hp.
  unfold frame_of. rewrite <- length_app. by destruct (build_command parts).
Qed.

(** ** Stability under further input *)

Lemma read_integer_line_app buf t start r :
  read_integer_line buf start = r → r ≠ Ok None →
  read_integer_line (buf ++ t) start = r.
Proof.
  unfold read_integer_line. destruct (find_crlf buf start) as [n|] eqn:E.
  - rewrite (find_crlf_app _ _ _ _ E). intros H _.
    apply find_crlf_bound in E as [_ ?]. by rewrite slice_app by lia.
  - by intros <-.
Qed.

Lemma read_integer_line_bound buf start z n :
  read_integer_line buf start = Ok (Some (z, n)) → (start < n ≤ length buf)%nat.
Proof.
  unfold read_integer_line. destruct (find_crlf _ _) eqn:E; [|done].
  apply find_crlf_bound in E. repeat case_match; intros; simplify_eq. lia.
Qed.

Lemma read_bulk_string_app buf t start r :
  read_bulk_string buf start = r → r ≠ Ok None →
  read_bulk_string (buf ++ t) start = r.
Proof.
  unfold read_bulk_string. destruct (buf !! start) as [c|] eqn:E; [|by intros <-].
  rewrite lookup_app_l by (by apply lookup_lt_Some in E). rewrite E.
  destruct (negb _); [done|].
  destruct (read_integer_line buf (start + 1)) as [[[len al]|]|e] eqn:El; [| |].
  - rewrite (read_integer_line_app _ t _ _ El) by done.
    destruct (len <? 0); [done|]. destruct (_ <? len); [done|].
    destruct (length buf <? _)%nat eqn:Eb; [by intros <-|].
    apply Nat.ltb_ge in Eb.
    destruct (length (buf ++ t) <? _)%nat eqn:Eb'.
    { apply Nat.ltb_lt in Eb'. rewrite length_app in Eb'. lia. }
    by rewrite !slice_app by lia.
  - by intros <-.
  - by rewrite (read_integer_line_app _ t _ _ El).
Qed.

Lemma read_bulk_string_bound buf start s n :
  read_bulk_string buf start = Ok (Some (s, n)) → (start < n ≤ length buf)%nat.
Proof.
  unfold read_bulk_string. destruct (buf !! start); [|done]. destruct (negb _); [done|].
  destruct (read_integer_line _ _) as [[[len al]|]|] eqn:El; [|done|done].
  apply read_integer_line_bound in El. repeat case_match; intros; simplify_eq.
  match goal with H : (_ <? _)%nat = false |- _ => apply Nat.ltb_ge in H end. lia.
Qed.

Lemma read_parts_app n buf t cur r :
  read_parts n buf cur = r → r ≠ Ok None → read_parts n (buf ++ t) cur = r.
Proof.
  revert cur r. induction n as [|n IH]; intros cur r; [done|]. cbn [read_parts].
  destruct (read_bulk_string buf cur) as [[[s nx]|]|e] eqn:E.
  - rewrite (read_bulk_string_app _ t _ _ E) by done.
    destruct (read_parts n buf nx) as [[[l fin]|]|e] eqn:E2.
    + by rewrite (IH _ _ E2).
    + by intros <-.
    + by rewrite (IH _ _ E2).
  - by intros <-.
  - by rewrite (read_bulk_string_app _ t _ _ E).
Qed.

Lemma read_parts_bound n buf cur l fin :
  (cur ≤ length buf)%nat →
  read_parts n buf cur = Ok (Some (l, fin)) → (cur ≤ fin ≤ length buf)%nat.
Proof.
  revert cur l. induction n as [|n IH]; intros cur l Hc; cbn [read_parts].
  { intros; simplify_eq. lia. }
  destruct (read_bulk_string buf cur) as [[[s nx]|]|e] eqn:E; [|done|done].
  apply read_bulk_string_bound in E.
  destruct (read_parts n buf nx) as [[[l' fin']|]|e] eqn:E2; [|done|done].
  intros; simplify_eq. apply IH in E2; lia.
Qed.

Definition frame_consumed (f : FrameParse) : nat :=
  match f with Complete _ n | Invalid _ n => n | Incomplete => 0 end.

Lemma parse_frame_app buf t r :
  parse_frame buf = r → r ≠ Ok Incomplete → parse_frame (buf ++ t) = r.
Proof.
  unfold parse_frame. destruct buf as [|c buf']; [by intros <-|].
  rewrite <- app_comm_cons. set (buf := c :: buf').
  change (c :: buf' ++ t) with (buf ++ t).
  destruct (negb _); [done|].
  destruct (read_integer_line buf 1) as [[[count nx]|]|e] eqn:E.
  - rewrite (read_integer_line_app _ t _ _ E) by done.
    destruct (count <? 1); [done|]. destruct (_ <? count); [done|].
    destruct (read_parts _ buf nx) as [[[parts cur]|]|e] eqn:E2.
    + by rewrite (read_parts_app _ _ t _ _ E2).
    + by intros <-.
    + by rewrite (read_parts_app _ _ t _ _ E2).
  - by intros <-.
  - by rewrite (read_integer_line_app _ t _ _ E).
Qed.

Lemma parse_frame_consumed buf f :
  parse_frame buf = Ok f → f ≠ Incomplete →
  (0 < frame_consumed f ≤ length buf)%nat.
Proof.
  unfold parse_frame. destruct buf as [|c buf']; [naive_solver|].
  remember (c :: buf') as buf. destruct (negb _); [done|].
  destruct (read_integer_line buf 1) as [[[count nx]|]|e] eqn:E; [|naive_solver|done].
  apply read_integer_line_bound in E.
  destruct (count <? 1); [done|]. destruct (_ <? count); [done|].
  destruct (read_parts _ buf nx) as [[[parts cur]|]|e] eqn:E2; [|naive_solver|done].
  apply read_parts_bound in E2; [|lia].
  destruct (build_command parts); intros [= <-] _; simpl; lia.
Qed.

(** Before its last byte arrived, an encoded command is incomplete. *)
(** A parsed command is well formed. *)
Lemma parse_frame_wf buf cmd n : parse_frame buf = Ok (Complete cmd n) → wf_command cmd.
Proof.
  unfold parse_frame. repeat case_match; intros; simplify_eq; by eapply build_command_wf.
Qed.

Lemma parse_frame_prefix parts p q :
  wf_parts parts → encode_command parts = p ++ q → q ≠ [] →
  parse_frame p = Ok Incomplete.
Proof.
  intros Hwf Hpq Hq.
  pose proof (parse_frame_encode parts [] Hwf) as Hfull. rewrite app_nil_r in Hfull.
  assert (Hdec : parse_frame p = Ok Incomplete ∨ parse_frame p ≠ Ok Incomplete)
    by (destruct (parse_frame p) as [[]|]; auto).
  destruct Hdec as [|Hne]; [done|].
  pose proof (parse_frame_app p q _ eq_refl Hne) as Hp. rewrite <- Hpq, Hfull in Hp.
  symmetry in Hp. apply parse_frame_consumed in Hp.
  - rewrite Hpq in Hp. unfold frame_of in Hp.
    destruct (build_command parts); simpl in Hp; rewrite length_app in Hp;
      destruct q; simpl in *; try done; lia.
  - unfold frame_of. by destruct (build_command parts).
Qed.

(** ** Properties *)

(** C18: the wire round trip. Any argument vector that makes a command, encoded
    and parsed, gives that command back and consumes exactly those bytes, whatever
    follows them in the buffer, for any keys and values, CR and LF included. In
    particular the parser reads back what [args] prints for a command; only for
    [INCRBYFLOAT] this is not claimed of the number as [args] prints it, but of
    every text the number may be sent as. *)
Theorem command_wire_roundtrip c rest :
  (∀ parts, wf_parts parts → build_command parts = Ok c →
     parse_frame (encode_command parts ++ rest) = Ok (Complete c (length (encode_command parts)))) ∧
  (wf_command c → is_float_command c = false → wf_parts (args c) →
     parse_frame (encode_command (args c) ++ rest) = Ok (Complete c (length (encode_command (args c))))).
Proof.
  assert (Hp : ∀ parts, wf_parts parts → build_command parts = Ok c →
    parse_frame (encode_command parts ++ rest) = Ok (Complete c (length (encode_command parts)))).
  { intros parts Hw Hb. rewrite parse_frame_encode by done. unfold frame_of. by rewrite Hb. }
  split; [done|]. intros Hwf Hf Hw. by apply Hp, build_args_roundtrip.
Qed.

Lemma command_wire_roundtrip_witness :
  parse_frame (encode_command (args (CSet (str "k") [x0d; x0a; x00])) ++ str "*1")
  = Ok (Complete (CSet (str "k") [x0d; x0a; x00]) 29) ∧
  ∃ x, parse_frame (encode_command [str "incrbyfloat"; str "k"; str "1e-1"] ++ str "*1")
    = Ok (Complete (CIncrByFloat (str "k") x) 39) ∧ F64.parse (str "0.1") = Some x.
Proof.
  split.
  - destruct (command_wire_roundtrip (CSet (str "k") [x0d; x0a; x00]) (str "*1")) as [_ ->]; [done|done|done|].
    split; [done|]. split; [vm_compute; discriminate|].
    repeat (constructor; [vm_compute; discriminate|]). constructor.
  - destruct (F64.parse (str "0.1")) as [x|] eqn:Ex; [|vm_compute in Ex; discriminate]. exists x. split; [|done].
    destruct (command_wire_roundtrip (CIncrByFloat (str "k") x) (str "*1")) as [Ht _].
    rewrite (Ht [str "incrbyfloat"; str "k"; str "1e-1"]); [reflexivity| |].
    + split; [done|]. split; [vm_compute; discriminate|].
      repeat (constructor; [vm_compute; discriminate|]). constructor.
    + vm_compute in Ex. injection Ex as <-. vm_compute. reflexivity.
Defined.

(** C19: a command split across reads is never misread: any proper prefix of
    an encoded argument vector within the protocol limits is reported as
    incomplete, neither as a shorter frame nor as a protocol error. *)
Theorem frame_prefix_incomplete parts p q :
  wf_parts parts → encode_command parts = p ++ q → q ≠ [] →
  parse_frame p = Ok Incomplete.
Proof. apply parse_frame_prefix. Qed.

Lemma frame_prefix_incomplete_witness :
  parse_frame (take 20 (encode_command [str "GET"; str "key"])) = Ok Incomplete.
Proof.
  apply (frame_prefix_incomplete [str "GET"; str "key"] _
    (drop 20 (encode_command [str "GET"; str "key"]))).
  - split; [done|]. split; [vm_compute; discriminate|].
    repeat (constructor; [vm_compute; discriminate|]). constructor.
  - symmetry. apply take_drop.
  - vm_compute. discriminate.
Defined.

(** the answer of the parser is final: once it reports a frame or a
    protocol error, more input does not change the answer, and a reported frame
    consumes at least one byte and at most the buffer. *)
Theorem parse_frame_stable buf more r :
  parse_frame buf = r → r ≠ Ok Incomplete →
  parse_frame (buf ++ more) = r ∧
  ∀ f, r = Ok f → (0 < frame_consumed f ≤ length buf)%nat.
Proof.
  intros Hr Hne. split; [by apply parse_frame_app|].
  intros f ->. apply parse_frame_consumed; [done|]. by intros ->.
Qed.

Lemma parse_frame_stable_witness :
  parse_frame (encode_command [str "PING"] ++ str "junk") = Ok (Complete (CPing None) 14).
Proof.
  apply (parse_frame_stable (encode_command [str "PING"]) (str "junk") (Ok (Complete (CPing None) 14)));
    [vm_compute; reflexivity|discriminate].
Defined.
