(* ===== verification/IndexMap.v ===== *)
(** * The ordered map and the hash map the storage layer relies on

    [IndexMap] is a third-party crate: the class below is its interface, the
    operations the eviction structures call with the behaviour its
    documentation promises, stated on the sequence of entries in index order.
    The eviction structures are verified against the class; [list_index_map]
    shows that the laws can hold together.

    [HashIter] is the iteration order of the standard [HashMap], which the
    standard library leaves unspecified: any order of the entries, each one
    yielded once. *)
From S2P Require Import Prelude.
From stdpp Require Import gmap list.

(** ** Reference operations on association lists *)

Section assoc_list.
Context {V : Type}.
Implicit Types l : list (bytes * V).

Definition al_index_of (k : bytes) l : option nat :=
  fst <$> list_find (λ p, p.1 = k) l.

Definition al_insert (k : bytes) (v : V) l : list (bytes * V) :=
  match al_index_of k l with
  | Some i => <[i := (k, v)]> l
  | None => l ++ [(k, v)]
  end.

Definition al_remove (k : bytes) l : list (bytes * V) :=
  filter (λ p, p.1 ≠ k) l.

Definition al_insert_at (i : nat) (x : bytes * V) l : list (bytes * V) :=
  take i l ++ x :: drop i l.

Definition al_move (from to : nat) l : list (bytes * V) :=
  match l !! from with
  | Some x => al_insert_at to x (delete from l)
  | None => l
  end.

End assoc_list.

(** ** The interface of the [indexmap] crate *)

Class IndexMap := {
  im_map : Type → Type;
  im_entries : ∀ {V}, im_map V → list (bytes * V);
  im_new : ∀ {V}, im_map V;
  im_insert : ∀ {V}, bytes → V → im_map V → im_map V;
  im_get_mut_set : ∀ {V}, bytes → V → im_map V → im_map V;
  im_get_index_of : ∀ {V}, bytes → im_map V → option nat;
  im_shift_remove : ∀ {V}, bytes → im_map V → im_map V;
  im_get_index : ∀ {V}, nat → im_map V → option (bytes * V);
  im_get_index_mut_set : ∀ {V}, nat → V → im_map V → im_map V;
  im_insert_before : ∀ {V}, nat → bytes → V → im_map V → im_map V;
  im_move_index : ∀ {V}, nat → nat → im_map V → im_map V;
  im_shift_remove_index : ∀ {V}, nat → im_map V → option (bytes * V) * im_map V;
  im_clear : ∀ {V}, im_map V → im_map V;
  im_len : ∀ {V}, im_map V → nat;

  (** a new or cleared map is empty *)
  im_new_spec : ∀ {V}, im_entries (im_new (V := V)) = [];
  im_clear_spec : ∀ {V} (m : im_map V), im_entries (im_clear m) = [];
  im_len_spec : ∀ {V} (m : im_map V), im_len m = length (im_entries m);
  (** an insertion replaces the value of an existing key in place and appends
      a new key *)
  im_insert_spec : ∀ {V} k v (m : im_map V),
    im_entries (im_insert k v m) = al_insert k v (im_entries m);
  (** writing through [get_mut] replaces the value of a present key *)
  im_get_mut_set_spec : ∀ {V} k v (m : im_map V),
    im_entries (im_get_mut_set k v m)
    = match al_index_of k (im_entries m) with
      | Some i => <[i := (k, v)]> (im_entries m)
      | None => im_entries m
      end;
  im_get_index_of_spec : ∀ {V} k (m : im_map V),
    im_get_index_of k m = al_index_of k (im_entries m);
  (** the entries after a removed one shift down, their order is kept *)
  im_shift_remove_spec : ∀ {V} k (m : im_map V),
    im_entries (im_shift_remove k m) = al_remove k (im_entries m);
  im_get_index_spec : ∀ {V} i (m : im_map V),
    im_get_index i m = im_entries m !! i;
  im_get_index_mut_set_spec : ∀ {V} i v (m : im_map V),
    im_entries (im_get_index_mut_set i v m)
    = alter (λ p, (p.1, v)) i (im_entries m);
  (** a new key goes to index [i], the entries from there on shift up *)
  im_insert_before_spec : ∀ {V} i k v (m : im_map V),
    i ≤ length (im_entries m) → k ∉ (im_entries m).*1 →
    im_entries (im_insert_before i k v m) = al_insert_at i (k, v) (im_entries m);
  (** the entry at [from] is moved to index [to] *)
  im_move_index_spec : ∀ {V} from to (m : im_map V),
    from < length (im_entries m) → to < length (im_entries m) →
    im_entries (im_move_index from to m) = al_move from to (im_entries m);
  im_shift_remove_index_spec : ∀ {V} i (m : im_map V),
    (im_shift_remove_index i m).1 = im_entries m !! i ∧
    im_entries (im_shift_remove_index i m).2 = delete i (im_entries m);
}.

(** The keys in index order. *)
Definition im_keys `{IndexMap} {V} (m : im_map V) : list bytes := (im_entries m).*1.

(** ** Iteration of the standard hash map *)

Class HashIter := {
  hm_iter : ∀ {V}, gmap bytes V → list (bytes * V);
  hm_iter_perm : ∀ {V} (m : gmap bytes V), hm_iter m ≡ₚ map_to_list m;
}.

(** ** The laws have a model *)

#[export, refine] Instance list_index_map : IndexMap := {|
  im_map V := list (bytes * V);
  im_entries V m := m;
  im_new V := [];
  im_insert V k v m := al_insert k v m;
  im_get_mut_set V k v m :=
    match al_index_of k m with Some i => <[i := (k, v)]> m | None => m end;
  im_get_index_of V k m := al_index_of k m;
  im_shift_remove V k m := al_remove k m;
  im_get_index V i m := m !! i;
  im_get_index_mut_set V i v m := alter (λ p, (p.1, v)) i m;
  im_insert_before V i k v m := al_insert_at i (k, v) m;
  im_move_index V from to m := al_move from to m;
  im_shift_remove_index V i m := (m !! i, delete i m);
  im_clear V m := [];
  im_len V m := length m;
|}.
Proof. all: try done. Defined.

#[export, refine] Instance map_to_list_iter : HashIter := {|
  hm_iter V m := map_to_list m;
|}.
Proof. done. Defined.

(** ** Lemmas on the reference operations *)

Section assoc_list_lemmas.
Context {V : Type}.
Implicit Types l : list (bytes * V).

Lemma al_index_of_Some k l i :
  al_index_of k l = Some i ↔
  (∃ v, l !! i = Some (k, v)) ∧ ∀ j p, l !! j = Some p → j < i → p.1 ≠ k.
Proof.
  unfold al_index_of. rewrite fmap_Some. split.
  - intros ([i' [k' v]] & Hf & ->). apply list_find_Some in Hf as (H1 & H2 & H3).
    simpl in *. subst k'. split; [eauto|]. intros j p Hp Hj. by eapply H3.
  - intros [[v Hv] Hlt]. exists (i, (k, v)). split; [|done].
    apply list_find_Some. naive_solver.
Qed.

Lemma al_index_of_None k l : al_index_of k l = None ↔ k ∉ l.*1.
Proof.
  unfold al_index_of. rewrite fmap_None, list_find_None.
  rewrite Forall_forall. split.
  - intros H Hk. apply list_elem_of_fmap in Hk as (p & -> & Hp).
    by apply (H p).
  - intros H p Hp <-. apply H. apply list_elem_of_fmap. exists p.
    by split.
Qed.

Lemma al_insert_keys k v l :
  (al_insert k v l).*1 = if decide (k ∈ l.*1) then l.*1 else l.*1 ++ [k].
Proof.
  unfold al_insert. destruct (al_index_of k l) as [i|] eqn:E.
  - apply al_index_of_Some in E as [[w Hw] _].
    rewrite decide_True.
    + rewrite list_fmap_insert. apply list_insert_id.
      by rewrite list_lookup_fmap, Hw.
    + apply list_elem_of_fmap. exists (k, w). split; [done|].
      by eapply list_elem_of_lookup_2.
  - apply al_index_of_None in E. rewrite decide_False by done.
    by rewrite fmap_app.
Qed.

Lemma al_insert_NoDup k v l : NoDup l.*1 → NoDup (al_insert k v l).*1.
Proof.
  rewrite al_insert_keys. destruct (decide _); [done|]. intros H.
  apply NoDup_app. split; [done|]. split; [|apply NoDup_singleton].
  intros x Hx Hx'. apply list_elem_of_singleton in Hx'. by subst.
Qed.

Lemma elem_of_al_insert k k' v l :
  k' ∈ (al_insert k v l).*1 ↔ k' = k ∨ k' ∈ l.*1.
Proof.
  rewrite al_insert_keys. destruct (decide _).
  - split; [tauto|]. by intros [->|].
  - rewrite elem_of_app, list_elem_of_singleton. tauto.
Qed.

Lemma al_remove_keys k l : (al_remove k l).*1 = filter (λ k', k' ≠ k) l.*1.
Proof.
  unfold al_remove. induction l as [|[k0 v0] l IH]; [done|].
  rewrite fmap_cons, !filter_cons. simpl. by case_decide; csimpl; rewrite IH.
Qed.

Lemma elem_of_al_remove k k' l : k' ∈ (al_remove k l).*1 ↔ k' ≠ k ∧ k' ∈ l.*1.
Proof. by rewrite al_remove_keys, list_elem_of_filter. Qed.

Lemma al_remove_NoDup k l : NoDup l.*1 → NoDup (al_remove k l).*1.
Proof. rewrite al_remove_keys. apply NoDup_filter. Qed.

Lemma al_remove_length k l : (length (al_remove k l) ≤ length l)%nat.
Proof.
  rewrite <- (length_fmap fst), <- (length_fmap fst l), al_remove_keys. apply length_filter.
Qed.

Lemma al_remove_notin k l : k ∉ l.*1 → al_remove k l = l.
Proof.
  unfold al_remove. induction l as [|[k0 v0] l IH]; intros Hk; [done|].
  rewrite fmap_cons in Hk. apply not_elem_of_cons in Hk as [H1 H2].
  rewrite filter_cons, decide_True by done. by rewrite IH.
Qed.

(** With unique keys, removing the entry found at an index is deleting it. *)
Lemma al_remove_delete k l i v :
  NoDup l.*1 → l !! i = Some (k, v) → al_remove k l = delete i l.
Proof.
  revert i. induction l as [|[k0 v0] l IH]; intros i Hnd Hi; [done|].
  apply NoDup_cons in Hnd as [Hk0 Hnd]. unfold al_remove in *.
  rewrite filter_cons. destruct i as [|i]; simpl in *.
  - simplify_eq. rewrite decide_False by tauto.
    by apply al_remove_notin.
  - rewrite decide_True.
    + by rewrite (IH i).
    + intros ->. apply Hk0. apply list_elem_of_fmap. exists (k, v).
      split; [done|]. by eapply list_elem_of_lookup_2.
Qed.

Lemma al_insert_at_perm i x l : al_insert_at i x l ≡ₚ x :: l.
Proof.
  unfold al_insert_at. rewrite <- Permutation_middle.
  by rewrite take_drop.
Qed.

Lemma al_move_perm from to l : al_move from to l ≡ₚ l.
Proof.
  unfold al_move. destruct (l !! from) as [x|] eqn:E; [|done].
  rewrite al_insert_at_perm. symmetry. by apply delete_Permutation.
Qed.

End assoc_list_lemmas.

Section hash_iter.
Context `{HashIter} {V : Type}.
Implicit Types m : gmap bytes V.

Lemma elem_of_hm_iter m k v : (k, v) ∈ hm_iter m ↔ m !! k = Some v.
Proof. rewrite hm_iter_perm. apply elem_of_map_to_list. Qed.

Lemma hm_iter_NoDup m : NoDup (hm_iter m).*1.
Proof. rewrite hm_iter_perm. apply NoDup_fst_map_to_list. Qed.

Lemma hm_iter_length m : length (hm_iter m) = size m.
Proof. rewrite hm_iter_perm. apply length_map_to_list. Qed.

End hash_iter.
