(* ===== verification/Eviction.v ===== *)
(** * Eviction policies and candidate selection (src/src/storage/eviction.rs)

    The sixteen policies with their names and scopes, the choice of a victim
    among sampled candidates, the Morris access counter and the adaptive
    hybrid controller. Instants are nanoseconds since the process origin;
    [f32] arithmetic is the IEEE one of [Floats]. *)
From S2P Require Import Prelude Numeric Floats.
From Stdlib Require Import ZArith Lia SpecFloat.
From stdpp Require Import gmap list strings numbers.
Local Open Scope Z_scope.

Inductive EvictionPolicy :=
| NoEviction
| AllKeysLru | VolatileLru
| AllKeysLfu | VolatileLfu
| AllKeysRandom | VolatileRandom
| VolatileTtl
| AllKeysAhe | VolatileAhe
| AllKeysSieve | VolatileSieve
| AllKeysSieveS | VolatileSieveS
| AllKeysAdaptiveClimb | VolatileAdaptiveClimb.

#[export] Instance EvictionPolicy_eq_dec : EqDecision EvictionPolicy.
Proof. solve_decision. Defined.

Inductive EvictionScope := AllKeys | Volatile.

#[export] Instance EvictionScope_eq_dec : EqDecision EvictionScope.
Proof. solve_decision. Defined.

(** The wire names, in the order of the source's match. *)
Definition policy_names : list (bytes * EvictionPolicy) :=
  [ (str "noeviction", NoEviction);
    (str "allkeys-lru", AllKeysLru);
    (str "volatile-lru", VolatileLru);
    (str "allkeys-lfu", AllKeysLfu);
    (str "volatile-lfu", VolatileLfu);
    (str "allkeys-random", AllKeysRandom);
    (str "volatile-random", VolatileRandom);
    (str "volatile-ttl", VolatileTtl);
    (str "allkeys-ahe", AllKeysAhe);
    (str "volatile-ahe", VolatileAhe);
    (str "allkeys-sieve", AllKeysSieve);
    (str "volatile-sieve", VolatileSieve);
    (str "allkeys-sieves", AllKeysSieveS);
    (str "volatile-sieves", VolatileSieveS);
    (str "allkeys-adaptiveclimb", AllKeysAdaptiveClimb);
    (str "volatile-adaptiveclimb", VolatileAdaptiveClimb) ].

(** [EvictionPolicy::from_name] *)
Definition from_name (name : bytes) : option EvictionPolicy :=
  snd <$> find (λ p, bytes_eqb p.1 name) policy_names.

(** [EvictionPolicy::name] *)
Definition policy_name (p : EvictionPolicy) : bytes :=
  match p with
  | NoEviction => str "noeviction"
  | AllKeysLru => str "allkeys-lru"
  | VolatileLru => str "volatile-lru"
  | AllKeysLfu => str "allkeys-lfu"
  | VolatileLfu => str "volatile-lfu"
  | AllKeysRandom => str "allkeys-random"
  | VolatileRandom => str "volatile-random"
  | VolatileTtl => str "volatile-ttl"
  | AllKeysAhe => str "allkeys-ahe"
  | VolatileAhe => str "volatile-ahe"
  | AllKeysSieve => str "allkeys-sieve"
  | VolatileSieve => str "volatile-sieve"
  | AllKeysSieveS => str "allkeys-sieves"
  | VolatileSieveS => str "volatile-sieves"
  | AllKeysAdaptiveClimb => str "allkeys-adaptiveclimb"
  | VolatileAdaptiveClimb => str "volatile-adaptiveclimb"
  end.

(** [EvictionPolicy::scope] *)
Definition policy_scope (p : EvictionPolicy) : EvictionScope :=
  match p with
  | NoEviction => AllKeys
  | AllKeysLru | AllKeysLfu | AllKeysRandom | AllKeysAhe | AllKeysSieve
  | AllKeysSieveS | AllKeysAdaptiveClimb => AllKeys
  | VolatileLru | VolatileLfu | VolatileRandom | VolatileTtl | VolatileAhe
  | VolatileSieve | VolatileSieveS | VolatileAdaptiveClimb => Volatile
  end.

(** The stateful index of a policy, the constants of [engine::index_kind]. *)
Module index_kind.
Definition NONE : Z := 0.
Definition SIEVE_ALL : Z := 1.
Definition SIEVE_VOLATILE : Z := 2.
Definition SIEVE_S_ALL : Z := 3.
Definition SIEVE_S_VOLATILE : Z := 4.
Definition AC_ALL : Z := 5.
Definition AC_VOLATILE : Z := 6.

Definition is_sieve (kind : Z) : bool :=
  (kind =? SIEVE_ALL) || (kind =? SIEVE_VOLATILE)
  || (kind =? SIEVE_S_ALL) || (kind =? SIEVE_S_VOLATILE).
Definition is_sieve_ttl (kind : Z) : bool :=
  (kind =? SIEVE_S_ALL) || (kind =? SIEVE_S_VOLATILE).
Definition is_ac (kind : Z) : bool := (kind =? AC_ALL) || (kind =? AC_VOLATILE).
End index_kind.

(** [EvictionPolicy::index_kind] *)
Definition policy_index_kind (p : EvictionPolicy) : Z :=
  match p with
  | AllKeysSieve => index_kind.SIEVE_ALL
  | VolatileSieve => index_kind.SIEVE_VOLATILE
  | AllKeysSieveS => index_kind.SIEVE_S_ALL
  | VolatileSieveS => index_kind.SIEVE_S_VOLATILE
  | AllKeysAdaptiveClimb => index_kind.AC_ALL
  | VolatileAdaptiveClimb => index_kind.AC_VOLATILE
  | _ => index_kind.NONE
  end.

(** [EvictionPolicy::is_sieve] and [is_adaptive_climb] *)
Definition policy_is_sieve (p : EvictionPolicy) : bool :=
  match p with
  | AllKeysSieve | VolatileSieve | AllKeysSieveS | VolatileSieveS => true
  | _ => false
  end.
Definition policy_is_adaptive_climb (p : EvictionPolicy) : bool :=
  match p with AllKeysAdaptiveClimb | VolatileAdaptiveClimb => true | _ => false end.

Record EvictionConfig := {
  max_memory : Z;
  policy : EvictionPolicy;
  samples : Z;
}.

(** [EvictionConfig::default] *)
Definition default_config : EvictionConfig :=
  {| max_memory := 0; policy := NoEviction; samples := 5 |}.

Record Candidate := {
  c_key : bytes;
  c_last_access : option Z;
  c_expire_at : option Z;
  c_lfu_counter : Z;
}.

(** ** Choosing a victim *)

(** [Iterator::min_by_key]: the first of the least elements. *)
Fixpoint min_by_aux {A} (lt : A → A → bool) (best : A) (l : list A) : A :=
  match l with
  | [] => best
  | x :: l' => min_by_aux lt (if lt x best then x else best) l'
  end.
Definition min_by {A} (lt : A → A → bool) (l : list A) : option A :=
  match l with [] => None | x :: l' => Some (min_by_aux lt x l') end.

(** [Iterator::max_by]: the last of the greatest elements. *)
Fixpoint max_by_aux {A} (gt : A → A → bool) (best : A) (l : list A) : A :=
  match l with
  | [] => best
  | x :: l' => max_by_aux gt (if gt best x then best else x) l'
  end.
Definition max_by {A} (gt : A → A → bool) (l : list A) : option A :=
  match l with [] => None | x :: l' => Some (max_by_aux gt x l') end.

(** [Duration::as_secs_f32] *)
Definition as_secs_f32 (ns : Z) : spec_float :=
  F32.add (F32.of_Z (ns / 1000000000))
          (F32.div (F32.of_Z (ns mod 1000000000)) (F32.of_Z 1000000000)).

Definition RECENCY_HORIZON : Z := 600 * 1000000000.
Definition TTL_SHORT_HORIZON : Z := 30 * 1000000000.
Definition TTL_PENALTY : spec_float := F32.lit 2 (-1).

(** [eps_score] *)
Definition eps_score (alpha : spec_float) (c : Candidate) (now : Z) : spec_float :=
  let recency :=
    match c_last_access c with
    | Some ts =>
        let age := as_secs_f32 (sat_sub now ts) in
        F32.min (F32.div age (as_secs_f32 RECENCY_HORIZON)) F32.one
    | None => F32.one
    end in
  let infrequency :=
    F32.sub F32.one (F32.div (F32.of_Z (c_lfu_counter c)) (F32.of_Z 255)) in
  let ttl_penalty :=
    match c_expire_at c with
    | Some deadline =>
        if now <? deadline then
          if sat_sub deadline now <=? TTL_SHORT_HORIZON then TTL_PENALTY else F32.zero
        else TTL_PENALTY
    | None => F32.zero
    end in
  F32.add (F32.add (F32.mul alpha recency)
                   (F32.mul (F32.sub F32.one alpha) infrequency)) ttl_penalty.

Definition AHE_DEFAULT_ALPHA : spec_float := F32.lit 5 (-1).

(** [a.partial_cmp(b).unwrap_or(Equal)] is [Greater]. *)
Definition f32_gt (a b : spec_float) : bool :=
  match SFcompare a b with Some Gt => true | _ => false end.

(** [pick_victim_ahe]; [now] is the instant it samples. *)
Definition pick_victim_ahe (alpha : spec_float) (now : Z) (cs : list Candidate)
    : option Candidate :=
  match cs with
  | [] => None
  | _ =>
      let alpha := F32.clamp F32.zero F32.one alpha in
      snd <$> max_by (λ a b, f32_gt a.1 b.1)
                     (map (λ c, (eps_score alpha c now, c)) cs)
  end.

(** The key of the LRU policies: an entry that was never touched counts as
    accessed now. *)
Definition lru_key (now : Z) (c : Candidate) : Z := default now (c_last_access c).

Definition lru_lt (now : Z) (a b : Candidate) : bool := lru_key now a <? lru_key now b.

(** The LFU policies order by counter, then by access time. *)
Definition lfu_lt (now : Z) (a b : Candidate) : bool :=
  (c_lfu_counter a <? c_lfu_counter b)
  || ((c_lfu_counter a =? c_lfu_counter b) && (lru_key now a <? lru_key now b)).

Definition has_deadline (c : Candidate) : bool :=
  match c_expire_at c with Some _ => true | None => false end.

Definition ttl_lt (a b : Candidate) : bool :=
  match c_expire_at a, c_expire_at b with
  | Some x, Some y => x <? y
  | _, _ => false
  end.

(** [pick_victim]; [now] is the instant it samples. *)
Definition pick_victim (p : EvictionPolicy) (now : Z) (cs : list Candidate)
    : option Candidate :=
  match cs with
  | [] => None
  | _ =>
      match p with
      | NoEviction => None
      | AllKeysRandom | VolatileRandom => head cs
      | AllKeysLru | VolatileLru => min_by (lru_lt now) cs
      | AllKeysLfu | VolatileLfu => min_by (lfu_lt now) cs
      | VolatileTtl => min_by ttl_lt (List.filter has_deadline cs)
      | AllKeysAhe | VolatileAhe => pick_victim_ahe AHE_DEFAULT_ALPHA now cs
      | AllKeysSieve | VolatileSieve | AllKeysSieveS | VolatileSieveS
      | AllKeysAdaptiveClimb | VolatileAdaptiveClimb => None
      end
  end.

(** ** The Morris counter *)

Definition LFU_INIT_VAL : Z := 5.

(** [current_minute_stamp], of a wall clock in nanoseconds since the Unix
    epoch; a clock before the epoch counts as zero. *)
Definition current_minute_stamp (unix_ns : Z) : Z :=
  if unix_ns <? 0 then 0 else Z.land (unix_ns / 1000000000 / 60) 65535.

(** [decayed_counter] *)
Definition decayed_counter (counter last_stamp now_stamp period : Z) : Z :=
  if period =? 0 then counter
  else
    let elapsed := wrap16 (now_stamp - last_stamp) in
    let ticks := elapsed / period in
    sat_sub counter (Z.min ticks u8_max).

(** [probabilistic_increment] *)
Definition probabilistic_increment (counter : Z) (rand01 : spec_float) : Z :=
  if counter =? u8_max then counter
  else
    let baseline := F32.of_Z (sat_sub counter LFU_INIT_VAL) in
    let p := F32.div F32.one (F32.add (F32.mul baseline (F32.of_Z 10)) F32.one) in
    if F32.ltb rand01 p then counter + 1 else counter.

(** ** The adaptive hybrid controller *)

Record AdaptiveHybridState := {
  alpha : spec_float;
  step : spec_float;
  direction : spec_float;
  last_hit_ratio : spec_float;
  window_size : Z;
  window_count : Z;
  last_hits : Z;
  last_misses : Z;
  primed : bool;
}.

Definition ahe_default : AdaptiveHybridState := {|
  alpha := AHE_DEFAULT_ALPHA;
  step := F32.lit 5 (-2);
  direction := F32.one;
  last_hit_ratio := F32.zero;
  window_size := 64;
  window_count := 0;
  last_hits := 0;
  last_misses := 0;
  primed := false;
|}.

Definition ALPHA_MIN : spec_float := F32.lit 5 (-2).
Definition ALPHA_MAX : spec_float := F32.lit 95 (-2).

(** The adjustment of [alpha] at the end of a window. *)
Definition adjust_alpha (dir st a : spec_float) : spec_float :=
  F32.clamp ALPHA_MIN ALPHA_MAX (F32.add a (F32.mul dir st)).

(** [AdaptiveHybridState::observe]: the first sample sets the baseline. *)
Definition ahe_prime (hits misses : Z) (s : AdaptiveHybridState) : AdaptiveHybridState :=
  let total := wrap64 (hits + misses) in
  {| alpha := alpha s; step := step s; direction := direction s;
     last_hit_ratio := if 0 <? total then F32.div (F32.of_Z hits) (F32.of_Z total)
                       else last_hit_ratio s;
     window_size := window_size s; window_count := window_count s;
     last_hits := hits; last_misses := misses; primed := true |}.

(** [AdaptiveHybridState::observe]: the end of a window. *)
Definition ahe_close_window (hits misses : Z) (s : AdaptiveHybridState) : AdaptiveHybridState :=
  let delta_hits := sat_sub hits (last_hits s) in
  let delta_misses := sat_sub misses (last_misses s) in
  let total := wrap64 (delta_hits + delta_misses) in
  let ratio := if total =? 0 then last_hit_ratio s
               else F32.div (F32.of_Z delta_hits) (F32.of_Z total) in
  let dir := if F32.ltb (F32.add ratio (F32.lit 1 (-4))) (last_hit_ratio s)
             then F32.neg (direction s) else direction s in
  {| alpha := adjust_alpha dir (step s) (alpha s); step := step s; direction := dir;
     last_hit_ratio := ratio;
     window_size := window_size s; window_count := 0;
     last_hits := hits; last_misses := misses; primed := primed s |}.

Definition ahe_count (n : Z) (s : AdaptiveHybridState) : AdaptiveHybridState :=
  {| alpha := alpha s; step := step s; direction := direction s;
     last_hit_ratio := last_hit_ratio s;
     window_size := window_size s; window_count := n;
     last_hits := last_hits s; last_misses := last_misses s; primed := primed s |}.

(** [AdaptiveHybridState::observe] *)
Definition observe (hits misses : Z) (s : AdaptiveHybridState) : bool * AdaptiveHybridState :=
  if negb (primed s) then (false, ahe_prime hits misses s)
  else
    let s := ahe_count (wrap64 (window_count s + 1)) s in
    if window_count s <? window_size s then (false, s)
    else (true, ahe_close_window hits misses s).

(** The controller after a sequence of cumulative samples. *)
Definition observe_all (samples : list (Z * Z)) (s : AdaptiveHybridState) : AdaptiveHybridState :=
  fold_left (λ s p, (observe p.1 p.2 s).2) samples s.

(** ** Lemmas on the choice of a victim *)

Section min_by.
Context {A : Type} (lt : A → A → bool).
Hypothesis lt_asym : ∀ a b, lt a b = true → lt b a = false.
Hypothesis ge_trans : ∀ a b c, lt a b = false → lt b c = false → lt a c = false.

Lemma lt_irrefl a : lt a a = false.
Proof using lt_asym. destruct (lt a a) eqn:E; [|done]. by rewrite (lt_asym _ _ E) in E. Qed.

Lemma min_by_aux_spec best l :
  min_by_aux lt best l ∈ best :: l ∧
  ∀ y, y ∈ best :: l → lt y (min_by_aux lt best l) = false.
Proof using All.
  revert best. induction l as [|x l IH]; intros best; simpl.
  - split; [by left|]. intros y Hy. apply list_elem_of_singleton in Hy as ->.
    apply lt_irrefl.
  - destruct (IH (if lt x best then x else best)) as [Hin Hmin].
    split; [destruct (lt x best); rewrite !elem_of_cons in *; tauto|].
    intros y Hy. rewrite !elem_of_cons in Hy.
    destruct Hy as [->|[->|Hy]]; [| |by apply Hmin; right];
      (eapply ge_trans; [|apply Hmin; by left]);
      destruct (lt x best) eqn:E; auto using lt_irrefl.
Qed.

Lemma min_by_spec l r :
  min_by lt l = Some r → r ∈ l ∧ ∀ y, y ∈ l → lt y r = false.
Proof using All.
  destruct l as [|x l]; simpl; [done|]. intros [= <-]. apply min_by_aux_spec.
Qed.

End min_by.

Lemma max_by_elem {A} (gt : A → A → bool) l r : max_by gt l = Some r → r ∈ l.
Proof.
  destruct l as [|x l]; simpl; [done|]. intros [= <-].
  revert x. induction l as [|y l IH]; intros x; simpl; [by left|].
  specialize (IH (if gt x y then x else y)). destruct (gt x y); rewrite !elem_of_cons in *; tauto.
Qed.

Lemma pick_victim_ahe_elem a now cs c :
  pick_victim_ahe a now cs = Some c → c ∈ cs.
Proof.
  destruct cs as [|c0 cs]; [done|]. unfold pick_victim_ahe. intros H.
  apply fmap_Some in H as ([s c'] & H & ->).
  apply max_by_elem, list_elem_of_In, in_map_iff in H as (c'' & [= _ <-] & H).
  by apply list_elem_of_In.
Qed.

Lemma lru_lt_spec now :
  (∀ a b, lru_lt now a b = true → lru_lt now b a = false) ∧
  (∀ a b c, lru_lt now a b = false → lru_lt now b c = false → lru_lt now a c = false).
Proof. unfold lru_lt. split; intros; bool_to_prop; [apply Z.ltb_ge|apply Z.ltb_ge]; lia. Qed.

Lemma lfu_lt_spec now :
  (∀ a b, lfu_lt now a b = true → lfu_lt now b a = false) ∧
  (∀ a b c, lfu_lt now a b = false → lfu_lt now b c = false → lfu_lt now a c = false).
Proof. unfold lfu_lt. split; intros; lia. Qed.

Lemma ttl_min cs c :
  min_by ttl_lt (List.filter has_deadline cs) = Some c →
  c ∈ cs ∧ ∃ d, c_expire_at c = Some d ∧
    ∀ c' d', c' ∈ cs → c_expire_at c' = Some d' → d ≤ d'.
Proof.
  set (k := λ c, default 0 (c_expire_at c)).
  assert (Heq : ∀ l best, has_deadline best = true → forallb has_deadline l = true →
    min_by_aux ttl_lt best l = min_by_aux (λ a b, k a <? k b) best l).
  { induction l as [|x l IH]; intros best Hb Hl; [done|].
    simpl in *. apply andb_prop in Hl as [Hx Hl].
    assert (ttl_lt x best = (k x <? k best)) as ->.
    { unfold ttl_lt, has_deadline, k in *. by destruct (c_expire_at x), (c_expire_at best). }
    apply IH; [|done]. by destruct (k x <? k best). }
  assert (Hall : forallb has_deadline (List.filter has_deadline cs) = true).
  { apply forallb_forall. intros x Hx. by apply filter_In in Hx as [_ Hx]. }
  assert (Hin : ∀ x, x ∈ List.filter has_deadline cs ↔ x ∈ cs ∧ has_deadline x = true).
  { intros x. rewrite !list_elem_of_In. apply filter_In. }
  revert Hall Hin. generalize (List.filter has_deadline cs) as l. intros l Hall Hin Hmin.
  assert (Hk : min_by (λ a b, k a <? k b) l = Some c).
  { destruct l as [|x l]; [done|]. simpl in *. apply andb_prop in Hall as [Hx Hall].
    by rewrite <- Heq. }
  apply min_by_spec in Hk as [Hc Hle]; [|intros; lia|intros; lia].
  apply Hin in Hc as [Hc Hd]. split; [done|].
  unfold has_deadline in Hd. destruct (c_expire_at c) as [d|] eqn:Ed; [|done].
  exists d. split; [done|]. intros c' d' Hc' Hd'.
  assert (Hl : c' ∈ l) by (apply Hin; split; [done|]; unfold has_deadline; by rewrite Hd').
  specialize (Hle c' Hl). unfold k in Hle. rewrite Ed, Hd' in Hle. simpl in Hle. lia.
Qed.

(** the policy names are a bijection with the policies: a name read from
    a configuration file or [CONFIG SET] denotes a policy exactly when it is
    the name that policy is printed with. *)
Theorem policy_name_bijection (s : bytes) (p : EvictionPolicy) :
  from_name s = Some p ↔ s = policy_name p.
Proof.
  unfold from_name. split.
  - intros H. apply fmap_Some in H as ([n q] & Hf & ->). simpl.
    apply find_some in Hf as [Hin Heq]. apply bytes_eqb_eq in Heq. simpl in Heq.
    subst s. unfold policy_names in Hin.
    repeat (destruct Hin as [[= <- <-]|Hin]; [done|]). destruct Hin.
  - intros ->. by destruct p; vm_compute.
Qed.

(** What each sampling policy promises of its choice [c] among [cs]. *)
Definition victim_spec (p : EvictionPolicy) (now : Z) (cs : list Candidate) (c : Candidate) : Prop :=
  match p with
  | AllKeysRandom | VolatileRandom | AllKeysAhe | VolatileAhe => c ∈ cs
  | AllKeysLru | VolatileLru => c ∈ cs ∧ ∀ c', c' ∈ cs → lru_key now c ≤ lru_key now c'
  | AllKeysLfu | VolatileLfu =>
      c ∈ cs ∧ ∀ c', c' ∈ cs →
        c_lfu_counter c < c_lfu_counter c' ∨
        (c_lfu_counter c = c_lfu_counter c' ∧ lru_key now c ≤ lru_key now c')
  | VolatileTtl =>
      c ∈ cs ∧ ∃ d, c_expire_at c = Some d ∧
        ∀ c' d', c' ∈ cs → c_expire_at c' = Some d' → d ≤ d'
  | _ => False
  end.

(** The victim a sampling policy picks is one of the candidates, and the
    best one under the policy's order: the oldest access for LRU, the lowest
    counter (oldest access on a tie) for LFU, the nearest deadline for TTL; no
    victim comes out of [noeviction] or of the index-based policies. *)
Theorem pick_victim_optimal p now cs c :
  pick_victim p now cs = Some c → victim_spec p now cs c.
Proof.
  destruct cs as [|c0 cs]; [done|]. destruct p; unfold pick_victim, victim_spec; try done.
  1,2: intros [Hc Hm]%min_by_spec; [|apply lru_lt_spec..];
       split; [done|]; intros c' Hc'; specialize (Hm c' Hc'); unfold lru_lt in Hm; lia.
  1,2: intros [Hc Hm]%min_by_spec; [|apply lfu_lt_spec..];
       split; [done|]; intros c' Hc'; specialize (Hm c' Hc'); unfold lfu_lt in Hm; lia.
  1,2: simpl; intros [= <-]; by left.
  1: apply ttl_min.
  all: apply pick_victim_ahe_elem.
Qed.

Lemma pick_victim_optimal_witness :
  let c1 := {| c_key := str "a"; c_last_access := Some 5; c_expire_at := None; c_lfu_counter := 5 |} in
  let c2 := {| c_key := str "b"; c_last_access := Some 3; c_expire_at := None; c_lfu_counter := 9 |} in
  pick_victim AllKeysLru 10 [c1; c2] = Some c2 ∧ victim_spec AllKeysLru 10 [c1; c2] c2.
Proof. intros c1 c2. split; [done|]. apply (pick_victim_optimal AllKeysLru 10 [c1; c2] c2). done. Defined.

Lemma pick_victim_elem p now cs c : pick_victim p now cs = Some c → c ∈ cs.
Proof.
  destruct cs as [|c0 cs]; [done|]. destruct p; unfold pick_victim; try done.
  1,2: by intros [Hc _]%min_by_spec; [|apply lru_lt_spec..].
  1,2: by intros [Hc _]%min_by_spec; [|apply lfu_lt_spec..].
  1,2: simpl; intros [= <-]; by left.
  1: by intros [Hc _]%ttl_min.
  all: apply pick_victim_ahe_elem.
Qed.

(** [pick_victim] over an empty sample finds nothing; over a non-empty sample
    the sampling policies other than TTL always find a victim. *)
Lemma pick_victim_some p now cs :
  cs ≠ [] → p ∈ [AllKeysLru; VolatileLru; AllKeysLfu; VolatileLfu; AllKeysRandom; VolatileRandom] →
  is_Some (pick_victim p now cs).
Proof.
  destruct cs as [|c cs]; [done|]. intros _ Hp.
  repeat (apply elem_of_cons in Hp as [->|Hp]; [by eexists|]).
  by apply not_elem_of_nil in Hp.
Qed.

(** ** Lemmas on the Morris counter *)

Lemma decayed_counter_range counter l n period :
  0 ≤ counter → 0 ≤ period → 0 ≤ decayed_counter counter l n period ≤ counter.
Proof.
  unfold decayed_counter, wrap16. destruct (period =? 0) eqn:E; [lia|].
  intros. pose proof (Z.mod_pos_bound (n - l) 65536).
  assert (0 ≤ (n - l) mod 65536 / period) by (apply Z.div_pos; lia). mlia.
Qed.

Lemma probabilistic_increment_range counter r :
  0 ≤ counter ≤ u8_max →
  counter ≤ probabilistic_increment counter r ≤ Z.min u8_max (counter + 1).
Proof.
  unfold probabilistic_increment. intros H. destruct (counter =? u8_max) eqn:E; [mlia|].
  case_goal; mlia.
Qed.

(** ** The adaptive controller stays in its band *)

#[export] Instance spec_float_eq_dec : EqDecision spec_float.
Proof. solve_decision. Defined.

(** The weights reachable from the default by the adjustments, as a fixed
    point of one adjustment in either direction. *)
Fixpoint reach_alphas (fuel : nat) (todo seen : list spec_float) : list spec_float :=
  match fuel, todo with
  | O, _ | _, [] => seen
  | S fuel, a :: todo =>
      if bool_decide (a ∈ seen) then reach_alphas fuel todo seen
      else reach_alphas fuel
             (adjust_alpha F32.one ALPHA_MIN a :: adjust_alpha (F32.neg F32.one) ALPHA_MIN a :: todo)
             (a :: seen)
  end.

Definition alphas : list spec_float :=
  Eval vm_compute in reach_alphas 400 [AHE_DEFAULT_ALPHA] [].

Definition alpha_ok (a : spec_float) : bool :=
  F32.leb ALPHA_MIN a && F32.leb a ALPHA_MAX
  && bool_decide (adjust_alpha F32.one ALPHA_MIN a ∈ alphas)
  && bool_decide (adjust_alpha (F32.neg F32.one) ALPHA_MIN a ∈ alphas).

Lemma alphas_closed : forallb alpha_ok alphas = true.
Proof. vm_compute. reflexivity. Qed.

Lemma alphas_ok a : a ∈ alphas →
  F32.leb ALPHA_MIN a = true ∧ F32.leb a ALPHA_MAX = true ∧
  adjust_alpha F32.one ALPHA_MIN a ∈ alphas ∧
  adjust_alpha (F32.neg F32.one) ALPHA_MIN a ∈ alphas.
Proof.
  intros Ha. pose proof alphas_closed as H. rewrite forallb_forall in H.
  apply list_elem_of_In, H in Ha. unfold alpha_ok in Ha.
  repeat (apply andb_prop in Ha as [Ha ?]).
  bool_to_prop. done.
Qed.

Record ahe_inv (s : AdaptiveHybridState) : Prop := {
  ahe_inv_alpha : alpha s ∈ alphas;
  ahe_inv_step : step s = ALPHA_MIN;
  ahe_inv_dir : direction s = F32.one ∨ direction s = F32.neg F32.one;
  ahe_inv_window : 0 ≤ window_count s < window_size s ∧ window_size s = 64;
}.

Lemma ahe_inv_default : ahe_inv ahe_default.
Proof.
  split; [|reflexivity|by left|simpl; lia].
  by apply (bool_decide_eq_true_1 (AHE_DEFAULT_ALPHA ∈ alphas)); vm_compute.
Qed.

Lemma F32_neg_one : F32.neg (F32.neg F32.one) = F32.one.
Proof. reflexivity. Qed.

Lemma ahe_inv_observe hits misses s : ahe_inv s → ahe_inv (observe hits misses s).2.
Proof.
  intros [Ha Hs Hd [Hw Hz]]. unfold observe.
  destruct (primed s); simpl; [|by split].
  assert (wrap64 (window_count s + 1) = window_count s + 1) as ->
    by (unfold wrap64; apply Z.mod_small; lia).
  destruct (window_count s + 1 <? window_size s) eqn:E; simpl.
  - split; simpl; try done. lia.
  - destruct (alphas_ok _ Ha) as (_ & _ & H1 & H2).
    split; simpl; [| done | | lia]; rewrite ?Hs;
      case_match; destruct Hd as [->| ->]; rewrite ?F32_neg_one; auto.
Qed.

(** The hit ratio it keeps is a number. *)
Definition ahe_ratio (s : AdaptiveHybridState) : Prop := 0 ≤ last_hits s ∧ F64.is_finite (last_hit_ratio s) = true.

Lemma ahe_ratio_observe hits misses s : 0 ≤ hits < 2 ^ 64 → ahe_ratio s → ahe_ratio (observe hits misses s).2.
Proof.
  intros Hh [Hl Hr]. assert (Hw : ∀ z, 0 ≤ wrap64 z < 2 ^ 64) by (intros z; apply (Z.mod_pos_bound z); lia).
  unfold observe. destruct (primed s); simpl.
  - destruct (_ <? _); [by split|]. split; [simpl; lia|]. simpl.
    set (total := wrap64 _). specialize (Hw (sat_sub hits (last_hits s) + sat_sub misses (last_misses s))). fold total in Hw.
    destruct (Z.eqb_spec total 0); [done|]. apply f32_ratio_finite; [unfold sat_sub; lia|lia].
  - split; [simpl; lia|]. simpl. specialize (Hw (hits + misses)).
    destruct (Z.ltb_spec 0 (wrap64 (hits + misses))); [|done]. apply f32_ratio_finite; lia.
Qed.

Lemma alphas_finite : Forall (λ a, F64.is_finite a = true) alphas.
Proof. repeat constructor. Qed.

(** after any sequence of hit/miss samples the blend weight of the
    adaptive hybrid policy stays within [0.05, 0.95]: the feedback loop never
    degenerates to pure recency or pure frequency, nor to a NaN. *)
Theorem ahe_alpha_bounded (samples : list (Z * Z)) :
  let a := alpha (observe_all samples ahe_default) in
  F32.leb ALPHA_MIN a = true ∧ F32.leb a ALPHA_MAX = true.
Proof.
  assert (H : ∀ s, ahe_inv s → ahe_inv (observe_all samples s)).
  { unfold observe_all. induction samples as [|x l IH]; intros s Hs; [done|].
    apply IH, ahe_inv_observe, Hs. }
  destruct (alphas_ok _ (ahe_inv_alpha _ (H _ ahe_inv_default))) as (H1 & H2 & _).
  by split.
Qed.
