(* ===== verification/Entry.v ===== *)
(** * Stored values and the engine's helpers
    (src/src/storage/engine/entry.rs, util.rs and types.rs)

    A stored value with its deadline and its access metadata, the per-entry
    memory cost, candidate sampling, validation, the constant-time comparison
    and the xorshift generator. Instants are nanoseconds since the process
    origin, the wall clock is nanoseconds since the Unix epoch. *)
From S2P Require Import Prelude Numeric Error Floats IndexMap Eviction.
From Stdlib Require Import ZArith Lia SpecFloat Strings.Byte.
From stdpp Require Import gmap list strings numbers.
Local Open Scope Z_scope.

(** One reading of the two clocks. *)
Record Clock := { inst : Z; unix_ns : Z }.

(** [now_ns]: nanoseconds since the origin, saturated to 64 bits. *)
Definition now_ns (c : Clock) : Z := Z.min (Z.max 0 (inst c)) u64_max.

Definition LFU_DECAY_MINUTES : Z := 1.

(** [pack_lfu] and [unpack_lfu]: the counter in the low byte, the minute in the
    high half-word. *)
Definition pack_lfu (counter minute : Z) : Z := Z.lor (Z.shiftl minute 16) counter.
Definition unpack_lfu (word : Z) : Z * Z :=
  (Z.land word 255, Z.land (Z.shiftr word 16) 65535).

Record ValueEntry := {
  data : bytes;
  expire_at : option Z;
  last_access_ns : Z;
  lfu : Z;
}.

(** [ValueEntry::new_with] and [ValueEntry::new] *)
Definition new_with (c : Clock) (d : bytes) (exp : option Z) : ValueEntry := {|
  data := d;
  expire_at := exp;
  last_access_ns := now_ns c;
  lfu := pack_lfu LFU_INIT_VAL (current_minute_stamp (unix_ns c));
|}.
Definition new (c : Clock) (d : bytes) : ValueEntry := new_with c d None.

(** [entry.expire_at = exp] *)
Definition set_expire_at (exp : option Z) (e : ValueEntry) : ValueEntry :=
  {| data := data e; expire_at := exp; last_access_ns := last_access_ns e; lfu := lfu e |}.

(** [ValueEntry::is_expired] *)
Definition is_expired (now : Z) (e : ValueEntry) : bool :=
  match expire_at e with Some deadline => deadline <=? now | None => false end.

Definition lfu_counter (e : ValueEntry) : Z := (unpack_lfu (lfu e)).1.

(** The word [touch] installs over the word it observed. Its compare-and-swap
    loop retries with the value another reader installed, so each successful
    exchange is one such step. *)
Definition touch_word (now_minute : Z) (rand01 : spec_float) (word : Z) : Z :=
  let '(counter, minute) := unpack_lfu word in
  let decayed := decayed_counter counter minute now_minute LFU_DECAY_MINUTES in
  pack_lfu (probabilistic_increment decayed rand01) now_minute.

(** [ValueEntry::touch] *)
Definition touch (c : Clock) (rand01 : spec_float) (e : ValueEntry) : ValueEntry := {|
  data := data e;
  expire_at := expire_at e;
  last_access_ns := now_ns c;
  lfu := touch_word (current_minute_stamp (unix_ns c)) rand01 (lfu e);
|}.

(** [live_payload], with the instant it samples. *)
Definition live_payload (now : Z) (e : ValueEntry) : option bytes :=
  if is_expired now e then None else Some (data e).

(** ** util.rs *)

Abbreviation store := (gmap bytes ValueEntry).

Definition KEY_MAX_BYTES : Z := 64 * 1024.
Definition VALUE_MAX_BYTES : Z := 16 * 1024 * 1024.
Definition PER_ENTRY_OVERHEAD : Z := 144.
Definition PER_INDEX_ENTRY_BYTES : Z := 48.

(** [entry_bytes] *)
Definition entry_bytes (key : bytes) (e : ValueEntry) : Z :=
  blen key + blen (data e) + PER_ENTRY_OVERHEAD.

Definition has_ttl (e : ValueEntry) : bool :=
  match expire_at e with Some _ => true | None => false end.

(** Whether an entry is a candidate of the scope. *)
Definition in_scope (scope : EvictionScope) (e : ValueEntry) : bool :=
  match scope with AllKeys => true | Volatile => has_ttl e end.

Definition candidate_of (key : bytes) (e : ValueEntry) : Candidate := {|
  c_key := key;
  c_last_access := Some (last_access_ns e);
  c_expire_at := expire_at e;
  c_lfu_counter := lfu_counter e;
|}.

(** The loop of [sample_candidates]; [room] candidates may still be taken. *)
Fixpoint sample_loop (scope : EvictionScope) (room : Z) (l : list (bytes * ValueEntry))
    : list Candidate :=
  match l with
  | [] => []
  | (key, e) :: l' =>
      if room <=? 0 then []
      else if bool_decide (scope = Volatile) && negb (has_ttl e)
      then sample_loop scope room l'
      else candidate_of key e :: sample_loop scope (room - 1) l'
  end.

(** [sample_candidates] *)
Definition sample_candidates `{HashIter} (s : store) (scope : EvictionScope) (sample : Z)
    : list Candidate :=
  sample_loop scope sample (hm_iter s).

(** [current_epoch_ms] *)
Definition current_epoch_ms (c : Clock) : Z :=
  if unix_ns c <? 0 then 0 else as_i64 (unix_ns c / 1000000).

(** [deadline_to_epoch_ms], with the wall clock it samples. *)
Definition deadline_to_epoch_ms (c : Clock) (deadline now : Z) : option Z :=
  if deadline <=? now then None
  else Some (sat_add_i64 (current_epoch_ms c) (as_i64 ((deadline - now) / 1000000))).

Definition validate_key (key : bytes) : res () :=
  if blen key =? 0 then Err (ParseError (str "key must not be empty"))
  else if KEY_MAX_BYTES <? blen key then Err (KeyTooLong (blen key) KEY_MAX_BYTES)
  else Ok tt.

Definition validate_value (value : bytes) : res () :=
  if VALUE_MAX_BYTES <? blen value then Err (ValueTooLarge (blen value) VALUE_MAX_BYTES)
  else Ok tt.

(** [constant_time_eq] *)
Definition constant_time_eq (a b : bytes) : bool :=
  if negb (blen a =? blen b) then false
  else
    let diff := fold_left (λ d p, Z.lor d (Z.lxor (b2z p.1) (b2z p.2))) (zip a b) 0 in
    diff =? 0.

(** [rng_seed] *)
Definition rng_seed (c : Clock) : Z :=
  let secs := if unix_ns c <? 0 then 0x9E3779B97F4A7C15 else wrap64 (unix_ns c) in
  Z.lor (Z.lxor (wrap32 secs) 0xDEADBEEF) 1.

(** [xorshift32] *)
Definition xorshift32 (state : Z) : Z :=
  let x := Z.lxor state (wrap32 (Z.shiftl state 13)) in
  let x := Z.lxor x (Z.shiftr x 17) in
  Z.lxor x (wrap32 (Z.shiftl x 5)).

(** ** types.rs *)

Record SweepStats := { examined : Z; evicted : Z }.

(** [SweepStats::should_continue] *)
Definition should_continue (s : SweepStats) : bool :=
  (0 <? examined s) && (examined s <? evicted s * 4).

Inductive TtlStatus := Missing | NoExpire | Millis (ms : Z).

(** ** Lemmas *)

Lemma land_255 z : Z.land z 255 = z mod 256.
Proof. apply (Z.land_ones z 8). lia. Qed.

Lemma land_65535 z : Z.land z 65535 = z mod 65536.
Proof. apply (Z.land_ones z 16). lia. Qed.

Lemma testbit_high z n i : 0 ≤ n → 0 ≤ z < 2 ^ n → n ≤ i → Z.testbit z i = false.
Proof.
  intros Hn Hz Hi. destruct (decide (z = 0)) as [->|Hz0]; [apply Z.bits_0|].
  apply Z.bits_above_log2; [lia|]. apply Z.lt_le_trans with n; [|done].
  apply Z.log2_lt_pow2; lia.
Qed.

(** Disjoint bits: [or] with a value below the shift is addition. *)
Lemma lor_shiftl_add a b n :
  0 ≤ n → 0 ≤ b < 2 ^ n → Z.lor (Z.shiftl a n) b = a * 2 ^ n + b.
Proof.
  intros Hn Hb. rewrite <- Z.shiftl_mul_pow2 by done.
  assert (Hl : Z.land (Z.shiftl a n) b = 0).
  { apply Z.bits_inj'. intros i Hi. rewrite Z.land_spec, Z.bits_0, Z.shiftl_spec by done.
    destruct (Z.lt_ge_cases i n).
    - by rewrite Z.testbit_neg_r by lia.
    - rewrite (testbit_high b n) by done. apply andb_false_r. }
  by rewrite Z.add_nocarry_lxor, Z.lxor_lor.
Qed.

Lemma current_minute_stamp_range u : 0 ≤ current_minute_stamp u < 65536.
Proof.
  unfold current_minute_stamp. destruct (u <? 0); [lia|].
  rewrite land_65535. apply Z.mod_pos_bound. lia.
Qed.

(** The packed word gives back both of its fields. *)
Lemma unpack_pack counter minute :
  0 ≤ counter < 256 → 0 ≤ minute < 65536 →
  unpack_lfu (pack_lfu counter minute) = (counter, minute).
Proof.
  intros Hc Hm. unfold unpack_lfu, pack_lfu.
  rewrite lor_shiftl_add by (simpl; lia).
  rewrite land_255, land_65535, Z.shiftr_div_pow2 by lia.
  change (2 ^ 16) with 65536.
  rewrite Z.div_add_l, (Z.div_small counter), Z.add_0_r by lia.
  rewrite (Z.mod_small minute) by lia.
  replace (minute * 65536) with ((minute * 256) * 256) by lia.
  by rewrite Z.add_comm, Z.mod_add, Z.mod_small by lia.
Qed.

Lemma lfu_counter_range e : 0 ≤ lfu_counter e ≤ u8_max.
Proof.
  unfold lfu_counter, unpack_lfu. simpl. rewrite land_255.
  pose proof (Z.mod_pos_bound (lfu e) 256). unfold u8_max. lia.
Qed.

(** an access moves the Morris counter to its decayed value or one more,
    never past 255, and stamps the entry with the current minute; the payload
    and the deadline are untouched. In particular the two packed fields never
    leak into each other. *)
Theorem touch_counter c r e :
  let d := decayed_counter (lfu_counter e) (unpack_lfu (lfu e)).2
             (current_minute_stamp (unix_ns c)) LFU_DECAY_MINUTES in
  d ≤ lfu_counter (touch c r e) ≤ Z.min u8_max (d + 1) ∧
  d ≤ lfu_counter e ∧
  (unpack_lfu (lfu (touch c r e))).2 = current_minute_stamp (unix_ns c) ∧
  data (touch c r e) = data e ∧ expire_at (touch c r e) = expire_at e.
Proof.
  intros d. pose proof (lfu_counter_range e) as Hr.
  assert (Hd : 0 ≤ d ≤ lfu_counter e)
    by (apply decayed_counter_range; [lia|done]).
  pose proof (probabilistic_increment_range d r) as Hp.
  assert (Hw : lfu (touch c r e)
    = pack_lfu (probabilistic_increment d r) (current_minute_stamp (unix_ns c))) by done.
  unfold lfu_counter at 1 2. rewrite Hw, unpack_pack;
    [|unfold u8_max in *; lia|apply current_minute_stamp_range].
  simpl. repeat split; try done; unfold u8_max in *; lia.
Qed.

Lemma fold_lor_zero (l : list (byte * byte)) d :
  fold_left (λ d p, Z.lor d (Z.lxor (b2z p.1) (b2z p.2))) l d = 0 ↔
  d = 0 ∧ Forall (λ p, p.1 = p.2) l.
Proof.
  revert d. induction l as [|[x y] l IH]; intros d; simpl.
  - split; [by intros ->|by intros [-> _]].
  - rewrite IH, Z.lor_eq_0_iff, Z.lxor_eq_0_iff, Forall_cons_iff. simpl.
    split.
    + intros [[-> H] Hl]. by apply b2z_inj in H.
    + intros [-> [-> Hl]]. done.
Qed.

Lemma zip_all_eq (a b : bytes) :
  length a = length b → Forall (λ p, p.1 = p.2) (zip a b) ↔ a = b.
Proof.
  revert b. induction a as [|x a IH]; intros [|y b] H; simpl in *; try done.
  rewrite Forall_cons_iff, IH by lia. simpl. split; [by intros [-> ->]|by intros [= -> ->]].
Qed.

(** The comparison used for passwords, which looks at every byte, decides
    equality of the two byte strings. *)
Lemma constant_time_eq_spec (a b : bytes) :
  constant_time_eq a b = bytes_eqb a b.
Proof.
  unfold constant_time_eq, bytes_eqb, blen.
  destruct (Z.of_nat (length a) =? Z.of_nat (length b)) eqn:E; simpl.
  - apply Z.eqb_eq, Nat2Z.inj in E. apply eq_bool_prop_intro.
    rewrite !Is_true_true, Z.eqb_eq, bool_decide_eq_true, fold_lor_zero, zip_all_eq by done.
    tauto.
  - symmetry. apply bool_decide_eq_false. intros ->. by rewrite Z.eqb_refl in E.
Qed.

(** ** Sampling *)

Lemma sample_loop_elem scope room l c :
  c ∈ sample_loop scope room l →
  ∃ k e, (k, e) ∈ l ∧ in_scope scope e = true ∧ c = candidate_of k e.
Proof.
  revert room. induction l as [|[k e] l IH]; intros room Hc; simpl in Hc;
    [by apply not_elem_of_nil in Hc|].
  assert (Htl : ∀ r, c ∈ sample_loop scope r l →
    ∃ k0 e0, (k0, e0) ∈ (k, e) :: l ∧ in_scope scope e0 = true ∧ c = candidate_of k0 e0).
  { intros r H. destruct (IH r H) as (k0 & e0 & H1 & H2).
    exists k0, e0. split; [by right|done]. }
  destruct (room <=? 0); [by apply not_elem_of_nil in Hc|].
  destruct scope; simpl in Hc.
  - apply elem_of_cons in Hc as [->|Hc]; [|by eapply Htl].
    exists k, e. split; [by left|done].
  - destruct (has_ttl e) eqn:E; simpl in Hc; [|by eapply Htl].
    apply elem_of_cons in Hc as [->|Hc]; [|by eapply Htl].
    exists k, e. split; [by left|done].
Qed.

Lemma sample_loop_nonempty scope room l k e :
  0 < room → (k, e) ∈ l → in_scope scope e = true → sample_loop scope room l ≠ [].
Proof.
  intros Hr. induction l as [|[k0 e0] l IH]; intros Hin Hs; [by apply not_elem_of_nil in Hin|].
  simpl. destruct (room <=? 0) eqn:E; [lia|].
  apply elem_of_cons in Hin as [[= <- <-]|Hin].
  - destruct scope; simpl in *; [done|]. by rewrite Hs.
  - destruct (bool_decide (scope = Volatile) && negb (has_ttl e0)); [by apply IH|done].
Qed.

Section sampling.
Context `{HashIter}.

(** A sampled candidate is a stored entry of the scope. *)
Lemma sample_candidates_elem s scope n c :
  c ∈ sample_candidates s scope n →
  ∃ e, s !! c_key c = Some e ∧ in_scope scope e = true ∧ c = candidate_of (c_key c) e.
Proof.
  intros Hc. apply sample_loop_elem in Hc as (k & e & Hin & Hs & ->).
  apply elem_of_hm_iter in Hin. simpl. eauto.
Qed.

(** A stored entry of the scope makes the sample non-empty. *)
Lemma sample_candidates_nonempty s scope n k e :
  0 < n → s !! k = Some e → in_scope scope e = true → sample_candidates s scope n ≠ [].
Proof.
  intros Hn He Hs. eapply sample_loop_nonempty; [done| |done]. by apply elem_of_hm_iter.
Qed.

End sampling.

(** ** The generator *)

Lemma wrap32_range z : 0 ≤ wrap32 z < 4294967296.
Proof. unfold wrap32. apply Z.mod_pos_bound. lia. Qed.

Lemma testbit_wrap32 z i : 0 ≤ i → Z.testbit (wrap32 z) i = (i <? 32) && Z.testbit z i.
Proof.
  intros Hi. unfold wrap32. change 4294967296 with (2 ^ 32).
  destruct (i <? 32) eqn:E; simpl.
  - apply Z.mod_pow2_bits_low. lia.
  - apply Z.mod_pow2_bits_high. lia.
Qed.

Lemma lxor_range a b :
  0 ≤ a < 4294967296 → 0 ≤ b < 4294967296 → 0 ≤ Z.lxor a b < 4294967296.
Proof.
  intros Ha Hb. assert (H0 : 0 ≤ Z.lxor a b) by (apply Z.lxor_nonneg; lia).
  split; [done|]. destruct (decide (Z.lxor a b = 0)) as [->|Hne]; [lia|].
  change 4294967296 with (2 ^ 32). apply Z.log2_lt_pow2; [lia|].
  destruct (Z.lt_ge_cases (Z.log2 (Z.lxor a b)) 32) as [|Hge]; [done|].
  assert (Hb1 : Z.testbit (Z.lxor a b) (Z.log2 (Z.lxor a b)) = true)
    by (apply Z.bit_log2; lia).
  rewrite Z.lxor_spec, !(testbit_high _ 32) in Hb1 by (simpl; lia). done.
Qed.

(** A left-shift stage of the generator has no non-zero preimage of zero. *)
Lemma shl_stage_zero x n :
  0 < n → 0 ≤ x < 4294967296 → Z.lxor x (wrap32 (Z.shiftl x n)) = 0 → x = 0.
Proof.
  intros Hn Hx H. apply Z.lxor_eq in H.
  assert (Hbit : ∀ i, 0 ≤ i → 0 ≤ i → Z.testbit x i = false).
  { apply (Z_lt_induction (λ i, 0 ≤ i → Z.testbit x i = false)). intros i IH Hi.
    rewrite H, testbit_wrap32, Z.shiftl_spec by done.
    destruct (Z.lt_ge_cases (i - n) 0); [by rewrite Z.testbit_neg_r, andb_false_r|].
    rewrite IH by lia. apply andb_false_r. }
  apply Z.bits_inj'. intros i Hi. by rewrite Z.bits_0, Hbit.
Qed.

(** Nor has a right-shift stage. *)
Lemma shr_stage_zero x n :
  0 < n → 0 ≤ x < 4294967296 → Z.lxor x (Z.shiftr x n) = 0 → x = 0.
Proof.
  intros Hn Hx H. apply Z.lxor_eq in H.
  rewrite Z.shiftr_div_pow2 in H by lia.
  assert (Hp : 1 < 2 ^ n) by (apply Z.pow_gt_1; lia).
  destruct (decide (x = 0)); [done|].
  pose proof (Z.div_lt x (2 ^ n)). lia.
Qed.

Lemma xorshift32_range x :
  0 < x < 4294967296 → 0 < xorshift32 x < 4294967296.
Proof.
  intros Hx. unfold xorshift32.
  set (y := Z.lxor x (wrap32 (Z.shiftl x 13))).
  assert (Hy : 0 ≤ y < 4294967296) by (apply lxor_range; [lia|apply wrap32_range]).
  assert (Hy0 : y ≠ 0) by (intros E; apply shl_stage_zero in E; lia).
  set (z := Z.lxor y (Z.shiftr y 17)).
  assert (Hs : 0 ≤ Z.shiftr y 17 < 4294967296).
  { rewrite Z.shiftr_div_pow2 by lia. split; [apply Z.div_pos; lia|].
    apply Z.div_lt_upper_bound; lia. }
  assert (Hz : 0 ≤ z < 4294967296) by (by apply lxor_range).
  assert (Hz0 : z ≠ 0) by (intros E; apply shr_stage_zero in E; lia).
  set (w := Z.lxor z (wrap32 (Z.shiftl z 5))).
  assert (Hw : 0 ≤ w < 4294967296) by (apply lxor_range; [lia|apply wrap32_range]).
  assert (Hw0 : w ≠ 0) by (intros E; apply shl_stage_zero in E; lia).
  lia.
Qed.

Lemma rng_seed_range c : 0 < rng_seed c < 4294967296.
Proof.
  unfold rng_seed. set (x := Z.lxor _ _).
  assert (Hx : 0 ≤ x < 4294967296) by (apply lxor_range; [apply wrap32_range|lia]).
  assert (H0 : 0 ≤ Z.lor x 1) by (apply Z.lor_nonneg; lia).
  assert (Hbit : Z.testbit (Z.lor x 1) 0 = true) by (rewrite Z.lor_spec; apply orb_true_r).
  assert (Hne : Z.lor x 1 ≠ 0) by (intros E; by rewrite E in Hbit).
  split; [lia|]. change 4294967296 with (2 ^ 32). apply Z.log2_lt_pow2; [lia|].
  rewrite Z.log2_lor by lia. change (Z.log2 1) with 0.
  destruct (decide (x = 0)) as [->|]; [done|].
  assert (Z.log2 x < 32) by (apply Z.log2_lt_pow2; lia). lia.
Qed.

(** the generator never gets stuck: from a non-zero 32-bit state (and
    [rng_seed] always gives one) [xorshift32] moves to a non-zero 32-bit
    state. *)
Theorem xorshift32_nonzero x :
  0 < x < 4294967296 → 0 < xorshift32 x < 4294967296.
Proof. apply xorshift32_range. Qed.

Lemma xorshift32_nonzero_witness :
  let x := rng_seed {| inst := 0; unix_ns := 1700000000000000000 |} in
  0 < x < 4294967296 ∧ 0 < xorshift32 x < 4294967296.
Proof.
  intros x. assert (H : 0 < x < 4294967296) by (vm_compute; split; reflexivity).
  split; [exact H|]. exact (xorshift32_nonzero x H).
Defined.
