(* ===== verification/Sieve.v ===== *)
(** * The SIEVE eviction queue (src/src/storage/sieve.rs)

    The queue with its hand and visited bits, every operation on it, the
    invariant they keep, and the reference definition of the victim that the
    sweep of [evict_one] is proved equal to. *)
From S2P Require Import Prelude Floats IndexMap Eviction Entry.
From Stdlib Require Import ZArith Lia SpecFloat.
From stdpp Require Import gmap list strings numbers.

(** [SIEVE_S_TTL_THRESHOLD], 0.1 as an [f64], and [SIEVE_S_HORIZON_MS] *)
Definition SIEVE_S_TTL_THRESHOLD : spec_float := F64.lit 1 (-1).
Definition SIEVE_S_HORIZON_MS : Z := 60000.

(** [Duration::as_secs_f64] *)
Definition as_secs_f64 (ns : Z) : spec_float :=
  F64.add (F64.of_Z (ns / 1000000000))
          (F64.div (F64.of_Z (ns mod 1000000000)) (F64.of_Z 1000000000)).

(** [is_near_expiry] *)
Definition is_near_expiry (e : ValueEntry) (now : Z) (threshold : spec_float) : bool :=
  match expire_at e with
  | None => false
  | Some deadline =>
      if (deadline <=? now)%Z then true
      else
        let remaining := as_secs_f64 (deadline - now) in
        let horizon := F64.div (F64.of_Z SIEVE_S_HORIZON_MS) (F64.of_Z 1000) in
        F64.leb remaining (F64.mul threshold horizon)
  end.

Section sieve.
Context `{IndexMap} `{HashIter}.

Record SieveState := {
  sv_queue : im_map bool;
  sv_hand : nat;
  sv_scope : EvictionScope;
  sv_threshold : spec_float;
}.

Definition sv_with (q : im_map bool) (h : nat) (s : SieveState) : SieveState :=
  {| sv_queue := q; sv_hand := h; sv_scope := sv_scope s; sv_threshold := sv_threshold s |}.

(** [SieveState::new] *)
Definition sieve_new : SieveState := {|
  sv_queue := im_new; sv_hand := 0; sv_scope := AllKeys;
  sv_threshold := SIEVE_S_TTL_THRESHOLD;
|}.

(** [SieveState::observe_remove] *)
Definition sieve_observe_remove (key : bytes) (s : SieveState) : SieveState :=
  match im_get_index_of key (sv_queue s) with
  | Some idx =>
      let hand := if idx <? sv_hand s then sv_hand s - 1 else sv_hand s in
      let queue := im_shift_remove key (sv_queue s) in
      let hand := if im_len queue <=? hand then 0 else hand in
      sv_with queue hand s
  | None => s
  end.

(** [SieveState::observe_insert] *)
Definition sieve_observe_insert (key : bytes) (has_ttl : bool) (s : SieveState) : SieveState :=
  if bool_decide (sv_scope s = Volatile) && negb has_ttl
  then sieve_observe_remove key s
  else sv_with (im_insert key false (sv_queue s)) (sv_hand s) s.

(** [SieveState::observe_access] *)
Definition sieve_observe_access (key : bytes) (s : SieveState) : SieveState :=
  sv_with (im_get_mut_set key true (sv_queue s)) (sv_hand s) s.

(** [SieveState::rebuild] *)
Definition sieve_rebuild (st : store) (scope : EvictionScope) (s : SieveState) : SieveState :=
  let q := fold_left (λ q p, if in_scope scope p.2 then im_insert p.1 false q else q)
                     (hm_iter st) (im_clear (sv_queue s)) in
  {| sv_queue := q; sv_hand := 0; sv_scope := scope; sv_threshold := sv_threshold s |}.

(** [SieveState::clear] *)
Definition sieve_clear (s : SieveState) : SieveState :=
  sv_with (im_clear (sv_queue s)) 0 s.

(** Whether a queued key is still a candidate: in the store and in scope. *)
Definition eligible (st : store) (scope : EvictionScope) (key : bytes) : bool :=
  match st !! key with None => false | Some e => in_scope scope e end.

(** Whether SIEVE-S demotes a key because it is about to expire. *)
Definition force_demote (st : store) (ttl_aware : bool) (now : Z) (threshold : spec_float)
    (key : bytes) : bool :=
  ttl_aware && match st !! key with
               | Some e => is_near_expiry e now threshold
               | None => false
               end.

(** The loop of [evict_one]; [fuel] is the number of looks it may still take. *)
Fixpoint sieve_scan (fuel : nat) (st : store) (scope : EvictionScope) (ttl_aware : bool)
    (now : Z) (s : SieveState) : option bytes * SieveState :=
  match fuel with
  | O => (None, s)
  | S fuel =>
      let hand := if im_len (sv_queue s) <=? sv_hand s then 0 else sv_hand s in
      match im_get_index hand (sv_queue s) with
      | None => (None, sv_with (sv_queue s) hand s)
      | Some (key, visited) =>
          if negb (eligible st scope key) then
            sieve_scan fuel st scope ttl_aware now
              (sv_with (im_shift_remove key (sv_queue s)) hand s)
          else if negb visited || force_demote st ttl_aware now (sv_threshold s) key then
            let queue := im_shift_remove key (sv_queue s) in
            let hand := if im_len queue <=? hand then 0 else hand in
            (Some key, sv_with queue hand s)
          else
            sieve_scan fuel st scope ttl_aware now
              (sv_with (im_get_index_mut_set hand false (sv_queue s)) (hand + 1) s)
      end
  end.

(** [SieveState::evict_one]: at most one look more than there are keys. *)
Definition sieve_evict_one (st : store) (scope : EvictionScope) (ttl_aware : bool)
    (now : Z) (s : SieveState) : option bytes * SieveState :=
  let n := im_len (sv_queue s) in
  if n =? 0 then (None, s) else sieve_scan (n + 1) st scope ttl_aware now s.

(** ** The invariant *)

Definition sieve_keys (s : SieveState) : list bytes := im_keys (sv_queue s).

(** No key twice, and the hand no further than one past the last key. *)
Record sieve_wf (s : SieveState) : Prop := {
  sieve_wf_nodup : NoDup (sieve_keys s);
  sieve_wf_hand : sv_hand s ≤ length (im_entries (sv_queue s));
}.

Lemma sieve_wf_new : sieve_wf sieve_new.
Proof. split; unfold sieve_keys, im_keys; simpl; rewrite im_new_spec; [constructor|done]. Qed.

Lemma sieve_wf_clear s : sieve_wf (sieve_clear s).
Proof. split; unfold sieve_keys, im_keys; simpl; rewrite im_clear_spec; [constructor|done]. Qed.

Lemma sieve_wf_observe_remove key s : sieve_wf s → sieve_wf (sieve_observe_remove key s).
Proof.
  intros [Hnd Hh]. unfold sieve_observe_remove.
  destruct (im_get_index_of key (sv_queue s)) as [idx|]; [|done].
  split; unfold sieve_keys, im_keys; simpl; rewrite ?im_len_spec, im_shift_remove_spec.
  - by apply al_remove_NoDup.
  - destruct (Nat.leb_spec (length (al_remove key (im_entries (sv_queue s))))
      (if idx <? sv_hand s then sv_hand s - 1 else sv_hand s)); lia.
Qed.

Lemma length_al_insert {V} k (v : V) l : length l ≤ length (al_insert k v l).
Proof.
  unfold al_insert. destruct (al_index_of k l); [by rewrite length_insert|].
  rewrite length_app. lia.
Qed.

Lemma sieve_wf_observe_insert key t s : sieve_wf s → sieve_wf (sieve_observe_insert key t s).
Proof.
  intros Hwf. unfold sieve_observe_insert.
  destruct (bool_decide _ && _); [by apply sieve_wf_observe_remove|].
  destruct Hwf as [Hnd Hh]. split; unfold sieve_keys, im_keys; simpl; rewrite im_insert_spec.
  - by apply al_insert_NoDup.
  - etrans; [done|]. apply length_al_insert.
Qed.

Lemma sieve_wf_observe_access key s : sieve_wf s → sieve_wf (sieve_observe_access key s).
Proof.
  intros [Hnd Hh]. split; unfold sieve_keys, im_keys; simpl; rewrite im_get_mut_set_spec;
    destruct (al_index_of key (im_entries (sv_queue s))) as [i|] eqn:E; try done.
  - pose proof (al_insert_NoDup key true _ Hnd) as Hi. unfold al_insert in Hi.
    by rewrite E in Hi.
  - by rewrite length_insert.
Qed.

Lemma rebuild_queue_spec scope (l : list (bytes * ValueEntry)) (q : im_map bool) :
  NoDup (im_keys q) →
  let q' := fold_left (λ q p, if in_scope scope p.2 then im_insert p.1 false q else q) l q in
  NoDup (im_keys q') ∧
  ∀ k, k ∈ im_keys q' ↔ k ∈ im_keys q ∨ ∃ e, (k, e) ∈ l ∧ in_scope scope e = true.
Proof.
  revert q. induction l as [|[k0 e0] l IH]; intros q Hnd; simpl.
  - split; [done|]. intros k. split; [by left|]. intros [Hk|(e & He & _)]; [done|].
    by apply not_elem_of_nil in He.
  - destruct (IH (if in_scope scope e0 then im_insert k0 false q else q)) as [H1 H2].
    { destruct (in_scope scope e0); [|done]. unfold im_keys. rewrite im_insert_spec.
      by apply al_insert_NoDup. }
    split; [done|]. intros k. rewrite H2. clear H1 H2 IH.
    destruct (in_scope scope e0) eqn:E.
    + unfold im_keys at 1. rewrite im_insert_spec, elem_of_al_insert. split.
      * intros [[->|Hk]|(e & He & Hs)]; [right|by left|right].
        -- exists e0. split; [by left|done].
        -- exists e. split; [by right|done].
      * intros [Hk|(e & He & Hs)]; [by left; right|].
        apply elem_of_cons in He as [[= -> ->]|He]; [by left; left|].
        right. eauto.
    + split.
      * intros [Hk|(e & He & Hs)]; [by left|]. right. exists e. split; [by right|done].
      * intros [Hk|(e & He & Hs)]; [by left|].
        apply elem_of_cons in He as [[= -> ->]|He]; [congruence|]. right. eauto.
Qed.

Lemma sieve_rebuild_spec st scope s :
  sieve_wf (sieve_rebuild st scope s) ∧
  ∀ k, k ∈ sieve_keys (sieve_rebuild st scope s) ↔ eligible st scope k = true.
Proof.
  destruct (rebuild_queue_spec scope (hm_iter st) (im_clear (sv_queue s))) as [Hnd Hk].
  { unfold im_keys. rewrite im_clear_spec. constructor. }
  split; [split; [done|simpl; lia]|]. intros k. unfold sieve_keys, sieve_rebuild. simpl.
  rewrite Hk. unfold im_keys. rewrite im_clear_spec. unfold eligible. split.
  - intros [Hn|(e & He & Hs)]; [by apply not_elem_of_nil in Hn|].
    apply elem_of_hm_iter in He. by rewrite He.
  - destruct (st !! k) as [e|] eqn:E; [|done]. intros Hs. right. exists e.
    by rewrite elem_of_hm_iter.
Qed.

(** ** The sweep against its reference *)

(** The queue as the hand sees it: from the hand to the end, then from the
    start to the hand. *)
Definition rotation (s : SieveState) : list (bytes * bool) :=
  let l := im_entries (sv_queue s) in
  let h := if length l <=? sv_hand s then 0 else sv_hand s in
  drop h l ++ take h l.

Section sweep.
Context (st : store) (scope : EvictionScope) (ttl_aware : bool) (now : Z).
Context (threshold : spec_float).

Definition evictable (p : bytes * bool) : bool :=
  eligible st scope p.1
  && (negb p.2 || force_demote st ttl_aware now threshold p.1).

(** The reference: the first key from the hand on that is eligible and either
    unvisited or about to expire; when every eligible key was visited, the
    first eligible one. *)
Definition sieve_victim (l : list (bytes * bool)) : option bytes :=
  match find evictable l with
  | Some p => Some p.1
  | None => fst <$> find (λ p, eligible st scope p.1) l
  end.

(** The sweep on the rotation: a key out of scope is dropped, a visited one
    goes to the back with its bit cleared. *)
Fixpoint rscan (fuel : nat) (l : list (bytes * bool)) : option bytes * list (bytes * bool) :=
  match fuel, l with
  | O, _ => (None, l)
  | _, [] => (None, l)
  | S fuel, p :: l =>
      if negb (eligible st scope p.1) then rscan fuel l
      else if evictable p then (Some p.1, l)
      else rscan fuel (l ++ [(p.1, false)])
  end.

Lemma rscan_victim fuel todo fresh :
  length todo < fuel →
  Forall (λ p, eligible st scope p.1 = true ∧ p.2 = false) fresh →
  (rscan fuel (todo ++ fresh)).1 =
    match find evictable todo with
    | Some p => Some p.1
    | None => fst <$> head (fresh ++ List.filter (λ p, eligible st scope p.1) todo)
    end.
Proof.
  revert todo fresh. induction fuel as [|fuel IH]; intros todo fresh Hf Hfr; [lia|].
  destruct todo as [|[k v] todo]; simpl in *.
  - destruct fresh as [|[k v] fresh]; simpl; [done|].
    apply Forall_cons_iff in Hfr as [[He Hv] _]. simpl in *. subst v.
    unfold evictable. simpl. by rewrite He.
  - unfold evictable at 1 2. simpl. destruct (eligible st scope k) eqn:E; simpl.
    + destruct (negb v || force_demote st ttl_aware now threshold k); [done|].
      rewrite <- app_assoc, IH; [|lia|].
      * destruct (find evictable todo); [done|]. rewrite <- app_assoc. by destruct fresh.
      * apply Forall_app. by split; [|apply Forall_singleton].
    + rewrite IH by (lia || done). done.
Qed.

Lemma head_filter_find {A} (f : A → bool) l : head (List.filter f l) = find f l.
Proof. induction l as [|x l IH]; simpl; [done|]. by destruct (f x). Qed.

Lemma rscan_spec l : (rscan (length l + 1) l).1 = sieve_victim l.
Proof.
  rewrite <- (app_nil_r l) at 2. rewrite rscan_victim by (lia || constructor).
  unfold sieve_victim. simpl. by rewrite head_filter_find.
Qed.

(** Every eligible key but the victim stays, and nothing is added. *)
Lemma rscan_keys fuel l k :
  (k ∈ (rscan fuel l).2.*1 → k ∈ l.*1) ∧
  (k ∈ l.*1 → eligible st scope k = true → (rscan fuel l).1 ≠ Some k →
   k ∈ (rscan fuel l).2.*1).
Proof.
  revert l. induction fuel as [|fuel IH]; intros [|[k0 v0] l]; simpl; try done.
  destruct (eligible st scope k0) eqn:E; simpl.
  - destruct (evictable (k0, v0)); simpl.
    + split; [by right|]. intros [->|]%elem_of_cons _ Hne; [by destruct Hne|done].
    + destruct (IH (l ++ [(k0, false)])) as [H1 H2].
      rewrite fmap_app, elem_of_app in H1, H2. simpl in *.
      rewrite list_elem_of_singleton in H1, H2. rewrite elem_of_cons. tauto.
  - destruct (IH l) as [H1 H2]. split; [by right; auto|].
    intros [->|Hk]%elem_of_cons He Hne; [congruence|]. auto.
Qed.

End sweep.

Lemma take_drop_delete {A} (l : list A) h : delete h l = take h l ++ drop (S h) l.
Proof. apply delete_take_drop. Qed.

(** One look of the sweep at the key under the hand, on both sides. *)
Lemma rotation_lookup s p :
  let h := if length (im_entries (sv_queue s)) <=? sv_hand s then 0 else sv_hand s in
  im_entries (sv_queue s) !! h = Some p →
  h < length (im_entries (sv_queue s)) ∧
  rotation s = p :: (drop (S h) (im_entries (sv_queue s)) ++ take h (im_entries (sv_queue s))).
Proof.
  intros h Hp. split; [by eapply lookup_lt_Some|].
  unfold rotation. fold h. by rewrite (drop_S _ p).
Qed.

Lemma rotation_remove s q (l : list (bytes * bool)) h :
  h < length l → im_entries q = delete h l →
  rotation (sv_with q h s) = drop (S h) l ++ take h l.
Proof.
  intros Hh Hq. unfold rotation. simpl. rewrite Hq, delete_take_drop.
  assert (Hlen : length (take h l ++ drop (S h) l) = length l - 1)
    by (rewrite length_app, length_take, length_drop; lia).
  rewrite Hlen. destruct (Nat.leb_spec (length l - 1) h).
  - assert (S h = length l) by lia. rewrite (drop_ge _ (S h)) by lia.
    by simpl; rewrite !app_nil_r.
  - rewrite drop_app_length', take_app_length'; [done|rewrite length_take; lia..].
Qed.

Lemma rotation_clear s q (l : list (bytes * bool)) h k v :
  l !! h = Some (k, v) → im_entries q = alter (λ p, (p.1, false)) h l →
  rotation (sv_with q (h + 1) s) = drop (S h) l ++ take h l ++ [(k, false)].
Proof.
  intros Hk Hq. assert (Hh : h < length l) by (by eapply lookup_lt_Some).
  assert (Hq' : im_entries q = (take h l ++ [(k, false)]) ++ drop (S h) l).
  { rewrite Hq. rewrite <- (take_drop_middle l h (k, v) Hk) at 1.
    rewrite alter_app_r_alt by (rewrite length_take; lia).
    rewrite length_take, Nat.min_l, Nat.sub_diag by lia. simpl. by rewrite <- app_assoc. }
  assert (Hlen : length (im_entries q) = length l) by (rewrite Hq; apply length_alter).
  unfold rotation. simpl. rewrite Hlen, Hq'.
  assert (Hpre : length (take h l ++ [(k, false)]) = h + 1)
    by (rewrite length_app, length_take; simpl; lia).
  destruct (Nat.leb_spec (length l) (h + 1)).
  - rewrite (drop_ge _ (S h)) by lia. by simpl; rewrite !app_nil_r.
  - by rewrite drop_app_length', take_app_length'.
Qed.

Lemma rotation_perm s : rotation s ≡ₚ im_entries (sv_queue s).
Proof.
  unfold rotation. rewrite Permutation_app_comm. by rewrite take_drop.
Qed.

(** The sweep simulates the one on the rotation. *)
Lemma sieve_scan_sim fuel st scope ttl now s :
  sieve_wf s →
  let r := sieve_scan fuel st scope ttl now s in
  let a := rscan st scope ttl now (sv_threshold s) fuel (rotation s) in
  r.1 = a.1 ∧ rotation r.2 = a.2 ∧ sieve_wf r.2 ∧
  sv_scope r.2 = sv_scope s ∧ sv_threshold r.2 = sv_threshold s.
Proof.
  revert s. induction fuel as [|fuel IH]; intros s Hwf; simpl; [done|].
  rewrite im_len_spec, im_get_index_spec.
  pose proof (rotation_lookup s) as Hrot. simpl in Hrot.
  set (h := if length (im_entries (sv_queue s)) <=? sv_hand s then 0 else sv_hand s) in *.
  destruct Hwf as [Hnd Hh].
  destruct (im_entries (sv_queue s) !! h) as [[k v]|] eqn:E.
  - destruct (Hrot _ eq_refl) as [Hlt ->]. simpl.
    assert (Hrm : im_entries (im_shift_remove k (sv_queue s)) = delete h (im_entries (sv_queue s)))
      by (rewrite im_shift_remove_spec; by eapply al_remove_delete).
    assert (Hndr : NoDup (im_keys (im_shift_remove k (sv_queue s))))
      by (unfold im_keys; rewrite im_shift_remove_spec; by apply al_remove_NoDup).
    unfold evictable. simpl.
    destruct (eligible st scope k); simpl.
    + destruct (negb v || force_demote st ttl now (sv_threshold s) k); simpl.
      * assert (Hrot' : rotation (sv_with (im_shift_remove k (sv_queue s))
          (if im_len (im_shift_remove k (sv_queue s)) <=? h then 0 else h) s)
          = rotation (sv_with (im_shift_remove k (sv_queue s)) h s)).
        { unfold rotation; simpl. rewrite im_len_spec.
          destruct (length (im_entries (im_shift_remove k (sv_queue s))) <=? h) eqn:El;
            [by destruct (_ <=? 0)|by rewrite El]. }
        split; [done|]. split; [|split; [split|done]]; [| done |].
        -- rewrite Hrot'. by eapply rotation_remove.
        -- simpl. rewrite im_len_spec. destruct (Nat.leb_spec (length
             (im_entries (im_shift_remove k (sv_queue s)))) h); lia.
      * assert (Hset : im_entries (im_get_index_mut_set h false (sv_queue s))
          = alter (λ p, (p.1, false)) h (im_entries (sv_queue s)))
          by apply im_get_index_mut_set_spec.
        assert (Hwf' : sieve_wf (sv_with (im_get_index_mut_set h false (sv_queue s)) (h + 1) s)).
        { split; unfold sieve_keys, im_keys; simpl; rewrite Hset.
          - rewrite (list_fmap_alter _ _ id) by (by apply Forall_true). by rewrite list_alter_id.
          - rewrite length_alter. lia. }
        specialize (IH _ Hwf') as IHs. simpl in IHs.
        rewrite (rotation_clear s _ _ _ _ _ E Hset), app_assoc in IHs. done.
    + assert (Hwf' : sieve_wf (sv_with (im_shift_remove k (sv_queue s)) h s)).
      { split; [done|]. simpl. rewrite Hrm, length_delete by (by rewrite E). lia. }
      specialize (IH _ Hwf') as IHs. simpl in IHs.
      by rewrite (rotation_remove s _ _ _ Hlt Hrm) in IHs.
  - assert (Hnil : im_entries (sv_queue s) = []).
    { apply lookup_ge_None in E. unfold h in E.
      destruct (Nat.leb_spec (length (im_entries (sv_queue s))) (sv_hand s));
        [apply length_zero_iff_nil; lia|lia]. }
    unfold rotation. simpl. rewrite Hnil. simpl. rewrite ?drop_nil, ?take_nil. simpl.
    split; [done|]. split; [done|]. split; [|done].
    split; unfold sieve_keys, im_keys; simpl; rewrite Hnil; [constructor|].
    unfold h. rewrite Hnil. simpl. done.
Qed.

Lemma rotation_nil s : im_len (sv_queue s) = 0 → rotation s = [].
Proof.
  rewrite im_len_spec. intros Hl. apply length_zero_iff_nil in Hl.
  unfold rotation. by rewrite Hl.
Qed.

Lemma length_rotation s : length (rotation s) = im_len (sv_queue s).
Proof. rewrite im_len_spec. by rewrite rotation_perm. Qed.

Lemma elem_of_rotation s k : k ∈ (rotation s).*1 ↔ k ∈ sieve_keys s.
Proof. unfold sieve_keys, im_keys. by rewrite rotation_perm. Qed.

(** [evict_one] is the rotating sweep, and keeps the invariant. *)
Lemma sieve_evict_one_sim st scope ttl now s :
  sieve_wf s →
  let r := sieve_evict_one st scope ttl now s in
  let a := rscan st scope ttl now (sv_threshold s) (length (rotation s) + 1) (rotation s) in
  r.1 = a.1 ∧ rotation r.2 = a.2 ∧ sieve_wf r.2 ∧
  sv_scope r.2 = sv_scope s ∧ sv_threshold r.2 = sv_threshold s.
Proof.
  intros Hwf. unfold sieve_evict_one. simpl. rewrite length_rotation.
  destruct (im_len (sv_queue s) =? 0) eqn:E.
  - apply Nat.eqb_eq in E. simpl. by rewrite (rotation_nil s E), E.
  - by apply sieve_scan_sim.
Qed.

Lemma sieve_wf_evict_one st scope ttl now s :
  sieve_wf s → sieve_wf (sieve_evict_one st scope ttl now s).2.
Proof. intros Hwf. by apply sieve_evict_one_sim. Qed.

(** What a sweep leaves in the queue: only keys that were there, and every
    eligible one but the victim. *)
Lemma sieve_evict_one_keys st scope ttl now s k :
  sieve_wf s →
  let r := sieve_evict_one st scope ttl now s in
  (k ∈ sieve_keys r.2 → k ∈ sieve_keys s) ∧
  (k ∈ sieve_keys s → eligible st scope k = true → r.1 ≠ Some k → k ∈ sieve_keys r.2).
Proof.
  intros Hwf r. destruct (sieve_evict_one_sim st scope ttl now s Hwf) as (H1 & H2 & _).
  fold r in H1, H2. rewrite <- !elem_of_rotation, H1, H2. apply rscan_keys.
Qed.

Lemma sieve_victim_None st scope ttl now th l :
  sieve_victim st scope ttl now th l = None ↔
  Forall (λ k, eligible st scope k = false) l.*1.
Proof.
  unfold sieve_victim.
  induction l as [|[k v] l IH]; simpl; [by split; [constructor|]|].
  rewrite Forall_cons_iff, <- IH. unfold evictable at 1. simpl.
  destruct (eligible st scope k); simpl; [|tauto].
  split; [|by intros []]. by destruct (_ || _), (find _ l).
Qed.

Lemma sieve_victim_Some st scope ttl now th l k :
  sieve_victim st scope ttl now th l = Some k →
  k ∈ l.*1 ∧ eligible st scope k = true.
Proof.
  unfold sieve_victim. destruct (find (evictable _ _ _ _ _) l) as [p|] eqn:E.
  - intros [= <-]. apply find_some in E as [Hin He]. split.
    + apply list_elem_of_fmap_2. by apply list_elem_of_In.
    + by apply andb_prop in He as [He _].
  - intros Hf. apply fmap_Some in Hf as (p & Hp & ->). apply find_some in Hp as [Hin He].
    split; [|done]. apply list_elem_of_fmap_2. by apply list_elem_of_In.
Qed.

Lemma sieve_evict_one_eligible st scope ttl now s k :
  (sieve_evict_one st scope ttl now s).1 = Some k → eligible st scope k = true.
Proof.
  unfold sieve_evict_one. destruct (_ =? 0)%nat; [done|]. generalize (im_len (sv_queue s) + 1)%nat.
  intros fuel. revert s. induction fuel as [|fuel IH]; intros s; simpl; [done|].
  destruct (im_get_index _ _) as [[key visited]|]; [|done].
  destruct (eligible st scope key) eqn:E; simpl; [|apply IH].
  destruct (_ || _); [|apply IH]. by intros [= <-].
Qed.

Lemma sieve_observe_remove_keys key s k :
  sieve_wf s → k ∈ sieve_keys (sieve_observe_remove key s) ↔ k ≠ key ∧ k ∈ sieve_keys s.
Proof.
  intros _. unfold sieve_observe_remove, sieve_keys, im_keys.
  rewrite im_get_index_of_spec.
  destruct (al_index_of key (im_entries (sv_queue s))) eqn:E; simpl.
  - by rewrite im_shift_remove_spec, elem_of_al_remove.
  - apply al_index_of_None in E. split; [|tauto]. intros Hk. split; [by intros ->|done].
Qed.

Lemma sieve_observe_insert_keys key t s k :
  sieve_wf s →
  k ∈ sieve_keys (sieve_observe_insert key t s) ↔
  if bool_decide (sv_scope s = Volatile) && negb t
  then k ≠ key ∧ k ∈ sieve_keys s else k = key ∨ k ∈ sieve_keys s.
Proof.
  intros Hwf. unfold sieve_observe_insert. destruct (_ && _).
  - by apply sieve_observe_remove_keys.
  - unfold sieve_keys, im_keys. simpl. by rewrite im_insert_spec, elem_of_al_insert.
Qed.

Lemma sieve_observe_access_keys key s : sieve_keys (sieve_observe_access key s) = sieve_keys s.
Proof.
  unfold sieve_keys, im_keys, sieve_observe_access. simpl. rewrite im_get_mut_set_spec.
  destruct (al_index_of key (im_entries (sv_queue s))) as [i|] eqn:E; [|done].
  apply al_index_of_Some in E as [[w Hw] _].
  rewrite list_fmap_insert. apply list_insert_id. by rewrite list_lookup_fmap, Hw.
Qed.

Lemma sieve_observe_scope key t s :
  sv_scope (sieve_observe_insert key t s) = sv_scope s ∧
  sv_scope (sieve_observe_remove key s) = sv_scope s ∧
  sv_scope (sieve_observe_access key s) = sv_scope s ∧
  sv_scope (sieve_clear s) = sv_scope s.
Proof.
  assert (Hr : sv_scope (sieve_observe_remove key s) = sv_scope s)
    by (unfold sieve_observe_remove; by case_match).
  unfold sieve_observe_insert. repeat split; try done. by case_match.
Qed.

(** ** Reachable states *)

(** The calls the engine makes on the structure. *)
Inductive sieve_step (s : SieveState) : SieveState → Prop :=
| step_insert key t : sieve_step s (sieve_observe_insert key t s)
| step_access key : sieve_step s (sieve_observe_access key s)
| step_remove key : sieve_step s (sieve_observe_remove key s)
| step_rebuild st scope : sieve_step s (sieve_rebuild st scope s)
| step_clear : sieve_step s (sieve_clear s)
| step_evict st scope ttl now : sieve_step s (sieve_evict_one st scope ttl now s).2.

Lemma sieve_step_wf s s' : sieve_step s s' → sieve_wf s → sieve_wf s'.
Proof.
  intros [] Hwf.
  - by apply sieve_wf_observe_insert.
  - by apply sieve_wf_observe_access.
  - by apply sieve_wf_observe_remove.
  - apply sieve_rebuild_spec.
  - apply sieve_wf_clear.
  - by apply sieve_wf_evict_one.
Qed.

End sieve.

(** whatever sequence of inserts, accesses, removals, rebuilds, clears
    and sweeps runs on a fresh SIEVE structure, the queue holds no key twice
    and the hand stays within one past its end. *)
Theorem sieve_reachable_wf `{IndexMap} `{HashIter} s :
  rtc sieve_step sieve_new s → sieve_wf s.
Proof.
  intros Hr. pose proof sieve_wf_new as Hwf.
  induction Hr as [|? ? ? Hs _ IH]; [done|]. by eapply IH, sieve_step_wf.
Qed.

Lemma sieve_reachable_wf_witness :
  sieve_wf (sieve_observe_access (str "a") (sieve_observe_insert (str "a") false sieve_new)).
Proof.
  apply (sieve_reachable_wf (sieve_observe_access (str "a") (sieve_observe_insert (str "a") false sieve_new))).
  eapply rtc_l; [apply step_insert|]. eapply rtc_l; [apply step_access|]. apply rtc_refl.
Defined.

(** C37: the sweep of [evict_one], with its bound of one look more than there
    are keys, picks exactly the reference victim: from the hand on, wrapping
    around, the first key in scope that is unvisited (or, under SIEVE-S, about
    to expire), and when every key in scope was visited, the first of them. *)
Theorem sieve_evict_one_victim `{IndexMap} `{HashIter} st scope ttl now s :
  sieve_wf s →
  (sieve_evict_one st scope ttl now s).1
  = sieve_victim st scope ttl now (sv_threshold s) (rotation s).
Proof.
  intros Hwf. destruct (sieve_evict_one_sim st scope ttl now s Hwf) as (-> & _).
  apply rscan_spec.
Qed.

Definition sieve_example : SieveState :=
  sieve_observe_access (str "a")
    (sieve_observe_insert (str "b") false (sieve_observe_insert (str "a") false sieve_new)).

Definition store_example : store :=
  <[str "a" := new {| inst := 0; unix_ns := 0 |} (str "1")]>
    {[ str "b" := new {| inst := 0; unix_ns := 0 |} (str "2") ]}.

Lemma sieve_example_wf : sieve_wf sieve_example.
Proof.
  apply sieve_wf_observe_access, sieve_wf_observe_insert, sieve_wf_observe_insert, sieve_wf_new.
Qed.

Lemma sieve_evict_one_victim_witness :
  (sieve_evict_one store_example AllKeys false 0 sieve_example).1 = Some (str "b").
Proof.
  rewrite (sieve_evict_one_victim store_example AllKeys false 0 sieve_example sieve_example_wf).
  vm_compute. reflexivity.
Defined.

(** A sweep fails only when it must: [evict_one] returns a key if and
    only if some queued key is stored and in scope, the key it returns was
    queued and is in scope, and it leaves every other key in scope queued. *)
Theorem sieve_evict_one_live `{IndexMap} `{HashIter} st scope ttl now s :
  sieve_wf s →
  let r := sieve_evict_one st scope ttl now s in
  (is_Some r.1 ↔ ∃ k, k ∈ sieve_keys s ∧ eligible st scope k = true) ∧
  (∀ k, r.1 = Some k → k ∈ sieve_keys s ∧ eligible st scope k = true) ∧
  (∀ k, k ∈ sieve_keys s → eligible st scope k = true → r.1 ≠ Some k → k ∈ sieve_keys r.2).
Proof.
  intros Hwf r. destruct (sieve_evict_one_sim st scope ttl now s Hwf) as (Hv & _).
  fold r in Hv. rewrite rscan_spec in Hv.
  assert (Hin : ∀ k, r.1 = Some k → k ∈ sieve_keys s ∧ eligible st scope k = true).
  { intros k Hk. rewrite Hv in Hk. apply sieve_victim_Some in Hk.
    by rewrite elem_of_rotation in Hk. }
  split; [split|split; [done|]].
  - intros [k Hk]. exists k. by apply Hin.
  - intros (k & Hk & He). rewrite Hv.
    destruct (sieve_victim _ _ _ _ _ _) as [v|] eqn:E; [by exists v|].
    apply sieve_victim_None in E. rewrite Forall_forall in E.
    apply elem_of_rotation in Hk. rewrite E in He; [done|].
    by try apply list_elem_of_In.
  - intros k. by apply sieve_evict_one_keys.
Qed.

Lemma sieve_evict_one_live_witness :
  sieve_wf sieve_example ∧
  is_Some (sieve_evict_one store_example AllKeys false 0 sieve_example).1.
Proof.
  split; [exact sieve_example_wf|].
  apply (sieve_evict_one_live store_example AllKeys false 0 sieve_example sieve_example_wf).
  exists (str "a"). split; [|vm_compute; reflexivity].
  apply (bool_decide_eq_true_1 (str "a" ∈ sieve_keys sieve_example)). vm_compute. reflexivity.
Defined.
