(* ===== verification/AdaptiveClimb.v ===== *)
(** * The AdaptiveClimb eviction list (src/src/storage/adaptive_climb.rs)

    The MRU-to-LRU list with its [jump] scalar, every operation on it, the
    invariant they keep, and the positions the promotion, insertion and
    eviction rules give. *)
From S2P Require Import Prelude IndexMap Eviction Entry Sieve.
From Stdlib Require Import ZArith Lia.
From stdpp Require Import gmap strings numbers list.

Section ac.
Context `{IndexMap} `{HashIter}.

Record AdaptiveClimbState := {
  ac_queue : im_map ();
  ac_jump : nat;
  ac_scope : EvictionScope;
}.

Definition ac_with (q : im_map ()) (j : nat) (s : AdaptiveClimbState) : AdaptiveClimbState :=
  {| ac_queue := q; ac_jump := j; ac_scope := ac_scope s |}.

(** [AdaptiveClimbState::new] *)
Definition ac_new : AdaptiveClimbState :=
  {| ac_queue := im_new; ac_jump := 1; ac_scope := AllKeys |}.

(** [usize::clamp] *)
Definition clamp (lo hi x : nat) : nat :=
  if x <? lo then lo else if hi <? x then hi else x.

(** [AdaptiveClimbState::clamp_jump] *)
Definition clamp_jump (s : AdaptiveClimbState) : AdaptiveClimbState :=
  let len := im_len (ac_queue s) in
  ac_with (ac_queue s) (if len =? 0 then 1 else clamp 1 len (ac_jump s)) s.

(** [AdaptiveClimbState::observe_remove] *)
Definition ac_observe_remove (key : bytes) (s : AdaptiveClimbState) : AdaptiveClimbState :=
  clamp_jump (ac_with (im_shift_remove key (ac_queue s)) (ac_jump s) s).

(** [AdaptiveClimbState::observe_insert] *)
Definition ac_observe_insert (key : bytes) (has_ttl : bool) (s : AdaptiveClimbState)
    : AdaptiveClimbState :=
  if bool_decide (ac_scope s = Volatile) && negb has_ttl
  then ac_observe_remove key s
  else
    let s := clamp_jump (ac_with (im_shift_remove key (ac_queue s)) (ac_jump s) s) in
    let len := im_len (ac_queue s) in
    let jump := if len =? 0 then 1
                else if ac_jump s <? len then ac_jump s + 1 else ac_jump s in
    let pos := (len - jump) `min` len in
    ac_with (im_insert_before pos key tt (ac_queue s)) jump s.

(** [AdaptiveClimbState::observe_access] *)
Definition ac_observe_access (key : bytes) (s : AdaptiveClimbState) : AdaptiveClimbState :=
  match im_get_index_of key (ac_queue s) with
  | None => s
  | Some p =>
      let jump := if 1 <? ac_jump s then ac_jump s - 1 else ac_jump s in
      if 0 <? p then
        let target := p - jump in
        if target <? p then ac_with (im_move_index p target (ac_queue s)) jump s
        else ac_with (ac_queue s) jump s
      else ac_with (ac_queue s) jump s
  end.

(** [AdaptiveClimbState::rebuild] *)
Definition ac_rebuild (st : store) (scope : EvictionScope) (s : AdaptiveClimbState)
    : AdaptiveClimbState :=
  let q := fold_left
    (λ q p, if in_scope scope p.2 then im_insert_before (im_len q) p.1 tt q else q)
    (hm_iter st) (im_clear (ac_queue s)) in
  {| ac_queue := q; ac_jump := 1; ac_scope := scope |}.

(** [AdaptiveClimbState::clear] *)
Definition ac_clear (s : AdaptiveClimbState) : AdaptiveClimbState :=
  ac_with (im_clear (ac_queue s)) 1 s.

(** The loop of [evict_one], at the indices below [idx] from the highest. *)
Fixpoint ac_scan (idx : nat) (st : store) (scope : EvictionScope) (s : AdaptiveClimbState)
    : option bytes * AdaptiveClimbState :=
  match idx with
  | O => (None, s)
  | S idx =>
      match im_get_index idx (ac_queue s) with
      | None => (None, s)
      | Some (key, _) =>
          if eligible st scope key then
            let '(r, q) := im_shift_remove_index idx (ac_queue s) in
            (fst <$> r, ac_with q (ac_jump s) s)
          else ac_scan idx st scope s
      end
  end.

(** [AdaptiveClimbState::evict_one] *)
Definition ac_evict_one (st : store) (scope : EvictionScope) (s : AdaptiveClimbState)
    : option bytes * AdaptiveClimbState :=
  let n := im_len (ac_queue s) in
  if n =? 0 then (None, s) else ac_scan n st scope s.

(** ** The invariant *)

Definition ac_keys (s : AdaptiveClimbState) : list bytes := im_keys (ac_queue s).

Record ac_wf (s : AdaptiveClimbState) : Prop := {
  ac_wf_nodup : NoDup (ac_keys s);
  ac_wf_pos : 1 ≤ ac_jump s;
}.

(** [jump] within [1, len], or one for the empty list. *)
Definition ac_clamped (s : AdaptiveClimbState) : Prop :=
  ac_jump s ≤ 1 `max` length (ac_keys s).

Lemma length_ac_keys s : length (ac_keys s) = im_len (ac_queue s).
Proof. unfold ac_keys, im_keys. by rewrite length_fmap, im_len_spec. Qed.

Lemma clamp_jump_spec s :
  NoDup (ac_keys s) → ac_wf (clamp_jump s) ∧ ac_clamped (clamp_jump s).
Proof.
  intros Hnd. unfold clamp_jump, ac_clamped, clamp. simpl.
  split; [split; [done|]|]; simpl.
  - destruct (Nat.eqb_spec (im_len (ac_queue s)) 0); [lia|].
    repeat case_match; bool_to_prop; rewrite ?Nat.ltb_lt, ?Nat.ltb_ge in *; lia.
  - rewrite length_ac_keys. simpl.
    destruct (Nat.eqb_spec (im_len (ac_queue s)) 0); [lia|].
    repeat case_match; rewrite ?Nat.ltb_lt, ?Nat.ltb_ge in *; lia.
Qed.

Lemma ac_wf_observe_remove key s :
  ac_wf s → ac_wf (ac_observe_remove key s) ∧ ac_clamped (ac_observe_remove key s).
Proof.
  intros [Hnd _]. apply clamp_jump_spec. unfold ac_keys, im_keys. simpl.
  rewrite im_shift_remove_spec. by apply al_remove_NoDup.
Qed.

(** The state [observe_insert] splices the key into: the list without the key,
    and [jump] clamped and bumped. *)
Definition insert_jump (len jump : nat) : nat :=
  if len =? 0 then 1 else (clamp 1 len jump + 1) `min` len.

Lemma ac_observe_insert_entries key t s :
  bool_decide (ac_scope s = Volatile) && negb t = false →
  let l := al_remove key (im_entries (ac_queue s)) in
  let jump := insert_jump (length l) (ac_jump s) in
  im_entries (ac_queue (ac_observe_insert key t s))
    = al_insert_at (length l - jump) (key, tt) l ∧
  ac_jump (ac_observe_insert key t s) = jump.
Proof.
  intros Hsc l jump. unfold ac_observe_insert. rewrite Hsc. simpl.
  rewrite !im_len_spec, im_shift_remove_spec. fold l.
  assert (Hj : (if length l =? 0 then 1
     else if (if length l =? 0 then 1 else clamp 1 (length l) (ac_jump s)) <? length l
          then (if length l =? 0 then 1 else clamp 1 (length l) (ac_jump s)) + 1
          else (if length l =? 0 then 1 else clamp 1 (length l) (ac_jump s))) = jump).
  { unfold jump, insert_jump, clamp.
    destruct (Nat.eqb_spec (length l) 0); [done|].
    repeat case_match; rewrite ?Nat.ltb_lt, ?Nat.ltb_ge in *; lia. }
  rewrite Hj. split; [|done].
  rewrite Nat.min_l by lia.
  rewrite im_insert_before_spec; rewrite im_shift_remove_spec; fold l; [done|lia|].
  unfold l. rewrite elem_of_al_remove. tauto.
Qed.

Lemma insert_jump_range len jump : 1 ≤ insert_jump len jump ≤ 1 `max` len.
Proof.
  unfold insert_jump, clamp. destruct (Nat.eqb_spec len 0); [lia|].
  repeat case_match; rewrite ?Nat.ltb_lt, ?Nat.ltb_ge in *; lia.
Qed.

Lemma ac_wf_observe_insert key t s :
  ac_wf s → ac_wf (ac_observe_insert key t s) ∧ ac_clamped (ac_observe_insert key t s).
Proof.
  intros Hwf. destruct (bool_decide (ac_scope s = Volatile) && negb t) eqn:E.
  { unfold ac_observe_insert. rewrite E. by apply ac_wf_observe_remove. }
  destruct (ac_observe_insert_entries key t s E) as [Hl Hj]. destruct Hwf as [Hnd _].
  pose proof (insert_jump_range (length (al_remove key (im_entries (ac_queue s)))) (ac_jump s)).
  split; [split|]; unfold ac_clamped, ac_keys, im_keys; rewrite ?Hj, ?Hl.
  - rewrite al_insert_at_perm. csimpl. apply NoDup_cons. split.
    + rewrite elem_of_al_remove. tauto.
    + by apply al_remove_NoDup.
  - lia.
  - rewrite length_fmap, al_insert_at_perm. simpl. lia.
Qed.

(** What a hit does: the key climbs by the decremented [jump]. *)
Lemma ac_observe_access_entries key s p :
  ac_wf s → al_index_of key (im_entries (ac_queue s)) = Some p →
  let jump := 1 `max` (ac_jump s - 1) in
  im_entries (ac_queue (ac_observe_access key s))
    = al_move p (p - jump) (im_entries (ac_queue s)) ∧
  ac_jump (ac_observe_access key s) = jump.
Proof.
  intros [Hnd Hj] Hp jump. unfold ac_observe_access. rewrite im_get_index_of_spec, Hp.
  assert (Hjump : (if 1 <? ac_jump s then ac_jump s - 1 else ac_jump s) = jump).
  { unfold jump. destruct (Nat.ltb_spec 1 (ac_jump s)); lia. }
  rewrite Hjump. clear Hjump.
  apply al_index_of_Some in Hp as [[[] Hp] _].
  assert (Hlt : p < length (im_entries (ac_queue s))) by (by eapply lookup_lt_Some).
  destruct p as [|p]; simpl.
  - split; [|done]. unfold al_move. rewrite Hp. unfold al_insert_at.
    destruct (im_entries (ac_queue s)); [done|]. simpl in *. by simplify_eq.
  - assert (Hlt' : (S p - jump <? S p) = true) by (apply Nat.ltb_lt; lia).
    rewrite Hlt'. simpl. split; [|done]. apply im_move_index_spec; lia.
Qed.

Lemma ac_observe_access_keys key s :
  ac_wf s → ac_keys (ac_observe_access key s) ≡ₚ ac_keys s.
Proof.
  intros Hwf. destruct (al_index_of key (im_entries (ac_queue s))) as [p|] eqn:E.
  - destruct (ac_observe_access_entries key s p Hwf E) as [Hl _].
    unfold ac_keys, im_keys. by rewrite Hl, al_move_perm.
  - unfold ac_observe_access. by rewrite im_get_index_of_spec, E.
Qed.

Lemma ac_wf_observe_access key s :
  ac_wf s → ac_wf (ac_observe_access key s) ∧
  (ac_clamped s → ac_clamped (ac_observe_access key s)).
Proof.
  intros Hwf. pose proof (ac_observe_access_keys key s Hwf) as Hk.
  destruct (al_index_of key (im_entries (ac_queue s))) as [p|] eqn:E.
  - destruct (ac_observe_access_entries key s p Hwf E) as [_ Hj].
    split; [split|]; unfold ac_clamped; rewrite ?Hk, ?Hj; [apply Hwf|lia|lia].
  - unfold ac_observe_access. by rewrite im_get_index_of_spec, E.
Qed.

Lemma ac_wf_new : ac_wf ac_new ∧ ac_clamped ac_new.
Proof.
  unfold ac_clamped, ac_keys, im_keys. split; [split|]; simpl; try lia.
  unfold ac_keys, im_keys. simpl. rewrite im_new_spec. constructor.
Qed.

Lemma ac_wf_clear s : ac_wf (ac_clear s) ∧ ac_clamped (ac_clear s).
Proof.
  unfold ac_clamped. split; [split|]; simpl; try lia.
  unfold ac_keys, im_keys. simpl. rewrite im_clear_spec. constructor.
Qed.

Lemma ac_rebuild_queue scope (l : list (bytes * ValueEntry)) (q : im_map ()) :
  NoDup l.*1 → (∀ k, k ∈ l.*1 → k ∉ im_keys q) → NoDup (im_keys q) →
  let q' := fold_left
    (λ q p, if in_scope scope p.2 then im_insert_before (im_len q) p.1 tt q else q) l q in
  NoDup (im_keys q') ∧
  ∀ k, k ∈ im_keys q' ↔ k ∈ im_keys q ∨ ∃ e, (k, e) ∈ l ∧ in_scope scope e = true.
Proof.
  revert q. induction l as [|[k0 e0] l IH]; intros q Hndl Hdisj Hnd; simpl.
  - split; [done|]. intros k. split; [by left|]. intros [Hk|(e & He & _)]; [done|].
    by apply not_elem_of_nil in He.
  - apply NoDup_cons in Hndl as [Hk0 Hndl].
    set (q1 := if in_scope scope e0 then im_insert_before (im_len q) k0 tt q else q).
    assert (Hq1 : im_keys q1 ≡ₚ if in_scope scope e0 then k0 :: im_keys q else im_keys q).
    { unfold q1. destruct (in_scope scope e0); [|done]. unfold im_keys.
      rewrite im_insert_before_spec.
      - by rewrite al_insert_at_perm.
      - by rewrite im_len_spec.
      - apply Hdisj. by left. }
    destruct (IH q1) as [H1 H2]; [done| | |].
    + intros k Hk. rewrite Hq1. intros Hk'. destruct (in_scope scope e0).
      * apply elem_of_cons in Hk' as [->|Hk']; [done|].
        by apply (Hdisj k); [right|].
      * by apply (Hdisj k); [right|].
    + rewrite Hq1. destruct (in_scope scope e0); [|done].
      apply NoDup_cons. split; [|done]. apply Hdisj. by left.
    + split; [done|]. intros k. rewrite H2, Hq1. clear H1 H2 IH Hq1.
      destruct (in_scope scope e0) eqn:E; setoid_rewrite elem_of_cons.
      * split.
        -- intros [[->|Hk]|(e & He & Hs)]; [right; by exists e0; auto|by left|right; by exists e; auto].
        -- intros [Hk|(e & [[= -> ->]|He] & Hs)]; [by left; right|by left; left|right; by exists e].
      * split.
        -- intros [Hk|(e & He & Hs)]; [by left|right; by exists e; auto].
        -- intros [Hk|(e & [[= -> ->]|He] & Hs)]; [by left|congruence|right; by exists e].
Qed.

Lemma ac_rebuild_spec st scope s :
  (ac_wf (ac_rebuild st scope s) ∧ ac_clamped (ac_rebuild st scope s)) ∧
  ∀ k, k ∈ ac_keys (ac_rebuild st scope s) ↔ eligible st scope k = true.
Proof.
  assert (Hnil : im_keys (im_clear (ac_queue s)) = [])
    by (unfold im_keys; by rewrite im_clear_spec).
  destruct (ac_rebuild_queue scope (hm_iter st) (im_clear (ac_queue s))) as [Hnd Hk].
  { apply hm_iter_NoDup. }
  { intros k _. rewrite Hnil. apply not_elem_of_nil. }
  { rewrite Hnil. constructor. }
  split; [split; [split; [done|]|unfold ac_clamped]; simpl; lia|].
  intros k. unfold ac_keys, ac_rebuild. simpl. rewrite Hk, Hnil. unfold eligible. split.
  - intros [Hn|(e & He & Hs)]; [by apply not_elem_of_nil in Hn|].
    apply elem_of_hm_iter in He. by rewrite He.
  - destruct (st !! k) as [e|] eqn:E; [|done]. intros Hs. right. exists e.
    by rewrite elem_of_hm_iter.
Qed.

(** ** Eviction *)

(** The reference: the last key of the list in scope. *)
Definition ac_victim (st : store) (scope : EvictionScope) (l : list bytes) : option bytes :=
  list.last (filter (λ k, eligible st scope k = true) l).

Lemma ac_scan_spec idx st scope s :
  ac_wf s → idx ≤ length (ac_keys s) →
  let r := ac_scan idx st scope s in
  r.1 = ac_victim st scope (take idx (ac_keys s)) ∧
  ac_keys r.2 = match r.1 with Some k => filter (λ k', k' ≠ k) (ac_keys s) | None => ac_keys s end ∧
  ac_jump r.2 = ac_jump s ∧ ac_scope r.2 = ac_scope s.
Proof.
  intros [Hnd _]. induction idx as [|idx IH]; intros Hle; [done|]. simpl.
  rewrite im_get_index_spec. unfold ac_keys, im_keys in *.
  destruct (im_entries (ac_queue s) !! idx) as [[k []]|] eqn:E.
  2: { apply lookup_ge_None in E. rewrite length_fmap in Hle. lia. }
  assert (Hk : (im_entries (ac_queue s)).*1 !! idx = Some k)
    by (by rewrite list_lookup_fmap, E).
  rewrite (take_S_r _ _ _ Hk). unfold ac_victim. rewrite filter_app, filter_cons, filter_nil.
  destruct (eligible st scope k) eqn:El.
  - rewrite decide_True by done. rewrite last_snoc.
    destruct (im_shift_remove_index_spec idx (ac_queue s)) as [H1 H2].
    destruct (im_shift_remove_index idx (ac_queue s)) as [r q]. simpl in *.
    rewrite H1, E. simpl. split; [done|]. split; [|done].
    rewrite H2, <- (al_remove_delete k _ _ _ Hnd E). apply al_remove_keys.
  - rewrite decide_False by done. rewrite app_nil_r. apply IH. lia.
Qed.

Lemma ac_evict_one_spec st scope s :
  ac_wf s →
  let r := ac_evict_one st scope s in
  r.1 = ac_victim st scope (ac_keys s) ∧
  ac_keys r.2 = match r.1 with Some k => filter (λ k', k' ≠ k) (ac_keys s) | None => ac_keys s end ∧
  ac_jump r.2 = ac_jump s ∧ ac_scope r.2 = ac_scope s.
Proof.
  intros Hwf. unfold ac_evict_one.
  destruct (Nat.eqb_spec (im_len (ac_queue s)) 0) as [E|E].
  - assert (Hn : ac_keys s = []) by (apply length_zero_iff_nil; by rewrite length_ac_keys).
    simpl. by rewrite Hn.
  - rewrite <- length_ac_keys.
    destruct (ac_scan_spec (length (ac_keys s)) st scope s Hwf) as (H1 & H2); [done|].
    rewrite H1, firstn_all in *. done.
Qed.

Lemma ac_evict_one_eligible st scope s k :
  (ac_evict_one st scope s).1 = Some k → eligible st scope k = true.
Proof.
  unfold ac_evict_one. destruct (_ =? 0)%nat; [done|]. generalize (im_len (ac_queue s)).
  intros idx. induction idx as [|idx IH]; simpl; [done|].
  destruct (im_get_index idx (ac_queue s)) as [[key v]|] eqn:E; [|done].
  destruct (eligible st scope key) eqn:El; [|apply IH].
  destruct (im_shift_remove_index_spec idx (ac_queue s)) as [H1 _].
  destruct (im_shift_remove_index idx (ac_queue s)) as [r q]. simpl in *.
  rewrite im_get_index_spec in E. rewrite H1, E. by intros [= <-].
Qed.

(** Removing a key clamps [jump], so a clamp before it changes nothing. *)
Lemma ac_observe_remove_clamp key s : ac_observe_remove key (clamp_jump s) = ac_observe_remove key s.
Proof.
  unfold ac_observe_remove, clamp_jump, ac_with. simpl. f_equal.
  assert (Hle : im_len (im_shift_remove key (ac_queue s)) ≤ im_len (ac_queue s)).
  { rewrite !im_len_spec, im_shift_remove_spec. apply al_remove_length. }
  set (n := im_len (im_shift_remove _ _)) in *. set (m := im_len (ac_queue s)) in *.
  destruct (Nat.eqb_spec n 0); [done|]. destruct (Nat.eqb_spec m 0); [lia|]. unfold clamp.
  repeat case_match; rewrite ?Nat.ltb_lt, ?Nat.ltb_ge in *; lia.
Qed.

(** Without a victim the list is as it was. *)
Lemma ac_evict_one_None st scope s :
  ac_wf s → (ac_evict_one st scope s).1 = None → ac_clamped s → ac_clamped (ac_evict_one st scope s).2.
Proof.
  intros Hwf Hn. destruct (ac_evict_one_spec st scope s Hwf) as (_ & Hk & Hj & _). rewrite Hn in Hk.
  unfold ac_clamped. by rewrite Hk, Hj.
Qed.

Lemma ac_wf_evict_one st scope s : ac_wf s → ac_wf (ac_evict_one st scope s).2.
Proof.
  intros Hwf. destruct (ac_evict_one_spec st scope s Hwf) as (_ & Hk & Hj & _).
  split; [rewrite Hk; case_match; [apply NoDup_filter|]; apply Hwf|rewrite Hj; apply Hwf].
Qed.

Lemma ac_victim_Some st scope l k :
  ac_victim st scope l = Some k → k ∈ l ∧ eligible st scope k = true.
Proof.
  intros Hl. apply last_Some_elem_of, list_elem_of_filter in Hl. tauto.
Qed.

Lemma ac_victim_is_Some st scope l k :
  k ∈ l → eligible st scope k = true → is_Some (ac_victim st scope l).
Proof.
  intros Hk He. unfold ac_victim.
  destruct (list.last (filter (λ k, eligible st scope k = true) l)) as [v|] eqn:E; [by exists v|].
  apply last_None in E. assert (Hf : k ∈ filter (λ k, eligible st scope k = true) l)
    by (by apply list_elem_of_filter).
  rewrite E in Hf. by apply not_elem_of_nil in Hf.
Qed.

Lemma ac_observe_remove_keys key s k :
  k ∈ ac_keys (ac_observe_remove key s) ↔ k ≠ key ∧ k ∈ ac_keys s.
Proof.
  unfold ac_observe_remove, clamp_jump, ac_keys, im_keys. simpl.
  by rewrite im_shift_remove_spec, elem_of_al_remove.
Qed.

Lemma ac_observe_insert_keys key t s k :
  k ∈ ac_keys (ac_observe_insert key t s) ↔
  if bool_decide (ac_scope s = Volatile) && negb t
  then k ≠ key ∧ k ∈ ac_keys s else k = key ∨ k ∈ ac_keys s.
Proof.
  destruct (bool_decide (ac_scope s = Volatile) && negb t) eqn:E.
  - unfold ac_observe_insert. rewrite E. apply ac_observe_remove_keys.
  - destruct (ac_observe_insert_entries key t s E) as [Hl _].
    unfold ac_keys, im_keys. rewrite Hl, al_insert_at_perm. csimpl.
    rewrite elem_of_cons, elem_of_al_remove. destruct (decide (k = key)); tauto.
Qed.

Lemma ac_observe_scope key t s :
  ac_scope (ac_observe_insert key t s) = ac_scope s ∧
  ac_scope (ac_observe_remove key s) = ac_scope s ∧
  ac_scope (ac_observe_access key s) = ac_scope s ∧
  ac_scope (ac_clear s) = ac_scope s.
Proof.
  unfold ac_observe_insert, ac_observe_access. repeat split; try done.
  - by case_match.
  - by repeat case_match.
Qed.

(** ** Reachable states *)

(** The calls the engine makes; it removes an evicted key from the list again
    when it drops it from the store. *)
Inductive ac_step (s : AdaptiveClimbState) : AdaptiveClimbState → Prop :=
| ac_step_insert key t : ac_step s (ac_observe_insert key t s)
| ac_step_access key : ac_step s (ac_observe_access key s)
| ac_step_remove key : ac_step s (ac_observe_remove key s)
| ac_step_rebuild st scope : ac_step s (ac_rebuild st scope s)
| ac_step_clear : ac_step s (ac_clear s)
| ac_step_evict st scope key :
    (ac_evict_one st scope s).1 = Some key →
    ac_step s (ac_observe_remove key (ac_evict_one st scope s).2).

Lemma ac_step_inv s s' : ac_step s s' → ac_wf s ∧ ac_clamped s → ac_wf s' ∧ ac_clamped s'.
Proof.
  intros [] [Hwf Hc].
  - by apply ac_wf_observe_insert.
  - destruct (ac_wf_observe_access key s Hwf). auto.
  - by apply ac_wf_observe_remove.
  - apply ac_rebuild_spec.
  - apply ac_wf_clear.
  - by apply ac_wf_observe_remove, ac_wf_evict_one.
Qed.

End ac.

(** C38: in every state the engine can bring the AdaptiveClimb structure to,
    the list holds no key twice and [jump] is between 1 and the length of the
    list (1 when it is empty). *)
Theorem ac_reachable_inv `{IndexMap} `{HashIter} s :
  rtc ac_step ac_new s →
  NoDup (ac_keys s) ∧ 1 ≤ ac_jump s ≤ 1 `max` length (ac_keys s).
Proof.
  intros Hr. assert (Hi : ac_wf s ∧ ac_clamped s).
  { pose proof ac_wf_new as Hi. induction Hr as [|? ? ? Hs _ IH]; [done|].
    by eapply IH, ac_step_inv. }
  destruct Hi as [[Hnd Hj] Hc]. done.
Qed.

Lemma ac_reachable_inv_witness :
  let s := ac_observe_access (str "a") (ac_observe_insert (str "a") false ac_new) in
  NoDup (ac_keys s) ∧ 1 ≤ ac_jump s ≤ 1 `max` length (ac_keys s).
Proof.
  intros s. apply (ac_reachable_inv s).
  eapply rtc_l; [apply ac_step_insert|]. eapply rtc_l; [apply ac_step_access|]. apply rtc_refl.
Defined.

(** The insertion and promotion rules put a key where the paper says. A
    write of a tracked key re-enters it at index [len - jump] of the list of
    the other keys, [jump] having been bumped up to [len]; a hit at index [p]
    decrements [jump] (not below 1) and moves the key up to [p - jump], or to
    the head, the other keys keeping their order. *)
Theorem ac_positions `{IndexMap} `{HashIter} s key :
  ac_wf s →
  (∀ t, bool_decide (ac_scope s = Volatile) && negb t = false →
     let others := filter (λ k, k ≠ key) (ac_keys s) in
     let len := length others in
     let j := insert_jump len (ac_jump s) in
     ac_jump (ac_observe_insert key t s) = j ∧
     ac_keys (ac_observe_insert key t s)
       = take (len - j) others ++ key :: drop (len - j) others) ∧
  (∀ p, ac_keys s !! p = Some key →
     let j := 1 `max` (ac_jump s - 1) in
     let others := delete p (ac_keys s) in
     ac_jump (ac_observe_access key s) = j ∧
     ac_keys (ac_observe_access key s)
       = take (p - j) others ++ key :: drop (p - j) others).
Proof.
  intros Hwf. split.
  - intros t Hsc. destruct (ac_observe_insert_entries key t s Hsc) as [Hl Hj].
    unfold ac_keys, im_keys in *. rewrite <- al_remove_keys, length_fmap.
    split; [done|]. rewrite Hl. unfold al_insert_at.
    by rewrite fmap_app, fmap_cons, fmap_take, fmap_drop.
  - intros p Hp. unfold ac_keys, im_keys in *. rewrite list_lookup_fmap in Hp.
    apply fmap_Some in Hp as ([k []] & Hp & ->). simpl in *.
    assert (Hidx : al_index_of k (im_entries (ac_queue s)) = Some p).
    { apply al_index_of_Some. split; [by eexists|]. intros i [k' []] Hi Hlt Heq. simpl in Heq. subst k'.
      destruct Hwf as [Hnd _].
      assert (i = p); [|lia]. eapply (NoDup_lookup _ _ _ k); [exact Hnd| |];
        unfold ac_keys, im_keys; rewrite list_lookup_fmap; by rewrite ?Hi, ?Hp. }
    destruct (ac_observe_access_entries k s p Hwf Hidx) as [Hl Hj].
    split; [done|]. rewrite Hl. unfold al_move. rewrite Hp. unfold al_insert_at.
    by rewrite fmap_app, fmap_cons, fmap_take, fmap_drop, list_fmap_delete.
Qed.

Definition ac_example : AdaptiveClimbState :=
  ac_observe_insert (str "c") false
    (ac_observe_insert (str "b") false (ac_observe_insert (str "a") false ac_new)).

Lemma ac_example_wf : ac_wf ac_example.
Proof. do 3 apply ac_wf_observe_insert. apply ac_wf_new. Qed.

Lemma ac_positions_witness :
  ac_keys ac_example = [str "c"; str "b"; str "a"] ∧
  ac_keys (ac_observe_access (str "a") ac_example) = [str "c"; str "a"; str "b"].
Proof.
  split; [vm_compute; reflexivity|].
  destruct (ac_positions ac_example (str "a") ac_example_wf) as [_ Hacc].
  destruct (Hacc 2) as [_ ->]; [vm_compute; reflexivity|]. vm_compute. reflexivity.
Defined.

(** AdaptiveClimb evicts from the LRU end: [evict_one] returns the last
    key of the list that is stored and in scope, and nothing only when there is
    none; the other keys keep their order. *)
Theorem ac_evict_one_last `{IndexMap} `{HashIter} st scope s :
  ac_wf s →
  let r := ac_evict_one st scope s in
  r.1 = list.last (filter (λ k, eligible st scope k = true) (ac_keys s)) ∧
  ac_keys r.2 = match r.1 with
                | Some k => filter (λ k', k' ≠ k) (ac_keys s)
                | None => ac_keys s
                end.
Proof.
  intros Hwf. destruct (ac_evict_one_spec st scope s Hwf) as (H1 & H2 & _). done.
Qed.

Lemma ac_evict_one_last_witness :
  (ac_evict_one store_example AllKeys ac_example).1 = Some (str "a").
Proof.
  destruct (ac_evict_one_last store_example AllKeys ac_example ac_example_wf) as [-> _].
  vm_compute. reflexivity.
Defined.
