(* ===== verification/Glob.v ===== *)
(** * Glob matching of key names
    (src/src/storage/engine/mod.rs, [KvEngine::glob_match])

    The matcher, on the suffixes its two indices point at, and a reading of
    patterns as sequences of tokens that it is proved to decide. *)
From S2P Require Import Prelude.
From Stdlib Require Import ZArith Lia Strings.Byte.
From stdpp Require Import gmap strings numbers list.

(** [*], [?], backslash, [[], []], [!] and [-] *)
Definition c_star : byte := x2a.
Definition c_quest : byte := x3f.
Definition c_bslash : byte := x5c.
Definition c_open : byte := x5b.
Definition c_close : byte := x5d.
Definition c_bang : byte := x21.
Definition c_dash : byte := x2d.

Definition beq (a b : byte) : bool := bool_decide (a = b).

(** A range of a class; a reversed range wraps around. *)
Definition in_range (lo hi c : byte) : bool :=
  let lo := b2z lo in let hi := b2z hi in let c := b2z c in
  (((lo <=? hi) && (lo <=? c) && (c <=? hi)) || ((hi <? lo) && ((lo <=? c) || (c <=? hi))))%Z.

(** The loop over a bracketed class, from index [k] on: whether [c] matched and
    the pattern after the closing bracket, [None] without a closing bracket. *)
Fixpoint class_loop (c : byte) (l : bytes) (matched : bool) : option (bool * bytes) :=
  match l with
  | [] => None
  | a :: l1 =>
      if beq a c_close then Some (matched, l1)
      else
        match l1 with
        | b :: l2 =>
            if beq a c_bslash then class_loop c l2 (matched || beq c b)
            else
              match l2 with
              | d :: l3 =>
                  if beq b c_dash && negb (beq d c_close)
                  then class_loop c l3 (matched || in_range a d c)
                  else class_loop c l1 (matched || beq c a)
              | [] => class_loop c l1 (matched || beq c a)
              end
        | [] => class_loop c l1 (matched || beq c a)
        end
  end.

(** The inner loop that skips a run of stars. *)
Fixpoint skip_stars (l : bytes) : bytes :=
  match l with
  | a :: l' => if beq a c_star then skip_stars l' else l
  | [] => []
  end.

(** [for i in t..=tl { if f(&txt[i..]) { return true } }] *)
Fixpoint any_suffix (f : bytes → bool) (txt : bytes) : bool :=
  f txt || match txt with [] => false | _ :: txt' => any_suffix f txt' end.

(** The class's negation mark. *)
Definition split_bang (l : bytes) : bool * bytes :=
  match l with
  | b :: l' => if beq b c_bang then (true, l') else (false, l)
  | [] => (false, l)
  end.

(** [matches]; every iteration and every recursive call is on a shorter
    pattern, so a fuel above the pattern's length is never used up. *)
Fixpoint glob_loop (fuel : nat) (pat txt : bytes) : bool :=
  match fuel with
  | O => false
  | S fuel =>
      match pat with
      | [] => match txt with [] => true | _ => false end
      | a :: pat' =>
          if beq a c_star then
            match skip_stars pat' with
            | [] => true
            | rest => any_suffix (glob_loop fuel rest) txt
            end
          else if beq a c_quest then
            match txt with [] => false | _ :: txt' => glob_loop fuel pat' txt' end
          else if beq a c_bslash then
            let pc := match pat' with b :: _ => b | [] => a end in
            match txt with
            | [] => false
            | c :: txt' => if beq c pc then glob_loop fuel (drop 1 pat') txt' else false
            end
          else if beq a c_open then
            match txt with
            | [] => false
            | c :: txt' =>
                let '(negate, l) := split_bang pat' in
                match class_loop c l false with
                | None => if beq c c_open then glob_loop fuel pat' txt' else false
                | Some (matched, rest) =>
                    if bool_decide (matched = negate) then false
                    else glob_loop fuel rest txt'
                end
            end
          else
            match txt with
            | [] => false
            | c :: txt' => if beq c a then glob_loop fuel pat' txt' else false
            end
      end
  end.

(** [KvEngine::glob_match] *)
Definition glob_match (pattern text : bytes) : bool :=
  glob_loop (S (length pattern)) pattern text.

(** ** The language of a pattern *)

Inductive class_item := ILit (c : byte) | IRange (lo hi : byte).

Inductive token :=
| TStar
| TAny
| TLit (c : byte)
| TClass (negate : bool) (items : list class_item).

Fixpoint class_items (l : bytes) : option (list class_item * bytes) :=
  match l with
  | [] => None
  | a :: l1 =>
      let lit := match class_items l1 with
                 | Some (its, rest) => Some (ILit a :: its, rest) | None => None end in
      if beq a c_close then Some ([], l1)
      else
        match l1 with
        | b :: l2 =>
            if beq a c_bslash then
              match class_items l2 with
              | Some (its, rest) => Some (ILit b :: its, rest) | None => None end
            else
              match l2 with
              | d :: l3 =>
                  if beq b c_dash && negb (beq d c_close) then
                    match class_items l3 with
                    | Some (its, rest) => Some (IRange a d :: its, rest) | None => None end
                  else lit
              | [] => lit
              end
        | [] => lit
        end
  end.

Fixpoint tokens (fuel : nat) (pat : bytes) : list token :=
  match fuel, pat with
  | O, _ | _, [] => []
  | S fuel, a :: pat' =>
      if beq a c_star then TStar :: tokens fuel (skip_stars pat')
      else if beq a c_quest then TAny :: tokens fuel pat'
      else if beq a c_bslash then
        match pat' with
        | b :: pat'' => TLit b :: tokens fuel pat''
        | [] => [TLit a]
        end
      else if beq a c_open then
        let '(negate, l) := split_bang pat' in
        match class_items l with
        | Some (its, rest) => TClass negate its :: tokens fuel rest
        | None => TLit a :: tokens fuel pat'
        end
      else TLit a :: tokens fuel pat'
  end.

(** The tokens of a pattern. *)
Definition tokenize (pat : bytes) : list token := tokens (S (length pat)) pat.

Definition item_accepts (c : byte) (i : class_item) : bool :=
  match i with ILit a => beq c a | IRange lo hi => in_range lo hi c end.

Definition token_accepts (t : token) (c : byte) : bool :=
  match t with
  | TStar => false
  | TAny => true
  | TLit a => beq c a
  | TClass negate its => xorb negate (existsb (item_accepts c) its)
  end.

(** A star stands for any run of bytes, every other token for one byte. *)
Inductive denotes : list token → bytes → Prop :=
| denotes_nil : denotes [] []
| denotes_star ts s1 s2 : denotes ts s2 → denotes (TStar :: ts) (s1 ++ s2)
| denotes_one t ts c s :
    token_accepts t c = true → denotes ts s → denotes (t :: ts) (c :: s).

(** ** The matcher decides the language *)

Lemma class_loop_items c n l m :
  length l ≤ n →
  class_loop c l m = match class_items l with
    | Some (its, rest) => Some (m || existsb (item_accepts c) its, rest)
    | None => None
    end.
Proof.
  revert l m. induction n as [|n IH]; intros [|a l1] m Hn; simpl in *; try done; try lia.
  destruct (beq a c_close); [by rewrite orb_false_r|].
  assert (Hlit : class_loop c l1 (m || beq c a) =
    match match class_items l1 with Some (its, rest) => Some (ILit a :: its, rest) | None => None end
    with Some (its, rest) => Some (m || existsb (item_accepts c) its, rest) | None => None end).
  { rewrite IH by lia. destruct (class_items l1) as [[its rest]|]; [|done].
    simpl. by rewrite orb_assoc. }
  destruct l1 as [|b l2]; [done|]. simpl in Hn.
  destruct (beq a c_bslash).
  { rewrite IH by lia. destruct (class_items l2) as [[its rest]|]; [|done].
    simpl. by rewrite orb_assoc. }
  destruct l2 as [|d l3]; [done|]. simpl in Hn.
  destruct (beq b c_dash && negb (beq d c_close)); [|done].
  rewrite IH by lia. destruct (class_items l3) as [[its rest]|]; [|done].
  simpl. by rewrite orb_assoc.
Qed.

Lemma class_items_length n l its rest :
  length l ≤ n → class_items l = Some (its, rest) → length rest < length l.
Proof.
  revert l its. induction n as [|n IH]; intros [|a l1] its Hn Hc; simpl in *; try done; try lia.
  destruct (beq a c_close); [simplify_eq; lia|].
  assert (Hlit : ∀ its', match class_items l1 with
    | Some (its, rest) => Some (ILit a :: its, rest) | None => None end = Some (its', rest) →
    length rest < S (length l1)).
  { intros its' H. destruct (class_items l1) as [[is0 r0]|] eqn:E; [|done]. simplify_eq.
    apply IH in E; lia. }
  destruct l1 as [|b l2]; [by eapply Hlit|].
  destruct (beq a c_bslash).
  { destruct (class_items l2) as [[is0 r0]|] eqn:E; [|done]. simplify_eq.
    apply IH in E; simpl in *; lia. }
  destruct l2 as [|d l3]; [by eapply Hlit|].
  destruct (beq b c_dash && negb (beq d c_close)); [|by eapply Hlit].
  destruct (class_items l3) as [[is0 r0]|] eqn:E; [|done]. simplify_eq.
  apply IH in E; simpl in *; lia.
Qed.

Lemma skip_stars_length l : length (skip_stars l) ≤ length l.
Proof. induction l as [|a l IH]; simpl; [done|]. case_match; simpl; lia. Qed.

Lemma split_bang_length l : length (split_bang l).2 ≤ length l.
Proof. destruct l as [|a l]; simpl; [done|]. case_match; simpl; lia. Qed.

Lemma any_suffix_true f txt :
  any_suffix f txt = true ↔ ∃ s1 s2, txt = s1 ++ s2 ∧ f s2 = true.
Proof.
  induction txt as [|c txt IH]; simpl.
  - rewrite orb_false_r. split.
    + intros H. by exists [], [].
    + intros ([|] & [|] & H & Hf); try done.
  - rewrite orb_true_iff, IH. split.
    + intros [H|(s1 & s2 & -> & H)]; [by exists [], (c :: txt)|by exists (c :: s1), s2].
    + intros ([|c' s1] & s2 & H & Hf); simpl in *; [left; by subst|].
      simplify_eq. right. eauto.
Qed.

Lemma denotes_star_iff ts s :
  denotes (TStar :: ts) s ↔ ∃ s1 s2, s = s1 ++ s2 ∧ denotes ts s2.
Proof.
  split.
  - inversion 1; subst; eauto. done.
  - intros (s1 & s2 & -> & H). by constructor.
Qed.

Lemma denotes_one_iff t ts s :
  t ≠ TStar →
  denotes (t :: ts) s ↔ ∃ c s', s = c :: s' ∧ token_accepts t c = true ∧ denotes ts s'.
Proof.
  intros Ht. split.
  - inversion 1; subst; [done|]. eauto.
  - intros (c & s' & -> & H1 & H2). by apply denotes_one.
Qed.

Lemma glob_loop_denotes fuel pat txt :
  length pat < fuel → glob_loop fuel pat txt = true ↔ denotes (tokens fuel pat) txt.
Proof.
  revert pat txt. induction fuel as [|fuel IH]; intros pat txt Hf; [lia|].
  assert (Hone : ∀ t rest, t ≠ TStar → length rest < fuel →
    denotes (t :: tokens fuel rest) txt ↔
    ∃ c s', txt = c :: s' ∧ token_accepts t c = true ∧ glob_loop fuel rest s' = true).
  { intros t rest Ht Hr. rewrite denotes_one_iff by done. by setoid_rewrite IH. }
  destruct pat as [|a pat].
  { simpl. destruct txt; split; try done; [by constructor|by inversion 1]. }
  simpl in Hf. cbn [glob_loop tokens].
  destruct (beq a c_star).
  { pose proof (skip_stars_length pat). destruct (skip_stars pat) as [|b rest] eqn:E.
    - split; [|done]. intros _. rewrite denotes_star_iff. exists txt, [].
      rewrite app_nil_r. split; [done|]. destruct fuel; constructor.
    - rewrite any_suffix_true, denotes_star_iff. simpl in *.
      setoid_rewrite IH; [done|simpl; lia]. }
  destruct (beq a c_quest).
  { rewrite Hone by (done || lia). destruct txt as [|c txt]; split; try done.
    - by intros (? & ? & ? & _).
    - eauto.
    - by intros (? & ? & [= -> ->] & _ & H). }
  destruct (beq a c_bslash).
  { destruct pat as [|b pat].
    - simpl. rewrite denotes_one_iff by done. destruct txt as [|c txt].
      { split; [done|]. by intros (? & ? & ? & _). }
      destruct fuel as [|fuel]; [simpl in Hf; lia|]. simpl.
      split.
      + intros H. destruct (beq c a) eqn:E; [|done]. destruct txt; [|done].
        exists c, []. split; [done|]. split; [done|constructor].
      + intros (? & ? & [= -> ->] & -> & H). by inversion H.
    - simpl. simpl in Hf. rewrite Hone by (done || lia). destruct txt as [|c txt]; split; try done.
      + by intros (? & ? & ? & _).
      + destruct (beq c b) eqn:E; [|done]. rewrite drop_0. eauto.
      + intros (? & ? & [= -> ->] & Ha & H). simpl in Ha. by rewrite Ha, drop_0. }
  destruct (beq a c_open) eqn:Eo.
  { pose proof (split_bang_length pat) as Hb. destruct (split_bang pat) as [negate l]. simpl in Hb.
    destruct (class_items l) as [[its rest]|] eqn:Ec.
    - pose proof (class_items_length _ _ _ _ (le_n _) Ec).
      rewrite Hone by (done || lia). destruct txt as [|c txt]; split; try done.
      + by intros (? & ? & ? & _).
      + rewrite (class_loop_items c (length l)), Ec by done. simpl.
        case_bool_decide as Hm; [done|]. intros H2. exists c, txt. split; [done|].
        split; [|done]. simpl. by destruct (existsb _ its), negate.
      + intros (? & ? & [= <- <-] & Ha & H2). simpl in Ha.
        rewrite (class_loop_items c (length l)), Ec by done. simpl.
        rewrite bool_decide_false; [done|]. by destruct (existsb _ its), negate.
    - rewrite Hone by (done || lia). destruct txt as [|c txt]; split; try done.
      + by intros (? & ? & ? & _).
      + rewrite (class_loop_items c (length l)), Ec by done.
        apply bool_decide_eq_true in Eo as ->.
        destruct (beq c c_open) eqn:E; [|done]. eauto.
      + apply bool_decide_eq_true in Eo as ->.
        intros (? & ? & [= <- <-] & Ha & H2). simpl in Ha.
        rewrite (class_loop_items c (length l)), Ec by done. by rewrite Ha. }
  rewrite Hone by (done || lia). destruct txt as [|c txt]; split; try done.
  - by intros (? & ? & ? & _).
  - destruct (beq c a) eqn:E; [|done]. eauto.
  - intros (? & ? & [= -> ->] & Ha & H). simpl in Ha. by rewrite Ha.
Qed.

(** C40: the key filter of the dashboard browser decides the glob language:
    [glob_match] accepts a key exactly when the tokens of the pattern (star,
    question mark, classes with ranges and negation, escapes, an unclosed
    bracket as a literal) denote it. *)
Theorem glob_match_correct pattern text :
  glob_match pattern text = true ↔ denotes (tokenize pattern) text.
Proof. apply glob_loop_denotes. lia. Qed.

Example glob_ex1 : glob_match (str "user:*") (str "user:42") = true.
Proof. reflexivity. Qed.
Example glob_ex2 : glob_match (str "k[!a-c]?") (str "kb1") = false.
Proof. reflexivity. Qed.
Example glob_ex3 : glob_match (str "a[b") (str "a[b") = true.
Proof. reflexivity. Qed.
