(* ===== verification/Aof.v ===== *)
(** * The append-only file writer
    (src/src/persistence/writer.rs and config.rs)

    The buffered log file with its durable prefix, every append, the
    [appendfsync always] barrier, the background flusher's tick and the rewrite
    swap. The disk is a script of the outcomes of the system calls to come: a
    failing write may have stored a prefix of its bytes. *)
From S2P Require Import Prelude Numeric Error Encoder.
From Stdlib Require Import ZArith Lia.
From stdpp Require Import gmap strings numbers list.
Local Open Scope Z_scope.

Inductive FsyncPolicy := Always | EverySec | No.

#[export] Instance FsyncPolicy_eq_dec : EqDecision FsyncPolicy.
Proof. solve_decision. Defined.

(** [FsyncPolicy::parse]; the error carries the rejected text. *)
Definition parse_fsync (input : bytes) : result bytes FsyncPolicy :=
  let s := map to_lower (trim input) in
  if bytes_eqb s (str "always") then Ok Always
  else if bytes_eqb s (str "everysec") then Ok EverySec
  else if bytes_eqb s (str "no") then Ok No
  else Err s.

(** [AofConfig] *)
Record AofConfig := { cfg_path : bytes; cfg_fsync : FsyncPolicy }.
#[export] Instance AofConfig_eq_dec : EqDecision AofConfig.
Proof. solve_decision. Defined.

Definition AofConfig_default : AofConfig := {| cfg_path := str "ferrum.aof"; cfg_fsync := EverySec |}.

(** ** Files behind a [BufWriter] *)

(** The outcome of one system call. *)
Inductive Disk := DOk | DFail (written : nat) (msg : bytes).

(** A file's contents as the system sees them, how much of it survives a power
    failure, and the bytes still in the process's buffer. *)
Record BufFile := { f_data : bytes; f_durable : nat; f_buf : bytes }.

Abbreviation Io := (SE (BufFile * list Disk) bytes).

Definition next_outcome (d : list Disk) : Disk * list Disk :=
  match d with [] => (DOk, []) | o :: d' => (o, d') end.

(** A system call that does not write. *)
Definition os_call : Io () := λ '(f, d),
  match next_outcome d with
  | (DOk, d') => (Ok tt, (f, d'))
  | (DFail _ m, d') => (Err m, (f, d'))
  end.

(** [File::write_all]; returns how much was written before a failure. *)
Definition os_write (bs : bytes) : SE (BufFile * list Disk) (nat * bytes) () := λ '(f, d),
  let put n := {| f_data := f_data f ++ take n bs; f_durable := f_durable f; f_buf := f_buf f |} in
  match next_outcome d with
  | (DOk, d') => (Ok tt, (put (length bs), d'))
  | (DFail n m, d') => (Err (n, m), (put n, d'))
  end.

Definition set_buf (b : bytes) : Io () := λ '(f, d),
  (Ok tt, ({| f_data := f_data f; f_durable := f_durable f; f_buf := b |}, d)).

(** [BufWriter::flush]: the part of the buffer a failing write stored leaves
    the buffer. *)
Definition bw_flush : Io () := λ s,
  let b := f_buf s.1 in
  match os_write b s with
  | (Ok tt, s') => set_buf [] s'
  | (Err (n, m), s') => (Err m, (set_buf (drop n b) s').2)
  end.

Definition bw_push (bs : bytes) : Io () := λ s, set_buf (f_buf s.1 ++ bs) s.

(** A write that bypasses the buffer. *)
Definition bw_direct (bs : bytes) : Io () := λ s,
  match os_write bs s with
  | (Ok tt, s') => (Ok tt, s')
  | (Err (_, m), s') => (Err m, s')
  end.

(** [BufWriter::write_all] with the given capacity. *)
Definition bw_write_all (cap : Z) (bs : bytes) : Io () :=
  spare ← gets (λ s, cap - blen (f_buf s.1));
  if blen bs <? spare then bw_push bs
  else
    (if spare <? blen bs then bw_flush else mret tt);;
    if cap <=? blen bs then bw_direct bs else bw_push bs.

(** [File::sync_data]/[sync_all] *)
Definition os_sync : Io () :=
  os_call;;
  modify (λ '(f, d), ({| f_data := f_data f; f_durable := length (f_data f); f_buf := f_buf f |}, d)).

(** The default capacity of a [BufWriter]. *)
Definition BUFWRITER_CAP : Z := 8192.

(** ** The writer *)

Definition DEFAULT_DELTA_CAP : Z := 64 * 1024 * 1024.

Record AofWriter := {
  w_inner : BufFile;
  w_disk : list Disk;
  w_seq : Z;
  w_synced : Z;
  w_fsyncs : Z;
  w_fsync_skips : Z;
  w_policy : FsyncPolicy;
  w_rewriting : bool;
  w_delta : bytes;
  w_delta_cap : Z;
}.

Definition set_io (f : BufFile) (d : list Disk) (w : AofWriter) : AofWriter :=
  {| w_inner := f; w_disk := d; w_seq := w_seq w; w_synced := w_synced w;
     w_fsyncs := w_fsyncs w; w_fsync_skips := w_fsync_skips w; w_policy := w_policy w;
     w_rewriting := w_rewriting w; w_delta := w_delta w; w_delta_cap := w_delta_cap w |}.
Definition set_counters (seq synced fsyncs skips : Z) (w : AofWriter) : AofWriter :=
  {| w_inner := w_inner w; w_disk := w_disk w; w_seq := seq; w_synced := synced;
     w_fsyncs := fsyncs; w_fsync_skips := skips; w_policy := w_policy w;
     w_rewriting := w_rewriting w; w_delta := w_delta w; w_delta_cap := w_delta_cap w |}.
Definition set_rewrite (rw : bool) (delta : bytes) (w : AofWriter) : AofWriter :=
  {| w_inner := w_inner w; w_disk := w_disk w; w_seq := w_seq w; w_synced := w_synced w;
     w_fsyncs := w_fsyncs w; w_fsync_skips := w_fsync_skips w; w_policy := w_policy w;
     w_rewriting := rw; w_delta := delta; w_delta_cap := w_delta_cap w |}.

Abbreviation WM := (SE AofWriter FerrumError).

(** An operation on the log file, its error rendered by [err]. *)
Definition lift_io {A} (err : bytes → FerrumError) (m : Io A) : WM A := λ w,
  let '(r, (f, d)) := m (w_inner w, w_disk w) in
  (match r with Ok a => Ok a | Err e => Err (err e) end, set_io f d w).

Definition persist_err (what : string) (e : bytes) : FerrumError :=
  PersistenceError (str what ++ e).

(** [AofWriter::open] on a file that already holds [existing]. *)
Definition open (policy : FsyncPolicy) (existing : bytes) (disk : list Disk) : AofWriter := {|
  w_inner := {| f_data := existing; f_durable := length existing; f_buf := [] |};
  w_disk := disk;
  w_seq := 0; w_synced := 0; w_fsyncs := 0; w_fsync_skips := 0;
  w_policy := policy; w_rewriting := false; w_delta := []; w_delta_cap := DEFAULT_DELTA_CAP;
|}.

(** The mirroring of an append into the rewrite's delta buffer. *)
Definition mirror_delta (bs : bytes) : WM () :=
  modify (λ w,
    if w_rewriting w then
      if w_delta_cap w <? blen (w_delta w) + blen bs then set_rewrite false [] w
      else set_rewrite true (w_delta w ++ bs) w
    else w).

(** [AofWriter::write_bytes] *)
Definition write_bytes (bs : bytes) : WM () :=
  lift_io (persist_err "aof write failed: ") (bw_write_all BUFWRITER_CAP bs);;
  policy ← gets w_policy;
  match policy with
  | Always =>
      lift_io (persist_err "aof flush failed: ") bw_flush;;
      modify (λ w, set_counters (wrap64 (w_seq w + 1)) (w_synced w) (w_fsyncs w) (w_fsync_skips w) w)
  | EverySec | No => mret tt
  end;;
  mirror_delta bs.

(** [AofWriter::append] and the record-specific appends *)
Definition append_record (parts : list bytes) : WM () := write_bytes (encode_command parts).
Definition append_set (key value : bytes) : WM () := append_record [str "SET"; key; value].
Definition append_set_many (pairs : list (bytes * bytes)) : WM () :=
  match pairs with
  | [] => mret tt
  | _ => write_bytes (concat (map (λ p, encode_command [str "SET"; p.1; p.2]) pairs))
  end.
Definition append_del (key : bytes) : WM () := append_record [str "DEL"; key].
Definition append_flushdb : WM () := append_record [str "FLUSHDB"].
Definition append_pexpireat (key : bytes) (abs_epoch_ms : Z) : WM () :=
  append_record [str "PEXPIREAT"; key; to_string_i abs_epoch_ms].
Definition append_persist (key : bytes) : WM () := append_record [str "PERSIST"; key].

(** [AofWriter::sync_if_needed], run to its end by one caller. *)
Definition sync_if_needed : WM () :=
  w ← gets id;
  if negb (bool_decide (w_policy w = Always)) then mret tt
  else if w_seq w <=? w_synced w then mret tt
  else
    lift_io (persist_err "aof flush failed: ") bw_flush;;
    lift_io (persist_err "aof fsync failed: ") os_sync;;
    modify (λ w', set_counters (w_seq w') (Z.max (w_synced w') (w_seq w))
                    (wrap64 (w_fsyncs w' + 1)) (w_fsync_skips w') w').

(** One round of the [ferrum-aof-fsync] thread: flush, then fsync; failures are
    only logged. *)
Definition flusher_tick : WM () :=
  r ← attempt (lift_io (persist_err "aof flush failed: ") bw_flush);
  match r with
  | Err _ => mret tt
  | Ok _ => attempt (lift_io (persist_err "aof fsync failed: ") os_sync);; mret tt
  end.

(** [Drop for AofWriter], after the flusher thread has stopped. *)
Definition writer_drop : WM () :=
  attempt (lift_io (persist_err "aof flush failed: ") bw_flush);;
  attempt (lift_io (persist_err "aof fsync failed: ") os_sync);;
  mret tt.

(** [AofWriter::try_begin_rewrite] and [abort_rewrite] *)
Definition try_begin_rewrite : WM bool := λ w,
  if w_rewriting w then (Ok false, w) else (Ok true, set_rewrite true (w_delta w) w).
Definition abort_rewrite : WM () := modify (set_rewrite false []).

(** [serialise_compact_aof]: the records of a snapshot, through a 64 KiB
    buffered writer on the temporary file. *)
Definition compact_record (e : bytes * bytes * option Z) : list bytes :=
  let '(k, v, ttl) := e in
  encode_command [str "SET"; k; v] ::
  match ttl with
  | Some abs_ms => [encode_command [str "PEXPIREAT"; k; to_string_i abs_ms]]
  | None => []
  end.

Definition io_err {A} (what : string) (m : Io A) : SE (BufFile * list Disk) FerrumError A := λ s,
  let '(r, s') := m s in
  (match r with Ok a => Ok a | Err e => Err (persist_err what e) end, s').

Definition serialise_compact_aof (snapshot : list (bytes * bytes * option Z)) : WM BufFile := λ w,
  let temp := {| f_data := []; f_durable := 0; f_buf := [] |} in
  let '(r, (f, d)) :=
    (io_err "aof rewrite create temp failed: " os_call;;
     for_each (concat (map compact_record snapshot))
       (λ rec, io_err "aof rewrite write temp failed: " (bw_write_all (64 * 1024) rec));;
     io_err "aof rewrite flush temp failed: " bw_flush;;
     io_err "aof rewrite fsync temp failed: " os_sync) (temp, w_disk w) in
  (match r with Ok _ => Ok f | Err e => Err e end, set_io (w_inner w) d w).

(** The part of [AofWriter::finish_rewrite] that runs under the locks: the new file
    is opened and takes the place of the old one, and the delta is replayed onto it. *)
Definition install_rewrite (temp : BufFile) : WM () :=
  lift_io (persist_err "aof reopen failed: ") os_call;;
  lift_io (persist_err "aof reopen failed: ") os_call;;
  modify (λ w, set_counters 0 0 (w_fsyncs w) (w_fsync_skips w)
                 (set_io {| f_data := f_data temp; f_durable := f_durable temp; f_buf := [] |}
                         (w_disk w) w));;
  delta ← gets w_delta;
  match delta with
  | [] => mret tt
  | _ =>
      lift_io (persist_err "aof rewrite delta replay failed: ") (bw_write_all BUFWRITER_CAP delta);;
      lift_io (persist_err "aof rewrite delta flush failed: ") bw_flush;;
      lift_io (persist_err "aof rewrite delta fsync failed: ") os_sync
  end;;
  modify (set_rewrite false []).

(** [AofWriter::finish_rewrite] with the temporary file it swaps in; the rename
    error's text, which names the two paths, is [rename_err]. *)
Definition finish_rewrite (rename_err : bytes → FerrumError) (temp : BufFile) : WM () :=
  rw ← gets w_rewriting;
  if negb rw then mret tt
  else lift_io rename_err os_call;; install_rewrite temp.

(** ** Lemmas on buffered files *)

(** Everything handed to the file so far, in order. *)
Definition stream (f : BufFile) : bytes := f_data f ++ f_buf f.

(** [f'] holds at least the bytes of [f], as durably. *)
Record extends (f f' : BufFile) : Prop := {
  extends_data : f_data f `prefix_of` f_data f';
  extends_durable : (f_durable f ≤ f_durable f')%nat;
  extends_valid : (f_durable f ≤ length (f_data f) → f_durable f' ≤ length (f_data f'))%nat;
}.

Lemma extends_refl f : extends f f.
Proof. by split. Qed.

Lemma extends_trans f1 f2 f3 : extends f1 f2 → extends f2 f3 → extends f1 f3.
Proof. intros [] []. split; [by etrans|lia|auto]. Qed.

Lemma os_write_spec bs f d r f' d' :
  os_write bs (f, d) = (r, (f', d')) →
  extends f f' ∧ f_buf f' = f_buf f ∧ f_durable f' = f_durable f ∧
  match r with
  | Ok _ => f_data f' = f_data f ++ bs
  | Err (n, _) => f_data f' = f_data f ++ take n bs
  end.
Proof.
  unfold os_write. destruct (next_outcome d) as [[|n m] d2]; intros [= <- <- <-]; simpl.
  - rewrite firstn_all. split; [|done].
    split; simpl; [by eexists|done|rewrite length_app; lia].
  - split; [|done]. split; simpl; [by eexists|done|rewrite length_app; lia].
Qed.

Lemma bw_flush_spec f d r f' d' :
  bw_flush (f, d) = (r, (f', d')) →
  extends f f' ∧ stream f' = stream f ∧ f_durable f' = f_durable f ∧
  (r = Ok tt → f_buf f' = [] ∧ f_data f' = stream f).
Proof.
  unfold bw_flush, stream. cbn [fst].
  destruct (os_write (f_buf f) (f, d)) as [[[]|[n m]] [f1 d1]] eqn:E;
    apply os_write_spec in E as (He & Hb & Hd & Hdata); unfold set_buf; simpl; intros [= <- <- <-]; simpl.
  - rewrite Hdata. split; [split; simpl; rewrite <- ?Hdata; apply He|].
    split; [by rewrite app_nil_r|]. done.
  - rewrite Hdata. split; [split; simpl; rewrite <- ?Hdata; apply He|].
    split; [by rewrite <- app_assoc, take_drop|]. done.
Qed.

Lemma bw_push_spec bs f d r f' d' :
  bw_push bs (f, d) = (r, (f', d')) →
  r = Ok tt ∧ extends f f' ∧ stream f' = stream f ++ bs ∧ f_durable f' = f_durable f.
Proof.
  intros [= <- <- <-]. unfold stream. simpl. rewrite app_assoc. by repeat split.
Qed.

Lemma bw_direct_spec bs f d r f' d' :
  f_buf f = [] → bw_direct bs (f, d) = (r, (f', d')) →
  extends f f' ∧ f_durable f' = f_durable f ∧
  match r with
  | Ok _ => stream f' = stream f ++ bs
  | Err _ => ∃ n, stream f' = stream f ++ take n bs
  end.
Proof.
  intros Hb. unfold bw_direct, stream.
  destruct (os_write bs (f, d)) as [[[]|[n m]] [f1 d1]] eqn:E;
    apply os_write_spec in E as (He & Hb' & Hd & Hdata); intros [= <- <- <-];
    rewrite Hb', Hb, Hdata, !app_nil_r; eauto.
Qed.

(** A buffered write adds its bytes at the end of the stream; a failing one
    adds at most a prefix of them and loses nothing that was there. *)
Lemma bw_write_all_spec cap bs f d r f' d' :
  0 < cap → bw_write_all cap bs (f, d) = (r, (f', d')) →
  extends f f' ∧ f_durable f' = f_durable f ∧
  match r with
  | Ok _ => stream f' = stream f ++ bs
  | Err _ => ∃ n, stream f' = stream f ++ take n bs
  end.
Proof.
  intros Hcap. unfold bw_write_all, gets. unfold mbind at 1, se_bind at 1. cbn beta iota.
  destruct (blen bs <? cap - blen (f_buf (f, d).1)) eqn:E1.
  { intros Hp. apply bw_push_spec in Hp as (-> & He & Hs & Hd). done. }
  simpl in E1. unfold mbind, se_bind.
  destruct (cap - blen (f_buf (f, d).1) <? blen bs) eqn:E2; simpl in E2.
  - destruct (bw_flush (f, d)) as [[[]|m] [f1 d1]] eqn:Ef;
      apply bw_flush_spec in Ef as (He & Hs & Hd & Hok).
    + destruct (Hok eq_refl) as [Hb _]. destruct (cap <=? blen bs); intros Hp.
      * apply bw_direct_spec in Hp as (He' & Hd' & Hr); [|done].
        split; [by eapply extends_trans|]. split; [congruence|]. destruct r; [congruence|]. destruct Hr as [n Hr]. exists n. congruence.
      * apply bw_push_spec in Hp as (-> & He' & Hs' & Hd').
        split; [by eapply extends_trans|]. split; [congruence|]. by rewrite Hs', Hs.
    + intros [= <- <- <-]. split; [done|]. split; [done|]. exists 0%nat.
      simpl. by rewrite app_nil_r.
  - unfold mret, se_ret. destruct (cap <=? blen bs) eqn:E3; intros Hp.
    + apply bw_direct_spec in Hp; [done|].
      destruct (f_buf f) eqn:Eb; [done|]. bool_to_prop.
      unfold blen in *. simpl in *. lia.
    + apply bw_push_spec in Hp as (-> & He & Hs & Hd). done.
Qed.

Lemma os_sync_spec f d r f' d' :
  os_sync (f, d) = (r, (f', d')) →
  (f_durable f ≤ length (f_data f))%nat →
  extends f f' ∧ stream f' = stream f ∧ f_buf f' = f_buf f ∧ f_data f' = f_data f ∧
  (r = Ok tt → f_durable f' = length (f_data f')).
Proof.
  unfold os_sync, mbind, se_bind, os_call.
  destruct (next_outcome d) as [[|n m] d1]; intros [= <- <- <-] Hd; simpl.
  - split; [|done]. by split; simpl.
  - split; [apply extends_refl|done].
Qed.

(** ** Lemmas on the writer *)

Lemma lift_io_inv {A} err (m : Io A) w r w' :
  lift_io err m w = (r, w') →
  ∃ r0 f d, m (w_inner w, w_disk w) = (r0, (f, d)) ∧ w' = set_io f d w ∧
    r = match r0 with Ok a => Ok a | Err e => Err (err e) end.
Proof.
  unfold lift_io. destruct (m (w_inner w, w_disk w)) as [r0 [f d]].
  intros [= <- <-]. eauto 10.
Qed.

(** The file part of a writer is untouched by the bookkeeping. *)
Lemma mirror_delta_inner bs w :
  (mirror_delta bs w).1 = Ok tt ∧ w_inner (mirror_delta bs w).2 = w_inner w ∧
  w_seq (mirror_delta bs w).2 = w_seq w ∧ w_synced (mirror_delta bs w).2 = w_synced w ∧
  w_policy (mirror_delta bs w).2 = w_policy w.
Proof. unfold mirror_delta. simpl. by repeat case_match. Qed.

Lemma write_bytes_spec bs w r w' :
  write_bytes bs w = (r, w') →
  extends (w_inner w) (w_inner w') ∧ w_policy w' = w_policy w ∧ w_synced w' = w_synced w ∧
  f_durable (w_inner w') = f_durable (w_inner w) ∧
  match r with
  | Ok _ =>
      stream (w_inner w') = stream (w_inner w) ++ bs ∧
      (w_policy w = Always → f_buf (w_inner w') = [] ∧ w_seq w' = wrap64 (w_seq w + 1)) ∧
      (w_policy w ≠ Always → w_seq w' = w_seq w)
  | Err _ =>
      w_seq w' = w_seq w ∧ ∃ n, stream (w_inner w') = stream (w_inner w) ++ take n bs
  end.
Proof.
  unfold write_bytes, mbind, se_bind.
  destruct (lift_io _ (bw_write_all BUFWRITER_CAP bs) w) as [r1 w1] eqn:E1.
  apply lift_io_inv in E1 as (r0 & f1 & d1 & E1 & -> & ->).
  apply bw_write_all_spec in E1 as (He & Hd & Hs); [|done].
  destruct r0 as [[]|e]; [|by intros [= <- <-]].
  unfold gets. simpl.
  pose proof (mirror_delta_inner bs) as Hm.
  destruct (w_policy w) eqn:Ep.
  - destruct (lift_io _ bw_flush (set_io f1 d1 w)) as [r2 w2] eqn:E2.
    apply lift_io_inv in E2 as (r0 & f2 & d2 & E2 & -> & ->). simpl in E2.
    apply bw_flush_spec in E2 as (He2 & Hs2 & Hd2 & Hok).
    destruct r0 as [[]|e].
    + cbn [modify]. unfold modify.
      specialize (Hm (set_counters (wrap64 (w_seq (set_io f2 d2 (set_io f1 d1 w)) + 1))
        (w_synced (set_io f2 d2 (set_io f1 d1 w))) (w_fsyncs (set_io f2 d2 (set_io f1 d1 w)))
        (w_fsync_skips (set_io f2 d2 (set_io f1 d1 w))) (set_io f2 d2 (set_io f1 d1 w)))).
      destruct (mirror_delta bs _) as [r3 w3]. simpl in Hm.
      destruct Hm as (-> & Hi & Hq & Hy & Hp). intros [= <- <-].
      rewrite Hi, Hq, Hy, Hp. simpl. destruct (Hok eq_refl) as [Hb _].
      split; [by eapply extends_trans|]. split; [done|]. split; [done|]. split; [congruence|].
      split; [congruence|]. done.
    + intros [= <- <-]. simpl. split; [by eapply extends_trans|]. split; [done|].
      split; [done|]. split; [congruence|]. split; [done|].
      exists (length bs). rewrite firstn_all. congruence.
  - unfold mret, se_ret. specialize (Hm (set_io f1 d1 w)).
    destruct (mirror_delta bs _) as [r3 w3]. simpl in Hm.
    destruct Hm as (-> & Hi & Hq & Hy & Hp). intros [= <- <-].
    rewrite Hi, Hq, Hy, Hp. simpl. done.
  - unfold mret, se_ret. specialize (Hm (set_io f1 d1 w)).
    destruct (mirror_delta bs _) as [r3 w3]. simpl in Hm.
    destruct Hm as (-> & Hi & Hq & Hy & Hp). intros [= <- <-].
    rewrite Hi, Hq, Hy, Hp. simpl. done.
Qed.

(** The counters and the file of a writer in use: the barrier never claims
    batches that were not flushed, and the durable part is part of the file. *)
Record aof_wf (w : AofWriter) : Prop := {
  aof_wf_synced : 0 ≤ w_synced w ≤ w_seq w;
  aof_wf_durable : (f_durable (w_inner w) ≤ length (f_data (w_inner w)))%nat;
}.

Lemma sync_if_needed_spec w r w' :
  aof_wf w → sync_if_needed w = (r, w') →
  aof_wf w' ∧ extends (w_inner w) (w_inner w') ∧
  stream (w_inner w') = stream (w_inner w) ∧
  (r = Ok tt → w_policy w = Always → w_synced w < w_seq w →
     f_buf (w_inner w') = [] ∧ f_durable (w_inner w') = length (f_data (w_inner w')) ∧
     w_synced w' = w_seq w').
Proof.
  intros [Hs Hd]. unfold sync_if_needed, gets, mbind, se_bind. cbn beta iota. unfold id.
  destruct (negb (bool_decide (w_policy w = Always))) eqn:Ep.
  { intros [= <- <-]. split; [done|]. split; [apply extends_refl|]. split; [done|].
    intros _ Hp. by rewrite bool_decide_true in Ep. }
  destruct (w_seq w <=? w_synced w) eqn:Eq.
  { intros [= <- <-]. split; [done|]. split; [apply extends_refl|]. split; [done|].
    bool_to_prop. lia. }
  destruct (lift_io _ bw_flush w) as [r1 w1] eqn:E1.
  apply lift_io_inv in E1 as (r0 & f1 & d1 & E1 & -> & ->).
  apply bw_flush_spec in E1 as (He1 & Hs1 & Hd1 & Hok1).
  assert (Hv1 : (f_durable f1 ≤ length (f_data f1))%nat) by (by apply He1).
  destruct r0 as [[]|e]; [|intros [= <- <-]; simpl; split; [by split|done]].
  destruct (lift_io _ os_sync _) as [r2 w2] eqn:E2.
  apply lift_io_inv in E2 as (r0 & f2 & d2 & E2 & -> & ->). simpl in E2.
  apply os_sync_spec in E2 as (He2 & Hs2 & Hb2 & Hf2 & Hok2); [|done].
  assert (He : extends (w_inner w) f2) by (by eapply extends_trans).
  assert (Hv2 : (f_durable f2 ≤ length (f_data f2))%nat) by (by apply He).
  destruct r0 as [[]|e].
  - intros [= <- <-]. simpl. destruct (Hok1 eq_refl) as [Hb1 _].
    split; [split; simpl; [lia|done]|]. split; [done|]. split; [congruence|].
    intros _ _ _. split; [congruence|]. split; [auto|]. lia.
  - intros [= <- <-]. simpl. split; [by split|]. split; [done|]. split; [congruence|done].
Qed.

Lemma flusher_tick_spec w :
  aof_wf w →
  aof_wf (flusher_tick w).2 ∧ extends (w_inner w) (w_inner (flusher_tick w).2) ∧
  stream (w_inner (flusher_tick w).2) = stream (w_inner w).
Proof.
  intros [Hs Hd]. unfold flusher_tick, attempt, mbind, se_bind.
  destruct (lift_io _ bw_flush w) as [r1 w1] eqn:E1.
  apply lift_io_inv in E1 as (r0 & f1 & d1 & E1 & -> & ->).
  apply bw_flush_spec in E1 as (He1 & Hs1 & Hd1 & Hok1).
  assert (Hv1 : (f_durable f1 ≤ length (f_data f1))%nat) by (by apply He1).
  destruct r0 as [[]|e]; simpl; [|split; [by split|done]].
  destruct (lift_io _ os_sync _) as [r2 w2] eqn:E2.
  apply lift_io_inv in E2 as (r0 & f2 & d2 & E2 & -> & ->). simpl in E2.
  apply os_sync_spec in E2 as (He2 & Hs2 & Hb2 & Hf2 & Hok2); [|done].
  assert (He : extends (w_inner w) f2) by (by eapply extends_trans).
  simpl. split; [split; [done|by apply He]|]. split; [done|congruence].
Qed.

(** an append is exact. When [write_bytes] succeeds, the log (file and
    buffer together) is the old log followed by exactly the record's bytes; when
    it fails, the log is the old one followed by a prefix of the record, and
    nothing that was logged before is lost or reordered. *)
Theorem write_bytes_appends bs w :
  match write_bytes bs w with
  | (Ok _, w') => stream (w_inner w') = stream (w_inner w) ++ bs
  | (Err _, w') => ∃ n, stream (w_inner w') = stream (w_inner w) ++ take n bs
  end.
Proof.
  destruct (write_bytes bs w) as [r w'] eqn:E. apply write_bytes_spec in E.
  destruct E as (_ & _ & _ & _ & E).
  destruct r; [by destruct E as [? _]|by destruct E as [_ ?]].
Qed.



(** What was made durable stays durable: neither appends, failing ones
    included, nor barriers, nor the background flusher ever shrink the durable
    part of the log or change its bytes. *)
Theorem durable_monotone w w' :
  aof_wf w →
  (∃ bs, w' = (write_bytes bs w).2) ∨ w' = (sync_if_needed w).2 ∨ w' = (flusher_tick w).2 →
  (f_durable (w_inner w) ≤ f_durable (w_inner w'))%nat ∧
  take (f_durable (w_inner w)) (f_data (w_inner w')) = take (f_durable (w_inner w)) (f_data (w_inner w)).
Proof.
  intros Hwf Hstep. assert (He : extends (w_inner w) (w_inner w')).
  { destruct Hstep as [[bs ->]|[->| ->]].
    - destruct (write_bytes bs w) as [r w1] eqn:E. by apply write_bytes_spec in E as (? & _).
    - destruct (sync_if_needed w) as [r w1] eqn:E.
      by apply sync_if_needed_spec in E as (_ & ? & _).
    - by apply flusher_tick_spec. }
  destruct He as [[k Hk] Hle _]. split; [done|].
  rewrite Hk. apply take_app_le. apply Hwf.
Qed.

Lemma durable_monotone_witness :
  let w := open EverySec (str "old") [DFail 2 (str "no space")] in
  let w' := (flusher_tick (write_bytes (str "rec") w).2).2 in
  take 3 (f_data (w_inner w')) = str "old".
Proof.
  intros w w'. assert (Hwf : aof_wf (write_bytes (str "rec") w).2)
    by (split; vm_compute; [split; discriminate|repeat constructor]).
  destruct (durable_monotone (write_bytes (str "rec") w).2 w' Hwf) as [_ H];
    [right; right; reflexivity|]. exact H.
Defined.

(** ** The rewrite *)

Lemma io_err_inv {A} what (m : Io A) s r s' :
  io_err what m s = (r, s') →
  ∃ r0, m s = (r0, s') ∧ r = match r0 with Ok a => Ok a | Err e => Err (persist_err what e) end.
Proof. unfold io_err. destruct (m s) as [r0 s0]. intros [= <- <-]. eauto. Qed.

(** A buffered writer that is handed chunks one after the other. *)
Lemma for_each_write cap what (chunks : list bytes) f d f' d' :
  0 < cap →
  for_each chunks (λ c, io_err what (bw_write_all cap c)) (f, d) = (Ok tt, (f', d')) →
  extends f f' ∧ stream f' = stream f ++ concat chunks.
Proof.
  intros Hcap. revert f d. induction chunks as [|c chunks IH]; intros f d; simpl.
  - intros [= <- <-]. rewrite app_nil_r. split; [apply extends_refl|done].
  - unfold mbind, se_bind. destruct (io_err what (bw_write_all cap c) (f, d)) as [r [f1 d1]] eqn:E.
    apply io_err_inv in E as (r0 & E & ->). apply bw_write_all_spec in E as (He & _ & Hs); [|done].
    destruct r0 as [[]|]; [|done]. intros Hr. apply IH in Hr as (He' & Hs').
    split; [by eapply extends_trans|]. by rewrite Hs', Hs, app_assoc.
Qed.

Lemma serialise_compact_aof_spec snapshot w f w' :
  serialise_compact_aof snapshot w = (Ok f, w') →
  f_data f = concat (concat (map compact_record snapshot)) ∧
  f_durable f = length (f_data f) ∧ f_buf f = [] ∧ w_inner w' = w_inner w.
Proof.
  unfold serialise_compact_aof, mbind, se_bind.
  destruct (io_err _ os_call _) as [r1 [f1 d1]] eqn:E1.
  apply io_err_inv in E1 as (r0 & E1 & ->). unfold os_call in E1.
  assert (Hf1 : f1 = {| f_data := []; f_durable := 0; f_buf := [] |})
    by (destruct (next_outcome (w_disk w)) as [[]]; by simplify_eq).
  destruct r0 as [[]|]; [|done].
  destruct (for_each _ _ (f1, d1)) as [[[]|] [f2 d2]] eqn:E2; [|done].
  apply for_each_write in E2 as (He2 & Hs2); [|done].
  destruct (io_err _ bw_flush _) as [r3 [f3 d3]] eqn:E3.
  apply io_err_inv in E3 as (r0 & E3 & ->). apply bw_flush_spec in E3 as (He3 & _ & _ & Hok3).
  destruct r0 as [[]|]; [|done]. destruct (Hok3 eq_refl) as [Hb3 Hdata3].
  destruct (io_err _ os_sync _) as [r4 [f4 d4]] eqn:E4.
  apply io_err_inv in E4 as (r0 & E4 & ->). apply os_sync_spec in E4 as (_ & _ & Hb4 & Hd4 & Hok4).
  2: { apply He3, He2. by rewrite Hf1. }
  destruct r0 as [[]|]; [|done]. intros [= <- <-]. simpl.
  split; [|split; [auto|split; [congruence|done]]].
  rewrite Hd4, Hdata3, Hs2, Hf1. done.
Qed.

(** the temporary file of a rewrite is exactly the compact log: when its
    serialisation succeeds, the file holds one SET per snapshot entry, followed
    by a PEXPIREAT when the entry has a deadline, all of it fsynced. *)
Theorem serialise_compact_aof_exact snapshot w f w' :
  serialise_compact_aof snapshot w = (Ok f, w') →
  f_data f = concat (concat (map compact_record snapshot)) ∧
  f_durable f = length (f_data f) ∧ f_buf f = [] ∧ w_inner w' = w_inner w.
Proof. apply serialise_compact_aof_spec. Qed.

Lemma serialise_compact_aof_exact_witness :
  let snap := [(str "k", str "v", Some 5); (str "l", str "w", None)] in
  let w := open Always [] [] in
  match serialise_compact_aof snap w with
  | (Ok f, _) => f_data f = encode_command [str "SET"; str "k"; str "v"]
                   ++ encode_command [str "PEXPIREAT"; str "k"; str "5"]
                   ++ encode_command [str "SET"; str "l"; str "w"]
  | _ => False
  end.
Proof.
  intros snap w. destruct (serialise_compact_aof snap w) as [[f|] w'] eqn:E; [|vm_compute in E; discriminate].
  destruct (serialise_compact_aof_exact snap w f w' E) as [-> _]. vm_compute. reflexivity.
Defined.

Lemma install_rewrite_spec temp w w' :
  f_durable temp = length (f_data temp) →
  install_rewrite temp w = (Ok tt, w') →
  stream (w_inner w') = f_data temp ++ w_delta w ∧
  f_durable (w_inner w') = length (f_data (w_inner w')) ∧ f_buf (w_inner w') = [] ∧
  w_rewriting w' = false ∧ w_delta w' = [] ∧ w_seq w' = 0 ∧ w_synced w' = 0.
Proof.
  intros Htemp. unfold install_rewrite, gets, mbind, se_bind.
  destruct (lift_io _ os_call w) as [r2 w2] eqn:E2.
  apply lift_io_inv in E2 as (r0 & f2 & d2 & E2 & -> & ->). destruct r0 as [[]|]; [|done].
  destruct (lift_io _ os_call (set_io f2 d2 _)) as [r3 w3] eqn:E3.
  apply lift_io_inv in E3 as (r0 & f3 & d3 & E3 & -> & ->). destruct r0 as [[]|]; [|done].
  unfold modify at 1. cbn beta iota. set (w4 := set_counters _ _ _ _ _).
  change (w_delta w4) with (w_delta w).
  destruct (w_delta w) as [|b delta] eqn:Ed.
  { unfold mret, se_ret, modify. intros [= <-]. unfold stream. simpl. by rewrite !app_nil_r. }
  rewrite <- Ed.
  destruct (lift_io _ (bw_write_all _ _) w4) as [r5 w5] eqn:E5.
  apply lift_io_inv in E5 as (r0 & f5 & d5 & E5 & -> & ->). simpl in E5.
  apply bw_write_all_spec in E5 as (He5 & Hd5 & Hs5); [|done]. destruct r0 as [[]|]; [|done].
  destruct (lift_io _ bw_flush _) as [r6 w6] eqn:E6.
  apply lift_io_inv in E6 as (r0 & f6 & d6 & E6 & -> & ->). simpl in E6.
  apply bw_flush_spec in E6 as (He6 & Hs6 & Hd6 & Hok6). destruct r0 as [[]|]; [|done].
  destruct (Hok6 eq_refl) as [Hb6 Hdata6].
  destruct (lift_io _ os_sync _) as [r7 w7] eqn:E7.
  apply lift_io_inv in E7 as (r0 & f7 & d7 & E7 & -> & ->). simpl in E7.
  apply os_sync_spec in E7 as (He7 & Hs7 & Hb7 & Hd7 & Hok7).
  2: { apply He6, He5. simpl. lia. }
  destruct r0 as [[]|]; [|done]. unfold modify. intros [= <-]. simpl.
  split; [|split; [auto|split; [congruence|done]]].
  rewrite Hs7, Hs6, Hs5. unfold stream. simpl. by rewrite app_nil_r.
Qed.

Lemma finish_rewrite_spec rename_err temp w w' :
  w_rewriting w = true → f_durable temp = length (f_data temp) →
  finish_rewrite rename_err temp w = (Ok tt, w') →
  stream (w_inner w') = f_data temp ++ w_delta w ∧
  f_durable (w_inner w') = length (f_data (w_inner w')) ∧ f_buf (w_inner w') = [] ∧
  w_rewriting w' = false ∧ w_delta w' = [] ∧ w_seq w' = 0 ∧ w_synced w' = 0.
Proof.
  intros Hrw Htemp. unfold finish_rewrite, gets, mbind, se_bind. rewrite Hrw. cbn [negb].
  destruct (lift_io rename_err os_call w) as [r1 w1] eqn:E1.
  apply lift_io_inv in E1 as (r0 & f1 & d1 & E1 & -> & ->). destruct r0 as [[]|]; [|done].
  by apply (install_rewrite_spec temp (set_io f1 d1 w)).
Qed.

(** The rewrite swap loses nothing: when [finish_rewrite] succeeds in
    flight, the log is the compact snapshot followed by exactly the writes
    buffered during the rewrite, all of it in the file and durable, and the
    rewrite slot is free again. *)
Theorem finish_rewrite_swaps rename_err temp w w' :
  w_rewriting w = true → f_durable temp = length (f_data temp) →
  finish_rewrite rename_err temp w = (Ok tt, w') →
  stream (w_inner w') = f_data temp ++ w_delta w ∧
  f_durable (w_inner w') = length (f_data (w_inner w')) ∧ f_buf (w_inner w') = [] ∧
  w_rewriting w' = false ∧ w_delta w' = [] ∧ w_seq w' = 0 ∧ w_synced w' = 0.
Proof. apply finish_rewrite_spec. Qed.

Lemma finish_rewrite_swaps_witness :
  let w := (write_bytes (str "new") (set_rewrite true [] (open Always (str "old") []))).2 in
  let temp := {| f_data := str "compact"; f_durable := 7; f_buf := [] |} in
  stream (w_inner (finish_rewrite IoError temp w).2) = str "compactnew".
Proof.
  intros w temp.
  destruct (finish_rewrite_swaps IoError temp w (finish_rewrite IoError temp w).2) as [-> _];
    vm_compute; reflexivity.
Defined.

(** A rewrite whose rename fails keeps the slot: the flag stays set, so the
    next [BGREWRITEAOF] is ignored although no rewrite is running. *)
Lemma failed_rename_keeps_slot rename_err temp w n m d :
  w_rewriting w = true → w_disk w = DFail n m :: d →
  let w' := (finish_rewrite rename_err temp w).2 in
  (finish_rewrite rename_err temp w).1 = Err (rename_err m) ∧
  w_rewriting w' = true ∧ (try_begin_rewrite w').1 = Ok false.
Proof.
  intros Hrw Hd. unfold finish_rewrite, gets, mbind, se_bind, lift_io, os_call.
  rewrite Hrw. simpl. rewrite Hd. simpl. unfold try_begin_rewrite. simpl. by rewrite Hrw.
Qed.
