(* ===== verification/ConfigFile.v ===== *)
(** * The configuration file (src/src/config/file.rs)

    The line grammar, the directives with the errors each can answer, and the
    byte sizes that [CONFIG SET] shares. A round trip shows that every
    configuration can be written as a file that reads back to it. *)
From S2P Require Import Prelude Numeric Text Eviction Aof.
From Stdlib Require Import ZArith Lia Strings.Byte.
From stdpp Require Import gmap strings numbers list.
Local Open Scope Z_scope.

(** [FileConfig]; [None] for a directive the file does not have. *)
Record FileConfig := {
  fc_bind : option bytes;
  fc_port : option Z;
  fc_timeout_secs : option Z;
  fc_max_clients : option Z;
  fc_appendonly : option bool;
  fc_appendfilename : option bytes;
  fc_appendfsync : option FsyncPolicy;
  fc_loglevel : option bytes;
  fc_max_memory : option Z;
  fc_max_memory_policy : option EvictionPolicy;
  fc_max_memory_samples : option Z;
  fc_requirepass : option bytes;
  fc_io_threads : option Z;
  fc_dashboard_addr : option bytes;
  fc_dashboard_token : option bytes;
}.

#[export] Instance FileConfig_eq_dec : EqDecision FileConfig.
Proof. solve_decision. Defined.

Definition FileConfig_default : FileConfig :=
  Build_FileConfig None None None None None None None None None None None None None None None.

(** [cfg.field = Some(x)] *)
Definition put_bind x '(Build_FileConfig _ b c d e f g h i j k l m n o) :=
  Build_FileConfig (Some x) b c d e f g h i j k l m n o.
Definition put_port x '(Build_FileConfig a _ c d e f g h i j k l m n o) :=
  Build_FileConfig a (Some x) c d e f g h i j k l m n o.
Definition put_timeout_secs x '(Build_FileConfig a b _ d e f g h i j k l m n o) :=
  Build_FileConfig a b (Some x) d e f g h i j k l m n o.
Definition put_max_clients x '(Build_FileConfig a b c _ e f g h i j k l m n o) :=
  Build_FileConfig a b c (Some x) e f g h i j k l m n o.
Definition put_appendonly x '(Build_FileConfig a b c d _ f g h i j k l m n o) :=
  Build_FileConfig a b c d (Some x) f g h i j k l m n o.
Definition put_appendfilename x '(Build_FileConfig a b c d e _ g h i j k l m n o) :=
  Build_FileConfig a b c d e (Some x) g h i j k l m n o.
Definition put_appendfsync x '(Build_FileConfig a b c d e f _ h i j k l m n o) :=
  Build_FileConfig a b c d e f (Some x) h i j k l m n o.
Definition put_loglevel x '(Build_FileConfig a b c d e f g _ i j k l m n o) :=
  Build_FileConfig a b c d e f g (Some x) i j k l m n o.
Definition put_max_memory x '(Build_FileConfig a b c d e f g h _ j k l m n o) :=
  Build_FileConfig a b c d e f g h (Some x) j k l m n o.
Definition put_max_memory_policy x '(Build_FileConfig a b c d e f g h i _ k l m n o) :=
  Build_FileConfig a b c d e f g h i (Some x) k l m n o.
Definition put_max_memory_samples x '(Build_FileConfig a b c d e f g h i j _ l m n o) :=
  Build_FileConfig a b c d e f g h i j (Some x) l m n o.
Definition put_requirepass x '(Build_FileConfig a b c d e f g h i j k _ m n o) :=
  Build_FileConfig a b c d e f g h i j k (Some x) m n o.
Definition put_io_threads x '(Build_FileConfig a b c d e f g h i j k l _ n o) :=
  Build_FileConfig a b c d e f g h i j k l (Some x) n o.
Definition put_dashboard_addr x '(Build_FileConfig a b c d e f g h i j k l m _ o) :=
  Build_FileConfig a b c d e f g h i j k l m (Some x) o.
Definition put_dashboard_token x '(Build_FileConfig a b c d e f g h i j k l m n _) :=
  Build_FileConfig a b c d e f g h i j k l m n (Some x).

(** [FileConfigError]; an I/O error is known by its text. *)
Inductive FileConfigError :=
| ConfigIo (e path : bytes)
| ConfigParse (path : bytes) (line_no : Z) (message : bytes).

(** [Display for FileConfigError] *)
Definition config_error_display (e : FileConfigError) : bytes :=
  match e with
  | ConfigIo e path => str "failed to read config '" ++ path ++ str "': " ++ e
  | ConfigParse path line_no message =>
      str "config '" ++ path ++ str "' line " ++ to_string_u line_no ++ str ": " ++ message
  end.

(** ** Values *)

(** [parse_u16], [parse_u64] and [parse_usize] of the file. *)
Definition file_u16 (raw name : bytes) : result bytes Z :=
  match parse_u16 raw with
  | Some n => Ok n
  | None => Err (str "invalid " ++ name ++ str ": '" ++ raw ++ str "' is not a u16")
  end.
Definition file_u64 (raw name : bytes) : result bytes Z :=
  match parse_u64 raw with
  | Some n => Ok n
  | None => Err (str "invalid " ++ name ++ str ": '" ++ raw ++ str "' is not a non-negative integer")
  end.
Definition file_usize (raw name : bytes) : result bytes Z :=
  match parse_usize raw with
  | Some n => Ok n
  | None => Err (str "invalid " ++ name ++ str ": '" ++ raw ++ str "' is not a non-negative integer")
  end.

(** [parse_bool] *)
Definition parse_bool (raw : bytes) : result bytes bool :=
  let lower := map to_lower raw in
  if existsb (bytes_eqb lower) [str "yes"; str "true"; str "on"; str "1"] then Ok true
  else if existsb (bytes_eqb lower) [str "no"; str "false"; str "off"; str "0"] then Ok false
  else Err (str "expected yes/no, got '" ++ lower ++ str "'").

(** [strip_quotes] *)
Definition strip_quotes (raw : bytes) : bytes :=
  if (2 <=? blen raw)
     && ((bool_decide (head raw = Some x22) && bool_decide (last raw = Some x22))
         || (bool_decide (head raw = Some x27) && bool_decide (last raw = Some x27)))
  then take (length raw - 2) (drop 1 raw)
  else raw.

(** The suffix table of [parse_bytes]. *)
Definition byte_suffixes : list (bytes * Z) :=
  [ (str "gb", 1073741824); (str "mb", 1048576); (str "kb", 1024); (str "g", 1073741824);
    (str "m", 1048576); (str "k", 1024); (str "b", 1) ].

Fixpoint split_size (lower : bytes) (l : list (bytes * Z)) : bytes * Z :=
  match l with
  | [] => (lower, 1)
  | (suffix, factor) :: l =>
      match str_strip_suffix lower suffix with
      | Some stripped => (stripped, factor)
      | None => split_size lower l
      end
  end.

(** [parse_bytes] *)
Definition parse_bytes (raw name : bytes) : result bytes Z :=
  let lower := map to_lower (trim raw) in
  let '(num, factor) := split_size lower byte_suffixes in
  match parse_u64 (trim num) with
  | None => Err (str "invalid " ++ name ++ str ": '" ++ raw ++ str "' is not a byte size")
  | Some n =>
      if n * factor <=? u64_max then Ok (n * factor)
      else Err (str "invalid " ++ name ++ str ": '" ++ raw ++ str "' overflows u64")
  end.

(** [Display for ParseFsyncPolicyError] *)
Definition fsync_error_display (rejected : bytes) : bytes :=
  str "invalid appendfsync value '" ++ rejected ++ str "', expected one of always|everysec|no".

Definition LOG_LEVELS : list bytes :=
  [str "off"; str "error"; str "warn"; str "info"; str "debug"; str "trace"].

(** ** Directives *)

(** [?] on an update of the configuration. *)
Definition then_set {A} (r : result bytes A) (f : A → FileConfig) : result bytes FileConfig :=
  match r with Ok a => Ok (f a) | Err m => Err m end.

(** [apply_directive] *)
Definition apply_directive (cfg : FileConfig) (key value : bytes) : result bytes FileConfig :=
  let key_lower := map to_lower key in
  if bytes_eqb key_lower (str "bind") then Ok (put_bind value cfg)
  else if bytes_eqb key_lower (str "port") then
    then_set (file_u16 value (str "port")) (λ n, put_port n cfg)
  else if bytes_eqb key_lower (str "timeout") then
    then_set (file_u64 value (str "timeout")) (λ n, put_timeout_secs n cfg)
  else if bytes_eqb key_lower (str "maxclients") then
    then_set (file_usize value (str "maxclients")) (λ n, put_max_clients n cfg)
  else if bytes_eqb key_lower (str "appendonly") then
    then_set (parse_bool value) (λ b, put_appendonly b cfg)
  else if bytes_eqb key_lower (str "appendfilename") then
    Ok (put_appendfilename (strip_quotes value) cfg)
  else if bytes_eqb key_lower (str "appendfsync") then
    match parse_fsync value with
    | Ok p => Ok (put_appendfsync p cfg)
    | Err e => Err (str "invalid appendfsync: " ++ fsync_error_display e)
    end
  else if bytes_eqb key_lower (str "loglevel") then
    let normalised := map to_lower value in
    if existsb (bytes_eqb normalised) LOG_LEVELS then Ok (put_loglevel normalised cfg)
    else Err (str "invalid loglevel '" ++ value
              ++ str "' (expected off|error|warn|info|debug|trace)")
  else if bytes_eqb key_lower (str "maxmemory") then
    then_set (parse_bytes value (str "maxmemory")) (λ n, put_max_memory n cfg)
  else if bytes_eqb key_lower (str "maxmemory-policy") then
    match from_name (map to_lower value) with
    | Some p => Ok (put_max_memory_policy p cfg)
    | None => Err (str "invalid maxmemory-policy '" ++ value ++ str "' (expected one of noeviction, allkeys-lru, volatile-lru, allkeys-lfu, volatile-lfu, allkeys-random, volatile-random, volatile-ttl, allkeys-ahe, volatile-ahe, allkeys-sieve, volatile-sieve, allkeys-sieves, volatile-sieves, allkeys-adaptiveclimb, volatile-adaptiveclimb)")
    end
  else if bytes_eqb key_lower (str "maxmemory-samples") then
    then_set (file_usize value (str "maxmemory-samples")) (λ n, put_max_memory_samples n cfg)
  else if bytes_eqb key_lower (str "requirepass") then Ok (put_requirepass value cfg)
  else if bytes_eqb key_lower (str "io-threads") then
    then_set (file_usize value (str "io-threads")) (λ n, put_io_threads n cfg)
  else if bytes_eqb key_lower (str "dashboard-token") then
    Ok (put_dashboard_token (strip_quotes value) cfg)
  else if bytes_eqb key_lower (str "dashboard-addr") then
    let v := trim value in
    if eq_ignore_ascii_case v (str "off") || eq_ignore_ascii_case v (str "no")
    then Ok (put_dashboard_addr (str "off") cfg)
    else Ok (put_dashboard_addr v cfg)
  else Err (str "unknown directive '" ++ key_lower ++ str "'").

(** One line of the loop in [FileConfig::parse]. *)
Definition parse_line (cfg : FileConfig) (raw_line : bytes) : result bytes FileConfig :=
  let trimmed := trim raw_line in
  if bool_decide (trimmed = []) || bool_decide (head trimmed = Some x23) then Ok cfg
  else
    let '(key, rest) := break_ws trimmed in
    let value := match rest with Some r => trim r | None => [] end in
    if bool_decide (value = []) then Err (str "directive '" ++ key ++ str "' requires a value")
    else apply_directive cfg key value.

Fixpoint parse_lines (source : bytes) (line_no : Z) (ls : list bytes) (cfg : FileConfig)
    : result FileConfigError FileConfig :=
  match ls with
  | [] => Ok cfg
  | l :: ls =>
      match parse_line cfg l with
      | Ok cfg => parse_lines source (line_no + 1) ls cfg
      | Err message => Err (ConfigParse source line_no message)
      end
  end.

(** [FileConfig::parse] *)
Definition parse (text source : bytes) : result FileConfigError FileConfig :=
  parse_lines source 1 (lines text) FileConfig_default.

(** [FileConfig::load]; [read] is what [fs::read_to_string] answers. *)
Definition load (read : bytes → result bytes bytes) (path : bytes) : result FileConfigError FileConfig :=
  match read path with
  | Err e => Err (ConfigIo e path)
  | Ok text => parse text path
  end.

(** ** Writing a configuration *)

(** The text of each kind of value, a directive for each setting that is made and
    the file that holds them, one per line. *)
Definition yes_no (b : bool) : bytes := if b then str "yes" else str "no".
Definition quoted (v : bytes) : bytes := x22 :: v ++ [x22].
Definition fsync_name (p : FsyncPolicy) : bytes :=
  match p with Always => str "always" | EverySec => str "everysec" | No => str "no" end.

Definition setting {A} (key : string) (f : A → bytes) (o : option A) : list (bytes * bytes) :=
  match o with Some x => [(str key, f x)] | None => [] end.

Definition directives (cfg : FileConfig) : list (bytes * bytes) :=
  setting "bind" id (fc_bind cfg) ++
  setting "port" to_string_u (fc_port cfg) ++
  setting "timeout" to_string_u (fc_timeout_secs cfg) ++
  setting "maxclients" to_string_u (fc_max_clients cfg) ++
  setting "appendonly" yes_no (fc_appendonly cfg) ++
  setting "appendfilename" quoted (fc_appendfilename cfg) ++
  setting "appendfsync" fsync_name (fc_appendfsync cfg) ++
  setting "loglevel" id (fc_loglevel cfg) ++
  setting "maxmemory" to_string_u (fc_max_memory cfg) ++
  setting "maxmemory-policy" policy_name (fc_max_memory_policy cfg) ++
  setting "maxmemory-samples" to_string_u (fc_max_memory_samples cfg) ++
  setting "requirepass" id (fc_requirepass cfg) ++
  setting "io-threads" to_string_u (fc_io_threads cfg) ++
  setting "dashboard-addr" id (fc_dashboard_addr cfg) ++
  setting "dashboard-token" quoted (fc_dashboard_token cfg).

Definition joined (p : bytes * bytes) : bytes := p.1 ++ x20 :: p.2.
Definition render (cfg : FileConfig) : bytes :=
  flat_map (λ p, joined p ++ [x0a]) (directives cfg).

(** What can be written on a line: numbers of their width, known log levels, paths
    and tokens without line feeds, and other text without line feeds that begins
    and ends with a graphic character. *)
Definition holds_of {A} (o : option A) (P : A → bool) : bool :=
  match o with Some x => P x | None => true end.
Definition one_line (v : bytes) : bool := negb (existsb (λ b, bool_decide (b = x0a)) v).
Definition plain (v : bytes) : bool := solid v && one_line v.
Definition writable (cfg : FileConfig) : bool :=
  holds_of (fc_bind cfg) plain &&
  holds_of (fc_port cfg) (λ n, (0 <=? n) && (n <=? u16_max)) &&
  forallb (λ o, holds_of o in_u64)
    [fc_timeout_secs cfg; fc_max_clients cfg; fc_max_memory cfg; fc_max_memory_samples cfg; fc_io_threads cfg] &&
  holds_of (fc_appendfilename cfg) one_line &&
  holds_of (fc_loglevel cfg) (λ l, existsb (bytes_eqb l) LOG_LEVELS) &&
  holds_of (fc_requirepass cfg) plain &&
  holds_of (fc_dashboard_addr cfg) (λ a, plain a &&
    (bytes_eqb a (str "off") || negb (eq_ignore_ascii_case a (str "off") || eq_ignore_ascii_case a (str "no")))) &&
  holds_of (fc_dashboard_token cfg) one_line.

(** ** Lemmas on values *)

Lemma one_line_spec v : one_line v = true ↔ x0a ∉ v.
Proof.
  unfold one_line. rewrite negb_true_iff, <- not_true_iff_false, existsb_exists. split.
  - intros Hv Hin. apply Hv. exists x0a. split; [by apply list_elem_of_In|by apply bool_decide_true].
  - intros Hv (b & Hin & Hb). bool_to_prop. subst b. by apply Hv, list_elem_of_In.
Qed.

Lemma quoted_solid v : solid (quoted v) = true.
Proof. unfold solid, quoted. cbn [head]. change (x22 :: v ++ [x22]) with ((x22 :: v) ++ [x22]). by rewrite last_snoc. Qed.

Lemma strip_quotes_quoted v : strip_quotes (quoted v) = v.
Proof.
  unfold strip_quotes. assert (Hl : last (quoted v) = Some x22).
  { unfold quoted. change (x22 :: v ++ [x22]) with ((x22 :: v) ++ [x22]). apply last_snoc. }
  rewrite Hl, (bool_decide_true (head _ = _)) by done. rewrite (bool_decide_true (Some x22 = Some x22)) by done.
  replace (2 <=? blen (quoted v)) with true
    by (symmetry; apply Z.leb_le; unfold quoted, blen; cbn [length]; rewrite length_app; simpl; lia).
  simpl. unfold quoted. cbn [length drop]. rewrite length_app. simpl.
  rewrite drop_0. replace (_ - _)%nat with (length v) by lia. by rewrite take_app_length.
Qed.

Lemma digits_graphic b : is_digit b = true → graphic b = true.
Proof.
  unfold is_digit, graphic. intros Hb. bool_to_prop. apply andb_true_intro. split; apply Z.leb_le; lia.
Qed.

Lemma graphic_solid s : s ≠ [] → Forall (λ b, graphic b = true) s → solid s = true.
Proof.
  intros Hne Hs. unfold solid. destruct s as [|a s]; [done|]. cbn [head].
  destruct (last (a :: s)) as [b|] eqn:E; [|by apply last_None in E].
  apply andb_true_intro. split; [by inversion Hs|]. rewrite Forall_forall in Hs.
  by apply Hs, last_Some_elem_of.
Qed.

Lemma graphic_one_line s : Forall (λ b, graphic b = true) s → one_line s = true.
Proof.
  intros Hs. apply one_line_spec. intros Hin. rewrite Forall_forall in Hs. by specialize (Hs _ Hin).
Qed.

Lemma to_string_u_graphic n : 0 ≤ n → Forall (λ b, graphic b = true) (to_string_u n).
Proof.
  intros Hn. eapply Forall_impl; [by apply to_string_u_digits|]. intros b. apply digits_graphic.
Qed.
Lemma to_string_u_solid n : 0 ≤ n → solid (to_string_u n) = true.
Proof. intros Hn. apply graphic_solid; [apply to_string_u_nonempty|by apply to_string_u_graphic]. Qed.

Lemma digit_to_lower b : is_digit b = true → to_lower b = b.
Proof.
  unfold is_digit, to_lower. intros Hb. bool_to_prop.
  by replace (65 <=? b2z b) with false by (symmetry; apply Z.leb_gt; lia).
Qed.
Lemma digits_to_lower s : Forall (λ b, is_digit b = true) s → map to_lower s = s.
Proof. induction 1 as [|b s Hb _ IH]; [done|]. simpl. by rewrite IH, digit_to_lower. Qed.

(** A suffix ends the way the text does. *)
Lemma strip_suffix_none s suffix a b :
  last s = Some a → last suffix = Some b → a ≠ b → str_strip_suffix s suffix = None.
Proof.
  intros Hs Hf Hne. unfold str_strip_suffix. rewrite bool_decide_false; [done|]. intros [Hl Hd].
  destruct suffix as [|x suffix]; [done|]. rewrite <- Hd in Hf. rewrite last_lookup, lookup_drop, length_drop in Hf.
  rewrite last_lookup in Hs. cbn [length] in *. replace (_ + _)%nat with (pred (length s)) in Hf by lia. congruence.
Qed.

Lemma split_size_digits s a : last s = Some a → is_digit a = true → split_size s byte_suffixes = (s, 1).
Proof.
  intros Hs Ha. unfold byte_suffixes, is_digit in *. bool_to_prop. cbn [split_size].
  repeat (erewrite strip_suffix_none; [|exact Hs|reflexivity|by intros ->]). done.
Qed.

(** A suffix as long as the end of the text. *)
Lemma strip_suffix_end p q suffix :
  length q = length suffix →
  str_strip_suffix (p ++ q) suffix = if bool_decide (q = suffix) then Some p else None.
Proof.
  intros Hl. unfold str_strip_suffix. rewrite length_app, <- Hl, Nat.add_sub, drop_app_length, take_app_length.
  case_bool_decide as H; [by rewrite bool_decide_true by apply H|].
  rewrite bool_decide_false; [done|]. intros ->. apply H. split; [lia|done].
Qed.

Ltac skip_suffix := rewrite strip_suffix_end by done; rewrite bool_decide_false by done.
Ltac skip_letter := erewrite strip_suffix_none; [|apply last_snoc|reflexivity|done].

(** Every suffix of the table is recognised after a number, and only that one. *)
Lemma split_size_suffix s a suffix factor :
  is_digit a = true → (suffix, factor) ∈ byte_suffixes →
  split_size (s ++ a :: suffix) byte_suffixes = (s ++ [a], factor).
Proof.
  intros Ha Hin. assert (Hne : a ≠ x67 ∧ a ≠ x6d ∧ a ≠ x6b) by (by split_and!; intros ->).
  destruct Hne as (Hg & Hm & Hk).
  assert (Hlong : ∀ x y, str_strip_suffix (s ++ [a; x]) [y; x] = if bool_decide (a = y) then Some s else None).
  { intros x y. rewrite strip_suffix_end by done. repeat case_bool_decide; naive_solver. }
  unfold byte_suffixes in *. rewrite !elem_of_cons in Hin. 
  change (s ++ a :: suffix) with (s ++ [a] ++ suffix). rewrite app_assoc.
  destruct Hin as [[= -> ->]|[[= -> ->]|[[= -> ->]|[[= -> ->]|[[= -> ->]|[[= -> ->]|[[= -> ->]|Hin]]]]]]];
    [..|by apply elem_of_nil in Hin].
  all: cbn [split_size].
  - by rewrite strip_suffix_end.
  - do 1 skip_suffix. by rewrite strip_suffix_end.
  - do 2 skip_suffix. by rewrite strip_suffix_end.
  - do 3 skip_letter. by rewrite strip_suffix_end.
  - do 3 skip_letter. do 1 skip_suffix. by rewrite strip_suffix_end.
  - do 3 skip_letter. do 2 skip_suffix. by rewrite strip_suffix_end.
  - rewrite <- app_assoc. change (str "gb") with [x67; x62]. change (str "mb") with [x6d; x62].
    change (str "kb") with [x6b; x62]. change ([a] ++ str "b") with [a; x62].
    rewrite !Hlong, !bool_decide_false by done.
    change (s ++ [a; x62]) with (s ++ [a] ++ [x62]). rewrite app_assoc. do 3 skip_suffix. by rewrite strip_suffix_end.
Qed.

(** A plain number is a byte size. *)
Lemma parse_bytes_to_string n name : in_u64 n = true → parse_bytes (to_string_u n) name = Ok n.
Proof.
  unfold in_u64. intros Hn. bool_to_prop. unfold parse_bytes.
  rewrite trim_solid, digits_to_lower by (by apply to_string_u_solid || by apply to_string_u_digits).
  destruct (last (to_string_u n)) as [a|] eqn:El; [|by apply last_None, to_string_u_nonempty in El].
  rewrite (split_size_digits _ a El).
  2:{ pose proof (to_string_u_digits n ltac:(done)) as Hd. rewrite Forall_forall in Hd.
      by apply Hd, last_Some_elem_of. }
  rewrite trim_solid by (by apply to_string_u_solid). unfold parse_u64.
  rewrite parse_unsigned_to_string, Z.mul_1_r by done. by rewrite (proj2 (Z.leb_le _ _)).
Qed.

(** Byte sizes are exact and never wrap: a number followed by one of the suffixes, in any case and with whitespace around, is the number times its unit when that fits in 64 bits, and an error otherwise. *)
Theorem byte_size_exact (raw name suffix : bytes) (n factor : Z) :
  in_u64 n = true → (suffix, factor) ∈ ([], 1) :: byte_suffixes →
  map to_lower (trim raw) = to_string_u n ++ suffix →
  parse_bytes raw name
  = if n * factor <=? u64_max then Ok (n * factor)
    else Err (str "invalid " ++ name ++ str ": '" ++ raw ++ str "' overflows u64").
Proof.
  unfold in_u64. intros Hn Hs Hraw. bool_to_prop. unfold parse_bytes. rewrite Hraw.
  assert (Hsz : split_size (to_string_u n ++ suffix) byte_suffixes = (to_string_u n, factor)).
  { pose proof (to_string_u_digits n ltac:(done)) as Hd. rewrite Forall_forall in Hd.
    destruct (last (to_string_u n)) as [a|] eqn:El; [|by apply last_None, to_string_u_nonempty in El].
    pose proof (Hd a (last_Some_elem_of _ _ El)) as Ha.
    apply elem_of_cons in Hs as [[= -> ->]|Hs]; [rewrite app_nil_r; by apply (split_size_digits _ a)|].
    apply last_Some in El as [l El]. rewrite El, <- app_assoc. by apply split_size_suffix. }
  rewrite Hsz, trim_solid by (by apply to_string_u_solid). unfold parse_u64.
  by rewrite parse_unsigned_to_string.
Qed.

Lemma byte_size_exact_witness :
  parse_bytes (str " 16GB ") (str "maxmemory") = Ok 17179869184 ∧
  parse_bytes (str "17179869184gb") (str "maxmemory")
  = Err (str "invalid maxmemory: '17179869184gb' overflows u64").
Proof.
  split.
  - by apply (byte_size_exact (str " 16GB ") (str "maxmemory") (str "gb") 16 1073741824);
      [reflexivity|vm_compute; right; left|reflexivity].
  - by apply (byte_size_exact (str "17179869184gb") (str "maxmemory") (str "gb") 17179869184 1073741824);
      [reflexivity|vm_compute; right; left|reflexivity].
Defined.

(** ** Lines *)

(** A directive on a line of its own. *)
Definition keyword (k : bytes) : bool := forallb graphic k && negb (bool_decide (head k = Some x23 ∨ k = [])).

Lemma parse_line_joined cfg k v :
  keyword k = true → solid v = true → parse_line cfg (joined (k, v)) = apply_directive cfg k v.
Proof.
  unfold keyword. intros Hk Hv. apply andb_prop in Hk as [Hg Hk]. apply negb_true_iff, bool_decide_eq_false in Hk.
  assert (HF : Forall (λ b, graphic b = true) k) by (apply Forall_forall; intros b Hb; by eapply forallb_forall, list_elem_of_In).
  destruct k as [|a k]; [by exfalso; apply Hk; right|]. destruct (solid_cons v Hv) as (c & v' & Ev & Hc).
  assert (Hs : solid (joined (a :: k, v)) = true).
  { unfold solid, joined. cbn [fst snd]. cbn [head app]. change (a :: k ++ x20 :: v) with ((a :: k) ++ x20 :: v).
    rewrite (last_app_cons (a :: k) v x20). rewrite Ev, last_cons_cons, <- Ev.
    unfold solid in Hv. rewrite Ev in Hv at 1. simpl in Hv. destruct (last v); [|done].
    apply andb_prop in Hv as [_ ->]. rewrite andb_true_r. by inversion HF. }
  unfold parse_line. rewrite trim_solid by done. rewrite bool_decide_false by done.
  rewrite bool_decide_false by (cbn; intros [= ->]; apply Hk; by left). cbn [orb].
  unfold joined. cbn [fst snd]. rewrite break_ws_word by done. rewrite trim_solid by done.
  by rewrite bool_decide_false by (by rewrite Ev).
Qed.

(** The directives [ds], read on any line, take [cfg] to [cfg']. *)
Definition reads (ds : list (bytes * bytes)) (cfg cfg' : FileConfig) : Prop :=
  Forall (λ p, keyword p.1 = true ∧ plain p.2 = true) ds ∧
  ∀ source line_no, parse_lines source line_no (map joined ds) cfg = Ok cfg'.

(** A value that is read back: what a directive makes of its text. *)
Definition settles {A} (key : string) (f : A → bytes) (o : option A) (cfg : A → FileConfig)
    (cfg0 : FileConfig) : Prop :=
  ∀ x, o = Some x →
    keyword (str key) = true ∧ plain (f x) = true ∧ apply_directive cfg0 (str key) (f x) = Ok (cfg x).

Lemma reads_setting {A} key (f : A → bytes) (o : option A) (g : option A → FileConfig) ds cfg' cfg :
  g None = cfg → settles key f o (λ x, g (Some x)) cfg →
  reads ds (g o) cfg' → reads (setting key f o ++ ds) cfg cfg'.
Proof.
  intros Hg Hs [Hd Hr]. destruct o as [x|]; simpl; [|by rewrite <- Hg].
  destruct (Hs x eq_refl) as (Hk & Hv & Ha). split; [by constructor|]. intros source n.
  cbn [map parse_lines]. unfold plain in Hv. apply andb_prop in Hv as [Hv _].
  rewrite parse_line_joined, Ha by done. apply Hr.
Qed.

Lemma reads_parse ds cfg cfg' source :
  reads ds cfg cfg' →
  parse_lines source 1 (lines (flat_map (λ p, joined p ++ [x0a]) ds)) cfg = Ok cfg'.
Proof.
  intros [Hd Hr]. rewrite <- (Hr source 1). f_equal. clear Hr.
  induction Hd as [|[k v] ds [Hk Hv] _ IH]; [done|]. cbn [flat_map map fst snd] in *.
  rewrite <- app_assoc. unfold plain, keyword in *. apply andb_prop in Hv as [Hv Hl], Hk as [Hk _].
  apply one_line_spec in Hl. simpl. rewrite lines_line, IH; [done|..].
  - unfold joined. cbn [fst snd]. intros Hin. apply elem_of_app in Hin as [Hin|Hin].
    + apply list_elem_of_In in Hin. rewrite forallb_forall in Hk. by apply Hk in Hin.
    + by apply elem_of_cons in Hin as [?|?].
  - unfold joined. cbn [fst snd]. rewrite last_app_cons.
    destruct (solid_cons v Hv) as (c & v' & Ev & _). rewrite Ev, last_cons_cons, <- Ev.
    unfold solid in Hv. destruct (head v); [|done]. intros Hlast. rewrite Hlast in Hv.
    by apply andb_prop in Hv as [_ Hv].
Qed.

(** ** Each directive *)

Section directives.
Implicit Types (cfg : FileConfig) (v : bytes).

Lemma plain_number n : 0 ≤ n → plain (to_string_u n) = true.
Proof.
  intros Hn. apply andb_true_intro. split; [by apply to_string_u_solid|].
  by apply graphic_one_line, to_string_u_graphic.
Qed.
Lemma plain_quoted v : one_line v = true → plain (quoted v) = true.
Proof.
  intros Hv. apply andb_true_intro. split; [apply quoted_solid|]. apply one_line_spec in Hv. apply one_line_spec.
  unfold quoted. rewrite elem_of_cons, elem_of_app, list_elem_of_singleton. by intros [?|[?|?]].
Qed.

Lemma directive_bind o cfg :
  holds_of o plain = true → settles "bind" id o (λ x, put_bind x cfg) cfg.
Proof. intros Ho x ->. by split_and!. Qed.
Lemma directive_requirepass o cfg :
  holds_of o plain = true → settles "requirepass" id o (λ x, put_requirepass x cfg) cfg.
Proof. intros Ho x ->. by split_and!. Qed.
Lemma directive_port o cfg :
  holds_of o (λ n, (0 <=? n) && (n <=? u16_max)) = true → settles "port" to_string_u o (λ x, put_port x cfg) cfg.
Proof.
  intros Ho n ->. simpl in Ho. bool_to_prop. split_and!; [done|by apply plain_number|].
  change (apply_directive _ _ _) with (then_set (file_u16 (to_string_u n) (str "port")) (λ x, put_port x cfg)).
  unfold file_u16, parse_u16. by rewrite parse_unsigned_to_string.
Qed.
Lemma directive_timeout_secs o cfg :
  holds_of o in_u64 = true → settles "timeout" to_string_u o (λ x, put_timeout_secs x cfg) cfg.
Proof.
  intros Ho n ->. unfold holds_of, in_u64 in Ho. bool_to_prop. split_and!; [done|by apply plain_number|].
  change (apply_directive _ _ _) with (then_set (file_u64 (to_string_u n) (str "timeout")) (λ x, put_timeout_secs x cfg)).
  unfold file_u64, parse_u64. by rewrite parse_unsigned_to_string.
Qed.
Lemma file_usize_to_string n name : in_u64 n = true → plain (to_string_u n) = true ∧ file_usize (to_string_u n) name = Ok n.
Proof.
  unfold in_u64. intros Hn. bool_to_prop. split; [by apply plain_number|].
  unfold file_usize, parse_usize. by rewrite parse_unsigned_to_string.
Qed.
Lemma directive_max_clients o cfg :
  holds_of o in_u64 = true → settles "maxclients" to_string_u o (λ x, put_max_clients x cfg) cfg.
Proof.
  intros Ho n ->. destruct (file_usize_to_string n (str "maxclients") Ho) as [Hp Hf]. split_and!; [done|done|].
  change (apply_directive _ _ _) with (then_set (file_usize (to_string_u n) (str "maxclients")) (λ x, put_max_clients x cfg)).
  by rewrite Hf.
Qed.
Lemma directive_max_memory_samples o cfg :
  holds_of o in_u64 = true → settles "maxmemory-samples" to_string_u o (λ x, put_max_memory_samples x cfg) cfg.
Proof.
  intros Ho n ->. destruct (file_usize_to_string n (str "maxmemory-samples") Ho) as [Hp Hf]. split_and!; [done|done|].
  change (apply_directive _ _ _) with (then_set (file_usize (to_string_u n) (str "maxmemory-samples")) (λ x, put_max_memory_samples x cfg)).
  by rewrite Hf.
Qed.
Lemma directive_io_threads o cfg :
  holds_of o in_u64 = true → settles "io-threads" to_string_u o (λ x, put_io_threads x cfg) cfg.
Proof.
  intros Ho n ->. destruct (file_usize_to_string n (str "io-threads") Ho) as [Hp Hf]. split_and!; [done|done|].
  change (apply_directive _ _ _) with (then_set (file_usize (to_string_u n) (str "io-threads")) (λ x, put_io_threads x cfg)).
  by rewrite Hf.
Qed.
Lemma directive_max_memory o cfg :
  holds_of o in_u64 = true → settles "maxmemory" to_string_u o (λ x, put_max_memory x cfg) cfg.
Proof.
  intros Ho n ->. destruct (file_usize_to_string n [] Ho) as [Hp _]. split_and!; [done|done|].
  change (apply_directive _ _ _) with (then_set (parse_bytes (to_string_u n) (str "maxmemory")) (λ x, put_max_memory x cfg)).
  by rewrite parse_bytes_to_string.
Qed.
Lemma directive_appendonly o cfg : settles "appendonly" yes_no o (λ x, put_appendonly x cfg) cfg.
Proof. intros b ->. by destruct b. Qed.
Lemma directive_appendfsync o cfg : settles "appendfsync" fsync_name o (λ x, put_appendfsync x cfg) cfg.
Proof. intros p ->. by destruct p. Qed.
Lemma directive_max_memory_policy o cfg :
  settles "maxmemory-policy" policy_name o (λ x, put_max_memory_policy x cfg) cfg.
Proof. intros p ->. by destruct p. Qed.
Lemma directive_appendfilename o cfg :
  holds_of o one_line = true → settles "appendfilename" quoted o (λ x, put_appendfilename x cfg) cfg.
Proof.
  intros Ho v ->. split_and!; [done|by apply plain_quoted|].
  change (apply_directive _ _ _) with (Ok (E:=bytes) (put_appendfilename (strip_quotes (quoted v)) cfg)).
  by rewrite strip_quotes_quoted.
Qed.
Lemma directive_dashboard_token o cfg :
  holds_of o one_line = true → settles "dashboard-token" quoted o (λ x, put_dashboard_token x cfg) cfg.
Proof.
  intros Ho v ->. split_and!; [done|by apply plain_quoted|].
  change (apply_directive _ _ _) with (Ok (E:=bytes) (put_dashboard_token (strip_quotes (quoted v)) cfg)).
  by rewrite strip_quotes_quoted.
Qed.
Lemma directive_loglevel o cfg :
  holds_of o (λ l, existsb (bytes_eqb l) LOG_LEVELS) = true → settles "loglevel" id o (λ x, put_loglevel x cfg) cfg.
Proof.
  intros Ho l ->. apply existsb_exists in Ho as (l' & Hin & Hl). apply bytes_eqb_eq in Hl. subst l'.
  unfold LOG_LEVELS in Hin. by repeat (destruct Hin as [<-|Hin]; [by split_and!|]).
Qed.
Lemma directive_dashboard_addr o cfg :
  holds_of o (λ a, plain a && (bytes_eqb a (str "off")
    || negb (eq_ignore_ascii_case a (str "off") || eq_ignore_ascii_case a (str "no")))) = true →
  settles "dashboard-addr" id o (λ x, put_dashboard_addr x cfg) cfg.
Proof.
  intros Ho a ->. apply andb_prop in Ho as [Hp Ha]. split_and!; [done|done|].
  change (apply_directive _ _ _) with (
    if eq_ignore_ascii_case (trim a) (str "off") || eq_ignore_ascii_case (trim a) (str "no")
    then Ok (E:=bytes) (put_dashboard_addr (str "off") cfg) else Ok (put_dashboard_addr (trim a) cfg)).
  unfold plain in Hp. apply andb_prop in Hp as [Hp _]. rewrite trim_solid by done.
  apply orb_prop in Ha as [Ha|Ha]; [by apply bytes_eqb_eq in Ha; subst a|].
  by apply negb_true_iff in Ha; rewrite Ha.
Qed.
End directives.

(** What was written is loaded. *)
Lemma config_file_load (read : bytes → result bytes bytes) (path : bytes) (cfg : FileConfig) :
  writable cfg = true → read path = Ok (render cfg) → load read path = Ok cfg.
Proof.
  intros Hw Hr. unfold load, parse. rewrite Hr. apply reads_parse.
  destruct cfg as [a b c d e f g h i j k l m n o]. unfold writable in Hw. cbn in Hw.
  repeat match goal with H : _ && _ = true |- _ => apply andb_prop in H as [? ?] end.
  unfold directives, FileConfig_default.
  cbn [fc_bind fc_port fc_timeout_secs fc_max_clients fc_appendonly fc_appendfilename fc_appendfsync fc_loglevel
    fc_max_memory fc_max_memory_policy fc_max_memory_samples fc_requirepass fc_io_threads fc_dashboard_addr fc_dashboard_token].
  apply (reads_setting _ _ a (λ x, Build_FileConfig x None None None None None None None None None None None None None None)); [reflexivity|by apply directive_bind|].
  apply (reads_setting _ _ b (λ x, Build_FileConfig a x None None None None None None None None None None None None None)); [reflexivity|by apply directive_port|].
  apply (reads_setting _ _ c (λ x, Build_FileConfig a b x None None None None None None None None None None None None)); [reflexivity|by apply directive_timeout_secs|].
  apply (reads_setting _ _ d (λ x, Build_FileConfig a b c x None None None None None None None None None None None)); [reflexivity|by apply directive_max_clients|].
  apply (reads_setting _ _ e (λ x, Build_FileConfig a b c d x None None None None None None None None None None)); [reflexivity|by apply directive_appendonly|].
  apply (reads_setting _ _ f (λ x, Build_FileConfig a b c d e x None None None None None None None None None)); [reflexivity|by apply directive_appendfilename|].
  apply (reads_setting _ _ g (λ x, Build_FileConfig a b c d e f x None None None None None None None None)); [reflexivity|by apply directive_appendfsync|].
  apply (reads_setting _ _ h (λ x, Build_FileConfig a b c d e f g x None None None None None None None)); [reflexivity|by apply directive_loglevel|].
  apply (reads_setting _ _ i (λ x, Build_FileConfig a b c d e f g h x None None None None None None)); [reflexivity|by apply directive_max_memory|].
  apply (reads_setting _ _ j (λ x, Build_FileConfig a b c d e f g h i x None None None None None)); [reflexivity|by apply directive_max_memory_policy|].
  apply (reads_setting _ _ k (λ x, Build_FileConfig a b c d e f g h i j x None None None None)); [reflexivity|by apply directive_max_memory_samples|].
  apply (reads_setting _ _ l (λ x, Build_FileConfig a b c d e f g h i j k x None None None)); [reflexivity|by apply directive_requirepass|].
  apply (reads_setting _ _ m (λ x, Build_FileConfig a b c d e f g h i j k l x None None)); [reflexivity|by apply directive_io_threads|].
  apply (reads_setting _ _ n (λ x, Build_FileConfig a b c d e f g h i j k l m x None)); [reflexivity|by apply directive_dashboard_addr|].
  rewrite <- (app_nil_r (setting _ quoted o)).
  apply (reads_setting _ _ o (λ x, Build_FileConfig a b c d e f g h i j k l m n x)); [reflexivity|by apply directive_dashboard_token|].
  by split.
Qed.

(** C31: Every configuration can be written to a file and read back: the directives of a configuration, one per line in the order of the fields, numbers in decimal, paths and tokens in quotes, are read by [FileConfig::load] as exactly that configuration. *)
Theorem config_file_roundtrip (read : bytes → result bytes bytes) (path : bytes) (cfg : FileConfig) :
  writable cfg = true → read path = Ok (render cfg) → load read path = Ok cfg.
Proof. apply config_file_load. Qed.

Definition config_example : FileConfig := {|
  fc_bind := Some (str "0.0.0.0 ::1"); fc_port := Some 6400; fc_timeout_secs := Some 0;
  fc_max_clients := None; fc_appendonly := Some true; fc_appendfilename := Some (str " my log.aof");
  fc_appendfsync := Some Always; fc_loglevel := Some (str "debug"); fc_max_memory := Some 104857600;
  fc_max_memory_policy := Some AllKeysSieve; fc_max_memory_samples := None;
  fc_requirepass := Some (str "open sesame"); fc_io_threads := Some 4;
  fc_dashboard_addr := Some (str "off"); fc_dashboard_token := Some [] |}.

Lemma config_file_roundtrip_witness :
  load (λ _, Ok (render config_example)) (str "f.conf") = Ok config_example.
Proof. apply (config_file_roundtrip (λ _, Ok (render config_example))); reflexivity. Defined.

(** Comments, blank lines, case, suffixes and quotes; the error names the line. *)
Example config_reads :
  load (λ _, Ok (str "# c" ++ [x0d; x0a; x0a] ++ str "  MaxMemory 1kb  " ++ [x0a] ++ str "port 70000")) (str "f")
  = Err (ConfigParse (str "f") 4 (str "invalid port: '70000' is not a u16")).
Proof. reflexivity. Qed.
