(* ===== verification/Cli.v ===== *)
(** * The command line (src/src/cli.rs)

    Scanning the arguments, loading the file they name, merging the two with the
    defaults, and the settings the program asks for afterwards. The three fields
    of [RawFlags] that nothing sets or reads ([bind], [port] and
    [_appendonly_from_file]) are left out; a duration is its seconds. *)
From S2P Require Import Prelude Numeric Text Eviction Aof ConfigFile.
From Stdlib Require Import ZArith Lia Strings.Byte.
From stdpp Require Import gmap strings numbers list.
Local Open Scope Z_scope.

Definition DEFAULT_ADDR : bytes := str "127.0.0.1:6380".
Definition DEFAULT_DASHBOARD_ADDR : bytes := str "127.0.0.1:6381".

(** [RawFlags] *)
Record RawFlags := {
  rf_config_path : option bytes;
  rf_addr : option bytes;
  rf_aof_path : option bytes;
  rf_appendfsync : option FsyncPolicy;
  rf_client_timeout : option (option Z);
  rf_max_clients : option Z;
  rf_loglevel : option bytes;
  rf_max_memory : option Z;
  rf_max_memory_policy : option EvictionPolicy;
  rf_max_memory_samples : option Z;
  rf_requirepass : option bytes;
  rf_io_threads : option Z;
  rf_dashboard_addr : option bytes;
  rf_dashboard_token : option bytes;
}.

Definition RawFlags_default : RawFlags :=
  Build_RawFlags None None None None None None None None None None None None None None.

(** [raw.field = Some(x)] *)
Definition flag_config_path x '(Build_RawFlags _ b c d e f g h i j k l m n) :=
  Build_RawFlags (Some x) b c d e f g h i j k l m n.
Definition flag_addr x '(Build_RawFlags a _ c d e f g h i j k l m n) :=
  Build_RawFlags a (Some x) c d e f g h i j k l m n.
Definition flag_aof_path x '(Build_RawFlags a b _ d e f g h i j k l m n) :=
  Build_RawFlags a b (Some x) d e f g h i j k l m n.
Definition flag_appendfsync x '(Build_RawFlags a b c _ e f g h i j k l m n) :=
  Build_RawFlags a b c (Some x) e f g h i j k l m n.
Definition flag_client_timeout x '(Build_RawFlags a b c d _ f g h i j k l m n) :=
  Build_RawFlags a b c d (Some x) f g h i j k l m n.
Definition flag_max_clients x '(Build_RawFlags a b c d e _ g h i j k l m n) :=
  Build_RawFlags a b c d e (Some x) g h i j k l m n.
Definition flag_loglevel x '(Build_RawFlags a b c d e f _ h i j k l m n) :=
  Build_RawFlags a b c d e f (Some x) h i j k l m n.
Definition flag_max_memory x '(Build_RawFlags a b c d e f g _ i j k l m n) :=
  Build_RawFlags a b c d e f g (Some x) i j k l m n.
Definition flag_max_memory_policy x '(Build_RawFlags a b c d e f g h _ j k l m n) :=
  Build_RawFlags a b c d e f g h (Some x) j k l m n.
Definition flag_max_memory_samples x '(Build_RawFlags a b c d e f g h i _ k l m n) :=
  Build_RawFlags a b c d e f g h i (Some x) k l m n.
Definition flag_requirepass x '(Build_RawFlags a b c d e f g h i j _ l m n) :=
  Build_RawFlags a b c d e f g h i j (Some x) l m n.
Definition flag_io_threads x '(Build_RawFlags a b c d e f g h i j k _ m n) :=
  Build_RawFlags a b c d e f g h i j k (Some x) m n.
Definition flag_dashboard_addr x '(Build_RawFlags a b c d e f g h i j k l _ n) :=
  Build_RawFlags a b c d e f g h i j k l (Some x) n.
Definition flag_dashboard_token x '(Build_RawFlags a b c d e f g h i j k l m _) :=
  Build_RawFlags a b c d e f g h i j k l m (Some x).

(** [CliArgs] *)
Record CliArgs := {
  ca_addr : bytes;
  ca_aof_path : option bytes;
  ca_appendfsync : option FsyncPolicy;
  ca_client_timeout : option Z;
  ca_max_clients : option Z;
  ca_loglevel : option bytes;
  ca_max_memory : option Z;
  ca_max_memory_policy : option EvictionPolicy;
  ca_max_memory_samples : option Z;
  ca_requirepass : option bytes;
  ca_io_threads : option Z;
  ca_dashboard_addr : option bytes;
  ca_dashboard_token : option bytes;
}.

(** [Invocation] and [ScanOutcome]. *)
Inductive Invocation := Run (args : CliArgs) | Help.
Inductive ScanOutcome := ScanHelp | Flags (raw : RawFlags).

(** ** Values of flags *)

(** [parse_timeout_seconds] *)
Definition parse_timeout_seconds (raw : bytes) : result bytes (option Z) :=
  match parse_u64 raw with
  | None => Err (str "invalid --client-timeout: '" ++ raw ++ str "' is not a non-negative integer")
  | Some secs => Ok (if secs =? 0 then None else Some secs)
  end.

(** [validate_loglevel] *)
Definition validate_loglevel (raw : bytes) : result bytes bytes :=
  let lower := map to_lower raw in
  if existsb (bytes_eqb lower) LOG_LEVELS then Ok lower
  else Err (str "invalid --loglevel '" ++ raw ++ str "' (expected off|error|warn|info|debug|trace)").

(** [parse_bytes] of the command line. *)
Definition cli_parse_bytes (raw : bytes) : result bytes Z :=
  let lower := map to_lower (trim raw) in
  let '(num, factor) := split_size lower byte_suffixes in
  match parse_u64 (trim num) with
  | None => Err (str "'" ++ raw ++ str "' is not a byte size")
  | Some n =>
      if n * factor <=? u64_max then Ok (n * factor)
      else Err (str "'" ++ raw ++ str "' overflows u64")
  end.

(** [value.parse::<usize>()] with the flag's message. *)
Definition flag_usize (flag value : bytes) : result bytes Z :=
  match parse_usize value with
  | Some n => Ok n
  | None => Err (str "invalid " ++ flag ++ str ": '" ++ value ++ str "' is not a non-negative integer")
  end.

(** ** Scanning *)

(** The flags that take a value. *)
Definition VALUE_FLAGS : list bytes :=
  [str "--config";
   str "--addr";
   str "--aof-path";
   str "--appendfsync";
   str "--client-timeout";
   str "--maxclients";
   str "--loglevel";
   str "--maxmemory";
   str "--maxmemory-policy";
   str "--maxmemory-samples";
   str "--requirepass";
   str "--io-threads";
   str "--dashboard-addr";
   str "--dashboard-token"].

Definition then_flag {A} (r : result bytes A) (f : A → RawFlags) : result bytes RawFlags :=
  match r with Ok a => Ok (f a) | Err m => Err m end.

(** The arm of [scan_argv] for a flag, given its value. *)
Definition scan_value (flag value : bytes) (raw : RawFlags) : result bytes RawFlags :=
  if bytes_eqb flag (str "--config") then Ok (flag_config_path value raw)
  else if bytes_eqb flag (str "--addr") then Ok (flag_addr value raw)
  else if bytes_eqb flag (str "--aof-path") then Ok (flag_aof_path value raw)
  else if bytes_eqb flag (str "--appendfsync") then
    match parse_fsync value with
    | Ok p => Ok (flag_appendfsync p raw)
    | Err e => Err (str "invalid --appendfsync: " ++ fsync_error_display e)
    end
  else if bytes_eqb flag (str "--client-timeout") then
    then_flag (parse_timeout_seconds value) (λ t, flag_client_timeout t raw)
  else if bytes_eqb flag (str "--maxclients") then
    then_flag (flag_usize flag value) (λ n, flag_max_clients n raw)
  else if bytes_eqb flag (str "--loglevel") then
    then_flag (validate_loglevel value) (λ l, flag_loglevel l raw)
  else if bytes_eqb flag (str "--maxmemory") then
    match cli_parse_bytes value with
    | Ok n => Ok (flag_max_memory n raw)
    | Err e => Err (str "invalid --maxmemory: " ++ e)
    end
  else if bytes_eqb flag (str "--maxmemory-policy") then
    match from_name (map to_lower value) with
    | Some p => Ok (flag_max_memory_policy p raw)
    | None => Err (str "invalid --maxmemory-policy '" ++ value ++ str "' (expected noeviction, allkeys-lru, volatile-lru, allkeys-lfu, volatile-lfu, allkeys-random, volatile-random, volatile-ttl, allkeys-ahe, volatile-ahe, allkeys-sieve, volatile-sieve, allkeys-sieves, volatile-sieves, allkeys-adaptiveclimb, volatile-adaptiveclimb)")
    end
  else if bytes_eqb flag (str "--maxmemory-samples") then
    then_flag (flag_usize flag value) (λ n, flag_max_memory_samples n raw)
  else if bytes_eqb flag (str "--requirepass") then Ok (flag_requirepass value raw)
  else if bytes_eqb flag (str "--io-threads") then
    then_flag (flag_usize flag value) (λ n, flag_io_threads n raw)
  else if bytes_eqb flag (str "--dashboard-addr") then Ok (flag_dashboard_addr value raw)
  else if bytes_eqb flag (str "--dashboard-token") then
    if bool_decide (value = []) then Err (str "--dashboard-token must not be empty")
    else Ok (flag_dashboard_token value raw)
  else Err (str "unrecognised argument: '" ++ flag ++ str "'").

(** [scan_argv]; a flag at the end has no value for [take_value]. *)
Fixpoint scan_argv (args : list bytes) (raw : RawFlags) : result bytes ScanOutcome :=
  match args with
  | [] => Ok (Flags raw)
  | arg :: rest =>
      if existsb (bytes_eqb arg) VALUE_FLAGS then
        match rest with
        | [] => Err (arg ++ str " requires a value")
        | value :: rest =>
            match scan_value arg value raw with
            | Ok raw => scan_argv rest raw
            | Err m => Err m
            end
        end
      else if bytes_eqb arg (str "-h") || bytes_eqb arg (str "--help") then Ok ScanHelp
      else Err (str "unrecognised argument: '" ++ arg ++ str "'")
  end.

(** ** Merging *)

(** [Option::or_else] on two options. *)
Definition or_else {A} (x y : option A) : option A := match x with Some _ => x | None => y end.

(** [compose_addr_from_file] *)
Definition compose_addr_from_file (file : FileConfig) : bytes :=
  let default_host := str "127.0.0.1" in
  let host := default default_host (fc_bind file) in
  let host := default default_host (first_word host) in
  host ++ str ":" ++ to_string_u (default 6380 (fc_port file)).

(** [merge] *)
Definition merge (raw : RawFlags) (file : option FileConfig) : result bytes CliArgs :=
  let addr :=
    match rf_addr raw with
    | Some a => a
    | None => match file with Some file => compose_addr_from_file file | None => DEFAULT_ADDR end
    end in
  let aof_path := or_else (rf_aof_path raw)
    (match file with
     | Some f =>
         if default false (fc_appendonly f)
         then Some (default (str "appendonly.aof") (fc_appendfilename f)) else None
     | None => None
     end) in
  let appendfsync := or_else (rf_appendfsync raw) (file ≫= fc_appendfsync) in
  if bool_decide (appendfsync ≠ None) && bool_decide (aof_path = None) then
    Err (str "appendfsync requires AOF to be enabled (via --aof-path or 'appendonly yes')")
  else
    let client_timeout :=
      match rf_client_timeout raw with
      | Some v => v
      | None => s ← file ≫= fc_timeout_secs; if s =? 0 then None else Some s
      end in
    Ok {|
      ca_addr := addr;
      ca_aof_path := aof_path;
      ca_appendfsync := appendfsync;
      ca_client_timeout := client_timeout;
      ca_max_clients := or_else (rf_max_clients raw) (file ≫= fc_max_clients);
      ca_loglevel := or_else (rf_loglevel raw) (file ≫= fc_loglevel);
      ca_max_memory := or_else (rf_max_memory raw) (file ≫= fc_max_memory);
      ca_max_memory_policy := or_else (rf_max_memory_policy raw) (file ≫= fc_max_memory_policy);
      ca_max_memory_samples := or_else (rf_max_memory_samples raw) (file ≫= fc_max_memory_samples);
      ca_requirepass := or_else (rf_requirepass raw) (file ≫= fc_requirepass);
      ca_io_threads := or_else (rf_io_threads raw) (file ≫= fc_io_threads);
      ca_dashboard_addr := or_else (rf_dashboard_addr raw) (file ≫= fc_dashboard_addr);
      ca_dashboard_token := or_else (rf_dashboard_token raw) (file ≫= fc_dashboard_token);
    |}.

(** [CliArgs::parse]; [read] is what [fs::read_to_string] answers. *)
Definition cli_parse (read : bytes → result bytes bytes) (args : list bytes) : result bytes Invocation :=
  match scan_argv args RawFlags_default with
  | Err m => Err m
  | Ok ScanHelp => Ok Help
  | Ok (Flags raw) =>
      match (match rf_config_path raw with
             | Some path =>
                 match load read path with
                 | Ok cfg => Ok (Some cfg)
                 | Err e => Err (config_error_display e)
                 end
             | None => Ok None
             end) with
      | Err m => Err m
      | Ok file_cfg =>
          match merge raw file_cfg with
          | Ok merged => Ok (Run merged)
          | Err m => Err m
          end
      end
  end.

(** ** What the program asks for *)

(** [aof_config] *)
Definition aof_config (args : CliArgs) : option AofConfig :=
  path ← ca_aof_path args;
  Some {| cfg_path := path; cfg_fsync := default EverySec (ca_appendfsync args) |}.

(** [dashboard_addr] *)
Definition dashboard_addr (args : CliArgs) : option bytes :=
  match ca_dashboard_addr args with
  | None => Some DEFAULT_DASHBOARD_ADDR
  | Some s =>
      if eq_ignore_ascii_case s (str "off") || eq_ignore_ascii_case s (str "disabled")
         || eq_ignore_ascii_case s (str "none")
      then None else Some s
  end.

(** [eviction_config] *)
Definition eviction_config (args : CliArgs) : EvictionConfig := {|
  max_memory := default (max_memory default_config) (ca_max_memory args);
  policy := default (policy default_config) (ca_max_memory_policy args);
  samples := default (samples default_config) (ca_max_memory_samples args);
|}.

(** ** Writing a command line *)

Definition seconds (t : option Z) : bytes := to_string_u (default 0 t).

(** The flags that are set, each followed by its value. *)
Definition flags_of (raw : RawFlags) : list (bytes * bytes) :=
  setting "--config" id (rf_config_path raw) ++
  setting "--addr" id (rf_addr raw) ++
  setting "--aof-path" id (rf_aof_path raw) ++
  setting "--appendfsync" fsync_name (rf_appendfsync raw) ++
  setting "--client-timeout" seconds (rf_client_timeout raw) ++
  setting "--maxclients" to_string_u (rf_max_clients raw) ++
  setting "--loglevel" id (rf_loglevel raw) ++
  setting "--maxmemory" to_string_u (rf_max_memory raw) ++
  setting "--maxmemory-policy" policy_name (rf_max_memory_policy raw) ++
  setting "--maxmemory-samples" to_string_u (rf_max_memory_samples raw) ++
  setting "--requirepass" id (rf_requirepass raw) ++
  setting "--io-threads" to_string_u (rf_io_threads raw) ++
  setting "--dashboard-addr" id (rf_dashboard_addr raw) ++
  setting "--dashboard-token" id (rf_dashboard_token raw).
Definition spread (ds : list (bytes * bytes)) : list bytes := flat_map (λ p, [p.1; p.2]) ds.
Definition argv_of (raw : RawFlags) : list bytes := spread (flags_of raw).

(** Numbers of their width, a known log level, a token that is not empty. *)
Definition sayable (raw : RawFlags) : bool :=
  holds_of (rf_client_timeout raw) (λ t, holds_of t (λ s, (0 <? s) && (s <=? u64_max))) &&
  forallb (λ o, holds_of o in_u64)
    [rf_max_clients raw; rf_max_memory raw; rf_max_memory_samples raw; rf_io_threads raw] &&
  holds_of (rf_loglevel raw) (λ l, existsb (bytes_eqb l) LOG_LEVELS) &&
  holds_of (rf_dashboard_token raw) (λ t, negb (bool_decide (t = []))).

(** ** Scanning what was written *)

Lemma scan_setting {A} key (f : A → bytes) (o : option A) (g : option A → RawFlags) ds raw r :
  g None = raw → existsb (bytes_eqb (str key)) VALUE_FLAGS = true →
  (∀ x, o = Some x → scan_value (str key) (f x) raw = Ok (g (Some x))) →
  scan_argv (spread ds) (g o) = r → scan_argv (spread (setting key f o ++ ds)) raw = r.
Proof.
  intros Hg Hk Hs Hr. destruct o as [x|]; [|by rewrite <- Hg]. cbn [setting spread flat_map app fst snd scan_argv].
  rewrite Hk, (Hs x) by done. exact Hr.
Qed.

Lemma flag_usize_to_string flag n : in_u64 n = true → flag_usize flag (to_string_u n) = Ok n.
Proof.
  unfold in_u64. intros Hn. bool_to_prop. unfold flag_usize, parse_usize. by rewrite parse_unsigned_to_string.
Qed.
Lemma cli_parse_bytes_to_string n : in_u64 n = true → cli_parse_bytes (to_string_u n) = Ok n.
Proof.
  intros Hn. pose proof (parse_bytes_to_string n [] Hn) as Hp. unfold parse_bytes in Hp. unfold cli_parse_bytes.
  destruct (split_size _ _) as [num factor]. destruct (parse_u64 _) as [z|]; [|done].
  destruct (_ <=? _); [exact Hp|done].
Qed.
Lemma seconds_parse t :
  holds_of t (λ s, (0 <? s) && (s <=? u64_max)) = true → parse_timeout_seconds (seconds t) = Ok t.
Proof.
  unfold parse_timeout_seconds, seconds, parse_u64. destruct t as [s|]; simpl; intros Ht; [|done].
  bool_to_prop. rewrite parse_unsigned_to_string by lia. by replace (s =? 0) with false by (symmetry; apply Z.eqb_neq; lia).
Qed.

Section flags.
Implicit Types (raw : RawFlags).

Lemma scan_client_timeout o raw :
  holds_of o (λ t, holds_of t (λ s, (0 <? s) && (s <=? u64_max))) = true → ∀ t, o = Some t →
  scan_value (str "--client-timeout") (seconds t) raw = Ok (flag_client_timeout t raw).
Proof.
  intros Ho t ->. change (scan_value _ _ _) with (then_flag (parse_timeout_seconds (seconds t)) (λ t, flag_client_timeout t raw)).
  by rewrite seconds_parse.
Qed.
Lemma scan_max_clients o raw :
  holds_of o in_u64 = true → ∀ n, o = Some n →
  scan_value (str "--maxclients") (to_string_u n) raw = Ok (flag_max_clients n raw).
Proof.
  intros Ho n ->. change (scan_value _ _ _) with (then_flag (flag_usize (str "--maxclients") (to_string_u n)) (λ n, flag_max_clients n raw)).
  by rewrite flag_usize_to_string.
Qed.
Lemma scan_max_memory_samples o raw :
  holds_of o in_u64 = true → ∀ n, o = Some n →
  scan_value (str "--maxmemory-samples") (to_string_u n) raw = Ok (flag_max_memory_samples n raw).
Proof.
  intros Ho n ->. change (scan_value _ _ _) with (then_flag (flag_usize (str "--maxmemory-samples") (to_string_u n)) (λ n, flag_max_memory_samples n raw)).
  by rewrite flag_usize_to_string.
Qed.
Lemma scan_io_threads o raw :
  holds_of o in_u64 = true → ∀ n, o = Some n →
  scan_value (str "--io-threads") (to_string_u n) raw = Ok (flag_io_threads n raw).
Proof.
  intros Ho n ->. change (scan_value _ _ _) with (then_flag (flag_usize (str "--io-threads") (to_string_u n)) (λ n, flag_io_threads n raw)).
  by rewrite flag_usize_to_string.
Qed.
Lemma scan_max_memory o raw :
  holds_of o in_u64 = true → ∀ n, o = Some n →
  scan_value (str "--maxmemory") (to_string_u n) raw = Ok (flag_max_memory n raw).
Proof.
  intros Ho n ->. change (scan_value _ _ _) with (
    match cli_parse_bytes (to_string_u n) with
    | Ok n => Ok (flag_max_memory n raw)
    | Err e => Err (str "invalid --maxmemory: " ++ e)
    end). by rewrite cli_parse_bytes_to_string.
Qed.
Lemma scan_loglevel o raw :
  holds_of o (λ l, existsb (bytes_eqb l) LOG_LEVELS) = true → ∀ l, o = Some l →
  scan_value (str "--loglevel") (id l) raw = Ok (flag_loglevel l raw).
Proof.
  intros Ho l ->. apply existsb_exists in Ho as (l' & Hin & Hl). apply bytes_eqb_eq in Hl. subst l'.
  unfold LOG_LEVELS in Hin. by repeat (destruct Hin as [<-|Hin]; [done|]).
Qed.
Lemma scan_dashboard_token o raw :
  holds_of o (λ t, negb (bool_decide (t = []))) = true → ∀ t, o = Some t →
  scan_value (str "--dashboard-token") (id t) raw = Ok (flag_dashboard_token t raw).
Proof. intros Ho t ->. by destruct t. Qed.
End flags.

(** The command line that sets the flags [raw] is scanned as [raw]. *)
Lemma scan_argv_of raw : sayable raw = true → scan_argv (argv_of raw) RawFlags_default = Ok (Flags raw).
Proof.
  intros Hw. destruct raw as [a b c d e f g h i j k l m n]. unfold sayable in Hw. cbn [forallb rf_config_path rf_addr rf_aof_path rf_appendfsync rf_client_timeout rf_max_clients rf_loglevel rf_max_memory rf_max_memory_policy rf_max_memory_samples rf_requirepass rf_io_threads rf_dashboard_addr rf_dashboard_token] in Hw.
  repeat match goal with H : _ && _ = true |- _ => apply andb_prop in H as [? ?] end.
  unfold argv_of, flags_of, RawFlags_default. cbn [rf_config_path rf_addr rf_aof_path rf_appendfsync rf_client_timeout rf_max_clients rf_loglevel rf_max_memory rf_max_memory_policy rf_max_memory_samples rf_requirepass rf_io_threads rf_dashboard_addr rf_dashboard_token].
  apply (scan_setting _ _ a (λ x, Build_RawFlags x None None None None None None None None None None None None None)); [reflexivity|reflexivity|by intros x ->|].
  apply (scan_setting _ _ b (λ x, Build_RawFlags a x None None None None None None None None None None None None)); [reflexivity|reflexivity|by intros x ->|].
  apply (scan_setting _ _ c (λ x, Build_RawFlags a b x None None None None None None None None None None None)); [reflexivity|reflexivity|by intros x ->|].
  apply (scan_setting _ _ d (λ x, Build_RawFlags a b c x None None None None None None None None None None)); [reflexivity|reflexivity|by intros [] ->|].
  apply (scan_setting _ _ e (λ x, Build_RawFlags a b c d x None None None None None None None None None)); [reflexivity|reflexivity|by apply scan_client_timeout|].
  apply (scan_setting _ _ f (λ x, Build_RawFlags a b c d e x None None None None None None None None)); [reflexivity|reflexivity|by apply scan_max_clients|].
  apply (scan_setting _ _ g (λ x, Build_RawFlags a b c d e f x None None None None None None None)); [reflexivity|reflexivity|by apply scan_loglevel|].
  apply (scan_setting _ _ h (λ x, Build_RawFlags a b c d e f g x None None None None None None)); [reflexivity|reflexivity|by apply scan_max_memory|].
  apply (scan_setting _ _ i (λ x, Build_RawFlags a b c d e f g h x None None None None None)); [reflexivity|reflexivity|by intros [] ->|].
  apply (scan_setting _ _ j (λ x, Build_RawFlags a b c d e f g h i x None None None None)); [reflexivity|reflexivity|by apply scan_max_memory_samples|].
  apply (scan_setting _ _ k (λ x, Build_RawFlags a b c d e f g h i j x None None None)); [reflexivity|reflexivity|by intros x ->|].
  apply (scan_setting _ _ l (λ x, Build_RawFlags a b c d e f g h i j k x None None)); [reflexivity|reflexivity|by apply scan_io_threads|].
  apply (scan_setting _ _ m (λ x, Build_RawFlags a b c d e f g h i j k l x None)); [reflexivity|reflexivity|by intros x ->|].
  rewrite <- (app_nil_r (setting _ id n)).
  apply (scan_setting _ _ n (λ x, Build_RawFlags a b c d e f g h i j k l m x)); [reflexivity|reflexivity|by apply scan_dashboard_token|].
  done.
Qed.

(** ** Precedence *)

(** The file that counts: the one the command line names, or none. *)
Definition file_settings (raw : RawFlags) (cfg : FileConfig) : FileConfig :=
  match rf_config_path raw with Some _ => cfg | None => FileConfig_default end.

(** The log and its policy as the two sources leave them. *)
Definition wanted_log (raw : RawFlags) (file : FileConfig) : option bytes :=
  or_else (rf_aof_path raw)
    (if default false (fc_appendonly file)
     then Some (default (str "appendonly.aof") (fc_appendfilename file)) else None).
Definition wanted_fsync (raw : RawFlags) (file : FileConfig) : option FsyncPolicy :=
  or_else (rf_appendfsync raw) (fc_appendfsync file).

Lemma default_addr : compose_addr_from_file FileConfig_default = DEFAULT_ADDR.
Proof. reflexivity. Qed.

(** A missing file counts as an empty one. *)
Lemma merge_no_file raw : merge raw None = merge raw (Some FileConfig_default).
Proof. done. Qed.

Lemma cli_parse_argv read raw cfg :
  sayable raw = true → writable cfg = true →
  (∀ p, rf_config_path raw = Some p → read p = Ok (render cfg)) →
  cli_parse read (argv_of raw)
  = match merge raw (Some (file_settings raw cfg)) with Ok a => Ok (Run a) | Err m => Err m end.
Proof.
  intros Hr Hc Hread. unfold cli_parse. rewrite scan_argv_of by done. unfold file_settings.
  destruct (rf_config_path raw) as [p|]; [|by rewrite <- merge_no_file].
  by rewrite (config_file_load read p cfg Hc (Hread p eq_refl)).
Qed.

(** C29: The command line wins over the file it names, and the file over the
    defaults, for each of the thirteen settings: started with the flags [raw] and a
    file that holds [cfg], all of them values that can be written down, the program
    gets the flag if it was given, else the directive if the file has it, else the
    built-in value; the dashboard is off exactly when the winning value is one of
    the words for it. It is refused exactly when an fsync policy is set and no log
    is. *)
Theorem cli_precedence (read : bytes → result bytes bytes) (raw : RawFlags) (cfg : FileConfig) :
  sayable raw = true → writable cfg = true →
  (∀ p, rf_config_path raw = Some p → read p = Ok (render cfg)) →
  let file := file_settings raw cfg in
  match cli_parse read (argv_of raw) with
  | Ok (Run args) =>
      (wanted_fsync raw file = None ∨ wanted_log raw file ≠ None) ∧
      aof_config args
      = (λ p, {| cfg_path := p; cfg_fsync := default EverySec (wanted_fsync raw file) |}) <$> wanted_log raw file ∧
      eviction_config args = {|
        max_memory := default 0 (or_else (rf_max_memory raw) (fc_max_memory file));
        policy := default NoEviction (or_else (rf_max_memory_policy raw) (fc_max_memory_policy file));
        samples := default 5 (or_else (rf_max_memory_samples raw) (fc_max_memory_samples file)) |} ∧
      ca_requirepass args = or_else (rf_requirepass raw) (fc_requirepass file) ∧
      ca_max_clients args = or_else (rf_max_clients raw) (fc_max_clients file) ∧
      ca_io_threads args = or_else (rf_io_threads raw) (fc_io_threads file) ∧
      ca_loglevel args = or_else (rf_loglevel raw) (fc_loglevel file) ∧
      ca_dashboard_addr args = or_else (rf_dashboard_addr raw) (fc_dashboard_addr file) ∧
      dashboard_addr args
      = (let s := default (str "127.0.0.1:6381") (or_else (rf_dashboard_addr raw) (fc_dashboard_addr file)) in
         if existsb (eq_ignore_ascii_case s) [str "off"; str "disabled"; str "none"] then None else Some s) ∧
      ca_dashboard_token args = or_else (rf_dashboard_token raw) (fc_dashboard_token file) ∧
      ca_client_timeout args
      = match rf_client_timeout raw with
        | Some t => t
        | None => match fc_timeout_secs file with Some s => if s =? 0 then None else Some s | None => None end
        end ∧
      ca_addr args = default (compose_addr_from_file file) (rf_addr raw)
  | Ok Help => False
  | Err _ => wanted_fsync raw file ≠ None ∧ wanted_log raw file = None
  end.
Proof.
  intros Hr Hc Hread file. rewrite (cli_parse_argv read raw cfg Hr Hc Hread). fold file.
  unfold merge. change (Some file ≫= fc_appendfsync) with (fc_appendfsync file).
  fold (wanted_log raw file) (wanted_fsync raw file).
  destruct (bool_decide (wanted_fsync raw file ≠ None) && bool_decide (wanted_log raw file = None)) eqn:E.
  { apply andb_prop in E as [E1 E2]. by bool_to_prop. }
  split.
  { apply andb_false_iff in E as [E|E]; bool_to_prop; [|by right]. left. by apply dec_stable. }
  assert (Hd : ∀ args : CliArgs, dashboard_addr args =
    let s := default (str "127.0.0.1:6381") (ca_dashboard_addr args) in
    if existsb (eq_ignore_ascii_case s) [str "off"; str "disabled"; str "none"] then None else Some s).
  { intros args. unfold dashboard_addr. destruct (ca_dashboard_addr args) as [s|]; [|reflexivity].
    cbn [default existsb]. by rewrite orb_false_r, orb_assoc. }
  rewrite Hd. unfold aof_config, eviction_config. cbn -[eq_ignore_ascii_case str].
  by split_and!.
Qed.

Definition flags_example : RawFlags := {|
  rf_config_path := Some (str "f.conf"); rf_addr := None; rf_aof_path := None; rf_appendfsync := None;
  rf_client_timeout := Some (Some 30); rf_max_clients := Some 7; rf_loglevel := None;
  rf_max_memory := Some 1000; rf_max_memory_policy := None; rf_max_memory_samples := None;
  rf_requirepass := None; rf_io_threads := None; rf_dashboard_addr := Some (str "Off");
  rf_dashboard_token := Some (str "t") |}.

Lemma cli_precedence_witness :
  match cli_parse (λ _, Ok (render config_example)) (argv_of flags_example) with
  | Ok (Run args) =>
      aof_config args = Some {| cfg_path := str " my log.aof"; cfg_fsync := Always |} ∧
      eviction_config args = {| max_memory := 1000; policy := AllKeysSieve; samples := 5 |} ∧
      dashboard_addr args = None
  | _ => False
  end.
Proof.
  pose proof (cli_precedence (λ _, Ok (render config_example)) flags_example config_example
    eq_refl eq_refl (λ _ _, eq_refl)) as H.
  destruct (cli_parse _ _) as [[args|]|] eqn:E; [|done|by destruct H].
  destruct H as (_ & H1 & H2 & _ & _ & _ & _ & _ & H3 & _). rewrite H1, H2, H3. by split_and!.
Defined.
