(* ===== verification/Engine.v ===== *)
(** * The engine: state, memory tracking, eviction, slow log, configuration
    (src/src/storage/engine/mod.rs)

    [Engine] is [KvEngine] with its shared cells unfolded: one command runs at a
    time under the keyspace lock, so a command is a state transformer. Lock
    poisoning, which needs a panicking thread, is not modelled. A socket
    address is its rendered text. *)
From S2P Require Import Prelude Numeric Error Floats Encoder IndexMap Eviction Entry Sieve AdaptiveClimb Glob Aof.
From Stdlib Require Import ZArith Lia SpecFloat.
From stdpp Require Import gmap strings numbers list.
Local Open Scope Z_scope.

(** The clock readings of one command: under the shared lock, when the write
    guard is taken, and any later one. *)
Record Env := { env_read : Clock; env_guard : Clock; env_late : Clock }.

Record SlowLogEntry := {
  sl_id : Z;
  sl_ts_secs : Z;
  sl_duration_us : Z;
  sl_args : list bytes;
  sl_peer : bytes;
}.

(** [MonitorMessage] and the sending half of a MONITOR client's channel: the
    messages queued on it, and whether the client is still there. *)
Record MonitorMessage := { mm_timestamp_ms : Z; mm_peer : bytes; mm_args : list bytes }.
Record Sender := { tx_open : bool; tx_queue : list MonitorMessage }.

Section engine.
Context `{IndexMap} `{HashIter}.

Record Engine := {
  e_store : store;
  e_aof : option AofWriter;
  e_used_memory : Z;
  e_eviction : EvictionConfig;
  e_hits : Z;
  e_misses : Z;
  e_ahe : AdaptiveHybridState;
  e_sieve : SieveState;
  e_ac : AdaptiveClimbState;
  e_auth_password : option bytes;
  e_rng : Z;
  e_slowlog_slower_than_us : Z;
  e_slowlog_max_len : Z;
  e_slowlog : list SlowLogEntry;
  e_slowlog_seq : Z;
  e_total_commands : Z;
  e_evicted_keys : Z;
  e_expired_keys : Z;
  e_monitor_registry : list Sender;
  e_index_kind : Z;
  e_auth_required : bool;
  e_aof_errors : Z;
  e_sweep_cursor : Z;
}.

(** One update per field. *)
Definition set_store (v : store) (e : Engine) : Engine :=
  {| e_store := v; e_aof := e_aof e; e_used_memory := e_used_memory e; e_eviction :=
     e_eviction e; e_hits := e_hits e; e_misses := e_misses e; e_ahe := e_ahe e; e_sieve :=
     e_sieve e; e_ac := e_ac e; e_auth_password := e_auth_password e; e_rng := e_rng e;
     e_slowlog_slower_than_us := e_slowlog_slower_than_us e; e_slowlog_max_len :=
     e_slowlog_max_len e; e_slowlog := e_slowlog e; e_slowlog_seq := e_slowlog_seq e;
     e_total_commands := e_total_commands e; e_evicted_keys := e_evicted_keys e;
     e_expired_keys := e_expired_keys e; e_monitor_registry := e_monitor_registry e;
     e_index_kind := e_index_kind e; e_auth_required := e_auth_required e; e_aof_errors :=
     e_aof_errors e; e_sweep_cursor := e_sweep_cursor e |}.
Definition set_aof (v : option AofWriter) (e : Engine) : Engine :=
  {| e_store := e_store e; e_aof := v; e_used_memory := e_used_memory e; e_eviction :=
     e_eviction e; e_hits := e_hits e; e_misses := e_misses e; e_ahe := e_ahe e; e_sieve :=
     e_sieve e; e_ac := e_ac e; e_auth_password := e_auth_password e; e_rng := e_rng e;
     e_slowlog_slower_than_us := e_slowlog_slower_than_us e; e_slowlog_max_len :=
     e_slowlog_max_len e; e_slowlog := e_slowlog e; e_slowlog_seq := e_slowlog_seq e;
     e_total_commands := e_total_commands e; e_evicted_keys := e_evicted_keys e;
     e_expired_keys := e_expired_keys e; e_monitor_registry := e_monitor_registry e;
     e_index_kind := e_index_kind e; e_auth_required := e_auth_required e; e_aof_errors :=
     e_aof_errors e; e_sweep_cursor := e_sweep_cursor e |}.
Definition set_used_memory (v : Z) (e : Engine) : Engine :=
  {| e_store := e_store e; e_aof := e_aof e; e_used_memory := v; e_eviction := e_eviction e;
     e_hits := e_hits e; e_misses := e_misses e; e_ahe := e_ahe e; e_sieve := e_sieve e;
     e_ac := e_ac e; e_auth_password := e_auth_password e; e_rng := e_rng e;
     e_slowlog_slower_than_us := e_slowlog_slower_than_us e; e_slowlog_max_len :=
     e_slowlog_max_len e; e_slowlog := e_slowlog e; e_slowlog_seq := e_slowlog_seq e;
     e_total_commands := e_total_commands e; e_evicted_keys := e_evicted_keys e;
     e_expired_keys := e_expired_keys e; e_monitor_registry := e_monitor_registry e;
     e_index_kind := e_index_kind e; e_auth_required := e_auth_required e; e_aof_errors :=
     e_aof_errors e; e_sweep_cursor := e_sweep_cursor e |}.
Definition set_eviction (v : EvictionConfig) (e : Engine) : Engine :=
  {| e_store := e_store e; e_aof := e_aof e; e_used_memory := e_used_memory e; e_eviction :=
     v; e_hits := e_hits e; e_misses := e_misses e; e_ahe := e_ahe e; e_sieve := e_sieve e;
     e_ac := e_ac e; e_auth_password := e_auth_password e; e_rng := e_rng e;
     e_slowlog_slower_than_us := e_slowlog_slower_than_us e; e_slowlog_max_len :=
     e_slowlog_max_len e; e_slowlog := e_slowlog e; e_slowlog_seq := e_slowlog_seq e;
     e_total_commands := e_total_commands e; e_evicted_keys := e_evicted_keys e;
     e_expired_keys := e_expired_keys e; e_monitor_registry := e_monitor_registry e;
     e_index_kind := e_index_kind e; e_auth_required := e_auth_required e; e_aof_errors :=
     e_aof_errors e; e_sweep_cursor := e_sweep_cursor e |}.
Definition set_hits (v : Z) (e : Engine) : Engine :=
  {| e_store := e_store e; e_aof := e_aof e; e_used_memory := e_used_memory e; e_eviction :=
     e_eviction e; e_hits := v; e_misses := e_misses e; e_ahe := e_ahe e; e_sieve := e_sieve
     e; e_ac := e_ac e; e_auth_password := e_auth_password e; e_rng := e_rng e;
     e_slowlog_slower_than_us := e_slowlog_slower_than_us e; e_slowlog_max_len :=
     e_slowlog_max_len e; e_slowlog := e_slowlog e; e_slowlog_seq := e_slowlog_seq e;
     e_total_commands := e_total_commands e; e_evicted_keys := e_evicted_keys e;
     e_expired_keys := e_expired_keys e; e_monitor_registry := e_monitor_registry e;
     e_index_kind := e_index_kind e; e_auth_required := e_auth_required e; e_aof_errors :=
     e_aof_errors e; e_sweep_cursor := e_sweep_cursor e |}.
Definition set_misses (v : Z) (e : Engine) : Engine :=
  {| e_store := e_store e; e_aof := e_aof e; e_used_memory := e_used_memory e; e_eviction :=
     e_eviction e; e_hits := e_hits e; e_misses := v; e_ahe := e_ahe e; e_sieve := e_sieve
     e; e_ac := e_ac e; e_auth_password := e_auth_password e; e_rng := e_rng e;
     e_slowlog_slower_than_us := e_slowlog_slower_than_us e; e_slowlog_max_len :=
     e_slowlog_max_len e; e_slowlog := e_slowlog e; e_slowlog_seq := e_slowlog_seq e;
     e_total_commands := e_total_commands e; e_evicted_keys := e_evicted_keys e;
     e_expired_keys := e_expired_keys e; e_monitor_registry := e_monitor_registry e;
     e_index_kind := e_index_kind e; e_auth_required := e_auth_required e; e_aof_errors :=
     e_aof_errors e; e_sweep_cursor := e_sweep_cursor e |}.
Definition set_ahe (v : AdaptiveHybridState) (e : Engine) : Engine :=
  {| e_store := e_store e; e_aof := e_aof e; e_used_memory := e_used_memory e; e_eviction :=
     e_eviction e; e_hits := e_hits e; e_misses := e_misses e; e_ahe := v; e_sieve :=
     e_sieve e; e_ac := e_ac e; e_auth_password := e_auth_password e; e_rng := e_rng e;
     e_slowlog_slower_than_us := e_slowlog_slower_than_us e; e_slowlog_max_len :=
     e_slowlog_max_len e; e_slowlog := e_slowlog e; e_slowlog_seq := e_slowlog_seq e;
     e_total_commands := e_total_commands e; e_evicted_keys := e_evicted_keys e;
     e_expired_keys := e_expired_keys e; e_monitor_registry := e_monitor_registry e;
     e_index_kind := e_index_kind e; e_auth_required := e_auth_required e; e_aof_errors :=
     e_aof_errors e; e_sweep_cursor := e_sweep_cursor e |}.
Definition set_sieve (v : SieveState) (e : Engine) : Engine :=
  {| e_store := e_store e; e_aof := e_aof e; e_used_memory := e_used_memory e; e_eviction :=
     e_eviction e; e_hits := e_hits e; e_misses := e_misses e; e_ahe := e_ahe e; e_sieve :=
     v; e_ac := e_ac e; e_auth_password := e_auth_password e; e_rng := e_rng e;
     e_slowlog_slower_than_us := e_slowlog_slower_than_us e; e_slowlog_max_len :=
     e_slowlog_max_len e; e_slowlog := e_slowlog e; e_slowlog_seq := e_slowlog_seq e;
     e_total_commands := e_total_commands e; e_evicted_keys := e_evicted_keys e;
     e_expired_keys := e_expired_keys e; e_monitor_registry := e_monitor_registry e;
     e_index_kind := e_index_kind e; e_auth_required := e_auth_required e; e_aof_errors :=
     e_aof_errors e; e_sweep_cursor := e_sweep_cursor e |}.
Definition set_ac (v : AdaptiveClimbState) (e : Engine) : Engine :=
  {| e_store := e_store e; e_aof := e_aof e; e_used_memory := e_used_memory e; e_eviction :=
     e_eviction e; e_hits := e_hits e; e_misses := e_misses e; e_ahe := e_ahe e; e_sieve :=
     e_sieve e; e_ac := v; e_auth_password := e_auth_password e; e_rng := e_rng e;
     e_slowlog_slower_than_us := e_slowlog_slower_than_us e; e_slowlog_max_len :=
     e_slowlog_max_len e; e_slowlog := e_slowlog e; e_slowlog_seq := e_slowlog_seq e;
     e_total_commands := e_total_commands e; e_evicted_keys := e_evicted_keys e;
     e_expired_keys := e_expired_keys e; e_monitor_registry := e_monitor_registry e;
     e_index_kind := e_index_kind e; e_auth_required := e_auth_required e; e_aof_errors :=
     e_aof_errors e; e_sweep_cursor := e_sweep_cursor e |}.
Definition set_auth_password (v : option bytes) (e : Engine) : Engine :=
  {| e_store := e_store e; e_aof := e_aof e; e_used_memory := e_used_memory e; e_eviction :=
     e_eviction e; e_hits := e_hits e; e_misses := e_misses e; e_ahe := e_ahe e; e_sieve :=
     e_sieve e; e_ac := e_ac e; e_auth_password := v; e_rng := e_rng e;
     e_slowlog_slower_than_us := e_slowlog_slower_than_us e; e_slowlog_max_len :=
     e_slowlog_max_len e; e_slowlog := e_slowlog e; e_slowlog_seq := e_slowlog_seq e;
     e_total_commands := e_total_commands e; e_evicted_keys := e_evicted_keys e;
     e_expired_keys := e_expired_keys e; e_monitor_registry := e_monitor_registry e;
     e_index_kind := e_index_kind e; e_auth_required := e_auth_required e; e_aof_errors :=
     e_aof_errors e; e_sweep_cursor := e_sweep_cursor e |}.
Definition set_rng (v : Z) (e : Engine) : Engine :=
  {| e_store := e_store e; e_aof := e_aof e; e_used_memory := e_used_memory e; e_eviction :=
     e_eviction e; e_hits := e_hits e; e_misses := e_misses e; e_ahe := e_ahe e; e_sieve :=
     e_sieve e; e_ac := e_ac e; e_auth_password := e_auth_password e; e_rng := v;
     e_slowlog_slower_than_us := e_slowlog_slower_than_us e; e_slowlog_max_len :=
     e_slowlog_max_len e; e_slowlog := e_slowlog e; e_slowlog_seq := e_slowlog_seq e;
     e_total_commands := e_total_commands e; e_evicted_keys := e_evicted_keys e;
     e_expired_keys := e_expired_keys e; e_monitor_registry := e_monitor_registry e;
     e_index_kind := e_index_kind e; e_auth_required := e_auth_required e; e_aof_errors :=
     e_aof_errors e; e_sweep_cursor := e_sweep_cursor e |}.
Definition set_slowlog_slower_than_us (v : Z) (e : Engine) : Engine :=
  {| e_store := e_store e; e_aof := e_aof e; e_used_memory := e_used_memory e; e_eviction :=
     e_eviction e; e_hits := e_hits e; e_misses := e_misses e; e_ahe := e_ahe e; e_sieve :=
     e_sieve e; e_ac := e_ac e; e_auth_password := e_auth_password e; e_rng := e_rng e;
     e_slowlog_slower_than_us := v; e_slowlog_max_len := e_slowlog_max_len e; e_slowlog :=
     e_slowlog e; e_slowlog_seq := e_slowlog_seq e; e_total_commands := e_total_commands e;
     e_evicted_keys := e_evicted_keys e; e_expired_keys := e_expired_keys e;
     e_monitor_registry := e_monitor_registry e; e_index_kind := e_index_kind e;
     e_auth_required := e_auth_required e; e_aof_errors := e_aof_errors e; e_sweep_cursor :=
     e_sweep_cursor e |}.
Definition set_slowlog_max_len (v : Z) (e : Engine) : Engine :=
  {| e_store := e_store e; e_aof := e_aof e; e_used_memory := e_used_memory e; e_eviction :=
     e_eviction e; e_hits := e_hits e; e_misses := e_misses e; e_ahe := e_ahe e; e_sieve :=
     e_sieve e; e_ac := e_ac e; e_auth_password := e_auth_password e; e_rng := e_rng e;
     e_slowlog_slower_than_us := e_slowlog_slower_than_us e; e_slowlog_max_len := v;
     e_slowlog := e_slowlog e; e_slowlog_seq := e_slowlog_seq e; e_total_commands :=
     e_total_commands e; e_evicted_keys := e_evicted_keys e; e_expired_keys :=
     e_expired_keys e; e_monitor_registry := e_monitor_registry e; e_index_kind :=
     e_index_kind e; e_auth_required := e_auth_required e; e_aof_errors := e_aof_errors e;
     e_sweep_cursor := e_sweep_cursor e |}.
Definition set_slowlog (v : list SlowLogEntry) (e : Engine) : Engine :=
  {| e_store := e_store e; e_aof := e_aof e; e_used_memory := e_used_memory e; e_eviction :=
     e_eviction e; e_hits := e_hits e; e_misses := e_misses e; e_ahe := e_ahe e; e_sieve :=
     e_sieve e; e_ac := e_ac e; e_auth_password := e_auth_password e; e_rng := e_rng e;
     e_slowlog_slower_than_us := e_slowlog_slower_than_us e; e_slowlog_max_len :=
     e_slowlog_max_len e; e_slowlog := v; e_slowlog_seq := e_slowlog_seq e; e_total_commands
     := e_total_commands e; e_evicted_keys := e_evicted_keys e; e_expired_keys :=
     e_expired_keys e; e_monitor_registry := e_monitor_registry e; e_index_kind :=
     e_index_kind e; e_auth_required := e_auth_required e; e_aof_errors := e_aof_errors e;
     e_sweep_cursor := e_sweep_cursor e |}.
Definition set_slowlog_seq (v : Z) (e : Engine) : Engine :=
  {| e_store := e_store e; e_aof := e_aof e; e_used_memory := e_used_memory e; e_eviction :=
     e_eviction e; e_hits := e_hits e; e_misses := e_misses e; e_ahe := e_ahe e; e_sieve :=
     e_sieve e; e_ac := e_ac e; e_auth_password := e_auth_password e; e_rng := e_rng e;
     e_slowlog_slower_than_us := e_slowlog_slower_than_us e; e_slowlog_max_len :=
     e_slowlog_max_len e; e_slowlog := e_slowlog e; e_slowlog_seq := v; e_total_commands :=
     e_total_commands e; e_evicted_keys := e_evicted_keys e; e_expired_keys :=
     e_expired_keys e; e_monitor_registry := e_monitor_registry e; e_index_kind :=
     e_index_kind e; e_auth_required := e_auth_required e; e_aof_errors := e_aof_errors e;
     e_sweep_cursor := e_sweep_cursor e |}.
Definition set_total_commands (v : Z) (e : Engine) : Engine :=
  {| e_store := e_store e; e_aof := e_aof e; e_used_memory := e_used_memory e; e_eviction :=
     e_eviction e; e_hits := e_hits e; e_misses := e_misses e; e_ahe := e_ahe e; e_sieve :=
     e_sieve e; e_ac := e_ac e; e_auth_password := e_auth_password e; e_rng := e_rng e;
     e_slowlog_slower_than_us := e_slowlog_slower_than_us e; e_slowlog_max_len :=
     e_slowlog_max_len e; e_slowlog := e_slowlog e; e_slowlog_seq := e_slowlog_seq e;
     e_total_commands := v; e_evicted_keys := e_evicted_keys e; e_expired_keys :=
     e_expired_keys e; e_monitor_registry := e_monitor_registry e; e_index_kind :=
     e_index_kind e; e_auth_required := e_auth_required e; e_aof_errors := e_aof_errors e;
     e_sweep_cursor := e_sweep_cursor e |}.
Definition set_evicted_keys (v : Z) (e : Engine) : Engine :=
  {| e_store := e_store e; e_aof := e_aof e; e_used_memory := e_used_memory e; e_eviction :=
     e_eviction e; e_hits := e_hits e; e_misses := e_misses e; e_ahe := e_ahe e; e_sieve :=
     e_sieve e; e_ac := e_ac e; e_auth_password := e_auth_password e; e_rng := e_rng e;
     e_slowlog_slower_than_us := e_slowlog_slower_than_us e; e_slowlog_max_len :=
     e_slowlog_max_len e; e_slowlog := e_slowlog e; e_slowlog_seq := e_slowlog_seq e;
     e_total_commands := e_total_commands e; e_evicted_keys := v; e_expired_keys :=
     e_expired_keys e; e_monitor_registry := e_monitor_registry e; e_index_kind :=
     e_index_kind e; e_auth_required := e_auth_required e; e_aof_errors := e_aof_errors e;
     e_sweep_cursor := e_sweep_cursor e |}.
Definition set_expired_keys (v : Z) (e : Engine) : Engine :=
  {| e_store := e_store e; e_aof := e_aof e; e_used_memory := e_used_memory e; e_eviction :=
     e_eviction e; e_hits := e_hits e; e_misses := e_misses e; e_ahe := e_ahe e; e_sieve :=
     e_sieve e; e_ac := e_ac e; e_auth_password := e_auth_password e; e_rng := e_rng e;
     e_slowlog_slower_than_us := e_slowlog_slower_than_us e; e_slowlog_max_len :=
     e_slowlog_max_len e; e_slowlog := e_slowlog e; e_slowlog_seq := e_slowlog_seq e;
     e_total_commands := e_total_commands e; e_evicted_keys := e_evicted_keys e;
     e_expired_keys := v; e_monitor_registry := e_monitor_registry e; e_index_kind :=
     e_index_kind e; e_auth_required := e_auth_required e; e_aof_errors := e_aof_errors e;
     e_sweep_cursor := e_sweep_cursor e |}.
Definition set_monitor_registry (v : list Sender) (e : Engine) : Engine :=
  {| e_store := e_store e; e_aof := e_aof e; e_used_memory := e_used_memory e; e_eviction :=
     e_eviction e; e_hits := e_hits e; e_misses := e_misses e; e_ahe := e_ahe e; e_sieve :=
     e_sieve e; e_ac := e_ac e; e_auth_password := e_auth_password e; e_rng := e_rng e;
     e_slowlog_slower_than_us := e_slowlog_slower_than_us e; e_slowlog_max_len :=
     e_slowlog_max_len e; e_slowlog := e_slowlog e; e_slowlog_seq := e_slowlog_seq e;
     e_total_commands := e_total_commands e; e_evicted_keys := e_evicted_keys e;
     e_expired_keys := e_expired_keys e; e_monitor_registry := v; e_index_kind :=
     e_index_kind e; e_auth_required := e_auth_required e; e_aof_errors := e_aof_errors e;
     e_sweep_cursor := e_sweep_cursor e |}.
Definition set_index_kind (v : Z) (e : Engine) : Engine :=
  {| e_store := e_store e; e_aof := e_aof e; e_used_memory := e_used_memory e; e_eviction :=
     e_eviction e; e_hits := e_hits e; e_misses := e_misses e; e_ahe := e_ahe e; e_sieve :=
     e_sieve e; e_ac := e_ac e; e_auth_password := e_auth_password e; e_rng := e_rng e;
     e_slowlog_slower_than_us := e_slowlog_slower_than_us e; e_slowlog_max_len :=
     e_slowlog_max_len e; e_slowlog := e_slowlog e; e_slowlog_seq := e_slowlog_seq e;
     e_total_commands := e_total_commands e; e_evicted_keys := e_evicted_keys e;
     e_expired_keys := e_expired_keys e; e_monitor_registry := e_monitor_registry e;
     e_index_kind := v; e_auth_required := e_auth_required e; e_aof_errors := e_aof_errors
     e; e_sweep_cursor := e_sweep_cursor e |}.
Definition set_auth_required (v : bool) (e : Engine) : Engine :=
  {| e_store := e_store e; e_aof := e_aof e; e_used_memory := e_used_memory e; e_eviction :=
     e_eviction e; e_hits := e_hits e; e_misses := e_misses e; e_ahe := e_ahe e; e_sieve :=
     e_sieve e; e_ac := e_ac e; e_auth_password := e_auth_password e; e_rng := e_rng e;
     e_slowlog_slower_than_us := e_slowlog_slower_than_us e; e_slowlog_max_len :=
     e_slowlog_max_len e; e_slowlog := e_slowlog e; e_slowlog_seq := e_slowlog_seq e;
     e_total_commands := e_total_commands e; e_evicted_keys := e_evicted_keys e;
     e_expired_keys := e_expired_keys e; e_monitor_registry := e_monitor_registry e;
     e_index_kind := e_index_kind e; e_auth_required := v; e_aof_errors := e_aof_errors e;
     e_sweep_cursor := e_sweep_cursor e |}.
Definition set_aof_errors (v : Z) (e : Engine) : Engine :=
  {| e_store := e_store e; e_aof := e_aof e; e_used_memory := e_used_memory e; e_eviction :=
     e_eviction e; e_hits := e_hits e; e_misses := e_misses e; e_ahe := e_ahe e; e_sieve :=
     e_sieve e; e_ac := e_ac e; e_auth_password := e_auth_password e; e_rng := e_rng e;
     e_slowlog_slower_than_us := e_slowlog_slower_than_us e; e_slowlog_max_len :=
     e_slowlog_max_len e; e_slowlog := e_slowlog e; e_slowlog_seq := e_slowlog_seq e;
     e_total_commands := e_total_commands e; e_evicted_keys := e_evicted_keys e;
     e_expired_keys := e_expired_keys e; e_monitor_registry := e_monitor_registry e;
     e_index_kind := e_index_kind e; e_auth_required := e_auth_required e; e_aof_errors :=
     v; e_sweep_cursor := e_sweep_cursor e |}.
Definition set_sweep_cursor (v : Z) (e : Engine) : Engine :=
  {| e_store := e_store e; e_aof := e_aof e; e_used_memory := e_used_memory e; e_eviction :=
     e_eviction e; e_hits := e_hits e; e_misses := e_misses e; e_ahe := e_ahe e; e_sieve :=
     e_sieve e; e_ac := e_ac e; e_auth_password := e_auth_password e; e_rng := e_rng e;
     e_slowlog_slower_than_us := e_slowlog_slower_than_us e; e_slowlog_max_len :=
     e_slowlog_max_len e; e_slowlog := e_slowlog e; e_slowlog_seq := e_slowlog_seq e;
     e_total_commands := e_total_commands e; e_evicted_keys := e_evicted_keys e;
     e_expired_keys := e_expired_keys e; e_monitor_registry := e_monitor_registry e;
     e_index_kind := e_index_kind e; e_auth_required := e_auth_required e; e_aof_errors :=
     e_aof_errors e; e_sweep_cursor := v |}.

Abbreviation M := (SE Engine FerrumError).

(** [KvEngine::new], seeded from the clock. *)
Definition engine_new (c : Clock) : Engine := {|
  e_store := ∅;
  e_aof := None;
  e_used_memory := 0;
  e_eviction := default_config;
  e_hits := 0;
  e_misses := 0;
  e_ahe := ahe_default;
  e_sieve := sieve_new;
  e_ac := ac_new;
  e_auth_password := None;
  e_rng := rng_seed c;
  e_slowlog_slower_than_us := 10000;
  e_slowlog_max_len := 128;
  e_slowlog := [];
  e_slowlog_seq := 0;
  e_total_commands := 0;
  e_evicted_keys := 0;
  e_expired_keys := 0;
  e_monitor_registry := [];
  e_index_kind := index_kind.NONE;
  e_auth_required := false;
  e_aof_errors := 0;
  e_sweep_cursor := 0;
|}.

(** [KvEngine::with_aof] *)
Definition with_aof (w : AofWriter) (e : Engine) : Engine := set_aof (Some w) e.

(** [AtomicU64::fetch_add(1)] *)
Definition succ64 (z : Z) : Z := wrap64 (z + 1).

(** ** Persistence bookkeeping *)

(** [note_aof_result] around an append: a failure is counted and logged, it
    does not fail the command. *)
Definition note_aof (m : WM ()) : M () := λ e,
  match e_aof e with
  | None => (Ok tt, e)
  | Some w =>
      let '(r, w') := m w in
      let e := set_aof (Some w') e in
      (Ok tt, match r with
              | Ok _ => e
              | Err _ => set_aof_errors (succ64 (e_aof_errors e)) e
              end)
  end.

(** [log_expire_drop] *)
Definition log_expire_drop (key : bytes) : M () := note_aof (append_del key).

Definition aof_barrier_blocks (e : Engine) : bool :=
  match e_aof e with Some w => bool_decide (w_policy w = Always) | None => false end.
Definition aof_fsync_count (e : Engine) : Z :=
  match e_aof e with Some w => w_fsyncs w | None => 0 end.
Definition aof_fsync_skips (e : Engine) : Z :=
  match e_aof e with Some w => w_fsync_skips w | None => 0 end.
Definition aof_append_batches (e : Engine) : Z :=
  match e_aof e with Some w => w_seq w | None => 0 end.

(** ** The stateful indexes *)

Definition sieve_notify_insert (key : bytes) (t : bool) (e : Engine) : Engine :=
  if index_kind.is_sieve (e_index_kind e)
  then set_sieve (sieve_observe_insert key t (e_sieve e)) e else e.
Definition sieve_notify_access (key : bytes) (e : Engine) : Engine :=
  if index_kind.is_sieve (e_index_kind e)
  then set_sieve (sieve_observe_access key (e_sieve e)) e else e.
Definition sieve_notify_remove (key : bytes) (e : Engine) : Engine :=
  if index_kind.is_sieve (e_index_kind e)
  then set_sieve (sieve_observe_remove key (e_sieve e)) e else e.
Definition ac_notify_insert (key : bytes) (t : bool) (e : Engine) : Engine :=
  if index_kind.is_ac (e_index_kind e)
  then set_ac (ac_observe_insert key t (e_ac e)) e else e.
Definition ac_notify_access (key : bytes) (e : Engine) : Engine :=
  if index_kind.is_ac (e_index_kind e)
  then set_ac (ac_observe_access key (e_ac e)) e else e.
Definition ac_notify_remove (key : bytes) (e : Engine) : Engine :=
  if index_kind.is_ac (e_index_kind e)
  then set_ac (ac_observe_remove key (e_ac e)) e else e.

(** [set_eviction_config]: the index is rebuilt or cleared only when its kind
    changes. *)
Definition set_eviction_config (cfg : EvictionConfig) : M () :=
  modify (λ e,
    let new_kind := policy_index_kind (policy cfg) in
    let e :=
      if new_kind =? e_index_kind e then e
      else
        let scope := policy_scope (policy cfg) in
        let e :=
          if index_kind.is_sieve new_kind then
            set_ac (ac_clear (e_ac e))
              (set_sieve (sieve_rebuild (e_store e) scope (e_sieve e)) e)
          else if index_kind.is_ac new_kind then
            set_sieve (sieve_clear (e_sieve e))
              (set_ac (ac_rebuild (e_store e) scope (e_ac e)) e)
          else set_ac (ac_clear (e_ac e)) (set_sieve (sieve_clear (e_sieve e)) e) in
        set_index_kind new_kind e in
    set_eviction cfg e).

(** [policy_index_memory] *)
Definition policy_index_memory (e : Engine) : Z :=
  if e_index_kind e =? index_kind.NONE then 0
  else wrap64 (Z.of_nat (size (e_store e)) * PER_INDEX_ENTRY_BYTES).

(** ** Authentication *)

(** [set_requirepass]: an empty password disables authentication. *)
Definition set_requirepass (pw : option bytes) : M () :=
  modify (λ e,
    let pw := match pw with Some [] => None | _ => pw end in
    set_auth_required (match pw with Some _ => true | None => false end)
      (set_auth_password pw e)).

(** [authenticate] *)
Definition authenticate (provided : bytes) (e : Engine) : res bool :=
  match e_auth_password e with
  | Some expected => Ok (constant_time_eq provided expected)
  | None => Err (ParseError (str "Client sent AUTH, but no password is set"))
  end.

(** ** The slow log *)

Definition slowlog_armed (e : Engine) : bool := negb (e_slowlog_slower_than_us e =? 0).

(** [slowlog_would_log]; also the test at the head of [maybe_push_slowlog]. *)
Definition slowlog_would_log (duration_us : Z) (e : Engine) : bool :=
  let n := e_slowlog_slower_than_us e in
  if n =? 0 then false else if n <? 0 then true else n <? duration_us.

(** [while ring.len() > cap { ring.pop_front() }] *)
Definition trim_front {A} (cap : Z) (ring : list A) : list A :=
  drop (Z.to_nat (blen ring - cap)) ring.

(** [maybe_push_slowlog] *)
Definition maybe_push_slowlog (c : Clock) (args : list bytes) (peer : option bytes)
    (duration_us : Z) : M () :=
  modify (λ e,
    if negb (slowlog_would_log duration_us e) then e
    else
      let id := succ64 (e_slowlog_seq e) in
      let entry := {|
        sl_id := id;
        sl_ts_secs := if unix_ns c <? 0 then 0 else unix_ns c / 1000000000;
        sl_duration_us := duration_us;
        sl_args := args;
        sl_peer := default (str "0.0.0.0:0") peer |} in
      set_slowlog (trim_front (Z.max (e_slowlog_max_len e) 1) (e_slowlog e ++ [entry]))
        (set_slowlog_seq id e)).

(** [slowlog_get]: newest first, at most [count]. *)
Definition slowlog_get (count : option Z) (e : Engine) : list SlowLogEntry :=
  let entries := reverse (e_slowlog e) in
  match count with Some n => take (Z.to_nat (Z.min n (blen entries))) entries | None => entries end.
Definition slowlog_len (e : Engine) : Z := blen (e_slowlog e).
Definition slowlog_reset : M () := modify (set_slowlog []).

(** ** Memory tracking *)

(** [apply_delta] *)
Definition apply_delta (delta : Z) (e : Engine) : Engine :=
  if delta =? 0 then e
  else if 0 <? delta then set_used_memory (wrap64 (e_used_memory e + delta)) e
  else set_used_memory (sat_sub (e_used_memory e) (- delta)) e.

(** [track_insert] *)
Definition track_insert (key : bytes) (entry : ValueEntry) : M (option ValueEntry) := λ e,
  let incoming := entry_bytes key entry in
  let t := has_ttl entry in
  let previous := e_store e !! key in
  let e := set_store (<[key := entry]> (e_store e)) e in
  let outgoing := match previous with Some p => entry_bytes key p | None => 0 end in
  let e := apply_delta (as_i64 incoming - as_i64 outgoing) e in
  let e := ac_notify_insert key t (sieve_notify_insert key t e) in
  (Ok previous, e).

(** [track_remove] *)
Definition track_remove (key : bytes) : M (option ValueEntry) := λ e,
  let removed := e_store e !! key in
  let e := set_store (delete key (e_store e)) e in
  let e := match removed with
           | Some entry => apply_delta (- as_i64 (entry_bytes key entry)) e
           | None => e
           end in
  let e := ac_notify_remove key (sieve_notify_remove key e) in
  (Ok removed, e).

(** [track_clear] *)
Definition track_clear : M () :=
  modify (λ e, set_used_memory 0 (set_ac (ac_clear (e_ac e))
                 (set_sieve (sieve_clear (e_sieve e)) (set_store ∅ e)))).

(** [untrack] *)
Definition untrack (key : bytes) (entry : ValueEntry) (e : Engine) : Engine :=
  apply_delta (- as_i64 (entry_bytes key entry)) e.

(** ** Access metadata *)

(** [next_rand01] *)
Definition next_rand01 : M spec_float := λ e,
  let next := xorshift32 (e_rng e) in
  (Ok (F32.div (F32.of_Z (Z.shiftr next 8)) (F32.of_Z 16777216)), set_rng next e).

(** [touch_access] *)
Definition touch_access (env : Env) (key : bytes) : M () := λ e,
  match e_store e !! key with
  | None => (Ok tt, e)
  | Some entry =>
      (r ← next_rand01;
       modify (λ e, set_store (<[key := touch (env_late env) r entry]> (e_store e)) e);;
       modify (sieve_notify_access key);;
       modify (ac_notify_access key)) e
  end.

Definition record_hit : M () := modify (λ e, set_hits (succ64 (e_hits e)) e).
Definition record_miss : M () := modify (λ e, set_misses (succ64 (e_misses e)) e).

(** ** Eviction *)

(** [evict_sieve] and [evict_ac] *)
Definition evict_sieve (env : Env) (scope : EvictionScope) (ttl_aware : bool) : M (option bytes) := λ e,
  let '(r, s) := sieve_evict_one (e_store e) scope ttl_aware (inst (env_late env)) (e_sieve e) in
  (Ok r, set_sieve s e).
Definition evict_ac (scope : EvictionScope) : M (option bytes) := λ e,
  let '(r, s) := ac_evict_one (e_store e) scope (e_ac e) in
  (Ok r, set_ac s e).

(** The choice of a victim in [enforce_memory_limit]. *)
Definition choose_victim (env : Env) (cfg : EvictionConfig) : M (option bytes) :=
  let scope := policy_scope (policy cfg) in
  match policy cfg with
  | AllKeysAhe | VolatileAhe =>
      gets (λ e, c_key <$> pick_victim_ahe (alpha (e_ahe e)) (inst (env_late env))
                             (sample_candidates (e_store e) scope (samples cfg)))
  | AllKeysSieve | VolatileSieve | AllKeysSieveS | VolatileSieveS =>
      evict_sieve env scope (index_kind.is_sieve_ttl (policy_index_kind (policy cfg)))
  | AllKeysAdaptiveClimb | VolatileAdaptiveClimb => evict_ac scope
  | _ =>
      gets (λ e, c_key <$> pick_victim (policy cfg) (inst (env_late env))
                             (sample_candidates (e_store e) scope (samples cfg)))
  end.

(** The closure [fits] *)
Definition fits (cfg : EvictionConfig) (incoming used : Z) : bool :=
  sat_add_u64 used incoming <=? max_memory cfg.

(** The eviction loop of [enforce_memory_limit]; returns how many keys it
    evicted. *)
Fixpoint evict_loop (rounds : nat) (env : Env) (cfg : EvictionConfig) (incoming evicted : Z)
    : M Z :=
  match rounds with
  | O => mret evicted
  | S rounds =>
      used ← gets e_used_memory;
      if fits cfg incoming used then mret evicted
      else if bool_decide (policy cfg = NoEviction) then throw OutOfMemory
      else
        victim ← choose_victim env cfg;
        match victim with
        | None => throw OutOfMemory
        | Some victim_key =>
            track_remove victim_key;;
            modify (λ e, set_evicted_keys (succ64 (e_evicted_keys e)) e);;
            note_aof (append_del victim_key);;
            evict_loop rounds env cfg incoming (evicted + 1)
        end
  end.

Definition is_ahe (p : EvictionPolicy) : bool :=
  match p with AllKeysAhe | VolatileAhe => true | _ => false end.

(** [enforce_memory_limit] *)
Definition enforce_memory_limit (env : Env) (incoming : Z) : M () :=
  cfg ← gets e_eviction;
  if max_memory cfg =? 0 then mret tt
  else
    rounds ← gets (λ e, (Nat.max (size (e_store e)) 1 + 16)%nat);
    evicted ← evict_loop rounds env cfg incoming 0;
    (if (0 <? evicted) && is_ahe (policy cfg)
     then modify (λ e, set_ahe (observe (e_hits e) (e_misses e) (e_ahe e)).2 e)
     else mret tt);;
    used ← gets e_used_memory;
    if fits cfg incoming used then mret tt else throw OutOfMemory.

(** [enforce_for_write] *)
Definition enforce_for_write (env : Env) (key : bytes) (value_len : Z) : M () :=
  net ← gets (λ e,
    let incoming := blen key + value_len + PER_ENTRY_OVERHEAD in
    sat_sub incoming (match e_store e !! key with Some p => entry_bytes key p | None => 0 end));
  enforce_memory_limit env net.

(** ** The active expiry sweep *)

(** The keys a sweep examines, from the cursor on, wrapping around. *)
Definition sweep_window (sample start : Z) (s : store) : list (bytes * ValueEntry) :=
  let l := hm_iter s in
  let n := Z.to_nat start in
  take (Z.to_nat (Z.min sample (blen l))) (drop n l ++ take n l).

(** [sweep_expired]; [env_guard] is the instant it samples. *)
Definition sweep_expired (env : Env) (sample : Z) : M SweepStats :=
  if sample =? 0 then mret {| examined := 0; evicted := 0 |}
  else
    e ← gets id;
    let now := inst (env_guard env) in
    let len := Z.of_nat (size (e_store e)) in
    let start := if len =? 0 then 0 else e_sweep_cursor e mod len in
    let window := sweep_window sample start (e_store e) in
    let victims := map fst (List.filter (λ p, is_expired now p.2) window) in
    (if 0 <? len
     then modify (set_sweep_cursor (wrap64 (start + blen window) mod len))
     else mret tt);;
    for_each victims (λ key,
      track_remove key;;
      modify (λ e, set_expired_keys (succ64 (e_expired_keys e)) e);;
      note_aof (append_del key));;
    mret {| examined := blen window; evicted := blen victims |}.

(** The sweeper thread's tick: at most 16 sweeps, as long as more than a
    quarter of the sample was expired. *)
Fixpoint sweep_tick (rounds : nat) (envs : nat → Env) (sample : Z) : M () :=
  match rounds with
  | O => mret tt
  | S rounds =>
      stats ← sweep_expired (envs rounds) sample;
      if should_continue stats then sweep_tick rounds envs sample else mret tt
  end.

(** ** Monitoring *)

(** [MonitorRegistry::has_subscribers], [send] and [subscribe] *)
Definition has_subscribers (e : Engine) : bool :=
  match e_monitor_registry e with [] => false | _ => true end.
Definition monitor_send (msg : MonitorMessage) : M () :=
  modify (λ e, set_monitor_registry
    (map (λ tx, {| tx_open := true; tx_queue := tx_queue tx ++ [msg] |})
         (List.filter tx_open (e_monitor_registry e))) e).
Definition monitor_subscribe : M () :=
  modify (λ e, set_monitor_registry
    (e_monitor_registry e ++ [{| tx_open := true; tx_queue := [] |}]) e).

End engine.
