(* ===== verification/WriteGuard.v ===== *)
(** * The write guard (src/src/storage/engine/write_guard.rs)

    The per-command holder of the keyspace lock: its typed operations, each
    with its lazy expiry, memory enforcement, log record and index
    notifications, and the durability barrier of its destructor. *)
From S2P Require Import Prelude Numeric Error IndexMap Eviction Entry Sieve AdaptiveClimb Aof Engine.
From Stdlib Require Import ZArith Lia.
From stdpp Require Import gmap strings numbers list.
Local Open Scope Z_scope.

Section guard.
Context `{IndexMap} `{HashIter}.

(** [WriteGuard]; the lock itself is the exclusive access to [g_engine]. *)
Record Guard := {
  g_engine : Engine;
  g_now : Z;
  g_now_ms : Z;
  g_wrote_aof : bool;
}.

Abbreviation WG := (SE Guard FerrumError).

Definition set_engine (e : Engine) (g : Guard) : Guard :=
  {| g_engine := e; g_now := g_now g; g_now_ms := g_now_ms g; g_wrote_aof := g_wrote_aof g |}.
Definition set_wrote (b : bool) (g : Guard) : Guard :=
  {| g_engine := g_engine g; g_now := g_now g; g_now_ms := g_now_ms g; g_wrote_aof := b |}.

(** An engine operation called through the guard. *)
Definition on_engine {A} (m : SE Engine FerrumError A) : WG A := λ g,
  let '(r, e) := m (g_engine g) in (r, set_engine e g).

(** [WriteGuard::begin] *)
Definition guard_begin (env : Env) (e : Engine) : Guard := {|
  g_engine := e;
  g_now := inst (env_guard env);
  g_now_ms := current_epoch_ms (env_guard env);
  g_wrote_aof := false;
|}.

(** [Drop for WriteGuard]: the lock is released, then the barrier runs if this
    command appended a record. *)
Definition guard_drop (g : Guard) : Engine :=
  if g_wrote_aof g then (note_aof sync_if_needed (g_engine g)).2 else g_engine g.

(** [let mut g = WriteGuard::begin(self)?; body] *)
Definition with_guard {A} (env : Env) (body : WG A) : SE Engine FerrumError A := λ e,
  let '(r, g) := body (guard_begin env e) in (r, guard_drop g).

(** [WriteGuard::log] *)
Definition log (m : SE AofWriter FerrumError ()) : WG () :=
  attached ← gets (λ g, match e_aof (g_engine g) with Some _ => true | None => false end);
  if (attached : bool) then modify (set_wrote true);; on_engine (note_aof m) else mret tt.

Definition lookup_entry (key : bytes) : WG (option ValueEntry) :=
  gets (λ g, e_store (g_engine g) !! key).

(** The lazy-expiry step the operations share. *)
Definition expire_now (key : bytes) : WG () :=
  on_engine (track_remove key);; on_engine (log_expire_drop key).

(** [fetch_live] *)
Definition fetch_live (env : Env) (key : bytes) : WG (option bytes) :=
  now ← gets g_now;
  o ← lookup_entry key;
  match o with
  | Some entry =>
      if is_expired now entry then
        expire_now key;; on_engine record_miss;; mret None
      else
        on_engine (touch_access env key);; on_engine record_hit;; mret (Some (data entry))
  | None => on_engine record_miss;; mret None
  end.

(** [contains_live] *)
Definition contains_live (key : bytes) : WG bool :=
  now ← gets g_now;
  o ← lookup_entry key;
  match o with
  | Some entry =>
      if is_expired now entry then
        expire_now key;; on_engine record_miss;; mret false
      else on_engine record_hit;; mret true
  | None => on_engine record_miss;; mret false
  end.

(** [insert] *)
Definition guard_insert (env : Env) (key value : bytes) : WG (option bytes) :=
  lift_result (validate_key key);;
  lift_result (validate_value value);;
  on_engine (enforce_for_write env key (blen value));;
  log (append_set key value);;
  prev ← on_engine (track_insert key (new (env_late env) value));
  mret (prev ≫= live_payload (inst (env_late env))).

(** [insert_nx] *)
Definition insert_nx (env : Env) (key value : bytes) : WG bool :=
  lift_result (validate_key key);;
  lift_result (validate_value value);;
  now ← gets g_now;
  o ← lookup_entry key;
  let store_it : WG bool :=
    on_engine (enforce_for_write env key (blen value));;
    log (append_set key value);;
    on_engine (track_insert key (new (env_late env) value));;
    mret true in
  match o with
  | Some entry =>
      if negb (is_expired now entry) then mret false
      else on_engine (track_remove key);; store_it
  | None => store_it
  end.

(** [insert_many] *)
Definition insert_many (env : Env) (pairs : list (bytes * bytes)) : WG () :=
  for_each pairs (λ p,
    lift_result (validate_key p.1);; lift_result (validate_value p.2));;
  for_each pairs (λ p, on_engine (enforce_for_write env p.1 (blen p.2)));;
  log (append_set_many pairs);;
  for_each pairs (λ p, on_engine (track_insert p.1 (new (env_late env) p.2));; mret tt).

(** [insert_keep_ttl] *)
Definition insert_keep_ttl (env : Env) (key value : bytes) (keep_ttl : option Z)
    : WG (option bytes) :=
  on_engine (enforce_for_write env key (blen value));;
  log (append_set key value);;
  now ← gets g_now;
  match keep_ttl with
  | Some deadline =>
      match deadline_to_epoch_ms (env_late env) deadline now with
      | Some abs_ms => log (append_pexpireat key abs_ms)
      | None => mret tt
      end
  | None => mret tt
  end;;
  prev ← on_engine (track_insert key (new_with (env_late env) value keep_ttl));
  mret (prev ≫= live_payload (inst (env_late env))).

(** [read_state] *)
Definition read_state (key : bytes) : WG (option (bytes * option Z)) :=
  now ← gets g_now;
  o ← lookup_entry key;
  match o with
  | Some entry =>
      if is_expired now entry then expire_now key;; mret None
      else mret (Some (data entry, expire_at entry))
  | None => mret None
  end.

(** [remove] *)
Definition guard_remove (key : bytes) : WG bool :=
  now ← gets g_now;
  removed ← on_engine (track_remove key);
  let existed := match removed with Some entry => negb (is_expired now entry) | None => false end in
  (if existed then log (append_del key) else mret tt);;
  mret existed.

(** The first loop of [remove_many]: the live keys it removed. *)
Fixpoint remove_live (keys : list bytes) : WG (list bytes) :=
  match keys with
  | [] => mret []
  | key :: keys =>
      now ← gets g_now;
      removed ← on_engine (track_remove key);
      rest ← remove_live keys;
      mret (match removed with
            | Some entry => if negb (is_expired now entry) then key :: rest else rest
            | None => rest
            end)
  end.

(** [remove_many] *)
Definition remove_many (keys : list bytes) : WG Z :=
  removed ← remove_live keys;
  for_each removed (λ key, log (append_del key));;
  mret (blen removed).

(** [expire_at] *)
Definition guard_expire_at (key : bytes) (abs_epoch_ms : Z) : WG bool :=
  now ← gets g_now;
  now_ms ← gets g_now_ms;
  o ← lookup_entry key;
  match o with
  | Some entry => if is_expired now entry then expire_now key else mret tt
  | None => mret tt
  end;;
  o ← lookup_entry key;
  match o with
  | None => mret false
  | Some _ =>
      if abs_epoch_ms <=? now_ms then
        on_engine (track_remove key);;
        log (append_del key);;
        mret true
      else
        let delta_ms := wrap64 (abs_epoch_ms - now_ms) in
        let deadline := now + delta_ms * 1000000 in
        on_engine (modify (λ e,
          set_store (alter (set_expire_at (Some deadline)) key (e_store e)) e));;
        on_engine (modify (sieve_notify_insert key true));;
        on_engine (modify (ac_notify_insert key true));;
        log (append_pexpireat key abs_epoch_ms);;
        mret true
  end.

(** [persist] *)
Definition guard_persist (key : bytes) : WG bool :=
  now ← gets g_now;
  o ← lookup_entry key;
  match o with
  | None => mret false
  | Some entry =>
      if is_expired now entry then expire_now key;; mret false
      else if negb (has_ttl entry) then mret false
      else
        on_engine (modify (λ e, set_store (alter (set_expire_at None) key (e_store e)) e));;
        on_engine (modify (sieve_notify_remove key));;
        on_engine (modify (ac_notify_remove key));;
        log (append_persist key);;
        mret true
  end.

(** [clear] *)
Definition guard_clear : WG () := on_engine track_clear;; log append_flushdb.

(** The remaining life of a live entry. *)
Definition ttl_status (now : Z) (entry : ValueEntry) : TtlStatus :=
  match expire_at entry with
  | None => NoExpire
  | Some deadline => Millis (as_i64 (sat_sub deadline now / 1000000))
  end.

(** [ttl_of] *)
Definition ttl_of (key : bytes) : WG TtlStatus :=
  now ← gets g_now;
  o ← lookup_entry key;
  match o with
  | None => mret Missing
  | Some entry =>
      if is_expired now entry then expire_now key;; mret Missing
      else mret (ttl_status now entry)
  end.

(** [strlen_of] *)
Definition strlen_of (key : bytes) : WG Z :=
  now ← gets g_now;
  o ← lookup_entry key;
  match o with
  | Some entry =>
      if is_expired now entry then expire_now key;; mret 0
      else mret (blen (data entry))
  | None => mret 0
  end.

(** [memory_of]: an expired entry is dropped from the store and untracked
    without notifying the indexes. *)
Definition memory_of (key : bytes) : WG (option Z) :=
  now ← gets g_now;
  o ← lookup_entry key;
  match o with
  | Some entry =>
      if is_expired now entry then
        on_engine (modify (λ e, untrack key entry (set_store (delete key (e_store e)) e)));;
        on_engine (log_expire_drop key);;
        mret None
      else mret (Some (entry_bytes key entry))
  | None => mret None
  end.

End guard.
