(* ===== verification/Commands.v ===== *)
(** * The command API of the engine (src/src/storage/engine/mod.rs)

    Every public data command of [KvEngine]: the fast path under the shared
    lock and the write-guard path, and the background rewrite. *)
From S2P Require Import Prelude Numeric Text Error Floats IndexMap Eviction Entry Sieve AdaptiveClimb Glob Aof Engine WriteGuard.
From Stdlib Require Import ZArith Lia SpecFloat.
From stdpp Require Import gmap strings numbers list.
Local Open Scope Z_scope.

Section commands.
Context `{IndexMap} `{HashIter}.

Abbreviation M := (SE Engine FerrumError).

Definition SCAN_KEYS_LIMIT : Z := 10000.

(** The instant sampled under the shared lock. *)
Definition read_now (env : Env) : Z := inst (env_read env).

(** [set], [set_nx] and [mset] *)
Definition set (env : Env) (key value : bytes) : M (option bytes) :=
  with_guard env (guard_insert env key value).
Definition set_nx (env : Env) (key value : bytes) : M bool :=
  with_guard env (insert_nx env key value).
Definition mset (env : Env) (pairs : list (bytes * bytes)) : M () :=
  with_guard env (insert_many env pairs).

(** The shared-lock pass of [mget]: the values, and the indices of the keys
    found expired. *)
Fixpoint mget_read (env : Env) (i : nat) (keys : list bytes) : M (list (option bytes) * list nat) :=
  match keys with
  | [] => mret ([], [])
  | key :: keys =>
      o ← gets (λ e, e_store e !! key);
      match o with
      | Some entry =>
          if negb (is_expired (read_now env) entry) then
            touch_access env key;;
            record_hit;;
            rest ← mget_read env (S i) keys;
            mret (Some (data entry) :: rest.1, rest.2)
          else
            rest ← mget_read env (S i) keys;
            mret (None :: rest.1, i :: rest.2)
      | None =>
          record_miss;;
          rest ← mget_read env (S i) keys;
          mret (None :: rest.1, rest.2)
      end
  end.

(** [mget] *)
Definition mget (env : Env) (keys : list bytes) : M (list (option bytes)) :=
  r ← mget_read env 0 keys;
  let '(out, expired) := r in
  (match expired with
   | [] => mret tt
   | _ => with_guard env (for_each expired (λ i, fetch_live env (keys !!! i);; mret tt))
   end);;
  mret out.

Definition not_integer : FerrumError :=
  ParseError (str "value is not an integer or out of range").
Definition not_float : FerrumError := ParseError (str "value is not a valid float").

(** [incr_by] *)
Definition incr_by (env : Env) (key : bytes) (delta : Z) : M Z :=
  lift_result (validate_key key);;
  with_guard env (
    st ← read_state key;
    current ← match st with
      | Some (d, ttl) =>
          if negb (utf8_valid d) then throw not_integer
          else match parse_i64 d with
               | Some n => mret (n, ttl)
               | None => throw not_integer
               end
      | None => mret (0, None)
      end;
    match checked_i64 (current.1 + delta) with
    | None => throw not_integer
    | Some new_value =>
        insert_keep_ttl env key (to_string_i new_value) current.2;;
        mret new_value
    end).

(** [incr_by_float] *)
Definition incr_by_float (env : Env) (key : bytes) (delta : spec_float) : M spec_float :=
  lift_result (validate_key key);;
  with_guard env (
    st ← read_state key;
    current ← match st with
      | Some (d, ttl) =>
          if negb (utf8_valid d) then throw not_float
          else match F64.parse d with
               | Some n => mret (n, ttl)
               | None => throw not_float
               end
      | None => mret (F64.zero, None)
      end;
    let new_value := F64.add current.1 delta in
    if negb (F64.is_finite new_value)
    then throw (ParseError (str "increment would produce NaN or Infinity"))
    else
      insert_keep_ttl env key (F64.to_string new_value) current.2;;
      mret new_value).

(** [get] *)
Definition get (env : Env) (key : bytes) : M (option bytes) :=
  o ← gets (λ e, e_store e !! key);
  match o with
  | Some entry =>
      if negb (is_expired (read_now env) entry) then
        touch_access env key;; record_hit;; mret (Some (data entry))
      else with_guard env (fetch_live env key)
  | None => record_miss;; mret None
  end.

(** [del] and [del_many] *)
Definition del (env : Env) (key : bytes) : M bool := with_guard env (guard_remove key).
Definition del_many (env : Env) (keys : list bytes) : M Z :=
  match keys with [] => mret 0 | _ => with_guard env (remove_many keys) end.

(** [exists] *)
Definition exists_key (env : Env) (key : bytes) : M bool :=
  o ← gets (λ e, e_store e !! key);
  match o with
  | Some entry =>
      if negb (is_expired (read_now env) entry) then record_hit;; mret true
      else with_guard env (contains_live key)
  | None => record_miss;; mret false
  end.

(** The shared-lock pass of [exists_many]: the count and the expired indices. *)
Fixpoint exists_read (env : Env) (i : nat) (keys : list bytes) : M (Z * list nat) :=
  match keys with
  | [] => mret (0, [])
  | key :: keys =>
      o ← gets (λ e, e_store e !! key);
      match o with
      | Some entry =>
          if negb (is_expired (read_now env) entry) then
            record_hit;;
            rest ← exists_read env (S i) keys;
            mret (1 + rest.1, rest.2)
          else
            rest ← exists_read env (S i) keys;
            mret (rest.1, i :: rest.2)
      | None =>
          record_miss;;
          exists_read env (S i) keys
      end
  end.

(** The write-guard pass of [exists_many]. *)
Fixpoint exists_recheck (keys : list bytes) (expired : list nat) : SE Guard FerrumError Z :=
  match expired with
  | [] => mret 0
  | i :: expired =>
      b ← contains_live (keys !!! i);
      n ← exists_recheck keys expired;
      mret (if (b : bool) then 1 + n else n)
  end.

(** [exists_many] *)
Definition exists_many (env : Env) (keys : list bytes) : M Z :=
  match keys with
  | [] => mret 0
  | _ =>
      r ← exists_read env 0 keys;
      more ← match r.2 with
             | [] => mret 0
             | _ => with_guard env (exists_recheck keys r.2)
             end;
      mret (r.1 + more)
  end.

(** [dbsize] *)
Definition dbsize (env : Env) : M Z :=
  gets (λ e, blen (List.filter (λ p, negb (is_expired (read_now env) p.2)) (hm_iter (e_store e)))).

(** The loop of [scan_keys]: at most [room] matching live keys. *)
Fixpoint scan_loop (now : Z) (pattern : bytes) (room : Z) (l : list (bytes * ValueEntry))
    : list bytes :=
  match l with
  | [] => []
  | (key, entry) :: l =>
      if is_expired now entry then scan_loop now pattern room l
      else if glob_match pattern key then
        key :: (if room - 1 <=? 0 then [] else scan_loop now pattern (room - 1) l)
      else scan_loop now pattern room l
  end.

(** [scan_keys] *)
Definition scan_keys (env : Env) (pattern : bytes) : M (list bytes) :=
  gets (λ e, scan_loop (read_now env) pattern SCAN_KEYS_LIMIT (hm_iter (e_store e))).

(** [expire_stats]: how many live keys have a TTL, and their mean remaining
    life in milliseconds. *)
Definition expire_stats (env : Env) : M (Z * Z) :=
  gets (λ e,
    let now := read_now env in
    let '(count, sum_ms) :=
      fold_left (λ '(count, sum_ms) (p : bytes * ValueEntry),
        if is_expired now p.2 then (count, sum_ms)
        else match expire_at p.2 with
             | Some deadline => (count + 1, sat_add_u64 sum_ms (wrap64 ((deadline - now) / 1000000)))
             | None => (count, sum_ms)
             end) (hm_iter (e_store e)) (0, 0) in
    (count, if count =? 0 then 0 else sum_ms / count)).

(** [append] *)
Definition append (env : Env) (key suffix : bytes) : M Z :=
  lift_result (validate_key key);;
  with_guard env (
    st ← read_state key;
    let '(new_value, ttl) :=
      match st with Some (d, ttl) => (d ++ suffix, ttl) | None => (suffix, None) end in
    lift_result (validate_value new_value);;
    insert_keep_ttl env key new_value ttl;;
    mret (blen new_value)).

(** [strlen] *)
Definition strlen (env : Env) (key : bytes) : M Z :=
  o ← gets (λ e, e_store e !! key);
  match o with
  | Some entry =>
      if negb (is_expired (read_now env) entry) then mret (blen (data entry))
      else with_guard env (strlen_of key)
  | None => mret 0
  end.

(** [flushdb], [expire_at_ms] and [persist] *)
Definition flushdb (env : Env) : M () := with_guard env guard_clear.
Definition expire_at_ms (env : Env) (key : bytes) (abs_epoch_ms : Z) : M bool :=
  with_guard env (guard_expire_at key abs_epoch_ms).
Definition persist (env : Env) (key : bytes) : M bool := with_guard env (guard_persist key).

(** [ttl_ms] *)
Definition ttl_ms (env : Env) (key : bytes) : M TtlStatus :=
  o ← gets (λ e, e_store e !! key);
  match o with
  | Some entry =>
      if negb (is_expired (read_now env) entry) then mret (ttl_status (read_now env) entry)
      else with_guard env (ttl_of key)
  | None => mret Missing
  end.

(** [memory_usage] *)
Definition memory_usage (env : Env) (key : bytes) : M (option Z) :=
  o ← gets (λ e, e_store e !! key);
  match o with
  | Some entry =>
      if negb (is_expired (read_now env) entry) then mret (Some (entry_bytes key entry))
      else with_guard env (memory_of key)
  | None => mret None
  end.

(** ** The background rewrite *)

(** Runs a writer operation on the attached writer. *)
Definition on_writer {A} (m : SE AofWriter FerrumError A) (dflt : A) : M A := λ e,
  match e_aof e with
  | None => (Ok dflt, e)
  | Some w => let '(r, w') := m w in (r, set_aof (Some w') e)
  end.

(** [rewrite_aof]; [spawn_error] is the outcome of starting the worker thread. *)
Definition rewrite_aof (spawn_error : option bytes) : M () :=
  attached ← gets (λ e, match e_aof e with Some _ => true | None => false end);
  if negb attached then throw AofNotEnabled
  else
    claimed ← on_writer try_begin_rewrite false;
    if negb (claimed : bool) then mret tt
    else match spawn_error with
         | None => mret tt
         | Some err =>
             on_writer abort_rewrite tt;;
             throw (Internal (str "failed to spawn aof rewrite thread: " ++ err))
         end.

(** The snapshot [perform_aof_rewrite] takes under the shared lock. *)
Definition rewrite_snapshot (c : Clock) (s : store) : list (bytes * bytes * option Z) :=
  map (λ p : bytes * ValueEntry,
         (p.1, data p.2, expire_at p.2 ≫= λ d, deadline_to_epoch_ms c d (inst c)))
      (List.filter (λ p, negb (is_expired (inst c) p.2)) (hm_iter s)).

(** The first half of [perform_aof_rewrite]: the snapshot, unless the rewrite was
    aborted meanwhile. *)
Definition rewrite_capture (c : Clock) : M (option (list (bytes * bytes * option Z))) :=
  snapshot ← gets (λ e, rewrite_snapshot c (e_store e));
  rewriting ← gets (λ e, match e_aof e with Some w => w_rewriting w | None => false end);
  mret (if negb rewriting then None else Some snapshot).

(** The second half: the temporary file and the swap. *)
Definition rewrite_install (rename_err : bytes → FerrumError) (snapshot : list (bytes * bytes * option Z)) : M () :=
  r ← attempt (on_writer (serialise_compact_aof snapshot) {| f_data := []; f_durable := 0; f_buf := [] |});
  match r with
  | Err _ => on_writer abort_rewrite tt
  | Ok temp => attempt (on_writer (finish_rewrite rename_err temp) tt);; mret tt
  end.

(** [perform_aof_rewrite], the worker run to its end with no other command in
    between. *)
Definition perform_aof_rewrite (c : Clock) (rename_err : bytes → FerrumError) : M () :=
  captured ← rewrite_capture c;
  match captured with
  | None => mret tt
  | Some snapshot => rewrite_install rename_err snapshot
  end.

(** ** The API as one type *)

(** A call of a public operation that reads or changes the dataset. *)
Inductive Op :=
| OSet (key value : bytes)
| OSetNx (key value : bytes)
| OMSet (pairs : list (bytes * bytes))
| OMGet (keys : list bytes)
| OIncrBy (key : bytes) (delta : Z)
| OIncrByFloat (key : bytes) (delta : spec_float)
| OGet (key : bytes)
| ODel (keys : list bytes)
| OExists (keys : list bytes)
| ODbSize
| OScanKeys (pattern : bytes)
| OExpireStats
| OAppend (key suffix : bytes)
| OStrLen (key : bytes)
| OFlushDb
| OExpireAt (key : bytes) (abs_epoch_ms : Z)
| OPersist (key : bytes)
| OTtl (key : bytes)
| OMemoryUsage (key : bytes)
| OSweep (sample : Z)
| OSetEvictionConfig (cfg : EvictionConfig)
| ORewriteAof (spawn_error : option bytes)
| ORewriteWorker (rename_err : bytes → FerrumError).

Definition discard {A} (m : M A) : M () := m;; mret tt.

Definition run_op (env : Env) (op : Op) : M () :=
  match op with
  | OSet k v => discard (set env k v)
  | OSetNx k v => discard (set_nx env k v)
  | OMSet ps => mset env ps
  | OMGet ks => discard (mget env ks)
  | OIncrBy k d => discard (incr_by env k d)
  | OIncrByFloat k d => discard (incr_by_float env k d)
  | OGet k => discard (get env k)
  | ODel ks => discard (del_many env ks)
  | OExists ks => discard (exists_many env ks)
  | ODbSize => discard (dbsize env)
  | OScanKeys p => discard (scan_keys env p)
  | OExpireStats => discard (expire_stats env)
  | OAppend k s => discard (append env k s)
  | OStrLen k => discard (strlen env k)
  | OFlushDb => flushdb env
  | OExpireAt k ms => discard (expire_at_ms env k ms)
  | OPersist k => discard (persist env k)
  | OTtl k => discard (ttl_ms env k)
  | OMemoryUsage k => discard (memory_usage env k)
  | OSweep n => discard (sweep_expired env n)
  | OSetEvictionConfig cfg => set_eviction_config cfg
  | ORewriteAof err => rewrite_aof err
  | ORewriteWorker err => perform_aof_rewrite (env_read env) err
  end.

(** A history of calls, each of them possibly failing. *)
Definition run_ops (h : list (Env * Op)) (e : Engine) : Engine :=
  fold_left (λ e p, (run_op p.1 p.2 e).2) h e.

(** ** The rewrite worker beside the commands *)

(** A call, or a half of the worker that a [BGREWRITEAOF] started. *)
Inductive Event :=
| Do (op : Op)
| Capture
| Install (rename_err : bytes → FerrumError).

(** The engine, and the snapshot of the worker between its halves. *)
Definition Busy : Type := Engine * option (list (bytes * bytes * option Z)).

Definition run_event (env : Env) (ev : Event) (st : Busy) : Busy :=
  let '(e, worker) := st in
  match ev with
  | Do op => ((run_op env op e).2, worker)
  | Capture =>
      match rewrite_capture (env_read env) e with
      | (Ok captured, e) => (e, captured)
      | (Err _, e) => (e, worker)
      end
  | Install err =>
      match worker with
      | Some snapshot => ((rewrite_install err snapshot e).2, None)
      | None => st
      end
  end.

Definition run_events (h : list (Env * Event)) (st : Busy) : Busy :=
  fold_left (λ st p, run_event p.1 p.2 st) h st.

(** One worker at a time: while a worker is between its halves no other runs, and a
    [BGREWRITEAOF] finds the slot taken. *)
Definition one_worker (ev : Event) (st : Busy) : bool :=
  match ev, st.2 with
  | Do (ORewriteAof _), Some _ => match e_aof st.1 with Some w => w_rewriting w | None => true end
  | Do (ORewriteWorker _), Some _ | Capture, Some _ => false
  | _, _ => true
  end.

Fixpoint orderly (h : list (Env * Event)) (st : Busy) : bool :=
  match h with
  | [] => true
  | (env, ev) :: h => one_worker ev st && orderly h (run_event env ev st)
  end.

End commands.
