(* ===== verification/Frames.v ===== *)
(** * What the commands leave alone

    A property of the engine that survives changes of the store, its accounting, its
    indexes, its log and its counters of removed keys survives every data command; reads
    also move the hit and miss counters. One class states which changes the property
    survives; the lemmas follow the structure of the commands. *)
From S2P Require Import Prelude Numeric Error IndexMap Eviction Entry Sieve AdaptiveClimb Aof Engine WriteGuard Commands.
From Stdlib Require Import ZArith Lia.
From stdpp Require Import gmap strings numbers list.
Local Open Scope Z_scope.

Create HintDb frame discriminated.

(** Splits a computation along its binds and tests. *)
Ltac frame :=
  cbv beta zeta;
  lazymatch goal with
  | |- preserves _ (match ?x with _ => _ end) => destruct x; frame
  | |- preserves _ (attempt _) => apply preserves_attempt; frame
  | |- preserves _ (_ ≫= _) => apply preserves_bind; [frame|intros ?; frame]
  | |- preserves _ (for_each _ _) => apply preserves_for_each; intros ? ?; frame
  | |- preserves _ (mret _) => apply preserves_ret
  | |- preserves _ (throw _) => apply preserves_throw
  | |- preserves _ (gets _) => apply preserves_gets
  | |- preserves _ (lift_result _) => apply preserves_lift_result
  | |- _ => solve [eauto with frame] || idtac
  end.

Section frames.
Context `{IndexMap} `{HashIter}.

(** A property that the bookkeeping of the commands keeps. *)
Class Stable (I : Engine → Prop) : Prop := {
  stable_store v e : I e → I (set_store v e);
  stable_used v e : I e → I (set_used_memory v e);
  stable_sieve v e : I e → I (set_sieve v e);
  stable_ac v e : I e → I (set_ac v e);
  stable_rng v e : I e → I (set_rng v e);
  stable_ahe v e : I e → I (set_ahe v e);
  stable_cursor v e : I e → I (set_sweep_cursor v e);
  stable_aof w w' e : e_aof e = Some w → I e → I (set_aof (Some w') e);
  stable_aof_errors e : I e → I (set_aof_errors (succ64 (e_aof_errors e)) e);
  stable_evicted e : I e → I (set_evicted_keys (succ64 (e_evicted_keys e)) e);
  stable_expired e : I e → I (set_expired_keys (succ64 (e_expired_keys e)) e);
}.

(** One that reads keep too. *)
Class StableReads (I : Engine → Prop) : Prop := {
  stable_hits e : I e → I (set_hits (succ64 (e_hits e)) e);
  stable_misses e : I e → I (set_misses (succ64 (e_misses e)) e);
}.

Section property.
Context (I : Engine → Prop) `{!Stable I}.
Abbreviation M := (SE Engine FerrumError).
Abbreviation WG := (SE Guard FerrumError).
Abbreviation Ig := (λ g : Guard, I (g_engine g)).

Lemma stable_on_engine {A} (m : M A) : preserves I m → preserves Ig (on_engine m).
Proof using Type. intros Hm g Hg. unfold on_engine. specialize (Hm (g_engine g) Hg). by destruct (m (g_engine g)). Qed.
#[local] Hint Resolve stable_on_engine : frame.

Lemma stable_note_aof m : preserves I (note_aof m).
Proof using Stable0.
  intros e He. unfold note_aof. destruct (e_aof e) as [w|] eqn:Ew; [|done].
  destruct (m w) as [[] w']; [|apply stable_aof_errors]; by eapply stable_aof.
Qed.
#[local] Hint Resolve stable_note_aof : frame.

Lemma stable_delta d e : I e → I (apply_delta d e).
Proof using Stable0. intros He. unfold apply_delta. repeat case_match; try done; by apply stable_used. Qed.

Lemma stable_notify k b e : I e →
  I (sieve_notify_insert k b e) ∧ I (sieve_notify_access k e) ∧ I (sieve_notify_remove k e) ∧
  I (ac_notify_insert k b e) ∧ I (ac_notify_access k e) ∧ I (ac_notify_remove k e).
Proof using Stable0.
  intros He. unfold sieve_notify_insert, sieve_notify_access, sieve_notify_remove, ac_notify_insert, ac_notify_access, ac_notify_remove.
  split_and!; case_match; try done; first [by apply stable_sieve|by apply stable_ac].
Qed.

(** Each notification in turn. *)
Ltac notify := repeat match goal with
  | |- I (sieve_notify_insert ?k ?b _) => apply (stable_notify k b)
  | |- I (sieve_notify_access ?k _) => apply (stable_notify k true)
  | |- I (sieve_notify_remove ?k _) => apply (stable_notify k true)
  | |- I (ac_notify_insert ?k ?b _) => apply (stable_notify k b)
  | |- I (ac_notify_access ?k _) => apply (stable_notify k true)
  | |- I (ac_notify_remove ?k _) => apply (stable_notify k true)
  end.

Lemma stable_track_insert k entry : preserves I (track_insert k entry).
Proof using Stable0. intros e He. unfold track_insert. cbn [snd]. notify. by apply stable_delta, stable_store. Qed.
Lemma stable_track_remove k : preserves I (track_remove k).
Proof using Stable0.
  intros e He. unfold track_remove. cbn [snd]. notify. case_match; try apply stable_delta; by apply stable_store.
Qed.
Lemma stable_track_clear : preserves I track_clear.
Proof using Stable0. intros e He. cbn. by apply stable_used, stable_ac, stable_sieve, stable_store. Qed.
Lemma stable_touch_access env k : preserves I (touch_access env k).
Proof using Stable0.
  intros e He. unfold touch_access. destruct (e_store e !! k) as [entry|]; [|done].
  unfold mbind, se_bind, next_rand01, modify. cbn beta iota. cbn [snd]. notify. by apply stable_store, stable_rng.
Qed.
Lemma stable_choose_victim env cfg : preserves I (choose_victim env cfg).
Proof using Stable0.
  assert (Hs : ∀ scope t, preserves I (evict_sieve env scope t)).
  { intros scope t e He. unfold evict_sieve. destruct (sieve_evict_one _ _ _ _ _). by apply stable_sieve. }
  assert (Ha : ∀ scope, preserves I (evict_ac scope)).
  { intros scope e He. unfold evict_ac. destruct (ac_evict_one _ _ _). by apply stable_ac. }
  unfold choose_victim. destruct (policy cfg); auto; apply preserves_gets.
Qed.
Lemma stable_counters n :
  preserves I (modify (λ e, set_evicted_keys (succ64 (e_evicted_keys e)) e) : M ()) ∧
  preserves I (modify (λ e, set_expired_keys (succ64 (e_expired_keys e)) e) : M ()) ∧
  preserves I (modify (λ e, set_ahe (observe (e_hits e) (e_misses e) (e_ahe e)).2 e) : M ()) ∧
  preserves I (modify (set_sweep_cursor n) : M ()).
Proof using Stable0.
  split_and!; apply preserves_modify; intros e He;
    [by apply stable_evicted|by apply stable_expired|by apply stable_ahe|by apply stable_cursor].
Qed.
#[local] Hint Resolve stable_track_insert stable_track_remove stable_track_clear stable_touch_access stable_choose_victim : frame.
#[local] Hint Extern 1 (preserves _ (modify _)) => (apply (stable_counters 0)) : frame.
#[local] Hint Extern 1 (preserves _ (modify (set_sweep_cursor ?n))) => (apply (stable_counters n)) : frame.

Lemma stable_evict_loop rounds env cfg incoming n : preserves I (evict_loop rounds env cfg incoming n).
Proof using Stable0. revert n. induction rounds as [|rounds IH]; intros n; cbn [evict_loop]; frame. Qed.
#[local] Hint Resolve stable_evict_loop : frame.
Lemma stable_enforce env k n : preserves I (enforce_for_write env k n).
Proof using Stable0. unfold enforce_for_write, enforce_memory_limit. frame. Qed.
#[local] Hint Resolve stable_enforce : frame.
Lemma stable_sweep env n : preserves I (sweep_expired env n).
Proof using Stable0. unfold sweep_expired. frame. Qed.

(** ** Through the guard *)

Lemma stable_log m : preserves Ig (log m).
Proof using Stable0. unfold log. frame. by apply preserves_modify. Qed.
#[local] Hint Resolve stable_log : frame.

Lemma stable_lookup k : preserves Ig (lookup_entry k).
Proof using Type. apply preserves_gets. Qed.
#[local] Hint Resolve stable_lookup : frame.

Lemma stable_expire_now k : preserves Ig (expire_now k).
Proof using Stable0. unfold expire_now, log_expire_drop. frame. Qed.
#[local] Hint Resolve stable_expire_now : frame.

Lemma stable_drop g : Ig g → I (guard_drop g).
Proof using Stable0. intros Hg. unfold guard_drop. destruct (g_wrote_aof g); [by apply stable_note_aof|done]. Qed.

Lemma stable_with_guard {A} env (body : WG A) : preserves Ig body → preserves I (with_guard env body).
Proof using Stable0.
  intros Hb e He. unfold with_guard. specialize (Hb (guard_begin env e) He). destruct (body _) as [r g].
  by apply stable_drop.
Qed.
Ltac gframe := frame; try (apply stable_with_guard; gframe).

Lemma stable_alter k t : preserves Ig (on_engine (modify (λ e, set_store (alter (set_expire_at t) k (e_store e)) e))).
Proof using Stable0. apply stable_on_engine, preserves_modify. intros e. apply stable_store. Qed.
Lemma stable_notify_engine k b :
  preserves Ig (on_engine (modify (sieve_notify_insert k b))) ∧ preserves Ig (on_engine (modify (ac_notify_insert k b))) ∧
  preserves Ig (on_engine (modify (sieve_notify_remove k))) ∧ preserves Ig (on_engine (modify (ac_notify_remove k))).
Proof using Stable0. split_and!; apply stable_on_engine, preserves_modify; intros e He; by notify. Qed.
#[local] Hint Resolve stable_alter : frame.
#[local] Hint Extern 1 (preserves _ (on_engine (modify (_ ?k ?b)))) => (apply (stable_notify_engine k b)) : frame.
#[local] Hint Extern 1 (preserves _ (on_engine (modify (_ ?k)))) => (apply (stable_notify_engine k true)) : frame.

Lemma stable_guard_insert env k v : preserves Ig (guard_insert env k v).
Proof using Stable0. unfold guard_insert. frame. Qed.
Lemma stable_insert_nx env k v : preserves Ig (insert_nx env k v).
Proof using Stable0. unfold insert_nx. frame. Qed.
Lemma stable_insert_many env ps : preserves Ig (insert_many env ps).
Proof using Stable0. unfold insert_many. frame. Qed.
Lemma stable_insert_keep_ttl env k v t : preserves Ig (insert_keep_ttl env k v t).
Proof using Stable0. unfold insert_keep_ttl. frame. Qed.
Lemma stable_read_state k : preserves Ig (read_state k).
Proof using Stable0. unfold read_state. frame. Qed.
Lemma stable_remove_many ks : preserves Ig (remove_many ks).
Proof using Stable0.
  assert (Hl : preserves Ig (remove_live ks)) by (induction ks as [|k ks IH]; cbn [remove_live]; frame).
  unfold remove_many. frame.
Qed.
Lemma stable_guard_expire_at k ms : preserves Ig (guard_expire_at k ms).
Proof using Stable0. unfold guard_expire_at. frame. Qed.
Lemma stable_guard_persist k : preserves Ig (guard_persist k).
Proof using Stable0. unfold guard_persist. frame. Qed.
Lemma stable_guard_clear : preserves Ig guard_clear.
Proof using Stable0. unfold guard_clear. frame. Qed.
Lemma stable_looks k : preserves Ig (ttl_of k) ∧ preserves Ig (strlen_of k) ∧ preserves Ig (memory_of k).
Proof using Stable0.
  assert (Hu : ∀ entry, preserves Ig (on_engine (modify (λ e, untrack k entry (set_store (delete k (e_store e)) e))))).
  { intros entry. apply stable_on_engine, preserves_modify. intros e He. unfold untrack. by apply stable_delta, stable_store. }
  unfold ttl_of, strlen_of, memory_of, log_expire_drop. split_and!; frame.
Qed.
#[local] Hint Resolve stable_guard_insert stable_insert_nx stable_insert_many stable_insert_keep_ttl stable_read_state
  stable_remove_many stable_guard_expire_at stable_guard_persist stable_guard_clear : frame.
#[local] Hint Extern 1 (preserves _ (_ ?k)) => (apply (stable_looks k)) : frame.

(** ** Commands that do not count as reads *)

Lemma stable_set env k v : preserves I (set env k v).
Proof using Stable0. unfold set. gframe. Qed.
Lemma stable_expire_at_ms env k ms : preserves I (expire_at_ms env k ms).
Proof using Stable0. unfold expire_at_ms. gframe. Qed.
Lemma stable_incr_by env k z : preserves I (incr_by env k z).
Proof using Stable0. unfold incr_by. gframe. Qed.
Lemma stable_incr_by_float env k x : preserves I (incr_by_float env k x).
Proof using Stable0. unfold incr_by_float. gframe. Qed.
Lemma stable_append env k v : preserves I (append env k v).
Proof using Stable0. unfold append. gframe. Qed.
Lemma stable_others env k v ps ks :
  preserves I (set_nx env k v) ∧ preserves I (mset env ps) ∧ preserves I (del_many env ks) ∧ preserves I (strlen env k) ∧
  preserves I (flushdb env) ∧ preserves I (persist env k) ∧ preserves I (ttl_ms env k) ∧ preserves I (memory_usage env k).
Proof using Stable0.
  unfold set_nx, mset, del_many, strlen, flushdb, persist, ttl_ms, memory_usage. split_and!; gframe.
Qed.
Lemma stable_rewrite_aof err : preserves I (rewrite_aof err).
Proof using Stable0.
  assert (Hw : ∀ {A} (m : SE AofWriter FerrumError A) d, preserves I (on_writer m d)).
  { intros A m d e He. unfold on_writer. destruct (e_aof e) as [w|] eqn:Ew; [|done]. destruct (m w). by eapply stable_aof. }
  unfold rewrite_aof. gframe.
Qed.

(** ** Commands that do *)

Context `{!StableReads I}.

Lemma stable_record : preserves I record_hit ∧ preserves I record_miss.
Proof using StableReads0. split; apply preserves_modify; [apply stable_hits|apply stable_misses]. Qed.
#[local] Hint Extern 1 (preserves _ record_hit) => (apply stable_record) : frame.
#[local] Hint Extern 1 (preserves _ record_miss) => (apply stable_record) : frame.

Lemma stable_fetch_live env k : preserves Ig (fetch_live env k).
Proof using Stable0 StableReads0. unfold fetch_live. frame. Qed.
Lemma stable_contains_live k : preserves Ig (contains_live k).
Proof using Stable0 StableReads0. unfold contains_live. frame. Qed.
#[local] Hint Resolve stable_fetch_live stable_contains_live : frame.

Lemma stable_get env k : preserves I (get env k).
Proof using Stable0 StableReads0. unfold get. gframe. Qed.
Lemma stable_mget env ks : preserves I (mget env ks).
Proof using Stable0 StableReads0.
  assert (Hr : ∀ i, preserves I (mget_read env i ks)) by (induction ks as [|k ks IH]; intros i; cbn [mget_read]; gframe).
  unfold mget. gframe.
Qed.
Lemma stable_exists_many env ks : preserves I (exists_many env ks).
Proof using Stable0 StableReads0.
  assert (Hr : ∀ i, preserves I (exists_read env i ks)) by (induction ks as [|k ks IH]; intros i; cbn [exists_read]; gframe).
  assert (Hc : ∀ l, preserves Ig (exists_recheck ks l)) by (induction l as [|i l IH]; cbn [exists_recheck]; frame).
  unfold exists_many. gframe.
Qed.
End property.
End frames.
