(* ===== verification/EngineInv.v ===== *)
(** * The engine invariant

    The memory counter equals the cost of the stored entries, the eviction
    indexes are well formed, the adaptive controller is in its band, the
    generator is not stuck and every stored key is within the size limit. Every
    operation keeps it, a write needing head-room for the bytes it adds: the
    counter is a 64-bit atomic, and a dataset of 2^63 bytes would break it. *)
From S2P Require Import Prelude Numeric Text Error Floats IndexMap Eviction Entry Sieve AdaptiveClimb Glob Aof Engine WriteGuard Commands.
From Stdlib Require Import ZArith Lia.
From stdpp Require Import gmap strings numbers list.
Local Open Scope Z_scope.

(** ** The cost of a store *)

Definition total (s : store) : Z := map_fold (λ k e acc, entry_bytes k e + acc) 0 s.

Lemma entry_bytes_pos k e : 0 < entry_bytes k e.
Proof. unfold entry_bytes, PER_ENTRY_OVERHEAD, blen. lia. Qed.

Lemma total_empty : total ∅ = 0.
Proof. apply map_fold_empty. Qed.

Lemma total_insert_fresh s k e : s !! k = None → total (<[k := e]> s) = entry_bytes k e + total s.
Proof. intros Hk. unfold total. rewrite map_fold_insert_L; [done|intros; lia|done]. Qed.

Lemma total_delete s k e : s !! k = Some e → total (delete k s) = total s - entry_bytes k e.
Proof.
  intros Hk. unfold total at 2. rewrite (map_fold_delete_L _ _ k e s); [|intros; lia|done].
  unfold total. lia.
Qed.

Lemma total_insert s k e :
  total (<[k := e]> s)
  = total s + entry_bytes k e - match s !! k with Some p => entry_bytes k p | None => 0 end.
Proof.
  rewrite <- insert_delete_eq, total_insert_fresh by apply lookup_delete_eq.
  destruct (s !! k) as [p|] eqn:E.
  - rewrite (total_delete _ _ _ E). lia.
  - rewrite delete_id by done. lia.
Qed.

Lemma total_nonneg s : 0 ≤ total s.
Proof.
  induction s as [|k e s Hk IH] using map_ind; [by rewrite total_empty|].
  rewrite total_insert_fresh by done. pose proof (entry_bytes_pos k e). lia.
Qed.

Lemma entry_le_total s k e : s !! k = Some e → entry_bytes k e ≤ total s.
Proof.
  intros Hk. pose proof (total_delete _ _ _ Hk). pose proof (total_nonneg (delete k s)). lia.
Qed.

(** An update that keeps the payload keeps the cost. *)
Lemma total_same_data s k e e' :
  s !! k = Some e → data e' = data e → total (<[k := e']> s) = total s.
Proof.
  intros Hk Hd. rewrite total_insert, Hk. unfold entry_bytes. rewrite Hd. lia.
Qed.

Definition i63 : Z := 9223372036854775808.

Lemma as_i64_small z : 0 ≤ z < i63 → as_i64 z = z.
Proof.
  unfold as_i64, wrap64, i63, i64_max. intros Hz. rewrite Z.mod_small by lia.
  destruct (z <=? 9223372036854775807) eqn:E; bool_to_prop; lia.
Qed.

Section inv.
Context `{IndexMap} `{HashIter}.

Abbreviation M := (SE Engine FerrumError).
Abbreviation WG := (SE Guard FerrumError).

(** The invariant, with head-room for [r] more bytes. *)
Record engine_wf (r : Z) (e : Engine) : Prop := {
  wf_used : e_used_memory e = total (e_store e);
  wf_room : total (e_store e) + r < i63;
  wf_sieve : sieve_wf (e_sieve e);
  wf_ac : ac_wf (e_ac e);
  wf_ahe : ahe_inv (e_ahe e);
  wf_rng : 0 < e_rng e < 4294967296;
  wf_keys : map_Forall (λ k _, validate_key k = Ok tt) (e_store e);
  wf_clamped : ac_clamped (e_ac e);
  wf_index : e_index_kind e = policy_index_kind (policy (e_eviction e));
  wf_counters : 0 ≤ e_hits e < 2 ^ 64 ∧ 0 ≤ e_misses e < 2 ^ 64;
  wf_ratio : ahe_ratio (e_ahe e);
}.

(** An operation that keeps the invariant and adds at most [c] bytes; [π] says
    where its state keeps the engine. *)
Definition spends {S A} (π : S → Engine) (c : Z) (m : SE S FerrumError A) : Prop :=
  ∀ r, 0 ≤ r → triple (λ s, engine_wf (r + c) (π s)) m (λ _ s, engine_wf r (π s)).

(** For operations of the engine and of the write guard. *)
Abbreviation costs := (spends (λ e : Engine, e)).
Abbreviation gcosts := (spends g_engine).

Lemma engine_wf_less r r' e : r' ≤ r → engine_wf r e → engine_wf r' e.
Proof. intros Hr []. split; try done. lia. Qed.

Section rules.
Context {S : Type} (π : S → Engine).
Abbreviation SM := (SE S FerrumError).

Lemma spends_bind {A B} c1 c2 (m : SM A) (f : A → SM B) :
  0 ≤ c1 → 0 ≤ c2 → spends π c1 m → (∀ a, spends π c2 (f a)) → spends π (c1 + c2) (m ≫= f).
Proof.
  intros H1 H2 Hm Hf r Hr. apply triple_bind with (λ _ s, engine_wf (r + c2) (π s)).
  - intros s Hs. apply Hm; [lia|]. eapply engine_wf_less; [|done]. lia.
  - intros a. by apply Hf.
  - intros e s Hs. eapply engine_wf_less; [|done]. lia.
Qed.

Lemma spends_then {A B} c (m : SM A) (f : A → SM B) :
  0 ≤ c → spends π 0 m → (∀ a, spends π c (f a)) → spends π c (m ≫= f).
Proof. intros. replace c with (0 + c) by lia. by apply spends_bind. Qed.

Lemma spends_first {A B} c (m : SM A) (f : A → SM B) :
  0 ≤ c → spends π c m → (∀ a, spends π 0 (f a)) → spends π c (m ≫= f).
Proof. intros. replace c with (c + 0) by lia. by apply spends_bind. Qed.

Lemma spends_same {A} c (m : SM A) : 0 ≤ c → (∀ s, π (m s).2 = π s) → spends π c m.
Proof.
  intros Hc Hm r Hr s Hs. rewrite Hm. eapply engine_wf_less; [|done]. lia.
Qed.

Lemma spends_ret {A} c (a : A) : 0 ≤ c → spends π c (mret a : SM A).
Proof. intros. by apply spends_same. Qed.
Lemma spends_throw {A} c err : 0 ≤ c → spends π c (throw err : SM A).
Proof. intros. by apply spends_same. Qed.
Lemma spends_lift {A} c (x : res A) : 0 ≤ c → spends π c (lift_result x : SM A).
Proof. intros. by apply spends_same. Qed.
Lemma spends_gets {A} c (f : S → A) : 0 ≤ c → spends π c (gets f : SM A).
Proof. intros. by apply spends_same. Qed.

Lemma spends_more {A} c c' (m : SM A) : c ≤ c' → spends π c m → spends π c' m.
Proof.
  intros Hc Hm r Hr s Hs. apply Hm; [done|]. eapply engine_wf_less; [|done]. lia.
Qed.

Lemma spends_attempt {A} c (m : SM A) : spends π c m → spends π c (attempt m).
Proof.
  intros Hm r Hr s Hs. specialize (Hm r Hr s Hs). unfold attempt.
  by destruct (m s) as [x s'].
Qed.

Lemma spends_for_each {A} c (l : list A) (f : A → SM ()) :
  0 ≤ c → (∀ x, x ∈ l → spends π c (f x)) → spends π (c * blen l) (for_each l f).
Proof.
  intros Hc Hf. induction l as [|x l IH]; simpl.
  - apply spends_ret. unfold blen. simpl. lia.
  - replace (c * blen (x :: l)) with (c + c * blen l) by (unfold blen; simpl; lia).
    apply spends_bind; [done|unfold blen; lia|apply Hf; by left|].
    intros _. apply IH. intros y Hy. apply Hf. by right.
Qed.

Lemma spends_for_each_0 {A} (l : list A) (f : A → SM ()) :
  (∀ x, spends π 0 (f x)) → spends π 0 (for_each l f).
Proof. intros Hf. apply (spends_for_each 0 l f); [done|]. auto. Qed.

End rules.

(** An update of an engine field. *)
Lemma costs_modify (f : Engine → Engine) :
  (∀ r e, engine_wf r e → engine_wf r (f e)) → costs 0 (modify f : M ()).
Proof. intros Hf r Hr s Hs. simpl. apply Hf. by rewrite Z.add_0_r in Hs. Qed.

Lemma gcosts_on_engine {A} c (m : M A) : costs c m → gcosts c (on_engine m).
Proof.
  intros Hm r Hr g Hg. specialize (Hm r Hr _ Hg). unfold on_engine.
  by destruct (m (g_engine g)) as [x e].
Qed.

(** ** Primitives *)

Lemma set_sieve_wf r e s : engine_wf r e → sieve_wf s → engine_wf r (set_sieve s e).
Proof. intros [] Hs. split; simpl; assumption. Qed.

Lemma set_ac_wf r e s : engine_wf r e → ac_wf s ∧ ac_clamped s → engine_wf r (set_ac s e).
Proof. intros [] []. split; simpl; assumption. Qed.

Lemma sieve_notify_wf r key t e :
  engine_wf r e →
  engine_wf r (sieve_notify_insert key t e) ∧ engine_wf r (sieve_notify_remove key e) ∧
  engine_wf r (sieve_notify_access key e).
Proof.
  intros Hwf. pose proof (wf_sieve _ _ Hwf).
  unfold sieve_notify_insert, sieve_notify_remove, sieve_notify_access.
  destruct (index_kind.is_sieve (e_index_kind e)); [|done].
  split; [|split]; (apply set_sieve_wf; [done|]).
  - by apply sieve_wf_observe_insert.
  - by apply sieve_wf_observe_remove.
  - by apply sieve_wf_observe_access.
Qed.

Lemma ac_notify_wf r key t e :
  engine_wf r e →
  engine_wf r (ac_notify_insert key t e) ∧ engine_wf r (ac_notify_remove key e) ∧
  engine_wf r (ac_notify_access key e).
Proof.
  intros Hwf. pose proof (wf_ac _ _ Hwf). pose proof (wf_clamped _ _ Hwf).
  unfold ac_notify_insert, ac_notify_remove, ac_notify_access.
  destruct (index_kind.is_ac (e_index_kind e)); [|done].
  split; [|split]; (apply set_ac_wf; [done|]).
  - by apply ac_wf_observe_insert.
  - by apply ac_wf_observe_remove.
  - destruct (ac_wf_observe_access key (e_ac e)); auto.
Qed.

Lemma notify_insert_wf r key t e :
  engine_wf r e → engine_wf r (ac_notify_insert key t (sieve_notify_insert key t e)).
Proof. intros Hwf. by apply ac_notify_wf, sieve_notify_wf. Qed.

Lemma notify_remove_wf r key e :
  engine_wf r e → engine_wf r (ac_notify_remove key (sieve_notify_remove key e)).
Proof. intros Hwf. by eapply (ac_notify_wf _ _ true), (sieve_notify_wf _ _ true). Qed.

Lemma notify_access_wf r key e :
  engine_wf r e → engine_wf r (ac_notify_access key (sieve_notify_access key e)).
Proof. intros Hwf. by eapply (ac_notify_wf _ _ true), (sieve_notify_wf _ _ true). Qed.

(** The counter after the store changed by [d] bytes. *)
Lemma apply_delta_used e d :
  0 ≤ e_used_memory e + d < i63 → e_used_memory (apply_delta d e) = e_used_memory e + d.
Proof.
  unfold apply_delta, i63. intros Hd. destruct (d =? 0) eqn:E0; bool_to_prop; [lia|].
  destruct (0 <? d) eqn:E1; bool_to_prop; simpl.
  - unfold wrap64. apply Z.mod_small. lia.
  - unfold sat_sub. lia.
Qed.

Lemma apply_delta_frame d e :
  e_store (apply_delta d e) = e_store e ∧ e_sieve (apply_delta d e) = e_sieve e ∧
  e_ac (apply_delta d e) = e_ac e ∧ e_ahe (apply_delta d e) = e_ahe e ∧
  e_rng (apply_delta d e) = e_rng e ∧ e_index_kind (apply_delta d e) = e_index_kind e ∧
  e_eviction (apply_delta d e) = e_eviction e ∧ e_hits (apply_delta d e) = e_hits e ∧
  e_misses (apply_delta d e) = e_misses e.
Proof. unfold apply_delta. by repeat case_match. Qed.

(** Replacing the store and adjusting the counter accordingly. *)
Lemma set_store_delta_wf r r' s d e :
  engine_wf r e → total s = total (e_store e) + d → total s + r' < i63 → 0 ≤ r' →
  map_Forall (λ k _, validate_key k = Ok tt) s →
  engine_wf r' (apply_delta d (set_store s e)).
Proof.
  intros [] Ht Hr Hr' Hk.
  destruct (apply_delta_frame d (set_store s e)) as (Hs & H1 & H2 & H3 & H4 & H5 & H6 & H7 & H8).
  split; rewrite ?Hs, ?H1, ?H2, ?H3, ?H4, ?H5, ?H6, ?H7, ?H8; try done.
  rewrite apply_delta_used; simpl; pose proof (total_nonneg s); lia.
Qed.

Lemma costs_track_insert key entry :
  validate_key key = Ok tt → costs (entry_bytes key entry) (track_insert key entry).
Proof.
  intros Hkey r Hr e Hwf. unfold track_insert. simpl. apply notify_insert_wf.
  pose proof (entry_bytes_pos key entry) as Hp. pose proof (total_nonneg (e_store e)) as Ht.
  destruct (Hwf) as [Hu Hroom _ _ _ _ Hkeys _ _ _ _].
  assert (Hprev : 0 ≤ match e_store e !! key with Some p => entry_bytes key p | None => 0 end
                  ≤ total (e_store e)).
  { destruct (e_store e !! key) as [p|] eqn:E; [|lia].
    pose proof (entry_bytes_pos key p). pose proof (entry_le_total _ _ _ E). lia. }
  rewrite !as_i64_small by lia.
  eapply set_store_delta_wf; [exact Hwf| | |done|].
  - rewrite total_insert. lia.
  - rewrite total_insert. lia.
  - by apply map_Forall_insert_2.
Qed.

Lemma costs_track_remove key : costs 0 (track_remove key).
Proof.
  intros r Hr e Hwf. rewrite Z.add_0_r in Hwf. unfold track_remove. simpl.
  apply notify_remove_wf. destruct (e_store e !! key) as [p|] eqn:E.
  - pose proof (entry_bytes_pos key p). pose proof (entry_le_total _ _ _ E).
    destruct (Hwf) as [Hu Hroom _ _ _ _ Hkeys _ _ _ _].
    rewrite as_i64_small by lia.
    eapply set_store_delta_wf; [exact Hwf| | |done|].
    + rewrite (total_delete _ _ _ E). lia.
    + rewrite (total_delete _ _ _ E). lia.
    + by apply map_Forall_delete.
  - rewrite delete_id by done. destruct Hwf. by split.
Qed.

Lemma costs_track_clear : costs 0 track_clear.
Proof.
  apply costs_modify. intros r e Hwf. pose proof (total_nonneg (e_store e)).
  destruct Hwf. split; simpl; [by rewrite total_empty|rewrite total_empty; lia| | |done|done| | |done|done|done].
  - apply sieve_wf_clear.
  - apply ac_wf_clear.
  - apply map_Forall_empty.
  - apply ac_wf_clear.
Qed.

Lemma costs_note_aof m : costs 0 (note_aof m).
Proof.
  intros r Hr e Hwf. rewrite Z.add_0_r in Hwf. unfold note_aof.
  destruct (e_aof e) as [w|]; [|done]. destruct (m w) as [[]w']; destruct Hwf; by split.
Qed.

Lemma costs_touch_access env key : costs 0 (touch_access env key).
Proof.
  intros r Hr e Hwf. rewrite Z.add_0_r in Hwf. unfold touch_access.
  destruct (e_store e !! key) as [entry|] eqn:E; [|done]. simpl.
  apply notify_access_wf. destruct Hwf. split; simpl; try done.
  - by rewrite (total_same_data _ _ entry).
  - by rewrite (total_same_data _ _ entry).
  - by apply xorshift32_range.
  - apply map_Forall_insert_2; [by eapply wf_keys0|done].
Qed.

(** ** Automation *)

Create HintDb cost discriminated.

(** Splits a computation along its binds and tests; one of the parts may carry
    the cost, the others must cost nothing. *)
Ltac cost_leaf :=
  first [ by apply spends_ret | by apply spends_throw | by apply spends_lift
        | by apply spends_gets | solve [eauto with cost] ].
Ltac cost :=
  cbv beta zeta;
  lazymatch goal with
  | |- spends _ _ (match ?x with _ => _ end) => destruct x; cost
  | |- spends _ _ (attempt _) => apply spends_attempt; cost
  | |- spends _ _ (_ ≫= _) =>
      first [ apply spends_then; [lia|solve [cost]|intros ?; cost]
            | apply spends_first; [lia|cost|intros ?; cost] ]
  | |- spends g_engine _ (on_engine _) => apply gcosts_on_engine; cost
  | |- spends _ 0 (for_each _ _) => apply spends_for_each_0; intros ?; cost
  | |- _ => try cost_leaf
  end.

(** Updates of fields outside the invariant. *)
Lemma costs_frame (f : Engine → Engine) :
  (∀ e, e_used_memory (f e) = e_used_memory e ∧ e_store (f e) = e_store e ∧
        e_sieve (f e) = e_sieve e ∧ e_ac (f e) = e_ac e ∧ e_ahe (f e) = e_ahe e ∧
        e_rng (f e) = e_rng e ∧ e_index_kind (f e) = e_index_kind e ∧
        e_eviction (f e) = e_eviction e ∧ e_hits (f e) = e_hits e ∧
        e_misses (f e) = e_misses e) →
  costs 0 (modify f : M ()).
Proof.
  intros Hf. apply costs_modify. intros r e [].
  destruct (Hf e) as (H1 & H2 & H3 & H4 & H5 & H6 & H7 & H8 & H9 & H10).
  split; rewrite ?H1, ?H2, ?H3, ?H4, ?H5, ?H6, ?H7, ?H8, ?H9, ?H10; done.
Qed.

Lemma succ64_bounds z : 0 ≤ succ64 z < 2 ^ 64.
Proof. unfold succ64, wrap64. apply (Z.mod_pos_bound (z + 1)). lia. Qed.

Lemma costs_record_hit : costs 0 record_hit.
Proof.
  apply costs_modify. intros r e []. split; simpl; try done.
  split; [apply succ64_bounds|apply wf_counters0].
Qed.
Lemma costs_record_miss : costs 0 record_miss.
Proof.
  apply costs_modify. intros r e []. split; simpl; try done.
  split; [apply wf_counters0|apply succ64_bounds].
Qed.

#[local] Hint Resolve costs_track_remove costs_track_clear costs_note_aof costs_touch_access
  costs_record_hit costs_record_miss : cost.
#[local] Hint Extern 1 (spends _ 0 (modify (λ e, set_evicted_keys _ e))) => (by apply costs_frame) : cost.
#[local] Hint Extern 1 (spends _ 0 (modify (λ e, set_expired_keys _ e))) => (by apply costs_frame) : cost.
#[local] Hint Extern 1 (spends _ 0 (modify (set_sweep_cursor _))) => (by apply costs_frame) : cost.

(** ** Eviction and the sweep *)

Lemma note_aof_frame m e :
  (note_aof m e).1 = Ok tt ∧ e_store (note_aof m e).2 = e_store e ∧
  e_used_memory (note_aof m e).2 = e_used_memory e ∧
  e_eviction (note_aof m e).2 = e_eviction e.
Proof.
  unfold note_aof. destruct (e_aof e) as [w|]; [|done]. by destruct (m w) as [[] w'].
Qed.

Lemma notify_frame key t e :
  e_store (ac_notify_insert key t (sieve_notify_insert key t e)) = e_store e ∧
  e_eviction (ac_notify_insert key t (sieve_notify_insert key t e)) = e_eviction e ∧
  e_used_memory (ac_notify_insert key t (sieve_notify_insert key t e)) = e_used_memory e ∧
  e_store (ac_notify_remove key (sieve_notify_remove key e)) = e_store e ∧
  e_eviction (ac_notify_remove key (sieve_notify_remove key e)) = e_eviction e.
Proof.
  unfold ac_notify_insert, sieve_notify_insert, ac_notify_remove, sieve_notify_remove.
  destruct (index_kind.is_sieve (e_index_kind e)); simpl;
    destruct (index_kind.is_ac (e_index_kind e)); done.
Qed.

Lemma track_remove_frame key e :
  (track_remove key e).1 = Ok (e_store e !! key) ∧
  e_store (track_remove key e).2 = delete key (e_store e) ∧
  e_eviction (track_remove key e).2 = e_eviction e.
Proof.
  unfold track_remove. simpl. split; [done|].
  set (e1 := match e_store e !! key with Some _ => _ | None => _ end).
  assert (Hs : e_store e1 = delete key (e_store e) ∧ e_eviction e1 = e_eviction e).
  { unfold e1, apply_delta. destruct (e_store e !! key); [|done]. by repeat case_match. }
  destruct (notify_frame key true e1) as (_ & _ & _ & H3 & H4). by rewrite H3, H4.
Qed.

(** Dropping a key from the list clamps [jump]: it does not matter whether it
    was clamped before. *)
Lemma track_remove_clamp key s e :
  index_kind.is_ac (e_index_kind e) = true →
  track_remove key (set_ac s e) = track_remove key (set_ac (clamp_jump s) e).
Proof.
  intros Hk. unfold track_remove, untrack, apply_delta, ac_notify_remove, sieve_notify_remove.
  cbn [e_store set_ac]. f_equal.
  destruct (e_store e !! key) as [p|]; [destruct (_ =? 0); [|destruct (0 <? _)]|];
    simpl; destruct (index_kind.is_sieve (e_index_kind e));
    simpl; rewrite Hk, ac_observe_remove_clamp; reflexivity.
Qed.

(** One round of the loop that found a victim. *)
Definition evict_round (key : bytes) : M () :=
  track_remove key;;
  modify (λ e, set_evicted_keys (succ64 (e_evicted_keys e)) e);;
  note_aof (append_del key).

Lemma evict_loop_S rounds env cfg incoming n e :
  evict_loop (S rounds) env cfg incoming n e =
  if fits cfg incoming (e_used_memory e) then (Ok n, e)
  else if bool_decide (policy cfg = NoEviction) then (Err OutOfMemory, e)
  else match choose_victim env cfg e with
       | (Ok (Some k), e1) =>
           match evict_round k e1 with
           | (Ok _, e2) => evict_loop rounds env cfg incoming (n + 1) e2
           | (Err x, e2) => (Err x, e2)
           end
       | (Ok None, e1) => (Err OutOfMemory, e1)
       | (Err x, e1) => (Err x, e1)
       end.
Proof.
  cbn [evict_loop]. unfold mbind at 1, se_bind at 1, gets. cbn beta iota.
  destruct (fits _ _ _); [done|]. destruct (bool_decide _); [done|].
  unfold mbind at 1, se_bind at 1. destruct (choose_victim env cfg e) as [[[k|]|x] e1]; try done.
Qed.

(** Taking a victim off the AdaptiveClimb list leaves [jump] as it is, so the
    invariant is back only when the victim has been dropped from the store. *)
Lemma choose_victim_wf env e r :
  engine_wf r e → 0 ≤ r →
  let '(x, e1) := choose_victim env (e_eviction e) e in
  e_eviction e1 = e_eviction e ∧
  match x with
  | Ok (Some k) => engine_wf r (track_remove k e1).2
  | _ => engine_wf r e1
  end.
Proof.
  intros Hwf Hr.
  assert (Ht : ∀ k e', engine_wf r e' → engine_wf r (track_remove k e').2).
  { intros k e' He'. apply (costs_track_remove k r Hr). by rewrite Z.add_0_r. }
  assert (Hs : ∀ scope t, let '(x, e1) := evict_sieve env scope t e in
    e_eviction e1 = e_eviction e ∧
    match x with Ok (Some k) => engine_wf r (track_remove k e1).2 | _ => engine_wf r e1 end).
  { intros scope t. unfold evict_sieve.
    pose proof (sieve_wf_evict_one (e_store e) scope t (inst (env_late env)) _ (wf_sieve _ _ Hwf)) as Hq.
    destruct (sieve_evict_one _ _ _ _ _) as [x s]. split; [done|].
    pose proof (set_sieve_wf _ _ _ Hwf Hq). destruct x; [by apply Ht|done]. }
  assert (Ha : index_kind.is_ac (e_index_kind e) = true → ∀ scope, let '(x, e1) := evict_ac scope e in
    e_eviction e1 = e_eviction e ∧
    match x with Ok (Some k) => engine_wf r (track_remove k e1).2 | _ => engine_wf r e1 end).
  { intros Hk scope. unfold evict_ac.
    pose proof (ac_wf_evict_one (e_store e) scope _ (wf_ac _ _ Hwf)) as Hq.
    pose proof (ac_evict_one_None (e_store e) scope _ (wf_ac _ _ Hwf)) as Hn.
    destruct (ac_evict_one _ _ _) as [[k|] s]; (split; [done|]).
    - rewrite track_remove_clamp by done. apply Ht, set_ac_wf, clamp_jump_spec, Hq. done.
    - apply set_ac_wf; [done|]. split; [done|]. apply Hn; [done|apply Hwf]. }
  rewrite (wf_index _ _ Hwf) in Ha. unfold choose_victim, gets.
  destruct (policy (e_eviction e)); try apply Hs; try (by apply Ha);
    (split; [done|]); (destruct (_ <$> _); [by apply Ht|done]).
Qed.

Lemma evict_round_frame key e :
  (evict_round key e).1 = Ok tt ∧ e_store (evict_round key e).2 = delete key (e_store e) ∧
  e_eviction (evict_round key e).2 = e_eviction e.
Proof.
  unfold evict_round, mbind, se_bind. destruct (track_remove_frame key e) as (H1 & H2 & H3).
  destruct (track_remove key e) as [x e1]. simpl in *. subst x.
  destruct (note_aof_frame (append_del key) (set_evicted_keys (succ64 (e_evicted_keys e1)) e1))
    as (H4 & -> & _ & ->). done.
Qed.

Lemma evict_round_wf key e r :
  engine_wf r (track_remove key e).2 → 0 ≤ r → engine_wf r (evict_round key e).2.
Proof.
  intros Hwf Hr. unfold evict_round, mbind, se_bind.
  destruct (track_remove_frame key e) as (H1 & _).
  destruct (track_remove key e) as [x e1]. simpl in *. subst x.
  apply (costs_note_aof (append_del key) r Hr). rewrite Z.add_0_r. destruct Hwf; by split.
Qed.

Lemma evict_loop_wf rounds env cfg incoming n e r :
  engine_wf r e → 0 ≤ r → e_eviction e = cfg →
  engine_wf r (evict_loop rounds env cfg incoming n e).2 ∧
  e_eviction (evict_loop rounds env cfg incoming n e).2 = cfg.
Proof.
  intros Hwf Hr <-. set (cfg := e_eviction e). assert (Hcfg : e_eviction e = cfg) by done. clearbody cfg.
  revert n e Hwf Hcfg. induction rounds as [|rounds IH]; intros n e Hwf <-; [done|].
  rewrite evict_loop_S. destruct (fits _ _ _); [done|]. destruct (bool_decide _); [done|].
  pose proof (choose_victim_wf env e r Hwf Hr) as Hv.
  destruct (choose_victim env (e_eviction e) e) as [[[k|]|x] e1]; destruct Hv as [H1 H2]; [|done|done].
  destruct (evict_round_frame k e1) as (R1 & R3 & R4). pose proof (evict_round_wf k e1 r H2 Hr) as R2.
  destruct (evict_round k e1) as [x e2]. simpl in *. subst x. apply IH; [done|congruence].
Qed.

Lemma enforce_memory_limit_eq env incoming e :
  enforce_memory_limit env incoming e =
  let cfg := e_eviction e in
  if max_memory cfg =? 0 then (Ok tt, e)
  else match evict_loop (Nat.max (size (e_store e)) 1 + 16) env cfg incoming 0 e with
       | (Ok n, e1) =>
           let e2 := if (0 <? n) && is_ahe (policy cfg)
                     then set_ahe (observe (e_hits e1) (e_misses e1) (e_ahe e1)).2 e1 else e1 in
           (if fits cfg incoming (e_used_memory e2) then Ok tt else Err OutOfMemory, e2)
       | (Err x, e1) => (Err x, e1)
       end.
Proof.
  unfold enforce_memory_limit, mbind, se_bind, gets. cbn beta iota zeta.
  destruct (max_memory (e_eviction e) =? 0); [done|].
  destruct (evict_loop _ _ _ _ _ _) as [[n|x] e1]; [|done].
  destruct ((0 <? n) && is_ahe (policy (e_eviction e))); simpl; by destruct (fits _ _ _).
Qed.

Lemma costs_enforce_memory_limit env incoming : costs 0 (enforce_memory_limit env incoming).
Proof.
  intros r Hr e Hwf. rewrite Z.add_0_r in Hwf. rewrite enforce_memory_limit_eq. cbv zeta.
  destruct (max_memory (e_eviction e) =? 0); [done|].
  destruct (evict_loop_wf (Nat.max (size (e_store e)) 1 + 16) env _ incoming 0 e r Hwf Hr eq_refl) as [H1 _].
  destruct (evict_loop _ _ _ _ _ _) as [[n|x] e1]; [|done]. cbn [snd] in *.
  destruct ((0 <? n) && _); [|done]. destruct H1. split; simpl; try done.
  - by apply ahe_inv_observe.
  - apply ahe_ratio_observe; [apply wf_counters0|done].
Qed.
#[local] Hint Resolve costs_enforce_memory_limit : cost.

Lemma costs_enforce_for_write env key n : costs 0 (enforce_for_write env key n).
Proof. unfold enforce_for_write. cost. Qed.
#[local] Hint Resolve costs_enforce_for_write : cost.

Lemma costs_sweep_expired env sample : costs 0 (sweep_expired env sample).
Proof. unfold sweep_expired. cost. Qed.

Lemma costs_set_eviction_config cfg : costs 0 (set_eviction_config cfg).
Proof.
  apply costs_modify. intros r e Hwf.
  assert (Hk : ∀ e', engine_wf r e' →
    engine_wf r (set_eviction cfg (set_index_kind (policy_index_kind (policy cfg)) e')))
    by (intros e' []; by split).
  cbv zeta. destruct (Z.eqb_spec (policy_index_kind (policy cfg)) (e_index_kind e)) as [Heq|_].
  { rewrite Heq in Hk. specialize (Hk e Hwf). by destruct e. }
  apply Hk. destruct (index_kind.is_sieve _); [|destruct (index_kind.is_ac _)].
  - apply set_ac_wf; [|apply ac_wf_clear]. apply set_sieve_wf; [done|]. apply sieve_rebuild_spec.
  - apply set_sieve_wf; [|apply sieve_wf_clear]. apply set_ac_wf; [done|]. apply ac_rebuild_spec.
  - apply set_ac_wf; [|apply ac_wf_clear]. apply set_sieve_wf; [done|]. apply sieve_wf_clear.
Qed.

(** ** The write guard *)

(** The bytes a value of [n] bytes under [key] costs. *)
Definition write_cost (key : bytes) (n : Z) : Z := blen key + n + PER_ENTRY_OVERHEAD.

Lemma write_cost_nonneg key n : 0 ≤ n → 0 ≤ write_cost key n.
Proof. unfold write_cost, PER_ENTRY_OVERHEAD, blen. lia. Qed.

(** What follows a validation runs only when it succeeded. *)
Lemma spends_guarded {S A} (π : S → Engine) c (x : res ()) (m : SE S FerrumError A) :
  0 ≤ c → (x = Ok tt → spends π c m) → spends π c (lift_result x;; m).
Proof.
  intros Hc Hm. destruct x as [[]|err].
  - intros r Hr s Hs. unfold mbind, se_bind, lift_result. by apply (Hm eq_refl r Hr s).
  - by apply spends_same.
Qed.

Lemma costs_with_guard {A} env c (body : WG A) :
  gcosts c body → costs c (with_guard env body).
Proof.
  intros Hb r Hr e Hwf. specialize (Hb r Hr (guard_begin env e) Hwf). unfold with_guard.
  destruct (body (guard_begin env e)) as [x g]. simpl in *. unfold guard_drop.
  destruct (g_wrote_aof g); [|done].
  apply (costs_note_aof sync_if_needed r Hr). by rewrite Z.add_0_r.
Qed.

Lemma gcosts_log m : gcosts 0 (log m).
Proof.
  unfold log. apply spends_then; [done|by apply spends_gets|]. intros b.
  destruct b; [|by apply spends_ret].
  apply spends_then; [done|by apply spends_same|]. intros _. cost.
Qed.
#[local] Hint Resolve gcosts_log : cost.

Lemma gcosts_lookup_entry key : gcosts 0 (lookup_entry key).
Proof. by apply spends_gets. Qed.
#[local] Hint Resolve gcosts_lookup_entry : cost.

Lemma gcosts_expire_now key : gcosts 0 (expire_now key).
Proof. unfold expire_now, log_expire_drop. cost. Qed.
#[local] Hint Resolve gcosts_expire_now : cost.

Lemma gcosts_fetch_live env key : gcosts 0 (fetch_live env key).
Proof. unfold fetch_live. cost. Qed.
Lemma gcosts_contains_live key : gcosts 0 (contains_live key).
Proof. unfold contains_live. cost. Qed.
Lemma gcosts_read_state key : gcosts 0 (read_state key).
Proof. unfold read_state. cost. Qed.
Lemma gcosts_ttl_of key : gcosts 0 (ttl_of key).
Proof. unfold ttl_of. cost. Qed.
Lemma gcosts_strlen_of key : gcosts 0 (strlen_of key).
Proof. unfold strlen_of. cost. Qed.
Lemma gcosts_guard_clear : gcosts 0 guard_clear.
Proof. unfold guard_clear. cost. Qed.
#[local] Hint Resolve gcosts_fetch_live gcosts_contains_live gcosts_read_state gcosts_ttl_of
  gcosts_strlen_of gcosts_guard_clear : cost.

Lemma gcosts_remove_live keys : gcosts 0 (remove_live keys).
Proof. induction keys as [|k keys IH]; simpl; cost. Qed.
#[local] Hint Resolve gcosts_remove_live : cost.

Lemma gcosts_guard_remove key : gcosts 0 (guard_remove key).
Proof. unfold guard_remove. cost. Qed.
Lemma gcosts_remove_many keys : gcosts 0 (remove_many keys).
Proof. unfold remove_many. cost. Qed.
#[local] Hint Resolve gcosts_guard_remove gcosts_remove_many : cost.

(** Changing a deadline in place leaves every cost as it is. *)
Lemma costs_alter_deadline key d :
  costs 0 (modify (λ e, set_store (alter (set_expire_at d) key (e_store e)) e) : M ()).
Proof.
  apply costs_modify. intros r e Hwf.
  destruct (e_store e !! key) as [p|] eqn:E.
  - assert (Ha : alter (set_expire_at d) key (e_store e) = <[key := set_expire_at d p]> (e_store e)).
    { apply map_eq. intros k. destruct (decide (k = key)) as [->|Hne].
      - by rewrite lookup_alter_eq, lookup_insert_eq, E.
      - by rewrite lookup_alter_ne, lookup_insert_ne. }
    rewrite Ha. destruct Hwf. split; simpl; try done.
    + by rewrite (total_same_data _ _ p).
    + by rewrite (total_same_data _ _ p).
    + apply map_Forall_insert_2; [by eapply wf_keys0|done].
  - assert (Ha : alter (set_expire_at d) key (e_store e) = e_store e).
    { apply map_eq. intros k. destruct (decide (k = key)) as [->|Hne].
      - by rewrite lookup_alter_eq, E.
      - by rewrite lookup_alter_ne. }
    rewrite Ha. destruct Hwf. by split.
Qed.
#[local] Hint Resolve costs_alter_deadline : cost.

Lemma costs_notify key t :
  costs 0 (modify (sieve_notify_insert key t) : M ()) ∧ costs 0 (modify (ac_notify_insert key t) : M ()) ∧
  costs 0 (modify (sieve_notify_remove key) : M ()) ∧ costs 0 (modify (ac_notify_remove key) : M ()).
Proof.
  split_and!; apply costs_modify; intros r e Hwf;
    [by apply sieve_notify_wf|by apply ac_notify_wf
    |by eapply (sieve_notify_wf _ _ t)|by eapply (ac_notify_wf _ _ t)].
Qed.

Lemma gcosts_guard_expire_at key ms : gcosts 0 (guard_expire_at key ms).
Proof.
  destruct (costs_notify key true) as (H1 & H2 & _). unfold guard_expire_at. cost.
Qed.
Lemma gcosts_guard_persist key : gcosts 0 (guard_persist key).
Proof.
  destruct (costs_notify key true) as (_ & _ & H3 & H4). unfold guard_persist. cost.
Qed.
#[local] Hint Resolve gcosts_guard_expire_at gcosts_guard_persist : cost.

Lemma gcosts_memory_of key : gcosts 0 (memory_of key).
Proof.
  intros r Hr g Hwf. rewrite Z.add_0_r in Hwf.
  unfold memory_of, lookup_entry, mbind at 1 2, se_bind at 1 2, gets. cbn beta iota.
  destruct (e_store (g_engine g) !! key) as [p|] eqn:E; [|done].
  destruct (is_expired (g_now g) p); [|done].
  set (e' := untrack key p (set_store (delete key (e_store (g_engine g))) (g_engine g))).
  assert (Hwf' : engine_wf r e').
  { unfold e', untrack. pose proof (entry_bytes_pos key p). pose proof (entry_le_total _ _ _ E).
    destruct (Hwf) as [Hu Hroom _ _ _ _ Hkeys _ _ _ _]. rewrite as_i64_small by lia.
    eapply set_store_delta_wf; [exact Hwf| | |done|by apply map_Forall_delete];
      rewrite (total_delete _ _ _ E); lia. }
  assert (Hrest : gcosts 0 (on_engine (log_expire_drop key);; mret (None : option Z)))
    by (unfold log_expire_drop; cost).
  apply (Hrest r Hr (set_engine e' g)). simpl. by rewrite Z.add_0_r.
Qed.
#[local] Hint Resolve gcosts_memory_of : cost.

Lemma costs_insert_new key entry n :
  validate_key key = Ok tt → blen (data entry) ≤ n →
  costs (write_cost key n) (track_insert key entry).
Proof.
  intros Hk Hn. eapply spends_more; [|by apply costs_track_insert].
  unfold write_cost, entry_bytes. lia.
Qed.

(** The write paths: enforcement and logging cost nothing, the insertion costs
    the new entry. *)
Lemma gcosts_guard_insert env key value :
  gcosts (write_cost key (blen value)) (guard_insert env key value).
Proof.
  pose proof (write_cost_nonneg key (blen value) (blen_nonneg _)) as Hc.
  apply spends_guarded; [done|]. intros Hk. apply spends_guarded; [done|]. intros _.
  pose proof (costs_insert_new key (new (env_late env) value) (blen value) Hk (Z.le_refl _)).
  cost.
Qed.

Lemma gcosts_insert_nx env key value :
  gcosts (write_cost key (blen value)) (insert_nx env key value).
Proof.
  pose proof (write_cost_nonneg key (blen value) (blen_nonneg _)) as Hc.
  apply spends_guarded; [done|]. intros Hk. apply spends_guarded; [done|]. intros _.
  pose proof (costs_insert_new key (new (env_late env) value) (blen value) Hk (Z.le_refl _)).
  cost.
Qed.

Lemma gcosts_insert_keep_ttl env key value ttl n :
  validate_key key = Ok tt → blen value ≤ n →
  gcosts (write_cost key n) (insert_keep_ttl env key value ttl).
Proof.
  intros Hk Hn. pose proof (write_cost_nonneg key n) as Hc.
  assert (Hc' : 0 ≤ write_cost key n) by (apply Hc; unfold blen in Hn; lia).
  pose proof (costs_insert_new key (new_with (env_late env) value ttl) n Hk Hn).
  unfold insert_keep_ttl. cost.
Qed.

Definition mset_cost (pairs : list (bytes * bytes)) : Z :=
  foldr (λ p acc, write_cost p.1 (blen p.2) + acc) 0 pairs.

Lemma mset_cost_nonneg pairs : 0 ≤ mset_cost pairs.
Proof.
  induction pairs as [|p l IH]; simpl; [done|].
  pose proof (write_cost_nonneg p.1 (blen p.2) (blen_nonneg _)). lia.
Qed.

Lemma for_each_validated {S} (π : S → Engine) c pairs (m : SE S FerrumError ()) :
  0 ≤ c →
  (Forall (λ p, validate_key p.1 = Ok tt) pairs → spends π c m) →
  spends π c (for_each pairs (λ p : bytes * bytes,
    lift_result (validate_key p.1);; lift_result (validate_value p.2));; m).
Proof.
  intros Hc. revert m. induction pairs as [|[k v] pairs IH]; intros m Hm.
  - intros r Hr s Hs. by apply (Hm (Forall_nil_2 _) r Hr s).
  - destruct (validate_key k) as [[]|err] eqn:Ek;
      [|apply spends_same; [done|]; intros s; unfold mbind, se_bind; simpl;
        unfold mbind, se_bind, lift_result; by rewrite Ek].
    destruct (validate_value v) as [[]|err] eqn:Ev;
      [|apply spends_same; [done|]; intros s; unfold mbind, se_bind; simpl;
        unfold mbind, se_bind, lift_result; by rewrite Ek, Ev].
    intros r Hr s Hs. opose proof (IH m _ r Hr s Hs) as IHs; [intros HF; apply Hm; by constructor|].
    clear IH. rename IHs into IH.
    revert IH. unfold mbind, se_bind. simpl. unfold mbind, se_bind, lift_result.
    by rewrite Ek, Ev.
Qed.

Lemma gcosts_insert_many env pairs : gcosts (mset_cost pairs) (insert_many env pairs).
Proof.
  pose proof (mset_cost_nonneg pairs) as Hc.
  apply for_each_validated; [done|]. intros Hk.
  apply spends_then; [done|apply spends_for_each_0; intros ?; cost|intros _].
  apply spends_then; [done|cost|intros _]. clear Hc.
  induction Hk as [|[k v] l Hkv Hl IH]; simpl; [by apply spends_ret|].
  pose proof (write_cost_nonneg k (blen v) (blen_nonneg _)).
  pose proof (mset_cost_nonneg l).
  pose proof (costs_insert_new k (new (env_late env) v) (blen v) Hkv (Z.le_refl _)).
  apply spends_bind; [done|done|cost|]. intros _. exact IH.
Qed.

(** ** The commands *)

Ltac guard_cost := apply costs_with_guard; cost.

Lemma costs_mget_read env i keys : costs 0 (mget_read env i keys).
Proof. revert i. induction keys as [|k keys IH]; intros i; simpl; cost. Qed.
#[local] Hint Resolve costs_mget_read : cost.

Lemma costs_mget env keys : costs 0 (mget env keys).
Proof.
  unfold mget. apply spends_then; [done|cost|]. intros [out expired].
  apply spends_then; [done| |intros _; cost].
  destruct expired; [cost|]. guard_cost.
Qed.

Lemma costs_get env key : costs 0 (get env key).
Proof.
  assert (costs 0 (with_guard env (fetch_live env key))) by guard_cost.
  unfold get. cost.
Qed.

Lemma costs_del_many env keys : costs 0 (del_many env keys).
Proof. unfold del_many. destruct keys; [cost|]. guard_cost. Qed.

Lemma costs_exists_read env i keys : costs 0 (exists_read env i keys).
Proof. revert i. induction keys as [|k keys IH]; intros i; simpl; cost. Qed.
#[local] Hint Resolve costs_exists_read : cost.

Lemma gcosts_exists_recheck keys l : gcosts 0 (exists_recheck keys l).
Proof. induction l as [|i l IH]; simpl; cost. Qed.
#[local] Hint Resolve gcosts_exists_recheck : cost.

Lemma costs_exists_many env keys : costs 0 (exists_many env keys).
Proof.
  unfold exists_many. destruct keys as [|k keys]; [cost|].
  apply spends_then; [done|cost|]. intros [n expired].
  apply spends_then; [done| |intros m; cost]. simpl. destruct expired; [cost|]. guard_cost.
Qed.

Lemma costs_strlen env key : costs 0 (strlen env key).
Proof.
  assert (costs 0 (with_guard env (strlen_of key))) by guard_cost. unfold strlen. cost.
Qed.
Lemma costs_ttl_ms env key : costs 0 (ttl_ms env key).
Proof.
  assert (costs 0 (with_guard env (ttl_of key))) by guard_cost. unfold ttl_ms. cost.
Qed.
Lemma costs_memory_usage env key : costs 0 (memory_usage env key).
Proof.
  assert (costs 0 (with_guard env (memory_of key))) by guard_cost. unfold memory_usage. cost.
Qed.

Lemma costs_incr_by env key delta : costs (write_cost key 65) (incr_by env key delta).
Proof.
  pose proof (write_cost_nonneg key 65) as Hc.
  apply spends_guarded; [lia|]. intros Hk. apply costs_with_guard.
  apply spends_then; [lia|cost|]. intros st. apply spends_then; [lia|cost|]. intros [n ttl].
  destruct (checked_i64 _) as [z|] eqn:Ez; [|apply spends_throw; lia].
  apply spends_first; [lia| |intros; cost]. apply gcosts_insert_keep_ttl; [done|].
  apply to_string_i_length. unfold checked_i64 in Ez. destruct (in_i64 _) eqn:Ei; [|done].
  simpl in Ez. by simplify_eq.
Qed.

Lemma costs_incr_by_float env key delta :
  wf64 delta → costs (write_cost key F64_TEXT_MAX) (incr_by_float env key delta).
Proof.
  intros Hdelta. pose proof (write_cost_nonneg key F64_TEXT_MAX) as Hc.
  assert (0 ≤ F64_TEXT_MAX) by done. apply spends_guarded; [lia|]. intros Hk. apply costs_with_guard.
  apply spends_then; [lia|cost|]. intros st.
  assert (Hadd : ∀ n ttl, wf64 n → gcosts (write_cost key F64_TEXT_MAX)
    (let new_value := F64.add n delta in
     if negb (F64.is_finite new_value)
     then throw (ParseError (str "increment would produce NaN or Infinity"))
     else insert_keep_ttl env key (F64.to_string new_value) ttl;; mret new_value)).
  { intros n ttl Hn. cbv zeta. destruct (negb _); [apply spends_throw; lia|].
    apply spends_first; [lia| |intros; cost]. apply gcosts_insert_keep_ttl; [done|].
    by apply f64_text_bound, wf64_add. }
  destruct st as [[d ttl]|]; [|by apply (Hadd F64.zero None)].
  destruct (negb (utf8_valid d)); [by apply spends_same; [lia|]|].
  destruct (F64.parse d) as [n|] eqn:Ep; [|by apply spends_same; [lia|]].
  apply (Hadd n ttl). by eapply wf64_parse.
Qed.

Lemma costs_append env key suffix :
  costs (write_cost key VALUE_MAX_BYTES) (append env key suffix).
Proof.
  pose proof (write_cost_nonneg key VALUE_MAX_BYTES) as Hc.
  assert (0 ≤ VALUE_MAX_BYTES) by done.
  apply spends_guarded; [lia|]. intros Hk. apply costs_with_guard.
  apply spends_then; [lia|cost|]. intros st.
  destruct (match st with Some (d, ttl) => (d ++ suffix, ttl) | None => (suffix, None) end) as [v ttl].
  apply spends_guarded; [lia|]. intros Hv.
  apply spends_first; [lia| |intros; cost]. apply gcosts_insert_keep_ttl; [done|].
  unfold validate_value in Hv. destruct (VALUE_MAX_BYTES <? blen v) eqn:E; [done|].
  by apply Z.ltb_ge in E.
Qed.

Lemma costs_on_writer {A} (m : SE AofWriter FerrumError A) d : costs 0 (on_writer m d).
Proof.
  intros r Hr e Hwf. rewrite Z.add_0_r in Hwf. unfold on_writer.
  destruct (e_aof e) as [w|]; [|done]. destruct (m w) as [x w']. destruct Hwf. by split.
Qed.
#[local] Hint Resolve costs_on_writer : cost.

Lemma costs_rewrite_aof err : costs 0 (rewrite_aof err).
Proof. unfold rewrite_aof. cost. Qed.

Lemma costs_perform_aof_rewrite c err : costs 0 (perform_aof_rewrite c err).
Proof. unfold perform_aof_rewrite, rewrite_capture, rewrite_install. cost. Qed.

(** The bytes an operation may add. *)
Definition op_cost (op : Op) : Z :=
  match op with
  | OSet k v | OSetNx k v => write_cost k (blen v)
  | OMSet ps => mset_cost ps
  | OIncrBy k _ => write_cost k 65
  | OIncrByFloat k _ => write_cost k F64_TEXT_MAX
  | OAppend k _ => write_cost k VALUE_MAX_BYTES
  | _ => 0
  end.

(** A floating-point argument is an [f64]. *)
Definition op_typed (op : Op) : Prop :=
  match op with OIncrByFloat _ x => wf64 x | _ => True end.

Lemma op_cost_nonneg op : 0 ≤ op_cost op.
Proof.
  destruct op; simpl; try done; try apply mset_cost_nonneg; apply write_cost_nonneg;
    try apply blen_nonneg; done.
Qed.

Lemma costs_run_op env op : op_typed op → costs (op_cost op) (run_op env op).
Proof.
  intros Hb. pose proof (op_cost_nonneg op) as Hc.
  assert (Hd : ∀ {A} c (m : M A), 0 ≤ c → costs c m → costs c (discard m)).
  { intros A c m H1 H2. apply spends_first; [done|done|]. intros a. by apply spends_ret. }
  destruct op; simpl in *; try done; try (apply Hd; [done|]).
  - apply costs_with_guard, gcosts_guard_insert.
  - apply costs_with_guard, gcosts_insert_nx.
  - apply costs_with_guard, gcosts_insert_many.
  - apply costs_mget.
  - apply costs_incr_by.
  - by apply costs_incr_by_float.
  - apply costs_get.
  - apply costs_del_many.
  - apply costs_exists_many.
  - by apply spends_gets.
  - by apply spends_gets.
  - by apply spends_gets.
  - apply costs_append.
  - apply costs_strlen.
  - guard_cost.
  - guard_cost.
  - guard_cost.
  - apply costs_ttl_ms.
  - apply costs_memory_usage.
  - apply costs_sweep_expired.
  - apply costs_set_eviction_config.
  - apply costs_rewrite_aof.
  - apply costs_perform_aof_rewrite.
Qed.

Definition history_cost (h : list (Env * Op)) : Z := foldr (λ p acc, op_cost p.2 + acc) 0 h.

Lemma history_cost_nonneg h : 0 ≤ history_cost h.
Proof.
  induction h as [|[env op] h IH]; simpl; [done|]. pose proof (op_cost_nonneg op). lia.
Qed.

Lemma run_ops_wf h r e :
  Forall (λ p, op_typed p.2) h → 0 ≤ r →
  engine_wf (r + history_cost h) e → engine_wf r (run_ops h e).
Proof.
  intros Hb Hr. revert e. induction Hb as [|[env op] h Hop Hh IH]; intros e Hwf; simpl in *.
  - by rewrite Z.add_0_r in Hwf.
  - apply IH. apply (costs_run_op env op Hop).
    + pose proof (history_cost_nonneg h). lia.
    + eapply engine_wf_less; [|done]. lia.
Qed.

Lemma engine_new_wf c r : 0 ≤ r < i63 → engine_wf r (engine_new c).
Proof.
  intros Hr. split; simpl.
  - by rewrite total_empty.
  - rewrite total_empty. lia.
  - apply sieve_wf_new.
  - apply ac_wf_new.
  - apply ahe_inv_default.
  - apply rng_seed_range.
  - apply map_Forall_empty.
  - apply ac_wf_new.
  - done.
  - done.
  - done.
Qed.

End inv.

(** C6: the memory counter is exact. After any history of calls on a fresh
    engine (reads, writes, failed calls, expirations, evictions, sweeps, policy
    switches, rewrites), [used_memory] is the sum over the stored entries of key
    length, value length and the per-entry overhead, provided less than 2^63
    bytes are ever written, so the 64-bit counter cannot wrap (an increment
    counts for the longest text of its result). *)
Theorem used_memory_exact `{IndexMap} `{HashIter} c (h : list (Env * Op)) :
  Forall (λ p, op_typed p.2) h → history_cost h < i63 →
  e_used_memory (run_ops h (engine_new c)) = total (e_store (run_ops h (engine_new c))).
Proof.
  intros Hb Hc. pose proof (history_cost_nonneg h).
  by apply (run_ops_wf h 0), engine_new_wf.
Qed.

Definition clock_at (ms : Z) : Clock :=
  {| inst := ms * 1000000; unix_ns := (1700000000000 + ms) * 1000000 |}.
Definition env_at (ms : Z) : Env :=
  {| env_read := clock_at ms; env_guard := clock_at ms; env_late := clock_at ms |}.

Definition history_example : list (Env * Op) :=
  [ (env_at 1, OSetEvictionConfig {| max_memory := 300; policy := AllKeysSieve; samples := 5 |});
    (env_at 2, OSet (str "a") (str "1"));
    (env_at 3, OIncrBy (str "a") 41);
    (env_at 4, OExpireAt (str "a") 1700000000100);
    (env_at 5, OSet (str "b") (str "hello"));
    (env_at 6, OSet (str "c") (str "world"));
    (env_at 7, OGet (str "a"));
    (env_at 8, ODel [str "b"; str "zz"]) ].

Lemma used_memory_exact_witness :
  e_used_memory (run_ops history_example (engine_new (clock_at 0)))
  = total (e_store (run_ops history_example (engine_new (clock_at 0)))).
Proof.
  apply (used_memory_exact (clock_at 0) history_example);
    [repeat constructor|vm_compute; reflexivity].
Defined.
