(* ===== verification/MemoryLimit.v ===== *)
(** * What enforcing [maxmemory] does

    Which keys an enforcement may evict, when it fails, that its bounded loop
    is long enough, and the bound a successful write leaves. *)
From S2P Require Import Prelude Numeric Error Floats IndexMap Eviction Entry Sieve AdaptiveClimb Aof Engine WriteGuard Commands EngineInv.
From Stdlib Require Import ZArith Lia.
From stdpp Require Import gmap strings numbers list.
Local Open Scope Z_scope.

Section limit.
Context `{IndexMap} `{HashIter}.

Abbreviation M := (SE Engine FerrumError).

(** ** Frames *)

Lemma track_insert_frame key entry e :
  (track_insert key entry e).1 = Ok (e_store e !! key) ∧
  e_store (track_insert key entry e).2 = <[key := entry]> (e_store e) ∧
  e_eviction (track_insert key entry e).2 = e_eviction e.
Proof.
  unfold track_insert. simpl. split; [done|].
  match goal with |- context [ac_notify_insert key ?t (sieve_notify_insert key ?t ?e1)] =>
    destruct (notify_frame key t e1) as (H1 & H2 & _) end.
  rewrite H1, H2. destruct (apply_delta_frame (as_i64 (entry_bytes key entry)
    - as_i64 match e_store e !! key with Some p => entry_bytes key p | None => 0 end)
    (set_store (<[key:=entry]> (e_store e)) e)) as (-> & _).
  split; [done|]. unfold apply_delta. by repeat case_match.
Qed.

(** ** The victims *)

Lemma choose_victim_spec env cfg e :
  ∃ v, (choose_victim env cfg e).1 = Ok v ∧
    e_store (choose_victim env cfg e).2 = e_store e ∧
    e_used_memory (choose_victim env cfg e).2 = e_used_memory e ∧
    e_eviction (choose_victim env cfg e).2 = e_eviction e ∧
    ∀ k, v = Some k → ∃ entry, e_store e !! k = Some entry ∧
      in_scope (policy_scope (policy cfg)) entry = true.
Proof.
  assert (Hsample : ∀ (pick : list Candidate → option Candidate),
    (∀ cs c, pick cs = Some c → c ∈ cs) →
    ∀ k, c_key <$> pick (sample_candidates (e_store e) (policy_scope (policy cfg)) (samples cfg)) = Some k →
    ∃ entry, e_store e !! k = Some entry ∧ in_scope (policy_scope (policy cfg)) entry = true).
  { intros pick Hp k Hk. apply fmap_Some in Hk as (c & Hc & ->). apply Hp in Hc.
    apply sample_candidates_elem in Hc as (entry & H1 & H2 & _). eauto. }
  assert (Helem : ∀ p now cs c, pick_victim p now cs = Some c → c ∈ cs).
  { intros p now cs c Hc. apply pick_victim_elem in Hc. done. }
  assert (Helig : ∀ scope k, eligible (e_store e) scope k = true →
    ∃ entry, e_store e !! k = Some entry ∧ in_scope scope entry = true).
  { intros scope k. unfold eligible. destruct (e_store e !! k); [eauto|done]. }
  assert (Hsv : ∀ scope t, let r := sieve_evict_one (e_store e) scope t (inst (env_late env)) (e_sieve e) in
    ∀ k, r.1 = Some k → ∃ entry, e_store e !! k = Some entry ∧ in_scope scope entry = true).
  { intros scope t r k Hk. apply Helig. by eapply sieve_evict_one_eligible. }
  assert (Hac : ∀ scope, let r := ac_evict_one (e_store e) scope (e_ac e) in
    ∀ k, r.1 = Some k → ∃ entry, e_store e !! k = Some entry ∧ in_scope scope entry = true).
  { intros scope r k Hk. apply Helig. by eapply ac_evict_one_eligible. }
  unfold choose_victim, evict_sieve, evict_ac, gets.
  destruct (policy cfg) eqn:Ep; simpl;
    try (eexists; split; [reflexivity|]; do 3 (split; [reflexivity|]);
         first [ apply (Hsample (pick_victim_ahe _ _)), pick_victim_ahe_elem
               | apply (Hsample (pick_victim _ _)), Helem ]).
  all: match goal with
       | |- context [sieve_evict_one ?s ?sc ?t ?n ?q] =>
           specialize (Hsv sc t); destruct (sieve_evict_one s sc t n q) as [v q']; simpl in *
       | |- context [ac_evict_one ?s ?sc ?q] =>
           specialize (Hac sc); destruct (ac_evict_one s sc q) as [v q']; simpl in *
       end; eexists; split; [reflexivity|]; done.
Qed.

Lemma choose_victim_aof env cfg e : e_aof (choose_victim env cfg e).2 = e_aof e.
Proof.
  unfold choose_victim, evict_sieve, evict_ac, gets. destruct (policy cfg); simpl; try done;
    first [by destruct (sieve_evict_one _ _ _ _ _)|by destruct (ac_evict_one _ _ _)].
Qed.

(** What a loop may remove. *)
Lemma evict_loop_spares rounds env cfg incoming n e :
  let e' := (evict_loop rounds env cfg incoming n e).2 in
  e_eviction e' = e_eviction e ∧ e_store e' ⊆ e_store e ∧
  ∀ k entry, e_store e !! k = Some entry →
    in_scope (policy_scope (policy cfg)) entry = false → e_store e' !! k = Some entry.
Proof.
  revert n e. induction rounds as [|rounds IH]; intros n e; [done|].
  rewrite evict_loop_S. destruct (fits _ _ _); [done|]. destruct (bool_decide _); [done|].
  destruct (choose_victim_spec env cfg e) as (v & H1 & H2 & H3 & H4 & Hv).
  destruct (choose_victim env cfg e) as [x e1]. simpl in *. subst x.
  destruct v as [k|]; [|simpl; by rewrite H2, H4].
  destruct (evict_round_frame k e1) as (R1 & R3 & R4).
  destruct (evict_round k e1) as [x e2]. simpl in *. subst x.
  destruct (IH (n + 1) e2) as (I2 & I3 & I4).
  rewrite R3, H2 in I3, I4. split; [congruence|].
  split; [etrans; [done|apply delete_subseteq]|].
  intros k' entry Hk' Hsc. apply I4; [|done]. rewrite lookup_delete_ne; [done|].
  intros <-. destruct (Hv k eq_refl) as (entry' & He' & Hsc'). congruence.
Qed.

(** ** The bounded loop is long enough *)

Definition samples_all (p : EvictionPolicy) : bool :=
  match p with AllKeysLru | AllKeysLfu | AllKeysRandom | AllKeysAhe => true | _ => false end.

Lemma choose_victim_some env cfg e :
  samples_all (policy cfg) = true → 0 < samples cfg → e_store e ≠ ∅ →
  ∃ k, (choose_victim env cfg e).1 = Ok (Some k).
Proof.
  intros Hp Hs Hne. apply map_choose in Hne as (k & entry & Hk).
  assert (Hc : ∀ sc, sc = AllKeys → sample_candidates (e_store e) sc (samples cfg) ≠ [])
    by (intros sc ->; by eapply sample_candidates_nonempty).
  unfold choose_victim, gets. destruct (policy cfg) eqn:Ep; try done; simpl;
    specialize (Hc AllKeys eq_refl);
    destruct (sample_candidates (e_store e) AllKeys (samples cfg)) as [|c cs]; try done;
    by eexists.
Qed.

Lemma evict_loop_succeeds rounds env cfg incoming n e r :
  engine_wf r e → 0 ≤ r → e_eviction e = cfg →
  samples_all (policy cfg) = true → 0 < samples cfg → 0 ≤ incoming ≤ max_memory cfg → max_memory cfg ≤ u64_max →
  (size (e_store e) < rounds)%nat →
  ∃ n', (evict_loop rounds env cfg incoming n e).1 = Ok n' ∧
    fits cfg incoming (e_used_memory (evict_loop rounds env cfg incoming n e).2) = true.
Proof.
  intros Hwf Hr Hcfg Hp Hs Hin Hmax. revert n e Hwf Hcfg.
  induction rounds as [|rounds IH]; intros n e Hwf Hcfg Hsz; [lia|].
  rewrite evict_loop_S. destruct (fits cfg incoming (e_used_memory e)) eqn:Ef; [by eexists|].
  rewrite bool_decide_false by (by intros E; rewrite E in Hp).
  assert (Hne : e_store e ≠ ∅).
  { intros E. pose proof (wf_used _ _ Hwf) as Hu. rewrite E, total_empty in Hu.
    unfold fits, sat_add_u64 in Ef. rewrite Hu in Ef. bool_to_prop. lia. }
  destruct (choose_victim_some env cfg e Hp Hs Hne) as (k & Hk).
  destruct (choose_victim_spec env cfg e) as (v & H1 & H2 & H3 & H4 & Hv).
  pose proof (choose_victim_wf env e r Hwf Hr) as Hwf1. rewrite Hcfg in Hwf1.
  destruct (choose_victim env cfg e) as [x e1]. destruct Hwf1 as [_ Hwf1]. simpl in *. simplify_eq.
  destruct (evict_round_frame k e1) as (R1 & R3 & R4). pose proof (evict_round_wf k e1 r Hwf1 Hr) as R2.
  destruct (evict_round k e1) as [x e2]. simpl in *. subst x.
  apply IH; [done|congruence|]. rewrite R3, H2. destruct (Hv k eq_refl) as (entry & He & _).
  rewrite (map_size_delete_Some _ _ (ex_intro _ entry He)).
  assert (size (e_store e) ≠ 0%nat) by (intros E; apply map_size_empty_inv in E; done). lia.
Qed.

(** ** The whole enforcement *)

Lemma enforce_memory_limit_spares env incoming e :
  let e' := (enforce_memory_limit env incoming e).2 in
  e_store e' ⊆ e_store e ∧
  ∀ k entry, e_store e !! k = Some entry →
    in_scope (policy_scope (policy (e_eviction e))) entry = false → e_store e' !! k = Some entry.
Proof.
  rewrite enforce_memory_limit_eq. cbv zeta.
  destruct (max_memory (e_eviction e) =? 0); [done|].
  destruct (evict_loop_spares (Nat.max (size (e_store e)) 1 + 16) env (e_eviction e) incoming 0 e)
    as (_ & H3 & H4).
  destruct (evict_loop _ _ _ _ _ _) as [[n|x] e1]; [|done]. simpl in *.
  by destruct ((0 <? n) && is_ahe (policy (e_eviction e))).
Qed.

Lemma enforce_memory_limit_fits env incoming e :
  max_memory (e_eviction e) ≠ 0 →
  (enforce_memory_limit env incoming e).1 = Ok tt →
  fits (e_eviction e) incoming (e_used_memory (enforce_memory_limit env incoming e).2) = true.
Proof.
  intros Hm. rewrite enforce_memory_limit_eq. cbv zeta.
  destruct (max_memory (e_eviction e) =? 0) eqn:E; [bool_to_prop; lia|].
  destruct (evict_loop _ _ _ _ _ _) as [[n|x] e1]; [|done]. simpl.
  by destruct (fits _ _ _) eqn:Ef.
Qed.

(** ** The write path *)

Lemma log_frame m g :
  (log m g).1 = Ok tt ∧ e_store (g_engine (log m g).2) = e_store (g_engine g) ∧
  e_used_memory (g_engine (log m g).2) = e_used_memory (g_engine g) ∧
  e_eviction (g_engine (log m g).2) = e_eviction (g_engine g) ∧
  g_now (log m g).2 = g_now g ∧ g_now_ms (log m g).2 = g_now_ms g.
Proof.
  unfold log, mbind, se_bind, gets, on_engine, modify. cbn beta iota.
  destruct (e_aof (g_engine g)) as [w|] eqn:Ea; [|done]. simpl.
  destruct (note_aof_frame m (g_engine g)) as (H1 & H2 & H3 & H4).
  by destruct (note_aof m (g_engine g)) as [x e'].
Qed.

Lemma guard_drop_frame g :
  e_store (guard_drop g) = e_store (g_engine g) ∧
  e_used_memory (guard_drop g) = e_used_memory (g_engine g) ∧
  e_eviction (guard_drop g) = e_eviction (g_engine g).
Proof.
  unfold guard_drop. destruct (g_wrote_aof g); [|done].
  destruct (note_aof_frame sync_if_needed (g_engine g)) as (_ & H2 & H3 & H4). done.
Qed.

(** [SET] with valid arguments is its enforcement, then the insertion. *)
Lemma set_spec env key value e :
  validate_key key = Ok tt → validate_value value = Ok tt →
  match enforce_for_write env key (blen value) e with
  | (Ok _, e1) =>
      ∃ prev, (set env key value e).1 = Ok prev ∧
        e_store (set env key value e).2 = <[key := new (env_late env) value]> (e_store e1)
  | (Err x, e1) => set env key value e = (Err x, e1)
  end.
Proof.
  intros Hk Hv. unfold set, with_guard.
  assert (Hb : guard_insert env key value (guard_begin env e)
    = (on_engine (enforce_for_write env key (blen value));;
       log (append_set key value);;
       prev ← on_engine (track_insert key (new (env_late env) value));
       mret (prev ≫= live_payload (inst (env_late env)))) (guard_begin env e)).
  { unfold guard_insert, mbind, se_bind, lift_result. by rewrite Hk, Hv. }
  rewrite Hb. clear Hb. unfold mbind, se_bind, on_engine at 1 3 5. cbn [g_engine guard_begin].
  destruct (enforce_for_write env key (blen value) e) as [[[]|x] e1]; [|done].
  set (g1 := set_engine e1 (guard_begin env e)).
  destruct (log_frame (append_set key value) g1) as (L1 & L2 & _).
  destruct (log (append_set key value) g1) as [x g2]. cbn [fst snd] in L1, L2. subst x.
  unfold on_engine.
  destruct (track_insert_frame key (new (env_late env) value) (g_engine g2)) as (T1 & T2 & _).
  destruct (track_insert key (new (env_late env) value) (g_engine g2)) as [x e3].
  cbn [fst snd] in T1, T2. subst x.
  eexists. split; [done|]. unfold mret, se_ret. cbn [snd].
  destruct (guard_drop_frame (set_engine e3 g2)) as (-> & _).
  cbn [g_engine set_engine]. by rewrite T2, L2.
Qed.

Lemma set_invalid env key value e x :
  (validate_key key = Err x ∨ (validate_key key = Ok tt ∧ validate_value value = Err x)) →
  set env key value e = (Err x, e).
Proof.
  intros [Hk|[Hk Hv]]; unfold set, with_guard, guard_insert, mbind, se_bind, lift_result;
    rewrite Hk; [done|]. by rewrite Hv.
Qed.

Lemma enforce_for_write_eq env key n e :
  enforce_for_write env key n e =
  enforce_memory_limit env
    (sat_sub (write_cost key n)
       (match e_store e !! key with Some p => entry_bytes key p | None => 0 end)) e.
Proof. done. Qed.

End limit.

Lemma validate_cases key value :
  (∃ x, validate_key key = Err x ∨ (validate_key key = Ok tt ∧ validate_value value = Err x)) ∨
  (validate_key key = Ok tt ∧ validate_value value = Ok tt).
Proof.
  destruct (validate_key key) as [[]|x]; [|left; eauto].
  destruct (validate_value value) as [[]|x]; [|left; eauto]. by right.
Qed.

(** C35: a volatile policy never takes a key without a TTL: whatever a [SET]
    has to evict, and whether or not it succeeds in the end, every other key
    that has no expiration is still there with its value. *)
Theorem volatile_set_spares_persistent `{IndexMap} `{HashIter} env key value e k entry :
  policy_scope (policy (e_eviction e)) = Volatile →
  e_store e !! k = Some entry → expire_at entry = None → k ≠ key →
  e_store (set env key value e).2 !! k = Some entry.
Proof.
  intros Hp Hk Hexp Hne.
  destruct (validate_cases key value) as [[x Hx]|[Hvk Hvv]];
    [by rewrite (set_invalid _ _ _ _ _ Hx)|].
  pose proof (set_spec env key value e Hvk Hvv) as Hset. rewrite enforce_for_write_eq in Hset.
  destruct (enforce_memory_limit_spares env (sat_sub (write_cost key (blen value))
    (match e_store e !! key with Some p => entry_bytes key p | None => 0 end)) e) as [_ Hsp].
  specialize (Hsp k entry Hk). rewrite Hp in Hsp. simpl in Hsp.
  unfold has_ttl in Hsp. rewrite Hexp in Hsp. specialize (Hsp eq_refl).
  destruct (enforce_memory_limit _ _ _) as [[[]|x] e1]; simpl in *.
  - destruct Hset as (prev & _ & ->). by rewrite lookup_insert_ne.
  - by rewrite Hset.
Qed.

Definition volatile_example : Engine :=
  run_ops
    [ (env_at 1, OSetEvictionConfig {| max_memory := 440; policy := VolatileLru; samples := 5 |});
      (env_at 2, OSet (str "p") (str "1"));
      (env_at 3, OSet (str "v") (str "1"));
      (env_at 4, OExpireAt (str "v") 1700000060000) ] (engine_new (clock_at 0)).

Lemma volatile_set_spares_persistent_witness :
  (∃ entry, e_store (set (env_at 5) (str "w") (str "0123456789") volatile_example).2
              !! str "p" = Some entry) ∧
  e_store (set (env_at 5) (str "w") (str "0123456789") volatile_example).2 !! str "v" = None.
Proof.
  split; [|vm_compute; reflexivity].
  destruct (e_store volatile_example !! str "p") as [entry|] eqn:E;
    [|vm_compute in E; discriminate].
  exists entry.
  apply (volatile_set_spares_persistent (env_at 5) (str "w") (str "0123456789")
    volatile_example (str "p") entry).
  - vm_compute. reflexivity.
  - exact E.
  - vm_compute in E. by injection E as <-.
  - vm_compute. discriminate.
Defined.

(** C36: under [noeviction] a [SET] that does not fit is refused and leaves no
    trace: the reply is the out-of-memory error, and the engine is exactly the
    one before the call. *)
Theorem noeviction_refuses `{IndexMap} `{HashIter} env key value e :
  policy (e_eviction e) = NoEviction → max_memory (e_eviction e) ≠ 0 →
  validate_key key = Ok tt → validate_value value = Ok tt →
  fits (e_eviction e)
    (sat_sub (write_cost key (blen value))
       (match e_store e !! key with Some p => entry_bytes key p | None => 0 end))
    (e_used_memory e) = false →
  set env key value e = (Err OutOfMemory, e).
Proof.
  intros Hp Hm Hk Hv Hf. pose proof (set_spec env key value e Hk Hv) as Hset.
  rewrite enforce_for_write_eq, enforce_memory_limit_eq in Hset. cbv zeta in Hset.
  destruct (max_memory (e_eviction e) =? 0) eqn:E; [bool_to_prop; lia|].
  replace (Nat.max (size (e_store e)) 1 + 16)%nat
    with (S (Nat.max (size (e_store e)) 1 + 15)) in Hset by lia.
  rewrite evict_loop_S, Hf, Hp, bool_decide_true in Hset by done. exact Hset.
Qed.

Lemma noeviction_refuses_witness :
  let e := run_ops [ (env_at 1, OSetEvictionConfig
             {| max_memory := 100; policy := NoEviction; samples := 5 |}) ] (engine_new (clock_at 0)) in
  set (env_at 2) (str "k") (str "v") e = (Err OutOfMemory, e).
Proof.
  intros e. apply (noeviction_refuses (env_at 2) (str "k") (str "v") e);
    vm_compute; try reflexivity. discriminate.
Defined.


Definition lru_example : Engine :=
  run_ops
    [ (env_at 1, OSetEvictionConfig {| max_memory := 340; policy := AllKeysLru; samples := 5 |});
      (env_at 2, OSet (str "a") (str "0123456789012345678901234567890123456789"));
      (env_at 3, OSet (str "b") (str "1")) ] (engine_new (clock_at 0)).

Lemma lru_example_wf : engine_wf 1000 lru_example.
Proof.
  apply run_ops_wf; [repeat constructor|done|]. apply engine_new_wf. vm_compute.
  split; [discriminate|reflexivity].
Qed.


(** [maxmemory-samples 0] is accepted, draws no candidate, and so refuses every
    write over the limit, although dropping [a] alone would make room for it. *)
Example zero_samples_refuses :
  let e := (set_eviction_config {| max_memory := 340; policy := AllKeysLru; samples := 0 |} lru_example).2 in
  (set (env_at 4) (str "c") (str "1") e).1 = Err OutOfMemory.
Proof. vm_compute. reflexivity. Qed.

(** C34: the ceiling holds for new keys: when [maxmemory] is set and a [SET] of
    a key that was not stored succeeds, the memory counter ends at or below
    [maxmemory]. *)
Theorem set_fresh_within_limit `{IndexMap} `{HashIter} env key value e prev :
  engine_wf (write_cost key (blen value)) e →
  max_memory (e_eviction e) ≠ 0 → max_memory (e_eviction e) < u64_max →
  e_store e !! key = None →
  (set env key value e).1 = Ok prev →
  e_used_memory (set env key value e).2 ≤ max_memory (e_eviction e).
Proof.
  intros Hwf Hm Hmax Hfresh Hok.
  pose proof (write_cost_nonneg key (blen value) (blen_nonneg _)) as Hc.
  destruct (validate_cases key value) as [[x Hx]|[Hvk Hvv]];
    [by rewrite (set_invalid _ _ _ _ _ Hx) in Hok|].
  assert (Hwf' : engine_wf 0 (set env key value e).2)
    by (by apply (costs_with_guard env _ _ (gcosts_guard_insert env key value) 0)).
  rewrite (wf_used _ _ Hwf').
  pose proof (set_spec env key value e Hvk Hvv) as Hset.
  rewrite enforce_for_write_eq, Hfresh in Hset.
  set (net := sat_sub (write_cost key (blen value)) 0) in *.
  pose proof (enforce_memory_limit_fits env net e Hm) as Hfits.
  destruct (enforce_memory_limit_spares env net e) as [Hsub _].
  pose proof (costs_enforce_memory_limit env net _ Hc e) as Hwf1. rewrite Z.add_0_r in Hwf1.
  specialize (Hwf1 Hwf).
  destruct (enforce_memory_limit env net e) as [[[]|x] e1]; simpl in *;
    [|by rewrite Hset in Hok].
  destruct Hset as (p & _ & ->). specialize (Hfits eq_refl).
  rewrite total_insert_fresh by (by eapply lookup_weaken_None).
  rewrite (wf_used _ _ Hwf1) in Hfits.
  unfold fits, net, sat_sub, sat_add_u64, write_cost in Hfits.
  unfold entry_bytes. simpl. bool_to_prop. unfold write_cost in Hc. lia.
Qed.

Lemma set_fresh_within_limit_witness :
  e_used_memory (set (env_at 4) (str "c") (str "1") lru_example).2 ≤ 340.
Proof.
  apply (set_fresh_within_limit (env_at 4) (str "c") (str "1") lru_example None).
  - eapply engine_wf_less; [|exact lru_example_wf]. vm_compute. discriminate.
  - vm_compute. discriminate.
  - vm_compute. reflexivity.
  - vm_compute. reflexivity.
  - vm_compute. reflexivity.
Defined.

(** Overwriting is not covered: the net growth is computed against the old
    entry, and when the eviction takes that very entry the write overshoots.
    Here [maxmemory] is 340 and the successful [SET] ends at 391 bytes. *)
Example overwrite_overshoots :
  let big := str "0123456789012345678901234567890123456789012345678901234567890123456789012345678901234567890123456789" in
  let r := set (env_at 4) (str "a") big lru_example in
  r.1 = Ok None ∧ e_used_memory r.2 = 391.
Proof. vm_compute. split; reflexivity. Qed.
