(* ===== verification/Replay.v ===== *)
(** * Replay of the append-only file (src/src/persistence/replay.rs)

    The record reader over the log file, resynchronisation after a malformed
    record, the application of a record to the engine, and the replay loop with
    its truncation of a torn tail. The log lines the code emits, and with them
    the texts of decode errors, are not modelled. A buffer that the allocator
    does not grant aborts the process, and the replay with it. *)
From S2P Require Import Prelude Numeric Text Error Encoder IndexMap Eviction Entry Sieve AdaptiveClimb Aof Engine WriteGuard Commands EngineInv.
From Stdlib Require Import ZArith Lia Strings.Byte.
From stdpp Require Import gmap strings numbers list.
Local Open Scope Z_scope.

Record ReplayStats := { applied : Z; skipped : Z; truncated_tail : bool }.
Definition stats_default : ReplayStats := {| applied := 0; skipped := 0; truncated_tail := false |}.

(** ** The reader *)

(** [BufReader<&mut File>]: the bytes still to come, the stream position, the
    [consumed] counter threaded through one record, and the failure that ends
    the stream, if it does not end at the end of the file. *)
Record Rd := {
  rd_rest : bytes;
  rd_pos : Z;
  rd_consumed : Z;
  rd_fault : option bytes;
}.

Inductive ReadError :=
| UnexpectedEof (consumed : Z)
| Malformed (consumed : Z)
| ReadIo (msg : bytes)
| AllocFailed (len : Z).                               (* no error of the code: the process aborts *)

Inductive ApplyError :=
| Unknown (cmd : bytes)
| Arity (cmd : bytes)
| EngineFailed (e : FerrumError).

Abbreviation RD := (SE Rd ReadError).

(** Consumes [n] bytes, counting [k] of them. *)
Definition advance (n k : Z) (s : Rd) : Rd := {|
  rd_rest := drop (Z.to_nat n) (rd_rest s);
  rd_pos := rd_pos s + n;
  rd_consumed := rd_consumed s + k;
  rd_fault := rd_fault s;
|}.

(** [read_byte]; an interrupted call is retried and leaves no trace. *)
Definition read_byte : RD (option byte) := λ s,
  match rd_rest s with
  | b :: _ => (Ok (Some b), advance 1 0 s)
  | [] => match rd_fault s with
          | None => (Ok None, s)
          | Some m => (Err (ReadIo m), s)
          end
  end.

Definition count (n : Z) : RD () := modify (advance 0 n).

(** [expect_byte] *)
Definition expect_byte : RD byte :=
  o ← read_byte;
  match o with
  | Some b => count 1;; mret b
  | None => c ← gets rd_consumed; throw (UnexpectedEof c)
  end.

(** [read_exact_tracked] into a buffer of [n] bytes *)
Definition read_exact_tracked (n : Z) : RD bytes := λ s,
  if n <=? blen (rd_rest s) then (Ok (take (Z.to_nat n) (rd_rest s)), advance n n s)
  else
    let filled := blen (rd_rest s) in
    let s' := advance filled filled s in
    match rd_fault s with
    | None => (Err (UnexpectedEof (rd_consumed s')), s')
    | Some m => (Err (ReadIo m), s')
    end.

Definition malformed {A} : RD A := c ← gets rd_consumed; throw (Malformed c).

(** The loop of [read_integer], which collects the bytes before CRLF. Every
    round consumes a byte, so one round more than there are bytes left is
    enough. *)
Fixpoint number_loop (fuel : nat) (number : bytes) : RD bytes :=
  match fuel with
  | O => malformed
  | S fuel =>
      b ← expect_byte;
      if bool_decide (b = x0d) then
        lf ← expect_byte;
        if negb (bool_decide (lf = x0a)) then malformed else mret number
      else number_loop fuel (number ++ [b])
  end.

(** [read_integer] *)
Definition read_integer : RD Z := λ s,
  (number ← number_loop (S (length (rd_rest s))) [];
   if negb (utf8_valid number) then malformed
   else match parse_i64 number with
        | Some n => mret n
        | None => malformed
        end) s.

Section records.
(** Whether the allocator grants a buffer of so many bytes. *)
Context (alloc : Z → bool).

(** One iteration of the loop of [read_record]. *)
Definition read_part : RD bytes :=
  marker ← expect_byte;
  if negb (bool_decide (marker = x24)) then malformed
  else
    len ← read_integer;
    if len <? 0 then malformed
    else if negb (alloc len) then throw (AllocFailed len)
    else
      buf ← read_exact_tracked len;
      terminator_cr ← expect_byte;
      terminator_lf ← expect_byte;
      if negb (bool_decide (terminator_cr = x0d)) || negb (bool_decide (terminator_lf = x0a))
      then malformed
      else mret buf.

(** [for _ in 0..array_len]; an element takes a byte at least, so the fuel is
    as for [number_loop]. *)
Fixpoint read_array (fuel : nat) (n : Z) : RD (list bytes) :=
  if n <=? 0 then mret []
  else match fuel with
       | O => malformed
       | S fuel =>
           part ← read_part;
           parts ← read_array fuel (n - 1);
           mret (part :: parts)
       end.

(** [read_record] *)
Definition read_record : RD (option (list bytes)) :=
  modify (λ s, {| rd_rest := rd_rest s; rd_pos := rd_pos s; rd_consumed := 0;
                  rd_fault := rd_fault s |});;
  first ← read_byte;
  match first with
  | None => mret None
  | Some b =>
      count 1;;
      if negb (bool_decide (b = x2a)) then malformed
      else
        array_len ← read_integer;
        if array_len <? 0 then malformed
        else
          fuel ← gets (λ s, S (length (rd_rest s)));
          parts ← read_array fuel array_len;
          mret (Some parts)
  end.

End records.

(** Where the next [*] is. *)
Fixpoint find_star (s : bytes) : option nat :=
  match s with
  | [] => None
  | b :: s => if bool_decide (b = x2a) then Some 0%nat else S <$> find_star s
  end.

(** [resync_to_next_array]: stops just before the next [*]. *)
Definition resync_to_next_array : SE Rd FerrumError bool := λ s,
  match find_star (rd_rest s) with
  | Some n => (Ok true, advance (Z.of_nat n) 0 s)
  | None =>
      let s' := advance (blen (rd_rest s)) 0 s in
      match rd_fault s with
      | None => (Ok false, s')
      | Some m => (Err (persist_err "aof resync read failed: " m), s')
      end
  end.

(** ** Applying a record *)

Section replay.
Context `{IndexMap} `{HashIter}.

(** [cmd_name] *)
Definition cmd_name (cmd : bytes) : bytes := utf8_lossy cmd.

(** [.map(|_| ()).map_err(ApplyError::Engine)] *)
Definition engine_call {A} (m : SE Engine FerrumError A) : SE Engine ApplyError () := λ e,
  let '(r, e') := m e in
  (match r with Ok _ => Ok tt | Err x => Err (EngineFailed x) end, e').

(** [apply_record] *)
Definition apply_record (env : Env) (parts : list bytes) : SE Engine ApplyError () :=
  match parts with
  | [] => throw (Arity [])
  | cmd :: args =>
      let upper := map to_upper cmd in
      if bytes_eqb upper (str "SET") then
        match args with
        | [k; v] => engine_call (set env k v)
        | _ => throw (Arity (cmd_name cmd))
        end
      else if bytes_eqb upper (str "DEL") then
        match args with
        | [k] => engine_call (del env k)
        | _ => throw (Arity (cmd_name cmd))
        end
      else if bytes_eqb upper (str "FLUSHDB") then
        match args with
        | [] => engine_call (flushdb env)
        | _ => throw (Arity (cmd_name cmd))
        end
      else if bytes_eqb upper (str "PEXPIREAT") then
        match args with
        | [k; ts] =>
            if negb (utf8_valid ts) then throw (Arity (cmd_name cmd))
            else match parse_i64 ts with
                 | Some abs_ms => engine_call (expire_at_ms env k abs_ms)
                 | None => throw (Arity (cmd_name cmd))
                 end
        | _ => throw (Arity (cmd_name cmd))
        end
      else if bytes_eqb upper (str "PERSIST") then
        match args with
        | [k] => engine_call (persist env k)
        | _ => throw (Arity (cmd_name cmd))
        end
      else throw (Unknown (cmd_name cmd))
  end.

(** ** The replay loop *)

Record Loop := {
  lp_reader : Rd;
  lp_engine : Engine;
  lp_stats : ReplayStats;
  lp_last_good : Z;
}.

(** How one iteration ends. *)
Inductive Next := Continue | Break | Return (e : FerrumError) | Abort (len : Z).

Definition skip_one (s : ReplayStats) : ReplayStats :=
  {| applied := applied s; skipped := skipped s + 1; truncated_tail := truncated_tail s |}.
Definition apply_one (s : ReplayStats) : ReplayStats :=
  {| applied := applied s + 1; skipped := skipped s; truncated_tail := truncated_tail s |}.
Definition torn (s : ReplayStats) : ReplayStats :=
  {| applied := applied s; skipped := skipped s; truncated_tail := true |}.

(** The body of the loop of [replay_from_file]; the record that ends at
    position [p] is applied in the environment [envs p]. *)
Definition replay_step (alloc : Z → bool) (envs : Z → Env) (st : Loop) : Next * Loop :=
  let '(r, rd) := read_record alloc (lp_reader st) in
  match r with
  | Err (UnexpectedEof consumed) =>
      (Break, {| lp_reader := rd; lp_engine := lp_engine st;
                 lp_stats := if 0 <? consumed then torn (lp_stats st) else lp_stats st;
                 lp_last_good := lp_last_good st |})
  | Err (Malformed consumed) =>
      let stats := skip_one (lp_stats st) in
      let '(q, rd) := resync_to_next_array rd in
      match q with
      | Ok true =>
          (Continue, {| lp_reader := rd; lp_engine := lp_engine st; lp_stats := stats;
                        lp_last_good := lp_last_good st + consumed |})
      | Ok false =>
          (Break, {| lp_reader := rd; lp_engine := lp_engine st; lp_stats := torn stats;
                     lp_last_good := lp_last_good st |})
      | Err e =>
          (Return e, {| lp_reader := rd; lp_engine := lp_engine st; lp_stats := stats;
                        lp_last_good := lp_last_good st |})
      end
  | Err (ReadIo m) =>
      (Return (persist_err "aof read failed: " m),
       {| lp_reader := rd; lp_engine := lp_engine st; lp_stats := lp_stats st;
          lp_last_good := lp_last_good st |})
  | Err (AllocFailed len) =>
      (Abort len, {| lp_reader := rd; lp_engine := lp_engine st; lp_stats := lp_stats st;
                     lp_last_good := lp_last_good st |})
  | Ok None =>
      (Break, {| lp_reader := rd; lp_engine := lp_engine st; lp_stats := lp_stats st;
                 lp_last_good := lp_last_good st |})
  | Ok (Some parts) =>
      let '(a, e) := apply_record (envs (rd_pos rd)) parts (lp_engine st) in
      match a with
      | Ok _ =>
          (Continue, {| lp_reader := rd; lp_engine := e; lp_stats := apply_one (lp_stats st);
                        lp_last_good := rd_pos rd |})
      | Err (Unknown _) | Err (Arity _) =>
          (Continue, {| lp_reader := rd; lp_engine := e; lp_stats := skip_one (lp_stats st);
                        lp_last_good := rd_pos rd |})
      | Err (EngineFailed x) =>
          (Return x, {| lp_reader := rd; lp_engine := e; lp_stats := lp_stats st;
                        lp_last_good := lp_last_good st |})
      end
  end.

(** The loop; [None] when the fuel runs out, [inl] when the process aborts. *)
Fixpoint replay_loop (fuel : nat) (alloc : Z → bool) (envs : Z → Env) (st : Loop)
    : option (Z + result FerrumError () * Loop) :=
  match fuel with
  | O => None
  | S fuel =>
      match replay_step alloc envs st with
      | (Continue, st) => replay_loop fuel alloc envs st
      | (Break, st) => Some (inr (Ok tt, st))
      | (Return e, st) => Some (inr (Err e, st))
      | (Abort len, _) => Some (inl len)
      end
  end.

(** The outcomes of the system calls around the loop: opening the file, a read
    failure after its last byte, truncating and syncing it; and what the allocator
    grants. *)
Record ReplayIo := {
  io_alloc : Z → bool;
  io_open : option bytes;
  io_fault : option bytes;
  io_set_len : option bytes;
  io_sync : option bytes;
}.

(** [File::set_len] *)
Definition set_len (n : Z) (content : bytes) : bytes :=
  take (Z.to_nat n) content ++ repeat x00 (Z.to_nat n - length content).

(** [replay_from_file]: the result, the file's contents and the engine; or the buffer
    that was not granted. *)
Definition replay_from_file (io : ReplayIo) (envs : Z → Env) (content : bytes) (e : Engine)
    : option (Z + result FerrumError ReplayStats * bytes * Engine) :=
  let start := {|
    lp_reader := {| rd_rest := content; rd_pos := 0; rd_consumed := 0; rd_fault := io_fault io |};
    lp_engine := e; lp_stats := stats_default; lp_last_good := 0 |} in
  match replay_loop (S (length content)) (io_alloc io) envs start with
  | None => None
  | Some (inl len) => Some (inl len)
  | Some (inr (Err x, st)) => Some (inr (Err x, content, lp_engine st))
  | Some (inr (Ok _, st)) =>
      Some (inr (
        if truncated_tail (lp_stats st) then
          match io_set_len io with
          | Some m => (Err (persist_err "aof truncate failed: " m), content)
          | None =>
              (match io_sync io with
               | Some m => Err (persist_err "aof sync after truncate failed: " m)
               | None => Ok (lp_stats st)
               end, set_len (lp_last_good st) content)
          end
        else (Ok (lp_stats st), content),
        lp_engine st))
  end.

(** [replay]; [None] for a file that does not exist. *)
Definition replay (io : ReplayIo) (envs : Z → Env) (file : option bytes) (e : Engine)
    : option (Z + result FerrumError ReplayStats * option bytes * Engine) :=
  match file with
  | None => Some (inr (Ok stats_default, None, e))
  | Some content =>
      match io_open io with
      | Some m => Some (inr (Err (persist_err "aof open failed: " m), Some content, e))
      | None =>
          match replay_from_file io envs content e with
          | None => None
          | Some (inl len) => Some (inl len)
          | Some (inr (r, content', e')) => Some (inr (r, Some content', e'))
          end
      end
  end.

End replay.

(** ** What a reader reads

    [reads_f m s a]: with more fuel than there is input, [m] reads exactly the
    bytes [s] and answers [a], whatever follows; and on every proper prefix of
    [s] that ends the file it reports a torn record. *)

Definition rd (rest : bytes) (pos c : Z) (f : option bytes) : Rd :=
  {| rd_rest := rest; rd_pos := pos; rd_consumed := c; rd_fault := f |}.

Record reads_f {A} (m : nat → RD A) (s : bytes) (a : A) : Prop := {
  reads_whole fuel t pos c f : (length s < fuel)%nat →
    m fuel (rd (s ++ t) pos c f) = (Ok a, rd t (pos + blen s) (c + blen s) f);
  reads_torn fuel p pos c : p `prefix_of` s → p ≠ s → (length p < fuel)%nat →
    m fuel (rd p pos c None)
    = (Err (UnexpectedEof (c + blen p)), rd [] (pos + blen p) (c + blen p) None);
}.

Abbreviation reads m := (reads_f (λ _, m)).

(** An allocator that grants everything. *)
Definition grants (_ : Z) : bool := true.

Section reads.
Implicit Types (s p t : bytes).

Lemma prefix_app_cases p s s' :
  p `prefix_of` s ++ s' → (p `prefix_of` s ∧ p ≠ s) ∨ ∃ p', p = s ++ p' ∧ p' `prefix_of` s'.
Proof.
  intros [q Hq]. symmetry in Hq. apply app_eq_app in Hq as (l & [[-> ->]|[-> ->]]).
  - right. exists l. split; [done|]. by eexists.
  - destruct l as [|b l].
    + right. exists []. rewrite !app_nil_r. split; [done|apply prefix_nil].
    + left. split; [by eexists|]. intros E. apply (f_equal length) in E.
      rewrite length_app in E. simpl in E. lia.
Qed.

(** Reading in sequence; [d] is the fuel the first step takes away. *)
Lemma reads_seq {A B} d (g : nat → RD B) (m : RD A) (h : A → nat → RD B) s s' a b :
  (∀ fuel, g (d + fuel)%nat = m ≫= λ a, h a fuel) → (d ≤ 1)%nat → (d ≤ length s)%nat →
  reads m s a → reads_f (h a) s' b → reads_f g (s ++ s') b.
Proof.
  intros Hg Hd1 Hd Hm Hh. split.
  - intros fuel t pos c f Hfuel. rewrite length_app in Hfuel.
    replace fuel with (d + (fuel - d))%nat by lia. rewrite Hg, <- app_assoc.
    unfold mbind, se_bind. rewrite (reads_whole _ _ _ Hm (S (length s))) by lia.
    rewrite (reads_whole _ _ _ Hh) by lia. by rewrite blen_app, !Z.add_assoc.
  - intros fuel p pos c Hp Hne Hfuel.
    replace fuel with (d + (fuel - d))%nat by lia. rewrite Hg. unfold mbind, se_bind.
    apply prefix_app_cases in Hp as [[Hp Hne']|(p' & -> & Hp')].
    + by rewrite (reads_torn _ _ _ Hm (S (length p))) by (done || lia).
    + rewrite length_app in Hfuel.
      rewrite (reads_whole _ _ _ Hm (S (length s))) by lia.
      rewrite (reads_torn _ _ _ Hh) by (done || lia || congruence).
      by rewrite blen_app, !Z.add_assoc.
Qed.

Lemma reads_bind {A B} (m : RD A) (h : A → RD B) s s' a b :
  reads m s a → reads (h a) s' b → reads (m ≫= h) (s ++ s') b.
Proof. intros Hm Hh. by eapply (reads_seq 0 (λ _, m ≫= h) m (λ a _, h a)); eauto with lia. Qed.

(** A last step that only computes. *)
Lemma reads_then {A B} (m : nat → RD A) (h : A → RD B) s a b :
  reads_f m s a → h a = mret b → reads_f (λ fuel, m fuel ≫= h) s b.
Proof.
  intros [H1 H2] Hh. split; intros; unfold mbind, se_bind.
  - rewrite H1 by done. by rewrite Hh.
  - by rewrite H2.
Qed.

(** Fuel computed from what is left to read. *)
Lemma reads_fueled {A} (m : nat → RD A) s a :
  reads_f m s a → reads (λ st, m (S (length (rd_rest st))) st) s a.
Proof.
  intros [H1 H2]. split.
  - intros _ t pos c f _. apply H1. simpl. rewrite length_app. lia.
  - intros _ p pos c Hp Hne _. apply H2; simpl; auto with lia.
Qed.

Lemma prefix_one p (b : byte) : p `prefix_of` [b] → p ≠ [b] → p = [].
Proof.
  intros [q Hq] Hne. destruct p as [|b' [|? ?]]; [done| |done].
  by simplify_eq/=.
Qed.

Lemma reads_expect_byte b : reads expect_byte [b] b.
Proof.
  split.
  - intros _ t pos c f _. cbv [expect_byte read_byte mbind se_bind count modify mret se_ret].
    unfold advance, rd, blen. simpl. by rewrite drop_0, !Z.add_0_r.
  - intros _ p pos c Hp Hne _. rewrite (prefix_one _ _ Hp Hne).
    cbv [expect_byte read_byte mbind se_bind gets throw rd]. simpl. unfold blen. simpl.
    by rewrite !Z.add_0_r.
Qed.

Lemma reads_exact buf : reads (read_exact_tracked (blen buf)) buf buf.
Proof.
  split.
  - intros _ t pos c f _. unfold read_exact_tracked. simpl.
    destruct (_ <=? _) eqn:E; bool_to_prop; [|rewrite blen_app in E; unfold blen in E; lia].
    unfold advance, rd, blen. simpl. by rewrite Nat2Z.id, take_app_length, drop_app_length.
  - intros _ p pos c Hp Hne _. unfold read_exact_tracked. simpl.
    assert (length p < length buf)%nat.
    { destruct Hp as [q ->]. rewrite length_app. destruct q; [by rewrite app_nil_r in Hne|simpl; lia]. }
    destruct (_ <=? _) eqn:E; bool_to_prop; [unfold blen in E; lia|].
    unfold advance, rd, blen. simpl. by rewrite Nat2Z.id, drop_all.
Qed.

Lemma number_loop_S fuel acc :
  number_loop (S fuel) acc = (expect_byte ≫= λ b,
    if bool_decide (b = x0d) then
      expect_byte ≫= λ lf, if negb (bool_decide (lf = x0a)) then malformed else mret acc
    else number_loop fuel (acc ++ [b])).
Proof. done. Qed.

Lemma reads_number s acc :
  Forall (λ b, b ≠ x0d) s → reads_f (λ fuel, number_loop fuel acc) (s ++ CRLF) (acc ++ s).
Proof.
  intros Hs. revert acc. induction Hs as [|b s Hb _ IH]; intros acc.
  - rewrite app_nil_r. change ([] ++ CRLF) with ([x0d] ++ [x0a]).
    eapply (reads_seq 1); [intros fuel; apply number_loop_S|done|done|apply reads_expect_byte|].
    cbv beta. rewrite bool_decide_true by done.
    eapply (reads_then (λ _, expect_byte)); [apply reads_expect_byte|]. by rewrite bool_decide_true.
  - change ((b :: s) ++ CRLF) with ([b] ++ s ++ CRLF).
    eapply (reads_seq 1); [intros fuel; apply number_loop_S|done|done|apply reads_expect_byte|].
    cbv beta. rewrite bool_decide_false by done.
    replace (acc ++ b :: s) with ((acc ++ [b]) ++ s) by (by rewrite <- app_assoc). apply IH.
Qed.

Lemma reads_integer n : 0 ≤ n ≤ i64_max → reads read_integer (to_string_u n ++ CRLF) n.
Proof.
  intros Hn. unfold read_integer.
  apply (reads_fueled (λ fuel, number_loop fuel [] ≫= _)).
  eapply reads_then; [apply reads_number, to_string_u_no_cr; lia|].
  simpl. rewrite to_string_u_utf8 by lia. simpl. by rewrite parse_i64_to_string_u.
Qed.

Lemma reads_part p : blen p ≤ i64_max → reads (read_part grants) (encode_part p) p.
Proof.
  intros Hp. unfold encode_part, read_part, grants.
  apply (reads_bind expect_byte _ [x24] _ x24); [apply reads_expect_byte|].
  rewrite bool_decide_true by done. simpl negb. cbv iota.
  rewrite app_assoc. eapply reads_bind; [apply reads_integer; pose proof (blen_nonneg p); lia|].
  destruct (_ <? 0) eqn:E; bool_to_prop; [pose proof (blen_nonneg p); lia|].
  eapply reads_bind; [apply reads_exact|].
  apply (reads_bind expect_byte _ [x0d] [x0a] x0d); [apply reads_expect_byte|].
  eapply (reads_then (λ _, expect_byte)); [apply reads_expect_byte|done].
Qed.

Lemma read_array_S fuel n :
  0 < n → read_array grants (S fuel) n = ((read_part grants) ≫= λ part,
    (read_array grants fuel (n - 1) ≫= λ parts, mret (part :: parts))).
Proof. intros Hn. simpl. destruct (n <=? 0) eqn:E; bool_to_prop; [lia|done]. Qed.

Lemma reads_array ps :
  Forall (λ p, blen p ≤ i64_max) ps →
  reads_f (λ fuel, read_array grants fuel (blen ps)) (concat (map encode_part ps)) ps.
Proof.
  induction 1 as [|p ps Hp _ IH]; cbn [map concat].
  - split.
    + intros fuel t pos c f _. destruct fuel; simpl; by rewrite !Z.add_0_r.
    + intros fuel p pos c Hp Hne. by apply prefix_nil_inv in Hp.
  - eapply (reads_seq 1); [intros fuel; apply read_array_S|lia| |by apply reads_part|].
    + unfold blen. simpl. lia.
    + unfold encode_part. simpl. lia.
    + replace (blen (p :: ps) - 1) with (blen ps) by (unfold blen; simpl; lia).
      by eapply (reads_then (λ fuel, read_array grants fuel (blen ps))).
Qed.
End reads.

(** ** Records and logs *)

(** Argument vectors whose lengths the reader can represent. *)
Definition representable (parts : list bytes) : Prop :=
  blen parts ≤ i64_max ∧ Forall (λ p, blen p ≤ i64_max) parts.

(** The log that holds the records [rs]. *)
Definition log_of (rs : list (list bytes)) : bytes := concat (map encode_command rs).

Definition record_body (alloc : Z → bool) : RD (option (list bytes)) :=
  array_len ← read_integer;
  if array_len <? 0 then malformed
  else
    parts ← (λ st, read_array alloc (S (length (rd_rest st))) array_len st);
    mret (Some parts).

Lemma read_record_cons alloc b r pos c f :
  read_record alloc (rd (b :: r) pos c f)
  = (if negb (bool_decide (b = x2a)) then malformed else record_body alloc) (rd r (pos + 1) 1 f).
Proof.
  cbv [read_record modify mbind se_bind read_byte count]. cbn [rd rd_rest].
  unfold advance, rd. simpl. rewrite drop_0, Z.add_0_r. destruct (negb _); [done|].
  unfold record_body, mbind, se_bind, gets.
  destruct (read_integer _) as [[n|x] st]; [|done]. by destruct (n <? 0).
Qed.

Lemma reads_record_body parts :
  representable parts →
  reads (record_body grants) (to_string_u (blen parts) ++ CRLF ++ concat (map encode_part parts)) (Some parts).
Proof.
  intros [Hn Hall]. pose proof (blen_nonneg parts) as Hp. rewrite app_assoc.
  eapply reads_bind; [apply reads_integer; lia|].
  destruct (_ <? 0) eqn:E; bool_to_prop; [lia|].
  eapply (reads_then (λ _, _)); [|done].
  apply (reads_fueled (λ fuel, read_array grants fuel (blen parts))), reads_array, Hall.
Qed.

Lemma encode_command_star parts :
  encode_command parts
  = x2a :: to_string_u (blen parts) ++ CRLF ++ concat (map encode_part parts).
Proof. unfold encode_command. simpl. by rewrite <- app_assoc. Qed.

(** The reader inverts the encoder, and says so when the record is torn. *)
Lemma read_record_encode parts t pos c f :
  representable parts →
  read_record grants (rd (encode_command parts ++ t) pos c f)
  = (Ok (Some parts), rd t (pos + blen (encode_command parts)) (blen (encode_command parts)) f).
Proof.
  intros Hr. rewrite encode_command_star. set (s := to_string_u _ ++ _).
  change ((x2a :: s) ++ t) with (x2a :: (s ++ t)). rewrite read_record_cons.
  rewrite bool_decide_true by done. simpl negb. cbv iota.
  rewrite (reads_whole _ _ _ (reads_record_body parts Hr) (S (length s))) by (unfold s; lia).
  fold s.
  by rewrite blen_cons, Z.add_assoc.
Qed.

Lemma read_record_torn parts p pos c :
  representable parts → p `prefix_of` encode_command parts → p ≠ encode_command parts → p ≠ [] →
  read_record grants (rd p pos c None)
  = (Err (UnexpectedEof (blen p)), rd [] (pos + blen p) (blen p) None).
Proof.
  intros Hr Hp Hne Hnil. rewrite encode_command_star in Hp, Hne. destruct p as [|b p]; [done|].
  apply prefix_cons_inv_1 in Hp as Hb. apply prefix_cons_inv_2 in Hp. subst b.
  rewrite read_record_cons, bool_decide_true by done. simpl negb. cbv iota.
  rewrite (reads_torn _ _ _ (reads_record_body parts Hr) (S (length p)));
    [|done|congruence|lia].
  by rewrite blen_cons, Z.add_assoc.
Qed.

Section replay_log.
Context `{IndexMap} `{HashIter}.
Implicit Types (e : Engine) (rs : list (list bytes)).

(** The reference: records applied one after the other, each in the
    environment of its end position; one that is not understood is skipped, a
    failing engine stops the replay. *)
Fixpoint replay_records (envs : Z → Env) (pos : Z) rs (stats : ReplayStats) e
    : result FerrumError ReplayStats * Engine :=
  match rs with
  | [] => (Ok stats, e)
  | parts :: rs =>
      let pos := pos + blen (encode_command parts) in
      let '(a, e) := apply_record (envs pos) parts e in
      match a with
      | Ok _ => replay_records envs pos rs (apply_one stats) e
      | Err (EngineFailed x) => (Err x, e)
      | Err _ => replay_records envs pos rs (skip_one stats) e
      end
  end.

Definition loop_at (rest : bytes) (pos c : Z) e stats (good : Z) : Loop :=
  {| lp_reader := rd rest pos c None; lp_engine := e; lp_stats := stats; lp_last_good := good |}.

Lemma replay_loop_log rs fuel envs pos c e stats t parts :
  Forall representable rs → representable parts →
  t `prefix_of` encode_command parts → t ≠ encode_command parts →
  (length rs < fuel)%nat →
  ∃ st, replay_loop fuel grants envs (loop_at (log_of rs ++ t) pos c e stats pos)
        = Some (inr (match replay_records envs pos rs stats e with
                     | (Ok s, e') => (Ok tt, st)
                     | (Err x, e') => (Err x, st)
                     end)) ∧
    lp_engine st = (replay_records envs pos rs stats e).2 ∧
    ∀ s, (replay_records envs pos rs stats e).1 = Ok s →
      lp_stats st = (if bool_decide (t = []) then s else torn s) ∧
      lp_last_good st = pos + blen (log_of rs).
Proof.
  intros Hrs Hparts Ht Hne. revert fuel pos c e stats.
  induction Hrs as [|r rs Hr _ IH]; intros fuel pos c e stats Hfuel.
  - assert (Hz : pos = pos + blen (log_of [])) by (unfold log_of, blen; simpl; lia).
    destruct fuel as [|fuel]; [lia|]. cbn [replay_loop replay_records fst snd log_of map concat app].
    unfold replay_step, loop_at. cbn [lp_reader lp_engine lp_stats lp_last_good].
    destruct (decide (t = [])) as [->|Hnil].
    + eexists. split; [done|]. split; [done|]. by intros s [= <-].
    + rewrite (read_record_torn parts) by done. eexists. split; [done|]. split; [done|].
      intros s [= <-]. rewrite bool_decide_false by done. cbn [lp_stats lp_last_good].
      destruct (0 <? blen t) eqn:E; bool_to_prop; [done|].
      destruct t; [done|unfold blen in E; simpl in E; lia].
  - destruct fuel as [|fuel]; [simpl in Hfuel; lia|]. cbn [length] in Hfuel.
    cbn [replay_loop replay_records]. unfold replay_step. cbn [loop_at lp_reader].
    unfold log_of. cbn [map concat]. rewrite <- app_assoc, read_record_encode by done.
    cbn [rd_pos rd]. fold (log_of rs).
    cbn [loop_at lp_engine lp_stats lp_last_good].
    destruct (apply_record _ r e) as [[[]|x] e1].
    + destruct (IH fuel (pos + blen (encode_command r)) (blen (encode_command r)) e1 (apply_one stats))
        as (st & H1 & H2 & H3); [lia|]. exists st. split; [done|]. split; [done|].
      intros s Hs. destruct (H3 s Hs) as [-> ->]. rewrite blen_app. split; [done|lia].
    + destruct x as [cmd|cmd|x].
      1,2: destruct (IH fuel (pos + blen (encode_command r)) (blen (encode_command r)) e1 (skip_one stats))
        as (st & H1 & H2 & H3); [lia|]; exists st; split; [done|]; split; [done|];
        intros s Hs; destruct (H3 s Hs) as [-> ->]; rewrite blen_app; split; [done|lia].
      eexists. split; [done|]. split; [done|]. by intros s [=].
Qed.

(** No failing system call. *)
Definition io_fine : ReplayIo :=
  {| io_alloc := grants; io_open := None; io_fault := None; io_set_len := None; io_sync := None |}.

Lemma set_len_prefix (s t : bytes) : set_len (blen s) (s ++ t) = s.
Proof.
  unfold set_len, blen. rewrite Nat2Z.id, take_app_length, length_app.
  replace (length s - (length s + length t))%nat with 0%nat by lia. apply app_nil_r.
Qed.

Lemma log_of_length rs : (length rs ≤ length (log_of rs))%nat.
Proof.
  induction rs as [|r rs IH]; [done|]. unfold log_of in *. cbn [map concat].
  rewrite encode_command_star. simpl. rewrite length_app. lia.
Qed.

(** What replay makes of a log followed by a torn record. *)
Lemma replay_from_file_torn envs e rs t parts :
  Forall representable rs → representable parts →
  t `prefix_of` encode_command parts → t ≠ encode_command parts →
  replay_from_file io_fine envs (log_of rs ++ t) e
  = Some (inr (match replay_records envs 0 rs stats_default e with
               | (Ok s, e') => (Ok (if bool_decide (t = []) then s else torn s), log_of rs, e')
               | (Err x, e') => (Err x, log_of rs ++ t, e')
               end)).
Proof.
  intros Hrs Hp Ht Hne. unfold replay_from_file. cbn [io_fault io_alloc io_fine].
  destruct (replay_loop_log rs (S (length (log_of rs ++ t))) envs 0 0 e stats_default t parts)
    as (st & Hloop & He & Hok); try done.
  { pose proof (log_of_length rs). rewrite length_app. lia. }
  change {| lp_reader := _; lp_engine := e; lp_stats := _; lp_last_good := _ |}
    with (loop_at (log_of rs ++ t) 0 0 e stats_default 0).
  rewrite Hloop. assert (Htr : ∀ s e', replay_records envs 0 rs stats_default e = (Ok s, e') →
    truncated_tail s = false).
  { clear. assert (Hd : truncated_tail stats_default = false) by done. revert Hd.
    generalize stats_default, 0, e. induction rs as [|r rs IH]; simpl; intros st pos e' Hst s e2.
    - by intros [= <- <-].
    - destruct (apply_record _ _ _) as [[[]|[]] e1]; try done; by apply IH. }
  destruct (replay_records envs 0 rs stats_default e) as [[s|x] e'] eqn:E; simpl in He; rewrite He; [|done].
  specialize (Htr _ _ eq_refl). destruct (Hok s eq_refl) as [-> Hg]. rewrite Hg, Z.add_0_l.
  destruct (decide (t = [])) as [->|Hnil].
  - rewrite bool_decide_true by done. rewrite Htr. by rewrite app_nil_r.
  - rewrite bool_decide_false by done. cbn [torn truncated_tail io_fine io_set_len io_sync].
    by rewrite set_len_prefix.
Qed.

Lemma log_prefix_split rs (p : bytes) :
  p `prefix_of` log_of rs →
  ∃ k t, p = log_of (take k rs) ++ t ∧
    ((k < length rs)%nat ∧ (∃ r, rs !! k = Some r ∧ t `prefix_of` encode_command r ∧ t ≠ encode_command r)
     ∨ k = length rs ∧ t = []).
Proof.
  revert p. induction rs as [|r rs IH]; intros p.
  - intros Hp. apply prefix_nil_inv in Hp as ->. exists 0%nat, []. by split; [|right].
  - unfold log_of. cbn [map concat]. intros Hp.
    apply prefix_app_cases in Hp as [[Hp Hne]|(p' & -> & Hp)].
    + exists 0%nat, p. split; [done|]. left. simpl. split; [lia|]. by exists r.
    + destruct (IH p' Hp) as (k & t & -> & Hk). exists (S k), t. cbn [take map concat].
      unfold log_of. rewrite <- app_assoc. split; [done|]. simpl.
      destruct Hk as [(Hk & Hr)|[-> ->]]; [left; split; [lia|done]|by right].
Qed.
End replay_log.

(** ** Termination *)

Section termination.
Context `{IndexMap} `{HashIter}.

Implicit Types (s : Rd) (l : bytes).

(** What is left to read is always an end of the file. *)
Abbreviation stays m := (∀ l, preserves (λ s, rd_rest s `suffix_of` l) m).

Lemma advance_rest n k s : rd_rest (advance n k s) `suffix_of` rd_rest s.
Proof. exists (take (Z.to_nat n) (rd_rest s)). symmetry. apply take_drop. Qed.

Lemma advance_stays n k s l : rd_rest s `suffix_of` l → rd_rest (advance n k s) `suffix_of` l.
Proof. intros Hs. etrans; [apply advance_rest|done]. Qed.
#[local] Hint Resolve advance_stays : core.

Lemma read_byte_stays : stays read_byte.
Proof. intros l s Hs. unfold read_byte. destruct (rd_rest s) eqn:E; [destruct (rd_fault s)|]; cbn [snd]; rewrite ?E; auto. apply advance_stays. by rewrite E. Qed.
Lemma count_stays k : stays (count k).
Proof. intros l s Hs. unfold count, modify. cbn [snd]. auto. Qed.
#[local] Hint Resolve read_byte_stays count_stays : preserve.

Lemma malformed_stays {A} : stays (malformed (A := A)).
Proof. intros l. unfold malformed. eauto with preserve. Qed.
#[local] Hint Resolve malformed_stays : preserve.

(** Walks through a reader, bind by bind. *)
Ltac shrink := repeat (apply preserves_bind; [eauto with preserve|intros ?]);
  repeat case_match; eauto with preserve.

Lemma expect_byte_stays : stays expect_byte.
Proof. intros l. unfold expect_byte. shrink. Qed.
#[local] Hint Resolve expect_byte_stays : preserve.

Lemma read_exact_stays k : stays (read_exact_tracked k).
Proof. intros l s Hs. unfold read_exact_tracked. destruct (_ <=? _); [|destruct (rd_fault s)]; cbn [snd]; auto. Qed.
#[local] Hint Resolve read_exact_stays : preserve.

Lemma number_loop_stays fuel acc : stays (number_loop fuel acc).
Proof.
  intros l. revert acc. induction fuel as [|fuel IH]; intros acc; [apply malformed_stays|].
  rewrite number_loop_S. apply preserves_bind; [eauto with preserve|intros b].
  case_match; [|apply IH]. shrink.
Qed.

Lemma read_integer_stays : stays read_integer.
Proof.
  intros l s Hs. unfold read_integer.
  apply (preserves_bind (λ s, rd_rest s `suffix_of` l) (number_loop _ [])); [| |exact Hs].
  - apply number_loop_stays.
  - intros number. shrink.
Qed.
#[local] Hint Resolve read_integer_stays : preserve.

Section readers.
Context (alloc : Z → bool).

Lemma read_part_stays : stays (read_part alloc).
Proof.
  intros l. unfold read_part. apply preserves_bind; [eauto with preserve|intros b].
  case_match; [eauto with preserve|]. apply preserves_bind; [eauto with preserve|intros len].
  case_match; [eauto with preserve|]. case_match; [apply preserves_throw|]. shrink.
Qed.

Lemma read_array_stays fuel k : stays (read_array alloc fuel k).
Proof.
  intros l. revert k. induction fuel as [|fuel IH]; intros k; simpl.
  - case_match; eauto with preserve.
  - case_match; [eauto with preserve|]. apply preserves_bind; [apply read_part_stays|intros part].
    apply preserves_bind; [apply IH|eauto with preserve].
Qed.

Lemma record_body_stays : stays (record_body alloc).
Proof.
  intros l. unfold record_body. apply preserves_bind; [eauto with preserve|intros k].
  case_match; [eauto with preserve|].
  apply preserves_bind; [|intros ?; apply preserves_ret]. intros s Hs. by apply read_array_stays.
Qed.

(** Only at the end of the file does a call of [read_record] take no byte. *)
Lemma read_record_progress s :
  (read_record alloc s).1 = Ok None ∨ (∃ m, (read_record alloc s).1 = Err (ReadIo m)) ∨
  ∃ b, rd_rest s = b :: drop 1 (rd_rest s) ∧ rd_rest (read_record alloc s).2 `suffix_of` drop 1 (rd_rest s).
Proof.
  destruct s as [[|b r] pos c f].
  - destruct f as [m|]; [right; left; by exists m|by left].
  - right. right. exists b. change (Build_Rd (b :: r) pos c f) with (rd (b :: r) pos c f).
    rewrite read_record_cons. split; [done|]. cbn [rd rd_rest drop]. rewrite drop_0. destruct (negb _).
    + by apply (malformed_stays r).
    + by apply (record_body_stays r).
Qed.

(** ** Refused buffers *)

(** The text of a file declares a bulk string of so many bytes. *)
Definition declares l (len : Z) : Prop :=
  ∃ pre number post, l = pre ++ [x24] ++ number ++ CRLF ++ post ∧ parse_i64 number = Some len.

Lemma declares_suffix l l' len : l `suffix_of` l' → declares l len → declares l' len.
Proof. intros [k ->] (pre & number & post & -> & Hn). exists (k ++ pre), number, post. by rewrite <- app_assoc. Qed.

Lemma expect_byte_inv s b s' : expect_byte s = (Ok b, s') → rd_rest s = b :: rd_rest s'.
Proof.
  unfold expect_byte, mbind, se_bind, read_byte. destruct (rd_rest s) as [|b' r] eqn:E.
  - by destruct (rd_fault s).
  - unfold count, modify. cbn. intros [= <- <-]. cbn. by rewrite E, !drop_0.
Qed.

Lemma number_loop_inv fuel acc s number s' :
  number_loop fuel acc s = (Ok number, s') → ∃ d, number = acc ++ d ∧ rd_rest s = d ++ CRLF ++ rd_rest s'.
Proof.
  revert acc s. induction fuel as [|fuel IH]; intros acc s; [done|].
  rewrite number_loop_S. unfold mbind, se_bind. destruct (expect_byte s) as [[b|x] s1] eqn:E1; [|done].
  apply expect_byte_inv in E1. rewrite E1. destruct (bool_decide_reflect (b = x0d)) as [->|_].
  - destruct (expect_byte s1) as [[b|x] s2] eqn:E2; [|done]. apply expect_byte_inv in E2. rewrite E2.
    destruct (bool_decide_reflect (b = x0a)) as [->|_]; [|done]. cbn. intros [= <- <-]. exists []. by rewrite app_nil_r.
  - intros Hl. apply IH in Hl as (d & -> & ->). exists (b :: d). by rewrite <- app_assoc.
Qed.

Lemma read_integer_inv s n s' :
  read_integer s = (Ok n, s') → ∃ number, parse_i64 number = Some n ∧ rd_rest s = number ++ CRLF ++ rd_rest s'.
Proof.
  unfold read_integer, mbind, se_bind. destruct (number_loop _ [] s) as [[number|x] s1] eqn:E; [|done].
  apply number_loop_inv in E as (d & -> & ->). destruct (negb _); [done|]. cbn [app].
  destruct (parse_i64 d) as [n'|] eqn:Ep; [|done]. intros [= <- <-]. by exists d.
Qed.

(** A reader that is refused a buffer was asked for it by the file. *)
Abbreviation asks m := (∀ s len s', m s = (Err (AllocFailed len), s') → alloc len = false ∧ 0 ≤ len ≤ i64_max ∧ declares (rd_rest s) len).

Lemma no_asks {A} (m : RD A) : (∀ s len s', m s ≠ (Err (AllocFailed len), s')) → asks m.
Proof. intros Hm s len s' E. by destruct (Hm s len s'). Qed.

Lemma expect_byte_quiet s len s' : expect_byte s ≠ (Err (AllocFailed len), s').
Proof. unfold expect_byte, mbind, se_bind, read_byte. by destruct (rd_rest s); [destruct (rd_fault s)|]. Qed.
Lemma read_exact_quiet n s len s' : read_exact_tracked n s ≠ (Err (AllocFailed len), s').
Proof. unfold read_exact_tracked. destruct (_ <=? _); [done|]. by destruct (rd_fault s). Qed.
Lemma number_loop_quiet fuel acc s len s' : number_loop fuel acc s ≠ (Err (AllocFailed len), s').
Proof.
  revert acc s. induction fuel as [|fuel IH]; intros acc s; [done|].
  rewrite number_loop_S. unfold mbind, se_bind. pose proof (expect_byte_quiet s) as Hq.
  destruct (expect_byte s) as [[b|x] s1]; [|intros [= -> ->]; by apply (Hq len s')].
  destruct (bool_decide _); [|apply IH]. pose proof (expect_byte_quiet s1) as Hq1.
  destruct (expect_byte s1) as [[b1|x] s2]; [|intros [= -> ->]; by apply (Hq1 len s')]. by destruct (negb _).
Qed.
Lemma read_integer_quiet s len s' : read_integer s ≠ (Err (AllocFailed len), s').
Proof.
  unfold read_integer, mbind, se_bind. pose proof (number_loop_quiet (S (length (rd_rest s))) [] s) as Hq.
  destruct (number_loop _ [] s) as [[d|x] s1]; [|intros [= -> ->]; by apply (Hq len s')].
  destruct (negb _); [done|]. by destruct (parse_i64 d).
Qed.

Lemma read_part_asks : asks (read_part alloc).
Proof.
  intros s len s'. unfold read_part, mbind, se_bind. pose proof (expect_byte_quiet s) as Hq.
  destruct (expect_byte s) as [[b|x] s1] eqn:E1; [|intros [= -> ->]; by destruct (Hq len s')].
  apply expect_byte_inv in E1. rewrite E1. destruct (bool_decide_reflect (b = x24)) as [->|_]; [|done]. cbn [negb].
  pose proof (read_integer_quiet s1) as Hq1.
  destruct (read_integer s1) as [[n|x] s2] eqn:E2; [|intros [= -> ->]; by destruct (Hq1 len s')].
  apply read_integer_inv in E2 as (number & Hp & ->). destruct (n <? 0) eqn:En; [done|]. bool_to_prop.
  destruct (alloc n) eqn:Ea; cbn [negb].
  - pose proof (read_exact_quiet n s2) as Hq2.
    destruct (read_exact_tracked n s2) as [[buf|x] s3]; [|intros [= -> ->]; by destruct (Hq2 len s')].
    pose proof (expect_byte_quiet s3) as Hq3.
    destruct (expect_byte s3) as [[cr|x] s4]; [|intros [= -> ->]; by destruct (Hq3 len s')].
    pose proof (expect_byte_quiet s4) as Hq4.
    destruct (expect_byte s4) as [[lf|x] s5]; [|intros [= -> ->]; by destruct (Hq4 len s')]. by destruct (_ || _).
  - intros [= -> ->]. split; [done|]. pose proof (parse_i64_in_i64 _ _ Hp) as Hr. unfold in_i64 in Hr. bool_to_prop.
    split; [lia|]. by exists [], number, (rd_rest s').
Qed.

Lemma read_array_asks fuel k : asks (read_array alloc fuel k).
Proof.
  revert k. induction fuel as [|fuel IH]; intros k s len s'; simpl; [by destruct (k <=? 0)|].
  destruct (k <=? 0); [done|]. unfold mbind, se_bind. pose proof (read_part_asks s) as Hp. pose proof (read_part_stays (rd_rest s) s) as Hst.
  destruct (read_part alloc s) as [[part|x] s1]; [|intros [= -> ->]; by apply (Hp len s')].
  pose proof (IH (k - 1) s1) as Ha. destruct (read_array alloc fuel (k - 1) s1) as [[parts|x] s2]; [done|].
  intros [= -> ->]. destruct (Ha len s' eq_refl) as (H1 & H2 & H3). split; [done|]. split; [done|].
  eapply declares_suffix; [by apply Hst|done].
Qed.

Lemma record_body_asks : asks (record_body alloc).
Proof.
  intros s len s'. unfold record_body, mbind, se_bind. pose proof (read_integer_quiet s) as Hq. pose proof (read_integer_stays (rd_rest s) s) as Hst.
  destruct (read_integer s) as [[n|x] s1]; [|intros [= -> ->]; by destruct (Hq len s')]. destruct (n <? 0); [done|].
  pose proof (read_array_asks (S (length (rd_rest s1))) n s1) as Ha. destruct (read_array alloc _ n s1) as [[parts|x] s2]; [done|].
  intros [= -> ->]. destruct (Ha len s' eq_refl) as (H1 & H2 & H3). split; [done|]. split; [done|].
  eapply declares_suffix; [by apply Hst|done].
Qed.

Lemma read_record_asks : asks (read_record alloc).
Proof.
  intros [[|b r] pos c f] len s'; [by destruct f|]. change (Build_Rd (b :: r) pos c f) with (rd (b :: r) pos c f).
  rewrite read_record_cons. destruct (negb _); [done|]. intros Hb. apply record_body_asks in Hb as (H1 & H2 & H3).
  split; [done|]. split; [done|]. eapply declares_suffix; [|done]. by exists [b].
Qed.

Lemma resync_stays s : rd_rest (resync_to_next_array s).2 `suffix_of` rd_rest s.
Proof.
  unfold resync_to_next_array. destruct (find_star _); [apply advance_rest|].
  destruct (rd_fault s); apply advance_rest.
Qed.

(** A round that is not the last leaves a proper end of what it had. *)
Lemma replay_step_progress envs st st' :
  replay_step alloc envs st = (Continue, st') →
  ∃ b r, rd_rest (lp_reader st) = b :: r ∧ rd_rest (lp_reader st') `suffix_of` r.
Proof.
  unfold replay_step. pose proof (read_record_progress (lp_reader st)) as Hp.
  assert (Hcut : ∀ s, (∃ b, rd_rest (lp_reader st) = b :: drop 1 (rd_rest (lp_reader st)) ∧ rd_rest s `suffix_of` drop 1 (rd_rest (lp_reader st))) →
    ∃ b r, rd_rest (lp_reader st) = b :: r ∧ rd_rest s `suffix_of` r) by (intros s (b & H1 & H2); eauto).
  destruct (read_record alloc (lp_reader st)) as [[[parts|]|[k|k|m|len]] s]; cbn [fst snd] in Hp; try done.
  - destruct (apply_record _ _ _) as [[[]|[]] e]; intros [= <-]; destruct Hp as [|[[]|]]; try done; by apply Hcut.
  - pose proof (resync_stays s) as Hr. destruct (resync_to_next_array s) as [[[]|x] s']; intros [= <-].
    destruct Hp as [|[[]|(b & H1 & H2)]]; [done..|]. apply Hcut. exists b. split; [done|]. by etrans.
Qed.

Lemma replay_step_asks envs st len st' :
  replay_step alloc envs st = (Abort len, st') → alloc len = false ∧ 0 ≤ len ≤ i64_max ∧ declares (rd_rest (lp_reader st)) len.
Proof.
  unfold replay_step. pose proof (read_record_asks (lp_reader st)) as Ha.
  destruct (read_record alloc (lp_reader st)) as [[[parts|]|[k|k|m|n]] s]; try done.
  - by destruct (apply_record _ _ _) as [[[]|[]] e].
  - by destruct (resync_to_next_array s) as [[[]|x] s'].
  - intros [= -> _]. by apply (Ha len s).
Qed.

Lemma replay_loop_total envs fuel st :
  (length (rd_rest (lp_reader st)) < fuel)%nat →
  ∃ o, replay_loop fuel alloc envs st = Some o ∧
    ∀ len, o = inl len → alloc len = false ∧ 0 ≤ len ≤ i64_max ∧ declares (rd_rest (lp_reader st)) len.
Proof.
  revert st. induction fuel as [|fuel IH]; intros st Hlt; [lia|]. simpl.
  destruct (replay_step alloc envs st) as [[| |x|len] st'] eqn:E.
  - apply replay_step_progress in E as (b & r & Hr & Hs).
    destruct (IH st') as (o & Ho & Ha).
    { rewrite Hr in Hlt. apply suffix_length in Hs. cbn [length] in Hlt. lia. }
    exists o. split; [done|]. intros len Hl. destruct (Ha len Hl) as (H1 & H2 & H3). split; [done|]. split; [done|].
    eapply declares_suffix; [|done]. rewrite Hr. by apply suffix_cons_r.
  - eexists. by split.
  - eexists. by split.
  - eexists. split; [done|]. intros len' [= <-]. by eapply replay_step_asks.
Qed.
End readers.

(** C20: replay ends on every file: whatever bytes it is given, torn, corrupt or not a log
    at all, whatever the reads answer and whatever the engine does, the loop reaches its
    end within one round per byte. Either the call returns, or the process aborts because
    the allocator does not grant a buffer of a length that a bulk header of the file
    declares: a replay whose declared lengths are granted always returns. *)
Theorem replay_total io envs content e :
  ∃ o, replay_from_file io envs content e = Some o ∧
    ∀ len, o = inl len → io_alloc io len = false ∧ 0 ≤ len ≤ i64_max ∧ declares content len.
Proof.
  unfold replay_from_file.
  match goal with |- context [replay_loop ?f _ envs ?st] =>
    destruct (replay_loop_total (io_alloc io) envs f st) as ([len|[[[]|x] st']] & -> & Ha) end; cbn [lp_reader rd_rest length] in *; [lia|..].
  - eexists. split; [done|]. intros len' [= <-]. by apply Ha.
  - eexists. split; [done|]. by intros len [=].
  - eexists. split; [done|]. by intros len [=].
Qed.
End termination.

(** ** Crash recovery *)

(** C2: recovery after a crash at any byte. Cut the log of a sequence of
    records anywhere: replay applies exactly the records that are complete, in
    order, each to the engine the previous one left; a torn record at the end
    is reported and cut off the file, which then holds exactly the complete
    records. If a record makes the engine fail, the file is left alone. *)
Theorem replay_recovers_prefix `{IndexMap} `{HashIter} envs e rs (p : bytes) :
  Forall representable rs → p `prefix_of` log_of rs →
  ∃ k t, p = log_of (take k rs) ++ t ∧
    (t = [] ∨ ∃ r, rs !! k = Some r ∧ t `prefix_of` encode_command r ∧ t ≠ encode_command r) ∧
    replay_from_file io_fine envs p e
    = Some (inr (match replay_records envs 0 (take k rs) stats_default e with
                 | (Ok s, e') => (Ok (if bool_decide (t = []) then s else torn s), log_of (take k rs), e')
                 | (Err x, e') => (Err x, p, e')
                 end)).
Proof.
  intros Hrs Hp. destruct (log_prefix_split rs p Hp) as (k & t & -> & Hk).
  exists k, t. split; [done|].
  destruct Hk as [(_ & r & Hr & Ht & Hne)|[-> ->]].
  - split; [right; by exists r|]. apply replay_from_file_torn with r; try done.
    + by apply Forall_take.
    + by eapply Forall_lookup_1.
  - split; [by left|]. apply replay_from_file_torn with []; [by apply Forall_take| |apply prefix_nil|done].
    by split.
Qed.

Lemma replay_recovers_prefix_witness :
  let rs := [[str "SET"; str "a"; str "1"]; [str "SET"; str "b"; str "2"]; [str "DEL"; str "a"]] in
  let p := take 60 (log_of rs) in
  ∃ k t, p = log_of (take k rs) ++ t ∧
    replay_from_file io_fine (λ p, env_at p) p (engine_new (clock_at 0))
    = Some (inr (match replay_records (λ p, env_at p) 0 (take k rs) stats_default (engine_new (clock_at 0)) with
                 | (Ok s, e') => (Ok (if bool_decide (t = []) then s else torn s), log_of (take k rs), e')
                 | (Err x, e') => (Err x, p, e')
                 end)).
Proof.
  intros rs p. destruct (replay_recovers_prefix (λ p, env_at p) (engine_new (clock_at 0)) rs p)
    as (k & t & H1 & _ & H3).
  - repeat constructor; vm_compute; discriminate.
  - exists (drop 60 (log_of rs)). symmetry. apply take_drop.
  - by exists k, t.
Defined.

(** A malformed record is skipped, and the replay goes on at the next [*]; the torn tail is cut off after the last good record. *)
Example replay_skips_malformed :
  let content := str "+" ++ encode_command [str "SET"; str "a"; str "1"] ++ str "*2" in
  match replay_from_file io_fine (λ p, env_at p) content (engine_new (clock_at 0)) with
  | Some (inr (Ok s, content', e)) =>
      applied s = 1 ∧ skipped s = 1 ∧ truncated_tail s = true ∧
      (data <$> e_store e !! str "a") = Some (str "1") ∧
      content' = str "+" ++ encode_command [str "SET"; str "a"; str "1"]
  | _ => False
  end.
Proof. vm_compute. repeat split. Qed.

(** A header that declares more than the allocator grants ends the process. *)
Example replay_aborts :
  replay_from_file {| io_alloc := λ n, n <=? 1000000; io_open := None; io_fault := None; io_set_len := None; io_sync := None |}
    (λ p, env_at p) (encode_command [str "SET"; str "a"; str "1"] ++ str "*1" ++ CRLF ++ str "$9000000000" ++ CRLF)
    (engine_new (clock_at 0)) = Some (inl 9000000000).
Proof. vm_compute. reflexivity. Qed.
