(* ===== verification/Startup.v ===== *)
(** * Start-up (src/src/main.rs)

    [build_engine]: the log named by the configuration, if one is, is replayed
    onto an engine without a limit, and a writer is opened on it. [main]:
    arguments, engine, limit, password, the settings handed to the listener and the
    dashboard, and the exit code of every way out, with what is printed before the logger
    is set and the filter it gets. What the sockets and the signal handlers answer is an
    input, the log lines are left out, and the files of the host are a map from paths to
    contents. What goes on from there is in [Process]. *)
From S2P Require Import Prelude Numeric Text Error IndexMap Eviction Entry Sieve AdaptiveClimb Aof ConfigFile Cli Engine WriteGuard Commands EngineInv Replay.
From Stdlib Require Import ZArith Lia Strings.Byte.
From stdpp Require Import gmap strings numbers list.
Local Open Scope Z_scope.

(** [std::process::ExitCode] as the program uses it. *)
Inductive ExitCode := SUCCESS | FAILURE | Code (n : Z).
#[export] Instance ExitCode_eq_dec : EqDecision ExitCode.
Proof. solve_decision. Defined.

Abbreviation Files := (gmap bytes bytes).

(** ** Before the engine *)

Definition USAGE : bytes := concat (map (λ l, str l ++ [x0a])
  ["usage: ferrum-kv [--config PATH] [--addr HOST:PORT] [--aof-path PATH]";
   "                 [--appendfsync always|everysec|no]";
   "                 [--client-timeout SECONDS] [--maxclients N]";
   "                 [--maxmemory BYTES] [--maxmemory-policy POLICY]";
   "                 [--maxmemory-samples N] [--io-threads N]";
   "                 [--requirepass PASSWORD]";
   "                 [--dashboard-addr ADDR|off] [--dashboard-token SECRET]"]%string)
  ++ str "                 [--loglevel off|error|warn|info|debug|trace]".

(** What [main] writes to its standard output and its standard error. *)
Definition printed (parsed : result bytes Invocation) : bytes * bytes :=
  match parsed with
  | Ok (Run _) => ([], [])
  | Ok Help => (USAGE ++ [x0a], [])
  | Err msg => ([], str "ferrum-kv: " ++ msg ++ [x0a] ++ USAGE ++ [x0a])
  end.

Definition LOG_ENV : bytes := str "FERRUM_LOG".

(** The filter [init_logger] installs; [var] is [env::var], with [None] for its errors. *)
Definition log_filter (var : bytes → option bytes) (cli_level : option bytes) : bytes :=
  match var LOG_ENV with
  | Some filter => filter
  | None => match var (str "RUST_LOG") with Some filter => filter | None => default (str "info") cli_level end
  end.

(** The usage text names every flag of the command line. *)
Definition mentions (text word : bytes) : bool :=
  existsb (λ i, bytes_eqb (take (length word) (drop i text)) word) (seq 0 (length text)).
Example usage_complete : forallb (λ flag, mentions USAGE (str "[" ++ flag ++ str " ")) VALUE_FLAGS = true.
Proof. vm_compute. reflexivity. Qed.

Section startup.
Context `{IndexMap} `{HashIter}.

(** [build_engine]: [io] and [open_error] are what the host answers to the
    replay and to [AofWriter::open], [envs] the clocks of the replay by position
    in the file, [disk] what the disk does to the new writer. [None] when the process is
    aborted because the replay asks for a buffer it is not granted. *)
Definition build_engine (io : ReplayIo) (open_error : option bytes) (envs : Z → Env) (c : Clock)
    (disk : list Disk) (aof_config : option AofConfig) (fs : Files)
    : option (result ExitCode Engine * Files) :=
  match aof_config with
  | None => Some (Ok (engine_new c), fs)
  | Some cfg =>
      match replay io envs (fs !! cfg_path cfg) (engine_new c) with
      | None | Some (inl _) => None
      | Some (inr (Err _, file, _)) => Some (Err FAILURE, partial_alter (λ _, file) (cfg_path cfg) fs)
      | Some (inr (Ok _, file, e)) =>
          match open_error with
          | Some _ => Some (Err FAILURE, partial_alter (λ _, file) (cfg_path cfg) fs)
          | None =>
              let existing := default [] file in
              Some (Ok (with_aof (open (cfg_fsync cfg) existing disk) e), <[cfg_path cfg := existing]> fs)
          end
      end
  end.

(** [ServerConfig] as [main] fills it in. *)
Record ServerConfig := { sc_client_timeout : option Z; sc_max_clients : Z; sc_worker_threads : Z }.

Definition ServerConfig_default : ServerConfig :=
  {| sc_client_timeout := None; sc_max_clients := 10000; sc_worker_threads := 0 |}.

Definition server_config (args : CliArgs) : ServerConfig := {|
  sc_client_timeout := ca_client_timeout args;
  sc_max_clients := default (sc_max_clients ServerConfig_default) (ca_max_clients args);
  sc_worker_threads := default 0 (ca_io_threads args);
|}.

(** Whether the host lets [main] bind its address, ask for it back and install the
    signal handlers, whether the sweeper thread starts, and whether [run_listener] ends
    without an error. *)
Record Host := { h_bind : bool; h_local_addr : bool; h_signals : bool; h_sweeper : bool; h_server : bool }.
Definition willing : Host := {| h_bind := true; h_local_addr := true; h_signals := true; h_sweeper := true; h_server := true |}.

(** What [main] comes to: an exit, or a server with its dashboard and then an exit;
    [None] is one that does not come before a signal. *)
Inductive Started :=
| Exit (code : ExitCode)
| Served (e : Engine) (config : ServerConfig) (dashboard : option (bytes * option bytes)) (code : option ExitCode).

(** The end of [main]: [run_listener] returns without an error once the shutdown flag is
    set, and then the sweeper stops; after an error the flag is not set, and joining the
    sweeper waits until a signal sets it ([Process.boot_exit_code]). *)
Definition exit_code (host : Host) : option ExitCode :=
  if h_server host then Some SUCCESS else if h_sweeper host then None else Some FAILURE.

(** [main]; [read] answers the read of the configuration file; [None] as for [build_engine]. *)
Definition main (host : Host) (read : bytes → result bytes bytes) (argv : list bytes) (io : ReplayIo)
    (open_error : option bytes) (envs : Z → Env) (c : Clock) (disk : list Disk) (fs : Files)
    : option (Started * Files) :=
  match cli_parse read argv with
  | Ok Help => Some (Exit SUCCESS, fs)
  | Err _ => Some (Exit (Code 2), fs)
  | Ok (Run args) =>
      match build_engine io open_error envs c disk (aof_config args) fs with
      | None => None
      | Some (Err code, fs) => Some (Exit code, fs)
      | Some (Ok engine, fs) =>
          match set_eviction_config (eviction_config args) engine with
          | (Err _, _) => Some (Exit FAILURE, fs)
          | (Ok _, engine) =>
              let '(r, engine) :=
                match ca_requirepass args with
                | Some pw => set_requirepass (Some pw) engine
                | None => (Ok tt, engine)
                end in
              match r with
              | Err _ => Some (Exit FAILURE, fs)
              | Ok _ =>
                  if negb (h_bind host) then Some (Exit FAILURE, fs)
                  else if negb (h_local_addr host) then Some (Exit FAILURE, fs)
                  else if negb (h_signals host) then Some (Exit FAILURE, fs)
                  else
                    Some (Served engine (server_config args)
                            ((λ addr, (addr, ca_dashboard_token args)) <$> dashboard_addr args)
                            (exit_code host), fs)
              end
          end
      end
  end.

(** The settings are in force before the first connection: the limit, and the
    password unless it is empty. *)
Lemma main_serves read argv io open_error envs c disk fs args e fs' :
  cli_parse read argv = Ok (Run args) →
  build_engine io open_error envs c disk (aof_config args) fs = Some (Ok e, fs') →
  ∃ e', main willing read argv io open_error envs c disk fs
        = Some (Served e' (server_config args)
                  ((λ addr, (addr, ca_dashboard_token args)) <$> dashboard_addr args) (Some SUCCESS), fs') ∧
    e_store e' = e_store e ∧ e_aof e' = e_aof e ∧ e_eviction e' = eviction_config args ∧
    (∀ pw, ca_requirepass args = Some pw → pw ≠ [] →
       e_auth_required e' = true ∧ e_auth_password e' = Some pw).
Proof.
  intros Hp Hb. unfold main. rewrite Hp, Hb. unfold set_eviction_config, modify.
  set (e1 := (if _ =? _ then _ else _)).
  assert (He1 : e_store e1 = e_store e ∧ e_aof e1 = e_aof e).
  { unfold e1. by repeat case_match. }
  destruct He1 as [H1 H2]. destruct (ca_requirepass args) as [pw|].
  - eexists. split; [reflexivity|]. split_and!; [exact H1|exact H2|done|].
    intros pw' [= <-] Hne. by destruct pw.
  - eexists. split; [reflexivity|]. by split_and!.
Qed.

End startup.
