(* ===== verification/Server.v ===== *)
(** * Command execution and replies (src/src/network/server.rs)

    [execute_command] and everything it renders: replies in both protocol
    versions, [INFO], [CONFIG], [SLOWLOG], [HELLO], [AUTH] and errors. The
    reply buffer is the second component of the state; [None] is a panic. *)
From S2P Require Import Prelude Numeric Text Error Floats Encoder Command IndexMap Eviction Entry Sieve AdaptiveClimb Glob Aof ConfigFile Engine WriteGuard Commands EngineInv.
From Stdlib Require Import ZArith Lia Strings.Byte SpecFloat.
From stdpp Require Import gmap strings numbers list.
Local Open Scope Z_scope.

(** [ProtocolVersion] *)
Inductive ProtocolVersion := Resp2 | Resp3.

#[export] Instance ProtocolVersion_eq_dec : EqDecision ProtocolVersion.
Proof. solve_decision. Defined.

(** What the outside supplies to one command: the engine's clock readings, the
    epoch readings of the server itself, the measured duration, the outcome of
    starting the rewrite thread and the text of a failed task. *)
Record CmdEnv := {
  ce_env : Env;
  ce_monitor : Clock;
  ce_expire : Clock;
  ce_elapsed_us : Z;
  ce_late : Clock;
  ce_spawn_error : option bytes;
  ce_join_error : bytes;
}.

(** [env!("CARGO_PKG_VERSION")] *)
Definition PKG_VERSION : bytes := str "0.6.0".

Definition NO_PEER : bytes := str "0.0.0.0:0".

(** ** Errors and booleans *)

(** [write_ferrum_error] *)
Definition write_ferrum_error (out : bytes) (err : FerrumError) : bytes :=
  let prefix := match err with OutOfMemory => str "OOM" | _ => str "ERR" end in
  let detail := map (λ b, if bool_decide (b = x0d) || bool_decide (b = x0a) then x20 else b)
                  (display err) in
  encode_error out (prefix ++ str " " ++ detail).

(** The closures [enc_null] and [enc_bool] of [execute_command]. *)
Definition enc_null (v : ProtocolVersion) (out : bytes) : bytes :=
  match v with Resp2 => encode_null_bulk out | Resp3 => encode_null out end.
Definition enc_bool (v : ProtocolVersion) (out : bytes) (b : bool) : bytes :=
  match v with Resp2 => encode_integer out (Z.b2z b) | Resp3 => encode_boolean out b end.

(** [write_bool_integer] *)
Definition write_bool_integer (out : bytes) (reply : res bool) (v : ProtocolVersion) : bytes :=
  match reply with
  | Ok b => enc_bool v out b
  | Err e => write_ferrum_error out e
  end.

(** Name and value as two bulk strings. *)
Definition encode_pair (out : bytes) (p : bytes * bytes) : bytes :=
  encode_bulk_string (encode_bulk_string out p.1) p.2.

(** ** [HELLO] *)

(** [hello_reply] *)
Definition hello_reply (out : bytes) (v : ProtocolVersion) : bytes :=
  let out := match v with Resp2 => encode_array_header out 8 | Resp3 => encode_map_header out 4 end in
  let out := encode_pair out (str "server", str "ferrum") in
  let out := encode_pair out (str "version", PKG_VERSION) in
  let out := encode_bulk_string out (str "proto") in
  let out := encode_integer out (match v with Resp2 => 2 | Resp3 => 3 end) in
  encode_pair out (str "mode", str "standalone").

Section server.
Context `{IndexMap} `{HashIter}.

(** ** [SLOWLOG] *)

(** [encode_slowlog_entries] *)
Definition encode_slowlog_entry (out : bytes) (e : SlowLogEntry) : bytes :=
  let out := encode_array_header out 6 in
  let out := encode_integer out (as_i64 (sl_id e)) in
  let out := encode_integer out (as_i64 (sl_ts_secs e)) in
  let out := encode_integer out (as_i64 (sl_duration_us e)) in
  let out := encode_array_header out (blen (sl_args e)) in
  let out := fold_left encode_bulk_string (sl_args e) out in
  let out := encode_bulk_string out (sl_peer e) in
  encode_bulk_string out [].
Definition encode_slowlog_entries (out : bytes) (entries : list SlowLogEntry) : bytes :=
  fold_left encode_slowlog_entry entries (encode_array_header out (blen entries)).

(** ** [INFO] *)

(** A [name:value] line. *)
Definition info_line (name : string) (value : bytes) : bytes := str name ++ str ":" ++ value ++ CRLF.

Definition info_memory (e : Engine) : bytes :=
  let cfg := e_eviction e in
  str "# Memory" ++ CRLF
  ++ info_line "used_memory" (to_string_u (e_used_memory e))
  ++ info_line "maxmemory" (to_string_u (max_memory cfg))
  ++ info_line "maxmemory_policy" (policy_name (policy cfg))
  ++ info_line "maxmemory_samples" (to_string_u (samples cfg))
  ++ info_line "used_memory_policy_indexes" (to_string_u (policy_index_memory e))
  ++ info_line "ahe_alpha" (F64.fixed 3 (alpha (e_ahe e)))
  ++ info_line "ahe_last_hit_ratio" (F64.fixed 3 (last_hit_ratio (e_ahe e)))
  ++ CRLF.

Definition info_stats (e : Engine) : bytes :=
  str "# Stats" ++ CRLF
  ++ info_line "total_commands_processed" (to_string_u (e_total_commands e))
  ++ info_line "keyspace_hits" (to_string_u (e_hits e))
  ++ info_line "keyspace_misses" (to_string_u (e_misses e))
  ++ info_line "evicted_keys" (to_string_u (e_evicted_keys e))
  ++ info_line "expired_keys" (to_string_u (e_expired_keys e))
  ++ info_line "aof_write_errors" (to_string_u (e_aof_errors e))
  ++ info_line "aof_fsyncs" (to_string_u (aof_fsync_count e))
  ++ info_line "aof_fsync_skips" (to_string_u (aof_fsync_skips e))
  ++ info_line "aof_append_batches" (to_string_u (aof_append_batches e))
  ++ CRLF.

Definition info_keyspace (env : Env) (e : Engine) : bytes :=
  let keys := match (dbsize env e).1 with Ok n => n | Err _ => 0 end in
  str "# Keyspace" ++ CRLF
  ++ (if 0 <? keys then
        let '(expires, avg_ttl) := match (expire_stats env e).1 with Ok p => p | Err _ => (0, 0) end in
        str "db0:keys=" ++ to_string_u keys ++ str ",expires=" ++ to_string_u expires
          ++ str ",avg_ttl=" ++ to_string_u avg_ttl ++ CRLF
      else [])
  ++ CRLF.

(** [render_info_sections] *)
Definition render_info_sections (env : Env) (e : Engine) (section : option bytes)
    : list (bytes * bytes) :=
  let wants name := match section with None => true | Some s => eq_ignore_ascii_case s (str name) end in
  (if wants "server" then
     [(str "server", str "# Server" ++ CRLF ++ str "ferrum_version:" ++ PKG_VERSION ++ CRLF ++ CRLF)]
   else []) ++
  (if wants "memory" then [(str "memory", info_memory e)] else []) ++
  (if wants "stats" then [(str "stats", info_stats e)] else []) ++
  (if wants "keyspace" then [(str "keyspace", info_keyspace env e)] else []).

(** The [INFO] arm of [execute_command]. *)
Definition info_reply (env : Env) (e : Engine) (section : option bytes) (v : ProtocolVersion)
    (out : bytes) : bytes :=
  let sections := render_info_sections env e section in
  match v with
  | Resp2 => encode_bulk_string out (concat (map snd sections))
  | Resp3 => fold_left encode_pair sections (encode_map_header out (blen sections))
  end.

(** ** [CONFIG] *)

(** The parameters [config_get] exposes, the password masked. *)
Definition config_pairs (e : Engine) : list (bytes * bytes) :=
  let cfg := e_eviction e in
  [ (str "maxmemory", to_string_u (max_memory cfg));
    (str "maxmemory-policy", policy_name (policy cfg));
    (str "maxmemory-samples", to_string_u (samples cfg));
    (str "requirepass", match e_auth_password e with Some _ => str "(redacted)" | None => [] end);
    (str "slowlog-log-slower-than", to_string_i (e_slowlog_slower_than_us e));
    (str "slowlog-max-len", to_string_u (e_slowlog_max_len e)) ].

Definition config_header (v : ProtocolVersion) (out : bytes) (pairs : Z) : bytes :=
  match v with Resp2 => encode_array_header out (pairs * 2) | Resp3 => encode_map_header out pairs end.

(** [config_get] *)
Definition config_get (e : Engine) (pattern : bytes) (v : ProtocolVersion) (out : bytes) : bytes :=
  let pairs := config_pairs e in
  if eq_ignore_ascii_case pattern (str "*") then
    fold_left encode_pair pairs (config_header v out (blen pairs))
  else if negb (utf8_valid pattern) then config_header v out 0
  else match List.find (λ p, eq_ignore_ascii_case p.1 pattern) pairs with
       | Some p => encode_pair (config_header v out 1) p
       | None => config_header v out 0
       end.

Definition set_policy (p : EvictionPolicy) (c : EvictionConfig) : EvictionConfig :=
  {| max_memory := max_memory c; policy := p; samples := samples c |}.
Definition set_max_memory (m : Z) (c : EvictionConfig) : EvictionConfig :=
  {| max_memory := m; policy := policy c; samples := samples c |}.
Definition set_samples (s : Z) (c : EvictionConfig) : EvictionConfig :=
  {| max_memory := max_memory c; policy := policy c; samples := s |}.

Abbreviation Srv := (Engine * bytes)%type.

Definition say (f : bytes → bytes) : Srv → Srv := λ '(e, out), (e, f out).
Definition fail (msg : bytes) : Srv → Srv := say (λ out, encode_error out msg).
Definition ok : Srv → Srv := say (λ out, encode_simple_string out (str "OK")).

(** Runs an engine operation and renders its result. *)
Definition call {A} (m : SE Engine FerrumError A) (render : A → bytes → bytes) : Srv → Srv :=
  λ '(e, out),
    let '(r, e') := m e in
    (e', match r with Ok a => render a out | Err x => write_ferrum_error out x end).

Definition say_ok {A} (_ : A) (out : bytes) : bytes := encode_simple_string out (str "OK").
Definition say_int (n : Z) (out : bytes) : bytes := encode_integer out n.
Definition say_size (n : Z) (out : bytes) : bytes := encode_integer out (as_i64 n).

(** The eviction parameters of [config_set]: the new configuration, or the
    error it replies with. *)
Definition config_set_eviction (name value : bytes) (cfg : EvictionConfig)
    : option (result bytes EvictionConfig) :=
  if bytes_eqb name (str "maxmemory") then
    Some (match parse_bytes value (str "maxmemory") with
          | Ok b => Ok (set_max_memory b cfg)
          | Err msg => Err (str "ERR " ++ msg)
          end)
  else if bytes_eqb name (str "maxmemory-policy") then
    Some (match from_name (map to_lower value) with
          | Some p => Ok (set_policy p cfg)
          | None => Err (str "ERR Invalid argument '" ++ value
                         ++ str "' for CONFIG SET 'maxmemory-policy'")
          end)
  else if bytes_eqb name (str "maxmemory-samples") then
    Some (match parse_usize (trim value) with
          | Some s =>
              if 0 <? s then Ok (set_samples s cfg)
              else Err (str "ERR Invalid argument for CONFIG SET 'maxmemory-samples' (must be > 0)")
          | None =>
              Err (str "ERR Invalid argument for CONFIG SET 'maxmemory-samples' (not an integer)")
          end)
  else None.

(** [config_set] *)
Definition config_set (param value : bytes) : Srv → Srv := λ s,
  if negb (utf8_valid param) then fail (str "ERR Unknown parameter (non-UTF8 parameter name)") s
  else if negb (utf8_valid value) then fail (str "ERR Invalid argument (non-UTF8 value)") s
  else
    let name := map to_lower param in
    if bytes_eqb name (str "requirepass") then call (set_requirepass (Some value)) say_ok s
    else match config_set_eviction name value (e_eviction s.1) with
    | Some (Ok cfg) => call (set_eviction_config cfg) say_ok s
    | Some (Err msg) => fail msg s
    | None =>
        if bytes_eqb name (str "slowlog-log-slower-than") then
          match parse_i64 (trim value) with
          | Some v => ok (set_slowlog_slower_than_us v s.1, s.2)
          | None =>
              fail (str "ERR Invalid argument for CONFIG SET 'slowlog-log-slower-than' (not an integer)") s
          end
        else if bytes_eqb name (str "slowlog-max-len") then
          match parse_u64 (trim value) with
          | Some v =>
              if 0 <? v then ok (set_slowlog_max_len v s.1, s.2)
              else fail (str "ERR Invalid argument for CONFIG SET 'slowlog-max-len' (must be > 0)") s
          | None =>
              fail (str "ERR Invalid argument for CONFIG SET 'slowlog-max-len' (not an integer)") s
          end
        else fail (str "ERR Unknown parameter '" ++ name ++ str "'") s
    end.

(** ** [AUTH] and [EXPIRE] *)

(** [auth_reply] *)
Definition auth_reply (e : Engine) (password : bytes) (out : bytes) : bool * bytes :=
  match authenticate password e with
  | Ok true => (true, encode_simple_string out (str "OK"))
  | Ok false =>
      (false, encode_error out (str "WRONGPASS invalid username-password pair or user is disabled."))
  | Err x => (false, write_ferrum_error out x)
  end.

(** [checked_seconds_to_ms] *)
Definition checked_seconds_to_ms (seconds : Z) : option Z := checked_i64 (seconds * 1000).

(** [expire_reply] *)
Definition expire_reply (ce : CmdEnv) (key : bytes) (delta_ms : option Z)
    : SE Engine FerrumError bool :=
  let now_ms := current_epoch_ms (ce_expire ce) in
  let abs_ms := match delta_ms with Some d => sat_add_i64 now_ms d | None => now_ms end in
  expire_at_ms (ce_env ce) key abs_ms.

(** ** [execute_command] *)

(** How an arm of the dispatch ends: with its effect, by returning from
    [execute_command] at once, or by a panic. *)
Inductive Arm := Next (s : Srv) | Return (s : Srv) | Panic.

Definition ttl_reply (round_up : bool) (t : TtlStatus) (out : bytes) : bytes :=
  match t with
  | Missing => encode_integer out (-2)
  | NoExpire => encode_integer out (-1)
  | Millis ms => encode_integer out (if round_up then Z.quot (as_i64 (ms + 999)) 1000 else ms)
  end.

Definition opt_bulk (v : ProtocolVersion) (o : option bytes) (out : bytes) : bytes :=
  match o with Some d => encode_bulk_string out d | None => enc_null v out end.

(** The [SLOWLOG] arm. *)
Definition slowlog_arm (sub : bytes) (args : list bytes) (s : Srv) : Arm :=
  if eq_ignore_ascii_case sub (str "GET") then
    match args with
    | [] => Next (say (λ out, encode_slowlog_entries out (slowlog_get None s.1)) s)
    | a :: _ =>
        match (if utf8_valid a then parse_usize (trim a) else None) with
        | Some n => Next (say (λ out, encode_slowlog_entries out (slowlog_get (Some n) s.1)) s)
        | None => Return (fail (str "ERR value is not an integer or out of range") s)
        end
    end
  else if eq_ignore_ascii_case sub (str "LEN") then
    Next (say (say_size (slowlog_len s.1)) s)
  else if eq_ignore_ascii_case sub (str "RESET") then Next (call slowlog_reset say_ok s)
  else Next (fail (str "ERR unknown slowlog subcommand") s).

(** The [CONFIG] arm; indexing [args] panics when an element is missing. *)
Definition config_arm (sub : bytes) (args : list bytes) (v : ProtocolVersion) (s : Srv) : Arm :=
  if eq_ignore_ascii_case sub (str "GET") then
    match args with
    | p :: _ => Next (say (config_get s.1 p v) s)
    | [] => Panic
    end
  else if eq_ignore_ascii_case sub (str "SET") then
    match args with
    | p :: x :: _ => Next (config_set p x s)
    | _ => Panic
    end
  else Next (fail (str "ERR unknown config subcommand") s).

(** The [match] of [execute_command]. *)
Definition dispatch (ce : CmdEnv) (v : ProtocolVersion) (cmd : Command) (s : Srv) : Arm :=
  let env := ce_env ce in
  match cmd with
  | CSet k x => Next (call (set env k x) say_ok s)
  | CSetNx k x => Next (call (set_nx env k x) (λ b out, enc_bool v out b) s)
  | CMSet ps => Next (call (mset env ps) say_ok s)
  | CMGet ks =>
      Next (call (mget env ks) (λ values out,
        fold_left (λ out o, opt_bulk v o out) values (encode_array_header out (blen values))) s)
  | CIncrBy k d => Next (call (incr_by env k d) say_int s)
  | CIncrByFloat k d =>
      Next (call (incr_by_float env k d) (λ n out,
        match v with
        | Resp2 => encode_bulk_string out (F64.to_string n)
        | Resp3 => encode_double out n
        end) s)
  | CGet k => Next (call (get env k) (opt_bulk v) s)
  | CDel ks => Next (call (del_many env ks) say_size s)
  | CExists ks => Next (call (exists_many env ks) say_size s)
  | CPing None => Next (say (λ out, encode_simple_string out (str "PONG")) s)
  | CPing (Some m) => Next (say (λ out, encode_bulk_string out m) s)
  | CAppend k x => Next (call (append env k x) say_size s)
  | CStrLen k => Next (call (strlen env k) say_size s)
  | CDbSize => Next (call (dbsize env) say_size s)
  | CFlushDb => Next (call (flushdb env) say_ok s)
  | CExpire k secs =>
      Next (call (expire_reply ce k (checked_seconds_to_ms secs)) (λ b out, enc_bool v out b) s)
  | CPExpire k ms => Next (call (expire_reply ce k (Some ms)) (λ b out, enc_bool v out b) s)
  | CPExpireAt k ms => Next (call (expire_at_ms env k ms) (λ b out, enc_bool v out b) s)
  | CPersist k => Next (call (persist env k) (λ b out, enc_bool v out b) s)
  | CTtl k => Next (call (ttl_ms env k) (ttl_reply true) s)
  | CPTtl k => Next (call (ttl_ms env k) (ttl_reply false) s)
  | CMemoryUsage k =>
      Next (call (memory_usage env k) (λ o out,
        match o with Some b => say_size b out | None => enc_null v out end) s)
  | CInfo section => Next (say (info_reply env s.1 section v) s)
  | CConfig sub args => config_arm sub args v s
  | CSlowLog sub args => slowlog_arm sub args s
  | CAuth _ => Next (fail (str "ERR internal: AUTH handled by connection layer") s)
  | CRewriteAof => Next (call (rewrite_aof (ce_spawn_error ce)) say_ok s)
  | CMonitor => Next (fail (str "ERR internal: MONITOR handled by connection layer") s)
  | CHello _ => Next (fail (str "ERR internal: HELLO handled by connection layer") s)
  end.

Definition is_slowlog_meta (cmd : Command) : bool :=
  match cmd with CSlowLog _ _ | CRewriteAof => true | _ => false end.
Definition is_monitor_meta (cmd : Command) : bool :=
  match cmd with CSlowLog _ _ | CRewriteAof | CMonitor => true | _ => false end.

(** The counter and the broadcast to [MONITOR] clients before the dispatch. *)
Definition before_dispatch (ce : CmdEnv) (cmd : Command) (client : option bytes) (e : Engine)
    : Engine :=
  let e := set_total_commands (succ64 (e_total_commands e)) e in
  if negb (is_monitor_meta cmd) && has_subscribers e then
    (monitor_send {| mm_timestamp_ms := current_epoch_ms (ce_monitor ce);
                     mm_peer := default NO_PEER client;
                     mm_args := args_redacted cmd |} e).2
  else e.

(** The slow-log step after the dispatch; [armed] was sampled before it. *)
Definition after_dispatch (ce : CmdEnv) (cmd : Command) (client : option bytes) (armed : bool)
    (e : Engine) : Engine :=
  if negb (is_slowlog_meta cmd) && armed && slowlog_would_log (ce_elapsed_us ce) e then
    (maybe_push_slowlog (ce_late ce) (args_redacted cmd) client (ce_elapsed_us ce) e).2
  else e.

(** [execute_command] *)
Definition execute_command (ce : CmdEnv) (cmd : Command) (client : option bytes)
    (v : ProtocolVersion) (s : Srv) : option Srv :=
  let e := before_dispatch ce cmd client s.1 in
  let armed := slowlog_armed e in
  match dispatch ce v cmd (e, s.2) with
  | Next (e, out) => Some (after_dispatch ce cmd client armed e, out)
  | Return s => Some s
  | Panic => None
  end.

End server.

(** ** Replies are appended *)

(** A rendering step that only appends to the buffer it is given. *)
Definition appends (f : bytes → bytes) : Prop := ∀ out, f out = out ++ f [].

(** A rendering step that appends exactly one RESP value. *)
Definition one_reply (f : bytes → bytes) : Prop := ∃ w, resp w ∧ ∀ out, f out = out ++ w.

Lemma one_reply_appends f : one_reply f → appends f.
Proof. intros (w & _ & Hw) out. by rewrite (Hw []), (Hw out). Qed.

Lemma resp_simple_string t : no_crlf t → one_reply (λ out, encode_simple_string out t).
Proof. intros Ht. exists ([x2b] ++ t ++ CRLF). split; [|done]. by apply resp_line; [left|]. Qed.
Lemma resp_error t : no_crlf t → one_reply (λ out, encode_error out t).
Proof. intros Ht. exists ([x2d] ++ t ++ CRLF). split; [|done]. apply resp_line; [right; left|done]. Qed.
Lemma resp_integer n : one_reply (λ out, encode_integer out n).
Proof.
  exists ([x3a] ++ to_string_i n ++ CRLF). split; [|done].
  apply resp_line; [do 2 right; left|apply no_crlf_to_string_i].
Qed.
Lemma resp_bulk_string p : one_reply (λ out, encode_bulk_string out p).
Proof. exists (encode_bulk_string [] p). split; [apply resp_bulk|done]. Qed.

Lemma sanitised_no_crlf s :
  no_crlf (map (λ b, if bool_decide (b = x0d) || bool_decide (b = x0a) then x20 else b) s).
Proof.
  unfold no_crlf. rewrite Forall_fmap. apply Forall_true. intros b. simpl. by destruct b.
Qed.

Lemma resp_ferrum_error e : one_reply (λ out, write_ferrum_error out e).
Proof.
  unfold write_ferrum_error. apply resp_error. apply no_crlf_app; [by destruct e; apply no_crlfb_spec|].
  apply no_crlf_app; [by apply no_crlfb_spec|apply sanitised_no_crlf].
Qed.

Lemma resp_enc_null v : one_reply (enc_null v).
Proof.
  destruct v; [exists (encode_null_bulk [])|exists (encode_null [])]; (split; [|done]).
  - apply resp_null_bulk.
  - apply (resp_line x5f []); [do 3 right; left|constructor].
Qed.
Lemma resp_enc_bool v b : one_reply (λ out, enc_bool v out b).
Proof.
  destruct v; [apply resp_integer|]. exists (encode_boolean [] b). split; [|by destruct b].
  destruct b; [apply (resp_line x23 [x74])|apply (resp_line x23 [x66])];
    try (do 4 right; left); by constructor.
Qed.

(** Values rendered one after the other. *)
Definition replies (n : nat) (f : bytes → bytes) : Prop :=
  ∃ ws, length ws = n ∧ resp_all ws ∧ ∀ out, f out = out ++ concat ws.

Lemma resp_all_app ws vs : resp_all ws → resp_all vs → resp_all (ws ++ vs).
Proof. induction 1; simpl; [done|]. intros Hv. constructor; auto. Qed.

Lemma replies_nil : replies 0 (λ out, out).
Proof. exists []. split; [done|]. split; [constructor|]. intros out. simpl. by rewrite app_nil_r. Qed.

Lemma replies_one f : one_reply f → replies 1 f.
Proof.
  intros (w & Hw & Hf). exists [w]. split; [done|].
  split; [by repeat constructor|]. intros out. simpl. by rewrite app_nil_r.
Qed.

Lemma replies_seq n m f g : replies n f → replies m g → replies (n + m) (λ out, g (f out)).
Proof.
  intros (ws & Hn & Hws & Hf) (vs & Hm & Hvs & Hg). exists (ws ++ vs).
  split; [rewrite length_app; lia|]. split; [by apply resp_all_app|].
  intros out. by rewrite Hg, Hf, concat_app, app_assoc.
Qed.

Lemma replies_fold {A} n (f : bytes → A → bytes) (l : list A) :
  (∀ x, replies n (λ out, f out x)) → replies (length l * n) (fold_left f l).
Proof.
  intros Hf. induction l as [|x l IH]; [apply replies_nil|].
  simpl. by apply (replies_seq n (length l * n) (λ out, f out x) (fold_left f l)).
Qed.

Lemma resp_array_reply n f :
  replies n f → one_reply (λ out, f (encode_array_header out (Z.of_nat n))).
Proof.
  intros (ws & Hn & Hws & Hf). exists (encode_array_header [] (blen ws) ++ concat ws).
  split; [by apply resp_array|]. intros out. rewrite Hf. unfold encode_array_header, blen.
  by rewrite Hn, <- !app_assoc.
Qed.

Lemma resp_map_reply n f :
  replies (n * 2) f → one_reply (λ out, f (encode_map_header out (Z.of_nat n))).
Proof.
  intros (ws & Hn & Hws & Hf). exists (encode_map_header [] (Z.of_nat n) ++ concat ws).
  split; [apply resp_map; [done|unfold blen; lia]|]. intros out. rewrite Hf.
  unfold encode_map_header. by rewrite <- !app_assoc.
Qed.

Lemma replies_bulk p : replies 1 (λ out, encode_bulk_string out p).
Proof. apply replies_one, resp_bulk_string. Qed.
Lemma replies_int n : replies 1 (λ out, encode_integer out n).
Proof. apply replies_one, resp_integer. Qed.
Lemma replies_pair p : replies 2 (λ out, encode_pair out p).
Proof.
  apply (replies_seq 1 1 (λ out, encode_bulk_string out p.1) (λ out, encode_bulk_string out p.2));
    apply replies_bulk.
Qed.

(** Peels the last rendering step off a chain of them. *)
Ltac replies_chain :=
  repeat first
    [ apply replies_nil | apply replies_bulk | apply replies_int | apply replies_pair
    | match goal with
      | |- replies _ (λ out, encode_bulk_string (@?f out) ?p) =>
          eapply (replies_seq _ 1 f (λ out, encode_bulk_string out p)); [|apply replies_bulk]
      | |- replies _ (λ out, encode_integer (@?f out) ?p) =>
          eapply (replies_seq _ 1 f (λ out, encode_integer out p)); [|apply replies_int]
      | |- replies _ (λ out, encode_pair (@?f out) ?p) =>
          eapply (replies_seq _ 2 f (λ out, encode_pair out p)); [|apply replies_pair]
      end ].

Lemma resp_hello v : one_reply (λ out, hello_reply out v).
Proof.
  assert (Hbody : ∀ n, replies 8 (λ out, encode_pair (encode_integer (encode_bulk_string
    (encode_pair (encode_pair out (str "server", str "ferrum")) (str "version", PKG_VERSION))
    (str "proto")) n) (str "mode", str "standalone"))).
  { intros n. change 8%nat with (2 + 2 + 1 + 1 + 2)%nat. replies_chain. }
  destruct v; [exact (resp_array_reply 8 _ (Hbody 2))|exact (resp_map_reply 4 _ (Hbody 3))].
Qed.

Lemma resp_slowlog_entry e : one_reply (λ out, encode_slowlog_entry out e).
Proof.
  set (f1 := λ out, encode_integer (encode_integer (encode_integer out (as_i64 (sl_id e)))
    (as_i64 (sl_ts_secs e))) (as_i64 (sl_duration_us e))).
  set (f2 := λ out, fold_left encode_bulk_string (sl_args e)
    (encode_array_header out (blen (sl_args e)))).
  assert (H1 : replies (1 + 1 + 1) f1) by (unfold f1; replies_chain).
  assert (H2 : replies 1 f2).
  { apply replies_one. unfold f2, blen. apply resp_array_reply.
    rewrite <- (Nat.mul_1_r (length _)). apply replies_fold. intros a. apply replies_bulk. }
  pose proof (replies_seq _ _ _ _ (replies_seq _ _ _ _ (replies_seq _ _ _ _ H1 H2)
    (replies_bulk (sl_peer e))) (replies_bulk [])) as H3.
  exact (resp_array_reply 6 _ H3).
Qed.

Lemma resp_slowlog_entries l : one_reply (λ out, encode_slowlog_entries out l).
Proof.
  unfold encode_slowlog_entries, blen. apply resp_array_reply.
  rewrite <- (Nat.mul_1_r (length _)). apply replies_fold. intros e.
  apply replies_one, resp_slowlog_entry.
Qed.

Lemma replies_pairs l : replies (length l * 2) (fold_left encode_pair l).
Proof. apply replies_fold. intros p. apply replies_pair. Qed.

(** ** Doubles *)

Lemma no_crlf_dec_digits fuel n : no_crlf (dec_digits fuel n).
Proof.
  revert n. induction fuel as [|fuel IH]; intros n; [constructor|]. simpl.
  apply no_crlf_app; [by destruct (n <? 10); [constructor|]|].
  constructor; [|constructor]. pose proof (Z.mod_pos_bound n 10 eq_refl).
  unfold digit. assert (Hd : ∀ b, 48 ≤ b2z b ≤ 57 → b ≠ x0d ∧ b ≠ x0a) 
    by (intros b Hb; split; intros ->; vm_compute in Hb; by destruct Hb).
  apply Hd. rewrite b2z_z2b by lia. lia.
Qed.

Lemma no_crlf_printed n : no_crlf (to_string_u n).
Proof. apply no_crlf_dec_digits. Qed.

Lemma no_crlf_zeros n : no_crlf (F64.zeros n).
Proof. unfold F64.zeros. induction (Z.to_nat n); simpl; by constructor. Qed.

Lemma no_crlf_fixed d x : no_crlf (F64.fixed d x).
Proof.
  assert (Hs : ∀ b : bool, no_crlf (if b then str "-" else [])) by (intros []; by apply no_crlfb_spec).
  destruct x; unfold F64.fixed; cbv zeta;
    repeat first [apply Hs|by apply no_crlfb_spec|apply no_crlf_zeros|apply no_crlf_printed|apply no_crlf_app].
Qed.

Lemma no_crlf_trim_end_zeros s : no_crlf s → no_crlf (trim_end_zeros s).
Proof.
  intros Hs. unfold trim_end_zeros, no_crlf. apply Forall_rev.
  apply Forall_rev in Hs. induction Hs as [|c r Hc Hr IH]; simpl; [constructor|].
  destruct (decide (c = x30)); [done|by constructor].
Qed.

Lemma resp_double x : one_reply (λ out, encode_double out x).
Proof.
  set (s := trim_end_zeros (F64.fixed17 x)).
  exists (x2c :: (s ++ (if decide (list.last (x2c :: s) = Some x2e) then [x30] else [])) ++ CRLF).
  split.
  - apply resp_line; [do 5 right; left|]. apply no_crlf_app.
    + apply no_crlf_trim_end_zeros, no_crlf_fixed.
    + destruct (decide _); [by apply no_crlfb_spec|constructor].
  - intros out. unfold encode_double. fold s. rewrite <- (app_assoc out [x2c] s).
    change ([x2c] ++ s) with (x2c :: s). rewrite last_app_cons.
    destruct (decide _); rewrite ?app_nil_r; by rewrite <- ?app_assoc.
Qed.

Section replies.
Context `{IndexMap} `{HashIter}.

Abbreviation Srv := (Engine * bytes)%type.

Lemma resp_info env e section v : one_reply (info_reply env e section v).
Proof.
  unfold info_reply. destruct v; [apply resp_bulk_string|].
  unfold blen. apply resp_map_reply, replies_pairs.
Qed.

Lemma resp_config_header v l :
  one_reply (λ out, fold_left encode_pair l (config_header v out (blen l))).
Proof.
  destruct v; unfold config_header, blen.
  - replace (Z.of_nat (length l) * 2) with (Z.of_nat (length l * 2)) by lia.
    apply resp_array_reply, replies_pairs.
  - apply resp_map_reply, replies_pairs.
Qed.

Lemma resp_config_get e pattern v : one_reply (config_get e pattern v).
Proof.
  unfold config_get. destruct (eq_ignore_ascii_case _ _); [apply resp_config_header|].
  destruct (negb _); [apply (resp_config_header v [])|].
  destruct (List.find _ _) as [p|]; [apply (resp_config_header v [p])|apply (resp_config_header v [])].
Qed.

(** ** One reply per command *)

Lemma no_crlf_lower s : no_crlf s → no_crlf (map to_lower s).
Proof.
  unfold no_crlf. rewrite Forall_fmap. intros Hs. eapply Forall_impl; [exact Hs|].
  intros b [H1 H2]. simpl. by destruct b.
Qed.

(** Texts put together from literals and pieces known to be single-line. *)
Ltac no_crlf_text :=
  repeat first [assumption|by apply no_crlfb_spec|by apply no_crlf_lower|apply no_crlf_app
               |apply Forall_cons_2; [by split|]].

Lemma parse_bytes_err raw name m :
  no_crlf raw → no_crlf name → parse_bytes raw name = Err m → no_crlf m.
Proof.
  intros Hr Hn. unfold parse_bytes. destruct (split_size _ _) as [num factor].
  destruct (parse_u64 _); [destruct (_ <=? _); [done|]|]; intros [= <-];
    no_crlf_text.
Qed.

Lemma config_set_eviction_err name value cfg msg :
  no_crlf value → config_set_eviction name value cfg = Some (Err msg) → no_crlf msg.
Proof.
  intros Hv. unfold config_set_eviction. destruct (bytes_eqb name (str "maxmemory")).
  { destruct (parse_bytes _ _) eqn:E; intros [= <-].
    apply parse_bytes_err in E; [|done|by apply no_crlfb_spec]. no_crlf_text. }
  repeat case_match; intros; simplify_eq;
    no_crlf_text.
Qed.

(** A step that ends in some engine and renders its answer in a way that
    satisfies [Q], whatever the buffer holds. *)
Definition answers (Q : (bytes → bytes) → Prop) (g : Srv → Arm) : Prop := ∀ e, ∃ e' f (b : bool),
  Q f ∧ ∀ out, g (e, out) = (if b then Next (e', f out) else Return (e', f out)).

Section answers.
Context (Q : (bytes → bytes) → Prop) (HQ : ∀ f, one_reply f → Q f).

Lemma answers_next (g : Srv → Srv) :
  (∀ e, ∃ e' f, Q f ∧ ∀ out, g (e, out) = (e', f out)) → answers Q (λ s, Next (g s)).
Proof using Type.
  intros Hg e. destruct (Hg e) as (e' & f & Hf & He). exists e', f, true.
  split; [done|]. intros out. by rewrite He.
Qed.

Lemma answers_call {A} (m : SE Engine FerrumError A) render :
  (∀ a, one_reply (render a)) → answers Q (λ s, Next (call m render s)).
Proof using HQ.
  intros Hr. apply answers_next. intros e. unfold call. destruct (m e) as [[a|x] e'].
  - exists e', (render a). auto.
  - exists e', (λ out, write_ferrum_error out x). split; [apply HQ, resp_ferrum_error|done].
Qed.

Lemma answers_say (f : Engine → bytes → bytes) :
  (∀ e, one_reply (f e)) → answers Q (λ s, Next (say (f s.1) s)).
Proof using HQ. intros Hf. apply answers_next. intros e. exists e, (f e). auto. Qed.

Lemma answers_fail msg : Q (λ out, encode_error out msg) → answers Q (λ s, Next (fail msg s)).
Proof using Type. intros Hm. apply answers_next. intros e. by exists e, (λ out, encode_error out msg). Qed.

Lemma answers_literal msg : no_crlfb msg = true → answers Q (λ s, Next (fail msg s)).
Proof using HQ. intros Hm. apply answers_fail, HQ, resp_error. by apply no_crlfb_spec. Qed.

Lemma answers_ok (h : Engine → Engine) : answers Q (λ s, Next (ok (h s.1, s.2))).
Proof using HQ.
  apply answers_next. intros e. exists (h e), (λ out, encode_simple_string out (str "OK")).
  split; [apply HQ, resp_simple_string; by apply no_crlfb_spec|done].
Qed.

Lemma resp_say_ok {A} (a : A) : one_reply (say_ok a).
Proof using Type. apply resp_simple_string. by apply no_crlfb_spec. Qed.

(** [CONFIG SET] echoes its arguments in some errors. *)
Lemma answers_config_set p x :
  (∀ msg, (no_crlf p → no_crlf x → no_crlf msg) → Q (λ out, encode_error out msg)) →
  answers Q (λ s, Next (config_set p x s)).
Proof using HQ.
  intros Hmsg. unfold config_set.
  destruct (negb (utf8_valid p)); [by apply answers_literal|].
  destruct (negb (utf8_valid x)); [by apply answers_literal|].
  destruct (bytes_eqb _ (str "requirepass")); [apply answers_call, resp_say_ok|].
  intros e. cbn [fst]. destruct (config_set_eviction _ x (e_eviction e)) as [[cfg|msg]|] eqn:E.
  - apply (answers_call (set_eviction_config cfg)), resp_say_ok.
  - apply answers_fail, Hmsg. intros _ Hx. by eapply config_set_eviction_err.
  - destruct (bytes_eqb _ (str "slowlog-log-slower-than")).
    { destruct (parse_i64 _) as [z|]; [apply (answers_ok (set_slowlog_slower_than_us z))|].
      by apply answers_literal. }
    destruct (bytes_eqb _ (str "slowlog-max-len")).
    { destruct (parse_u64 _) as [z|]; [destruct (0 <? z); [apply (answers_ok (set_slowlog_max_len z))|]|];
        by apply answers_literal. }
    apply answers_fail, Hmsg. intros Hp _. no_crlf_text.
Qed.

Lemma answers_slowlog sub args : answers Q (slowlog_arm sub args).
Proof using HQ.
  unfold slowlog_arm. destruct (eq_ignore_ascii_case sub (str "GET")).
  - destruct args as [|a args];
      [apply (answers_say (λ e out, encode_slowlog_entries out (slowlog_get None e)));
       intros e; apply resp_slowlog_entries|].
    destruct (if utf8_valid a then _ else _) as [n|].
    + apply (answers_say (λ e out, encode_slowlog_entries out (slowlog_get (Some n) e))).
      intros e. apply resp_slowlog_entries.
    + intros e. exists e, (λ out, encode_error out (str "ERR value is not an integer or out of range")), false.
      split; [apply HQ, resp_error; by apply no_crlfb_spec|done].
  - destruct (eq_ignore_ascii_case sub (str "LEN")).
    { apply (answers_say (λ e, say_size (slowlog_len e))). intros e. apply resp_integer. }
    destruct (eq_ignore_ascii_case sub (str "RESET")); [|by apply answers_literal].
    apply answers_call, resp_say_ok.
Qed.

Lemma answers_config sub args v :
  (sub = str "GET" ∧ length args = 1%nat) ∨ (sub = str "SET" ∧ length args = 2%nat) →
  (∀ msg, (Forall no_crlf args → no_crlf msg) → Q (λ out, encode_error out msg)) →
  answers Q (config_arm sub args v).
Proof using HQ.
  intros [[-> Hl]|[-> Hl]] Hmsg; unfold config_arm.
  - destruct args as [|p [|? ?]]; try done.
    apply (answers_say (λ e out, config_get e p v out)). intros e. apply resp_config_get.
  - destruct args as [|p [|x [|? ?]]]; try done. apply answers_config_set.
    intros msg Hp. apply Hmsg. intros Hall. rewrite !Forall_cons in Hall.
    apply Hp; apply Hall.
Qed.

Lemma resp_opt_bulk v o : one_reply (opt_bulk v o).
Proof using Type. destruct o; [apply resp_bulk_string|apply resp_enc_null]. Qed.

Lemma resp_ttl b t : one_reply (ttl_reply b t).
Proof using Type. destruct t; apply resp_integer. Qed.

Lemma resp_mget v (values : list (option bytes)) :
  one_reply (λ out, fold_left (λ out o, opt_bulk v o out) values (encode_array_header out (blen values))).
Proof using Type.
  unfold blen. apply resp_array_reply. rewrite <- (Nat.mul_1_r (length values)) at 1.
  apply (replies_fold 1 (λ out o, opt_bulk v o out)). intros o. apply replies_one, resp_opt_bulk.
Qed.

Lemma dispatch_answers ce v cmd :
  wf_command cmd →
  (∀ msg, (match cmd with CConfig _ args => Forall no_crlf args | _ => True end → no_crlf msg) →
     Q (λ out, encode_error out msg)) →
  answers Q (dispatch ce v cmd).
Proof using HQ.
  intros Hwf Hmsg. destruct cmd; simpl in Hwf; unfold dispatch;
    try (apply answers_call; intros ?); try apply resp_say_ok; try apply resp_integer;
    try apply resp_enc_bool; try apply resp_ttl; try apply resp_opt_bulk;
    try (by apply answers_literal); try apply answers_slowlog.
  - apply resp_mget.
  - destruct v; [apply resp_bulk_string|apply resp_double].
  - destruct msg as [m|].
    + apply (answers_say (λ _ out, encode_bulk_string out m)). intros e. apply resp_bulk_string.
    + apply (answers_say (λ _ out, encode_simple_string out (str "PONG"))). intros e.
      apply resp_simple_string. by apply no_crlfb_spec.
  - destruct a as [b|]; [apply resp_integer|apply resp_enc_null].
  - apply (answers_say (λ e, info_reply (ce_env ce) e section v)). intros e. apply resp_info.
  - by apply answers_config.
Qed.

(** What one command does to the engine and appends to the buffer. *)
Lemma execute_answers ce cmd client v e :
  wf_command cmd →
  (∀ msg, (match cmd with CConfig _ args => Forall no_crlf args | _ => True end → no_crlf msg) →
     Q (λ out, encode_error out msg)) →
  ∃ e' f, Q f ∧ ∀ out, execute_command ce cmd client v (e, out) = Some (e', f out).
Proof using HQ.
  intros Hwf Hmsg. unfold execute_command. cbn [fst snd].
  destruct (dispatch_answers ce v cmd Hwf Hmsg (before_dispatch ce cmd client e)) as (e' & f & b & Hf & Hd).
  destruct b; [eexists (after_dispatch ce cmd client _ e')|exists e']; exists f; (split; [done|]);
    intros out; by rewrite Hd.
Qed.
End answers.
End replies.


(** An environment in which every clock reads [ms]. *)
Definition cmd_env_at (ms : Z) : CmdEnv := {|
  ce_env := env_at ms; ce_monitor := clock_at ms; ce_expire := clock_at ms;
  ce_elapsed_us := 0; ce_late := clock_at ms; ce_spawn_error := None; ce_join_error := [] |}.


(** An unknown parameter name with a line break in it makes the reply to one
    [CONFIG SET] two protocol lines, the second one chosen by the client. *)
Example config_set_splits_reply :
  option_map snd (execute_command (cmd_env_at 1)
    (CConfig (str "SET") [str "x" ++ CRLF ++ str "+OK"; str "v"]) None Resp2
    (engine_new (clock_at 0), []))
  = Some (str "-ERR Unknown parameter 'x" ++ CRLF ++ str "+ok'" ++ CRLF).
Proof. vm_compute. reflexivity. Qed.
