(* ===== verification/Reachable.v ===== *)
(** * The states a running server's engine can be in

    The engine is driven by the calls of its methods (start-up, the background
    threads and the dashboard make them) and by [execute_command]; the invariant
    of EngineInv holds in whatever state these lead to, as long as less than
    2^63 bytes are written. *)
From S2P Require Import Prelude Numeric Text Error Floats Encoder Command IndexMap Eviction Entry Sieve AdaptiveClimb Glob Aof ConfigFile Engine WriteGuard Commands Frames EngineInv Server.
From Stdlib Require Import ZArith Lia.
From stdpp Require Import gmap strings numbers list.
Local Open Scope Z_scope.

(** The bytes a command may add. *)
Definition command_cost (cmd : Command) : Z :=
  match cmd with
  | CSet k v | CSetNx k v => write_cost k (blen v)
  | CMSet ps => mset_cost ps
  | CIncrBy k _ => write_cost k 65
  | CIncrByFloat k _ => write_cost k F64_TEXT_MAX
  | CAppend k _ => write_cost k VALUE_MAX_BYTES
  | _ => 0
  end.

Lemma command_cost_nonneg cmd : 0 ≤ command_cost cmd.
Proof.
  destruct cmd; simpl; try done; try apply mset_cost_nonneg; apply write_cost_nonneg;
    try apply blen_nonneg; done.
Qed.

Section reachable.
Context `{IndexMap} `{HashIter}.

Abbreviation M := (SE Engine FerrumError).

(** The memory limit is an unsigned number. *)
Definition limit_typed (e : Engine) : Prop := 0 ≤ max_memory (e_eviction e).

#[local] Instance limit_stable : Stable limit_typed.
Proof. by split. Qed.
#[local] Instance limit_reads : StableReads limit_typed.
Proof. by split. Qed.

(** ** One arm of the dispatch *)

(** What an arm of cost [c] leaves. *)
Definition arm_keeps (c : Z) (g : Engine * bytes → Arm) : Prop := ∀ r (e : Engine) out, 0 ≤ r →
  engine_wf (r + c) e → limit_typed e →
  match g (e, out) with
  | Next (e', _) | Return (e', _) => engine_wf r e' ∧ limit_typed e'
  | Panic => True
  end.

Lemma arm_call {A} c (m : M A) render :
  spends (λ e : Engine, e) c m → preserves limit_typed m → arm_keeps c (λ s, Next (call m render s)).
Proof.
  intros Hm Hl r e out Hr Hwf Ht. unfold call. specialize (Hm r Hr e Hwf). specialize (Hl e Ht).
  by destruct (m e) as [[a|x] e'].
Qed.

Lemma arm_say f : arm_keeps 0 (λ s, Next (say (f s.1) s)).
Proof. intros r e out Hr Hwf Ht. rewrite Z.add_0_r in Hwf. done. Qed.

Lemma arm_frame (h : Engine → Engine) f :
  (∀ e : Engine, e_used_memory (h e) = e_used_memory e ∧ e_store (h e) = e_store e ∧
        e_sieve (h e) = e_sieve e ∧ e_ac (h e) = e_ac e ∧ e_ahe (h e) = e_ahe e ∧
        e_rng (h e) = e_rng e ∧ e_index_kind (h e) = e_index_kind e ∧
        e_eviction (h e) = e_eviction e ∧ e_hits (h e) = e_hits e ∧ e_misses (h e) = e_misses e) →
  arm_keeps 0 (λ s, Next (h s.1, f s.2)).
Proof.
  intros Hh r e out Hr Hwf Ht. cbn [fst snd]. split.
  - by apply (costs_frame h Hh r Hr e).
  - unfold limit_typed. destruct (Hh e) as (_ & _ & _ & _ & _ & _ & _ & -> & _). done.
Qed.

Lemma config_set_eviction_typed name value cfg cfg' :
  config_set_eviction name value cfg = Some (Ok cfg') → 0 ≤ max_memory cfg → 0 ≤ max_memory cfg'.
Proof.
  unfold config_set_eviction, parse_bytes. intros Hc Hm.
  destruct (bytes_eqb name _).
  { destruct (split_size _ _) as [num factor] eqn:Es. destruct (parse_u64 (trim num)) as [n|] eqn:En; [|done].
    destruct (n * factor <=? u64_max); [|done]. simplify_eq. simpl. apply parse_unsigned_range in En.
    assert (0 ≤ factor); [|nia].
    enough (∀ lower l, Forall (λ p : bytes * Z, 0 ≤ p.2) l → 0 ≤ (split_size lower l).2) as Hs
      by (specialize (Hs (map to_lower (trim value)) byte_suffixes); rewrite Es in Hs; apply Hs; by repeat constructor).
    intros lower l. induction 1 as [|[su fa] l Hf _ IH]; simpl; [lia|]. by case_match. }
  repeat case_match; by simplify_eq.
Qed.

Lemma arm_config sub args v : arm_keeps 0 (config_arm sub args v).
Proof.
  unfold config_arm. destruct (eq_ignore_ascii_case sub (str "GET")).
  { destruct args as [|p args]; [done|]. apply (arm_say (λ e, config_get e p v)). }
  destruct (eq_ignore_ascii_case sub (str "SET")); [|apply (arm_say (λ _ out, encode_error out _))].
  destruct args as [|p [|x args]]; [done|done|].
  assert (Hfail : ∀ msg, arm_keeps 0 (λ s, Next (fail msg s)))
    by (intros msg; apply (arm_say (λ _ out, encode_error out msg))).
  unfold config_set. destruct (negb (utf8_valid p)); [apply Hfail|].
  destruct (negb (utf8_valid x)); [apply Hfail|]. destruct (bytes_eqb _ (str "requirepass")).
  { apply arm_call; [by apply costs_frame|by apply preserves_modify]. }
  intros r e out Hr Hwf Ht. cbn [fst].
  destruct (config_set_eviction _ x (e_eviction e)) as [[cfg|msg]|] eqn:Ec.
  - unfold call. pose proof (costs_set_eviction_config cfg r Hr e Hwf) as Hw.
    destruct (set_eviction_config cfg e) as [a e'] eqn:E. split; [done|]. injection E as _ <-. unfold limit_typed. simpl.
    by eapply config_set_eviction_typed.
  - by apply Hfail.
  - destruct (bytes_eqb _ (str "slowlog-log-slower-than")).
    { destruct (parse_i64 _) as [z|]; [|by apply Hfail].
      apply (λ Hh, arm_frame (set_slowlog_slower_than_us z) (λ out, encode_simple_string out (str "OK")) Hh r e out Hr Hwf Ht). done. }
    destruct (bytes_eqb _ (str "slowlog-max-len")); [|by apply Hfail].
    destruct (parse_u64 _) as [z|]; [|by apply Hfail]. destruct (0 <? z); [|by apply Hfail].
    apply (λ Hh, arm_frame (set_slowlog_max_len z) (λ out, encode_simple_string out (str "OK")) Hh r e out Hr Hwf Ht).
      done.
Qed.

Lemma arm_slowlog sub args : arm_keeps 0 (slowlog_arm sub args).
Proof.
  assert (Hfail : ∀ msg, arm_keeps 0 (λ s, Next (fail msg s)))
    by (intros msg; apply (arm_say (λ _ out, encode_error out msg))).
  unfold slowlog_arm. destruct (eq_ignore_ascii_case sub (str "GET")).
  { destruct args as [|a args]; [apply (arm_say (λ e out, encode_slowlog_entries out (slowlog_get None e)))|].
    destruct (if utf8_valid a then _ else _) as [n|];
      [apply (arm_say (λ e out, encode_slowlog_entries out (slowlog_get (Some n) e)))|].
    intros r e out Hr Hwf Ht. rewrite Z.add_0_r in Hwf. done. }
  destruct (eq_ignore_ascii_case sub (str "LEN")); [apply (arm_say (λ e, say_size (slowlog_len e)))|].
  destruct (eq_ignore_ascii_case sub (str "RESET")); [|apply Hfail].
  apply arm_call; [by apply costs_frame|by apply preserves_modify].
Qed.

(** The commands that are one call of the engine. *)
Lemma guarded_costs env (k v : bytes) ps (ms : Z) :
  spends (λ e : Engine, e) (write_cost k (blen v)) (set env k v) ∧
  spends (λ e : Engine, e) (write_cost k (blen v)) (set_nx env k v) ∧
  spends (λ e : Engine, e) (mset_cost ps) (mset env ps) ∧
  spends (λ e : Engine, e) 0 (flushdb env) ∧ spends (λ e : Engine, e) 0 (persist env k) ∧
  spends (λ e : Engine, e) 0 (expire_at_ms env k ms).
Proof.
  split_and!; apply costs_with_guard;
    [apply gcosts_guard_insert|apply gcosts_insert_nx|apply gcosts_insert_many|apply gcosts_guard_clear
    |apply gcosts_guard_persist|apply gcosts_guard_expire_at].
Qed.

Lemma arm_dispatch ce v cmd : wf_command cmd → arm_keeps (command_cost cmd) (dispatch ce v cmd).
Proof.
  intros Hwf. pose proof (stable_others limit_typed (ce_env ce)) as Ho.
  pose proof (guarded_costs (ce_env ce)) as Hg.
  destruct cmd; simpl in Hwf; unfold dispatch, command_cost; try apply (arm_say (λ _ out, encode_error out _)).
  - apply arm_call; [by apply (Hg key value [] 0)|apply (stable_set limit_typed)].
  - apply arm_call; [by apply (Hg key value [] 0)|by apply (Ho key value [] [])].
  - apply arm_call; [by apply (Hg [] [] pairs 0)|by apply (Ho [] [] pairs [])].
  - apply arm_call; [apply costs_mget|apply (stable_mget limit_typed)].
  - apply arm_call; [apply costs_incr_by|apply (stable_incr_by limit_typed)].
  - apply arm_call; [by apply costs_incr_by_float|apply (stable_incr_by_float limit_typed)].
  - apply arm_call; [apply costs_get|apply (stable_get limit_typed)].
  - apply arm_call; [apply costs_del_many|by apply (Ho [] [] [] keys)].
  - apply arm_call; [apply costs_exists_many|apply (stable_exists_many limit_typed)].
  - destruct msg as [m|]; apply (arm_say (λ _ out, _)).
  - apply arm_call; [apply costs_append|apply (stable_append limit_typed)].
  - apply arm_call; [apply costs_strlen|by apply (Ho key [] [] [])].
  - apply arm_call; [by apply spends_gets|by intros e He].
  - apply arm_call; [by apply (Hg [] [] [] 0)|by apply (Ho [] [] [] [])].
  - apply arm_call; [by apply (Hg key [] [])|apply (stable_expire_at_ms limit_typed)].
  - apply arm_call; [by apply (Hg key [] [])|apply (stable_expire_at_ms limit_typed)].
  - apply arm_call; [by apply (Hg key [] [])|apply (stable_expire_at_ms limit_typed)].
  - apply arm_call; [by apply (Hg key [] [] 0)|by apply (Ho key [] [] [])].
  - apply arm_call; [apply costs_ttl_ms|by apply (Ho key [] [] [])].
  - apply arm_call; [apply costs_ttl_ms|by apply (Ho key [] [] [])].
  - apply arm_call; [apply costs_memory_usage|by apply (Ho key [] [] [])].
  - apply (arm_say (λ e, info_reply (ce_env ce) e section v)).
  - apply arm_config.
  - apply arm_slowlog.
  - apply arm_call; [apply costs_rewrite_aof|apply (stable_rewrite_aof limit_typed)].
Qed.

(** ** Reachable states *)

(** The engine after calls and commands that write at most [n] bytes in all. *)
Inductive served : Z → Engine → Prop :=
| served_new c w : served 0 (set_aof w (engine_new c))
| served_op n e env op :
    served n e → op_typed op →
    match op with OSetEvictionConfig cfg => 0 ≤ max_memory cfg | _ => True end →
    served (n + op_cost op) (run_op env op e).2
| served_command n e ce parts cmd client v out e' out' :
    served n e → build_command parts = Ok cmd →
    execute_command ce cmd client v (e, out) = Some (e', out') →
    served (n + command_cost cmd) e'.

Lemma before_dispatch_wf r ce cmd client e :
  engine_wf r e ∧ limit_typed e →
  engine_wf r (before_dispatch ce cmd client e) ∧ limit_typed (before_dispatch ce cmd client e).
Proof.
  intros [Hwf Ht]. unfold before_dispatch. destruct (_ && _); (split; [|exact Ht]); destruct Hwf; by split.
Qed.

Lemma after_dispatch_wf r ce cmd client b e :
  engine_wf r e ∧ limit_typed e →
  engine_wf r (after_dispatch ce cmd client b e) ∧ limit_typed (after_dispatch ce cmd client b e).
Proof.
  intros [Hwf Ht]. unfold after_dispatch. destruct (_ && _); [|done].
  unfold maybe_push_slowlog, modify. cbn [snd]. destruct (negb _); [done|]. split; [|exact Ht]. destruct Hwf. by split.
Qed.

Lemma limit_run_op env op :
  match op with OSetEvictionConfig cfg => 0 ≤ max_memory cfg | _ => True end →
  preserves limit_typed (run_op env op).
Proof.
  intros Hop. pose proof (stable_others limit_typed env) as Ho.
  assert (Hd : ∀ A (m : M A), preserves limit_typed m → preserves limit_typed (discard m))
    by (intros A m Hm; apply preserves_bind; [done|intros ?; apply preserves_ret]).
  assert (Hw : ∀ A (m : SE AofWriter FerrumError A) d, preserves limit_typed (on_writer m d)).
  { intros A m d e He. unfold on_writer. destruct (e_aof e) as [w|]; [|done]. by destruct (m w). }
  assert (Hg : ∀ A (f : Engine → A), preserves limit_typed (gets f : M A)) by (intros A f e He; exact He).
  destruct op; simpl; try apply Hd; try (by apply Hg).
  - apply (stable_set limit_typed).
  - by apply (Ho key value [] []).
  - by apply (Ho [] [] pairs []).
  - apply (stable_mget limit_typed).
  - apply (stable_incr_by limit_typed).
  - apply (stable_incr_by_float limit_typed).
  - apply (stable_get limit_typed).
  - by apply (Ho [] [] [] keys).
  - apply (stable_exists_many limit_typed).
  - apply (stable_append limit_typed).
  - by apply (Ho key [] [] []).
  - by apply (Ho [] [] [] []).
  - apply (stable_expire_at_ms limit_typed).
  - by apply (Ho key [] [] []).
  - by apply (Ho key [] [] []).
  - by apply (Ho key [] [] []).
  - apply (stable_sweep limit_typed).
  - by apply preserves_modify.
  - apply (stable_rewrite_aof limit_typed).
  - unfold perform_aof_rewrite, rewrite_capture, rewrite_install. frame.
Qed.

Lemma served_wf n e r : served n e → 0 ≤ r → r + n < i63 → engine_wf r e ∧ limit_typed e.
Proof.
  intros Hs. revert r. induction Hs as [c w|n e env op Hs IH Ht Hop|n e ce parts cmd client v out e' out' Hs IH Hb He];
    intros r Hr Hn.
  - split; [|done]. destruct (engine_new_wf c r) as []; [lia|]. by split.
  - pose proof (op_cost_nonneg op). destruct (IH (r + op_cost op)) as [Hw Hl]; [lia|lia|].
    split; [by apply costs_run_op|by apply limit_run_op].
  - pose proof (command_cost_nonneg cmd). destruct (IH (r + command_cost cmd)) as [Hw Hl]; [lia|lia|].
    apply build_command_wf in Hb.
    destruct (before_dispatch_wf _ ce cmd client e (conj Hw Hl)) as [Hw1 Hl1].
    pose proof (arm_dispatch ce v cmd Hb r _ out Hr Hw1 Hl1) as Ha. revert He. unfold execute_command. cbn [fst snd].
    destruct (dispatch ce v cmd (before_dispatch ce cmd client e, out)) as [[e1 o1]|[e1 o1]|]; [|by intros [= <- <-]|done].
    intros [= <- <-]. by apply after_dispatch_wf.
Qed.

(** A history of calls alone. *)
Lemma served_run_ops c h :
  Forall (λ p, op_typed p.2 ∧ match p.2 with OSetEvictionConfig cfg => 0 ≤ max_memory cfg | _ => True end) h →
  served (history_cost h) (run_ops h (engine_new c)).
Proof.
  enough (Hg : ∀ n e, served n e →
    Forall (λ p, op_typed p.2 ∧ match p.2 with OSetEvictionConfig cfg => 0 ≤ max_memory cfg | _ => True end) h →
    served (n + history_cost h) (run_ops h e)).
  { intros Hh. apply (Hg 0 _ (served_new c None) Hh). }
  induction h as [|[env op] h IH]; intros n e Hs Hh; simpl.
  - by rewrite Z.add_0_r.
  - apply Forall_cons in Hh as [[H1 H2] Hh]. rewrite Z.add_assoc. apply IH; [|done]. by apply served_op.
Qed.
End reachable.

(** C39: the engine of a running server is always well formed, as long as less
    than 2^63 bytes are ever written: whatever calls and commands led to the
    state, in whatever order and with whatever clocks, the SIEVE queue holds no
    key twice and its hand is at most its length; the AdaptiveClimb list holds
    no key twice and [jump] is between 1 and its length (1 when it is empty); the
    stateful index in use is the one of the configured policy; the adaptive
    weight is in its band and the controller's hit ratio is a finite number; the
    hit and miss counters are 64-bit words; the generator is a non-zero 32-bit
    word; and every stored key is non-empty and at most 64 KiB. The arguments of
    the calls are typed: a float is an [f64], a memory limit is unsigned. *)
Theorem engine_reachable_wf `{IndexMap} `{HashIter} n e :
  served n e → n < i63 →
  sieve_wf (e_sieve e) ∧
  (NoDup (ac_keys (e_ac e)) ∧ (1 ≤ ac_jump (e_ac e) ≤ 1 `max` length (ac_keys (e_ac e)))%nat) ∧
  e_index_kind e = policy_index_kind (policy (e_eviction e)) ∧
  ahe_inv (e_ahe e) ∧ ahe_ratio (e_ahe e) ∧
  (0 ≤ e_hits e < 2 ^ 64 ∧ 0 ≤ e_misses e < 2 ^ 64) ∧ 0 < e_rng e < 4294967296 ∧
  map_Forall (λ k _, validate_key k = Ok tt) (e_store e).
Proof.
  intros Hs Hn.
  destruct (served_wf n e 0 Hs) as [[_ _ P1 [P2 P2'] P3 P4 P5 P6 P7 P8 P9] _]; [done|lia|].
  done.
Qed.

(** Writes under an AdaptiveClimb policy that has to evict, then a command. *)
Definition served_history : list (Env * Op) :=
  [ (env_at 1, OSetEvictionConfig {| max_memory := 300; policy := AllKeysAdaptiveClimb; samples := 5 |});
    (env_at 2, OSet (str "a") (str "1")); (env_at 3, OSet (str "b") (str "hello"));
    (env_at 4, OGet (str "a")); (env_at 5, OSet (str "c") (str "world")) ].
Definition served_example : Engine := run_ops served_history (engine_new (clock_at 0)).

Definition served_after : Engine :=
  match execute_command (cmd_env_at 6) (CAppend (str "c") (str "!")) None Resp2 (served_example, []) with
  | Some (e, _) => e
  | None => served_example
  end.

Lemma served_after_reached :
  served (history_cost served_history + command_cost (CAppend (str "c") (str "!"))) served_after.
Proof.
  eapply (served_command _ served_example (cmd_env_at 6) [str "APPEND"; str "c"; str "!"] _ None Resp2 []);
    [apply served_run_ops; by repeat constructor|by vm_compute|vm_compute; reflexivity].
Qed.

Lemma engine_reachable_wf_witness :
  (1 ≤ ac_jump (e_ac served_after) ≤ 1 `max` length (ac_keys (e_ac served_after)))%nat.
Proof.
  destruct (engine_reachable_wf _ _ served_after_reached) as (_ & [_ Hj] & _); [vm_compute; reflexivity|exact Hj].
Defined.
