(* ===== verification/Connection.v ===== *)
(** * Client connections (src/src/network/server.rs)

    The connection handler as a state machine: chunks of bytes are buffered,
    complete frames are executed in order, replies are batched and written, and
    the authentication flag and protocol version are kept per connection. Also
    the connection counter of the accept loop and the [MONITOR] output. The
    loop's cursor [start] is kept by dropping the consumed bytes at once. *)
From S2P Require Import Prelude Numeric Text Error Encoder Command Parser IndexMap Eviction Entry Aof Engine WriteGuard Commands EngineInv Server.
From Stdlib Require Import ZArith Lia Strings.Byte.
From stdpp Require Import gmap strings numbers list.
Local Open Scope Z_scope.

Definition READ_BUF_MAX : Z := VALUE_MAX_BYTES + 1024 * 1024.
Definition WRITE_BATCH_MAX : Z := 64 * 1024.

(** How a step leaves the connection. *)
Inductive Flow :=
| FOpen
| FClosed (r : res ())
| FMonitor
| FPanic.

Section connection.
Context `{IndexMap} `{HashIter}.

(** The locals of [handle_client], the shared engine, the bytes the socket has
    taken, the outcomes of the writes to come (all fine past the end of the
    list), and how many commands have run. *)
Record Conn := {
  cn_engine : Engine;
  cn_inbuf : bytes;
  cn_outbuf : bytes;
  cn_authed : bool;
  cn_version : ProtocolVersion;
  cn_sent : bytes;
  cn_writes : list (option bytes);
  cn_count : nat;
}.

Definition set_inbuf (b : bytes) (c : Conn) : Conn :=
  {| cn_engine := cn_engine c; cn_inbuf := b; cn_outbuf := cn_outbuf c; cn_authed := cn_authed c;
     cn_version := cn_version c; cn_sent := cn_sent c; cn_writes := cn_writes c; cn_count := cn_count c |}.
Definition set_outbuf (b : bytes) (c : Conn) : Conn :=
  {| cn_engine := cn_engine c; cn_inbuf := cn_inbuf c; cn_outbuf := b; cn_authed := cn_authed c;
     cn_version := cn_version c; cn_sent := cn_sent c; cn_writes := cn_writes c; cn_count := cn_count c |}.
Definition set_session (a : bool) (v : ProtocolVersion) (c : Conn) : Conn :=
  {| cn_engine := cn_engine c; cn_inbuf := cn_inbuf c; cn_outbuf := cn_outbuf c; cn_authed := a;
     cn_version := v; cn_sent := cn_sent c; cn_writes := cn_writes c; cn_count := cn_count c |}.
Definition ran (e : Engine) (out : bytes) (c : Conn) : Conn :=
  {| cn_engine := e; cn_inbuf := cn_inbuf c; cn_outbuf := out; cn_authed := cn_authed c;
     cn_version := cn_version c; cn_sent := cn_sent c; cn_writes := cn_writes c;
     cn_count := S (cn_count c) |}.

(** A fresh connection. *)
Definition connect (e : Engine) (writes : list (option bytes)) : Conn := {|
  cn_engine := e; cn_inbuf := []; cn_outbuf := []; cn_authed := false; cn_version := Resp2;
  cn_sent := []; cn_writes := writes; cn_count := 0;
|}.

(** [stream.write_all(&outbuf)] *)
Definition write_out (c : Conn) : result bytes () * Conn :=
  let took ws sent := {| cn_engine := cn_engine c; cn_inbuf := cn_inbuf c; cn_outbuf := cn_outbuf c;
    cn_authed := cn_authed c; cn_version := cn_version c; cn_sent := sent; cn_writes := ws;
    cn_count := cn_count c |} in
  match cn_writes c with
  | Some m :: ws => (Err m, took ws (cn_sent c))
  | None :: ws => (Ok tt, took ws (cn_sent c ++ cn_outbuf c))
  | [] => (Ok tt, took [] (cn_sent c ++ cn_outbuf c))
  end.

(** A write whose failure ends the handler, and which empties the buffer. *)
Definition flush (c : Conn) : Conn * Flow :=
  match write_out c with
  | (Ok _, c) => (set_outbuf [] c, FOpen)
  | (Err m, c) => (c, FClosed (Err (IoError m)))
  end.

(** The last three branches of the arm for a complete frame: refused before
    authentication, run on the blocking pool, run in place. *)
Definition run_command (ce : CmdEnv) (peer : bytes) (command : Command) (c : Conn) : Conn * Flow :=
  let e := cn_engine c in
  if e_auth_required e && negb (cn_authed c) then
    (ran e (encode_error (cn_outbuf c) (str "NOAUTH Authentication required.")) c, FOpen)
  else if aof_barrier_blocks e then
    match execute_command ce command (Some peer) (cn_version c) (e, []) with
    | Some (e, reply) => (ran e (cn_outbuf c ++ reply) c, FOpen)
    | None =>
        (ran e (write_ferrum_error (cn_outbuf c)
                  (Internal (str "command task failed: " ++ ce_join_error ce))) c, FOpen)
    end
  else
    match execute_command ce command (Some peer) (cn_version c) (e, cn_outbuf c) with
    | Some (e, out) => (ran e out c, FOpen)
    | None => (c, FPanic)
    end.

(** The arm for a complete frame. *)
Definition on_command (ce : CmdEnv) (peer : bytes) (command : Command) (c : Conn) : Conn * Flow :=
  let e := cn_engine c in
  match command with
  | CAuth password =>
      let '(success, out) := auth_reply e password (cn_outbuf c) in
      (set_session (if success then true else cn_authed c) (cn_version c) (ran e out c), FOpen)
  | CHello proto =>
      let version := match proto with
                     | Some 2 => Resp2
                     | Some 3 => Resp3
                     | _ => cn_version c
                     end in
      (set_session (cn_authed c) version (ran e (hello_reply (cn_outbuf c) version) c), FOpen)
  | CMonitor =>
      let c := set_outbuf (encode_simple_string (cn_outbuf c) (str "OK")) c in
      match write_out c with
      | (Err m, c) => (c, FClosed (Err (IoError m)))
      | (Ok _, c) => (ran (monitor_subscribe e).2 (cn_outbuf c) c, FMonitor)
      end
  | _ =>
      run_command ce peer command c
  end.

(** Drops the consumed frame and flushes a reply buffer past the watermark. *)
Definition after_frame (consumed : nat) (c : Conn) : Conn * Flow :=
  let c := set_inbuf (drop consumed (cn_inbuf c)) c in
  if WRITE_BATCH_MAX <=? blen (cn_outbuf c) then flush c else (c, FOpen).

(** The drain loop. Every round consumes a byte, so more fuel than there are
    bytes is enough. *)
Fixpoint drain (fuel : nat) (envs : nat → CmdEnv) (peer : bytes) (c : Conn) : Conn * Flow :=
  match fuel with
  | O => (c, FOpen)
  | S fuel =>
      match parse_frame (cn_inbuf c) with
      | Ok (Complete command consumed) =>
          match on_command (envs (cn_count c)) peer command c with
          | (c, FOpen) =>
              match after_frame consumed c with
              | (c, FOpen) => drain fuel envs peer c
              | r => r
              end
          | r => r
          end
      | Ok (Invalid error consumed) =>
          match after_frame consumed (ran (cn_engine c) (write_ferrum_error (cn_outbuf c) error) c) with
          | (c, FOpen) => drain fuel envs peer c
          | r => r
          end
      | Ok Incomplete => (c, FOpen)
      | Err e =>
          let c := set_outbuf (write_ferrum_error (cn_outbuf c) e) c in
          ((write_out c).2, FClosed (Ok tt))
      end
  end.

(** One iteration of the read loop that got the bytes [chunk]. *)
Definition on_chunk (envs : nat → CmdEnv) (peer chunk : bytes) (c : Conn) : Conn * Flow :=
  let c := set_inbuf (cn_inbuf c ++ chunk) c in
  match drain (S (length (cn_inbuf c))) envs peer c with
  | (c, FOpen) =>
      match (match cn_outbuf c with [] => (c, FOpen) | _ => flush c end) with
      | (c, FOpen) =>
          if READ_BUF_MAX <? blen (cn_inbuf c) then
            ((write_out (set_outbuf (encode_error (cn_outbuf c) (str "ERR request too large")) c)).2,
             FClosed (Ok tt))
          else (c, FOpen)
      | r => r
      end
  | r => r
  end.

(** [ReadOutcome], and the shutdown signal it is raced against. *)
Inductive ReadEvent :=
| RBytes (chunk : bytes)
| REof
| RIdleTimeout
| RErr (msg : bytes)
| RShutdown.

(** [handle_client] on the events its reads deliver. *)
Fixpoint handle_client (envs : nat → CmdEnv) (peer : bytes) (events : list ReadEvent) (c : Conn)
    : Conn * Flow :=
  match events with
  | [] => (c, FOpen)
  | RBytes chunk :: events =>
      match on_chunk envs peer chunk c with
      | (c, FOpen) => handle_client envs peer events c
      | r => r
      end
  | REof :: _ | RIdleTimeout :: _ | RShutdown :: _ => (c, FClosed (Ok tt))
  | RErr m :: _ => (c, FClosed (Err (IoError m)))
  end.

(** A line of [run_monitor_loop]. *)
Definition monitor_line (m : MonitorMessage) : bytes :=
  let quoted := map (λ a, [x22] ++ utf8_lossy a ++ [x22]) (mm_args m) in
  str "+" ++ to_string_i (mm_timestamp_ms m) ++ str " [" ++ mm_peer m ++ str "] "
  ++ concat (match quoted with [] => [] | q :: qs => q :: map (λ q, x20 :: q) qs end) ++ CRLF.

(** ** Splitting the input *)

(** Healthy connections that have the same replies under way, whether already
    handed to the socket or not. *)
Record same_stream (c c' : Conn) : Prop := {
  ss_engine : cn_engine c = cn_engine c';
  ss_inbuf : cn_inbuf c = cn_inbuf c';
  ss_authed : cn_authed c = cn_authed c';
  ss_version : cn_version c = cn_version c';
  ss_writes : cn_writes c = [] ∧ cn_writes c' = [];
  ss_count : cn_count c = cn_count c';
  ss_out : cn_sent c ++ cn_outbuf c = cn_sent c' ++ cn_outbuf c';
}.

(** The outcome of a step as far as a peer can tell. *)
Definition agree (r r' : Conn * Flow) : Prop :=
  r.2 = r'.2 ∧
  match r.2 with
  | FOpen => same_stream r.1 r'.1
  | _ => cn_engine r.1 = cn_engine r'.1 ∧ cn_sent r.1 = cn_sent r'.1
  end.

Lemma write_out_healthy c :
  cn_writes c = [] →
  write_out c = (Ok tt, {| cn_engine := cn_engine c; cn_inbuf := cn_inbuf c;
    cn_outbuf := cn_outbuf c; cn_authed := cn_authed c; cn_version := cn_version c;
    cn_sent := cn_sent c ++ cn_outbuf c; cn_writes := []; cn_count := cn_count c |}).
Proof. intros Hw. unfold write_out. by rewrite Hw. Qed.

Lemma flush_same c : cn_writes c = [] → ∃ d, flush c = (d, FOpen) ∧ same_stream c d ∧ cn_outbuf d = [].
Proof.
  intros Hw. unfold flush. rewrite write_out_healthy by done. eexists. split; [done|].
  split; [|done]. split; simpl; try done. by rewrite app_nil_r.
Qed.

Lemma same_refl c : cn_writes c = [] → same_stream c c.
Proof. by split. Qed.
Lemma same_sym c c' : same_stream c c' → same_stream c' c.
Proof. intros [? ? ? ? [? ?] ? ?]. by split. Qed.
Lemma same_trans c1 c2 c3 : same_stream c1 c2 → same_stream c2 c3 → same_stream c1 c3.
Proof. intros [? ? ? ? [? ?] ? ?] [? ? ? ? [? ?] ? ?]. split; congruence || done. Qed.

(** Rendering a reply at the end of the output. *)
Lemma ran_same e f c c' :
  appends f → same_stream c c' →
  same_stream (ran e (f (cn_outbuf c)) c) (ran e (f (cn_outbuf c')) c').
Proof.
  intros Hf []. split; simpl; try done; [congruence|].
  rewrite (Hf (cn_outbuf c)), (Hf (cn_outbuf c')), !app_assoc. by f_equal.
Qed.

Lemma set_outbuf_same f c c' :
  appends f → same_stream c c' →
  same_stream (set_outbuf (f (cn_outbuf c)) c) (set_outbuf (f (cn_outbuf c')) c').
Proof.
  intros Hf []. split; simpl; try done.
  rewrite (Hf (cn_outbuf c)), (Hf (cn_outbuf c')), !app_assoc. by f_equal.
Qed.

Lemma set_session_same a v c c' : same_stream c c' → same_stream (set_session a v c) (set_session a v c').
Proof. intros []. by split. Qed.
Lemma set_inbuf_same b c c' : same_stream c c' → same_stream (set_inbuf b c) (set_inbuf b c').
Proof. intros []. by split. Qed.

Lemma one_appends f : one_reply f → appends f.
Proof. apply one_reply_appends. Qed.

(** [execute_command] renders its reply at the end of the buffer it is given. *)
Lemma execute_appends ce cmd client v e :
  wf_command cmd →
  ∃ e' f, appends f ∧ ∀ out, execute_command ce cmd client v (e, out) = Some (e', f out).
Proof.
  intros Hwf. apply (execute_answers appends one_appends); [done|].
  intros msg _ out. unfold encode_error. done.
Qed.

Lemma auth_reply_appends e pw :
  ∃ b f, appends f ∧ ∀ out, auth_reply e pw out = (b, f out).
Proof.
  unfold auth_reply. destruct (authenticate pw e) as [[]|x].
  - exists true, (λ out, encode_simple_string out (str "OK")). split; [|done].
    apply one_appends, resp_simple_string. by apply no_crlfb_spec.
  - exists false. eexists. split; [|intros out; reflexivity].
    apply one_appends, resp_error. by apply no_crlfb_spec.
  - exists false. eexists. split; [|intros out; reflexivity]. apply one_appends, resp_ferrum_error.
Qed.

Lemma run_command_same ce peer cmd c c' :
  wf_command cmd → same_stream c c' →
  agree (run_command ce peer cmd c) (run_command ce peer cmd c').
Proof.
  intros Hwf Hs. unfold run_command.
  rewrite <- (ss_engine _ _ Hs), <- (ss_authed _ _ Hs), <- (ss_version _ _ Hs).
  destruct (e_auth_required _ && _).
  { split; [done|]. apply (ran_same _ (λ out, encode_error out _)); [|done]. by intros out. }
  destruct (execute_appends ce cmd (Some peer) (cn_version c) (cn_engine c) Hwf) as (e' & f & Hf & He).
  rewrite !He. destruct (aof_barrier_blocks _); (split; [done|]).
  - by apply (ran_same _ (λ out, out ++ f [])).
  - by apply ran_same.
Qed.

Lemma on_command_same ce peer cmd c c' :
  wf_command cmd → same_stream c c' →
  agree (on_command ce peer cmd c) (on_command ce peer cmd c').
Proof.
  intros Hwf Hs. destruct cmd; try (by apply run_command_same); unfold on_command;
    rewrite <- (ss_engine _ _ Hs), <- ?(ss_authed _ _ Hs), <- ?(ss_version _ _ Hs).
  - destruct (auth_reply_appends (cn_engine c) password) as (b & f & Hf & He).
    rewrite !He. split; [done|]. apply set_session_same. by apply ran_same.
  - assert (Ha : appends (λ out, encode_simple_string out (str "OK"))) by (by intros out).
    pose proof (set_outbuf_same _ _ _ Ha Hs) as Hs'.
    rewrite !write_out_healthy by apply (ss_writes _ _ Hs').
    split; [done|]. split; [done|]. simpl. apply (ss_out _ _ Hs').
  - split; [done|]. apply set_session_same.
    apply (ran_same _ (λ out, hello_reply out _)); [|done]. apply one_appends, resp_hello.
Qed.

Lemma after_frame_same n c c' :
  same_stream c c' → ∃ d d', after_frame n c = (d, FOpen) ∧ after_frame n c' = (d', FOpen) ∧
    same_stream d d'.
Proof.
  intros Hs. unfold after_frame. rewrite <- (ss_inbuf _ _ Hs).
  set (x := set_inbuf _ c). set (x' := set_inbuf _ c').
  assert (Hx : same_stream x x') by (by apply set_inbuf_same).
  destruct (flush_same x) as (d & Hd & Hsd & _); [apply (ss_writes _ _ Hx)|].
  destruct (flush_same x') as (d' & Hd' & Hsd' & _); [apply (ss_writes _ _ Hx)|].
  rewrite Hd, Hd'.
  destruct (_ <=? blen (cn_outbuf x)), (_ <=? blen (cn_outbuf x')); eexists _, _; (split; [done|]);
    (split; [done|]); eauto using same_trans, same_sym.
Qed.

Lemma drain_same fuel envs peer c c' :
  same_stream c c' → agree (drain fuel envs peer c) (drain fuel envs peer c').
Proof.
  revert c c'. induction fuel as [|fuel IH]; intros c c' Hs; simpl; [done|].
  rewrite <- (ss_inbuf _ _ Hs), <- (ss_count _ _ Hs).
  destruct (parse_frame (cn_inbuf c)) as [[cmd n|err n|]|err] eqn:E.
  - pose proof (on_command_same (envs (cn_count c)) peer cmd c c' (parse_frame_wf _ _ _ E) Hs) as Ha.
    destruct (on_command _ peer cmd c) as [d fl], (on_command _ peer cmd c') as [d' fl'].
    destruct Ha as [Hfl Ha]. simpl in Hfl, Ha. subst fl'. destruct fl; try done.
    destruct (after_frame_same n d d' Ha) as (x & x' & -> & -> & Hx). by apply IH.
  - assert (Hr : same_stream (ran (cn_engine c) (write_ferrum_error (cn_outbuf c) err) c)
                   (ran (cn_engine c') (write_ferrum_error (cn_outbuf c') err) c')).
    { rewrite <- (ss_engine _ _ Hs). apply (ran_same _ (λ out, write_ferrum_error out err)); [|done].
      apply one_appends, resp_ferrum_error. }
    destruct (after_frame_same n _ _ Hr) as (x & x' & -> & -> & Hx). by apply IH.
  - done.
  - assert (Ha : appends (λ out, write_ferrum_error out err)) by apply one_appends, resp_ferrum_error.
    pose proof (set_outbuf_same _ _ _ Ha Hs) as Hs'.
    rewrite !write_out_healthy by apply (ss_writes _ _ Hs').
    split; [done|]. split; [apply (ss_engine _ _ Hs')|]. simpl. apply (ss_out _ _ Hs').
Qed.

(** Steps on a command do not look at the input buffer. *)
Definition with_inbuf (b : bytes) (r : Conn * Flow) : Conn * Flow := (set_inbuf b r.1, r.2).

Lemma run_command_inbuf ce peer cmd b c :
  run_command ce peer cmd (set_inbuf b c) = with_inbuf b (run_command ce peer cmd c).
Proof.
  unfold run_command, with_inbuf. cbn [set_inbuf cn_engine cn_authed cn_version cn_outbuf].
  destruct (e_auth_required _ && _); [done|].
  destruct (aof_barrier_blocks _); by destruct (execute_command _ _ _ _ _) as [[e' out]|].
Qed.

Lemma write_out_inbuf b c :
  write_out (set_inbuf b c) = ((write_out c).1, set_inbuf b (write_out c).2).
Proof. unfold write_out. simpl. by destruct (cn_writes c) as [|[m|] ws]. Qed.

Lemma on_command_inbuf ce peer cmd b c :
  on_command ce peer cmd (set_inbuf b c) = with_inbuf b (on_command ce peer cmd c).
Proof.
  destruct cmd; try apply run_command_inbuf; unfold on_command, with_inbuf;
    cbn [set_inbuf cn_engine cn_authed cn_version cn_outbuf].
  - by destruct (auth_reply _ _ _).
  - change (set_outbuf ?x (set_inbuf b c)) with (set_inbuf b (set_outbuf x c)).
    rewrite write_out_inbuf. by destruct (write_out (set_outbuf _ c)) as [[[]|m] d].
  - done.
Qed.

Lemma on_command_keeps_inbuf ce peer cmd c : cn_inbuf (on_command ce peer cmd c).1 = cn_inbuf c.
Proof.
  pose proof (on_command_inbuf ce peer cmd (cn_inbuf c) c) as Hc.
  assert (set_inbuf (cn_inbuf c) c = c) as E by (by destruct c). rewrite E in Hc. by rewrite Hc.
Qed.

Lemma flush_inbuf b c : flush (set_inbuf b c) = with_inbuf b (flush c).
Proof. unfold flush, with_inbuf. rewrite write_out_inbuf. by destruct (write_out c) as [[[]|m] d]. Qed.

Lemma after_frame_app n b c :
  (n ≤ length (cn_inbuf c))%nat →
  after_frame n (set_inbuf (cn_inbuf c ++ b) c)
  = with_inbuf (drop n (cn_inbuf c) ++ b) (after_frame n c).
Proof.
  intros Hn. unfold after_frame. cbn [set_inbuf cn_inbuf cn_outbuf]. rewrite drop_app_le by done.
  change (set_inbuf (drop n (cn_inbuf c) ++ b) (set_inbuf (cn_inbuf c ++ b) c))
    with (set_inbuf (drop n (cn_inbuf c) ++ b) (set_inbuf (drop n (cn_inbuf c)) c)).
  destruct (_ <=? _); [|done]. by rewrite flush_inbuf.
Qed.

Lemma after_frame_inbuf n c : cn_inbuf (after_frame n c).1 = drop n (cn_inbuf c).
Proof.
  unfold after_frame. destruct (_ <=? _); [|done]. unfold flush, write_out.
  by destruct (cn_writes _) as [|[m|] ws].
Qed.

(** More fuel than needed changes nothing. *)
Lemma drain_fuel f f' envs peer c :
  (length (cn_inbuf c) < f)%nat → (length (cn_inbuf c) < f')%nat →
  drain f envs peer c = drain f' envs peer c.
Proof.
  revert f' c. induction f as [|f IH]; intros f' c Hf Hf'; [lia|]. destruct f' as [|f']; [lia|].
  simpl. destruct (parse_frame (cn_inbuf c)) as [[cmd n|err n|]|err] eqn:E; try done;
    pose proof (parse_frame_consumed _ _ E ltac:(done)) as Hn; simpl in Hn.
  - pose proof (on_command_keeps_inbuf (envs (cn_count c)) peer cmd c) as Hb.
    destruct (on_command _ peer cmd c) as [d []]; try done. simpl in Hb.
    pose proof (after_frame_inbuf n d) as Hb'. destruct (after_frame n d) as [x []]; try done.
    simpl in Hb'. apply IH; rewrite Hb', Hb, length_drop; lia.
  - match goal with |- context [after_frame n ?d] => pose proof (after_frame_inbuf n d) as Hb';
      destruct (after_frame n d) as [x []]; try done end.
    simpl in Hb'. apply IH; rewrite Hb', length_drop; lia.
Qed.

(** Draining a buffer and then what arrives later, or everything at once. *)
Lemma drain_app f envs peer b c c1 f2 :
  (length (cn_inbuf c) < f)%nat → drain f envs peer c = (c1, FOpen) →
  (length (cn_inbuf c ++ b) < f2)%nat →
  drain f2 envs peer (set_inbuf (cn_inbuf c ++ b) c)
  = drain (S (length (cn_inbuf c1 ++ b))) envs peer (set_inbuf (cn_inbuf c1 ++ b) c1).
Proof.
  revert c f2. induction f as [|f IH]; intros c f2 Hf Hd Hf2; [lia|]. simpl in Hd.
  destruct (parse_frame (cn_inbuf c)) as [[cmd n|err n|]|err] eqn:E; [| | |done].
  3: { injection Hd as <-. apply drain_fuel; simpl; lia. }
  all: pose proof (parse_frame_consumed _ _ E ltac:(done)) as Hn; simpl in Hn.
  all: destruct f2 as [|f2]; [lia|]; cbn [drain set_inbuf cn_inbuf cn_count];
    rewrite (parse_frame_app _ b _ E) by done; rewrite length_app in Hf2.
  - rewrite on_command_inbuf.
    pose proof (on_command_keeps_inbuf (envs (cn_count c)) peer cmd c) as Hb.
    destruct (on_command _ peer cmd c) as [d []]; try done. simpl in Hb. cbn [with_inbuf fst snd].
    rewrite <- Hb, after_frame_app by (rewrite Hb; lia).
    pose proof (after_frame_inbuf n d) as Hb'. destruct (after_frame n d) as [x []]; try done.
    simpl in Hb'. cbn [with_inbuf fst snd]. rewrite <- Hb'. apply IH; [|done|]; 
      rewrite ?length_app, Hb', Hb, length_drop; lia.
  - change (ran ?e ?o (set_inbuf ?b0 c)) with (set_inbuf b0 (ran e o c)).
    cbn [set_inbuf cn_engine cn_outbuf]. set (d := ran _ _ c) in *.
    change (cn_inbuf c) with (cn_inbuf d). rewrite after_frame_app by (simpl; lia).
    pose proof (after_frame_inbuf n d) as Hb'. destruct (after_frame n d) as [x []]; try done.
    simpl in Hb'. cbn [with_inbuf fst snd]. change (cn_inbuf d) with (cn_inbuf c) in *. rewrite <- Hb'.
    apply IH; [|done|]; rewrite ?length_app, Hb', length_drop; lia.
Qed.

(** What [on_chunk] does after draining. *)
Definition settle (r : Conn * Flow) : Conn * Flow :=
  match r with
  | (c, FOpen) =>
      match (match cn_outbuf c with [] => (c, FOpen) | _ => flush c end) with
      | (c, FOpen) =>
          if READ_BUF_MAX <? blen (cn_inbuf c) then
            ((write_out (set_outbuf (encode_error (cn_outbuf c) (str "ERR request too large")) c)).2,
             FClosed (Ok tt))
          else (c, FOpen)
      | r => r
      end
  | r => r
  end.

Lemma on_chunk_settle envs peer chunk c :
  on_chunk envs peer chunk c
  = settle (drain (S (length (cn_inbuf c ++ chunk))) envs peer (set_inbuf (cn_inbuf c ++ chunk) c)).
Proof.
  unfold on_chunk, settle. cbn [set_inbuf cn_inbuf].
  by destruct (drain _ envs peer _) as [d []].
Qed.

(** The state once everything is written. *)
Definition written (c : Conn) : Conn := {|
  cn_engine := cn_engine c; cn_inbuf := cn_inbuf c; cn_outbuf := []; cn_authed := cn_authed c;
  cn_version := cn_version c; cn_sent := cn_sent c ++ cn_outbuf c; cn_writes := [];
  cn_count := cn_count c |}.

Lemma settle_open c :
  cn_writes c = [] →
  settle (c, FOpen) =
    if READ_BUF_MAX <? blen (cn_inbuf c) then
      ((write_out (set_outbuf (encode_error [] (str "ERR request too large")) (written c))).2,
       FClosed (Ok tt))
    else (written c, FOpen).
Proof.
  intros Hw. unfold settle.
  assert ((match cn_outbuf c with [] => (c, FOpen) | _ => flush c end) = (written c, FOpen)) as ->.
  { destruct (cn_outbuf c) as [|o out] eqn:E.
    - unfold written. rewrite E, app_nil_r. destruct c; simpl in *. congruence.
    - unfold flush. rewrite write_out_healthy by done. done. }
  done.
Qed.

Lemma same_written c c' : same_stream c c' → written c = written c'.
Proof. intros [? ? ? ? [? ?] ? ?]. unfold written. congruence. Qed.

(** The outcomes agree, and an open connection is left in the same state. *)
Lemma settle_agree r r' :
  agree r r' → agree (settle r) (settle r') ∧ ((settle r).2 = FOpen → settle r = settle r').
Proof.
  destruct r as [c fl], r' as [c' fl']. intros [Hfl Ha]. simpl in Hfl, Ha. subst fl'.
  destruct fl; try (by split). destruct (ss_writes _ _ Ha) as [Hw Hw'].
  rewrite !settle_open by done. rewrite <- (ss_inbuf _ _ Ha), (same_written _ _ Ha).
  by destruct (_ <? _); (split; [|done]); split.
Qed.

Lemma chunk_split envs peer a b c c1 :
  cn_writes c = [] → on_chunk envs peer a c = (c1, FOpen) →
  cn_writes c1 = [] ∧
  agree (on_chunk envs peer (a ++ b) c) (on_chunk envs peer b c1) ∧
  ((on_chunk envs peer b c1).2 = FOpen → on_chunk envs peer (a ++ b) c = on_chunk envs peer b c1).
Proof.
  intros Hw Ha. rewrite on_chunk_settle in Ha.
  set (ca := set_inbuf (cn_inbuf c ++ a) c) in *.
  destruct (drain _ envs peer ca) as [c0 fl] eqn:Hd. destruct fl; try done.
  assert (Hw0 : cn_writes c0 = []).
  { pose proof (drain_same (S (length (cn_inbuf c ++ a))) envs peer ca ca (same_refl ca Hw)) as [_ Hs].
    rewrite Hd in Hs. apply (ss_writes _ _ Hs). }
  rewrite settle_open in Ha by done. destruct (_ <? _); [done|]. injection Ha as <-.
  split; [done|]. rewrite !on_chunk_settle. rewrite app_assoc.
  pose proof (drain_app (S (length (cn_inbuf c ++ a))) envs peer b ca c0
    (S (length (cn_inbuf ca ++ b))) ltac:(unfold ca; simpl; lia) Hd ltac:(lia)) as Happ. change (cn_inbuf ca) with (cn_inbuf c ++ a) in Happ.
  change (set_inbuf ((cn_inbuf c ++ a) ++ b) ca) with (set_inbuf ((cn_inbuf c ++ a) ++ b) c) in Happ.
  rewrite Happ. cbn [written cn_inbuf].
  assert (Hs : same_stream (set_inbuf (cn_inbuf c0 ++ b) c0) (set_inbuf (cn_inbuf c0 ++ b) (written c0))).
  { apply set_inbuf_same. split; simpl; try done. by rewrite app_nil_r. }
  destruct (settle_agree _ _ (drain_same (S (length (cn_inbuf c0 ++ b))) envs peer _ _ Hs)) as [Hag Hopen].
  split; [exact Hag|]. intros Ho. apply Hopen. destruct Hag as [-> _]. exact Ho.
Qed.

Lemma flow_open (f : Flow) : f = FOpen ∨ f ≠ FOpen.
Proof. destruct f; auto. Qed.

(** A drain that ends the connection ends it whatever follows. *)
Lemma drain_stop f envs peer b c c1 fl f2 :
  (length (cn_inbuf c) < f)%nat → drain f envs peer c = (c1, fl) → fl ≠ FOpen →
  (length (cn_inbuf c ++ b) < f2)%nat →
  drain f2 envs peer (set_inbuf (cn_inbuf c ++ b) c) = (set_inbuf (cn_inbuf c1 ++ b) c1, fl).
Proof.
  revert c f2. induction f as [|f IH]; intros c f2 Hf Hd Hfl Hf2; [lia|]. simpl in Hd.
  destruct f2 as [|f2]; [lia|]. rewrite length_app in Hf2.
  destruct (parse_frame (cn_inbuf c)) as [[cmd n|err n|]|err] eqn:E; [| |by simplify_eq|].
  all: cbn [drain set_inbuf cn_inbuf cn_count]; rewrite (parse_frame_app _ b _ E) by done.
  1, 2: pose proof (parse_frame_consumed _ _ E ltac:(done)) as Hn; simpl in Hn.
  - rewrite on_command_inbuf.
    pose proof (on_command_keeps_inbuf (envs (cn_count c)) peer cmd c) as Hb.
    destruct (on_command _ peer cmd c) as [d fd]. simpl in Hb. cbn [with_inbuf fst snd].
    destruct fd; try (by rewrite <- Hb; simplify_eq).
    rewrite <- Hb, after_frame_app by (rewrite Hb; lia).
    pose proof (after_frame_inbuf n d) as Hb'. destruct (after_frame n d) as [x fx].
    simpl in Hb'. cbn [with_inbuf fst snd]. rewrite <- Hb'.
    destruct fx; try (by simplify_eq). apply IH; [|done|done|]; rewrite ?length_app, Hb', Hb, length_drop; lia.
  - change (ran ?e ?o (set_inbuf ?b0 c)) with (set_inbuf b0 (ran e o c)).
    cbn [set_inbuf cn_engine cn_outbuf]. set (d := ran _ _ c) in *.
    change (cn_inbuf c) with (cn_inbuf d). rewrite after_frame_app by (simpl; lia).
    pose proof (after_frame_inbuf n d) as Hb'. destruct (after_frame n d) as [x fx].
    simpl in Hb'. cbn [with_inbuf fst snd]. change (cn_inbuf d) with (cn_inbuf c) in *. rewrite <- Hb'.
    destruct fx; try (by simplify_eq). apply IH; [|done|done|]; rewrite ?length_app, Hb', length_drop; lia.
  - cbn [set_inbuf cn_outbuf]. simplify_eq.
    change (set_outbuf ?x (set_inbuf ?y c)) with (set_inbuf y (set_outbuf x c)).
    rewrite write_out_inbuf. f_equal. cbn [snd]. f_equal. f_equal.
    unfold write_out. by destruct (cn_writes _) as [|[m|] ws].
Qed.

(** A chunk that ends the connection, the buffer being within its bound, ends it
    in the same way with more bytes behind it. *)
Lemma chunk_stop envs peer a b c c1 fl :
  cn_writes c = [] → on_chunk envs peer a c = (c1, fl) → fl ≠ FOpen → blen (cn_inbuf c1) ≤ READ_BUF_MAX →
  agree (on_chunk envs peer (a ++ b) c) (c1, fl).
Proof.
  intros Hw Ha Hfl Hle. rewrite on_chunk_settle in Ha. rewrite on_chunk_settle, app_assoc.
  set (ca := set_inbuf (cn_inbuf c ++ a) c) in *.
  destruct (drain _ envs peer ca) as [c0 f0] eqn:Hd.
  assert (Hw0 : f0 = FOpen → cn_writes c0 = []).
  { intros ->. pose proof (drain_same (S (length (cn_inbuf c ++ a))) envs peer ca ca (same_refl ca Hw)) as [_ Hs].
    rewrite Hd in Hs. apply (ss_writes _ _ Hs). }
  destruct (flow_open f0) as [->|Hf0].
  - rewrite settle_open in Ha by auto. destruct (READ_BUF_MAX <? blen (cn_inbuf c0)) eqn:El; [|by simplify_eq].
    injection Ha as <- _. bool_to_prop. simpl in Hle. lia.
  - assert ((c0, f0) = (c1, fl)) as [= -> ->] by (by destruct f0).
    pose proof (drain_stop (S (length (cn_inbuf c ++ a))) envs peer b ca c1 fl
      (S (length ((cn_inbuf c ++ a) ++ b))) ltac:(unfold ca; simpl; lia) Hd Hfl ltac:(unfold ca; simpl; lia)) as Hs.
    change (set_inbuf (cn_inbuf ca ++ b) ca) with (set_inbuf ((cn_inbuf c ++ a) ++ b) c) in Hs.
    rewrite Hs. by destruct fl.
Qed.
(** ** One request on a fresh connection *)

(** The commands the connection layer passes on. *)
Definition ordinary (cmd : Command) : bool :=
  match cmd with CAuth _ | CHello _ | CMonitor => false | _ => true end.

(** After the only frame of the buffer: its reply is written. *)
Lemma last_frame envs peer n k d :
  cn_writes d = [] → drop n (cn_inbuf d) = [] →
  settle (match after_frame n d with (c, FOpen) => drain (S k) envs peer c | r => r end)
  = (written (set_inbuf [] d), FOpen).
Proof.
  intros Hw Hn.
  assert (Hd : ∀ d', cn_writes d' = [] → cn_inbuf d' = [] → settle (drain (S k) envs peer d') = (written d', FOpen)).
  { intros d' H1 H2. cbn [drain]. rewrite H2. change (parse_frame []) with (Ok (E := FerrumError) Incomplete).
    cbv iota. rewrite settle_open by done. by rewrite H2. }
  unfold after_frame. rewrite Hn. set (x := set_inbuf [] d). destruct (WRITE_BATCH_MAX <=? blen (cn_outbuf x)).
  - destruct (flush_same x Hw) as (d' & -> & Hs & Hb). destruct (ss_writes _ _ Hs) as [_ Hw'].
    specialize (Hd d' Hw'). rewrite <- (ss_inbuf _ _ Hs), <- (same_written _ _ Hs) in Hd. exact (Hd eq_refl).
  - exact (Hd x Hw eq_refl).
Qed.

(** An ordinary command is executed, and its reply is sent. *)
Lemma one_request envs peer frame cmd e :
  parse_frame frame = Ok (Complete cmd (length frame)) → ordinary cmd = true → e_auth_required e = false →
  ∃ e' w c', execute_command (envs 0%nat) cmd (Some peer) Resp2 (e, []) = Some (e', w) ∧
    on_chunk envs peer frame (connect e []) = (c', FOpen) ∧ cn_engine c' = e' ∧ cn_sent c' = w.
Proof.
  intros Hp Ho Ha. destruct (execute_appends (envs 0%nat) cmd (Some peer) Resp2 e (parse_frame_wf _ _ _ Hp)) as (e' & f & Hf & He).
  assert (Hon : on_command (envs 0%nat) peer cmd (set_inbuf frame (connect e []))
    = (ran e' (f []) (set_inbuf frame (connect e [])), FOpen)).
  { transitivity (run_command (envs 0%nat) peer cmd (set_inbuf frame (connect e []))); [by destruct cmd|].
    unfold run_command. cbn [set_inbuf connect cn_engine cn_authed cn_version cn_outbuf]. rewrite Ha, !He. cbn [andb].
    by destruct (aof_barrier_blocks e). }
  exists e', (f []), (written (set_inbuf [] (ran e' (f []) (set_inbuf frame (connect e []))))).
  split; [apply He|]. split; [|done].
  rewrite on_chunk_settle. change (cn_inbuf (connect e []) ++ frame) with frame.
  destruct (length frame) as [|k] eqn:Hk; [apply nil_length_inv in Hk as ->; done|].
  transitivity (settle match after_frame (S k) (ran e' (f []) (set_inbuf frame (connect e []))) with
                       | (c, FOpen) => drain (S k) envs peer c | r => r end).
  { f_equal. remember (S k) as m. cbn [drain]. change (cn_inbuf (set_inbuf frame (connect e []))) with frame. rewrite Hp.
    change (cn_count (set_inbuf frame (connect e []))) with 0%nat. by rewrite Hon. }
  apply last_frame; [done|]. apply drop_ge. cbn [ran set_inbuf cn_inbuf]. lia.
Qed.

(** A frame that is no command is answered with the parser's error. *)
Lemma one_refusal envs peer frame err e :
  parse_frame frame = Ok (Invalid err (length frame)) →
  ∃ c', on_chunk envs peer frame (connect e []) = (c', FOpen) ∧ cn_engine c' = e ∧
    cn_sent c' = write_ferrum_error [] err.
Proof.
  intros Hp. exists (written (set_inbuf [] (ran e (write_ferrum_error [] err) (set_inbuf frame (connect e []))))).
  split; [|done].
  rewrite on_chunk_settle. change (cn_inbuf (connect e []) ++ frame) with frame.
  destruct (length frame) as [|k] eqn:Hk; [apply nil_length_inv in Hk as ->; done|].
  transitivity (settle match after_frame (S k) (ran e (write_ferrum_error [] err) (set_inbuf frame (connect e []))) with
                       | (c, FOpen) => drain (S k) envs peer c | r => r end).
  { f_equal. remember (S k) as m. cbn [drain]. change (cn_inbuf (set_inbuf frame (connect e []))) with frame. by rewrite Hp. }
  apply last_frame; [done|]. apply drop_ge. cbn [ran set_inbuf cn_inbuf]. lia.
Qed.
End connection.

(** C12: how the network splits a client's bytes does not matter. Take a
    connection whose writes all succeed and chunks that arrive one by one. If it
    is still open after them, receiving them in a single read leaves exactly the
    same connection: engine, replies sent, buffered bytes, session. If they made
    it end (a protocol error, [MONITOR], a panic), the single read ends it in the
    same way, with the same engine and the same bytes sent. Only the bound on the
    read buffer depends on the splitting: it is tested between reads, so a
    chunked run that ends with more than [READ_BUF_MAX] bytes buffered is left
    out. Frames that span reads, pipelined frames and the batching of replies
    are all covered. *)
Theorem chunking_irrelevant `{IndexMap} `{HashIter} envs peer c chunks c' how :
  cn_writes c = [] → chunks ≠ [] →
  handle_client envs peer (map RBytes chunks) c = (c', how) →
  match how with
  | FOpen => on_chunk envs peer (concat chunks) c = (c', FOpen)
  | _ =>
      blen (cn_inbuf c') ≤ READ_BUF_MAX →
      let r := on_chunk envs peer (concat chunks) c in
      r.2 = how ∧ cn_engine r.1 = cn_engine c' ∧ cn_sent r.1 = cn_sent c'
  end.
Proof.
  intros Hw Hne Hc. enough (Hg : (how = FOpen → on_chunk envs peer (concat chunks) c = (c', FOpen)) ∧
    (how ≠ FOpen → blen (cn_inbuf c') ≤ READ_BUF_MAX → agree (on_chunk envs peer (concat chunks) c) (c', how))).
  { destruct Hg as [H1 H2]. destruct how; [by apply H1|..]; intros Hle;
      destruct (H2 ltac:(done) Hle) as [Hf He]; rewrite Hf in He; by destruct He. }
  revert c Hw Hne Hc. induction chunks as [|a chunks IH]; intros c Hw Hne; [done|]. simpl.
  destruct (on_chunk envs peer a c) as [c1 fl] eqn:E. destruct (flow_open fl) as [->|Hfl].
  - destruct chunks as [|b chunks].
    { simpl. rewrite app_nil_r, E. intros [= <- <-]. by split. }
    intros Hc. destruct (chunk_split envs peer a (concat (b :: chunks)) c c1 Hw E) as (Hw1 & Hag & Heq).
    destruct (IH c1 Hw1 ltac:(done) Hc) as [IH1 IH2]. split.
    + intros Ho. rewrite (IH1 Ho) in Heq. by apply Heq.
    + intros Hn Hle. destruct (IH2 Hn Hle) as [I1 I2], Hag as [A1 A2]. unfold agree.
      rewrite A1, I1 in *. simpl in *. split; [done|]. destruct how; [done|..];
        (destruct A2 as [-> ->]; exact I2).
  - intros Hc. assert ((c1, fl) = (c', how)) as [= -> ->] by (by destruct fl). split; [done|].
    intros _ Hle. by apply chunk_stop.
Qed.

Lemma chunking_irrelevant_witness :
  let frames := encode_command [str "SET"; str "k"; str "v"] ++ encode_command [str "GET"; str "k"] in
  let c := connect (engine_new (clock_at 0)) [] in
  let envs := λ n, cmd_env_at (Z.of_nat n) in
  ∃ c', on_chunk envs (str "peer") (concat [take 5 frames; take 30 (drop 5 frames); drop 35 frames]) c
        = (c', FOpen) ∧ cn_sent c' = str "+OK" ++ CRLF ++ str "$1" ++ CRLF ++ str "v" ++ CRLF.
Proof.
  intros frames c envs.
  destruct (handle_client envs (str "peer")
    (map RBytes [take 5 frames; take 30 (drop 5 frames); drop 35 frames]) c) as [c' fl] eqn:E.
  exists c'. split.
  - apply (chunking_irrelevant envs (str "peer") c _ c' FOpen); [done|done|].
    rewrite E. f_equal. apply (f_equal snd) in E. vm_compute in E. done.
  - transitivity (cn_sent (c', fl).1); [done|]. rewrite <- E. vm_compute. reflexivity.
Defined.

(** ** Authentication *)

Section auth.
Context `{IndexMap} `{HashIter}.

(** What an unauthenticated session may have done: nothing, unless it has
    authenticated or become a monitor. *)
Definition gated (e : Engine) (r : Conn * Flow) : Prop :=
  cn_authed r.1 = false → r.2 = FMonitor ∨ cn_engine r.1 = e.

(** Nothing but a successful [AUTH] sets the flag, and nothing clears it. *)
Lemma run_command_authed ce peer cmd c :
  cn_authed (run_command ce peer cmd c).1 = cn_authed c.
Proof.
  unfold run_command. destruct (e_auth_required _ && _); [done|].
  destruct (aof_barrier_blocks _); by destruct (execute_command _ _ _ _ _) as [[? ?]|].
Qed.

Lemma write_out_frame c :
  cn_authed (write_out c).2 = cn_authed c ∧ cn_engine (write_out c).2 = cn_engine c.
Proof. unfold write_out. by destruct (cn_writes c) as [|[m|] ws]. Qed.

Lemma on_command_gated ce peer cmd c :
  (cn_authed c = true → cn_authed (on_command ce peer cmd c).1 = true) ∧
  (cn_authed c = false → e_auth_required (cn_engine c) = true →
   gated (cn_engine c) (on_command ce peer cmd c)).
Proof.
  destruct cmd;
    try (split; [intros Ha; simpl; by rewrite run_command_authed|];
         intros Ha Hreq _; right; simpl; unfold run_command; by rewrite Hreq, Ha).
  - simpl. destruct (auth_reply _ _ _) as [b out]. simpl. split; [intros ->; by destruct b|].
    intros _ _ _. by right.
  - unfold on_command. destruct (write_out _) as [[[]|m] d] eqn:E;
      pose proof (write_out_frame (set_outbuf (encode_simple_string (cn_outbuf c) (str "OK")) c)) as [H1 H2];
      rewrite E in H1, H2; simpl in *; (split; [congruence|]); intros _ _ _;
      [by left|by right].
  - simpl. split; [done|]. intros _ _ _. by right.
Qed.

Lemma flush_frame c :
  cn_authed (flush c).1 = cn_authed c ∧ cn_engine (flush c).1 = cn_engine c.
Proof.
  unfold flush. pose proof (write_out_frame c) as [H1 H2].
  by destruct (write_out c) as [[[]|m] d].
Qed.

Lemma after_frame_frame n c :
  cn_authed (after_frame n c).1 = cn_authed c ∧ cn_engine (after_frame n c).1 = cn_engine c.
Proof.
  unfold after_frame. destruct (_ <=? _); [|done].
  apply (flush_frame (set_inbuf (drop n (cn_inbuf c)) c)).
Qed.

(** The gate, through the drain loop and the read loop. *)
Definition locked (e : Engine) (c : Conn) : Prop :=
  cn_authed c = false → cn_engine c = e.

Lemma on_command_locked ce peer cmd e c :
  e_auth_required e = true → locked e c → gated e (on_command ce peer cmd c).
Proof.
  intros Hreq Hl Hr. destruct (on_command_gated ce peer cmd c) as [Hmono Hgate].
  destruct (cn_authed c) eqn:Ea; [by rewrite Hmono in Hr|].
  rewrite <- (Hl Ea) in *. by apply Hgate.
Qed.

Lemma gated_open e c : gated e (c, FOpen) → locked e c.
Proof. intros Hg Ha. by destruct (Hg Ha). Qed.

Lemma after_frame_locked n e c : locked e c → gated e (after_frame n c).
Proof.
  intros Hl. destruct (after_frame_frame n c) as [H1 H2]. intros Ha. right.
  rewrite H2. apply Hl. congruence.
Qed.

Lemma drain_gated fuel envs peer e c :
  e_auth_required e = true → locked e c → gated e (drain fuel envs peer c).
Proof.
  intros Hreq. revert c. induction fuel as [|fuel IH]; intros c Hl; simpl; [intros Ha; right; by apply Hl|].
  destruct (parse_frame (cn_inbuf c)) as [[cmd n|err n|]|err] eqn:E.
  - pose proof (on_command_locked (envs (cn_count c)) peer cmd e c Hreq Hl) as Hg.
    destruct (on_command _ peer cmd c) as [d []]; try done. apply gated_open in Hg.
    pose proof (after_frame_locked n e d Hg) as Hg'.
    destruct (after_frame n d) as [x []]; try done. apply IH. by apply gated_open.
  - assert (Hl' : locked e (ran (cn_engine c) (write_ferrum_error (cn_outbuf c) err) c)) by exact Hl.
    pose proof (after_frame_locked n e _ Hl') as Hg'.
    destruct (after_frame n _) as [x []]; try done. apply IH. by apply gated_open.
  - intros Ha. right. by apply Hl.
  - match goal with |- gated e ((write_out ?d).2, _) => destruct (write_out_frame d) as [H1 H2] end.
    intros Ha. right. simpl in *. rewrite H2. apply Hl. congruence.
Qed.

Lemma settle_gated e r : gated e r → gated e (settle r).
Proof.
  destruct r as [c []]; try done. intros Hg. apply gated_open in Hg. unfold settle.
  assert (Hf : gated e (match cn_outbuf c with [] => (c, FOpen) | _ => flush c end)).
  { destruct (cn_outbuf c); [intros Ha; right; by apply Hg|].
    destruct (flush_frame c) as [H1 H2]. intros Ha. right. rewrite H2. apply Hg. congruence. }
  destruct (match cn_outbuf c with [] => (c, FOpen) | _ => flush c end) as [d []]; try done.
  apply gated_open in Hf. destruct (_ <? _); [|intros Ha; right; by apply Hf].
  match goal with |- gated e ((write_out ?x).2, _) => destruct (write_out_frame x) as [H1 H2] end.
  intros Ha. right. simpl in *. rewrite H2. apply Hf. congruence.
Qed.

Lemma handle_client_gated envs peer events e c :
  e_auth_required e = true → locked e c → gated e (handle_client envs peer events c).
Proof.
  intros Hreq. revert c. induction events as [|ev events IH]; intros c Hl; simpl;
    [intros Ha; right; by apply Hl|].
  destruct ev as [chunk| | |m|]; try (intros Ha; right; by apply Hl).
  pose proof (drain_gated (S (length (cn_inbuf c ++ chunk))) envs peer e
    (set_inbuf (cn_inbuf c ++ chunk) c) Hreq Hl) as Hg.
  apply settle_gated in Hg. rewrite <- on_chunk_settle in Hg.
  destruct (on_chunk envs peer chunk c) as [d []]; try done. apply IH. by apply gated_open.
Qed.
End auth.

(** C11: authentication is a gate. When a password is configured, a
    connection that has not presented it changes nothing: whatever frames it
    sends and however they are split, as long as the session is not
    authenticated at the end, the engine is exactly as before, unless the
    client turned the connection into a [MONITOR] stream, which the handler
    does not gate. *)
Theorem auth_gate `{IndexMap} `{HashIter} envs peer events c :
  e_auth_required (cn_engine c) = true → cn_authed c = false →
  cn_authed (handle_client envs peer events c).1 = false →
  (handle_client envs peer events c).2 = FMonitor ∨
  cn_engine (handle_client envs peer events c).1 = cn_engine c.
Proof. intros Hreq Ha. by apply handle_client_gated. Qed.

Definition secured : Engine := (set_requirepass (Some (str "secret")) (engine_new (clock_at 0))).2.

Lemma auth_gate_witness :
  let events := [RBytes (encode_command [str "AUTH"; str "guess"] ++ encode_command [str "FLUSHDB"])] in
  let r := handle_client (λ n, cmd_env_at (Z.of_nat n)) (str "peer") events (connect secured []) in
  r.2 = FMonitor ∨ cn_engine r.1 = secured.
Proof.
  apply (auth_gate (λ n, cmd_env_at (Z.of_nat n)) (str "peer") _ (connect secured [])); vm_compute; reflexivity.
Defined.

(** The exception is real: before authenticating, a client can subscribe to the
    commands of everybody else. *)
Example monitor_before_auth :
  let events := [RBytes (encode_command [str "MONITOR"])] in
  let r := handle_client (λ n, cmd_env_at (Z.of_nat n)) (str "peer") events (connect secured []) in
  r.2 = FMonitor ∧ cn_sent r.1 = str "+OK" ++ CRLF ∧ has_subscribers (cn_engine r.1) = true.
Proof. vm_compute. repeat split. Qed.

(** only the password opens the gate: a frame sets the flag of an
    unauthenticated connection only if it is an [AUTH] whose argument is,
    byte for byte, the configured password. *)
Theorem auth_needs_password `{IndexMap} `{HashIter} ce peer cmd c :
  cn_authed c = false → cn_authed (on_command ce peer cmd c).1 = true →
  ∃ pw, cmd = CAuth pw ∧ e_auth_password (cn_engine c) = Some pw.
Proof.
  intros Ha. destruct cmd; try (simpl; rewrite run_command_authed, Ha; done).
  - simpl. unfold auth_reply, authenticate.
    destruct (e_auth_password (cn_engine c)) as [expected|]; [|by rewrite Ha].
    rewrite constant_time_eq_spec.
    destruct (bytes_eqb password expected) eqn:E; [|by rewrite Ha].
    apply bytes_eqb_eq in E as ->. eauto.
  - unfold on_command. destruct (write_out _) as [[[]|m] d] eqn:E;
      pose proof (write_out_frame (set_outbuf (encode_simple_string (cn_outbuf c) (str "OK")) c)) as [H1 H2];
      rewrite E in H1; simpl in *; congruence.
  - simpl. congruence.
Qed.

Lemma auth_needs_password_witness :
  ∃ pw, CAuth (str "secret") = CAuth pw ∧ e_auth_password secured = Some pw.
Proof.
  apply (auth_needs_password (cmd_env_at 0) (str "peer") (CAuth (str "secret")) (connect secured []));
    vm_compute; reflexivity.
Defined.

(** ** The connection counter

    [ConnCounter::try_acquire] and the guard's destructor, at the grain of
    their atomic operations: any number of callers, each between its load and
    its compare-and-swap. *)

Inductive Acquirer :=
| Start
| Loaded (current : Z)
| Holding
| Refused
| Released.

Record Counter := { ct_active : Z; ct_threads : list Acquirer }.

(** One atomic step of one caller, with the limit [max]. *)
Inductive acquire_step (max active : Z) : Acquirer → Acquirer → Z → Prop :=
| step_unlimited : max = 0 → acquire_step max active Start Holding (active + 1)
| step_load : max ≠ 0 → acquire_step max active Start (Loaded active) active
| step_refuse current : max ≤ current → acquire_step max active (Loaded current) Refused active
| step_swap current : current < max → current = active →
    acquire_step max active (Loaded current) Holding (current + 1)
| step_retry current : current < max → current ≠ active →
    acquire_step max active (Loaded current) (Loaded active) active
| step_release : acquire_step max active Holding Released (active - 1).

(** A step of the system: some caller moves, or a new one arrives. *)
Inductive counter_step (max : Z) (s : Counter) : Counter → Prop :=
| counter_move i t t' active' :
    ct_threads s !! i = Some t → acquire_step max (ct_active s) t t' active' →
    counter_step max s {| ct_active := active'; ct_threads := <[i := t']> (ct_threads s) |}
| counter_arrive :
    counter_step max s {| ct_active := ct_active s; ct_threads := ct_threads s ++ [Start] |}.

Definition counter_new : Counter := {| ct_active := 0; ct_threads := [] |}.

Definition holds (t : Acquirer) : bool := match t with Holding => true | _ => false end.
Definition holders (l : list Acquirer) : Z := Z.of_nat (length (List.filter holds l)).

Lemma holders_update l i t t' :
  l !! i = Some t → holders (<[i := t']> l) = holders l - Z.b2z (holds t) + Z.b2z (holds t').
Proof.
  unfold holders. revert i. induction l as [|x l IH]; intros [|i] Hi; simpl in *; try done.
  - injection Hi as ->. destruct (holds t), (holds t'); simpl; lia.
  - specialize (IH i Hi). destruct (holds x); simpl; lia.
Qed.

Lemma holders_arrive l : holders (l ++ [Start]) = holders l.
Proof. unfold holders. rewrite List.filter_app, length_app. simpl. lia. Qed.

Definition counter_inv (max : Z) (s : Counter) : Prop :=
  ct_active s = holders (ct_threads s) ∧ (max ≠ 0 → ct_active s ≤ max).

Lemma counter_step_inv max s s' :
  0 ≤ max → counter_inv max s → counter_step max s s' → counter_inv max s'.
Proof.
  intros Hmax [Hact Hle] Hs. destruct Hs as [i t t' active' Hi Ha|]; unfold counter_inv; simpl.
  - rewrite (holders_update _ _ _ t' Hi).
    inversion Ha; subst; simpl; (split; [lia|intros Hne; specialize (Hle Hne); lia]).
  - by rewrite holders_arrive.
Qed.

(** The connection limit holds under every interleaving: however many
    callers race between their loads and their compare-and-swaps, the counter
    always equals the number of connections that hold a slot, and with a
    non-zero limit it never exceeds the limit. *)
Theorem connection_limit max s :
  0 ≤ max → rtc (counter_step max) counter_new s →
  ct_active s = holders (ct_threads s) ∧ (max ≠ 0 → holders (ct_threads s) ≤ max).
Proof.
  intros Hmax Hr. assert (Hinv : counter_inv max s).
  { remember counter_new as s0. assert (H0 : counter_inv max s0) by (subst; split; [done|simpl; lia]).
    clear Heqs0. induction Hr; eauto using counter_step_inv. }
  destruct Hinv as [Ha Hle]. split; [done|]. intros Hne. specialize (Hle Hne). lia.
Qed.

Lemma connection_limit_witness :
  let s := {| ct_active := 1; ct_threads := [Holding; Refused] |} in
  rtc (counter_step 1) counter_new s ∧ holders (ct_threads s) ≤ 1.
Proof.
  set (s := {| ct_active := 1; ct_threads := [Holding; Refused] |}).
  assert (Hr : rtc (counter_step 1) counter_new s).
  { do 2 (eapply rtc_l; [apply counter_arrive|]). simpl.
    eapply rtc_l; [apply (counter_move _ _ 0 Start (Loaded 0) 0); [done|by apply step_load]|]. simpl.
    eapply rtc_l; [apply (counter_move _ _ 1 Start (Loaded 0) 0); [done|by apply step_load]|]. simpl.
    eapply rtc_l; [apply (counter_move _ _ 0 (Loaded 0) Holding (0 + 1)); [done|by apply step_swap]|]. simpl.
    eapply rtc_l; [apply (counter_move _ _ 1 (Loaded 0) (Loaded 1) 1); [done|by apply step_retry]|]. simpl.
    eapply rtc_l; [apply (counter_move _ _ 1 (Loaded 1) Refused 1); [done|by apply step_refuse]|]. simpl.
    apply rtc_refl. }
  split; [exact Hr|]. apply (connection_limit 1 s); [lia|exact Hr|lia].
Defined.
