(* ===== verification/Listener.v ===== *)
(** * The server: many clients on one engine (src/src/network/server.rs)

    [accept_loop] and the tasks it spawns, with the sweeper beside them. A client's
    task is where [handle_client] is: waiting for bytes, or draining the frames it
    has; frames of different clients interleave in any order, each executed whole.
    The socket, the runtime and the clocks decide which action comes next; an action
    that is not possible changes nothing. What a MONITOR stream prints, and the purge
    of its sender when it ends, are in [Monitor]. *)
From S2P Require Import Prelude Numeric Text Error Encoder Command Parser IndexMap Eviction Entry Aof Engine WriteGuard Commands EngineInv Server Connection.
From Stdlib Require Import ZArith Lia Strings.Byte.
From stdpp Require Import gmap strings numbers list.
Local Open Scope Z_scope.

Section server.
Context `{IndexMap} `{HashIter}.

(** Where a task is; [Ended] says how it left the handler. *)
Inductive Phase :=
| Waiting
| Draining
| Monitoring
| Ended (how : Flow).

(** A task: the locals of its handler (the engine in them is the shared one while the
    task moves) and the address of its peer. *)
Record Task := { tk_conn : Conn; tk_peer : bytes; tk_phase : Phase }.

Record ServerState := {
  sv_engine : Engine;
  sv_tasks : list Task;
  sv_active : Z;          (* [ConnCounter] *)
  sv_triggered : bool;    (* [Shutdown] *)
  sv_accepting : bool;    (* the accept loop is running *)
  sv_refused : list bytes;
}.

(** [accept_loop] when it starts. *)
Definition listening (e : Engine) : ServerState := {|
  sv_engine := e; sv_tasks := []; sv_active := 0; sv_triggered := false; sv_accepting := true; sv_refused := [] |}.

Inductive Action :=
| Accept (peer : option bytes) (writes : list (option bytes))
| AcceptError
| Deliver (i : nat) (ev : ReadEvent)
| Round (i : nat) (ce : CmdEnv)
| EndMonitor (i : nat)
| Trigger
| Sweep (env : Env) (sample : Z).

Definition with_engine (e : Engine) (c : Conn) : Conn := {|
  cn_engine := e; cn_inbuf := cn_inbuf c; cn_outbuf := cn_outbuf c; cn_authed := cn_authed c;
  cn_version := cn_version c; cn_sent := cn_sent c; cn_writes := cn_writes c; cn_count := cn_count c |}.

Definition holds_slot (p : Phase) : bool := match p with Ended _ => false | _ => true end.

(** A task moves on; the guard of one that ends gives its slot back. *)
Definition moved (i : nat) (t : Task) (s : ServerState) : ServerState := {|
  sv_engine := cn_engine (tk_conn t);
  sv_tasks := <[i := t]> (sv_tasks s);
  sv_active := if holds_slot (tk_phase t) then sv_active s else sv_active s - 1;
  sv_triggered := sv_triggered s; sv_accepting := sv_accepting s; sv_refused := sv_refused s |}.

Definition phase_after (open : Phase) (f : Flow) : Phase :=
  match f with FOpen => open | FMonitor => Monitoring | _ => Ended f end.

(** A read of the handler returns. *)
Definition deliver (triggered : bool) (ev : ReadEvent) (t : Task) : Task :=
  let c := tk_conn t in
  let go c p := {| tk_conn := c; tk_peer := tk_peer t; tk_phase := p |} in
  if triggered then go c (Ended (FClosed (Ok tt)))
  else match ev with
       | RBytes chunk => go (set_inbuf (cn_inbuf c ++ chunk) c) Draining
       | REof | RIdleTimeout => go c (Ended (FClosed (Ok tt)))
       | RErr m => go c (Ended (FClosed (Err (IoError m))))
       | RShutdown => t
       end.

(** One round of the drain loop; after the last one the replies are flushed and the
    size of the buffer is checked. *)
Definition round (ce : CmdEnv) (t : Task) : Task :=
  let c := tk_conn t in
  let '(r, open) :=
    match parse_frame (cn_inbuf c) with
    | Ok Incomplete => (settle (c, FOpen), Waiting)
    | _ => (drain 1 (λ _, ce) (tk_peer t) c, Draining)
    end in
  {| tk_conn := r.1; tk_peer := tk_peer t; tk_phase := phase_after open r.2 |}.

(** [try_acquire] has one caller, so it succeeds when a slot is free. *)
Definition slot_free (max active : Z) : bool := (max =? 0) || (active <? max).

(** The arm of [accept_loop] for an accepted socket. *)
Definition accept (max : Z) (peer : option bytes) (writes : list (option bytes)) (s : ServerState) : ServerState :=
  if negb (sv_accepting s) then s
  else if sv_triggered s then
    {| sv_engine := sv_engine s; sv_tasks := sv_tasks s; sv_active := sv_active s;
       sv_triggered := true; sv_accepting := false; sv_refused := sv_refused s |}
  else if slot_free max (sv_active s) then
    match peer with
    | Some p =>
        {| sv_engine := sv_engine s;
           sv_tasks := sv_tasks s ++ [{| tk_conn := connect (sv_engine s) writes; tk_peer := p; tk_phase := Waiting |}];
           sv_active := sv_active s + 1; sv_triggered := false; sv_accepting := true; sv_refused := sv_refused s |}
    | None => s    (* [peer_addr] fails: the task ends at once *)
    end
  else
    {| sv_engine := sv_engine s; sv_tasks := sv_tasks s; sv_active := sv_active s;
       sv_triggered := false; sv_accepting := true;
       sv_refused := sv_refused s ++ [encode_error [] (str "ERR max number of clients reached")] |}.

(** The task [i], if it is in the phase that the action needs. *)
Definition on_task (i : nat) (f : Task → Task) (p : Phase → bool) (s : ServerState) : ServerState :=
  match sv_tasks s !! i with
  | Some t =>
      if p (tk_phase t) then
        moved i (f {| tk_conn := with_engine (sv_engine s) (tk_conn t); tk_peer := tk_peer t; tk_phase := tk_phase t |}) s
      else s
  | None => s
  end.

Definition is_waiting (p : Phase) : bool := match p with Waiting => true | _ => false end.
Definition is_draining (p : Phase) : bool := match p with Draining => true | _ => false end.
Definition is_monitoring (p : Phase) : bool := match p with Monitoring => true | _ => false end.

Definition act (max : Z) (s : ServerState) (a : Action) : ServerState :=
  match a with
  | Accept peer writes => accept max peer writes s
  | AcceptError => s
  | Deliver i ev => on_task i (deliver (sv_triggered s) ev) is_waiting s
  | Round i ce => on_task i (round ce) is_draining s
  | EndMonitor i =>
      on_task i (λ t, {| tk_conn := tk_conn t; tk_peer := tk_peer t; tk_phase := Ended FMonitor |}) is_monitoring s
  | Trigger =>
      {| sv_engine := sv_engine s; sv_tasks := sv_tasks s; sv_active := sv_active s; sv_triggered := true;
         sv_accepting := sv_accepting s; sv_refused := sv_refused s |}
  | Sweep env sample =>
      {| sv_engine := (sweep_expired env sample (sv_engine s)).2; sv_tasks := sv_tasks s; sv_active := sv_active s;
         sv_triggered := sv_triggered s; sv_accepting := sv_accepting s; sv_refused := sv_refused s |}
  end.

Definition run (max : Z) (acts : list Action) (s : ServerState) : ServerState := fold_left (act max) acts s.

Lemma run_snoc max acts a s : run max (acts ++ [a]) s = act max (run max acts s) a.
Proof using Type. unfold run. by rewrite fold_left_app. Qed.

(** An action on a task changes that task only. *)
Lemma on_task_cases i f p s (P : ServerState → Prop) :
  P s →
  (∀ t, sv_tasks s !! i = Some t → p (tk_phase t) = true →
     P (moved i (f {| tk_conn := with_engine (sv_engine s) (tk_conn t); tk_peer := tk_peer t;
                      tk_phase := tk_phase t |}) s)) →
  P (on_task i f p s).
Proof using Type.
  intros Hs Ht. unfold on_task. destruct (sv_tasks s !! i) as [t|]; [|done].
  destruct (p (tk_phase t)) eqn:Ep; [by apply Ht|done].
Qed.

(** ** Replies *)

(** The exchanges of task [i]: each frame its rounds took, as the connection it was
    taken from (with the shared engine of that moment) and the environment it ran in. *)
Definition exchange (s : ServerState) (a : Action) (i : nat) : list (CmdEnv * Conn) :=
  match a, sv_tasks s !! i with
  | Round j ce, Some t =>
      if bool_decide (j = i) && is_draining (tk_phase t) then
        match parse_frame (cn_inbuf (tk_conn t)) with
        | Ok Incomplete => []
        | _ => [(ce, with_engine (sv_engine s) (tk_conn t))]
        end
      else []
  | _, _ => []
  end.

(** The bytes an action brings to task [i]. *)
Definition arrival (s : ServerState) (a : Action) (i : nat) : bytes :=
  match a, sv_tasks s !! i with
  | Deliver j (RBytes chunk), Some t =>
      if bool_decide (j = i) && is_waiting (tk_phase t) && negb (sv_triggered s) then chunk else []
  | _, _ => []
  end.

Fixpoint along {A} (f : ServerState → Action → nat → list A) (max : Z) (acts : list Action) (s : ServerState)
    (i : nat) : list A :=
  match acts with
  | [] => []
  | a :: acts => f s a i ++ along f max acts (act max s a) i
  end.

Lemma along_snoc {A} (f : ServerState → Action → nat → list A) max acts a s i :
  along f max (acts ++ [a]) s i = along f max acts s i ++ f (run max acts s) a i.
Proof using Type.
  revert s. induction acts as [|b acts IH]; intros s; simpl; [by rewrite app_nil_r|].
  by rewrite IH, app_assoc.
Qed.

(** The bytes of the frame an exchange starts with. *)
Definition frame_bytes (c : Conn) : bytes :=
  match parse_frame (cn_inbuf c) with
  | Ok (Complete _ n) | Ok (Invalid _ n) => take n (cn_inbuf c)
  | _ => []
  end.

(** The reply that frame calls for: what the command answers, alone, in the state the
    engine and the session are in when it is taken. *)
Definition reply_to (peer : bytes) (x : CmdEnv * Conn) : bytes :=
  let '(ce, c) := x in
  let e := cn_engine c in
  match parse_frame (cn_inbuf c) with
  | Ok (Complete (CAuth password) _) => (auth_reply e password []).2
  | Ok (Complete (CHello proto) _) =>
      hello_reply [] (match proto with Some 2 => Resp2 | Some 3 => Resp3 | _ => cn_version c end)
  | Ok (Complete command _) =>
      if e_auth_required e && negb (cn_authed c) then encode_error [] (str "NOAUTH Authentication required.")
      else match execute_command ce command (Some peer) (cn_version c) (e, []) with
           | Some (_, reply) => reply
           | None => []
           end
  | Ok (Invalid error _) => write_ferrum_error [] error
  | _ => []
  end.

(** Not a [CONFIG] with a line break in its arguments, which [CONFIG SET] echoes. *)
Definition tame (c : Conn) : Prop :=
  match parse_frame (cn_inbuf c) with
  | Ok (Complete (CConfig _ l) _) => Forall no_crlf l
  | _ => True
  end.

(** The conversation so far: the bytes received are the frames taken and what is
    still buffered; the bytes sent or about to be are their replies. *)
Definition conversed (peer : bytes) (c : Conn) (rs : bytes) (xs : list (CmdEnv * Conn)) : Prop :=
  length xs = cn_count c ∧
  rs = concat (map (λ x, frame_bytes x.2) xs) ++ cn_inbuf c ∧
  cn_sent c ++ cn_outbuf c = concat (map (reply_to peer) xs) ∧
  Forall (λ x, tame x.2 → resp (reply_to peer x)) xs.

Lemma auth_exact e pw out :
  auth_reply e pw out = ((auth_reply e pw []).1, out ++ (auth_reply e pw []).2) ∧ resp (auth_reply e pw []).2.
Proof using Type.
  assert (Hr : ∀ f : bytes → bytes, one_reply f → f out = out ++ f [] ∧ resp (f [])).
  { intros f (w & Hw & Hf). by rewrite !Hf. }
  unfold auth_reply. destruct (authenticate pw e) as [[]|x]; cbn [fst snd].
  - destruct (Hr (λ out, encode_simple_string out (str "OK"))) as [H1 H2]; [|by rewrite H1].
    apply resp_simple_string. by apply no_crlfb_spec.
  - match goal with |- context [encode_error out ?m] =>
      destruct (Hr (λ out, encode_error out m)) as [H1 H2]; [|by rewrite H1] end.
    apply resp_error. by apply no_crlfb_spec.
  - destruct (Hr (λ out, write_ferrum_error out x)) as [H1 H2]; [apply resp_ferrum_error|by rewrite H1].
Qed.

(** What one command appends. *)
Lemma execute_exact ce cmd client v e :
  wf_command cmd →
  ∃ e' w, (∀ out, execute_command ce cmd client v (e, out) = Some (e', out ++ w)) ∧
    (match cmd with CConfig _ l => Forall no_crlf l | _ => True end → resp w).
Proof using Type.
  intros Hwf. destruct (execute_appends ce cmd client v e Hwf) as (e' & f & Hf & He).
  exists e', (f []). split; [intros out; by rewrite He, Hf|]. intros Ht.
  destruct (execute_answers one_reply (λ f Hf, Hf) ce cmd client v e Hwf) as (e2 & f2 & (w & Hw & Hf2) & He2).
  { intros msg Hmsg. apply resp_error. auto. }
  specialize (He []). rewrite He2, Hf2 in He. by injection He as _ <-.
Qed.

Lemma run_command_exact ce peer cmd n c d :
  wf_command cmd → parse_frame (cn_inbuf c) = Ok (Complete cmd n) →
  match cmd with CAuth _ | CHello _ | CMonitor => False | _ => True end →
  run_command ce peer cmd c = (d, FOpen) →
  ∃ e', d = ran e' (cn_outbuf c ++ reply_to peer (ce, c)) c ∧ (tame c → resp (reply_to peer (ce, c))).
Proof using Type.
  intros Hwf Hp Hcmd Hd.
  assert (Hr : reply_to peer (ce, c) =
    if e_auth_required (cn_engine c) && negb (cn_authed c) then encode_error [] (str "NOAUTH Authentication required.")
    else match execute_command ce cmd (Some peer) (cn_version c) (cn_engine c, []) with
         | Some (_, reply) => reply | None => [] end)
    by (unfold reply_to; rewrite Hp; by destruct cmd).
  assert (Ht : tame c → match cmd with CConfig _ l => Forall no_crlf l | _ => True end)
    by (unfold tame; rewrite Hp; by destruct cmd).
  rewrite Hr. unfold run_command in Hd. destruct (e_auth_required _ && _).
  { injection Hd as <-. eexists. split; [reflexivity|]. intros _.
    destruct (resp_error (str "NOAUTH Authentication required.")) as (w & Hw & Hf); [by apply no_crlfb_spec|]. by rewrite Hf. }
  destruct (execute_exact ce cmd (Some peer) (cn_version c) (cn_engine c) Hwf) as (e' & w & He & Hw).
  rewrite (He []) in Hd |- *. exists e'. split; [|intros Hc; by apply Hw, Ht].
  destruct (aof_barrier_blocks _); [|rewrite (He (cn_outbuf c)) in Hd]; by injection Hd as <-.
Qed.

Lemma on_command_exact ce peer cmd n c d :
  parse_frame (cn_inbuf c) = Ok (Complete cmd n) → on_command ce peer cmd c = (d, FOpen) →
  ∃ e' a v, d = set_session a v (ran e' (cn_outbuf c ++ reply_to peer (ce, c)) c) ∧
    (tame c → resp (reply_to peer (ce, c))).
Proof using Type.
  intros Hp Hd. pose proof (parse_frame_wf _ _ _ Hp) as Hwf.
  assert (Hrun : match cmd with CAuth _ | CHello _ | CMonitor => False | _ => True end →
    run_command ce peer cmd c = (d, FOpen) →
    ∃ e' a v, d = set_session a v (ran e' (cn_outbuf c ++ reply_to peer (ce, c)) c) ∧
      (tame c → resp (reply_to peer (ce, c)))).
  { intros Hc Hr. destruct (run_command_exact ce peer cmd n c d Hwf Hp Hc Hr) as (e' & -> & Ht).
    by exists e', (cn_authed c), (cn_version c). }
  destruct cmd; try (by apply Hrun); unfold on_command in Hd; clear Hrun; unfold reply_to; rewrite Hp.
  - destruct (auth_exact (cn_engine c) password (cn_outbuf c)) as [Ha Hresp]. rewrite Ha in Hd.
    injection Hd as <-. do 3 eexists. by split.
  - by destruct (write_out _) as [[]].
  - injection Hd as <-. match goal with |- context [hello_reply [] ?v] => destruct (resp_hello v) as (w & Hw & Hf) end.
    rewrite !Hf. do 3 eexists. split; [reflexivity|done].
Qed.

(** What is flushed is not lost. *)
Lemma flush_conversed peer c d rs xs :
  conversed peer c rs xs → flush c = (d, FOpen) → conversed peer d rs xs ∧ cn_outbuf d = [].
Proof using Type.
  intros (Hn & Hrs & Hout & Hok). unfold flush, write_out.
  destruct (cn_writes c) as [|[m|] l]; intros [= <-]; (split; [|done]); split_and!; try done; simpl;
    by rewrite app_nil_r.
Qed.

Lemma drain_conversed ce peer c d rs xs :
  conversed peer c rs xs → (∀ x, parse_frame (cn_inbuf c) = Ok x → x ≠ Incomplete) →
  drain 1 (λ _, ce) peer c = (d, FOpen) →
  conversed peer d rs (xs ++ [(ce, c)]).
Proof using Type.
  intros (Hn & Hrs & Hout & Hok) Hne. cbn [drain].
  (* dropping the frame and flushing past the watermark *)
  assert (Hstep : ∀ n x (w : bytes), reply_to peer (ce, c) = w → frame_bytes c = take n (cn_inbuf c) →
    (tame c → resp w) → cn_inbuf x = cn_inbuf c → cn_count x = S (cn_count c) →
    cn_sent x = cn_sent c → cn_outbuf x = cn_outbuf c ++ w →
    match after_frame n x with (c, FOpen) => (c, FOpen) | r => r end = (d, FOpen) →
    conversed peer d rs (xs ++ [(ce, c)])).
  { intros n x w Hw Hfb Ht H1 H2 H3 H4 Ha.
    assert (Hx : conversed peer (set_inbuf (drop n (cn_inbuf x)) x) rs (xs ++ [(ce, c)])).
    { split_and!; cbn [set_inbuf cn_inbuf cn_count cn_sent cn_outbuf].
      - rewrite length_app, H2, Hn. simpl. lia.
      - rewrite map_app, concat_app. simpl. by rewrite Hfb, app_nil_r, H1, <- app_assoc, take_drop.
      - rewrite map_app, concat_app, H3, H4, app_assoc, Hout. cbn [map concat]. by rewrite Hw, app_nil_r.
      - apply Forall_app_2; [done|]. constructor; [|done]. cbn [snd]. by rewrite Hw. }
    unfold after_frame in Ha. destruct (_ <=? _); [|by injection Ha as <-].
    destruct (flush _) as [y []] eqn:Ef; try done. injection Ha as <-. by eapply flush_conversed. }
  destruct (parse_frame (cn_inbuf c)) as [[cmd n|err n|]|err] eqn:E; [| |by destruct (Hne _ eq_refl)|done].
  - destruct (on_command ce peer cmd c) as [x []] eqn:Eo; try done.
    destruct (on_command_exact _ _ _ _ _ _ E Eo) as (e' & a & v & -> & Ht). cbv beta.
    eapply Hstep; [reflexivity|by unfold frame_bytes; rewrite E|done|reflexivity..].
  - destruct (resp_ferrum_error err) as (w & Hw & Hf). rewrite Hf.
    apply (Hstep _ _ w); try reflexivity; [|by unfold frame_bytes; rewrite E|done].
    unfold reply_to. by rewrite E, Hf.
Qed.

Lemma settle_conversed peer c d rs xs :
  conversed peer c rs xs → settle (c, FOpen) = (d, FOpen) → conversed peer d rs xs ∧ cn_outbuf d = [].
Proof using Type.
  intros Hc. unfold settle.
  destruct (match cn_outbuf c with [] => (c, FOpen) | _ => flush c end) as [x []] eqn:E; try done.
  assert (Hx : conversed peer x rs xs ∧ cn_outbuf x = []).
  { destruct (cn_outbuf c) eqn:Eb; [by injection E as <-|by eapply flush_conversed]. }
  destruct (_ <? _); [done|by intros [= <-]].
Qed.

(** A task that is not over has answered every frame it took, and before it waits for
    more input it has handed over every reply. *)
Definition attentive (t : Task) (rs : bytes) (xs : list (CmdEnv * Conn)) : Prop :=
  match tk_phase t with
  | Waiting => conversed (tk_peer t) (tk_conn t) rs xs ∧ cn_outbuf (tk_conn t) = []
  | Draining => conversed (tk_peer t) (tk_conn t) rs xs
  | _ => True
  end.
Definition heard (o : option Task) (rs : bytes) (xs : list (CmdEnv * Conn)) : Prop :=
  match o with Some t => attentive t rs xs | None => rs = [] ∧ xs = [] end.

Lemma deliver_heard e tr ev t rs xs :
  is_waiting (tk_phase t) = true → attentive t rs xs →
  attentive (deliver tr ev {| tk_conn := with_engine e (tk_conn t); tk_peer := tk_peer t; tk_phase := tk_phase t |})
    (rs ++ match ev with RBytes chunk => if negb tr then chunk else [] | _ => [] end) xs.
Proof using Type.
  intros Hw Ht. unfold attentive in Ht. destruct (tk_phase t); try done. destruct Ht as [(Hn & Hrs & Hout & Hok) Hb].
  unfold deliver. destruct tr; [done|]. destruct ev; try done; cbn [negb].
  - split_and!; try done. cbn. by rewrite Hrs, <- app_assoc.
  - rewrite app_nil_r. by split.
Qed.

Lemma round_heard e ce t rs xs :
  is_draining (tk_phase t) = true → attentive t rs xs →
  attentive (round ce {| tk_conn := with_engine e (tk_conn t); tk_peer := tk_peer t; tk_phase := tk_phase t |}) rs
    (xs ++ match parse_frame (cn_inbuf (tk_conn t)) with
           | Ok Incomplete => []
           | _ => [(ce, with_engine e (tk_conn t))]
           end).
Proof using Type.
  intros Hd Ht. set (c := with_engine e (tk_conn t)).
  assert (Hc : conversed (tk_peer t) c rs xs) by (unfold attentive in Ht; by destruct (tk_phase t)).
  unfold round. cbn [tk_conn tk_peer]. fold c. change (cn_inbuf (tk_conn t)) with (cn_inbuf c).
  assert (Hdrain : (∀ x, parse_frame (cn_inbuf c) = Ok x → x ≠ Incomplete) →
    ∀ r, drain 1 (λ _, ce) (tk_peer t) c = r →
    attentive {| tk_conn := r.1; tk_peer := tk_peer t; tk_phase := phase_after Draining r.2 |} rs (xs ++ [(ce, c)])).
  { intros Hne [d []] Er; try done. by apply (drain_conversed _ _ _ _ _ _ Hc Hne) in Er. }
  destruct (parse_frame (cn_inbuf c)) as [[cmd n|err n|]|err] eqn:E.
  1, 2, 4: apply Hdrain; [by intros ? [= <-]|reflexivity].
  rewrite app_nil_r. destruct (settle _) as [d []] eqn:Es; try done. by apply (settle_conversed _ _ _ _ _ Hc) in Es.
Qed.

Lemma act_heard max s a i rs xs :
  heard (sv_tasks s !! i) rs xs →
  heard (sv_tasks (act max s a) !! i) (rs ++ arrival s a i) (xs ++ exchange s a i).
Proof using Type.
  intros Hs.
  (* an action on task [j] that brings [b] and exchanges [ys] *)
  assert (Hon : ∀ j f p b ys,
    (∀ t, sv_tasks s !! i = Some t → j = i → p (tk_phase t) = true → attentive t rs xs →
       attentive (f {| tk_conn := with_engine (sv_engine s) (tk_conn t); tk_peer := tk_peer t; tk_phase := tk_phase t |})
         (rs ++ b) (xs ++ ys)) →
    (∀ t, sv_tasks s !! i = Some t → j = i → p (tk_phase t) = false → b = [] ∧ ys = []) →
    (j ≠ i ∨ sv_tasks s !! i = None → b = [] ∧ ys = []) →
    heard (sv_tasks (on_task j f p s) !! i) (rs ++ b) (xs ++ ys)).
  { intros j f p b ys Hf Hno Hother. unfold on_task. destruct (decide (j = i)) as [->|Hne].
    - destruct (sv_tasks s !! i) as [t|] eqn:Ei.
      + destruct (p (tk_phase t)) eqn:Ep.
        * unfold moved. cbn [sv_tasks]. rewrite list_lookup_insert_eq by (by eapply lookup_lt_Some).
          by apply (Hf t).
        * destruct (Hno t) as [-> ->]; [done..|]. by rewrite !app_nil_r, Ei.
      + destruct Hother as [-> ->]; [by right|]. by rewrite !app_nil_r, Ei.
    - destruct Hother as [-> ->]; [by left|]. rewrite !app_nil_r.
      destruct (sv_tasks s !! j) as [t|]; [|done]. destruct (p (tk_phase t)); [|done].
      unfold moved. cbn [sv_tasks]. by rewrite list_lookup_insert_ne. }
  destruct a as [peer writes| |j ev|j ce|j| |env n]; cbn [act arrival exchange]; rewrite ?app_nil_r; try exact Hs.
  - unfold accept. destruct (negb _); [done|]. destruct (sv_triggered s); [done|].
    destruct (slot_free _ _); [|done]. destruct peer as [p|]; [|done]. cbn [sv_tasks].
    destruct (sv_tasks s !! i) as [t|] eqn:Ei; [by rewrite (lookup_app_l_Some _ _ _ _ Ei)|].
    destruct Hs as [-> ->]. apply lookup_ge_None in Ei. rewrite lookup_app_r by done.
    destruct (i - length (sv_tasks s))%nat as [|k]; [|done]. by repeat split.
  - rewrite <- (app_nil_r xs). apply (Hon j (deliver (sv_triggered s) ev) is_waiting _ []).
    + intros t Ht -> Hp Ha. rewrite Ht, bool_decide_true, Hp, app_nil_r by done. by apply deliver_heard.
    + intros t Ht -> Hp. rewrite Ht, Hp, andb_false_r. by destruct ev.
    + intros [Hne|Hn]; (split; [|done]); [rewrite bool_decide_false by done|rewrite Hn];
        destruct ev; by destruct (sv_tasks s !! i).
  - rewrite <- (app_nil_r rs). apply (Hon j (round ce) is_draining []).
    + intros t Ht -> Hp Ha. rewrite Ht, bool_decide_true, Hp, app_nil_r by done. by apply round_heard.
    + intros t Ht -> Hp. by rewrite Ht, Hp, andb_false_r.
    + intros [Hne|Hn]; (split; [done|]); [rewrite bool_decide_false by done|by rewrite Hn].
      by destruct (sv_tasks s !! i).
  - rewrite <- (app_nil_r rs), <- (app_nil_r xs). by apply (Hon j _ is_monitoring [] []).
Qed.
End server.

(** C14: Every client is answered, whoever else is connected: under every
    interleaving of the clients' frames, of arrivals, sweeps and the shutdown, as
    long as a connection is open, the bytes it has received are the frames taken
    so far, one after the other, and what is still buffered; and the bytes
    it has produced are, in the same order, exactly one reply per frame, namely
    what the command in that frame answers, alone, in the state the shared engine
    and the session were in when the frame was taken; nothing else is sent, and
    whenever the connection waits for input every reply has been handed to its
    socket. Each of these replies is one value of the protocol, except that of a
    [CONFIG] whose arguments contain a line break (see
    [Server.config_set_splits_reply]). *)
Theorem server_replies `{IndexMap} `{HashIter} max acts e i t :
  sv_tasks (run max acts (listening e)) !! i = Some t →
  match tk_phase t with
  | Waiting | Draining =>
      let xs := along exchange max acts (listening e) i in
      along arrival max acts (listening e) i = concat (map (λ x, frame_bytes x.2) xs) ++ cn_inbuf (tk_conn t) ∧
      cn_sent (tk_conn t) ++ cn_outbuf (tk_conn t) = concat (map (reply_to (tk_peer t)) xs) ∧
      Forall (λ x, tame x.2 → resp (reply_to (tk_peer t) x)) xs ∧
      (tk_phase t = Waiting → cn_sent (tk_conn t) = concat (map (reply_to (tk_peer t)) xs))
  | _ => True
  end.
Proof.
  intros Ht. assert (Ha : heard (sv_tasks (run max acts (listening e)) !! i)
    (along arrival max acts (listening e) i) (along exchange max acts (listening e) i)).
  { clear Ht. induction acts as [|a acts IH] using rev_ind; [done|].
    rewrite run_snoc, !along_snoc. by apply act_heard. }
  rewrite Ht in Ha. cbn [heard] in Ha. unfold attentive in Ha. destruct (tk_phase t); try done.
  - destruct Ha as [(_ & Hr & Ho & Hok) Hb]. split_and!; try done. intros _. by rewrite Hb, app_nil_r in Ho.
  - destruct Ha as (_ & Hr & Ho & Hok). by split_and!.
Qed.

(** ** Slots *)

Section slots.
Context `{IndexMap} `{HashIter}.

Definition open_tasks (l : list Task) : Z :=
  Z.of_nat (length (List.filter (λ t, holds_slot (tk_phase t)) l)).

Lemma open_tasks_update l i t t' :
  l !! i = Some t → holds_slot (tk_phase t) = true →
  open_tasks (<[i := t']> l) = if holds_slot (tk_phase t') then open_tasks l else open_tasks l - 1.
Proof using Type.
  unfold open_tasks. revert i. induction l as [|x l IH]; intros [|i] Hi Hs; simpl in *; try done.
  - injection Hi as ->. rewrite Hs. destruct (holds_slot (tk_phase t')); simpl; lia.
  - specialize (IH i Hi Hs). destruct (holds_slot (tk_phase x)), (holds_slot (tk_phase t')); simpl; lia.
Qed.

Definition slots_ok (max : Z) (s : ServerState) : Prop :=
  sv_active s = open_tasks (sv_tasks s) ∧ (max ≠ 0 → sv_active s ≤ max).

Lemma act_slots max s a : 0 ≤ max → slots_ok max s → slots_ok max (act max s a).
Proof using Type.
  intros Hmax [Hact Hle]. assert (Hon : ∀ i f p, (∀ x, p x = true → holds_slot x = true) →
    slots_ok max (on_task i f p s)).
  { intros i f p Hp. apply on_task_cases; [done|]. intros t Ht Hpt.
    split; simpl; [rewrite (open_tasks_update _ _ _ _ Ht), <- Hact by auto; done|].
    intros Hne. specialize (Hle Hne). destruct (holds_slot _); lia. }
  destruct a as [peer writes| |i ev|i ce|i| |env n]; simpl; try done; try (apply Hon; by intros []).
  unfold accept. destruct (negb _); [done|]. destruct (sv_triggered s); [done|].
  destruct (slot_free max (sv_active s)) eqn:Ef; [|done]. destruct peer as [p|]; [|done].
  unfold slots_ok, open_tasks. simpl. rewrite List.filter_app, length_app, Hact. simpl.
  split; [unfold open_tasks; lia|]. intros Hne. unfold slot_free in Ef.
  apply orb_prop in Ef as [Ef|Ef]; bool_to_prop; lia.
Qed.
End slots.

(** C15: The server never has more clients than it may: under every interleaving the counter is the number of connections that are open, and with a non-zero limit there are never more of them than the limit; a connection that ends, whatever ends it, gives its slot back. *)
Theorem server_limit `{IndexMap} `{HashIter} max acts e :
  0 ≤ max →
  let s := run max acts (listening e) in
  sv_active s = open_tasks (sv_tasks s) ∧ (max ≠ 0 → open_tasks (sv_tasks s) ≤ max).
Proof.
  intros Hmax s. assert (Hs : slots_ok max s).
  { unfold s. induction acts as [|a acts IH] using rev_ind; [by split|]. rewrite run_snoc. by apply act_slots. }
  destruct Hs as [Ha Hle]. split; [done|]. intros Hne. rewrite <- Ha. auto.
Qed.

(** ** Authentication *)

Section gate.
Context `{IndexMap} `{HashIter}.

(** A session that never authenticated and never became a monitor. *)
Definition outside (t : Task) : Prop :=
  cn_authed (tk_conn t) = false ∧
  match tk_phase t with Monitoring | Ended FMonitor => False | _ => True end.

Definition background (a : Action) : bool := match a with Sweep _ _ => true | _ => false end.

(** A task outside the gate was outside before, and left the engine alone. *)
Definition gated_step (p : Phase → bool) (f : Task → Task) : Prop := ∀ t,
  outside (f t) → p (tk_phase t) = true →
  outside t ∧
  (e_auth_required (cn_engine (tk_conn t)) = true → cn_engine (tk_conn (f t)) = cn_engine (tk_conn t)).

Lemma deliver_gated tr ev : gated_step is_waiting (deliver tr ev).
Proof using Type.
  intros t Ht Hp. assert (Ho : cn_authed (tk_conn t) = false → outside t)
    by (intros ?; split; [done|]; by destruct (tk_phase t)).
  revert Ht. unfold deliver. destruct tr; [intros [Ha _]; by split; [apply Ho|]|].
  destruct ev; intros [Ha _]; by split; [apply Ho|].
Qed.

Lemma drain_authed fuel envs peer c :
  cn_authed c = true → cn_authed (drain fuel envs peer c).1 = true.
Proof using Type.
  revert c. induction fuel as [|fuel IH]; intros c Hc; simpl; [done|].
  destruct (parse_frame (cn_inbuf c)) as [[cmd n|err n|]|err]; [| |done|].
  - destruct (on_command_gated (envs (cn_count c)) peer cmd c) as [Hm _]. specialize (Hm Hc).
    destruct (on_command _ peer cmd c) as [x []]; try done. simpl in Hm.
    destruct (after_frame_frame n x) as [H1 _]. destruct (after_frame n x) as [y []]; simpl in *; try congruence.
    apply IH. congruence.
  - match goal with |- context [after_frame n ?x] => destruct (after_frame_frame n x) as [H1 _];
      destruct (after_frame n x) as [y []] end; simpl in *; try congruence. apply IH. congruence.
  - simpl. match goal with |- context [write_out ?x] => destruct (write_out_frame x) as [H1 _] end.
    simpl in H1. congruence.
Qed.

Lemma settle_frame c :
  cn_authed (settle (c, FOpen)).1 = cn_authed c ∧ cn_engine (settle (c, FOpen)).1 = cn_engine c.
Proof using Type.
  unfold settle.
  assert (Hf : ∀ r, r = (match cn_outbuf c with [] => (c, FOpen) | _ => flush c end) →
    cn_authed r.1 = cn_authed c ∧ cn_engine r.1 = cn_engine c)
    by (intros r ->; destruct (cn_outbuf c); [done|apply flush_frame]).
  destruct (match cn_outbuf c with [] => (c, FOpen) | _ => flush c end) as [x []];
    specialize (Hf _ eq_refl); simpl in Hf; try done.
  destruct (_ <? _); [|done]. simpl.
  match goal with |- context [write_out ?d] => destruct (write_out_frame d) as [H1 H2] end.
  simpl in H1, H2. destruct Hf. split; congruence.
Qed.

Lemma round_gated ce : gated_step is_draining (round ce).
Proof using Type.
  intros t Ht Hp. assert (Ho : cn_authed (tk_conn t) = false → outside t)
    by (intros ?; split; [done|]; by destruct (tk_phase t)).
  revert Ht. unfold round. set (c := tk_conn t) in *.
  assert (Hd : ∀ r, r = drain 1 (λ _, ce) (tk_peer t) c →
    outside {| tk_conn := r.1; tk_peer := tk_peer t; tk_phase := phase_after Draining r.2 |} →
    outside t ∧ (e_auth_required (cn_engine c) = true → cn_engine r.1 = cn_engine c)).
  { intros r -> [Ha Hph]. cbn [tk_conn tk_phase] in Ha, Hph. assert (Hc : cn_authed c = false).
    { destruct (cn_authed c) eqn:E; [|done]. by rewrite (drain_authed 1 (λ _, ce) (tk_peer t) c E) in Ha. }
    split; [by apply Ho|]. intros Hreq.
    destruct (drain_gated 1 (λ _, ce) (tk_peer t) (cn_engine c) c Hreq (λ _, eq_refl) Ha) as [Hm|]; [|done].
    by rewrite Hm in Hph. }
  destruct (parse_frame (cn_inbuf c)) as [[]|] eqn:E; [by apply Hd|by apply Hd| |by apply Hd].
  intros [Ha _]. cbn [tk_conn fst] in Ha. destruct (settle_frame c) as [H1 H2].
  split; [apply Ho; by rewrite <- H1|]. intros _. exact H2.
Qed.

Lemma sweep_auth env n e : e_auth_required (sweep_expired env n e).2 = e_auth_required e.
Proof using Type.
  set (b := e_auth_required e). assert (Hp : preserves (E := FerrumError) (λ e, e_auth_required e = b) (sweep_expired env n)).
  { unfold sweep_expired. destruct (n =? 0); [apply preserves_ret|].
    apply preserves_bind; [apply preserves_gets|intros e0]. cbv zeta.
    apply preserves_bind; [destruct (0 <? _); [by apply preserves_modify|apply preserves_ret]|intros _].
    apply preserves_bind; [|intros _; apply preserves_ret]. apply preserves_for_each. intros k _.
    apply preserves_bind.
    { intros e1 <-. unfold track_remove, ac_notify_remove, sieve_notify_remove, apply_delta. simpl.
      destruct (e_store e1 !! k); simpl; by repeat (case_match; simpl). }
    intros _. apply preserves_bind; [by apply preserves_modify|intros _].
    intros e1 <-. unfold note_aof. by repeat case_match. }
  by apply Hp.
Qed.

Lemma on_task_gated i f p s :
  gated_step p f →
  Forall outside (sv_tasks (on_task i f p s)) →
  Forall outside (sv_tasks s) ∧
  (e_auth_required (sv_engine s) = true → sv_engine (on_task i f p s) = sv_engine s).
Proof using Type.
  intros Hf. apply (on_task_cases i f p s (λ s', Forall outside (sv_tasks s') →
    Forall outside (sv_tasks s) ∧ (e_auth_required (sv_engine s) = true → sv_engine s' = sv_engine s))); [done|].
  intros t Ht Hpt. cbn [moved sv_tasks sv_engine]. set (t0 := Build_Task _ _ _). intros Hall.
  rewrite Forall_lookup in Hall. assert (Hft : outside (f t0)).
  { apply (Hall i). apply list_lookup_insert_eq. by eapply lookup_lt_Some. }
  destruct (Hf t0 Hft Hpt) as [Ho He]. split; [|done]. apply Forall_lookup. intros j x Hx.
  destruct (decide (i = j)) as [<-|Hne]; [rewrite Ht in Hx; by injection Hx as <-|].
  apply (Hall j). by rewrite list_lookup_insert_ne.
Qed.

Lemma act_gated max s a :
  Forall outside (sv_tasks (act max s a)) →
  Forall outside (sv_tasks s) ∧
  (e_auth_required (sv_engine s) = true →
   sv_engine (act max s a) = match a with Sweep env n => (sweep_expired env n (sv_engine s)).2 | _ => sv_engine s end).
Proof using Type.
  destruct a as [peer writes| |i ev|i ce|i| |env n]; simpl; try done.
  - unfold accept. repeat case_match; try done. simpl. by intros [Ho _]%Forall_app.
  - apply on_task_gated, deliver_gated.
  - apply on_task_gated, round_gated.
  - apply on_task_gated. by intros t [_ []].
Qed.

Lemma run_gated max acts e :
  e_auth_required e = true → Forall outside (sv_tasks (run max acts (listening e))) →
  sv_engine (run max acts (listening e)) = sv_engine (run max (List.filter background acts) (listening e)) ∧
  e_auth_required (sv_engine (run max acts (listening e))) = true.
Proof using Type.
  intros Hreq. induction acts as [|a acts IH] using rev_ind; [done|]. rewrite run_snoc, List.filter_app.
  intros [Ho He]%act_gated. destruct (IH Ho) as [IH1 IH2]. rewrite He by done.
  destruct a; simpl; rewrite ?app_nil_r; try done.
  rewrite run_snoc. simpl. rewrite <- IH1. split; [done|]. by rewrite sweep_auth.
Qed.
End gate.

(** C13: The password keeps strangers out of the whole server: in any run of a server with a password, as long as no client has authenticated (or become a monitor, which is not gated), the engine is exactly what the sweeper alone would have made of it, whatever the clients sent, however many they are and however their frames interleave. *)
Theorem server_auth_gate `{IndexMap} `{HashIter} max acts e :
  e_auth_required e = true →
  (∀ t, t ∈ sv_tasks (run max acts (listening e)) → outside t) →
  sv_engine (run max acts (listening e)) = sv_engine (run max (List.filter background acts) (listening e)).
Proof. intros Hreq Ho. apply run_gated; [done|]. by apply Forall_forall. Qed.

(** ** A client alone *)

Section alone.
Context `{IndexMap} `{HashIter}.

(** A task that drains with nobody else moving; the environment of each command is
    that of its number. *)
Fixpoint alone (fuel : nat) (envs : nat → CmdEnv) (t : Task) : Task :=
  match fuel with
  | O => t
  | S fuel => if is_draining (tk_phase t) then alone fuel envs (round (envs (cn_count (tk_conn t))) t) else t
  end.

Lemma alone_idle fuel envs t : is_draining (tk_phase t) = false → alone fuel envs t = t.
Proof using Type. destruct fuel; simpl; [done|]. by intros ->. Qed.

Lemma drain_first fuel envs peer c :
  drain (S fuel) envs peer c =
  match parse_frame (cn_inbuf c) with
  | Ok Incomplete => (c, FOpen)
  | _ => match drain 1 (λ _, envs (cn_count c)) peer c with
         | (d, FOpen) => drain fuel envs peer d
         | r => r
         end
  end.
Proof using Type.
  cbn [drain]. destruct (parse_frame (cn_inbuf c)) as [[cmd n|err n|]|err]; try done.
  - destruct (on_command _ peer cmd c) as [x []]; try done. by destruct (after_frame n x) as [y []].
  - by destruct (after_frame n _) as [y []].
Qed.

Lemma drain_one_shrinks ce peer c d :
  (∀ x, parse_frame (cn_inbuf c) = Ok x → x ≠ Incomplete) → drain 1 (λ _, ce) peer c = (d, FOpen) →
  (length (cn_inbuf d) < length (cn_inbuf c))%nat.
Proof using Type.
  intros Hne. cbn [drain]. destruct (parse_frame (cn_inbuf c)) as [[cmd n|err n|]|err] eqn:E;
    [| |by destruct (Hne _ eq_refl)|done];
    pose proof (parse_frame_consumed _ _ E ltac:(done)) as Hn; simpl in Hn.
  - pose proof (on_command_keeps_inbuf ce peer cmd c) as Hb. destruct (on_command ce peer cmd c) as [x []]; try done.
    pose proof (after_frame_inbuf n x) as Hb'. destruct (after_frame n x) as [y []]; try done.
    intros [= <-]. simpl in *. rewrite Hb', Hb, length_drop. lia.
  - match goal with |- context [after_frame n ?x] => pose proof (after_frame_inbuf n x) as Hb';
      destruct (after_frame n x) as [y []] end; try done.
    intros [= <-]. simpl in *. rewrite Hb', length_drop. lia.
Qed.

(** Its rounds are the drain loop of [handle_client]. *)
Lemma alone_drains fuel envs peer c :
  (length (cn_inbuf c) < fuel)%nat →
  let r := settle (drain fuel envs peer c) in
  alone fuel envs {| tk_conn := c; tk_peer := peer; tk_phase := Draining |}
  = {| tk_conn := r.1; tk_peer := peer; tk_phase := phase_after Waiting r.2 |}.
Proof using Type.
  revert c. induction fuel as [|fuel IH]; intros c Hf; [lia|]. rewrite drain_first.
  cbn [alone is_draining tk_phase tk_conn]. unfold round at 1. cbn [tk_conn tk_peer].
  destruct (parse_frame (cn_inbuf c)) as [x|x] eqn:E; [destruct x as [cmd n|err n|]|].
  3: { apply alone_idle. by destruct (settle (c, FOpen)) as [d []]. }
  all: destruct (drain 1 _ peer c) as [d f] eqn:Ed; cbn [fst snd]; destruct f; try by apply alone_idle.
  all: cbn [phase_after]; apply IH; apply drain_one_shrinks in Ed; [lia|]; rewrite E; by intros ? [= <-].
Qed.

(** A chunk delivered to a waiting client and drained with nobody else moving is what
    [on_chunk], and so [handle_client], makes of it. *)
Lemma alone_on_chunk envs chunk t :
  tk_phase t = Waiting →
  let r := on_chunk envs (tk_peer t) chunk (tk_conn t) in
  alone (S (length (cn_inbuf (tk_conn t) ++ chunk))) envs (deliver false (RBytes chunk) t)
  = {| tk_conn := r.1; tk_peer := tk_peer t; tk_phase := phase_after Waiting r.2 |}.
Proof using Type. intros _. rewrite on_chunk_settle. apply alone_drains. simpl. lia. Qed.
End alone.

(** ** Examples *)

(** Two clients whose pipelines interleave, and a third that is refused. *)
Definition two_clients : list Action :=
  let ce := cmd_env_at 1 in
  [ Accept (Some (str "a")) []; Accept (Some (str "b")) []; Accept (Some (str "c")) [];
    Deliver 0 (RBytes (encode_command [str "SET"; str "k"; str "1"] ++ encode_command [str "GET"; str "k"]));
    Deliver 1 (RBytes (encode_command [str "INCR"; str "k"] ++ str "*1"));
    Round 0 ce; Round 1 ce; Round 0 ce; Sweep (env_at 2) 20; Round 0 ce; Round 1 ce; Deliver 1 REof; Trigger ].

Lemma server_replies_witness :
  let s := run 2 two_clients (listening (engine_new (clock_at 0))) in
  let xs := along exchange 2 two_clients (listening (engine_new (clock_at 0))) 0 in
  ∃ t, sv_tasks s !! 0%nat = Some t ∧ length xs = 2%nat ∧
    cn_sent (tk_conn t) = concat (map (reply_to (str "a")) xs) ∧
    concat (map (reply_to (str "a")) xs) = str "+OK" ++ CRLF ++ str "$1" ++ CRLF ++ str "2" ++ CRLF.
Proof.
  intros s xs.
  assert (Hc : option_map (λ t, (is_waiting (tk_phase t), tk_peer t)) (sv_tasks s !! 0%nat)
    = Some (true, str "a")) by (vm_compute; reflexivity).
  destruct (sv_tasks s !! 0%nat) as [t|] eqn:Et; [|discriminate Hc].
  pose proof (server_replies 2 two_clients (engine_new (clock_at 0)) 0 t Et) as Ht.
  injection Hc as Hp Hpeer. assert (Hw : tk_phase t = Waiting) by (by destruct (tk_phase t)).
  rewrite Hw in Ht. destruct Ht as (_ & _ & _ & Hws). specialize (Hws eq_refl). rewrite Hpeer in Hws.
  exists t. split; [exact eq_refl|]. split; [vm_compute; reflexivity|]. split; [exact Hws|].
  vm_compute. reflexivity.
Defined.

Lemma server_limit_witness :
  let s := run 2 two_clients (listening (engine_new (clock_at 0))) in
  sv_active s = open_tasks (sv_tasks s) ∧ open_tasks (sv_tasks s) ≤ 2 ∧
  sv_active s = 1 ∧ length (sv_refused s) = 1%nat.
Proof.
  intros s. destruct (server_limit 2 two_clients (engine_new (clock_at 0))) as [H1 H2]; [lia|].
  split; [exact H1|]. split; [apply H2; lia|]. split; vm_compute; reflexivity.
Defined.

(** Two strangers at a server with a password. *)
Definition strangers : list Action :=
  let ce := cmd_env_at 1 in
  [ Accept (Some (str "a")) []; Accept (Some (str "b")) [];
    Deliver 0 (RBytes (encode_command [str "AUTH"; str "guess"] ++ encode_command [str "FLUSHDB"]));
    Deliver 1 (RBytes (encode_command [str "SET"; str "k"; str "1"]));
    Round 0 ce; Round 1 ce; Sweep (env_at 2) 20; Round 0 ce; Round 0 ce; Round 1 ce ].

Lemma server_auth_gate_witness :
  sv_engine (run 0 strangers (listening secured))
  = sv_engine (run 0 (List.filter background strangers) (listening secured)).
Proof.
  apply (server_auth_gate 0 strangers secured); [by vm_compute|].
  intros t Ht. assert (Hall : forallb (λ t, negb (cn_authed (tk_conn t)) && is_waiting (tk_phase t))
    (sv_tasks (run 0 strangers (listening secured))) = true) by (vm_compute; reflexivity).
  rewrite forallb_forall in Hall. apply list_elem_of_In in Ht. apply Hall in Ht.
  apply andb_prop in Ht as [Ha Hp]. split; [by apply negb_true_iff|]. by destruct (tk_phase t).
Defined.
