(* ===== verification/Monitor.v ===== *)
(** * MONITOR streams (src/src/network/monitor.rs, src/src/network/server.rs)

    Clients that monitor the server, beside the clients whose commands they watch:
    [MonitorRegistry::subscribe] and [send] with its purge of dead senders, and
    [run_monitor_loop], which takes messages from its channel and writes a line for each.
    Executions, subscriptions, printing and the end of a stream interleave in any order.
    A channel is the queue in the registry of the engine; a session finds its own by
    counting the sessions before it that are still registered. The specification keeps one
    mailbox per session and looks at the commands alone; the theorem is that what a stream
    has printed, with what waits in its channel, is its mailbox. *)
From S2P Require Import Prelude Numeric Text Error Encoder Command Parser IndexMap Eviction Entry Aof Engine WriteGuard Commands Frames EngineInv Server Connection.
From Stdlib Require Import ZArith Lia Strings.Byte.
From stdpp Require Import gmap strings numbers list.
Local Open Scope Z_scope.

(** A MONITOR connection after its [+OK]: whether its loop runs (it holds the receiver),
    whether its sender is still in the registry, and what it has written. *)
Record Session := { sn_open : bool; sn_listed : bool; sn_sent : bytes }.
Definition subscribed : Session := {| sn_open := true; sn_listed := true; sn_sent := [] |}.

(** Where the sender of session [i] is in the registry. *)
Fixpoint slot (i : nat) (ss : list Session) : nat :=
  match i, ss with
  | S i, s :: ss => (if sn_listed s then 1 else 0) + slot i ss
  | _, _ => 0
  end%nat.

(** [send] drops the senders whose receiver is gone. *)
Definition purge (s : Session) : Session :=
  {| sn_open := sn_open s; sn_listed := sn_listed s && sn_open s; sn_sent := sn_sent s |}.

Section monitor.
Context `{IndexMap} `{HashIter}.

Record State := { st_engine : Engine; st_sessions : list Session }.

Inductive Action :=
| Exec (ce : CmdEnv) (peer : bytes) (cmd : Command) (v : ProtocolVersion)
| Subscribe
| Print (i : nat) (written : bool)    (* [rx.recv()], and whether the write succeeds *)
| Close (i : nat)                     (* the shutdown signal *)
| Sweep (env : Env) (sample : Z).

(** The loop of session [i] ends and its receiver goes. *)
Definition close (i : nat) (s : Session) (tx : Sender) (st : State) : State := {|
  st_engine := set_monitor_registry
    (<[slot i (st_sessions st) := {| tx_open := false; tx_queue := [] |}]> (e_monitor_registry (st_engine st))) (st_engine st);
  st_sessions := <[i := {| sn_open := false; sn_listed := sn_listed s; sn_sent := sn_sent s |}]> (st_sessions st) |}.

Definition act (st : State) (a : Action) : State :=
  match a with
  | Exec ce peer cmd v =>
      {| st_engine := match execute_command ce cmd (Some peer) v (st_engine st, []) with
                      | Some (e, _) => e
                      | None => before_dispatch ce cmd (Some peer) (st_engine st)
                      end;
         st_sessions := if is_monitor_meta cmd then st_sessions st else purge <$> st_sessions st |}
  | Subscribe => {| st_engine := (monitor_subscribe (st_engine st)).2; st_sessions := st_sessions st ++ [subscribed] |}
  | Print i written =>
      match st_sessions st !! i, e_monitor_registry (st_engine st) !! slot i (st_sessions st) with
      | Some s, Some tx =>
          if negb (sn_open s) then st
          else match tx_queue tx with
               | [] => st
               | m :: q =>
                   if written then
                     {| st_engine := set_monitor_registry
                          (<[slot i (st_sessions st) := {| tx_open := true; tx_queue := q |}]> (e_monitor_registry (st_engine st)))
                          (st_engine st);
                        st_sessions := <[i := {| sn_open := true; sn_listed := sn_listed s;
                                                 sn_sent := sn_sent s ++ monitor_line m |}]> (st_sessions st) |}
                   else close i s tx st
               end
      | _, _ => st
      end
  | Close i =>
      match st_sessions st !! i, e_monitor_registry (st_engine st) !! slot i (st_sessions st) with
      | Some s, Some tx => if sn_open s then close i s tx st else st
      | _, _ => st
      end
  | Sweep env sample => {| st_engine := (sweep_expired env sample (st_engine st)).2; st_sessions := st_sessions st |}
  end.

Definition run (acts : list Action) (st : State) : State := fold_left act acts st.

(** ** The specification: mailboxes *)

(** The commands that are shown: all but these three. *)
Definition shown (cmd : Command) : bool :=
  match cmd with
  | CSlowLog _ _ => false    (* SLOWLOG *)
  | CRewriteAof => false     (* BGREWRITEAOF *)
  | CMonitor => false        (* MONITOR *)
  | _ => true
  end.

(** What a command puts into every mailbox. *)
Definition message (ce : CmdEnv) (peer : bytes) (cmd : Command) : list MonitorMessage :=
  if shown cmd
  then [{| mm_timestamp_ms := current_epoch_ms (ce_monitor ce); mm_peer := peer; mm_args := args_redacted cmd |}]
  else [].

Definition mail (boxes : list (list MonitorMessage)) (a : Action) : list (list MonitorMessage) :=
  match a with
  | Exec ce peer cmd _ => map (λ box, box ++ message ce peer cmd) boxes
  | Subscribe => boxes ++ [[]]
  | _ => boxes
  end.
Definition mailboxes (acts : list Action) : list (list MonitorMessage) := fold_left mail acts [].

Definition lines_of (l : list MonitorMessage) : bytes := concat (map monitor_line l).

(** ** The registry is touched by broadcasts alone *)

#[local] Instance registry_stable x : Stable (λ e, e_monitor_registry e = x).
Proof. by split. Qed.
#[local] Instance registry_reads x : StableReads (λ e, e_monitor_registry e = x).
Proof. by split. Qed.

Lemma call_registry {A} (m : SE Engine FerrumError A) render s :
  (∀ x, preserves (λ e, e_monitor_registry e = x) m) → e_monitor_registry (call m render s).1 = e_monitor_registry s.1.
Proof using Type. destruct s as [e out]. intros Hm. unfold call. specialize (Hm _ e eq_refl). by destruct (m e) as [r e']. Qed.

Definition arm_engine (a : Arm) (e : Engine) : Engine := match a with Next s | Return s => s.1 | Panic => e end.

Lemma config_registry p x s : e_monitor_registry (config_set p x s).1 = e_monitor_registry s.1.
Proof using Type.
  destruct s as [e out]. unfold config_set, fail, ok, say. cbn [fst snd].
  destruct (negb _); [done|]. destruct (negb _); [done|].
  destruct (bytes_eqb _ _); [by apply call_registry; intros y; apply preserves_modify|].
  destruct (config_set_eviction _ _ _) as [[cfg|]|]; [|done|].
  - apply call_registry. intros y. apply preserves_modify. intros e1 <-. cbv beta zeta. repeat case_match; done.
  - repeat case_match; done.
Qed.

Lemma dispatch_registry ce v cmd s : e_monitor_registry (arm_engine (dispatch ce v cmd s) s.1) = e_monitor_registry s.1.
Proof using Type.
  assert (Hc : ∀ A (m : SE Engine FerrumError A) render,
    (∀ x, preserves (λ e, e_monitor_registry e = x) m) →
    e_monitor_registry (arm_engine (Next (call m render s)) s.1) = e_monitor_registry s.1)
    by (intros A m render Hm; by apply call_registry).
  destruct cmd; cbn [dispatch]; try done;
    try (apply Hc; intros x; first [apply stable_set|apply stable_get, _|apply stable_incr_by|apply stable_incr_by_float
      |apply stable_append|apply stable_mget, _|apply stable_exists_many, _|apply stable_expire_at_ms|apply stable_rewrite_aof
      |apply preserves_gets|apply (stable_others _ (ce_env ce) key value [] [])|apply (stable_others _ (ce_env ce) key key [] [])
      |apply (stable_others _ (ce_env ce) [] [] pairs [])|apply (stable_others _ (ce_env ce) [] [] [] keys)
      |apply (stable_others _ (ce_env ce) [] [] [] [])]; apply _).
  all: try (destruct s; unfold fail, say; done).
  - destruct s, msg; done.
  - unfold config_arm. destruct (eq_ignore_ascii_case _ _); [destruct args; [done|by destruct s]|].
    destruct (eq_ignore_ascii_case _ _); [|by destruct s]. destruct args as [|p [|x l]]; [done..|apply config_registry].
  - unfold slowlog_arm. destruct (eq_ignore_ascii_case sub (str "GET")); [destruct s; repeat case_match; done|].
    destruct (eq_ignore_ascii_case sub (str "LEN")); [by destruct s|].
    destruct (eq_ignore_ascii_case sub (str "RESET")); [|by destruct s]. apply Hc. intros x. by apply preserves_modify.
Qed.

Lemma exec_registry ce peer cmd v st :
  e_monitor_registry (st_engine (act st (Exec ce peer cmd v)))
  = e_monitor_registry (before_dispatch ce cmd (Some peer) (st_engine st)).
Proof using Type.
  cbn [act st_engine]. unfold execute_command. cbn [fst snd].
  set (e := before_dispatch ce cmd (Some peer) (st_engine st)).
  pose proof (dispatch_registry ce v cmd (e, [])) as Hd. cbn [fst snd] in Hd.
  destruct (dispatch ce v cmd (e, [])) as [[e' out]|[e' out]|]; cbn [arm_engine fst] in Hd; [|done|done].
  rewrite <- Hd. unfold after_dispatch. case_match; [|done]. unfold maybe_push_slowlog, modify. cbn [snd]. by case_match.
Qed.

(** ** Sessions, mailboxes and channels side by side *)

Definition good (s : Session) (box : list MonitorMessage) (tx : Sender) : Prop :=
  tx_open tx = sn_open s ∧ (sn_open s = true → sn_sent s ++ lines_of (tx_queue tx) = lines_of box).

Fixpoint woven (ss : list Session) (boxes : list (list MonitorMessage)) (l : list Sender) : Prop :=
  match ss, boxes with
  | [], [] => l = []
  | s :: ss, box :: boxes =>
      if sn_listed s then match l with tx :: l => good s box tx ∧ woven ss boxes l | [] => False end
      else sn_open s = false ∧ woven ss boxes l
  | _, _ => False
  end.

Lemma lines_snoc l m : lines_of (l ++ [m]) = lines_of l ++ monitor_line m.
Proof using Type. unfold lines_of. rewrite map_app, concat_app. cbn. by rewrite app_nil_r. Qed.

(** A broadcast. *)
Lemma woven_send m ss boxes l :
  woven ss boxes l →
  woven (purge <$> ss) (map (λ box, box ++ [m]) boxes)
    (map (λ tx, {| tx_open := true; tx_queue := tx_queue tx ++ [m] |}) (List.filter tx_open l)).
Proof using Type.
  revert boxes l. induction ss as [|s ss IH]; intros [|box boxes] l; cbn; try done; [by intros ->|].
  destruct (sn_listed s) eqn:Es; cbn.
  - destruct l as [|tx l]; [done|]. intros [[Ho Hq] Hw]. apply IH in Hw. cbn. rewrite Ho.
    destruct (sn_open s) eqn:Eo; cbn; [|by split]. split; [|done]. split; [done|]. intros _. cbn.
    fold (lines_of (tx_queue tx ++ [m])). rewrite !lines_snoc, app_assoc. f_equal. by apply Hq.
  - intros [Ho Hw]. apply IH in Hw. done.
Qed.

(** With nobody registered, nobody is listening. *)
Lemma woven_silent f ss boxes : woven ss boxes [] → woven (purge <$> ss) (map f boxes) [].
Proof using Type.
  revert boxes. induction ss as [|s ss IH]; intros [|box boxes]; cbn; try done.
  destruct (sn_listed s); cbn; [done|]. intros [Ho Hw]. split; [done|]. by apply IH.
Qed.

Lemma woven_subscribe ss boxes l :
  woven ss boxes l → woven (ss ++ [subscribed]) (boxes ++ [[]]) (l ++ [{| tx_open := true; tx_queue := [] |}]).
Proof using Type.
  revert boxes l. induction ss as [|s ss IH]; intros [|box boxes] l; cbn; try done; [by intros ->|].
  destruct (sn_listed s); [|intros [Ho Hw]; split; [done|by apply IH]].
  destruct l as [|tx l]; [done|]. intros [Hg Hw]. split; [done|by apply IH].
Qed.

(** The channel of an open session, and what may happen to it. *)
Lemma woven_at ss boxes l i s :
  woven ss boxes l → ss !! i = Some s → sn_open s = true →
  ∃ box tx, boxes !! i = Some box ∧ l !! slot i ss = Some tx ∧ good s box tx ∧
    ∀ s' tx', sn_listed s' = sn_listed s → good s' box tx' → woven (<[i := s']> ss) boxes (<[slot i ss := tx']> l).
Proof using Type.
  revert boxes l i. induction ss as [|x ss IH]; intros [|box boxes] l [|i]; cbn; try done.
  - intros Hw [= ->] Ho. destruct (sn_listed s) eqn:El; [|destruct Hw; congruence].
    destruct l as [|tx l]; [done|]. destruct Hw as [Hg Hw]. exists box, tx. split_and!; try done.
    intros s' tx' Hl Hg'. by rewrite Hl.
  - intros Hw Hi Ho. destruct (sn_listed x) eqn:El.
    + destruct l as [|tx l]; [done|]. destruct Hw as [Hg Hw].
      destruct (IH _ _ _ Hw Hi Ho) as (b & t & H1 & H2 & H3 & H4). exists b, t. split_and!; try done.
      intros s' tx' Hl Hg'. split; [done|by apply H4].
    + destruct Hw as [Hx Hw]. destruct (IH _ _ _ Hw Hi Ho) as (b & t & H1 & H2 & H3 & H4). exists b, t.
      split_and!; try done. intros s' tx' Hl Hg'. split; [done|by apply H4].
Qed.

Definition fine (st : State) (boxes : list (list MonitorMessage)) : Prop :=
  woven (st_sessions st) boxes (e_monitor_registry (st_engine st)).

Lemma exec_fine ce peer cmd v st boxes :
  fine st boxes → fine (act st (Exec ce peer cmd v)) (mail boxes (Exec ce peer cmd v)).
Proof using Type.
  unfold fine. rewrite exec_registry. cbn [act st_sessions mail]. intros Hw. unfold before_dispatch, message.
  assert (Hm : is_monitor_meta cmd = negb (shown cmd)) by (by destruct cmd). rewrite Hm.
  destruct (shown cmd); cbn [negb andb].
  2:
  { rewrite (map_ext _ id) by (intros box; apply app_nil_r). by rewrite map_id. }
  unfold has_subscribers. cbn [e_monitor_registry set_total_commands]. destruct (e_monitor_registry (st_engine st)) eqn:E.
  - cbn. rewrite E. by apply woven_silent.
  - unfold monitor_send, modify. cbn [snd e_monitor_registry set_monitor_registry set_total_commands]. rewrite E. by apply woven_send.
Qed.

Lemma close_fine i s st boxes tx :
  fine st boxes → st_sessions st !! i = Some s → sn_open s = true → fine (close i s tx st) boxes.
Proof using Type.
  intros Hw Hi Ho. destruct (woven_at _ _ _ _ _ Hw Hi Ho) as (box & tx0 & _ & _ & _ & Hset).
  unfold fine, close. cbn. apply Hset; [done|]. by split.
Qed.

Lemma act_fine st boxes a : fine st boxes → fine (act st a) (mail boxes a).
Proof using Type.
  intros Hw. destruct a as [ce peer cmd v| |i w|i|env n].
  - by apply exec_fine.
  - unfold fine. cbn. by apply woven_subscribe.
  - cbn [act mail]. destruct (st_sessions st !! i) as [s|] eqn:Ei; [|done].
    destruct (e_monitor_registry (st_engine st) !! _) as [tx|] eqn:Et; [|done].
    destruct (sn_open s) eqn:Eo; [|done]. cbn [negb]. destruct (tx_queue tx) as [|m q] eqn:Eq; [done|].
    destruct w; [|by apply close_fine].
    destruct (woven_at _ _ _ _ _ Hw Ei Eo) as (box & tx0 & Hb & Ht & [Hg1 Hg2] & Hset).
    unfold fine. cbn. apply Hset; [done|]. split; [done|]. intros _. cbn. rewrite Et in Ht. injection Ht as <-.
    rewrite <- app_assoc. rewrite <- (Hg2 Eo), Eq. done.
  - cbn [act mail]. destruct (st_sessions st !! i) as [s|] eqn:Ei; [|done].
    destruct (e_monitor_registry (st_engine st) !! _) as [tx|] eqn:Et; [|done].
    destruct (sn_open s) eqn:Eo; [|done]. by apply close_fine.
  - unfold fine. cbn [act mail st_engine st_sessions].
    by rewrite (stable_sweep (λ e, e_monitor_registry e = e_monitor_registry (st_engine st)) env n (st_engine st) eq_refl).
Qed.

Lemma run_fine acts st boxes : fine st boxes → fine (run acts st) (fold_left mail acts boxes).
Proof using Type.
  revert st boxes. induction acts as [|a acts IH]; intros st boxes Hw; [done|]. cbn [run fold_left]. apply IH. by apply act_fine.
Qed.

(** Printing what waits. *)
Lemma print_all q i s st :
  st_sessions st !! i = Some s → sn_open s = true →
  e_monitor_registry (st_engine st) !! slot i (st_sessions st) = Some {| tx_open := true; tx_queue := q |} →
  ∃ s', st_sessions (run (repeat (Print i true) (length q)) st) !! i = Some s' ∧ sn_open s' = true ∧
    sn_sent s' = sn_sent s ++ lines_of q.
Proof using Type.
  revert s st. induction q as [|m q IH]; intros s st Hi Ho Ht; cbn [length repeat run fold_left].
  { exists s. by rewrite app_nil_r. }
  cbn [act]. rewrite Hi, Ht, Ho. cbn [negb tx_queue].
  edestruct (IH {| sn_open := true; sn_listed := sn_listed s; sn_sent := sn_sent s ++ monitor_line m |}) as (s' & H1 & H2 & H3).
  4: { exists s'. split; [exact H1|]. split; [done|]. rewrite H3. cbn [sn_sent]. by rewrite <- app_assoc. }
  - cbn. rewrite list_lookup_insert_eq; [done|]. by eapply lookup_lt_Some.
  - done.
  - cbn [st_engine st_sessions]. assert (Hslot : ∀ s', sn_listed s' = sn_listed s → ∀ ss, ss !! i = Some s → slot i (<[i := s']> ss) = slot i ss).
    { intros s'' Hl. clear. induction i as [|i IHi]; intros [|x ss]; cbn; try done. intros Hss. by rewrite IHi. }
    rewrite Hslot by done. cbn. rewrite list_lookup_insert_eq; [done|]. by eapply lookup_lt_Some.
Qed.
End monitor.

(** C16: a MONITOR stream shows each executed command once, in order, apart from
    [SLOWLOG], [BGREWRITEAOF] and [MONITOR], which are never shown. However
    executions of [execute_command], subscriptions, printing, closing streams and sweeps
    interleave, what an open stream has written followed by the lines of what waits
    in its channel is exactly the lines of the other commands executed since it
    subscribed ([AUTH] masked); streams that end do not disturb the others, and a
    stream that is written to often enough catches up. What the connection layer
    answers itself ([AUTH], [HELLO], refused and malformed frames) is not executed
    and so not shown. *)
Theorem monitor_delivers `{IndexMap} `{HashIter} (acts : list Action) e i s :
  e_monitor_registry e = [] →
  let st := run acts {| st_engine := e; st_sessions := [] |} in
  st_sessions st !! i = Some s → sn_open s = true →
  ∃ box tx, mailboxes acts !! i = Some box ∧
    e_monitor_registry (st_engine st) !! slot i (st_sessions st) = Some tx ∧ tx_open tx = true ∧
    sn_sent s ++ lines_of (tx_queue tx) = lines_of box ∧
    ∃ s', st_sessions (run (repeat (Print i true) (length (tx_queue tx))) st) !! i = Some s' ∧ sn_sent s' = lines_of box.
Proof.
  intros He st Hi Ho. assert (Hf : fine st (mailboxes acts)) by (apply run_fine; unfold fine; cbn; done).
  destruct (woven_at _ _ _ _ _ Hf Hi Ho) as (box & tx & Hb & Ht & [Hg1 Hg2] & _). rewrite Ho in Hg1. specialize (Hg2 Ho).
  exists box, tx. split_and!; try done.
  destruct (print_all (tx_queue tx) i s st Hi Ho) as (s' & H1 & _ & H3); [rewrite Ht; by destruct tx; cbn in Hg1; subst|].
  exists s'. split; [done|]. by rewrite H3.
Qed.

(** Two streams: one is closed before the second command, the other has a line to come. *)
Definition two_monitors : list Action :=
  [Subscribe; Subscribe; Exec (cmd_env_at 5) (str "a") (CSet (str "k") (str "v")) Resp2; Print 1 true; Close 0;
   Exec (cmd_env_at 6) (str "b") (CSlowLog (str "GET") []) Resp2; Exec (cmd_env_at 7) (str "b") (CGet (str "k")) Resp3].

(** A [BGREWRITEAOF] leaves no trace in any stream, although every processed command is
    said to be shown. *)
Example rewrite_not_shown :
  let st := run [Subscribe; Exec (cmd_env_at 5) (str "a") CRewriteAof Resp2]
    {| st_engine := engine_new (clock_at 0); st_sessions := [] |} in
  map tx_queue (e_monitor_registry (st_engine st)) = [[]].
Proof. vm_compute. reflexivity. Qed.

Lemma monitor_delivers_witness :
  let st := run two_monitors {| st_engine := engine_new (clock_at 0); st_sessions := [] |} in
  ∃ s box tx, st_sessions st !! 1%nat = Some s ∧ mailboxes two_monitors !! 1%nat = Some box ∧ length box = 2%nat ∧
    e_monitor_registry (st_engine st) = [tx] ∧ sn_sent s ++ lines_of (tx_queue tx) = lines_of box.
Proof.
  assert (Hs : ∃ s, st_sessions (run two_monitors {| st_engine := engine_new (clock_at 0); st_sessions := [] |}) !! 1%nat = Some s ∧
    sn_open s = true) by (eexists; vm_compute; split; reflexivity).
  destruct Hs as (s & Hs & Ho).
  destruct (monitor_delivers two_monitors (engine_new (clock_at 0)) 1 s) as (box & tx & Hb & Ht & _ & Hq & _);
    [reflexivity|exact Hs|exact Ho|].
  exists s, box, tx. split_and!; [exact Hs|exact Hb| | |exact Hq].
  - vm_compute in Hb. by injection Hb as <-.
  - vm_compute in Ht. injection Ht as <-. vm_compute. reflexivity.
Defined.

(** [args_redacted] masks [AUTH], which never gets here, and not [CONFIG SET requirepass]:
    the new password is shown to every stream, and MONITOR needs no password. *)
Example monitor_shows_password :
  let st := run [Subscribe; Exec (cmd_env_at 5) (str "1.2.3.4:5") (CConfig (str "SET") [str "requirepass"; str "s3cret"]) Resp2;
                 Print 0 true] {| st_engine := engine_new (clock_at 0); st_sessions := [] |} in
  sn_sent <$> st_sessions st !! 0%nat
  = Some (str "+1700000000005 [1.2.3.4:5] " ++ [x22] ++ str "CONFIG" ++ [x22; x20; x22] ++ str "SET" ++ [x22; x20; x22] ++ str "requirepass"
          ++ [x22; x20; x22] ++ str "s3cret" ++ [x22] ++ CRLF).
Proof. vm_compute. reflexivity. Qed.
