(* ===== verification/Spec.v ===== *)
(** * The abstract key-value store

    What the data commands promise, without locks, lazy expiry, indexes, memory
    accounting or logging: a finite map from keys to values with optional
    deadlines, in which a key whose deadline has passed does not exist. *)
From S2P Require Import Prelude Numeric Text Error Floats IndexMap Eviction Entry Sieve AdaptiveClimb Glob Aof Engine WriteGuard Commands.
From Stdlib Require Import ZArith Lia SpecFloat.
From stdpp Require Import gmap strings numbers list.
Local Open Scope Z_scope.

(** Values with their deadlines. *)
Abbreviation kv := (gmap bytes (bytes * option Z)).

Definition alive (now : Z) (p : bytes * option Z) : bool :=
  match p.2 with Some deadline => negb (deadline <=? now) | None => true end.

(** The keys that exist at an instant. *)
Definition live (now : Z) (m : kv) : kv :=
  filter (λ p : bytes * (bytes * option Z), alive now p.2 = true) m.

(** What a command answers. *)
Inductive Reply :=
| RUnit
| RBulk (o : option bytes)
| RBulks (l : list (option bytes))
| RBool (b : bool)
| RInt (z : Z)
| RFloat (x : spec_float)
| RTtl (t : TtlStatus)
| RSize (o : option Z)
| RKeys (l : list bytes)
| RStats (count avg : Z).

Abbreviation outcome := (result FerrumError Reply).

(** ** The commands *)

Definition valid (key value : bytes) : res () :=
  match validate_key key with Ok _ => validate_value value | Err e => Err e end.

Fixpoint valid_all (pairs : list (bytes * bytes)) : res () :=
  match pairs with
  | [] => Ok tt
  | p :: pairs => match valid p.1 p.2 with Ok _ => valid_all pairs | Err e => Err e end
  end.

(** Deletes one key after the other, counting those that existed. *)
Fixpoint spec_del (keys : list bytes) (m : kv) : Z * kv :=
  match keys with
  | [] => (0, m)
  | k :: keys =>
      let '(n, m') := spec_del keys (delete k m) in
      (match m !! k with Some _ => 1 + n | None => n end, m')
  end.

Definition spec_exists (keys : list bytes) (m : kv) : Z :=
  blen (List.filter (λ k, bool_decide (is_Some (m !! k))) keys).

(** The number a counter command starts from, with the deadline it keeps. *)
Definition counter_at (k : bytes) (m : kv) : res (Z * option Z) :=
  match m !! k with
  | None => Ok (0, None)
  | Some (d, t) =>
      if negb (utf8_valid d) then Err not_integer
      else match parse_i64 d with Some n => Ok (n, t) | None => Err not_integer end
  end.

Definition float_at (k : bytes) (m : kv) : res (spec_float * option Z) :=
  match m !! k with
  | None => Ok (F64.zero, None)
  | Some (d, t) =>
      if negb (utf8_valid d) then Err not_float
      else match F64.parse d with Some n => Ok (n, t) | None => Err not_float end
  end.

Definition spec_incr (k : bytes) (delta : Z) (m : kv) : outcome * kv :=
  match validate_key k with
  | Err e => (Err e, m)
  | Ok _ =>
      match counter_at k m with
      | Err e => (Err e, m)
      | Ok (n, t) =>
          match checked_i64 (n + delta) with
          | None => (Err not_integer, m)
          | Some n' => (Ok (RInt n'), <[k := (to_string_i n', t)]> m)
          end
      end
  end.

Definition spec_incr_float (k : bytes) (delta : spec_float) (m : kv) : outcome * kv :=
  match validate_key k with
  | Err e => (Err e, m)
  | Ok _ =>
      match float_at k m with
      | Err e => (Err e, m)
      | Ok (n, t) =>
          let n' := F64.add n delta in
          if negb (F64.is_finite n')
          then (Err (ParseError (str "increment would produce NaN or Infinity")), m)
          else (Ok (RFloat n'), <[k := (F64.to_string n', t)]> m)
      end
  end.

Definition spec_append (k suffix : bytes) (m : kv) : outcome * kv :=
  match validate_key k with
  | Err e => (Err e, m)
  | Ok _ =>
      let '(d, t) := match m !! k with Some (d, t) => (d ++ suffix, t) | None => (suffix, None) end in
      match validate_value d with
      | Err e => (Err e, m)
      | Ok _ => (Ok (RInt (blen d)), <[k := (d, t)]> m)
      end
  end.

Definition spec_expire_at (now now_ms : Z) (k : bytes) (abs_ms : Z) (m : kv) : outcome * kv :=
  match m !! k with
  | None => (Ok (RBool false), m)
  | Some (d, _) =>
      if abs_ms <=? now_ms then (Ok (RBool true), delete k m)
      else (Ok (RBool true), <[k := (d, Some (now + wrap64 (abs_ms - now_ms) * 1000000))]> m)
  end.

Definition spec_persist (k : bytes) (m : kv) : outcome * kv :=
  match m !! k with
  | Some (d, Some _) => (Ok (RBool true), <[k := (d, None)]> m)
  | _ => (Ok (RBool false), m)
  end.

Definition spec_ttl (now : Z) (k : bytes) (m : kv) : TtlStatus :=
  match m !! k with
  | None => Missing
  | Some (_, None) => NoExpire
  | Some (_, Some deadline) => Millis (as_i64 (sat_sub deadline now / 1000000))
  end.

(** The keys a scan may answer: live, matching, without repetition, and all of
    them if there are fewer than the limit. *)
Record scan_answer (pattern : bytes) (m : kv) (keys : list bytes) : Prop := {
  scan_nodup : NoDup keys;
  scan_sound k : k ∈ keys → is_Some (m !! k) ∧ glob_match pattern k = true;
  scan_bound : blen keys ≤ SCAN_KEYS_LIMIT;
  scan_complete k : blen keys < SCAN_KEYS_LIMIT → is_Some (m !! k) →
    glob_match pattern k = true → k ∈ keys;
}.

Definition has_deadline_kv (p : bytes * option Z) : bool :=
  match p.2 with Some _ => true | None => false end.

Definition exactly (o : outcome * kv) : (outcome → Prop) * kv := (λ r, r = o.1, o.2).

(** The answers a command may give at an instant on the keys that exist then,
    and the keys after it. *)
Definition spec_op (now now_ms : Z) (op : Op) (m : kv) : (outcome → Prop) * kv :=
  match op with
  | OSet k v => exactly (match valid k v with
      | Err e => (Err e, m)
      | Ok _ => (Ok (RBulk (fst <$> m !! k)), <[k := (v, None)]> m)
      end)
  | OSetNx k v => exactly (match valid k v with
      | Err e => (Err e, m)
      | Ok _ => match m !! k with
                | Some _ => (Ok (RBool false), m)
                | None => (Ok (RBool true), <[k := (v, None)]> m)
                end
      end)
  | OMSet ps => exactly (match valid_all ps with
      | Err e => (Err e, m)
      | Ok _ => (Ok RUnit, fold_left (λ m p, <[p.1 := (p.2, None)]> m) ps m)
      end)
  | OMGet ks => exactly (Ok (RBulks (map (λ k, fst <$> m !! k) ks)), m)
  | OIncrBy k d => exactly (spec_incr k d m)
  | OIncrByFloat k d => exactly (spec_incr_float k d m)
  | OGet k => exactly (Ok (RBulk (fst <$> m !! k)), m)
  | ODel ks => exactly (let '(n, m') := spec_del ks m in (Ok (RInt n), m'))
  | OExists ks => exactly (Ok (RInt (spec_exists ks m)), m)
  | ODbSize => exactly (Ok (RInt (Z.of_nat (size m))), m)
  | OScanKeys p => (λ r, ∃ keys, r = Ok (RKeys keys) ∧ scan_answer p m keys, m)
  | OExpireStats =>
      (λ r, ∃ avg, r = Ok (RStats (Z.of_nat (size
         (filter (λ p : bytes * (bytes * option Z), has_deadline_kv p.2 = true) m))) avg), m)
  | OAppend k s => exactly (spec_append k s m)
  | OStrLen k => exactly (Ok (RInt (match m !! k with Some (d, _) => blen d | None => 0 end)), m)
  | OFlushDb => exactly (Ok RUnit, ∅)
  | OExpireAt k ms => exactly (spec_expire_at now now_ms k ms m)
  | OPersist k => exactly (spec_persist k m)
  | OTtl k => exactly (Ok (RTtl (spec_ttl now k m)), m)
  | OMemoryUsage k => exactly (Ok (RSize
      (match m !! k with Some (d, _) => Some (blen k + blen d + PER_ENTRY_OVERHEAD) | None => None end)), m)
  | OSweep _ | OSetEvictionConfig _ | ORewriteAof _ | ORewriteWorker _ => (λ _, True, m)
  end.

Section impl.
Context `{IndexMap} `{HashIter}.

(** A call with its answer. *)
Definition run_reply (env : Env) (op : Op) : SE Engine FerrumError Reply :=
  match op with
  | OSet k v => r ← set env k v; mret (RBulk r)
  | OSetNx k v => r ← set_nx env k v; mret (RBool r)
  | OMSet ps => mset env ps;; mret RUnit
  | OMGet ks => r ← mget env ks; mret (RBulks r)
  | OIncrBy k d => r ← incr_by env k d; mret (RInt r)
  | OIncrByFloat k d => r ← incr_by_float env k d; mret (RFloat r)
  | OGet k => r ← get env k; mret (RBulk r)
  | ODel ks => r ← del_many env ks; mret (RInt r)
  | OExists ks => r ← exists_many env ks; mret (RInt r)
  | ODbSize => r ← dbsize env; mret (RInt r)
  | OScanKeys p => r ← scan_keys env p; mret (RKeys r)
  | OExpireStats => r ← expire_stats env; mret (RStats r.1 r.2)
  | OAppend k s => r ← append env k s; mret (RInt r)
  | OStrLen k => r ← strlen env k; mret (RInt r)
  | OFlushDb => flushdb env;; mret RUnit
  | OExpireAt k ms => r ← expire_at_ms env k ms; mret (RBool r)
  | OPersist k => r ← persist env k; mret (RBool r)
  | OTtl k => r ← ttl_ms env k; mret (RTtl r)
  | OMemoryUsage k => r ← memory_usage env k; mret (RSize r)
  | OSweep n => sweep_expired env n;; mret RUnit
  | OSetEvictionConfig cfg => set_eviction_config cfg;; mret RUnit
  | ORewriteAof err => rewrite_aof err;; mret RUnit
  | ORewriteWorker err => perform_aof_rewrite (env_read env) err;; mret RUnit
  end.

(** What an engine's store looks like from outside. *)
Definition face (entry : ValueEntry) : bytes * option Z := (data entry, expire_at entry).
Definition view (e : Engine) : kv := face <$> e_store e.

End impl.
