(* ===== verification/Refinement.v ===== *)
(** * The engine implements the abstract store

    Every public operation, run at one instant with no memory limit, answers
    what [Spec.spec_op] allows on the keys that exist at that instant and leaves
    the keys it says; a whole history simulates the abstract store. *)
From S2P Require Import Prelude Numeric Text Error Floats IndexMap Eviction Entry Sieve AdaptiveClimb Glob Aof Engine WriteGuard Commands EngineInv MemoryLimit Spec.
From Stdlib Require Import ZArith Lia SpecFloat.
From stdpp Require Import gmap strings numbers list.
Local Open Scope Z_scope.

Section refinement.
Context `{IndexMap} `{HashIter}.

(** ** Effects

    [eff St m L r L']: from a state that shows [L], [m] answers [r] and leaves
    a state that shows [L']. *)

Definition eff {S A : Type} (St : kv → S → Prop) (m : SE S FerrumError A)
    (L : kv) (r : res A) (L' : kv) : Prop :=
  ∀ s, St L s → (m s).1 = r ∧ St L' (m s).2.

(** An engine without a memory limit that shows [L] at [now]. *)
Definition shows (now : Z) (L : kv) (e : Engine) : Prop :=
  max_memory (e_eviction e) = 0 ∧ live now (view e) = L.

(** The same through a write guard taken at that instant. *)
Definition gshows (now now_ms : Z) (L : kv) (g : Guard) : Prop :=
  shows now L (g_engine g) ∧ g_now g = now ∧ g_now_ms g = now_ms.

(** What a lookup of [k] finds. *)
Definition sees (now : Z) (L : kv) (k : bytes) (o : option ValueEntry) : Prop :=
  match o with
  | Some entry => if is_expired now entry then L !! k = None else L !! k = Some (face entry)
  | None => L !! k = None
  end.

Section rules.
Context {S : Type} (St : kv → S → Prop).
Abbreviation SM := (SE S FerrumError).

Lemma eff_ret {A} (a : A) L : eff St (mret a) L (Ok a) L.
Proof using Type. by intros s. Qed.
Lemma eff_throw {A} x L : eff St (throw x : SM A) L (Err x) L.
Proof using Type. by intros s. Qed.
Lemma eff_bind {A B} (m : SM A) (f : A → SM B) L a L1 r L2 :
  eff St m L (Ok a) L1 → eff St (f a) L1 r L2 → eff St (m ≫= f) L r L2.
Proof using Type.
  intros Hm Hf s Hs. unfold mbind, se_bind. destruct (Hm s Hs) as [H1 H2].
  destruct (m s) as [x s']. simpl in *. subst x. by apply Hf.
Qed.
Lemma eff_bind_err {A B} (m : SM A) (f : A → SM B) L x L1 :
  eff St m L (Err x) L1 → eff St (m ≫= f) L (Err x) L1.
Proof using Type.
  intros Hm s Hs. unfold mbind, se_bind. destruct (Hm s Hs) as [H1 H2].
  destruct (m s) as [y s']. simpl in *. by subst y.
Qed.
Lemma eff_lift {A B} (x : res A) (f : A → SM B) L r L' :
  (match x with Ok a => eff St (f a) L r L' | Err e => r = Err e ∧ L' = L end) →
  eff St (lift_result x ≫= f) L r L'.
Proof using Type. destruct x as [a|e]; [done|]. by intros [-> ->] s. Qed.
(** The same, for a property of the outcome. *)
Lemma eff_step {A B} (m : SM A) (f : A → SM B) L a L1 (P : res B * S → Prop) s :
  eff St m L (Ok a) L1 → St L s → (∀ s', St L1 s' → P (f a s')) → P ((m ≫= f) s).
Proof using Type.
  intros Hm Hs Hf. unfold mbind, se_bind. destruct (Hm s Hs) as [H1 H2].
  destruct (m s) as [x s']. simpl in *. subst x. by apply Hf.
Qed.
(** The same, when the answer is only known to satisfy [Q]. *)
Lemma eff_bind_some {A B} (m : SM A) (f : A → SM B) (Q : A → Prop) L L1 r L2 :
  (∀ s, St L s → (∃ a, (m s).1 = Ok a ∧ Q a) ∧ St L1 (m s).2) →
  (∀ a, Q a → eff St (f a) L1 r L2) → eff St (m ≫= f) L r L2.
Proof using Type.
  intros Hm Hf s Hs. unfold mbind, se_bind. destruct (Hm s Hs) as [(a & H1 & Ha) H2].
  destruct (m s) as [x s']. simpl in *. subst x. by apply (Hf a).
Qed.
Lemma eff_gets {A B} (g : S → A) (f : A → SM B) L r L' :
  (∀ s, St L s → eff St (f (g s)) L r L') → eff St (gets g ≫= f) L r L'.
Proof using Type. intros Hf s Hs. by apply (Hf s Hs s Hs). Qed.
End rules.

(** ** Lookups and the map of live keys *)

Lemma live_lookup now m k :
  live now m !! k = match m !! k with Some p => if alive now p then Some p else None | None => None end.
Proof.
  unfold live. destruct (m !! k) as [p|] eqn:E.
  - destruct (alive now p) eqn:Ea.
    + by apply map_lookup_filter_Some.
    + apply map_lookup_filter_None. right. intros p' Hp'. simplify_eq. simpl. congruence.
  - apply map_lookup_filter_None. by left.
Qed.

Lemma alive_face now entry : alive now (face entry) = negb (is_expired now entry).
Proof. unfold alive, is_expired, face. simpl. by destruct (expire_at entry). Qed.

Lemma sees_store now e k : sees now (live now (view e)) k (e_store e !! k).
Proof.
  unfold sees. rewrite live_lookup. unfold view. rewrite lookup_fmap.
  destruct (e_store e !! k) as [entry|]; simpl; [|done].
  rewrite alive_face. by destruct (is_expired now entry).
Qed.

Lemma shows_lookup now L e k : shows now L e → sees now L k (e_store e !! k).
Proof. intros [_ <-]. apply sees_store. Qed.

Lemma live_delete now m k : live now (delete k m) = delete k (live now m).
Proof. apply map_filter_delete. Qed.

Lemma live_insert now m k p : alive now p = true → live now (<[k := p]> m) = <[k := p]> (live now m).
Proof. intros Hp. apply map_filter_insert_True. done. Qed.

Lemma live_live now now' m : now ≤ now' → live now' (live now m) = live now' m.
Proof.
  intros Hle. apply map_eq. intros k. rewrite !live_lookup.
  destruct (m !! k) as [[d t]|]; simpl; [|done].
  unfold alive. simpl. destruct t as [t|]; [|done].
  destruct (t <=? now) eqn:E1; simpl; [|done]. destruct (t <=? now') eqn:E2; [done|].
  bool_to_prop. lia.
Qed.

(** Changes that cannot be seen. *)
Lemma shows_same now L e e' :
  view e' = view e → max_memory (e_eviction e') = max_memory (e_eviction e) →
  shows now L e → shows now L e'.
Proof. intros Hv Hm [H1 H2]. split; congruence. Qed.

Lemma shows_frame now L e e' :
  e_store e' = e_store e → e_eviction e' = e_eviction e → shows now L e → shows now L e'.
Proof. intros Hs Hc. apply shows_same; [unfold view; congruence|congruence]. Qed.

(** ** Engine primitives *)

Section engine_effects.
Context (now now_ms : Z).
Abbreviation E := (shows now).
Abbreviation G := (gshows now now_ms).

Lemma eff_modify f L L' :
  (∀ e, E L e → E L' (f e)) → eff E (modify f) L (Ok tt) L'.
Proof using Type. intros Hf e He. split; [done|]. by apply Hf. Qed.

Lemma eff_note_aof m L : eff E (note_aof m) L (Ok tt) L.
Proof using Type.
  intros e He. destruct (note_aof_frame m e) as (H1 & H2 & _ & H4). split; [done|].
  by eapply shows_frame.
Qed.

Lemma eff_record_hit L : eff E record_hit L (Ok tt) L.
Proof using Type. apply eff_modify. intros e. by apply shows_frame. Qed.
Lemma eff_record_miss L : eff E record_miss L (Ok tt) L.
Proof using Type. apply eff_modify. intros e. by apply shows_frame. Qed.

Lemma eff_touch_access env k L : eff E (touch_access env k) L (Ok tt) L.
Proof using Type.
  intros e He. unfold touch_access. destruct (e_store e !! k) as [entry|] eqn:Ek; [|done].
  unfold mbind, se_bind, next_rand01, modify. cbn beta iota. split; [done|]. cbn [snd].
  set (e1 := set_store _ _).
  assert (He1 : E L e1).
  { revert He. apply shows_same; [|done]. unfold e1, view. simpl. rewrite fmap_insert.
    apply insert_id. by rewrite lookup_fmap, Ek. }
  revert He1. apply shows_frame; unfold ac_notify_access, sieve_notify_access;
    by repeat case_match.
Qed.

Lemma eff_enforce env k n L : eff E (enforce_for_write env k n) L (Ok tt) L.
Proof using Type.
  intros e He. rewrite enforce_for_write_eq, enforce_memory_limit_eq.
  destruct He as [Hm HL]. cbv zeta. rewrite Hm. simpl. by split.
Qed.

Lemma shows_track_remove k L e :
  E L e → (track_remove k e).1 = Ok (e_store e !! k) ∧ E (delete k L) (track_remove k e).2.
Proof using Type.
  intros [Hm <-]. destruct (track_remove_frame k e) as (H1 & H2 & H3). split; [done|].
  split; [congruence|]. unfold view. by rewrite H2, fmap_delete, live_delete.
Qed.

Lemma shows_track_insert k entry L e :
  is_expired now entry = false → E L e →
  (track_insert k entry e).1 = Ok (e_store e !! k) ∧ E (<[k := face entry]> L) (track_insert k entry e).2.
Proof using Type.
  intros Hx [Hm <-]. destruct (track_insert_frame k entry e) as (H1 & H2 & H3). split; [done|].
  split; [congruence|]. unfold view. rewrite H2, fmap_insert. apply live_insert. by rewrite alive_face, Hx.
Qed.

(** ** Guard primitives *)

Lemma eff_on_engine {A} (m : SE Engine FerrumError A) L r L' :
  eff E m L r L' → eff G (on_engine m) L r L'.
Proof using Type.
  intros Hm g (He & Hn & Hms). destruct (Hm _ He) as [H1 H2]. unfold on_engine.
  destruct (m (g_engine g)) as [x e']. split; [exact H1|]. split; [exact H2|]. by split.
Qed.

(** An engine operation that looks at the store, and the rest of the guard
    operation. *)
Lemma eff_store_op {B} (m : SE Engine FerrumError (option ValueEntry))
    (f : option ValueEntry → SE Guard FerrumError B) k L L1 r L' :
  (∀ e, E L e → (m e).1 = Ok (e_store e !! k) ∧ E L1 (m e).2) →
  (∀ o, sees now L k o → eff G (f o) L1 r L') →
  eff G (on_engine m ≫= f) L r L'.
Proof using Type.
  intros Hm Hf g (He & Hn & Hms). destruct (Hm _ He) as [H1 H2].
  unfold mbind, se_bind, on_engine. destruct (m (g_engine g)) as [x e']. simpl in *. subst x.
  apply (Hf (e_store (g_engine g) !! k)); [by apply shows_lookup|].
  split; [exact H2|]. by split.
Qed.

Lemma eff_remove {B} k (f : option ValueEntry → SE Guard FerrumError B) L r L' :
  (∀ o, sees now L k o → eff G (f o) (delete k L) r L') →
  eff G (on_engine (track_remove k) ≫= f) L r L'.
Proof using Type. apply eff_store_op. intros e. apply shows_track_remove. Qed.

Lemma eff_insert {B} k entry (f : option ValueEntry → SE Guard FerrumError B) L r L' :
  is_expired now entry = false →
  (∀ o, sees now L k o → eff G (f o) (<[k := face entry]> L) r L') →
  eff G (on_engine (track_insert k entry) ≫= f) L r L'.
Proof using Type. intros Hx. apply eff_store_op. intros e. by apply shows_track_insert. Qed.

Lemma eff_lookup {B} k (f : option ValueEntry → SE Guard FerrumError B) L r L' :
  (∀ o, sees now L k o → eff G (f o) L r L') → eff G (lookup_entry k ≫= f) L r L'.
Proof using Type.
  intros Hf. apply eff_gets. intros g (He & _). apply Hf. by apply shows_lookup.
Qed.

Lemma eff_now {B} (f : Z → SE Guard FerrumError B) L r L' :
  eff G (f now) L r L' → eff G (gets g_now ≫= f) L r L'.
Proof using Type. intros Hf. apply eff_gets. by intros g (_ & -> & _). Qed.
Lemma eff_now_ms {B} (f : Z → SE Guard FerrumError B) L r L' :
  eff G (f now_ms) L r L' → eff G (gets g_now_ms ≫= f) L r L'.
Proof using Type. intros Hf. apply eff_gets. by intros g (_ & _ & ->). Qed.

Lemma eff_log m L : eff G (log m) L (Ok tt) L.
Proof using Type.
  intros g ([Hm HL] & Hn & Hms). destruct (log_frame m g) as (H1 & H2 & _ & H4 & H5 & H6).
  split; [done|]. split; [|split; congruence]. split; [congruence|]. unfold view. by rewrite H2.
Qed.

Lemma eff_then {A B} (m : SE Guard FerrumError A) (f : A → SE Guard FerrumError B) a L L1 r L' :
  eff G m L (Ok a) L1 → eff G (f a) L1 r L' → eff G (m ≫= f) L r L'.
Proof using Type. apply eff_bind. Qed.

(** Dropping an expired key changes nothing that exists. *)
Lemma eff_expire_now k L : L !! k = None → eff G (expire_now k) L (Ok tt) L.
Proof using Type.
  intros HL. unfold expire_now. apply eff_remove. intros o _. rewrite delete_id by done.
  apply eff_on_engine, eff_note_aof.
Qed.

(** ** Guard operations *)

Lemma eff_fetch_live env k L : eff G (fetch_live env k) L (Ok (fst <$> L !! k)) L.
Proof using Type.
  apply eff_now, eff_lookup. intros [entry|] Ho; simpl in Ho.
  - destruct (is_expired now entry).
    + eapply eff_bind; [by apply eff_expire_now|]. rewrite Ho.
      eapply eff_bind; [apply eff_on_engine, eff_record_miss|apply eff_ret].
    + rewrite Ho. eapply eff_bind; [apply eff_on_engine, eff_touch_access|].
      eapply eff_bind; [apply eff_on_engine, eff_record_hit|apply eff_ret].
  - rewrite Ho. eapply eff_bind; [apply eff_on_engine, eff_record_miss|apply eff_ret].
Qed.

Lemma eff_contains_live k L : eff G (contains_live k) L (Ok (bool_decide (is_Some (L !! k)))) L.
Proof using Type.
  apply eff_now, eff_lookup. intros [entry|] Ho; simpl in Ho; [destruct (is_expired now entry)|];
    rewrite Ho.
  - eapply eff_bind; [by apply eff_expire_now|].
    eapply eff_bind; [apply eff_on_engine, eff_record_miss|apply eff_ret].
  - eapply eff_bind; [apply eff_on_engine, eff_record_hit|apply eff_ret].
  - eapply eff_bind; [apply eff_on_engine, eff_record_miss|apply eff_ret].
Qed.

Lemma eff_read_state k L : eff G (read_state k) L (Ok (L !! k)) L.
Proof using Type.
  apply eff_now, eff_lookup. intros [entry|] Ho; simpl in Ho; [destruct (is_expired now entry)|];
    rewrite Ho; [|apply eff_ret..].
  eapply eff_bind; [by apply eff_expire_now|apply eff_ret].
Qed.

Lemma sees_payload L k o : sees now L k o → o ≫= live_payload now = fst <$> L !! k.
Proof using Type.
  unfold sees, live_payload. destruct o as [entry|]; simpl; [|by intros ->].
  by destruct (is_expired now entry); intros ->.
Qed.

Lemma eff_guard_insert env k v L :
  inst (env_late env) = now →
  eff G (guard_insert env k v) L
    (match valid k v with Ok _ => Ok (fst <$> L !! k) | Err e => Err e end)
    (match valid k v with Ok _ => <[k := (v, None)]> L | Err _ => L end).
Proof using Type.
  intros Hl. unfold guard_insert, valid. apply eff_lift.
  destruct (validate_key k) as [[]|x]; [|done]. apply eff_lift.
  destruct (validate_value v) as [[]|x]; [|done].
  eapply eff_bind; [apply eff_on_engine, eff_enforce|].
  eapply eff_bind; [apply eff_log|]. apply eff_insert; [done|]. intros o Ho.
  rewrite Hl, (sees_payload L k o Ho). apply eff_ret.
Qed.

Lemma eff_insert_nx env k v L :
  eff G (insert_nx env k v) L
    (match valid k v with Ok _ => Ok (negb (bool_decide (is_Some (L !! k)))) | Err e => Err e end)
    (match valid k v with
     | Ok _ => match L !! k with Some _ => L | None => <[k := (v, None)]> L end
     | Err _ => L
     end).
Proof using Type.
  unfold insert_nx, valid. apply eff_lift.
  destruct (validate_key k) as [[]|x]; [|done]. apply eff_lift.
  destruct (validate_value v) as [[]|x]; [|done]. apply eff_now, eff_lookup.
  assert (Hstore : L !! k = None → eff G (on_engine (enforce_for_write env k (blen v));;
    log (append_set k v);; on_engine (track_insert k (new (env_late env) v));; mret true) L
    (Ok true) (<[k := (v, None)]> L)).
  { intros HL. eapply eff_bind; [apply eff_on_engine, eff_enforce|].
    eapply eff_bind; [apply eff_log|]. apply eff_insert; [done|]. intros o _. apply eff_ret. }
  intros [entry|] Ho; simpl in Ho; [destruct (is_expired now entry)|]; rewrite Ho; simpl.
  - apply eff_remove. intros o _. rewrite delete_id by done. by apply Hstore.
  - apply eff_ret.
  - by apply Hstore.
Qed.

Lemma eff_for_each {A} (l : list A) (f : A → SE Guard FerrumError ()) L :
  (∀ x, eff G (f x) L (Ok tt) L) → eff G (for_each l f) L (Ok tt) L.
Proof using Type.
  intros Hf. induction l as [|x l IH]; [apply eff_ret|]. simpl.
  eapply eff_bind; [apply Hf|apply IH].
Qed.

Lemma eff_validate_all ps L :
  eff G (for_each ps (λ p, lift_result (validate_key p.1);; lift_result (validate_value p.2)))
    L (valid_all ps) L.
Proof using Type.
  induction ps as [|[k v] ps IH]; [apply eff_ret|]. cbn [for_each valid_all fst snd]. unfold valid.
  destruct (validate_key k) as [[]|x]; [|by apply eff_bind_err, eff_lift].
  destruct (validate_value v) as [[]|x].
  - eapply eff_bind; [apply eff_lift; by intros g|exact IH].
  - by apply eff_bind_err, eff_lift.
Qed.

Lemma eff_insert_all env ps L :
  eff G (for_each ps (λ p, on_engine (track_insert p.1 (new (env_late env) p.2));; mret tt)) L (Ok tt)
    (fold_left (λ m p, <[p.1 := (p.2, None)]> m) ps L).
Proof using Type.
  revert L. induction ps as [|[k v] ps IH]; intros L; [apply eff_ret|]. simpl.
  eapply eff_bind; [|apply IH]. apply eff_insert; [done|]. intros o _. apply eff_ret.
Qed.

Lemma eff_insert_many env ps L :
  eff G (insert_many env ps) L (valid_all ps)
    (match valid_all ps with
     | Ok _ => fold_left (λ m p, <[p.1 := (p.2, None)]> m) ps L
     | Err _ => L
     end).
Proof using Type.
  unfold insert_many. pose proof (eff_validate_all ps L) as Hv.
  destruct (valid_all ps) as [[]|x]; [|by apply eff_bind_err].
  eapply eff_bind; [exact Hv|].
  eapply eff_bind; [apply eff_for_each; intros p; apply eff_on_engine, eff_enforce|].
  eapply eff_bind; [apply eff_log|apply eff_insert_all].
Qed.

Lemma eff_insert_keep_ttl env k v t L :
  inst (env_late env) = now → alive now (v, t) = true →
  eff G (insert_keep_ttl env k v t) L (Ok (fst <$> L !! k)) (<[k := (v, t)]> L).
Proof using Type.
  intros Hl Ha. unfold insert_keep_ttl.
  eapply eff_bind; [apply eff_on_engine, eff_enforce|].
  eapply eff_bind; [apply eff_log|]. apply eff_now.
  eapply eff_bind with (a := tt) (L1 := L).
  { destruct t as [d|]; [|apply eff_ret].
    destruct (deadline_to_epoch_ms _ _ _); [apply eff_log|apply eff_ret]. }
  apply eff_insert.
  { rewrite <- (negb_involutive (is_expired _ _)), <- alive_face. unfold face. simpl. by rewrite Ha. }
  intros o Ho. rewrite Hl, (sees_payload L k o Ho). apply eff_ret.
Qed.

Lemma eff_remove_live ks L :
  ∃ l, blen l = (spec_del ks L).1 ∧ eff G (remove_live ks) L (Ok l) (spec_del ks L).2.
Proof using Type.
  revert L. induction ks as [|k ks IH]; intros L; [by exists []; split; [|apply eff_ret]|].
  destruct (IH (delete k L)) as (l & Hn & Hl). cbn [spec_del].
  destruct (spec_del ks (delete k L)) as [n L'] eqn:E. cbn [fst snd] in *.
  exists (match L !! k with Some _ => k :: l | None => l end). split.
  { destruct (L !! k); [rewrite blen_cons; lia|done]. }
  cbn [remove_live]. apply eff_now, eff_remove. intros o Ho.
  eapply eff_bind; [exact Hl|].
  assert ((match o with Some entry => if negb (is_expired now entry) then k :: l else l | None => l end)
    = match L !! k with Some _ => k :: l | None => l end) as ->; [|apply eff_ret].
  destruct o as [entry|]; simpl in Ho; [|by rewrite Ho].
  by destruct (is_expired now entry); rewrite Ho.
Qed.

Lemma eff_remove_many ks L :
  eff G (remove_many ks) L (Ok (spec_del ks L).1) (spec_del ks L).2.
Proof using Type.
  destruct (eff_remove_live ks L) as (l & <- & Hl). unfold remove_many.
  eapply eff_bind; [exact Hl|].
  eapply eff_bind; [apply eff_for_each; intros k; apply eff_log|apply eff_ret].
Qed.

(** Changing the deadline of a key that exists. *)
(** The view after the deadline of an existing key was changed. *)
Lemma view_alter_deadline k t e entry :
  e_store e !! k = Some entry →
  view (set_store (alter (set_expire_at t) k (e_store e)) e) = <[k := (data entry, t)]> (view e).
Proof using Type.
  intros Ek. unfold view. simpl. apply map_eq. intros i. rewrite lookup_fmap.
  destruct (decide (i = k)) as [->|Hi].
  - by rewrite lookup_alter_eq, lookup_insert_eq, Ek.
  - rewrite lookup_alter_ne, lookup_insert_ne by done. by rewrite lookup_fmap.
Qed.

Lemma expire_now_gone k g :
  (expire_now k g).1 = Ok tt ∧ e_store (g_engine (expire_now k g).2) !! k = None.
Proof using Type.
  unfold expire_now, on_engine, log_expire_drop, mbind, se_bind.
  destruct (track_remove_frame k (g_engine g)) as (T1 & T2 & _).
  destruct (track_remove k (g_engine g)) as [x e']. simpl in *. subst x.
  destruct (note_aof_frame (append_del k) e') as (N1 & N2 & _).
  simpl. destruct (note_aof (append_del k) e') as [y e2]. simpl in *.
  rewrite N2, T2. split; [done|]. apply lookup_delete_eq.
Qed.

Lemma eff_alter_deadline k t L d t0 :
  L !! k = Some (d, t0) → alive now (d, t) = true →
  eff E (modify (λ e, set_store (alter (set_expire_at t) k (e_store e)) e)) L (Ok tt) (<[k := (d, t)]> L).
Proof using Type.
  intros HL Ha. apply eff_modify. intros e He. pose proof (shows_lookup now L e k He) as Hk.
  destruct He as [Hm <-]. split; [done|]. rewrite <- live_insert by done. f_equal.
  destruct (e_store e !! k) as [entry|] eqn:Ek; simpl in Hk; [|congruence].
  assert (face entry = (d, t0)) as [= <- <-] by (destruct (is_expired now entry); congruence).
  by apply view_alter_deadline.
Qed.

(** The lazy expiry that comes before a second lookup. *)
Lemma eff_expire_lookup {B} k (f : option ValueEntry → SE Guard FerrumError B) L r L' :
  (∀ o, L !! k = face <$> o → eff G (f o) L r L') →
  eff G (o ← lookup_entry k;
         (match o with
          | Some entry => if is_expired now entry then expire_now k else mret tt
          | None => mret tt
          end);;
         lookup_entry k ≫= f) L r L'.
Proof using Type.
  intros Hf g Hg. pose proof (shows_lookup now L _ k (proj1 Hg)) as Hk.
  unfold lookup_entry, gets, mbind, se_bind. cbn beta iota.
  destruct (e_store (g_engine g) !! k) as [entry|] eqn:Ek; simpl in Hk.
  - destruct (is_expired now entry).
    + destruct (eff_expire_now k L Hk g Hg) as [H1 H2].
      destruct (expire_now_gone k g) as [_ Hnone].
      destruct (expire_now k g) as [x g']. simpl in *. subst x.
      rewrite Hnone. by apply (Hf None).
    + unfold mret, se_ret. rewrite Ek. by apply (Hf (Some entry)).
  - unfold mret, se_ret. rewrite Ek. by apply (Hf None).
Qed.

Lemma deadline_alive d ms :
  in_i64 ms = true → in_i64 now_ms = true → (ms <=? now_ms) = false →
  alive now (d, Some (now + wrap64 (ms - now_ms) * 1000000)) = true.
Proof using Type.
  unfold in_i64, i64_min, i64_max. intros H1 H2 H3. bool_to_prop. unfold alive. simpl.
  unfold wrap64. rewrite Z.mod_small by lia. apply negb_true_iff, Z.leb_gt. lia.
Qed.

Lemma eff_guard_expire_at k ms L :
  in_i64 ms = true → in_i64 now_ms = true →
  eff G (guard_expire_at k ms) L
    (Ok (match L !! k with Some _ => true | None => false end))
    (spec_expire_at now now_ms k ms L).2.
Proof using Type.
  intros Hms Hnow. unfold guard_expire_at. apply eff_now, eff_now_ms, eff_expire_lookup.
  intros o Ho. unfold spec_expire_at. rewrite Ho. destruct o as [entry|]; simpl; [|apply eff_ret].
  destruct (ms <=? now_ms) eqn:Hle.
  - apply eff_remove. intros o _. eapply eff_bind; [apply eff_log|apply eff_ret].
  - eapply eff_bind; [apply eff_on_engine; by eapply eff_alter_deadline, deadline_alive|].
    eapply eff_bind; [apply eff_on_engine, eff_modify; intros e; apply shows_frame;
      unfold sieve_notify_insert; by case_match|].
    eapply eff_bind; [apply eff_on_engine, eff_modify; intros e; apply shows_frame;
      unfold ac_notify_insert; by case_match|].
    eapply eff_bind; [apply eff_log|apply eff_ret].
Qed.

Lemma eff_guard_persist k L :
  eff G (guard_persist k) L
    (Ok (match L !! k with Some (_, Some _) => true | _ => false end)) (spec_persist k L).2.
Proof using Type.
  unfold guard_persist, spec_persist. apply eff_now, eff_lookup. intros [entry|] Ho; simpl in Ho.
  - destruct (is_expired now entry).
    { rewrite Ho. eapply eff_bind; [by apply eff_expire_now|apply eff_ret]. }
    rewrite Ho. unfold face at 1 2, has_ttl. destruct (expire_at entry) as [t|] eqn:Et; [|apply eff_ret].
    simpl. eapply eff_bind; [by apply eff_on_engine; eapply eff_alter_deadline|].
    eapply eff_bind; [apply eff_on_engine, eff_modify; intros e; apply shows_frame;
      unfold sieve_notify_remove; by case_match|].
    eapply eff_bind; [apply eff_on_engine, eff_modify; intros e; apply shows_frame;
      unfold ac_notify_remove; by case_match|].
    eapply eff_bind; [apply eff_log|apply eff_ret].
  - rewrite Ho. apply eff_ret.
Qed.

Lemma eff_guard_clear L : eff G guard_clear L (Ok tt) ∅.
Proof using Type.
  unfold guard_clear. eapply eff_bind; [apply eff_on_engine, eff_modify|apply eff_log].
  intros e [Hm _]. split; [done|]. unfold view. simpl. by rewrite fmap_empty.
Qed.

Lemma eff_ttl_of k L : eff G (ttl_of k) L (Ok (spec_ttl now k L)) L.
Proof using Type.
  unfold ttl_of, spec_ttl. apply eff_now, eff_lookup. intros [entry|] Ho; simpl in Ho;
    [destruct (is_expired now entry)|]; rewrite Ho; [|apply eff_ret..].
  eapply eff_bind; [by apply eff_expire_now|apply eff_ret].
Qed.

Lemma eff_strlen_of k L :
  eff G (strlen_of k) L (Ok (match L !! k with Some (d, _) => blen d | None => 0 end)) L.
Proof using Type.
  unfold strlen_of. apply eff_now, eff_lookup. intros [entry|] Ho; simpl in Ho;
    [destruct (is_expired now entry)|]; rewrite Ho; [|apply eff_ret..].
  eapply eff_bind; [by apply eff_expire_now|apply eff_ret].
Qed.

Lemma eff_memory_of k L :
  eff G (memory_of k) L
    (Ok (match L !! k with Some (d, _) => Some (blen k + blen d + PER_ENTRY_OVERHEAD) | None => None end)) L.
Proof using Type.
  unfold memory_of. apply eff_now, eff_lookup. intros [entry|] Ho; simpl in Ho;
    [destruct (is_expired now entry)|]; rewrite Ho; [|apply eff_ret..].
  eapply eff_bind.
  - apply eff_on_engine, eff_modify. intros e [Hm HL]. split.
    + unfold untrack, apply_delta. by repeat case_match.
    + unfold view, untrack.
      destruct (apply_delta_frame (- as_i64 (entry_bytes k entry)) (set_store (delete k (e_store e)) e))
        as (-> & _). simpl. rewrite fmap_delete, live_delete. fold (view e). rewrite HL. by apply delete_id.
  - eapply eff_bind; [apply eff_on_engine, eff_note_aof|apply eff_ret].
Qed.
End engine_effects.

(** ** Commands *)

(** All the readings of a command are the same. *)
Definition at_clock (env : Env) (c : Clock) : Prop :=
  env_read env = c ∧ env_guard env = c ∧ env_late env = c.

Section commands.
Context (env : Env) (c : Clock) (Hc : at_clock env c).
Abbreviation now := (inst c).
Abbreviation now_ms := (current_epoch_ms c).
Abbreviation E := (shows now).
Abbreviation G := (gshows now now_ms).

Lemma late_now : inst (env_late env) = now.
Proof using Hc. destruct Hc as (_ & _ & ->). done. Qed.
Lemma read_now_now : read_now env = now.
Proof using Hc. unfold read_now. destruct Hc as (-> & _). done. Qed.
Lemma now_ms_i64 : in_i64 now_ms = true.
Proof using Type.
  unfold current_epoch_ms, as_i64, wrap64, in_i64, i64_min, i64_max. destruct (_ <? 0); [done|].
  pose proof (Z.mod_pos_bound (unix_ns c / 1000000) 18446744073709551616 eq_refl).
  apply andb_true_intro. split; apply Z.leb_le; destruct (_ <=? 9223372036854775807) eqn:Eq;
    bool_to_prop; lia.
Qed.

Lemma eff_with_guard {A} (body : SE Guard FerrumError A) L r L' :
  eff G body L r L' → eff E (with_guard env body) L r L'.
Proof using Hc.
  intros Hb e He. unfold with_guard.
  destruct (Hb (guard_begin env e)) as (H1 & He' & _).
  { destruct Hc as (_ & Hg & _). unfold gshows, guard_begin. simpl. by rewrite Hg. }
  destruct (body (guard_begin env e)) as [x g]. simpl in *. split; [done|].
  destruct (guard_drop_frame g) as (D1 & _ & D3). by eapply shows_frame.
Qed.

(** A shared-lock lookup. *)
Lemma eff_read {B} k (f : option ValueEntry → SE Engine FerrumError B) L r L' :
  (∀ o, sees now L k o → eff E (f o) L r L') → eff E (gets (λ e, e_store e !! k) ≫= f) L r L'.
Proof using Type. intros Hf. apply eff_gets. intros e He. apply Hf. by apply shows_lookup. Qed.

Lemma eff_get k L : eff E (get env k) L (Ok (fst <$> L !! k)) L.
Proof using Hc.
  unfold get. apply eff_read. rewrite read_now_now. intros [entry|] Ho; simpl in Ho.
  - destruct (is_expired now entry); simpl; [by apply eff_with_guard, eff_fetch_live|]. rewrite Ho.
    eapply eff_bind; [apply eff_touch_access|]. eapply eff_bind; [apply eff_record_hit|apply eff_ret].
  - rewrite Ho. eapply eff_bind; [apply eff_record_miss|apply eff_ret].
Qed.

(** The shared-lock pass of [MGET] finds the values; which of the missing keys
    are stored but expired cannot be seen from outside. *)
Lemma mget_read_shows i ks L e :
  E L e → (∃ ex, (mget_read env i ks e).1 = Ok (map (λ k, fst <$> L !! k) ks, ex)) ∧
          E L (mget_read env i ks e).2.
Proof using Hc.
  revert i e. induction ks as [|k ks IH]; intros i e He; [split; [by exists []|done]|].
  pose proof (shows_lookup now L e k He) as Hk. cbn [mget_read map].
  unfold gets. unfold mbind at 1 4, se_bind at 1 4. cbn beta iota. rewrite read_now_now.
  set (P := λ p : res (list (option bytes) * list nat) * Engine,
    (∃ ex, p.1 = Ok ((fst <$> L !! k) :: map (λ k, fst <$> L !! k) ks, ex)) ∧ E L p.2).
  change (P (match e_store e !! k with
             | Some entry => if negb (is_expired now entry) then
                 touch_access env k;; record_hit;; rest ← mget_read env (S i) ks;
                 mret (Some (data entry) :: rest.1, rest.2)
               else rest ← mget_read env (S i) ks; mret (None :: rest.1, i :: rest.2)
             | None => record_miss;; rest ← mget_read env (S i) ks; mret (None :: rest.1, rest.2)
             end e)).
  assert (Hrest : ∀ (v : option bytes) (g : list nat → list nat) e', v = fst <$> L !! k → E L e' →
    P ((rest ← mget_read env (S i) ks; mret (v :: rest.1, g rest.2)) e')).
  { intros v g e' -> He'. destruct (IH (S i) e' He') as [[ex H1] H2].
    unfold mbind, se_bind. destruct (mget_read env (S i) ks e') as [x e2]. simpl in *. subst x.
    split; [by eexists|done]. }
  destruct (e_store e !! k) as [entry|]; simpl in Hk; [destruct (is_expired now entry); simpl|].
  - apply (Hrest None (λ l, i :: l)); [by rewrite Hk|done].
  - eapply eff_step; [apply eff_touch_access|exact He|]. intros e1 He1.
    eapply eff_step; [apply eff_record_hit|exact He1|]. intros e2 He2.
    apply (Hrest (Some (data entry)) (λ l, l)); [by rewrite Hk|done].
  - eapply eff_step; [apply eff_record_miss|exact He|]. intros e1 He1.
    apply (Hrest None (λ l, l)); [by rewrite Hk|done].
Qed.

Lemma eff_mget ks L : eff E (mget env ks) L (Ok (map (λ k, fst <$> L !! k) ks)) L.
Proof using Hc.
  unfold mget. apply (eff_bind_some E _ _ (λ p, p.1 = map (λ k, fst <$> L !! k) ks) L L).
  { intros e He. destruct (mget_read_shows 0 ks L e He) as [[ex H1] H2]. eauto. }
  intros [out ex] Hout. simpl in Hout. subst out.
  eapply eff_bind; [|apply eff_ret]. destruct ex as [|i ex]; [apply eff_ret|].
  apply eff_with_guard, eff_for_each. intros j.
  eapply eff_bind; [apply eff_fetch_live|apply eff_ret].
Qed.

(** [EXISTS]: the same two passes, over the suffix [ks] of all the keys. *)
Lemma exists_read_shows pre ks L e :
  E L e →
  (∃ ex, (exists_read env (length pre) ks e).1 = Ok (spec_exists ks L, ex) ∧
         Forall (λ i, L !! ((pre ++ ks) !!! i) = None) ex) ∧
  E L (exists_read env (length pre) ks e).2.
Proof using Hc.
  revert pre e. induction ks as [|k ks IH]; intros pre e He; [split; [by exists []|done]|].
  pose proof (shows_lookup now L e k He) as Hk. cbn [exists_read].
  set (P := λ p : res (Z * list nat) * Engine,
    (∃ ex, p.1 = Ok (spec_exists (k :: ks) L, ex) ∧
           Forall (λ i, L !! ((pre ++ k :: ks) !!! i) = None) ex) ∧ E L p.2).
  assert (Hrest : ∀ (a : Z) (g : list nat → list nat) e',
    spec_exists (k :: ks) L = a + spec_exists ks L →
    (∀ l, Forall (λ i, L !! ((pre ++ k :: ks) !!! i) = None) l →
          Forall (λ i, L !! ((pre ++ k :: ks) !!! i) = None) (g l)) → E L e' →
    P ((rest ← exists_read env (S (length pre)) ks; mret (a + rest.1, g rest.2)) e')).
  { intros a g e' Ha Hg He'. destruct (IH (pre ++ [k]) e' He') as [(ex & H1 & H3) H2].
    rewrite length_app, Nat.add_1_r in H1, H2. rewrite <- app_assoc in H3.
    unfold mbind, se_bind. destruct (exists_read env (S (length pre)) ks e') as [x e2].
    simpl in *. subst x. split; [|done]. eexists. split; [by rewrite Ha|]. by apply Hg. }
  assert (Hsum : spec_exists (k :: ks) L
    = (if bool_decide (is_Some (L !! k)) then 1 else 0) + spec_exists ks L).
  { unfold spec_exists. simpl. destruct (bool_decide _); [by rewrite blen_cons|done]. }
  change (P (match e_store e !! k with
    | Some entry =>
        if negb (is_expired (read_now env) entry) then
          record_hit;; rest ← exists_read env (S (length pre)) ks; mret (1 + rest.1, rest.2)
        else rest ← exists_read env (S (length pre)) ks; mret (0 + rest.1, length pre :: rest.2)
    | None => record_miss;; exists_read env (S (length pre)) ks
    end e)). rewrite read_now_now.
  destruct (e_store e !! k) as [entry|]; simpl in Hk; [destruct (is_expired now entry); cbn [negb]|];
    rewrite Hk in Hsum; simpl in Hsum.
  - apply (Hrest 0 (λ l, length pre :: l)); [done| |done]. intros l Hl. constructor; [|done].
    by rewrite list_lookup_total_middle.
  - eapply eff_step; [apply eff_record_hit|exact He|]. intros e2 He2.
    by apply (Hrest 1 (λ l, l)).
  - eapply eff_step; [apply eff_record_miss|exact He|]. intros e1 He1.
    pose proof (Hrest 0 (λ l, l) e1 Hsum (λ l Hl, Hl) He1) as HP.
    unfold mbind, se_bind in HP. by destruct (exists_read env (S (length pre)) ks e1) as [[[n ex]|x] e2].
Qed.

Lemma eff_exists_recheck ks ex L :
  Forall (λ i, L !! (ks !!! i) = None) ex → eff G (exists_recheck ks ex) L (Ok 0) L.
Proof using Type.
  induction 1 as [|i ex Hi _ IH]; [apply eff_ret|]. cbn [exists_recheck].
  eapply eff_bind; [apply eff_contains_live|]. rewrite Hi.
  eapply eff_bind; [exact IH|]. apply eff_ret.
Qed.

Lemma eff_exists_many ks L : eff E (exists_many env ks) L (Ok (spec_exists ks L)) L.
Proof using Hc.
  unfold exists_many. destruct ks as [|k0 ks0]; [apply eff_ret|]. set (ks := k0 :: ks0).
  apply (eff_bind_some E _ _ (λ p, p.1 = spec_exists ks L ∧ Forall (λ i, L !! (ks !!! i) = None) p.2) L L).
  { intros e He. destruct (exists_read_shows [] ks L e He) as [(ex & H1 & H3) H2]. eauto. }
  intros [n ex] [Hn Hex]. simpl in Hn, Hex. subst n. cbn [fst snd].
  eapply eff_bind with (a := 0) (L1 := L); [|rewrite Z.add_0_r; apply eff_ret].
  destruct ex as [|i ex]; [apply eff_ret|]. by apply eff_with_guard, eff_exists_recheck.
Qed.

Lemma eff_strlen k L :
  eff E (strlen env k) L (Ok (match L !! k with Some (d, _) => blen d | None => 0 end)) L.
Proof using Hc.
  unfold strlen. apply eff_read. rewrite read_now_now. intros [entry|] Ho; simpl in Ho.
  - destruct (is_expired now entry); simpl; [by apply eff_with_guard, eff_strlen_of|].
    rewrite Ho. apply eff_ret.
  - rewrite Ho. apply eff_ret.
Qed.

Lemma eff_ttl_ms k L : eff E (ttl_ms env k) L (Ok (spec_ttl now k L)) L.
Proof using Hc.
  unfold ttl_ms. apply eff_read. rewrite read_now_now. intros [entry|] Ho; simpl in Ho.
  - destruct (is_expired now entry); simpl; [by apply eff_with_guard, eff_ttl_of|].
    unfold spec_ttl. rewrite Ho. apply eff_ret.
  - unfold spec_ttl. rewrite Ho. apply eff_ret.
Qed.

Lemma eff_memory_usage k L :
  eff E (memory_usage env k) L
    (Ok (match L !! k with Some (d, _) => Some (blen k + blen d + PER_ENTRY_OVERHEAD) | None => None end)) L.
Proof using Hc.
  unfold memory_usage. apply eff_read. rewrite read_now_now. intros [entry|] Ho; simpl in Ho.
  - destruct (is_expired now entry); simpl; [by apply eff_with_guard, eff_memory_of|].
    rewrite Ho. apply eff_ret.
  - rewrite Ho. apply eff_ret.
Qed.

(** A key that exists has not expired. *)
Lemma shows_alive L e k p : E L e → L !! k = Some p → alive now p = true.
Proof using Type.
  intros [_ <-]. rewrite live_lookup. destruct (view e !! k) as [q|]; [|done].
  by destruct (alive now q) eqn:Eq; intros [= <-].
Qed.

Lemma eff_given {S A : Type} (St : kv → S → Prop) (m : SE S FerrumError A) L r L' :
  (∀ s, St L s → eff St m L r L') → eff St m L r L'.
Proof using Type. intros Hm s Hs. by apply (Hm s Hs). Qed.

(** Writing back with the deadline that was read. *)
Lemma eff_write_back k v t L e :
  E L e → t = L !! k ≫= snd →
  eff G (insert_keep_ttl env k v t) L (Ok (fst <$> L !! k)) (<[k := (v, t)]> L).
Proof using Hc.
  intros He ->. apply eff_insert_keep_ttl; [apply late_now|].
  destruct (L !! k) as [[d t']|] eqn:EL; [|done]. apply (shows_alive L e k (d, t') He EL).
Qed.

Lemma eff_incr_by k delta L : eff E (incr_by env k delta) L
  (match spec_incr k delta L with
   | (Ok (RInt z), _) => Ok z | (Err x, _) => Err x | _ => Err OutOfMemory
   end) (spec_incr k delta L).2.
Proof using Hc.
  unfold spec_incr, incr_by. apply eff_lift. destruct (validate_key k) as [[]|x]; [|done].
  apply eff_given. intros e He. apply eff_with_guard.
  eapply eff_bind; [apply eff_read_state|]. unfold counter_at.
  assert (Hgo : ∀ n t, t = L !! k ≫= snd →
    eff G (match checked_i64 (n + delta) with
      | None => throw not_integer
      | Some z => insert_keep_ttl env k (to_string_i z) t;; mret z
      end) L (match checked_i64 (n + delta) with Some z => Ok z | None => Err not_integer end)
      (match checked_i64 (n + delta) with Some z => <[k := (to_string_i z, t)]> L | None => L end)).
  { intros n t Ht. destruct (checked_i64 (n + delta)) as [z|]; [|apply eff_throw].
    eapply eff_bind; [by eapply eff_write_back|apply eff_ret]. }
  destruct (L !! k) as [[d t]|].
  - destruct (negb (utf8_valid d)); [apply eff_bind_err, eff_throw|].
    destruct (parse_i64 d) as [n|]; [|apply eff_bind_err, eff_throw].
    eapply eff_bind; [apply eff_ret|]. specialize (Hgo n t eq_refl). cbn [fst snd].
    by destruct (checked_i64 (n + delta)).
  - eapply eff_bind; [apply eff_ret|]. specialize (Hgo 0 None eq_refl). cbn [fst snd].
    by destruct (checked_i64 (0 + delta)).
Qed.

Lemma eff_incr_by_float k delta L : eff E (incr_by_float env k delta) L
  (match spec_incr_float k delta L with
   | (Ok (RFloat z), _) => Ok z | (Err x, _) => Err x | _ => Err OutOfMemory
   end) (spec_incr_float k delta L).2.
Proof using Hc.
  unfold spec_incr_float, incr_by_float. apply eff_lift. destruct (validate_key k) as [[]|x]; [|done].
  apply eff_given. intros e He. apply eff_with_guard.
  eapply eff_bind; [apply eff_read_state|]. unfold float_at.
  set (bad := ParseError (str "increment would produce NaN or Infinity")).
  assert (Hgo : ∀ n t, t = L !! k ≫= snd →
    eff G (if negb (F64.is_finite (F64.add n delta)) then throw bad
           else insert_keep_ttl env k (F64.to_string (F64.add n delta)) t;; mret (F64.add n delta)) L
      (if negb (F64.is_finite (F64.add n delta)) then Err bad else Ok (F64.add n delta))
      (if negb (F64.is_finite (F64.add n delta)) then L
       else <[k := (F64.to_string (F64.add n delta), t)]> L)).
  { intros n t Ht. destruct (negb _); [apply eff_throw|].
    eapply eff_bind; [by eapply eff_write_back|apply eff_ret]. }
  destruct (L !! k) as [[d t]|].
  - destruct (negb (utf8_valid d)); [apply eff_bind_err, eff_throw|].
    destruct (F64.parse d) as [n|]; [|apply eff_bind_err, eff_throw].
    eapply eff_bind; [apply eff_ret|]. specialize (Hgo n t eq_refl). cbn [fst snd].
    by destruct (negb (F64.is_finite (F64.add n delta))).
  - eapply eff_bind; [apply eff_ret|]. specialize (Hgo F64.zero None eq_refl). cbn [fst snd].
    by destruct (negb (F64.is_finite (F64.add F64.zero delta))).
Qed.

Lemma eff_append k suffix L : eff E (append env k suffix) L
  (match spec_append k suffix L with
   | (Ok (RInt z), _) => Ok z | (Err x, _) => Err x | _ => Err OutOfMemory
   end) (spec_append k suffix L).2.
Proof using Hc.
  unfold spec_append, append. apply eff_lift. destruct (validate_key k) as [[]|x]; [|done].
  apply eff_given. intros e He. apply eff_with_guard.
  eapply eff_bind; [apply eff_read_state|].
  assert (Hgo : ∀ d t, t = L !! k ≫= snd →
    eff G (lift_result (validate_value d);; insert_keep_ttl env k d t;; mret (blen d)) L
      (match validate_value d with Ok _ => Ok (blen d) | Err x => Err x end)
      (match validate_value d with Ok _ => <[k := (d, t)]> L | Err _ => L end)).
  { intros d t Ht. apply eff_lift. destruct (validate_value d) as [[]|x]; [|done].
    eapply eff_bind; [by eapply eff_write_back|apply eff_ret]. }
  destruct (L !! k) as [[d t]|].
  - specialize (Hgo (d ++ suffix) t eq_refl). by destruct (validate_value (d ++ suffix)).
  - specialize (Hgo suffix None eq_refl). by destruct (validate_value suffix).
Qed.

(** ** Whole-keyspace reads *)

(** The entries that exist, in the iteration order of the hash map. *)
Definition live_iter (e : Engine) : list (bytes * ValueEntry) :=
  List.filter (λ p, negb (is_expired now p.2)) (hm_iter (e_store e)).

Lemma live_iter_elem e k entry :
  (k, entry) ∈ live_iter e ↔ e_store e !! k = Some entry ∧ is_expired now entry = false.
Proof using Type.
  unfold live_iter. rewrite list_elem_of_In, filter_In, <- list_elem_of_In, hm_iter_perm.
  rewrite elem_of_map_to_list. simpl. by rewrite negb_true_iff.
Qed.

Lemma live_iter_keys e : NoDup (live_iter e).*1.
Proof using Type.
  unfold live_iter. assert (Hn : NoDup (hm_iter (e_store e)).*1).
  { rewrite hm_iter_perm. apply NoDup_fst_map_to_list. }
  induction (hm_iter (e_store e)) as [|[k entry] l IH]; [constructor|]. simpl in *.
  apply NoDup_cons in Hn as [Hk Hn]. destruct (negb _); [|by apply IH].
  constructor; [|by apply IH]. intros Hin. apply Hk.
  apply list_elem_of_fmap in Hin as (p & Hp & Hin).
  apply list_elem_of_In, filter_In in Hin as [Hin _].
  apply list_elem_of_fmap. exists p. split; [done|by apply list_elem_of_In].
Qed.

Lemma live_iter_map L e : E L e → L = list_to_map (prod_map id face <$> live_iter e).
Proof using Type.
  intros He. apply map_eq. intros k. symmetry.
  assert (Hn : NoDup (prod_map id face <$> live_iter e).*1).
  { rewrite <- list_fmap_compose. apply live_iter_keys. }
  pose proof (shows_lookup now L e k He) as Hk.
  destruct (e_store e !! k) as [entry|] eqn:Ek; simpl in Hk;
    [destruct (is_expired now entry) eqn:Ex|]; rewrite Hk.
  2: { apply elem_of_list_to_map_1; [done|]. apply list_elem_of_fmap.
       exists (k, entry). split; [done|]. by apply live_iter_elem. }
  all: apply not_elem_of_list_to_map_1; rewrite <- list_fmap_compose;
    intros ([k' en] & Hp & Hin)%list_elem_of_fmap; apply live_iter_elem in Hin as [H1 H2];
    simpl in Hp; congruence.
Qed.

Lemma live_iter_size L e : E L e → length (live_iter e) = size L.
Proof using Type.
  intros He. rewrite (live_iter_map L e He). rewrite <- length_map_to_list.
  rewrite map_to_list_to_map by (rewrite <- list_fmap_compose; apply live_iter_keys).
  by rewrite length_fmap.
Qed.

Lemma eff_dbsize L : eff E (dbsize env) L (Ok (Z.of_nat (size L))) L.
Proof using Hc.
  intros e He. split; [|done]. unfold dbsize, gets. simpl. rewrite read_now_now.
  fold (live_iter e). unfold blen. by rewrite (live_iter_size L e He).
Qed.

Lemma scan_loop_take pattern room l :
  1 ≤ room →
  scan_loop now pattern room l
  = take (Z.to_nat room) (List.filter (glob_match pattern)
      (List.filter (λ p : bytes * ValueEntry, negb (is_expired now p.2)) l).*1).
Proof using Type.
  revert room. induction l as [|[k entry] l IH]; intros room Hr; cbn [scan_loop List.filter];
    [by destruct (Z.to_nat room)|]. cbn [snd].
  destruct (is_expired now entry); cbn [negb]; [by apply IH|].
  cbn [fmap list_fmap fst List.filter]. destruct (glob_match pattern k); [|by apply IH].
  replace (Z.to_nat room) with (S (Z.to_nat (room - 1))) by lia. cbn [take]. f_equal.
  destruct (room - 1 <=? 0) eqn:E0; bool_to_prop.
  - by replace (Z.to_nat (room - 1)) with 0%nat by lia.
  - apply IH. lia.
Qed.

Lemma shows_exists L e k : E L e → is_Some (L !! k) ↔ k ∈ (live_iter e).*1.
Proof using Type.
  intros He. pose proof (shows_lookup now L e k He) as Hk. rewrite list_elem_of_fmap. split.
  - intros [p Hp]. destruct (e_store e !! k) as [entry|] eqn:Ek; simpl in Hk; [|congruence].
    destruct (is_expired now entry) eqn:Ex; [congruence|]. exists (k, entry). split; [done|].
    by apply live_iter_elem.
  - intros ([k' entry] & -> & Hin). apply live_iter_elem in Hin as [H1 H2]. simpl in *.
    rewrite H1 in Hk. simpl in Hk. rewrite H2 in Hk. eauto.
Qed.

Lemma scan_keys_shows pattern L e :
  E L e → ∃ keys, (scan_keys env pattern e).1 = Ok keys ∧ scan_answer pattern L keys.
Proof using Hc.
  intros He. unfold scan_keys, gets. simpl. rewrite read_now_now, scan_loop_take by done.
  fold (live_iter e). set (K := List.filter (glob_match pattern) (live_iter e).*1).
  assert (HK : ∀ k, k ∈ K ↔ is_Some (L !! k) ∧ glob_match pattern k = true).
  { intros k. unfold K. rewrite list_elem_of_In, filter_In, <- list_elem_of_In.
    by rewrite (shows_exists L e k He). }
  eexists. split; [done|]. set (n := Z.to_nat SCAN_KEYS_LIMIT).
  assert (Hsub : take n K ⊆ K) by apply subseteq_take.
  split.
  - eapply sublist_NoDup; [|apply sublist_take]. unfold K.
    apply NoDup_ListNoDup, List.NoDup_filter, NoDup_ListNoDup, live_iter_keys.
  - intros k Hk. by apply HK, Hsub.
  - unfold blen. rewrite length_take. unfold n, SCAN_KEYS_LIMIT. lia.
  - intros k Hlen Hs Hg. rewrite take_ge; [by apply HK|]. unfold blen in Hlen.
    rewrite length_take in Hlen. unfold n, SCAN_KEYS_LIMIT in *. lia.
Qed.

Lemma expire_stats_count l count sum :
  (fold_left (λ '(count, sum_ms) (p : bytes * ValueEntry),
     if is_expired now p.2 then (count, sum_ms)
     else match expire_at p.2 with
          | Some deadline => (count + 1, sat_add_u64 sum_ms (wrap64 ((deadline - now) / 1000000)))
          | None => (count, sum_ms)
          end) l (count, sum)).1
  = count + blen (List.filter (λ p, has_ttl p.2) (List.filter (λ p, negb (is_expired now p.2)) l)).
Proof using Type.
  revert count sum. induction l as [|[k entry] l IH]; intros count sum; simpl; [unfold blen; simpl; lia|].
  destruct (is_expired now entry); simpl; [apply IH|]. unfold has_ttl at 1.
  destruct (expire_at entry); simpl; rewrite IH; [rewrite blen_cons; lia|done].
Qed.

Lemma size_filter (P : bytes * (bytes * option Z) → Prop) `{∀ x, Decision (P x)} (m : kv) :
  size (filter P m) = length (filter P (map_to_list m)).
Proof using Type.
  rewrite map_filter_alt, <- length_map_to_list, map_to_list_to_map; [done|].
  eapply sublist_NoDup; [apply (NoDup_fst_map_to_list m)|].
  apply fmap_sublist, sublist_filter.
Qed.

Lemma expire_stats_shows L e :
  E L e → ∃ avg, (expire_stats env e).1 = Ok (Z.of_nat (size
    (filter (λ p : bytes * (bytes * option Z), has_deadline_kv p.2 = true) L)), avg).
Proof using Hc.
  intros He. unfold expire_stats, gets. simpl. rewrite read_now_now.
  pose proof (expire_stats_count (hm_iter (e_store e)) 0 0) as Hcount. fold (live_iter e) in Hcount.
  destruct (fold_left _ _ _) as [count sum]. simpl in Hcount. eexists. do 2 f_equal.
  rewrite Hcount, Z.add_0_l. unfold blen. f_equal.
  rewrite (live_iter_map L e He), size_filter.
  rewrite map_to_list_to_map by (rewrite <- list_fmap_compose; apply live_iter_keys).
  clear Hcount. induction (live_iter e) as [|[k entry] l IH]; [done|]. cbn [List.filter fmap list_fmap].
  rewrite filter_cons. cbn [snd prod_map]. unfold has_ttl, has_deadline_kv, face. simpl.
  destruct (expire_at entry); simpl; [f_equal|]; exact IH.
Qed.

(** ** Background work *)

Lemma sweep_victim_stored now e sample start k :
  k ∈ map fst (List.filter (λ p, is_expired now p.2) (sweep_window sample start (e_store e))) →
  ∃ entry, e_store e !! k = Some entry ∧ is_expired now entry = true.
Proof using Type.
  intros Hk. apply list_elem_of_In, in_map_iff in Hk as ([k' entry] & <- & Hin).
  apply filter_In in Hin as [Hin Hx]. simpl in *. apply list_elem_of_In in Hin.
  unfold sweep_window in Hin. apply subseteq_take in Hin. rewrite app_Permutation_comm, take_drop in Hin.
  apply elem_of_hm_iter in Hin. eauto.
Qed.

Lemma sweep_victim L e sample start k :
  E L e →
  k ∈ map fst (List.filter (λ p, is_expired now p.2) (sweep_window sample start (e_store e))) →
  L !! k = None.
Proof using Type.
  intros He (entry & Hk & Hx)%sweep_victim_stored. pose proof (shows_lookup now L e k He) as Hl.
  rewrite Hk in Hl. simpl in Hl. by rewrite Hx in Hl.
Qed.

Lemma keeps_drop_victims L ks :
  Forall (λ k, L !! k = None) ks →
  preserves (E L) (for_each ks (λ key, track_remove key;;
    modify (λ e, set_expired_keys (succ64 (e_expired_keys e)) e);; note_aof (append_del key))).
Proof using Type.
  intros Hks. apply preserves_for_each. intros k Hk. rewrite Forall_forall in Hks.
  specialize (Hks k Hk). apply preserves_bind.
  { intros e He. destruct (shows_track_remove now k L e He) as [_ H2]. by rewrite delete_id in H2. }
  intros _. apply preserves_bind.
  { intros e He. by apply (eff_modify now (λ e, set_expired_keys (succ64 (e_expired_keys e)) e) L L
      (λ e, shows_frame now L e _ eq_refl eq_refl)). }
  intros _ e He. by apply eff_note_aof.
Qed.

Lemma keeps_frame (f : Engine → Engine) L :
  (∀ e, e_store (f e) = e_store e) → (∀ e, e_eviction (f e) = e_eviction e) →
  preserves (E L) (modify f : SE Engine FerrumError ()).
Proof using Type. intros H1 H2. apply preserves_modify. intros e. by apply shows_frame. Qed.

Lemma keeps_sweep sample L : preserves (E L) (sweep_expired env sample).
Proof using Hc.
  unfold sweep_expired. destruct (sample =? 0); [apply preserves_ret|].
  apply preserves_read. intros e He. cbv beta zeta. destruct Hc as (_ & Hg & _). rewrite Hg.
  apply preserves_bind.
  { destruct (0 <? _); [|apply preserves_ret]. by apply keeps_frame. }
  intros _. apply preserves_bind; [|intros ?; apply preserves_ret].
  apply keeps_drop_victims, Forall_forall. intros k Hk. by eapply sweep_victim.
Qed.

Lemma keeps_on_writer {A} (m : SE AofWriter FerrumError A) d L : preserves (E L) (on_writer m d).
Proof using Type.
  intros e He. unfold on_writer. destruct (e_aof e) as [w|]; [|done].
  destruct (m w) as [x w']. revert He. by apply shows_frame.
Qed.

Lemma keeps_rewrite_aof err L : preserves (E L) (rewrite_aof err).
Proof using Type.
  unfold rewrite_aof. apply preserves_bind; [apply preserves_gets|intros att].
  destruct (negb att); [apply preserves_throw|].
  apply preserves_bind; [apply keeps_on_writer|intros claimed].
  destruct (negb claimed); [apply preserves_ret|]. destruct err; [|apply preserves_ret].
  apply preserves_bind; [apply keeps_on_writer|intros _; apply preserves_throw].
Qed.

Lemma keeps_rewrite_worker cl err L : preserves (E L) (perform_aof_rewrite cl err).
Proof using Type.
  unfold perform_aof_rewrite. apply preserves_bind.
  { apply preserves_bind; [apply preserves_gets|intros snap].
    apply preserves_bind; [apply preserves_gets|intros rw; apply preserves_ret]. }
  intros [snap|]; [|apply preserves_ret]. unfold rewrite_install.
  apply preserves_bind; [apply preserves_attempt, keeps_on_writer|]. intros [t|x]; [|apply keeps_on_writer].
  apply preserves_bind; [apply preserves_attempt, keeps_on_writer|intros ?; apply preserves_ret].
Qed.

Lemma keeps_set_eviction_config cfg L :
  max_memory cfg = 0 → preserves (E L) (set_eviction_config cfg).
Proof using Type.
  intros Hm. unfold set_eviction_config. apply preserves_modify. intros e [_ HL].
  split; [done|]. rewrite <- HL. unfold view. f_equal. simpl. f_equal. by repeat case_match.
Qed.

(** ** One call *)

(** Arguments of their machine types, and no memory limit. *)
Definition op_fits (op : Op) : Prop :=
  match op with
  | OIncrBy _ z | OExpireAt _ z => in_i64 z = true
  | OSetEvictionConfig cfg => max_memory cfg = 0
  | _ => True
  end.

Lemma eff_reply {A} (m : SE Engine FerrumError A) (f : A → Reply) L r L' :
  eff E m L r L' →
  eff E (m ≫= λ a, mret (f a)) L (match r with Ok a => Ok (f a) | Err x => Err x end) L'.
Proof using Type.
  intros Hm. destruct r as [a|x]; [|by apply eff_bind_err]. eapply eff_bind; [exact Hm|apply eff_ret].
Qed.

Lemma keeps_reply {A} (m : SE Engine FerrumError A) (f : A → Reply) L e :
  preserves (E L) m → E L e → E L ((m ≫= λ a, mret (f a)) e).2.
Proof using Type. intros Hm He. revert e He. apply preserves_bind; [done|intros a; apply preserves_ret]. Qed.

Lemma run_reply_spec op L e :
  op_fits op → E L e →
  (spec_op now now_ms op L).1 (run_reply env op e).1 ∧
  E (spec_op now now_ms op L).2 (run_reply env op e).2.
Proof using Hc.
  intros Hfit.
  assert (Hex : ∀ (m : SE Engine FerrumError Reply) o, eff E m L o.1 o.2 → E L e →
    (exactly o).1 (m e).1 ∧ E (exactly o).2 (m e).2) by (intros m o Hm He; by apply Hm).
  assert (Hmap : ∀ {A} (m : SE Engine FerrumError A) (f : A → Reply) r L' o, eff E m L r L' →
    o = (match r with Ok a => Ok (f a) | Err x => Err x end, L') → E L e →
    (exactly o).1 ((m ≫= λ a, mret (f a)) e).1 ∧ E (exactly o).2 ((m ≫= λ a, mret (f a)) e).2).
  { intros A m f r L' o Hm ->. apply Hex. by apply eff_reply. }
  destruct op; cbn [spec_op run_reply]; simpl in Hfit.
  - eapply Hmap; [apply eff_with_guard, eff_guard_insert, late_now|]. by destruct (valid key value).
  - eapply Hmap; [apply eff_with_guard, eff_insert_nx|]. destruct (valid key value); [|done].
    by destruct (L !! key).
  - eapply (Hmap unit _ (λ _, RUnit)); [apply eff_with_guard, eff_insert_many|]. by destruct (valid_all pairs).
  - eapply Hmap; [apply eff_mget|done].
  - eapply Hmap; [apply eff_incr_by|]. unfold spec_incr. by repeat case_match.
  - eapply Hmap; [apply eff_incr_by_float|]. unfold spec_incr_float. by repeat case_match.
  - eapply Hmap; [apply eff_get|done].
  - destruct keys as [|k ks]; [by eapply Hmap; [apply eff_ret|]|].
    eapply Hmap; [apply eff_with_guard, (eff_remove_many now now_ms (k :: ks))|].
    by destruct (spec_del (k :: ks) L).
  - eapply Hmap; [apply eff_exists_many|done].
  - eapply Hmap; [apply eff_dbsize|done].
  - intros He. destruct (scan_keys_shows pattern L e He) as (keys & H1 & H2).
    unfold scan_keys, gets, mbind, se_bind in *. simpl in *. simplify_eq. split; [|done]. by eexists.
  - intros He. destruct (expire_stats_shows L e He) as (avg & H1).
    unfold expire_stats, gets, mbind, se_bind in *. simpl in *. split; [|done]. exists avg.
    injection H1 as ->. done.
  - eapply Hmap; [apply eff_append|]. unfold spec_append. by repeat case_match.
  - eapply Hmap; [apply eff_strlen|done].
  - eapply (Hmap unit _ (λ _, RUnit)); [apply eff_with_guard, eff_guard_clear|done].
  - eapply Hmap; [apply eff_with_guard, eff_guard_expire_at; [done|apply now_ms_i64]|].
    unfold spec_expire_at. by repeat case_match.
  - eapply Hmap; [apply eff_with_guard, eff_guard_persist|]. unfold spec_persist. by repeat case_match.
  - eapply Hmap; [apply eff_ttl_ms|done].
  - eapply Hmap; [apply eff_memory_usage|done].
  - intros He. split; [done|]. apply (keeps_reply _ (λ _, RUnit)); [apply keeps_sweep|done].
  - intros He. split; [done|]. apply (keeps_reply _ (λ _, RUnit)); [by apply keeps_set_eviction_config|done].
  - intros He. split; [done|]. apply (keeps_reply _ (λ _, RUnit)); [apply keeps_rewrite_aof|done].
  - intros He. split; [done|]. apply (keeps_reply _ (λ _, RUnit)); [apply keeps_rewrite_worker|done].
Qed.
End commands.

(** ** Histories *)

Definition env_of (c : Clock) : Env := {| env_read := c; env_guard := c; env_late := c |}.

Fixpoint run_replies (h : list (Clock * Op)) (e : Engine) : list outcome * Engine :=
  match h with
  | [] => ([], e)
  | (c, op) :: h =>
      let '(r, e) := run_reply (env_of c) op e in
      let '(outs, e) := run_replies h e in
      (r :: outs, e)
  end.

(** The answers the abstract store allows: before each call the keys whose
    deadline has passed disappear. *)
Fixpoint allowed (h : list (Clock * Op)) (outs : list outcome) (m : kv) : Prop :=
  match h, outs with
  | [], [] => True
  | (c, op) :: h, o :: outs =>
      let s := spec_op (inst c) (current_epoch_ms c) op (live (inst c) m) in
      s.1 o ∧ allowed h outs s.2
  | _, _ => False
  end.

(** Calls in the order of the monotonic clock. *)
Fixpoint ascending {A} (t : Z) (h : list (Clock * A)) : Prop :=
  match h with
  | [] => True
  | (c, _) :: h => t ≤ inst c ∧ ascending (inst c) h
  end.

Lemma run_replies_allowed h t m e :
  max_memory (e_eviction e) = 0 → Forall (λ p, op_fits p.2) h → ascending t h →
  (∀ t', t ≤ t' → live t' (view e) = live t' m) →
  allowed h (run_replies h e).1 m.
Proof.
  revert t m e. induction h as [|[c op] h IH]; intros t m e Hmem Hfit Hasc Hsim; [done|].
  apply Forall_cons in Hfit as [Hop Hfit]. destruct Hasc as [Ht Hasc]. simpl in Hop. cbn [run_replies].
  assert (He : shows (inst c) (live (inst c) m) e) by (split; [done|by apply Hsim]).
  destruct (run_reply_spec (env_of c) c ltac:(done) op _ e Hop He) as [Hout He'].
  destruct (run_reply (env_of c) op e) as [r e'] eqn:Er. simpl in Hout, He'.
  specialize (IH (inst c) (spec_op (inst c) (current_epoch_ms c) op (live (inst c) m)).2 e' (proj1 He')
    Hfit Hasc).
  destruct (run_replies h e') as [outs e2]. cbn [fst allowed]. split; [done|]. apply IH.
  intros t' Ht'. destruct He' as [_ <-]. symmetry. by apply live_live.
Qed.
End refinement.

(** C1: the engine implements the abstract store. For every history of calls
    in clock order on an engine without a memory limit, each answer is one the
    abstract key-value store with deadlines allows: values, previous values,
    counters, TTLs, existence, sizes, scans and every error. The two-phase reads,
    the lazy and active expiry, the recency bookkeeping, the indexes, the log and
    its rewrite cannot be seen in any answer. *)
Theorem engine_refines_kv `{IndexMap} `{HashIter} (h : list (Clock * Op)) t e :
  max_memory (e_eviction e) = 0 → Forall (λ p, op_fits p.2) h → ascending t h →
  allowed h (run_replies h e).1 (view e).
Proof. intros Hm Hf Ha. by eapply run_replies_allowed. Qed.

Definition kv_history : list (Clock * Op) :=
  [ (clock_at 1, OSet (str "k") (str "41"));
    (clock_at 2, OExpireAt (str "k") 1700000000010);
    (clock_at 3, OIncrBy (str "k") 1);
    (clock_at 9, OTtl (str "k"));
    (clock_at 10, OMGet [str "k"; str "l"]);
    (clock_at 11, OAppend (str "k") (str "x")) ].

Lemma engine_refines_kv_witness :
  allowed kv_history (run_replies kv_history (engine_new (clock_at 0))).1 (view (engine_new (clock_at 0))) ∧
  (run_replies kv_history (engine_new (clock_at 0))).1
  = [ Ok (RBulk None); Ok (RBool true); Ok (RInt 42); Ok (RTtl (Millis 1));
      Ok (RBulks [None; None]); Ok (RInt 1) ].
Proof.
  split; [|vm_compute; reflexivity].
  apply (engine_refines_kv kv_history 0 (engine_new (clock_at 0))).
  - reflexivity.
  - repeat constructor.
  - vm_compute. repeat split; discriminate.
Defined.
