(* ===== verification/LogState.v ===== *)
(** * The log mirrors the store

    The records of the append-only file, what playing them means, and the
    invariant that ties the log to the store: on a disk that does not fail,
    whatever commands run (evictions, lazy and active expiry, rewrites, failing
    calls), playing the log gives the keys that exist, with their values and,
    up to the rounding of clocks to milliseconds, their deadlines. *)
From S2P Require Import Prelude Numeric Error Floats Encoder IndexMap Eviction Entry Sieve AdaptiveClimb Glob Aof Engine WriteGuard Commands EngineInv MemoryLimit Replay Spec Refinement.
From Stdlib Require Import ZArith Lia SpecFloat.
From stdpp Require Import gmap strings numbers list.
Local Open Scope Z_scope.

(** ** Records *)

Inductive LogRecord :=
| LSet (key value : bytes)
| LDel (key : bytes)
| LFlush
| LPexpireat (key : bytes) (abs_ms : Z)
| LPersist (key : bytes).

Definition parts (r : LogRecord) : list bytes :=
  match r with
  | LSet k v => [str "SET"; k; v]
  | LDel k => [str "DEL"; k]
  | LFlush => [str "FLUSHDB"]
  | LPexpireat k ms => [str "PEXPIREAT"; k; to_string_i ms]
  | LPersist k => [str "PERSIST"; k]
  end.

Definition image (rs : list LogRecord) : bytes := log_of (map parts rs).

Lemma image_app rs rs' : image (rs ++ rs') = image rs ++ image rs'.
Proof. unfold image, log_of. by rewrite !map_app, concat_app. Qed.

Lemma image_one r : image [r] = encode_command (parts r).
Proof. unfold image, log_of. cbn [map concat]. apply app_nil_r. Qed.

(** What a log says: values with deadlines in milliseconds since the epoch. *)
Abbreviation logmap := (gmap bytes (bytes * option Z)).

Definition play1 (m : logmap) (r : LogRecord) : logmap :=
  match r with
  | LSet k v => <[k := (v, None)]> m
  | LDel k => delete k m
  | LFlush => ∅
  | LPexpireat k ms => alter (λ p, (p.1, Some ms)) k m
  | LPersist k => alter (λ p, (p.1, None)) k m
  end.

Definition play (rs : list LogRecord) (m : logmap) : logmap := fold_left play1 rs m.

Lemma play_app rs rs' m : play (rs ++ rs') m = play rs' (play rs m).
Proof. apply fold_left_app. Qed.

(** ** A disk without failures *)

Lemma bw_flush_healthy f : ∃ f', bw_flush (f, []) = (Ok tt, (f', [])).
Proof. by eexists. Qed.

Lemma bw_write_all_healthy cap bs f : ∃ f', bw_write_all cap bs (f, []) = (Ok tt, (f', [])).
Proof.
  unfold bw_write_all, gets, mbind, se_bind. simpl.
  destruct (_ <? _); [by eexists|]. destruct (_ <? _); simpl; destruct (_ <=? _); by eexists.
Qed.

Lemma os_sync_healthy f : ∃ f', os_sync (f, []) = (Ok tt, (f', [])).
Proof. by eexists. Qed.

Lemma lift_io_healthy err (m : Io ()) w :
  (∀ f, ∃ f', m (f, []) = (Ok tt, (f', []))) → w_disk w = [] →
  ∃ f', lift_io err m w = (Ok tt, set_io f' [] w) ∧ m (w_inner w, []) = (Ok tt, (f', [])).
Proof.
  intros Hm Hd. destruct (Hm (w_inner w)) as [f' Hf]. exists f'. split; [|done].
  unfold lift_io. by rewrite Hd, Hf.
Qed.

(** The rewrite flag and the delta after [bs] was mirrored. *)
Definition mirrored (bs : bytes) (w : AofWriter) : bool * bytes :=
  if w_rewriting w then
    if w_delta_cap w <? blen (w_delta w) + blen bs then (false, []) else (true, w_delta w ++ bs)
  else (false, w_delta w).

Lemma write_bytes_healthy bs w :
  w_disk w = [] →
  ∃ w', write_bytes bs w = (Ok tt, w') ∧ w_disk w' = [] ∧
    stream (w_inner w') = stream (w_inner w) ++ bs ∧
    (w_rewriting w', w_delta w') = mirrored bs w.
Proof.
  intros Hd. destruct (write_bytes bs w) as [r w'] eqn:E. revert E. unfold write_bytes.
  destruct (lift_io_healthy (persist_err "aof write failed: ") _ w
    (bw_write_all_healthy BUFWRITER_CAP bs) Hd) as (f1 & E1 & Hf1).
  apply bw_write_all_spec in Hf1 as (_ & _ & Hs1); [|done].
  unfold mbind, se_bind. rewrite E1. unfold gets. simpl.
  set (w1 := set_io f1 [] w).
  assert (Hlast : ∀ w2, w_disk w2 = [] → stream (w_inner w2) = stream f1 →
    w_rewriting w2 = w_rewriting w → w_delta w2 = w_delta w → w_delta_cap w2 = w_delta_cap w →
    mirror_delta bs w2 = (r, w') →
    r = Ok tt ∧ w_disk w' = [] ∧ stream (w_inner w') = stream (w_inner w) ++ bs ∧
    (w_rewriting w', w_delta w') = mirrored bs w).
  { intros w2 H1 H2 H3 H4 H5 [= <- <-]. split; [done|].
    unfold mirrored. rewrite <- H3, <- H4, <- H5, <- Hs1, <- H2.
    destruct (w_rewriting w2) eqn:E2; [destruct (_ <? _)|]; simpl; by rewrite ?E2. }
  intros E. exists w'. cut (r = Ok tt ∧ w_disk w' = [] ∧
    stream (w_inner w') = stream (w_inner w) ++ bs ∧ (w_rewriting w', w_delta w') = mirrored bs w).
  { by intros (-> & ?). }
  revert E. destruct (w_policy w); [|by apply Hlast..].
  destruct (lift_io_healthy (persist_err "aof flush failed: ") _ w1 bw_flush_healthy eq_refl)
    as (f2 & E2 & Hf2). rewrite E2. apply bw_flush_spec in Hf2 as (_ & Hs2 & _).
  by apply Hlast.
Qed.

Lemma sync_if_needed_healthy w :
  w_disk w = [] →
  ∃ w', sync_if_needed w = (Ok tt, w') ∧ w_disk w' = [] ∧
    stream (w_inner w') = stream (w_inner w) ∧
    w_rewriting w' = w_rewriting w ∧ w_delta w' = w_delta w.
Proof.
  intros Hd. unfold sync_if_needed, gets, mbind, se_bind. simpl.
  destruct (negb _); [by exists w|]. destruct (_ <=? _); [by exists w|].
  destruct (lift_io_healthy (persist_err "aof flush failed: ") _ w bw_flush_healthy Hd)
    as (f1 & -> & Hf1). apply bw_flush_spec in Hf1 as (_ & Hs1 & _).
  destruct (lift_io_healthy (persist_err "aof fsync failed: ") _ (set_io f1 [] w) os_sync_healthy eq_refl)
    as (f2 & -> & Hf2). simpl in Hf2. unfold modify. eexists. split; [done|]. simpl.
  split; [done|]. split; [|done]. injection Hf2 as <-. exact Hs1.
Qed.

Lemma for_each_write_healthy what cap (chunks : list bytes) f :
  ∃ f', for_each chunks (λ c, io_err what (bw_write_all cap c)) (f, []) = (Ok tt, (f', [])).
Proof.
  revert f. induction chunks as [|c chunks IH]; intros f; simpl; [by eexists|].
  unfold mbind, se_bind, io_err. destruct (bw_write_all_healthy cap c f) as [f1 ->]. apply IH.
Qed.

Lemma serialise_healthy snap w :
  w_disk w = [] → ∃ f, serialise_compact_aof snap w = (Ok f, w).
Proof.
  intros Hd. unfold serialise_compact_aof, mbind, se_bind. rewrite Hd. simpl.
  match goal with |- context [for_each ?l _ (?f, [])] =>
    destruct (for_each_write_healthy "aof rewrite write temp failed: " (64 * 1024) l f) as [f1 E1] end.
  rewrite E1. simpl. eexists. unfold set_io. destruct w; simpl in *; subst. done.
Qed.

Lemma finish_rewrite_healthy err temp w :
  w_disk w = [] → ∃ w', finish_rewrite err temp w = (Ok tt, w') ∧ w_disk w' = [].
Proof.
  intros Hd. unfold finish_rewrite, install_rewrite, gets, mbind, se_bind. simpl.
  destruct (negb _); [by exists w|]. unfold lift_io at 1. rewrite Hd. cbn -[lift_io bw_write_all].
  unfold lift_io at 1. cbn -[lift_io bw_write_all]. unfold lift_io at 1. cbn -[lift_io bw_write_all].
  unfold modify. set (w1 := set_counters _ _ _ _ _). change (w_delta w1) with (w_delta w).
  destruct (w_delta w) as [|b delta]; [by eexists|].
  destruct (lift_io_healthy (persist_err "aof rewrite delta replay failed: ") _ w1
    (bw_write_all_healthy BUFWRITER_CAP (b :: delta)) eq_refl) as (f2 & -> & _).
  destruct (lift_io_healthy (persist_err "aof rewrite delta flush failed: ") _ (set_io f2 [] w1)
    bw_flush_healthy eq_refl) as (f3 & -> & _).
  destruct (lift_io_healthy (persist_err "aof rewrite delta fsync failed: ") _
    (set_io f3 [] (set_io f2 [] w1)) os_sync_healthy eq_refl) as (f4 & -> & _).
  by eexists.
Qed.

(** ** The writer holds the records *)

(** The log is the image of the records [rs]; during a rewrite the delta holds
    the last of them, [ds]. *)
Record log_ok (rs ds : list LogRecord) (w : AofWriter) : Prop := {
  lo_disk : w_disk w = [];
  lo_stream : stream (w_inner w) = image rs;
  lo_delta : if w_rewriting w then ds `suffix_of` rs ∧ w_delta w = image ds else w_delta w = [];
}.

Lemma log_ok_append rs ds rs' w :
  log_ok rs ds w →
  ∃ w', write_bytes (image rs') w = (Ok tt, w') ∧ log_ok (rs ++ rs') (ds ++ rs') w' ∧
    (w_rewriting w' = true → w_rewriting w = true).
Proof.
  intros [Hd Hs Hdel]. destruct (write_bytes_healthy (image rs') w Hd) as (w' & E & H1 & H2 & H3).
  exists w'. split; [done|].
  unfold mirrored in H3. destruct (w_rewriting w).
  - split; [|done]. split; [done|by rewrite H2, Hs, image_app|].
    destruct (_ <? _); injection H3 as -> ->; [done|]. destruct Hdel as [Hsuf ->].
    split; [by apply suffix_app|by rewrite image_app].
  - injection H3 as Hr Hde. split; [|by rewrite Hr]. split; [done|by rewrite H2, Hs, image_app|].
    by rewrite Hr, Hde.
Qed.

Lemma log_ok_sync rs ds w :
  log_ok rs ds w → ∃ w', sync_if_needed w = (Ok tt, w') ∧ log_ok rs ds w' ∧ w_rewriting w' = w_rewriting w.
Proof.
  intros [Hd Hs Hdel]. destruct (sync_if_needed_healthy w Hd) as (w' & E & H1 & H2 & H3 & H4).
  exists w'. split; [done|]. split; [|done]. split; [done|congruence|by rewrite H3, H4].
Qed.

(** The records of a compact log. *)
Definition compact (snap : list (bytes * bytes * option Z)) : list LogRecord :=
  concat (map (λ '(k, v, ttl),
    LSet k v :: match ttl with Some ms => [LPexpireat k ms] | None => [] end) snap).

Lemma compact_image snap : concat (concat (map compact_record snap)) = image (compact snap).
Proof.
  induction snap as [|[[k v] ttl] snap IH]; [done|].
  transitivity (concat (compact_record (k, v, ttl)) ++ image (compact snap)).
  - rewrite <- IH. apply concat_app.
  - unfold compact at 2. cbn [map concat]. rewrite image_app. f_equal. by destruct ttl.
Qed.

Lemma log_ok_rewrite rs ds w snap err :
  log_ok rs ds w → w_rewriting w = true →
  ∃ f w', serialise_compact_aof snap w = (Ok f, w) ∧
    finish_rewrite err f w = (Ok tt, w') ∧ log_ok (compact snap ++ ds) [] w' ∧ w_rewriting w' = false.
Proof.
  intros [Hd Hs Hdel] Hrw. rewrite Hrw in Hdel. destruct Hdel as [_ Hdelta].
  destruct (serialise_healthy snap w Hd) as [f Ef].
  destruct (serialise_compact_aof_spec snap w f w Ef) as (Hf1 & Hf2 & _).
  destruct (finish_rewrite_healthy err f w Hd) as (w' & Ew & Hd').
  destruct (finish_rewrite_spec err f w w' Hrw Hf2 Ew) as (Hst & _ & _ & Hr & Hdl & _).
  exists f, w'. split; [done|]. split; [done|]. split; [|done]. split; [done| |by rewrite Hr].
  by rewrite Hst, Hf1, Hdelta, compact_image, image_app.
Qed.

(** A worker that finds the rewrite aborted leaves the log alone. *)
Lemma log_ok_idle rs ds w snap err :
  log_ok rs ds w → w_rewriting w = false →
  ∃ f, serialise_compact_aof snap w = (Ok f, w) ∧ finish_rewrite err f w = (Ok tt, w).
Proof.
  intros [Hd _ _] Hrw. destruct (serialise_healthy snap w Hd) as [f Ef]. exists f. split; [done|].
  unfold finish_rewrite, gets, mbind, se_bind. simpl. by rewrite Hrw.
Qed.

(** ** The mirror *)

Section mirror.
(** The wall clock is the monotonic clock plus [off]; no deadline is meant to
    lie before the millisecond [T + 2]. *)
Context (off T : Z).

(** A deadline of the store, an instant, and its millisecond in the log: the log
    is at most two milliseconds early. *)
Definition near (deadline ms : Z) : Prop :=
  ms * 1000000 ≤ deadline + off < ms * 1000000 + 2000000 ∧
  (T + 2) * 1000000 ≤ deadline + off < (i64_max + 1) * 1000000.

Definition near_opt (x y : option Z) : Prop :=
  match x, y with
  | Some deadline, Some ms => near deadline ms
  | None, None => True
  | _, _ => False
  end.

(** [m], played from the log, and [L], the keys that exist at the instant [t],
    agree; the log may still hold keys that have expired by then. *)
Definition mirrors (t : Z) (m : logmap) (L : kv) : Prop :=
  ∀ k, match L !! k with
       | Some (d, exp) => ∃ dl, m !! k = Some (d, dl) ∧ near_opt exp dl
       | None => match m !! k with
                 | None => True
                 | Some (_, Some ms) => ms * 1000000 ≤ t + off
                 | Some (_, None) => False
                 end
       end.

Lemma mirrors_empty t : mirrors t ∅ ∅.
Proof. intros k. by rewrite !lookup_empty. Qed.

Lemma mirrors_delete t k m L : mirrors t m L → mirrors t (delete k m) (delete k L).
Proof.
  intros Hm k'. specialize (Hm k'). destruct (decide (k = k')) as [->|Hne].
  - by rewrite !lookup_delete_eq.
  - by rewrite !lookup_delete_ne.
Qed.

Lemma mirrors_insert t k v exp dl m L :
  near_opt exp dl → mirrors t m L → mirrors t (<[k := (v, dl)]> m) (<[k := (v, exp)]> L).
Proof.
  intros Hn Hm k'. specialize (Hm k'). destruct (decide (k = k')) as [->|Hne].
  - rewrite !lookup_insert_eq. by exists dl.
  - by rewrite !lookup_insert_ne.
Qed.

Lemma mirrors_drop t k m L : L !! k = None → mirrors t m L → mirrors t (delete k m) L.
Proof. intros HL Hm. rewrite <- (delete_id L k HL). by apply mirrors_delete. Qed.

Lemma mirrors_alter t k d exp0 exp dl m L :
  L !! k = Some (d, exp0) → near_opt exp dl → mirrors t m L →
  mirrors t (alter (λ p, (p.1, dl)) k m) (<[k := (d, exp)]> L).
Proof.
  intros HL Hn Hm. pose proof (Hm k) as Hk. rewrite HL in Hk. destruct Hk as (dl0 & Hk & _).
  assert (alter (λ p, (p.1, dl)) k m = <[k := (d, dl)]> m) as ->.
  { apply map_eq. intros k'. destruct (decide (k = k')) as [->|Hne].
    - rewrite lookup_alter_eq, lookup_insert_eq. by rewrite Hk.
    - by rewrite lookup_alter_ne, lookup_insert_ne. }
  by apply mirrors_insert.
Qed.

(** Time passes: the keys that expire leave [L] and are past in the log. *)
Lemma mirrors_later t t' m L : t ≤ t' → mirrors t m L → mirrors t' m (live t' L).
Proof.
  intros Ht Hm k. specialize (Hm k). rewrite live_lookup. destruct (L !! k) as [[d exp]|].
  - destruct Hm as (dl & Hk & Hn). destruct (alive t' (d, exp)) eqn:Ea; [eauto|].
    unfold alive in Ea. simpl in Ea. destruct exp as [D|]; [|done]. rewrite Hk.
    destruct dl as [ms|]; [|done]. destruct Hn as [? _].
    apply negb_false_iff, Z.leb_le in Ea. lia.
  - destruct (m !! k) as [[? [ms|]]|]; [lia|done|done].
Qed.

(** Playing the last records again over a snapshot of what exists changes
    nothing: each record sets or removes what it names. *)
Definition touches (k : bytes) (r : LogRecord) : bool :=
  match r with
  | LSet k' _ | LDel k' => bool_decide (k = k')
  | LFlush => true
  | _ => false
  end.

Lemma play1_lookup k r m m' :
  m !! k = m' !! k → play1 m r !! k = play1 m' r !! k.
Proof.
  intros Hk. destruct r as [k' v|k'| |k' ms|k']; simpl; [| |done| |];
    destruct (decide (k' = k)) as [->|Hne].
  - by rewrite !lookup_insert_eq.
  - by rewrite !lookup_insert_ne.
  - by rewrite !lookup_delete_eq.
  - by rewrite !lookup_delete_ne.
  - by rewrite !lookup_alter_eq, Hk.
  - by rewrite !lookup_alter_ne.
  - by rewrite !lookup_alter_eq, Hk.
  - by rewrite !lookup_alter_ne.
Qed.

Lemma play_lookup k rs m m' : m !! k = m' !! k → play rs m !! k = play rs m' !! k.
Proof.
  revert m m'. induction rs as [|r rs IH]; intros m m' Hk; [done|]. simpl. by apply IH, play1_lookup.
Qed.

Lemma play1_touches k r m m' : touches k r = true → play1 m r !! k = play1 m' r !! k.
Proof.
  destruct r as [k' v|k'| | |]; simpl; try done; intros Hk; apply bool_decide_eq_true in Hk as <-.
  - by rewrite !lookup_insert_eq.
  - by rewrite !lookup_delete_eq.
Qed.

(** The deadline the records give a key they neither set nor remove. *)
Definition last_deadline (k : bytes) (rs : list LogRecord) (dl : option Z) : option Z :=
  fold_left (λ dl r, match r with
    | LPexpireat k' ms => if bool_decide (k = k') then Some ms else dl
    | LPersist k' => if bool_decide (k = k') then None else dl
    | _ => dl
    end) rs dl.

Lemma play_cases k rs :
  (∀ m m', play rs m !! k = play rs m' !! k) ∨
  (∀ m, play rs m !! k = (λ p, (p.1, last_deadline k rs p.2)) <$> m !! k).
Proof.
  induction rs as [|r rs IH]; [right; intros m; simpl; by destruct (m !! k) as [[]|]|].
  destruct IH as [IH|IH]; [left; intros m m'; apply IH|].
  destruct (touches k r) eqn:Et.
  - left. intros m m'. simpl. by apply play_lookup, play1_touches.
  - right. intros m. simpl. rewrite IH.
    destruct r as [k' v|k'| |k' ms|k']; simpl in *; try done;
      [apply bool_decide_eq_false in Et..| |].
    + by rewrite lookup_insert_ne.
    + by rewrite lookup_delete_ne.
    + destruct (decide (k = k')) as [->|Hne].
      * rewrite lookup_alter_eq, bool_decide_true by done. by destruct (m !! k') as [[]|].
      * rewrite lookup_alter_ne, bool_decide_false by done. done.
    + destruct (decide (k = k')) as [->|Hne].
      * rewrite lookup_alter_eq, bool_decide_true by done. by destruct (m !! k') as [[]|].
      * rewrite lookup_alter_ne, bool_decide_false by done. done.
Qed.

Lemma last_deadline_cases k rs :
  (∀ x y, last_deadline k rs x = last_deadline k rs y) ∨ (∀ x, last_deadline k rs x = x).
Proof.
  induction rs as [|r rs IH]; [by right|]. destruct IH as [IH|IH]; [left; intros x y; apply IH|].
  destruct r as [| | |k' ms|k']; simpl; [by right..| |];
    (destruct (bool_decide (k = k')); [by left|by right]).
Qed.

Lemma mirrors_replayed t m0 ds snap L :
  mirrors t (play ds m0) L → mirrors t snap L → (∀ k, L !! k = None → snap !! k = None) →
  mirrors t (play ds snap) L.
Proof.
  intros Hm Hs Hdom k. specialize (Hm k). specialize (Hs k). specialize (Hdom k).
  destruct (play_cases k ds) as [Hc|Hc]; [by rewrite (Hc snap m0)|].
  rewrite Hc in Hm. rewrite Hc. destruct (L !! k) as [[d exp]|]; [|by rewrite Hdom].
  destruct Hm as (dl & Hk & Hn), Hs as (dl' & -> & Hn'). simpl.
  destruct (m0 !! k) as [[d0 dl0]|]; [|done]. simpl in Hk. simplify_eq.
  eexists. split; [done|].
  destruct (last_deadline_cases k ds) as [Hl|Hl]; [by rewrite (Hl dl' dl0)|by rewrite Hl].
Qed.

(** ** Clocks *)

(** A reading of the two clocks, in step and after the epoch. *)
Definition steady (c : Clock) : Prop :=
  unix_ns c = inst c + off ∧ 0 ≤ unix_ns c < (i64_max + 1) * 1000000.

Lemma steady_ms c : steady c → current_epoch_ms c = unix_ns c / 1000000 ∧ 0 ≤ unix_ns c / 1000000 ≤ i64_max.
Proof.
  intros [Hu Hr]. unfold current_epoch_ms, i64_max in *.
  assert (0 ≤ unix_ns c / 1000000 ≤ 9223372036854775807)
    by (split; [apply Z.div_pos|apply Z.lt_succ_r, Z.div_lt_upper_bound]; lia).
  destruct (unix_ns c <? 0) eqn:E; bool_to_prop; [lia|]. split; [|done].
  apply as_i64_small. unfold i63. lia.
Qed.

(** [EXPIRE] sets the instant that stands for the millisecond it is given. *)
Lemma near_expire c abs :
  steady c → in_i64 abs = true → T + 2 ≤ abs → current_epoch_ms c < abs →
  near (inst c + wrap64 (abs - current_epoch_ms c) * 1000000) abs.
Proof.
  intros Hc Ha HT Hlt. destruct (steady_ms c Hc) as [Hms Hr]. destruct Hc as [Hu Hr'].
  rewrite Hms in *. unfold in_i64, i64_min, i64_max in *. apply andb_prop in Ha as [H1 H2].
  apply Z.leb_le in H1, H2. unfold wrap64. rewrite Z.mod_small by lia.
  pose proof (Z.div_mod (unix_ns c) 1000000 ltac:(lia)). pose proof (Z.mod_pos_bound (unix_ns c) 1000000 ltac:(lia)).
  unfold near, i64_max. lia.
Qed.

(** A kept or saved deadline is written back as the same millisecond or the one
    before. *)
Lemma near_again c deadline ms :
  steady c → near deadline ms → inst c < deadline →
  ∃ ms', deadline_to_epoch_ms c deadline (inst c) = Some ms' ∧ near deadline ms' ∧
    in_i64 ms' = true ∧ T < ms'.
Proof.
  intros Hc Hn Hlt. destruct (steady_ms c Hc) as [Hms Hr]. destruct Hc as [Hu Hr'].
  destruct Hn as [Hn1 Hn2]. unfold deadline_to_epoch_ms. rewrite Hms.
  destruct (deadline <=? inst c) eqn:E; bool_to_prop; [lia|].
  set (u := unix_ns c) in *. set (x := deadline - inst c) in *.
  pose proof (Z.div_mod u 1000000 ltac:(lia)). pose proof (Z.mod_pos_bound u 1000000 ltac:(lia)).
  pose proof (Z.div_mod x 1000000 ltac:(lia)). pose proof (Z.mod_pos_bound x 1000000 ltac:(lia)).
  unfold i64_max in *. set (q := u / 1000000) in *. set (p := x / 1000000) in *.
  assert (Hp : 0 ≤ p) by (apply Z.div_pos; lia).
  assert (Hw : deadline + off = u + x) by lia.
  assert (Hsum : (q + p) * 1000000 ≤ deadline + off < (q + p + 2) * 1000000) by lia.
  exists (q + p). assert (0 ≤ q + p ≤ 9223372036854775807) by lia.
  rewrite as_i64_small by (unfold i63; lia). unfold sat_add_i64, i64_min, i64_max.
  split; [f_equal; lia|]. split; [unfold near, i64_max; lia|].
  split; [unfold in_i64, i64_min, i64_max; apply andb_true_intro; split; apply Z.leb_le; lia|lia].
Qed.
End mirror.
