(* ===== verification/Durability.v ===== *)
(** * Every command keeps the log in step with the store

    A small program logic for engine code that appends to the log: assertions
    relate what the log plays to and the keys that exist. Each primitive and each
    command is proved to end, on every path, with the two in agreement. *)
From S2P Require Import Prelude Numeric Text Error Floats Encoder IndexMap Eviction Entry Sieve AdaptiveClimb Glob Aof Engine WriteGuard Commands EngineInv MemoryLimit Replay Spec Refinement LogState.
From Stdlib Require Import ZArith Lia SpecFloat.
From stdpp Require Import gmap strings numbers list.
Local Open Scope Z_scope.

Section durability.
(** [base] is the compact log of a rewrite worker between its halves. *)
Context `{IndexMap} `{HashIter} (off T : Z) (base : option (list LogRecord)).

Implicit Types (k v : bytes) (e : Engine) (g : Guard) (rs : list LogRecord) (en : ValueEntry) (o : option ValueEntry) (env : Env).

(** Relations between the played log and the keys that exist. *)
Abbreviation rel := (logmap → kv → Prop).

Definition rec_ok (r : LogRecord) : Prop :=
  match r with
  | LSet k v => validate_key k = Ok tt ∧ validate_value v = Ok tt
  | LDel k | LPersist k => validate_key k = Ok tt
  | LFlush => True
  | LPexpireat k ms => validate_key k = Ok tt ∧ in_i64 ms = true ∧ T < ms
  end.

Definition entry_ok (k : bytes) (p : bytes * option Z) : Prop :=
  validate_key k = Ok tt ∧ validate_value p.1 = Ok tt.

(** The readings of the log: what its records [rs] play to, and, while a worker has
    a snapshot in hand, what the snapshot followed by the delta will. *)
Definition reading (w : AofWriter) rs (ds : list LogRecord) (m : logmap) : Prop :=
  m = play rs ∅ ∨ ∃ b, base = Some b ∧ w_rewriting w = true ∧ m = play ds (play b ∅).

Lemma reading_log w rs (ds : list LogRecord) : reading w rs ds (play rs ∅).
Proof using Type. by left. Qed.

Lemma reading_append w w' rs (ds : list LogRecord) rs' m :
  (w_rewriting w' = true → w_rewriting w = true) → reading w' (rs ++ rs') (ds ++ rs') m →
  ∃ m0, reading w rs ds m0 ∧ m = play rs' m0.
Proof using Type.
  intros Hw [->|(b & Hb & Hrw & ->)]; rewrite play_app; (eexists; split; [|done]); [by left|right; eauto].
Qed.

Lemma reading_same w w' rs (ds : list LogRecord) m :
  (w_rewriting w' = true → w_rewriting w = true) → reading w' rs ds m → reading w rs ds m.
Proof using Type. intros Hw [->|(b & Hb & Hrw & ->)]; [by left|right; eauto]. Qed.

(** The engine logs to a writer that holds the records [rs], and [R] relates
    every reading of them to what exists at the instant [t]. *)
Definition holds (t : Z) (R : rel) (e : Engine) : Prop :=
  ∃ w rs ds, e_aof e = Some w ∧ log_ok rs ds w ∧ Forall rec_ok rs ∧
    map_Forall entry_ok (view e) ∧ ∀ m, reading w rs ds m → R m (live t (view e)).

Lemma holds_entry (t : Z) (R : rel) e k en :
  holds t R e → e_store e !! k = Some en → entry_ok k (face en).
Proof using Type.
  intros (w & rs & ds & _ & _ & _ & Hok & _) Hk. apply (Hok k (face en)). unfold view. by rewrite lookup_fmap, Hk.
Qed.

Lemma holds_now (t : Z) (R : rel) e : holds t R e → ∃ m, R m (live t (view e)).
Proof using Type. intros (w & rs & ds & _ & _ & _ & _ & H5). eexists. apply H5, reading_log. Qed.

(** A change of the keys, with the log left alone. *)
Lemma holds_change (t : Z) (R R' : rel) e e' :
  holds t R e → e_aof e' = e_aof e → map_Forall entry_ok (view e') →
  (∀ m, R m (live t (view e)) → R' m (live t (view e'))) → holds t R' e'.
Proof using Type.
  intros (w & rs & ds & H1 & H2 & H3 & H4 & H5) Ha Hok HR. exists w, rs, ds. rewrite Ha. split_and!; auto.
Qed.

Lemma holds_ok (t : Z) (R : rel) e : holds t R e → map_Forall entry_ok (view e).
Proof using Type. by intros (w & rs & ds & _ & _ & _ & ? & _). Qed.

Lemma holds_same (t : Z) (R : rel) e e' :
  e_aof e' = e_aof e → view e' = view e → holds t R e → holds t R e'.
Proof using Type.
  intros Ha Hv He. eapply holds_change; [exact He|done|rewrite Hv; by eapply holds_ok|by rewrite Hv].
Qed.

Lemma holds_frame (t : Z) (R : rel) e e' :
  e_aof e' = e_aof e → e_store e' = e_store e → holds t R e → holds t R e'.
Proof using Type. intros Ha Hs. apply holds_same; [done|]. unfold view. by rewrite Hs. Qed.

Lemma holds_weaken (t : Z) (R R' : rel) e :
  (∀ m L, R m L → R' m L) → holds t R e → holds t R' e.
Proof using Type. intros HR He. eapply holds_change; [exact He|done|by eapply holds_ok|auto]. Qed.

(** ** The logic *)

Section rules.
Context (t : Z) {S : Type} (St : rel → S → Prop).
Context (St_weaken : ∀ (R R' : rel) s, (∀ m L, R m L → R' m L) → St R s → St R' s).
Abbreviation SM := (SE S FerrumError).

(** From a state that satisfies [R], [m] ends with agreement, and with [R' a]
    when it returns [a]. *)
Definition goes {A : Type} (R : rel) (m : SM A) (R' : A → rel) : Prop :=
  triple (St R) m (λ r s, match r with Ok a => St (R' a) s | Err _ => St (mirrors off T t) s end).

Lemma goes_ret {A : Type} (a : A) (R : A → rel) : goes (R a) (mret a : SM A) R.
Proof using Type. by intros s. Qed.
Lemma goes_throw {A : Type} (e : FerrumError) (R : A → rel) : goes (mirrors off T t) (throw e : SM A) R.
Proof using Type. by intros s. Qed.
Lemma goes_bind {A B : Type} (R : rel) (R1 : A → rel) (R2 : B → rel) (m : SM A) (f : A → SM B) :
  goes R m R1 → (∀ a, goes (R1 a) (f a) R2) → goes R (m ≫= f) R2.
Proof using Type. intros Hm Hf. eapply triple_bind; [exact Hm|exact Hf|done]. Qed.
Lemma goes_pre {A : Type} (R R' : rel) (R1 : A → rel) (m : SM A) :
  goes R' m R1 → (∀ m L, R m L → R' m L) → goes R m R1.
Proof using St_weaken. intros Hm HR. eapply triple_weaken; [exact Hm| |done]. intros s. by apply St_weaken. Qed.
Lemma goes_pure {A : Type} (φ : Prop) (R : rel) (R1 : A → rel) (m : SM A) :
  (φ → goes R m R1) → (∀ s, St (λ m L, φ ∧ R m L) s → φ) → goes (λ m L, φ ∧ R m L) m R1.
Proof using St_weaken.
  intros Hm Hφ s Hs. apply Hm; [by apply (Hφ s)|]. by eapply St_weaken; [|exact Hs]; simpl; intros ?? [].
Qed.
Lemma goes_for_each {A : Type} (R : list A → rel) (l : list A) (f : A → SM ()) :
  (∀ x l, goes (R (x :: l)) (f x) (λ _, R l)) → goes (R l) (for_each l f) (λ _, R []).
Proof using Type.
  intros Hf. induction l as [|x l IH]; simpl; [apply (goes_ret tt (λ _, R []))|].
  eapply goes_bind; [apply Hf|]. by intros [].
Qed.
Lemma goes_lift {A B : Type} (R : rel) (x : res A) (f : A → SM B) (R' : B → rel) :
  (∀ m L, R m L → mirrors off T t m L) → (∀ a, x = Ok a → goes R (f a) R') →
  goes R (lift_result x ≫= f) R'.
Proof using St_weaken.
  intros HR Hf s Hs. unfold mbind, se_bind, lift_result. destruct x as [a|e]; simpl.
  - by apply (Hf a eq_refl).
  - by eapply St_weaken; [|exact Hs].
Qed.
End rules.

(** ** Primitives *)

Section primitives.
Context (c : Clock) (Hc : steady off c).
Abbreviation M := (mirrors off T (inst c)).

(** The write guard of a command that started at [c]. *)
Definition gholds (R : rel) (g : Guard) : Prop :=
  holds (inst c) R (g_engine g) ∧ g_now g = inst c ∧ g_now_ms g = current_epoch_ms c.

Lemma gholds_weaken (R R' : rel) g : (∀ m L, R m L → R' m L) → gholds R g → gholds R' g.
Proof using Type. intros HR [He Hn]. split; [by eapply holds_weaken|done]. Qed.

Abbreviation egoes := (goes (inst c) (holds (inst c))).
Abbreviation ggoes := (goes (inst c) gholds).

Lemma eg_same {A : Type} (R : rel) (m : SE Engine FerrumError A) (R' : A → rel) :
  (∀ e, e_aof (m e).2 = e_aof e ∧ view (m e).2 = view e) →
  (∀ e, match (m e).1 with Ok a => ∀ m L, R m L → R' a m L | Err _ => ∀ m L, R m L → M m L end) →
  egoes R m R'.
Proof using Type.
  intros Hf Hr e He. specialize (Hf e). specialize (Hr e). destruct (m e) as [r e'].
  destruct Hf as [Ha Hv]. simpl in *. destruct r as [a|x];
    (eapply holds_weaken; [exact Hr|]; by eapply holds_same).
Qed.

Lemma eg_modify (R : rel) (f : Engine → Engine) :
  (∀ e, e_aof (f e) = e_aof e ∧ view (f e) = view e) → egoes R (modify f) (λ _, R).
Proof using Type. intros Hf. apply eg_same; [done|]. by intros e m L. Qed.

Lemma gg_engine {A : Type} (R : rel) (m : SE Engine FerrumError A) (R' : A → rel) :
  egoes R m R' → ggoes R (on_engine m) R'.
Proof using Type.
  intros Hm g (He & Hn & Hms). specialize (Hm _ He). unfold on_engine.
  destruct (m (g_engine g)) as [[a|x] e']; by split.
Qed.

Lemma track_remove_aof k e : e_aof (track_remove k e).2 = e_aof e.
Proof using Type.
  unfold track_remove, ac_notify_remove, sieve_notify_remove, apply_delta. simpl.
  destruct (e_store e !! k); simpl; by repeat (case_match; simpl).
Qed.
Lemma track_insert_aof k en e : e_aof (track_insert k en e).2 = e_aof e.
Proof using Type.
  unfold track_insert, ac_notify_insert, sieve_notify_insert, apply_delta. simpl.
  by repeat (case_match; simpl).
Qed.

Lemma eg_remove k (R : option ValueEntry → rel) :
  egoes (λ m L, ∀ o, sees (inst c) L k o → R o m (delete k L)) (track_remove k) R.
Proof using Type.
  intros e He. pose proof (track_remove_aof k e) as Ha.
  destruct (track_remove_frame k e) as (E1 & E2 & _). destruct (track_remove k e) as [r e'].
  simpl in *. subst r. eapply holds_change; [exact He|done|..]; unfold view; rewrite E2, fmap_delete.
  - eapply map_Forall_delete, holds_ok, He.
  - intros m Hm. rewrite live_delete. apply Hm, sees_store.
Qed.

Lemma eg_insert k en (R : option ValueEntry → rel) :
  entry_ok k (face en) → is_expired (inst c) en = false →
  egoes (λ m L, ∀ o, sees (inst c) L k o → R o m (<[k := face en]> L)) (track_insert k en) R.
Proof using Type.
  intros Hok Hx e He. pose proof (track_insert_aof k en e) as Ha.
  destruct (track_insert_frame k en e) as (E1 & E2 & _). destruct (track_insert k en e) as [r e'].
  simpl in *. subst r. eapply holds_change; [exact He|done|..]; unfold view; rewrite E2, fmap_insert.
  - apply map_Forall_insert_2; [done|]. by eapply holds_ok.
  - intros m Hm. rewrite live_insert by (by rewrite alive_face, Hx). apply Hm, sees_store.
Qed.

(** Appending records plays them. *)
Lemma eg_note rs (R : rel) :
  Forall rec_ok rs → egoes (λ m L, R (play rs m) L) (note_aof (write_bytes (image rs))) (λ _, R).
Proof using Type.
  intros Hok e (w & rs0 & ds & H1 & H2 & H3 & H4 & H5). unfold note_aof. rewrite H1.
  destruct (log_ok_append rs0 ds rs w H2) as (w' & -> & Hlog & Hrw). simpl.
  exists w', (rs0 ++ rs), (ds ++ rs). split_and!; [done|done|by apply Forall_app|done|].
  intros m Hm. destruct (reading_append _ _ _ _ _ _ Hrw Hm) as (m0 & Hm0 & ->). by apply H5.
Qed.

Lemma eg_note1 (r : LogRecord) (R : rel) :
  rec_ok r → egoes (λ m L, R (play1 m r) L) (note_aof (append_record (parts r))) (λ _, R).
Proof using Type.
  intros Hr. unfold append_record. rewrite <- image_one. apply (eg_note [r]). by constructor.
Qed.

Lemma eg_sync (R : rel) : egoes R (note_aof sync_if_needed) (λ _, R).
Proof using Type.
  intros e (w & rs & ds & H1 & H2 & H3 & H4 & H5). unfold note_aof. rewrite H1.
  destruct (log_ok_sync rs ds w H2) as (w' & -> & Hlog & Hrw). simpl. exists w', rs, ds.
  split_and!; [done..|]. intros m Hm. apply H5. eapply reading_same, Hm. by rewrite Hrw.
Qed.

Lemma gg_log rs (R : rel) :
  Forall rec_ok rs → ggoes (λ m L, R (play rs m) L) (log (write_bytes (image rs))) (λ _, R).
Proof using Type.
  intros Hok g Hg. unfold log, gets, mbind, se_bind.
  assert (Ha : is_Some (e_aof (g_engine g))) by (destruct Hg as ((w & ? & ? & -> & _) & _); by eexists).
  destruct Ha as [w ->]. simpl. by apply (gg_engine _ _ (λ _, R) (eg_note rs R Hok)).
Qed.

Lemma gg_log1 (r : LogRecord) (R : rel) :
  rec_ok r → ggoes (λ m L, R (play1 m r) L) (log (append_record (parts r))) (λ _, R).
Proof using Type.
  intros Hr. unfold append_record. rewrite <- image_one. apply (gg_log [r]). by constructor.
Qed.

Lemma gg_lookup {B : Type} k (f : option ValueEntry → SE Guard FerrumError B) (R : rel) (R' : B → rel) :
  (∀ o, (∀ en, o = Some en → entry_ok k (face en)) →
     ggoes (λ m L, R m L ∧ sees (inst c) L k o) (f o) R') →
  ggoes R (lookup_entry k ≫= f) R'.
Proof using Type.
  intros Hf g Hg. unfold mbind, se_bind, lookup_entry, gets. apply Hf.
  - intros en Hen. by eapply holds_entry; [apply Hg|].
  - destruct Hg as [He Hn]. split; [|done].
    eapply holds_change; [exact He|done|by eapply holds_ok|]. intros m Hm. split; [done|apply sees_store].
Qed.

Lemma gg_now {B : Type} (f : Z → SE Guard FerrumError B) (R : rel) (R' : B → rel) :
  ggoes R (f (inst c)) R' → ggoes R (gets g_now ≫= f) R'.
Proof using Type.
  intros Hf g Hg. unfold mbind, se_bind, gets. destruct Hg as (He & Hn & Hms). rewrite Hn.
  by apply Hf.
Qed.
Lemma gg_now_ms {B : Type} (f : Z → SE Guard FerrumError B) (R : rel) (R' : B → rel) :
  ggoes R (f (current_epoch_ms c)) R' → ggoes R (gets g_now_ms ≫= f) R'.
Proof using Type.
  intros Hf g Hg. unfold mbind, se_bind, gets. destruct Hg as (He & Hn & Hms). rewrite Hms.
  by apply Hf.
Qed.

Lemma gg_pre {A : Type} (R R' : rel) (R1 : A → rel) (m : SE Guard FerrumError A) :
  ggoes R' m R1 → (∀ m L, R m L → R' m L) → ggoes R m R1.
Proof using Type. apply goes_pre, gholds_weaken. Qed.
Lemma eg_pre {A : Type} (R R' : rel) (R1 : A → rel) (m : SE Engine FerrumError A) :
  egoes R' m R1 → (∀ m L, R m L → R' m L) → egoes R m R1.
Proof using Type. apply goes_pre. intros ???. apply holds_weaken. Qed.
Lemma gg_lift {A B : Type} (R : rel) (x : res A) (f : A → SE Guard FerrumError B) (R' : B → rel) :
  (∀ m L, R m L → M m L) → (∀ a, x = Ok a → ggoes R (f a) R') → ggoes R (lift_result x ≫= f) R'.
Proof using Type. apply goes_lift, gholds_weaken. Qed.
(** Whatever a step returns, [R'] holds after it. *)
Lemma gg_then {A B : Type} (R R1 : rel) (R2 : B → rel) (m : SE Guard FerrumError A)
    (f : A → SE Guard FerrumError B) :
  ggoes R m (λ _, R1) → (∀ a, ggoes R1 (f a) R2) → ggoes R (m ≫= f) R2.
Proof using Type. apply goes_bind. Qed.
Lemma gg_ret {A : Type} (a : A) (R : rel) (R' : A → rel) :
  (∀ m L, R m L → R' a m L) → ggoes R (mret a) R'.
Proof using Type. intros HR. eapply gg_pre; [apply (goes_ret _ _ a R')|done]. Qed.

Lemma touch_access_same env k e :
  (touch_access env k e).1 = Ok tt ∧ e_aof (touch_access env k e).2 = e_aof e ∧
  view (touch_access env k e).2 = view e.
Proof using Type.
  unfold touch_access. destruct (e_store e !! k) as [en|] eqn:Ek; [|done].
  unfold mbind, se_bind, next_rand01, modify. cbn beta iota. cbn [fst snd]. split; [done|].
  set (e1 := set_store _ _).
  assert (Hv : view e1 = view e).
  { unfold e1, view. simpl. rewrite fmap_insert. apply insert_id. by rewrite lookup_fmap, Ek. }
  assert (Ha : e_aof e1 = e_aof e) by done. rewrite <- Hv, <- Ha. clearbody e1.
  unfold view, ac_notify_access, sieve_notify_access. by repeat case_match.
Qed.

Lemma gg_touch_access env k (R : rel) : ggoes R (on_engine (touch_access env k)) (λ _, R).
Proof using Type.
  apply gg_engine, eg_same.
  - intros e. by destruct (touch_access_same env k e) as (_ & ? & ?).
  - intros e. destruct (touch_access_same env k e) as (-> & _). done.
Qed.
Lemma gg_record_hit (R : rel) : ggoes R (on_engine record_hit) (λ _, R).
Proof using Type. by apply gg_engine, eg_modify. Qed.
Lemma gg_record_miss (R : rel) : ggoes R (on_engine record_miss) (λ _, R).
Proof using Type. by apply gg_engine, eg_modify. Qed.

(** Dropping a key that no longer exists, with its [DEL]. *)
Lemma gg_expire_now k :
  validate_key k = Ok tt →
  ggoes (λ m L, M m L ∧ L !! k = None) (expire_now k) (λ _ m L, M m L ∧ L !! k = None).
Proof using Type.
  intros Hk. unfold expire_now. eapply gg_then.
  - eapply gg_pre; [apply gg_engine, (eg_remove k (λ _ m L, M m L ∧ L !! k = None))|].
    intros m L [Hm HL] o _. by rewrite delete_id.
  - intros o. eapply gg_pre; [by apply gg_engine, (eg_note1 (LDel k))|].
    intros m L [Hm HL]. split; [|done]. by apply mirrors_drop.
Qed.

(** The lookups of live keys. *)
Lemma sees_expired L k en :
  sees (inst c) L k (Some en) → is_expired (inst c) en = true → L !! k = None.
Proof using Type. unfold sees. intros Hs Hx. by rewrite Hx in Hs. Qed.
Lemma sees_live L k en :
  sees (inst c) L k (Some en) → is_expired (inst c) en = false → L !! k = Some (face en).
Proof using Type. unfold sees. intros Hs Hx. by rewrite Hx in Hs. Qed.

(** The branch of an operation that finds its key expired. *)
Lemma gg_expired {B : Type} k en (f : () → SE Guard FerrumError B) (R : B → rel) :
  entry_ok k (face en) → is_expired (inst c) en = true →
  ggoes (λ m L, M m L ∧ L !! k = None) (f tt) R →
  ggoes (λ m L, M m L ∧ sees (inst c) L k (Some en)) (expire_now k ≫= f) R.
Proof using Type.
  intros [Hok _] Hx Hf. eapply gg_then; [|by intros []].
  eapply gg_pre; [by apply gg_expire_now|].
  intros m L [Hm Hs]. split; [done|]. by eapply sees_expired.
Qed.

(** What is known of a deadline that was read: it is ahead, and the log has it. *)
Definition ttl_ok (ttl : option Z) : Prop :=
  match ttl with Some deadline => inst c < deadline ∧ ∃ ms, near off T deadline ms | None => True end.

Lemma gg_read_state k :
  ggoes M (read_state k) (λ x m L, match x with Some p => ttl_ok p.2 | None => True end ∧ M m L).
Proof using Type.
  apply gg_now, gg_lookup. intros [en|] Hok; [destruct (is_expired (inst c) en) eqn:Ex|].
  - apply gg_expired; [by apply Hok|done|]. apply gg_ret. by intros m L [].
  - apply gg_ret. intros m L [Hm Hs]. split; [|done]. simpl.
    apply sees_live in Hs; [|done]. specialize (Hm k). rewrite Hs in Hm. destruct Hm as (dl & _ & Hn).
    unfold is_expired in Ex. destruct (expire_at en) as [D|]; [|done]. apply Z.leb_gt in Ex.
    destruct dl as [ms|]; [|done]. split; [done|by exists ms].
  - apply gg_ret. by intros m L [Hm Hs].
Qed.

Lemma gg_pure {A : Type} (φ : Prop) (R : rel) (R1 : A → rel) (m : SE Guard FerrumError A) :
  (φ → ggoes R m R1) → ggoes (λ m L, φ ∧ R m L) m R1.
Proof using Type.
  intros Hm. apply goes_pure; [apply gholds_weaken|done|].
  intros g [He _]. by destruct (holds_now _ _ _ He) as (m' & Hφ & _).
Qed.

(** Operations that only read, apart from dropping an expired key. *)
Lemma gg_miss {A : Type} (a : A) (φ : rel) :
  ggoes (λ m L, M m L ∧ φ m L) (on_engine record_miss;; mret a) (λ _, M).
Proof using Type.
  eapply gg_then; [apply gg_record_miss|]. intros _. apply gg_ret. by intros m L [].
Qed.
Lemma gg_hit {A : Type} (a : A) (φ : rel) :
  ggoes (λ m L, M m L ∧ φ m L) (on_engine record_hit;; mret a) (λ _, M).
Proof using Type.
  eapply gg_then; [apply gg_record_hit|]. intros _. apply gg_ret. by intros m L [].
Qed.
Lemma gg_done {A : Type} (a : A) (φ : rel) : ggoes (λ m L, M m L ∧ φ m L) (mret a) (λ _, M).
Proof using Type. apply gg_ret. by intros m L []. Qed.

Lemma gg_fetch_live env k : ggoes M (fetch_live env k) (λ _, M).
Proof using Type.
  apply gg_now, gg_lookup. intros [en|] Hok; [destruct (is_expired (inst c) en) eqn:Ex|].
  - apply gg_expired; [by apply Hok|done|apply gg_miss].
  - eapply gg_then; [apply gg_touch_access|]. intros _. apply gg_hit.
  - apply gg_miss.
Qed.

Lemma gg_contains_live k : ggoes M (contains_live k) (λ _, M).
Proof using Type.
  apply gg_now, gg_lookup. intros [en|] Hok; [destruct (is_expired (inst c) en) eqn:Ex|].
  - apply gg_expired; [by apply Hok|done|apply gg_miss].
  - apply gg_hit.
  - apply gg_miss.
Qed.

Lemma gg_ttl_of k : ggoes M (ttl_of k) (λ _, M).
Proof using Type.
  apply gg_now, gg_lookup. intros [en|] Hok; [destruct (is_expired (inst c) en) eqn:Ex|].
  - apply gg_expired; [by apply Hok|done|apply gg_done].
  - apply gg_done.
  - apply gg_done.
Qed.

Lemma gg_strlen_of k : ggoes M (strlen_of k) (λ _, M).
Proof using Type.
  apply gg_now, gg_lookup. intros [en|] Hok; [destruct (is_expired (inst c) en) eqn:Ex|].
  - apply gg_expired; [by apply Hok|done|apply gg_done].
  - apply gg_done.
  - apply gg_done.
Qed.

Lemma gg_memory_of k : ggoes M (memory_of k) (λ _, M).
Proof using Type.
  apply gg_now, gg_lookup. intros [en|] Hok;
    [destruct (is_expired (inst c) en) eqn:Ex; [|apply gg_done]|apply gg_done].
  eapply (gg_then _ (λ m L, M m L ∧ L !! k = None)).
  - apply gg_engine. intros e He. simpl. unfold untrack.
    assert (Hd : ∀ x, view (apply_delta x (set_store (delete k (e_store e)) e)) = delete k (view e)
                    ∧ e_aof (apply_delta x (set_store (delete k (e_store e)) e)) = e_aof e)
      by (intros x; unfold apply_delta, view; by repeat case_match; simpl; rewrite fmap_delete).
    destruct (Hd (- as_i64 (entry_bytes k en))) as [Hv Ha].
    eapply holds_change; [exact He|exact Ha|..]; rewrite Hv.
    + eapply map_Forall_delete, holds_ok, He.
    + intros m [Hm Hs]. rewrite live_delete. split; [|apply lookup_delete_eq].
      rewrite delete_id; [done|]. by eapply sees_expired.
  - intros _. eapply gg_then; [|intros _; apply gg_done].
    destruct (Hok en eq_refl) as [Hk _].
    eapply gg_pre; [by apply gg_engine, (eg_note1 (LDel k) (λ m L, M m L ∧ True))|].
    intros m L [Hm HL]. split; [|done]. by apply mirrors_drop.
Qed.

(** Evicting or sweeping a key, with its [DEL]. *)
Lemma eg_drop k (f : Engine → Engine) :
  validate_key k = Ok tt → (∀ e, e_aof (f e) = e_aof e ∧ view (f e) = view e) →
  egoes M (track_remove k;; modify f;; note_aof (append_del k)) (λ _, M).
Proof using Type.
  intros Hk Hf. eapply goes_bind.
  - eapply eg_pre; [apply (eg_remove k (λ _ m L, M (delete k m) L))|].
    intros m L Hm o _. by apply mirrors_delete.
  - intros o. simpl. eapply goes_bind; [by apply eg_modify|]. intros []. simpl.
    by apply (eg_note1 (LDel k)).
Qed.

Lemma eg_evict_loop rounds env cfg incoming n e :
  holds (inst c) M e → holds (inst c) M (evict_loop rounds env cfg incoming n e).2.
Proof using Type.
  revert n e. induction rounds as [|rounds IH]; intros n e He; [done|].
  rewrite evict_loop_S. destruct (fits _ _ _); [done|]. destruct (bool_decide _); [done|].
  destruct (choose_victim_spec env cfg e) as (v & H1 & H2 & _ & _ & Hv).
  pose proof (choose_victim_aof env cfg e) as Ha.
  destruct (choose_victim env cfg e) as [x e1]. simpl in *. subst x.
  assert (He1 : holds (inst c) M e1) by (by eapply holds_frame).
  destruct v as [k|]; [|done]. destruct (Hv k eq_refl) as (en & Hk & _).
  assert (Hok : validate_key k = Ok tt).
  { by eapply (holds_entry _ _ e k en). }
  pose proof (eg_drop k (λ e, set_evicted_keys (succ64 (e_evicted_keys e)) e) Hok (λ _, conj eq_refl eq_refl)
    e1 He1) as Hr.
  fold (evict_round k) in Hr. destruct (evict_round k e1) as [[[]|x] e2]; [by apply IH|done].
Qed.

Lemma eg_enforce env k n : egoes M (enforce_for_write env k n) (λ _, M).
Proof using Type.
  intros e He. rewrite enforce_for_write_eq, enforce_memory_limit_eq. cbv zeta.
  destruct (_ =? 0); [done|].
  match goal with |- context [evict_loop ?r env ?cfg ?i 0 e] =>
    pose proof (eg_evict_loop r env cfg i 0 e He) as H1; destruct (evict_loop r env cfg i 0 e) as [[x|x] e1] end;
    [|done]. simpl in H1.
  match goal with |- context [e_used_memory ?x] => set (e2 := x) end.
  assert (He2 : holds (inst c) M e2)
    by (unfold e2; case_match; [revert H1; by apply holds_frame|done]).
  by destruct (fits _ _ _).
Qed.

Lemma gg_enforce env k n : ggoes M (on_engine (enforce_for_write env k n)) (λ _, M).
Proof using Type. apply gg_engine, eg_enforce. Qed.

(** ** Guard operations that write *)

Section writes.
Context (env : Env) (Hlate : env_late env = c).

Lemma entry_ok_new k v exp :
  validate_key k = Ok tt → validate_value v = Ok tt →
  entry_ok k (face (new_with (env_late env) v exp)).
Proof using Type. by split. Qed.

(** Logging a [SET] and then storing the value. *)
Lemma gg_store {B : Type} k v (f : option ValueEntry → SE Guard FerrumError B) :
  validate_key k = Ok tt → validate_value v = Ok tt → (∀ o, ggoes M (f o) (λ _, M)) →
  ggoes M (log (append_set k v);; o ← on_engine (track_insert k (new (env_late env) v)); f o) (λ _, M).
Proof using Type.
  intros Hk Hv Hf. eapply gg_then.
  - eapply gg_pre; [by apply (gg_log1 (LSet k v) (λ m L, ∀ o, sees (inst c) L k o → M m (<[k := (v, None)]> L)))|].
    intros m L Hm o _. by apply mirrors_insert.
  - intros []. eapply gg_then; [|exact Hf].
    apply gg_engine, (eg_insert k (new (env_late env) v) (λ _, M)); [by apply entry_ok_new|done].
Qed.

Lemma gg_guard_insert k v : ggoes M (guard_insert env k v) (λ _, M).
Proof using Type.
  apply gg_lift; [done|]. intros [] Hk. apply gg_lift; [done|]. intros [] Hv.
  eapply gg_then; [apply gg_enforce|]. intros []. apply gg_store; [done..|].
  intros o. by apply gg_ret.
Qed.

Lemma gg_insert_nx k v : ggoes M (insert_nx env k v) (λ _, M).
Proof using Type.
  apply gg_lift; [done|]. intros [] Hk. apply gg_lift; [done|]. intros [] Hv.
  apply gg_now, gg_lookup. intros o _.
  assert (Hstore : ggoes M (on_engine (enforce_for_write env k (blen v));; log (append_set k v);;
    on_engine (track_insert k (new (env_late env) v));; mret true) (λ _, M)).
  { eapply gg_then; [apply gg_enforce|]. intros []. apply gg_store; [done..|].
    intros o'. by apply gg_ret. }
  destruct o as [en|]; [|eapply gg_pre; [exact Hstore|by intros m L []]].
  destruct (is_expired (inst c) en) eqn:Ex; simpl; [|apply gg_done].
  eapply gg_then; [|intros _; exact Hstore].
  eapply gg_pre; [apply gg_engine, (eg_remove k (λ _, M))|].
  intros m L [Hm Hs] o _. rewrite delete_id; [done|]. by eapply sees_expired.
Qed.

Lemma image_sets (ps : list (bytes * bytes)) :
  image (map (λ p, LSet p.1 p.2) ps)
  = concat (map (λ p, encode_command [str "SET"; p.1; p.2]) ps).
Proof using Type. unfold image, log_of. by rewrite !map_map. Qed.

Lemma gg_log_sets (ps : list (bytes * bytes)) (R : rel) :
  Forall (λ p, validate_key p.1 = Ok tt ∧ validate_value p.2 = Ok tt) ps →
  ggoes (λ m L, R (play (map (λ p, LSet p.1 p.2) ps) m) L) (log (append_set_many ps)) (λ _, R).
Proof using Type.
  intros Hps. destruct ps as [|p ps].
  - intros g ((w & rs & ds & H1 & Hr) & Hn). unfold log, gets, mbind, se_bind. rewrite H1. simpl.
    unfold on_engine, note_aof. simpl. rewrite H1. simpl. split; [|done]. by exists w, rs, ds.
  - unfold append_set_many. rewrite <- image_sets. apply gg_log, Forall_map.
    eapply Forall_impl; [exact Hps|]. by intros [].
Qed.

Lemma validate_all_eq (ps : list (bytes * bytes)) g :
  for_each ps (λ p, lift_result (validate_key p.1);; lift_result (validate_value p.2)) g
  = (valid_all ps, g).
Proof using Type.
  induction ps as [|[k v] ps IH]; [done|]. simpl. unfold mbind, se_bind, lift_result, valid. simpl.
  destruct (validate_key k) as [[]|]; [|done]. destruct (validate_value v) as [[]|]; [|done]. apply IH.
Qed.

Lemma valid_all_Forall (ps : list (bytes * bytes)) :
  valid_all ps = Ok tt → Forall (λ p, validate_key p.1 = Ok tt ∧ validate_value p.2 = Ok tt) ps.
Proof using Type.
  induction ps as [|[k v] ps IH]; simpl; [by constructor|]. unfold valid. simpl.
  destruct (validate_key k) as [[]|] eqn:Ek; [|done].
  destruct (validate_value v) as [[]|] eqn:Ev; [|done]. intros Hps. constructor; [done|by apply IH].
Qed.

Lemma gg_validated {B : Type} (ps : list (bytes * bytes)) (f : () → SE Guard FerrumError B) (R : B → rel) :
  (Forall (λ p, validate_key p.1 = Ok tt ∧ validate_value p.2 = Ok tt) ps → ggoes M (f tt) R) →
  ggoes M (for_each ps (λ p, lift_result (validate_key p.1);; lift_result (validate_value p.2)) ≫= f) R.
Proof using Type.
  intros Hf g Hg.
  assert (∀ m : SE Guard FerrumError (), m g = (valid_all ps, g) →
    (m ≫= f) g = match valid_all ps with Ok a => f a g | Err x => (Err x, g) end) as Heq
    by (intros m Em; unfold mbind, se_bind; by rewrite Em).
  rewrite (Heq _ (validate_all_eq ps g)). destruct (valid_all ps) as [[]|x] eqn:Ev; [|done].
  apply Hf; [by apply valid_all_Forall|done].
Qed.

(** The stores that are still to come after a logged [MSET]. *)
Definition pending_sets (ps : list (bytes * bytes)) : rel :=
  λ m L, M m (fold_left (λ L p, <[p.1 := (p.2, None)]> L) ps L).

Lemma mirrors_sets (ps : list (bytes * bytes)) m L :
  M m L → pending_sets ps (play (map (λ p, LSet p.1 p.2) ps) m) L.
Proof using Type.
  unfold pending_sets. revert m L. induction ps as [|p ps IH]; intros m L Hm; [done|]. simpl.
  apply IH. by apply mirrors_insert.
Qed.

Lemma gg_insert_many (ps : list (bytes * bytes)) : ggoes M (insert_many env ps) (λ _, M).
Proof using Type.
  apply gg_validated. intros Ev. apply (gg_then M M (λ _, M)).
  { apply (goes_for_each (inst c) gholds (λ _, M)). intros p _. apply gg_enforce. }
  intros []. eapply gg_then; [eapply gg_pre; [by apply gg_log_sets|apply mirrors_sets]|].
  intros [].
  induction Ev as [|[k v] ps [Hk Hv] _ IH]; simpl; [by apply gg_ret|].
  eapply gg_then; [|intros []; exact IH]. eapply gg_then; [|intros o; by apply gg_ret].
  eapply gg_pre; [apply gg_engine, (eg_insert k (new (env_late env) v) (λ _, pending_sets ps));
    [by apply entry_ok_new|done]|]. by intros m L Hm o _.
Qed.

Lemma gg_insert_keep_ttl k v ttl :
  validate_key k = Ok tt → validate_value v = Ok tt → ttl_ok ttl →
  ggoes M (insert_keep_ttl env k v ttl) (λ _, M).
Proof using Hlate Hc.
  intros Hk Hv Httl. unfold insert_keep_ttl. eapply gg_then; [apply gg_enforce|]. intros [].
  set (R3 := (λ m L, ∀ o, sees (inst c) L k o → M m (<[k := (v, ttl)]> L)) : rel).
  assert (Hlast : ggoes R3 (prev ← on_engine (track_insert k (new_with (env_late env) v ttl));
    mret (prev ≫= live_payload (inst (env_late env)))) (λ _, M)).
  { eapply gg_then; [|intros o; by apply gg_ret].
    apply gg_engine, (eg_insert k (new_with (env_late env) v ttl) (λ _, M)); [by apply entry_ok_new|].
    unfold is_expired. simpl. destruct ttl as [D|]; [|done]. destruct Httl. by apply Z.leb_gt. }
  destruct ttl as [D|].
  - destruct Httl as [Hlt [ms Hn]]. rewrite Hlate.
    destruct (near_again off T c D ms Hc Hn Hlt) as (ms' & Hms & Hn' & Hi & HT).
    eapply gg_then.
    + eapply gg_pre; [by apply (gg_log1 (LSet k v) (λ m L, R3 (play1 m (LPexpireat k ms')) L))|].
      intros m L Hm o _. simpl. rewrite alter_insert_eq. by apply mirrors_insert.
    + intros []. apply gg_now. rewrite Hms. eapply gg_then; [|intros []; by rewrite Hlate in Hlast].
      by apply (gg_log1 (LPexpireat k ms')).
  - eapply gg_then; [eapply gg_pre; [by apply (gg_log1 (LSet k v) R3)|]|].
    + intros m L Hm o _. by apply mirrors_insert.
    + intros []. apply gg_now. eapply gg_then; [by apply gg_ret|]. intros []. exact Hlast.
Qed.
End writes.

(** ** Guard operations that remove *)

Definition pending_dels (ks : list bytes) : rel := λ m L, M (play (map LDel ks) m) L.

Lemma gg_log_dels (ks : list bytes) :
  Forall (λ k, validate_key k = Ok tt) ks →
  ggoes (pending_dels ks) (for_each ks (λ k, log (append_del k))) (λ _, M).
Proof using Type.
  induction 1 as [|k ks Hk _ IH]; simpl; [by apply gg_ret|].
  eapply gg_then; [by apply (gg_log1 (LDel k) (pending_dels ks))|]. by intros [].
Qed.

(** Removing a key: what was found is a valid key, and if it existed a [DEL] is
    due. *)
Lemma gg_take {B : Type} k (acc : list bytes) (f : option ValueEntry → SE Guard FerrumError B) (R : B → rel) :
  (∀ o, (∀ en, o = Some en → validate_key k = Ok tt) →
     ggoes (pending_dels (acc ++ match o with
       | Some en => if is_expired (inst c) en then [] else [k] | None => [] end)) (f o) R) →
  ggoes (pending_dels acc) (on_engine (track_remove k) ≫= f) R.
Proof using Type.
  intros Hf g Hg.
  assert (Hok : ∀ en, e_store (g_engine g) !! k = Some en → validate_key k = Ok tt).
  { intros en Hen. by destruct (holds_entry _ _ _ _ _ (proj1 Hg) Hen). }
  specialize (Hf (e_store (g_engine g) !! k) Hok).
  destruct Hg as [He Hn]. pose proof (track_remove_aof k (g_engine g)) as Ha.
  unfold mbind, se_bind, on_engine. destruct (track_remove_frame k (g_engine g)) as (E1 & E2 & _).
  destruct (track_remove k (g_engine g)) as [x e']. simpl in *. subst x. apply Hf. split; [|done].
  pose proof (sees_store (inst c) (g_engine g) k) as Hs. simpl.
  eapply holds_change; [exact He|exact Ha|..]; unfold view in *; rewrite E2, fmap_delete.
  { eapply map_Forall_delete, holds_ok, He. }
  intros m Hm. rewrite live_delete. unfold pending_dels in *. rewrite map_app, play_app.
  destruct (e_store (g_engine g) !! k) as [en|]; simpl in *;
    [destruct (is_expired (inst c) en); simpl|]; [|by apply mirrors_delete|]; by rewrite delete_id.
Qed.

Lemma gg_remove_live (ks : list bytes) (acc : list bytes) :
  ggoes (pending_dels acc) (remove_live ks)
    (λ l m L, Forall (λ k, validate_key k = Ok tt) l ∧ pending_dels (acc ++ l) m L).
Proof using Type.
  revert acc. induction ks as [|k ks IH]; intros acc; simpl.
  { apply gg_ret. intros m L Hm. by rewrite app_nil_r. }
  apply gg_now, gg_take. intros o Ho. eapply goes_bind; [apply IH|]. intros rest. simpl.
  apply gg_ret. intros m L [Hv Hm]. rewrite <- app_assoc in Hm.
  destruct o as [en|]; [|done]. destruct (is_expired (inst c) en); simpl in *; [done|].
  split; [|done]. constructor; [by eapply Ho|done].
Qed.

Lemma gg_remove_many (ks : list bytes) : ggoes M (remove_many ks) (λ _, M).
Proof using Type.
  unfold remove_many. eapply goes_bind; [apply (gg_remove_live ks [])|]. intros l. simpl.
  apply gg_pure. intros Hl. eapply gg_then; [by apply gg_log_dels|]. intros []. by apply gg_ret.
Qed.

Lemma gg_guard_remove k : ggoes M (guard_remove k) (λ _, M).
Proof using Type.
  unfold guard_remove. apply gg_now, (gg_take k []). intros [en|] Ho; simpl.
  - destruct (is_expired (inst c) en); simpl; (eapply gg_then; [|intros []; by apply gg_ret]); [by apply gg_ret|].
    apply (gg_log1 (LDel k) M). by apply (Ho en).
  - eapply gg_then; [by apply gg_ret|intros []; by apply gg_ret].
Qed.

Lemma gg_guard_clear : ggoes M guard_clear (λ _, M).
Proof using Type.
  unfold guard_clear. eapply (gg_then _ (λ m L, L = ∅)).
  - apply gg_engine. intros e He. unfold track_clear, modify. simpl.
    eapply holds_change; [exact He|done|..]; unfold view, live; simpl; rewrite fmap_empty.
    + apply map_Forall_empty.
    + intros m _. apply map_filter_empty.
  - intros []. eapply gg_pre; [by apply (gg_log1 LFlush)|]. intros m L ->. apply mirrors_empty.
Qed.

(** ** Guard operations on deadlines *)

(** Changing the deadline of a key that exists, whose value is [d]. *)
Lemma eg_alter k (exp : option Z) (R : rel) :
  egoes (λ m L, ∃ d exp0, L !! k = Some (d, exp0) ∧ alive (inst c) (d, exp) = true ∧ R m (<[k := (d, exp)]> L))
    (modify (λ e, set_store (alter (set_expire_at exp) k (e_store e)) e)) (λ _, R).
Proof using Type.
  intros e He. unfold modify. simpl. destruct (holds_now _ _ _ He) as (m0 & d & exp0 & HL & Ha & _).
  pose proof (sees_store (inst c) e k) as Hs. destruct (e_store e !! k) as [en|] eqn:Ek.
  2: { simpl in Hs. congruence. }
  assert (face en = (d, exp0)) as [= Hd Hexp] by (simpl in Hs; destruct (is_expired (inst c) en); congruence).
  pose proof (view_alter_deadline k exp e en Ek) as Hv.
  eapply holds_change; [exact He|done|..]; rewrite Hv, Hd.
  - apply map_Forall_insert_2; [|by eapply holds_ok]. rewrite <- Hd. apply (holds_entry _ _ e k en He Ek).
  - intros m (d1 & exp1 & HL1 & _ & Hm). rewrite live_insert by done. by simplify_eq.
Qed.

(** The lazy expiry before a second lookup: what is found then exists. *)
Lemma gg_expire_lookup {B : Type} k (f : option ValueEntry → SE Guard FerrumError B) (R : B → rel) :
  (∀ o, (∀ en, o = Some en → validate_key k = Ok tt) →
     ggoes (λ m L, M m L ∧ L !! k = face <$> o) (f o) R) →
  ggoes M (o ← lookup_entry k;
           (match o with
            | Some en => if is_expired (inst c) en then expire_now k else mret tt
            | None => mret tt
            end);;
           lookup_entry k ≫= f) R.
Proof using Type.
  intros Hf g Hg. pose proof (sees_store (inst c) (g_engine g) k) as Hs.
  assert (Hok : ∀ en, e_store (g_engine g) !! k = Some en → validate_key k = Ok tt).
  { intros en Hen. by destruct (holds_entry _ _ _ _ _ (proj1 Hg) Hen). }
  assert (Hg' : ∀ φ : kv → Prop, φ (live (inst c) (view (g_engine g))) →
    gholds (λ m L, M m L ∧ φ L) g).
  { intros φ Hφ. destruct Hg as [He Hn]. split; [|done].
    eapply holds_change; [exact He|done|by eapply holds_ok|done]. }
  unfold lookup_entry, gets, mbind, se_bind. cbn beta iota.
  destruct (e_store (g_engine g) !! k) as [en|] eqn:Ek; simpl in Hs.
  - destruct (is_expired (inst c) en).
    + pose proof (gg_expire_now k (Hok en eq_refl) g (Hg' (λ L, L !! k = None) Hs)) as Hx.
      destruct (expire_now_gone k g) as [H1 H2]. destruct (expire_now k g) as [x g']. simpl in *. subst x.
      rewrite H2. by apply (Hf None).
    + unfold mret, se_ret. rewrite Ek. apply (Hf (Some en)); [intros en' _; by apply (Hok en)|].
      by apply (Hg' (λ L, L !! k = face <$> Some en)).
  - unfold mret, se_ret. rewrite Ek. apply (Hf None); [done|]. by apply (Hg' (λ L, L !! k = face <$> None)).
Qed.

Lemma gg_notify (R : rel) (f : Engine → Engine) :
  (∀ e, e_aof (f e) = e_aof e ∧ e_store (f e) = e_store e) → ggoes R (on_engine (modify f)) (λ _, R).
Proof using Type.
  intros Hf. apply gg_engine, eg_modify. intros e. destruct (Hf e) as [-> Hs]. unfold view. by rewrite Hs.
Qed.

Lemma gg_guard_expire_at k abs :
  in_i64 abs = true → abs ≤ current_epoch_ms c ∨ T + 2 ≤ abs →
  ggoes M (guard_expire_at k abs) (λ _, M).
Proof using Hc.
  intros Habs Hahead. unfold guard_expire_at. apply gg_now, gg_now_ms, gg_expire_lookup. intros o Ho.
  destruct o as [en|]; [|apply gg_done]. specialize (Ho en eq_refl).
  destruct (abs <=? current_epoch_ms c) eqn:E.
  - eapply gg_then; [|intros o; eapply gg_then; [by apply (gg_log1 (LDel k) M)|intros []; by apply gg_ret]].
    eapply gg_pre; [apply gg_engine, (eg_remove k (λ _ m L, M (delete k m) L))|].
    intros m L [Hm _] o _. by apply mirrors_delete.
  - bool_to_prop. assert (HT : T + 2 ≤ abs) by lia.
    pose proof (near_expire off T c abs Hc Habs HT E) as Hn.
    assert (Hal : ∀ d, alive (inst c) (d, Some (inst c + wrap64 (abs - current_epoch_ms c) * 1000000)) = true).
    { intros d. apply deadline_alive; [done| |by apply Z.leb_gt].
      destruct (steady_ms off c Hc) as [-> ?]. unfold in_i64, i64_min, i64_max in *.
      apply andb_true_intro. split; apply Z.leb_le; lia. }
    eapply gg_then.
    { eapply gg_pre; [apply gg_engine, (eg_alter k _ (λ m L, M (play1 m (LPexpireat k abs)) L))|].
      intros m L [Hm HL]. exists (data en), (expire_at en). split; [exact HL|]. split; [apply Hal|].
      by eapply mirrors_alter. }
    intros []. eapply gg_then.
    { apply gg_notify. intros e. unfold sieve_notify_insert. by case_match. }
    intros []. eapply gg_then.
    { apply gg_notify. intros e. unfold ac_notify_insert. by case_match. }
    intros []. eapply gg_then; [apply (gg_log1 (LPexpireat k abs) M)|intros []; by apply gg_ret].
    split_and!; [done|done|lia].
Qed.

Lemma gg_guard_persist k : ggoes M (guard_persist k) (λ _, M).
Proof using Type.
  apply gg_now, gg_lookup. intros [en|] Hok; [|apply gg_done].
  destruct (is_expired (inst c) en) eqn:Ex; [apply gg_expired; [by apply Hok|done|apply gg_done]|].
  destruct (negb (has_ttl en)); [apply gg_done|]. destruct (Hok en eq_refl) as [Hk _].
  eapply gg_then.
  { eapply gg_pre; [apply gg_engine, (eg_alter k None (λ m L, M (play1 m (LPersist k)) L))|].
    intros m L [Hm HL]. apply sees_live in HL; [|done]. exists (data en), (expire_at en).
    split; [exact HL|]. split; [done|]. by eapply mirrors_alter. }
  intros []. eapply gg_then.
  { apply gg_notify. intros e. unfold sieve_notify_remove. by case_match. }
  intros []. eapply gg_then.
  { apply gg_notify. intros e. unfold ac_notify_remove. by case_match. }
  intros []. eapply gg_then; [by apply (gg_log1 (LPersist k) M)|intros []; by apply gg_ret].
Qed.

(** ** The commands *)

Abbreviation keeps := (preserves (E := FerrumError) (holds (inst c) M)).
Abbreviation gkeeps := (preserves (E := FerrumError) (gholds M)).

Lemma logs_goes {A : Type} (m : SE Engine FerrumError A) : egoes M m (λ _, M) → keeps m.
Proof using Type. intros Hm e He. specialize (Hm e He). by destruct (m e) as [[a|x] e']. Qed.
Lemma glogs_goes {A : Type} (m : SE Guard FerrumError A) : ggoes M m (λ _, M) → gkeeps m.
Proof using Type. intros Hm e He. specialize (Hm e He). by destruct (m e) as [[a|x] e']. Qed.

Section commands.
Context (env : Env) (Henv : env = env_of c).

Lemma logs_with_guard {A : Type} (body : SE Guard FerrumError A) :
  gkeeps body → keeps (with_guard env body).
Proof using Henv.
  intros Hb e He. unfold with_guard.
  assert (Hg : gholds M (guard_begin env e)) by (by rewrite Henv).
  specialize (Hb _ Hg). destruct (body (guard_begin env e)) as [r g]. simpl in *.
  destruct Hb as [Hb _]. unfold guard_drop. destruct (g_wrote_aof g); [|done].
  by apply (logs_goes _ (eg_sync M)).
Qed.

Lemma logs_touch_access k : keeps (touch_access env k).
Proof using Type.
  intros e. destruct (touch_access_same env k e) as (_ & Ha & Hv). by apply holds_same.
Qed.
Lemma logs_frame (f : Engine → Engine) :
  (∀ e, e_aof (f e) = e_aof e ∧ e_store (f e) = e_store e) → keeps (modify f).
Proof using Type. intros Hf. apply preserves_modify. intros e. destruct (Hf e). by apply holds_frame. Qed.
Lemma logs_record_hit : keeps record_hit.
Proof using Type. by apply logs_frame. Qed.
Lemma logs_record_miss : keeps record_miss.
Proof using Type. by apply logs_frame. Qed.

(** Code made of steps that keep the log in step. *)
Ltac keep_leaf :=
  first [ apply preserves_ret | apply preserves_throw | apply preserves_gets
        | apply preserves_lift_result | apply logs_touch_access | apply logs_record_hit
        | apply logs_record_miss | assumption | done ].
Ltac keep :=
  cbv beta zeta;
  lazymatch goal with
  | |- preserves _ (match ?x with _ => _ end) => destruct x; keep
  | |- preserves _ (_ ≫= _) => apply preserves_bind; [keep|intros ?; keep]
  | |- preserves _ (with_guard _ _) => apply logs_with_guard; keep
  | |- _ => try keep_leaf
  end.

Lemma logs_get k : keeps (get env k).
Proof using Henv. unfold get. keep. apply glogs_goes, gg_fetch_live. Qed.
Lemma logs_strlen k : keeps (strlen env k).
Proof using Henv. unfold strlen. keep. apply glogs_goes, gg_strlen_of. Qed.
Lemma logs_ttl_ms k : keeps (ttl_ms env k).
Proof using Henv. unfold ttl_ms. keep. apply glogs_goes, gg_ttl_of. Qed.
Lemma logs_memory_usage k : keeps (memory_usage env k).
Proof using Henv. unfold memory_usage. keep. apply glogs_goes, gg_memory_of. Qed.

Lemma logs_mget_read i (ks : list bytes) : keeps (mget_read env i ks).
Proof using Type. revert i. induction ks as [|k ks IH]; intros i; cbn [mget_read]; keep; apply IH. Qed.
Lemma logs_mget (ks : list bytes) : keeps (mget env ks).
Proof using Henv.
  apply preserves_bind; [apply logs_mget_read|]. intros [out ex]. keep.
  apply preserves_for_each. intros i _. keep. apply glogs_goes, gg_fetch_live.
Qed.

Lemma logs_exists_read i (ks : list bytes) : keeps (exists_read env i ks).
Proof using Type. revert i. induction ks as [|k ks IH]; intros i; cbn [exists_read]; keep; apply IH. Qed.
Lemma glogs_exists_recheck (ks : list bytes) (l : list nat) : gkeeps (exists_recheck ks l).
Proof using Type.
  induction l as [|i l IH]; cbn [exists_recheck]; keep. apply glogs_goes, gg_contains_live.
Qed.
Lemma logs_exists_many (ks : list bytes) : keeps (exists_many env ks).
Proof using Henv.
  unfold exists_many. destruct ks as [|k ks]; [keep|].
  apply preserves_bind; [apply logs_exists_read|]. intros [n ex].
  apply preserves_bind; [|intros more; apply preserves_ret]. cbn [snd].
  destruct ex; [keep|]. apply logs_with_guard, glogs_exists_recheck.
Qed.

Lemma logs_del k : keeps (del env k).
Proof using Henv. apply logs_with_guard, glogs_goes, gg_guard_remove. Qed.
Lemma logs_del_many (ks : list bytes) : keeps (del_many env ks).
Proof using Henv. unfold del_many. keep. apply glogs_goes, gg_remove_many. Qed.

(** [INCR], [INCRBYFLOAT] and [APPEND]: read, compute, write back. *)
Lemma gg_put {A : Type} k v ttl (a : A) :
  validate_key k = Ok tt → validate_value v = Ok tt → ttl_ok ttl →
  ggoes M (insert_keep_ttl env k v ttl;; mret a) (λ _, M).
Proof using Henv Hc.
  intros Hk Hv Httl. eapply gg_then; [|intros o; by apply gg_ret].
  apply gg_insert_keep_ttl; [by rewrite Henv|done..].
Qed.

Lemma gg_throw {A : Type} (x : FerrumError) : ggoes M (throw x) (λ _ : A, M).
Proof using Type. apply goes_throw. Qed.

Lemma validate_short v n : blen v ≤ n → n ≤ VALUE_MAX_BYTES → validate_value v = Ok tt.
Proof using Type.
  intros H1 H2. unfold validate_value. destruct (_ <? _) eqn:E; bool_to_prop; [lia|done].
Qed.

Lemma logs_validated {A : Type} k (m : SE Engine FerrumError A) :
  (validate_key k = Ok tt → keeps m) → keeps (lift_result (validate_key k);; m).
Proof using Type.
  intros Hm e He. unfold mbind, se_bind, lift_result.
  destruct (validate_key k) as [[]|]; [by apply Hm|done].
Qed.

Lemma logs_incr_by k delta : keeps (incr_by env k delta).
Proof using Henv Hc.
  apply logs_validated. intros Hk. apply logs_with_guard, glogs_goes.
  eapply goes_bind; [apply gg_read_state|]. intros x. simpl. apply gg_pure. intros Hx.
  assert (Hadd : ∀ n ttl, ttl_ok ttl → ggoes M
    (match checked_i64 (n + delta) with
     | None => throw not_integer
     | Some new_value => insert_keep_ttl env k (to_string_i new_value) ttl;; mret new_value
     end) (λ _, M)).
  { intros n ttl Httl. unfold checked_i64. destruct (in_i64 (n + delta)) eqn:Ei; [|apply gg_throw].
    apply gg_put; [done| |done]. by apply (validate_short _ 65); [apply to_string_i_length|]. }
  destruct x as [[d ttl]|]; [|by apply (Hadd 0 None)].
  destruct (negb (utf8_valid d)); [apply gg_throw|].
  destruct (parse_i64 d) as [n|]; [by apply (Hadd n ttl)|apply gg_throw].
Qed.

Lemma logs_incr_by_float k delta : wf64 delta → keeps (incr_by_float env k delta).
Proof using Henv Hc.
  intros Hdelta. apply logs_validated. intros Hk. apply logs_with_guard, glogs_goes.
  eapply goes_bind; [apply gg_read_state|]. intros x. simpl. apply gg_pure. intros Hx.
  assert (Hadd : ∀ n ttl, wf64 n → ttl_ok ttl → ggoes M
    (let new_value := F64.add n delta in
     if negb (F64.is_finite new_value)
     then throw (ParseError (str "increment would produce NaN or Infinity"))
     else insert_keep_ttl env k (F64.to_string new_value) ttl;; mret new_value) (λ _, M)).
  { intros n ttl Hn Httl. cbv zeta. destruct (negb _); [apply gg_throw|]. apply gg_put; [done| |done].
    by apply (validate_short _ F64_TEXT_MAX); [apply f64_text_bound, wf64_add|]. }
  destruct x as [[d ttl]|]; [|by apply (Hadd F64.zero None)].
  destruct (negb (utf8_valid d)); [apply gg_throw|].
  destruct (F64.parse d) as [n|] eqn:En; [|apply gg_throw].
  apply (Hadd n ttl); [by eapply wf64_parse|done].
Qed.

Lemma logs_append k suffix : keeps (append env k suffix).
Proof using Henv Hc.
  apply logs_validated. intros Hk. apply logs_with_guard, glogs_goes.
  eapply goes_bind; [apply gg_read_state|]. intros x. simpl. apply gg_pure. intros Hx.
  destruct x as [[d ttl]|]; (apply gg_lift; [done|]; intros [] Hv; by apply gg_put).
Qed.
End commands.

(** ** Sweeps and configuration *)

Lemma logs_sweep env n : keeps (sweep_expired env n).
Proof using Type.
  unfold sweep_expired. destruct (n =? 0); [apply preserves_ret|].
  apply preserves_read. intros e He. cbv beta zeta. apply preserves_bind.
  { destruct (0 <? _); [|apply preserves_ret]. by apply logs_frame. }
  intros _. apply preserves_bind; [|intros ?; apply preserves_ret].
  apply preserves_for_each. intros k Hk. apply logs_goes, eg_drop; [|done].
  apply sweep_victim_stored in Hk as (en & Hk & _). change (id e) with e in Hk.
  by apply (holds_entry _ _ e k en He Hk).
Qed.

Lemma logs_set_eviction_config cfg : keeps (set_eviction_config cfg).
Proof using Type. apply logs_frame. intros e. simpl. by repeat case_match. Qed.

(** ** The rewrite *)

Lemma play_compact (snap : list (bytes * bytes * option Z)) m :
  play (compact snap) m = fold_left (λ m p, <[p.1.1 := (p.1.2, p.2)]> m) snap m.
Proof using Type.
  revert m. induction snap as [|[[k v] ttl] snap IH]; intros m; [done|].
  unfold compact. cbn [map concat]. rewrite play_app. simpl. fold (compact snap). rewrite IH.
  f_equal. destruct ttl as [ms|]; simpl; [|done]. by rewrite alter_insert_eq.
Qed.

Lemma play_compact_lookup (snap : list (bytes * bytes * option Z)) (m : logmap) k :
  NoDup snap.*1.*1 →
  (∀ v ttl, (k, v, ttl) ∈ snap → play (compact snap) m !! k = Some (v, ttl)) ∧
  (k ∉ snap.*1.*1 → play (compact snap) m !! k = m !! k).
Proof using Type.
  rewrite play_compact. revert m. induction snap as [|[[k0 v0] ttl0] snap IH]; intros m Hnd; simpl in *.
  { split; [by intros v ttl Hin%elem_of_nil|done]. }
  apply NoDup_cons in Hnd as [Hk0 Hnd]. destruct (IH (<[k0 := (v0, ttl0)]> m) Hnd) as [H1 H2].
  split.
  - intros v ttl [Heq|Hin]%elem_of_cons; [|by apply H1]. simplify_eq.
    rewrite H2 by done. apply lookup_insert_eq.
  - intros [Hne Hin]%not_elem_of_cons. rewrite H2 by done. by apply lookup_insert_ne.
Qed.

(** The snapshot of a rewrite is what exists. *)
Definition saved (en : ValueEntry) : option Z :=
  expire_at en ≫= λ D, deadline_to_epoch_ms c D (inst c).

Lemma snapshot_eq e :
  rewrite_snapshot c (e_store e) = map (λ p, (p.1, data p.2, saved p.2)) (live_iter c e).
Proof using Type. done. Qed.

Lemma snapshot_elem e k v ttl :
  (k, v, ttl) ∈ rewrite_snapshot c (e_store e) ↔
  ∃ en, e_store e !! k = Some en ∧ is_expired (inst c) en = false ∧ v = data en ∧ ttl = saved en.
Proof using Type.
  rewrite snapshot_eq, list_elem_of_In, in_map_iff. split.
  - intros ([k' en] & [= <- <- <-] & Hin). apply list_elem_of_In, live_iter_elem in Hin as [Hk Hx]. eauto.
  - intros (en & Hk & Hx & -> & ->). exists (k, en). split; [done|].
    by apply list_elem_of_In, live_iter_elem.
Qed.

Lemma snapshot_keys e : NoDup (rewrite_snapshot c (e_store e)).*1.*1.
Proof using Type.
  rewrite snapshot_eq. replace (_.*1.*1) with (live_iter c e).*1; [apply live_iter_keys|].
  induction (live_iter c e) as [|p l IH]; simpl; [done|]. by f_equal.
Qed.

(** The deadlines of a snapshot. *)
Lemma saved_near e m k en :
  M m (live (inst c) (view e)) → e_store e !! k = Some en → is_expired (inst c) en = false →
  near_opt off T (expire_at en) (saved en) ∧ ∀ ms, saved en = Some ms → in_i64 ms = true ∧ T < ms.
Proof using Hc.
  intros Hm Hk Hx. pose proof (sees_store (inst c) e k) as HL. rewrite Hk in HL.
  apply sees_live in HL; [|done]. specialize (Hm k). rewrite HL in Hm. destruct Hm as (dl & _ & Hn).
  unfold is_expired in Hx. unfold saved. destruct (expire_at en) as [D|]; [|done].
  simpl in *. destruct dl as [ms|]; [|done]. apply Z.leb_gt in Hx.
  destruct (near_again off T c D ms Hc Hn Hx) as (ms' & -> & Hn' & Hi & HT).
  split; [done|]. by intros ms0 [= <-].
Qed.

Lemma snapshot_ok e m :
  map_Forall entry_ok (view e) → M m (live (inst c) (view e)) →
  Forall rec_ok (compact (rewrite_snapshot c (e_store e))).
Proof using Hc.
  intros Hok Hm. apply Forall_forall. intros r Hr. unfold compact in Hr.
  apply list_elem_of_In, in_concat in Hr as (l & Hl & Hr). apply in_map_iff in Hl as ([[k v] ttl] & <- & Hl).
  apply list_elem_of_In, snapshot_elem in Hl as (en & Hk & Hx & -> & ->).
  assert (Hen : entry_ok k (face en)) by (apply (Hok k); unfold view; by rewrite lookup_fmap, Hk).
  destruct Hen as [Hk1 Hk2]. destruct (saved_near e m k en Hm Hk Hx) as [_ Ht].
  destruct Hr as [<-|Hr]; [done|]. destruct (saved en) as [ms|]; [|done]. destruct Hr as [<-|[]].
  by destruct (Ht ms eq_refl).
Qed.

Lemma snapshot_mirrors e m :
  M m (live (inst c) (view e)) →
  let sm := play (compact (rewrite_snapshot c (e_store e))) ∅ in
  M sm (live (inst c) (view e)) ∧ ∀ k, live (inst c) (view e) !! k = None → sm !! k = None.
Proof using Hc.
  intros Hm sm. unfold sm.
  assert (Hnone : ∀ k, live (inst c) (view e) !! k = None →
    play (compact (rewrite_snapshot c (e_store e))) ∅ !! k = None).
  { intros k Hk. destruct (play_compact_lookup (rewrite_snapshot c (e_store e)) ∅ k (snapshot_keys e)) as [_ ->];
      [done|].
    intros Hin. apply list_elem_of_fmap in Hin as ([k' v] & -> & Hin).
    apply list_elem_of_fmap in Hin as ([[k0 v0] ttl] & [= -> ->] & Hin).
    apply snapshot_elem in Hin as (en & Hs & Hx & _). pose proof (sees_store (inst c) e k0) as HL.
    rewrite Hs in HL. apply sees_live in HL; [|done]. simpl in Hk. congruence. }
  split; [|done]. intros k. pose proof (sees_store (inst c) e k) as HL.
  destruct (live (inst c) (view e) !! k) as [[d exp]|] eqn:Ek; [|by rewrite Hnone].
  destruct (e_store e !! k) as [en|] eqn:Es; [|simpl in HL; congruence]. simpl in HL.
  destruct (is_expired (inst c) en) eqn:Ex; [congruence|].
  assert (d = data en ∧ exp = expire_at en) as [-> ->] by (rewrite HL in Ek; unfold face in Ek; by simplify_eq).
  destruct (play_compact_lookup (rewrite_snapshot c (e_store e)) ∅ k (snapshot_keys e)) as [H1 _].
  exists (saved en). split; [|by eapply saved_near].
  apply H1, snapshot_elem. by exists en.
Qed.

(** ** [BGREWRITEAOF] and its worker *)

(** Whether the rewrite slot is taken. *)
Definition slot_taken (e : Engine) : bool :=
  match e_aof e with Some w => w_rewriting w | None => true end.

Lemma logs_rewrite_aof err e :
  base = None ∨ slot_taken e = true → holds (inst c) M e → holds (inst c) M (rewrite_aof err e).2.
Proof using Type.
  unfold slot_taken. intros Hb (w & rs & ds & H1 & H2 & H3 & H4 & H5).
  unfold rewrite_aof, on_writer, gets, mbind, se_bind. cbn beta iota. rewrite !H1 in Hb |- *. cbn beta iota delta [negb]. rewrite !H1.
  destruct H2 as [Hd Hs Hdel]. unfold try_begin_rewrite. destruct (w_rewriting w) eqn:Erw; simpl.
  { exists w, rs, ds. split_and!; try done. split; [done..|by rewrite Erw]. }
  destruct Hb as [Hb|]; [|done].
  assert (Hread : ∀ w' m, reading w' rs [] m → M m (live (inst c) (view e))).
  { intros w' m [->|(b & Hb' & _)]; [by apply H5, reading_log|congruence]. }
  destruct err as [x|]; simpl; (eexists _, rs, []; split_and!; [done| |done|done|apply Hread]);
    (split; simpl; [done|done|]); [done|]. split; [apply suffix_nil|by rewrite Hdel].
Qed.

(** ** Calls *)

(** Arguments of their types, and no deadline between now and [T + 2]. *)
Definition op_ahead (op : Op) : Prop :=
  match op with
  | OIncrByFloat _ x => wf64 x
  | OExpireAt _ abs => in_i64 abs = true ∧ (abs ≤ current_epoch_ms c ∨ T + 2 ≤ abs)
  | _ => True
  end.

Lemma logs_discard {A : Type} (m : SE Engine FerrumError A) : keeps m → keeps (discard m).
Proof using Type. intros Hm. apply preserves_bind; [done|]. intros a. apply preserves_ret. Qed.

(** Every call but those of the rewrite itself. *)
Definition plain_op (op : Op) : Prop :=
  match op with ORewriteAof _ | ORewriteWorker _ => False | _ => True end.

Lemma logs_run_op op : plain_op op → op_ahead op → keeps (run_op (env_of c) op).
Proof using Hc.
  intros Hpl Hop. destruct op; simpl in Hop; try done; try apply logs_discard.
  - apply logs_with_guard, glogs_goes, gg_guard_insert; done.
  - apply logs_with_guard, glogs_goes, gg_insert_nx; done.
  - apply logs_with_guard, glogs_goes, gg_insert_many; done.
  - by apply logs_mget.
  - by apply logs_incr_by.
  - by apply logs_incr_by_float.
  - by apply logs_get.
  - by apply logs_del_many.
  - by apply logs_exists_many.
  - apply preserves_gets.
  - apply preserves_gets.
  - apply preserves_gets.
  - by apply logs_append.
  - by apply logs_strlen.
  - apply logs_with_guard, glogs_goes, gg_guard_clear; done.
  - destruct Hop. apply logs_with_guard, glogs_goes, gg_guard_expire_at; done.
  - apply logs_with_guard, glogs_goes, gg_guard_persist; done.
  - by apply logs_ttl_ms.
  - by apply logs_memory_usage.
  - apply logs_sweep.
  - apply logs_set_eviction_config.
Qed.
End primitives.

Lemma holds_later (t t' : Z) e :
  t ≤ t' → holds t (mirrors off T t) e → holds t' (mirrors off T t') e.
Proof using Type.
  intros Ht (w & rs & ds & H1 & H2 & H3 & H4 & H5). exists w, rs, ds. split_and!; try done.
  intros m Hm. rewrite <- (live_live t t') by done. eapply mirrors_later; [done|by apply H5].
Qed.
End durability.

(** ** The worker *)

Section worker.
Context `{IndexMap} `{HashIter} (off T : Z).
Implicit Types (e : Engine) (c : Clock) (rs : list LogRecord).

(** Without a worker, or with one whose rewrite was aborted, only the log counts. *)
Lemma holds_no_worker (b : option (list LogRecord)) (t : Z) R e : holds T b t R e → holds T None t R e.
Proof using Type.
  intros (w & rs & ds & H1 & H2 & H3 & H4 & H5). exists w, rs, ds. split_and!; try done.
  intros m [->|(b' & [=] & _)]. apply H5, reading_log.
Qed.

(** Taking the snapshot: it mirrors the store too, with the delta played over it. *)
Lemma logs_capture c e :
  steady off c → holds T None (inst c) (mirrors off T (inst c)) e →
  ∃ captured, rewrite_capture c e = (Ok captured, e) ∧
    holds T (compact <$> captured) (inst c) (mirrors off T (inst c)) e ∧
    match captured with Some snap => Forall (rec_ok T) (compact snap) | None => True end.
Proof using Type.
  intros Hc (w & rs & ds & H1 & H2 & H3 & H4 & H5). unfold rewrite_capture, gets, mbind, se_bind.
  cbn beta iota. rewrite H1. eexists. split; [done|].
  pose proof (H5 _ (reading_log _ w rs ds)) as Hm.
  destruct (w_rewriting w) eqn:Erw; simpl; [|split; [|done]; by exists w, rs, ds].
  split; [|by eapply snapshot_ok].
  exists w, rs, ds. split_and!; try done. intros m [->|(b & [= <-] & _ & ->)]; [done|].
  destruct (snapshot_mirrors off T c Hc e _ Hm) as [Hs Hd].
  destruct H2 as [_ _ Hdel]. rewrite Erw in Hdel. destruct Hdel as [[rs0 ->] _].
  rewrite play_app in Hm. by eapply mirrors_replayed.
Qed.

(** Swapping the files: the snapshot and the delta are the log. *)
Lemma logs_install (snap : list (bytes * bytes * option Z)) err (t : Z) R e :
  Forall (rec_ok T) (compact snap) → holds T (Some (compact snap)) t R e →
  holds T None t R (rewrite_install err snap e).2.
Proof using Type.
  intros Hsnap (w & rs & ds & H1 & H2 & H3 & H4 & H5). unfold rewrite_install, attempt, on_writer, mbind, se_bind.
  rewrite H1. destruct (w_rewriting w) eqn:Erw.
  - destruct (log_ok_rewrite rs ds w snap err H2 Erw) as (f & w' & -> & E2 & Hlog & Hrw'). simpl. rewrite E2. simpl.
    exists w', (compact snap ++ ds), []. split_and!; [done|done| |done|].
    + apply Forall_app. split; [done|]. destruct H2 as [_ _ Hdel]. rewrite Erw in Hdel.
      destruct Hdel as [[rs0 ->] _]. by apply Forall_app in H3 as [_ H3].
    + intros m [->|(b & [=] & _)]. apply H5. right. exists (compact snap). by rewrite play_app.
  - destruct (log_ok_idle rs ds w snap err H2 Erw) as (f & -> & E2). simpl. rewrite E2. simpl.
    exists w, rs, ds. split_and!; try done. intros m [->|(b & [=] & _)]. apply H5, reading_log.
Qed.

Lemma logs_rewrite_worker c err e :
  steady off c → holds T None (inst c) (mirrors off T (inst c)) e →
  holds T None (inst c) (mirrors off T (inst c)) (perform_aof_rewrite c err e).2.
Proof using Type.
  intros Hc He. unfold perform_aof_rewrite, mbind, se_bind.
  destruct (logs_capture c e Hc He) as (captured & -> & He' & Hok).
  destruct captured as [snap|]; [|by eapply holds_no_worker]. by apply logs_install.
Qed.

(** ** Histories *)

(** The log is in step with the store, and so is what the worker has in hand. *)
Definition in_step (t : Z) (st : Busy) : Prop :=
  holds T (compact <$> st.2) t (mirrors off T t) st.1 ∧
  match st.2 with Some snap => Forall (rec_ok T) (compact snap) | None => True end.

Definition event_ahead (c : Clock) (ev : Event) : Prop :=
  match ev with Do op => op_ahead T c op | _ => True end.

Lemma in_step_event c ev st :
  steady off c → event_ahead c ev → one_worker ev st = true →
  in_step (inst c) st → in_step (inst c) (run_event (env_of c) ev st).
Proof using Type.
  intros Hc Hev Hone [He Hok]. destruct st as [e worker]. simpl in He, Hok.
  destruct ev as [op| |err]; simpl in Hev, Hone.
  - cbn [run_event]. assert (Hplain : plain_op op → in_step (inst c) ((run_op (env_of c) op e).2, worker)).
    { intros Hpl. split; [|done]. by apply (logs_run_op off T _ c Hc op Hpl Hev). }
    destruct op as [| | | | | | | | | | | | | | | | | | | | |err|err]; try by apply Hplain.
    + split; [|done]. apply logs_rewrite_aof; [|done]. destruct worker as [snap|]; [right|by left].
      unfold slot_taken. by destruct (e_aof e).
    + destruct worker as [snap|]; [done|]. split; [|done]. by apply logs_rewrite_worker.
  - destruct worker as [snap|]; [done|]. destruct (logs_capture c e Hc He) as (captured & Hcap & ?).
    unfold run_event. change (env_read (env_of c)) with c. by rewrite Hcap.
  - destruct worker as [snap|]; [|by split]. split; [|done]. by apply logs_install.
Qed.

(** The events of a history, each at one reading of the clocks. *)
Definition timed (h : list (Clock * Event)) : list (Env * Event) := map (λ p, (env_of p.1, p.2)) h.

Lemma run_events_logs (h : list (Clock * Event)) (t t' : Z) st :
  Forall (λ p, steady off p.1 ∧ event_ahead p.1 p.2) h → ascending t h →
  Forall (λ p, inst p.1 ≤ t') h → t ≤ t' → orderly (timed h) st = true →
  in_step t st → in_step t' (run_events (timed h) st).
Proof using Type.
  revert t st. induction h as [|[c ev] h IH]; intros t st Hok Hasc Hend Ht Hone [He Hsn]; simpl.
  { split; [by eapply holds_later|done]. }
  apply Forall_cons in Hok as [[Hc Hev] Hok]. apply Forall_cons in Hend as [Ht' Hend].
  destruct Hasc as [Hle Hasc]. simpl in *. apply andb_prop in Hone as [Hone Hone'].
  apply (IH (inst c)); [done..|]. apply in_step_event; [done..|]. split; [by eapply holds_later|done].
Qed.

(** A server that starts with an empty log. *)
Definition fresh_engine (policy : FsyncPolicy) (c0 : Clock) : Engine :=
  with_aof (open policy [] []) (engine_new c0).

Lemma fresh_in_step policy c0 (t : Z) : in_step t (fresh_engine policy c0, None).
Proof using Type.
  split; [|done]. assert (Hv : view (fresh_engine policy c0) = ∅) by apply fmap_empty.
  exists (open policy [] []), [], []. simpl. rewrite Hv. split; [done|]. split; [by split|]. split; [done|].
  split; [apply map_Forall_empty|]. intros m [->|(b & [=] & _)].
  unfold live. rewrite map_filter_empty. apply mirrors_empty.
Qed.
End worker.
