(* ===== verification/Restart.v ===== *)
(** * Restarting on the log

    What the next process finds: replaying the file of a clean shutdown rebuilds
    every key that existed, with its value and, to within two milliseconds, its
    deadline, and nothing else. *)
From S2P Require Import Prelude Numeric Text Error Floats Encoder IndexMap Eviction Entry Sieve AdaptiveClimb Glob Aof Engine WriteGuard Commands EngineInv MemoryLimit Replay Startup Spec Refinement LogState Durability.
From Stdlib Require Import ZArith Lia SpecFloat.
From stdpp Require Import gmap strings numbers list.
Local Open Scope Z_scope.

(** ** The file *)

Lemma writer_drop_healthy w :
  w_disk w = [] →
  f_data (w_inner (writer_drop w).2) = stream (w_inner w) ∧
  f_durable (w_inner (writer_drop w).2) = length (stream (w_inner w)).
Proof.
  intros Hd. unfold writer_drop, attempt, mbind, se_bind.
  destruct (lift_io_healthy (persist_err "aof flush failed: ") _ w bw_flush_healthy Hd)
    as (f1 & -> & Hf1). apply bw_flush_spec in Hf1 as (_ & _ & _ & Hok). destruct (Hok eq_refl) as [_ Hf1].
  destruct (lift_io_healthy (persist_err "aof fsync failed: ") _ (set_io f1 [] w) os_sync_healthy eq_refl)
    as (f2 & -> & Hf2). simpl in Hf2. injection Hf2 as <-. simpl. by rewrite Hf1.
Qed.

Lemma rec_ok_representable T r : rec_ok T r → representable (parts r).
Proof.
  assert (Hk : ∀ k, validate_key k = Ok tt → blen k ≤ i64_max).
  { intros k. unfold validate_key, KEY_MAX_BYTES, i64_max. repeat case_match; try done. bool_to_prop. lia. }
  assert (Hv : ∀ v, validate_value v = Ok tt → blen v ≤ i64_max).
  { intros v. unfold validate_value, VALUE_MAX_BYTES, i64_max. case_match; [done|]. bool_to_prop. lia. }
  assert (Hn : ∀ n, in_i64 n = true → blen (to_string_i n) ≤ i64_max)
    by (intros n Hn; apply to_string_i_length in Hn; unfold i64_max; lia).
  assert (Hs : ∀ x : bytes, (blen x <=? 100) = true → blen x ≤ i64_max)
    by (intros x Hx; apply Z.leb_le in Hx; unfold i64_max; lia).
  destruct r as [k v|k| |k ms|k]; intros Hr; unfold representable, parts; (split; [by vm_compute|]).
  - destruct Hr as [Hr1 Hr2]. by repeat first [apply Forall_nil_2|apply Forall_cons_2]; [by apply Hs|apply Hk|apply Hv].
  - by repeat first [apply Forall_nil_2|apply Forall_cons_2]; [by apply Hs|apply Hk].
  - repeat first [apply Forall_nil_2|apply Forall_cons_2]; by apply Hs.
  - destruct Hr as (Hr1 & Hr2 & _). by repeat first [apply Forall_nil_2|apply Forall_cons_2]; [by apply Hs|apply Hk|apply Hn].
  - by repeat first [apply Forall_nil_2|apply Forall_cons_2]; [by apply Hs|apply Hk].
Qed.

(** Every deadline a valid log plays to is beyond [T]. *)
Lemma play_beyond (T : Z) (rs : list LogRecord) (m : logmap) :
  Forall (rec_ok T) rs → map_Forall (λ _ p, ∀ ms, p.2 = Some ms → T < ms) m →
  map_Forall (λ _ p, ∀ ms, p.2 = Some ms → T < ms) (play rs m).
Proof.
  intros Hrs. revert m. induction Hrs as [|r rs Hr _ IH]; intros m Hm; [done|]. simpl. apply IH.
  intros k p Hp. destruct r as [k' v|k'| |k' ms|k']; simpl in Hp.
  - apply lookup_insert_Some in Hp as [[_ <-]|[_ Hp]]; [done|by eapply Hm].
  - apply lookup_delete_Some in Hp as [_ Hp]. by eapply Hm.
  - done.
  - apply lookup_alter_Some in Hp as [(_ & q & Hq & ->)|[_ Hp]]; [|by eapply Hm].
    intros ms' [= <-]. by destruct Hr as (_ & _ & ?).
  - apply lookup_alter_Some in Hp as [(_ & q & Hq & ->)|[_ Hp]]; [done|by eapply Hm].
Qed.

(** ** Replaying *)

Section replaying.
Context `{IndexMap} `{HashIter} (off T : Z).
Implicit Types (k v : bytes) (e : Engine) (c : Clock).

(** A clock of the replay: in step, and not past [T]. *)
Definition early (c : Clock) : Prop := steady off c ∧ unix_ns c < (T + 1) * 1000000.

(** What the log says, with the deadlines as instants of this process. *)
Definition restored (m : logmap) (K : kv) : Prop :=
  ∀ k, match m !! k, K !! k with
       | None, None => True
       | Some (d, None), Some (d', None) => d' = d
       | Some (d, Some ms), Some (d', Some D) => d' = d ∧ ms * 1000000 ≤ D + off < ms * 1000000 + 2000000
       | _, _ => False
       end.

(** Before [T] nothing that was restored has expired. *)
Lemma restored_alive m K (t : Z) :
  restored m K → map_Forall (λ _ p, ∀ ms, p.2 = Some ms → T < ms) m →
  t + off < (T + 1) * 1000000 → live t K = K.
Proof using Type.
  intros Hr Hm Ht. apply map_filter_id. intros k [d exp] Hk. specialize (Hr k). rewrite Hk in Hr.
  unfold alive. simpl. destruct (m !! k) as [[d' [ms|]]|] eqn:Ek; [..|done].
  - destruct exp as [D|]; [|done]. specialize (Hm k _ Ek ms eq_refl). apply negb_true_iff, Z.leb_gt. lia.
  - by destruct exp.
Qed.

Lemma eff_guard_remove (now now_ms : Z) k (L : kv) :
  ∃ b, eff (gshows now now_ms) (guard_remove k) L (Ok b) (delete k L).
Proof using Type.
  exists (bool_decide (is_Some (L !! k))). unfold guard_remove. apply eff_now, eff_remove. intros o Ho.
  destruct o as [en|]; simpl in Ho; [destruct (is_expired now en)|]; rewrite Ho; simpl.
  - eapply eff_bind; apply eff_ret.
  - eapply eff_bind; [apply eff_log|apply eff_ret].
  - eapply eff_bind; apply eff_ret.
Qed.

Lemma restored_insert m K k v : restored m K → restored (<[k := (v, None)]> m) (<[k := (v, None)]> K).
Proof using Type.
  intros Hr k'. specialize (Hr k'). destruct (decide (k = k')) as [->|Hne].
  - by rewrite !lookup_insert_eq.
  - by rewrite !lookup_insert_ne.
Qed.
Lemma restored_delete m K k : restored m K → restored (delete k m) (delete k K).
Proof using Type.
  intros Hr k'. specialize (Hr k'). destruct (decide (k = k')) as [->|Hne].
  - by rewrite !lookup_delete_eq.
  - by rewrite !lookup_delete_ne.
Qed.
Lemma restored_empty : restored ∅ ∅.
Proof using Type. intros k. by rewrite !lookup_empty. Qed.

Lemma restored_persist m K k :
  restored m K → restored (alter (λ p, (p.1, None)) k m) (spec_persist k K).2.
Proof using Type.
  intros Hr k'. pose proof (Hr k') as Hk'. unfold spec_persist. destruct (decide (k = k')) as [->|Hne].
  - rewrite lookup_alter_eq. destruct (m !! k') as [[d [ms|]]|], (K !! k') as [[d' [D|]]|] eqn:EK;
      simpl in *; rewrite ?lookup_insert_eq, ?EK; try done. by destruct Hk'.
  - rewrite lookup_alter_ne by done. destruct (K !! k) as [[d' [D|]]|]; simpl;
      by rewrite ?lookup_insert_ne by done.
Qed.

Lemma restored_expire m K k c ms :
  restored m K → steady off c → in_i64 ms = true → current_epoch_ms c < ms →
  restored (alter (λ p, (p.1, Some ms)) k m) (spec_expire_at (inst c) (current_epoch_ms c) k ms K).2.
Proof using Type.
  intros Hr Hc Hms Hlt k'. pose proof (Hr k') as Hk'. unfold spec_expire_at.
  assert (Hle : (ms <=? current_epoch_ms c) = false) by (by apply Z.leb_gt).
  pose proof (near_expire off (ms - 2) c ms Hc Hms ltac:(lia) Hlt) as [Hn _].
  destruct (decide (k = k')) as [->|Hne].
  - rewrite lookup_alter_eq. destruct (m !! k') as [[d dl]|], (K !! k') as [[d' exp]|] eqn:EK;
      simpl in *; rewrite ?Hle; simpl; rewrite ?lookup_insert_eq, ?EK; try done.
    + split; [destruct dl, exp; naive_solver|exact Hn].
    + by destruct dl.
  - rewrite lookup_alter_ne by done. destruct (K !! k) as [[d' exp]|]; [|done].
    rewrite Hle. simpl. by rewrite lookup_insert_ne.
Qed.

(** ** One record *)

(** The engine has no limit and holds what the log says. *)
Definition rebuilt (t : Z) (m : logmap) (e : Engine) : Prop :=
  ∃ K, shows t K e ∧ restored m K.

Lemma rebuilt_later (t t' : Z) m e :
  t ≤ t' → t' + off < (T + 1) * 1000000 → map_Forall (λ _ p, ∀ ms, p.2 = Some ms → T < ms) m →
  rebuilt t m e → rebuilt t' m e.
Proof using Type.
  intros Ht Ht' Hm (K & [Hmax HK] & Hr). exists K. split; [|done]. split; [done|].
  rewrite <- (restored_alive m K t') at 1 by done. by rewrite <- HK, live_live.
Qed.

(** A call that succeeds with a known effect is a record applied. *)
Lemma engine_call_eff {A : Type} (m : SE Engine FerrumError A) (t : Z) (K : kv) (a : A) (K' : kv) (l : logmap) (e : Engine) :
  eff (shows t) m K (Ok a) K' → shows t K e → restored l K' →
  ∃ e', engine_call m e = (Ok tt, e') ∧ rebuilt t l e'.
Proof using Type.
  intros Hm He Hr. destruct (Hm e He) as [H1 H2]. unfold engine_call.
  destruct (m e) as [x e']. simpl in *. subst x. exists e'. split; [done|]. by exists K'.
Qed.

Lemma apply_record_rebuilds c r m e :
  early c → rec_ok T r → rebuilt (inst c) m e →
  ∃ e', apply_record (env_of c) (parts r) e = (Ok tt, e') ∧ rebuilt (inst c) (play1 m r) e'.
Proof using Type.
  intros [Hc Ht] Hr (K & He & HK). assert (Hat : at_clock (env_of c) c) by done.
  destruct r as [k v|k| |k ms|k]; simpl in Hr.
  - destruct Hr as [Hk Hv]. change (apply_record _ _ e) with (engine_call (set (env_of c) k v) e).
    eapply engine_call_eff; [|exact He|by apply restored_insert].
    eapply eff_with_guard; [exact Hat|].
    pose proof (eff_guard_insert (inst c) (current_epoch_ms c) (env_of c) k v K eq_refl) as Hi.
    unfold valid in Hi. by rewrite Hk, Hv in Hi.
  - change (apply_record _ _ e) with (engine_call (del (env_of c) k) e).
    destruct (eff_guard_remove (inst c) (current_epoch_ms c) k K) as [b Hb].
    eapply engine_call_eff; [by eapply eff_with_guard|exact He|by apply restored_delete].
  - change (apply_record _ _ e) with (engine_call (flushdb (env_of c)) e).
    eapply engine_call_eff; [eapply eff_with_guard, eff_guard_clear; exact Hat|exact He|apply restored_empty].
  - destruct Hr as (Hk & Hms & HT). destruct (steady_ms off c Hc) as [Hnow Hrng].
    assert (Hlt : current_epoch_ms c < ms).
    { rewrite Hnow. enough (unix_ns c / 1000000 < T + 1) by lia. apply Z.div_lt_upper_bound; lia. }
    replace (apply_record _ _ e) with (engine_call (expire_at_ms (env_of c) k ms) e).
    2:{ change (apply_record _ _ e) with (
          (if negb (utf8_valid (to_string_i ms)) then throw (Arity (cmd_name (str "PEXPIREAT")))
           else match parse_i64 (to_string_i ms) with
                | Some abs_ms => engine_call (expire_at_ms (env_of c) k abs_ms)
                | None => throw (Arity (cmd_name (str "PEXPIREAT")))
                end) e).
        by rewrite to_string_i_utf8, parse_i64_to_string. }
    eapply engine_call_eff; [|exact He|by apply restored_expire].
    eapply eff_with_guard, eff_guard_expire_at; [exact Hat|done|].
    unfold in_i64, i64_min. rewrite Hnow. apply andb_true_intro. unfold i64_max in *. split; apply Z.leb_le; lia.
  - change (apply_record _ _ e) with (engine_call (persist (env_of c) k) e).
    eapply engine_call_eff; [eapply eff_with_guard, eff_guard_persist; exact Hat|exact He|by apply restored_persist].
Qed.

(** ** The whole log *)

Lemma replay_records_rebuilds (cl : Z → Clock) (rs : list LogRecord) (pos t t1 : Z) stats m e :
  (∀ p, early (cl p) ∧ inst (cl p) ≤ t1) → (∀ p q, p ≤ q → inst (cl p) ≤ inst (cl q)) →
  t1 + off < (T + 1) * 1000000 → Forall (rec_ok T) rs →
  map_Forall (λ _ p, ∀ ms, p.2 = Some ms → T < ms) m → t ≤ inst (cl pos) → rebuilt t m e →
  ∃ stats' e', replay_records (λ p, env_of (cl p)) pos (map parts rs) stats e = (Ok stats', e') ∧
    rebuilt t1 (play rs m) e'.
Proof using Type.
  intros Hcl Hmono Ht1 Hrs. revert pos t stats m e. induction Hrs as [|r rs Hr Hrs IH];
    intros pos t stats m e Hm Ht He.
  { exists stats, e. split; [done|]. apply (rebuilt_later t); [|done..].
    destruct (Hcl pos) as [_ ?]. lia. }
  cbn [map replay_records]. set (pos' := pos + blen (encode_command (parts r))).
  assert (Hp : inst (cl pos) ≤ inst (cl pos')) by (apply Hmono; unfold pos', blen; lia).
  assert (Hnow : inst (cl pos') + off < (T + 1) * 1000000) by (destruct (Hcl pos') as [[[Hu _] ?] _]; lia).
  destruct (apply_record_rebuilds (cl pos') r m e) as (e1 & -> & He1); [apply Hcl|done|..].
  { by apply (rebuilt_later t); [lia|..]. }
  apply (IH pos' (inst (cl pos'))); [|done..].
  by apply (play_beyond T [r]); [constructor|].
Qed.

Lemma engine_new_rebuilt c (t : Z) : rebuilt t ∅ (engine_new c).
Proof using Type.
  exists ∅. split; [|apply restored_empty]. split; [done|]. unfold view, live. simpl.
  by rewrite fmap_empty, map_filter_empty.
Qed.

(** Starting on the file of a valid log. *)
Lemma build_engine_rebuilds (cl : Z → Clock) (rs : list LogRecord) (t1 : Z) c0 (disk : list Disk) (cfg : AofConfig) (fs : Files) :
  (∀ p, early (cl p) ∧ inst (cl p) ≤ t1) → (∀ p q, p ≤ q → inst (cl p) ≤ inst (cl q)) →
  t1 + off < (T + 1) * 1000000 → Forall (rec_ok T) rs → fs !! cfg_path cfg = Some (image rs) →
  ∃ e, build_engine io_fine None (λ p, env_of (cl p)) c0 disk (Some cfg) fs
       = Some (Ok (with_aof (open (cfg_fsync cfg) (image rs) disk) e), fs) ∧ rebuilt t1 (play rs ∅) e.
Proof using Type.
  intros Hcl Hmono Ht1 Hrs Hfs.
  destruct (replay_records_rebuilds cl rs 0 (inst (cl 0)) t1 stats_default ∅ (engine_new c0))
    as (st & e & Hrun & He); try done; [apply engine_new_rebuilt|].
  exists e. split; [|done]. unfold build_engine, replay. rewrite Hfs. cbn [io_open io_fine].
  pose proof (replay_from_file_torn (λ p, env_of (cl p)) (engine_new c0) (map parts rs) [] []) as Hf.
  rewrite app_nil_r, Hrun in Hf. unfold image at 1. rewrite Hf; [|..].
  - cbn [default option_rect]. unfold image. simpl. by rewrite insert_id.
  - apply Forall_map. eapply Forall_impl; [exact Hrs|]. intros r. apply rec_ok_representable.
  - by split.
  - apply prefix_nil.
  - done.
Qed.
End replaying.

(** ** The two processes *)

(** The same keys with the same values, and deadlines within two milliseconds of
    wall clock; [off] and [off'] take an instant of each process to that clock. *)
Definition recovered (off off' : Z) (L L' : kv) : Prop :=
  ∀ k, match L !! k, L' !! k with
       | None, None => True
       | Some (d, None), Some (d', None) => d' = d
       | Some (d, Some D), Some (d', Some D') => d' = d ∧ Z.abs ((D + off) - (D' + off')) < 2000000
       | _, _ => False
       end.

Lemma mirrors_recovered (off off' T t : Z) (m : logmap) (L K : kv) :
  t + off < (T + 1) * 1000000 → map_Forall (λ _ p, ∀ ms, p.2 = Some ms → T < ms) m →
  mirrors off T t m L → restored off' m K → recovered off off' L K.
Proof.
  intros Ht Hm HL HK k. specialize (HL k). specialize (HK k). destruct (L !! k) as [[d exp]|].
  - destruct HL as (dl & Hk & Hn). rewrite Hk in HK.
    destruct exp as [D|], dl as [ms|]; simpl in Hn; try done;
      destruct (K !! k) as [[d' [D'|]]|]; try done.
    destruct HK as [-> HK], Hn as [Hn _]. split; [done|]. lia.
  - destruct (m !! k) as [[d [ms|]]|] eqn:Ek; [exfalso|done|by destruct (K !! k) as [[? []]|]].
    specialize (Hm k _ Ek ms eq_refl). lia.
Qed.

Section processes.
Context `{IndexMap} `{HashIter}.

(** The engine built on the file that a log in step leaves when it is closed. *)
Lemma dropped_log_restarts (off off' T t' : Z) (w : AofWriter) (e : Engine) (worker : option (list (bytes * bytes * option Z)))
    (cl : Z → Clock) (t1 : Z) (c0 : Clock) (disk : list Disk) (cfg : AofConfig) (fs : Files) :
  e_aof e = Some w → in_step off T t' (e, worker) → t' + off < (T + 1) * 1000000 →
  (∀ p, early off' T (cl p) ∧ inst (cl p) ≤ t1) → (∀ p q, p ≤ q → inst (cl p) ≤ inst (cl q)) →
  t1 + off' < (T + 1) * 1000000 →
  ∃ e', let file := f_data (w_inner (writer_drop w).2) in
    build_engine io_fine None (λ p, env_of (cl p)) c0 disk (Some cfg) (<[cfg_path cfg := file]> fs)
    = Some (Ok e', <[cfg_path cfg := file]> fs) ∧
    e_aof e' = Some (open (cfg_fsync cfg) file disk) ∧
    recovered off off' (live t' (view e)) (live t1 (view e')).
Proof.
  intros Hw [(w' & rs & ds & H1 & [Hd Hs _] & H4 & _ & H5) _] HT Hcl Hmono Ht1. cbn [fst snd] in *.
  rewrite Hw in H1. injection H1 as <-.
  specialize (H5 _ (reading_log _ w rs ds)).
  destruct (writer_drop_healthy w Hd) as [Hf _]. rewrite Hs in Hf.
  destruct (build_engine_rebuilds off' T cl rs t1 c0 disk cfg (<[cfg_path cfg := image rs]> fs))
    as (e' & He' & K & [_ HK] & Hr); [done..|by rewrite lookup_insert_eq|].
  exists (with_aof (open (cfg_fsync cfg) (image rs) disk) e'). cbv zeta. rewrite Hf.
  split; [exact He'|]. split; [done|]. change (view (with_aof _ e')) with (view e'). rewrite HK.
  eapply mirrors_recovered; [exact HT| |exact H5|exact Hr]. apply play_beyond; [done|apply map_Forall_empty].
Qed.

(** C5: The log mirrors the store. A server starts with an empty log on a disk that works,
    and runs a history of commands, sweeps, evictions, changes of the limit and rewrites
    whose worker runs beside the commands, under any fsync policy. Two conditions are on the
    history: every event reads the wall clock and the monotonic clock at one instant, at a
    fixed offset of each other and never going back ([steady], [ascending]); and one rewrite
    worker runs at a time ([orderly]: no rewrite is started while the worker of an earlier
    one, which lost its slot to an overflow of the delta, is still running; without it the
    claim fails, see [reclaimed_rewrite_loses_write]). Then the bytes of the file and of the
    writer's buffer are exactly a sequence of records; playing them gives every existing key
    its value and its deadline to within two milliseconds, and whatever else they give has a
    deadline that has passed. *)
Theorem log_mirrors_store (off : Z) (policy : FsyncPolicy) (c0 : Clock) (h : list (Clock * Event)) (t' : Z) :
  Forall (λ p, steady off p.1 ∧ event_ahead (i64_min - 2) p.1 p.2) h → ascending (inst c0) h →
  Forall (λ p, inst p.1 ≤ t') h → inst c0 ≤ t' → orderly (timed h) (fresh_engine policy c0, None) = true →
  let e := (run_events (timed h) (fresh_engine policy c0, None)).1 in
  ∃ w rs, e_aof e = Some w ∧ stream (w_inner w) = image rs ∧
    mirrors off (i64_min - 2) t' (play rs ∅) (live t' (view e)).
Proof.
  intros Hh Hasc Hend Ht Hone e.
  destruct (run_events_logs off (i64_min - 2) h (inst c0) t' (fresh_engine policy c0, None))
    as [(w & rs & ds & H1 & [_ H2 _] & _ & _ & H5) _]; [done..|apply fresh_in_step|].
  exists w, rs. split; [done|]. split; [done|]. apply H5, reading_log.
Qed.

(** C3: Nothing is lost over an orderly restart. A server starts with an empty log on a disk
    that works, runs a history of commands, sweeps, evictions and rewrites whose worker runs
    beside the commands, under any fsync policy, and is shut down cleanly. As for
    [log_mirrors_store], every event reads the two clocks at one instant, at a fixed offset
    of each other and never going back, and one rewrite worker runs at a time. Besides,
    there is a horizon [T]: a deadline that the history asks for has passed already or lies
    beyond [T], and the history and the replay both end before [T], so no key expires in
    between (a deadline that passes before the replay loses more than its own key when the
    history moved it again: [replay] applies each record with the current clock). The next
    process, with its own offset between the clocks, also fixed, and any fsync policy, then
    builds an engine with the same keys, the same values and, to within two milliseconds,
    the same deadlines; the file is left as it was and the new writer appends to it. *)
Theorem restart_recovers (off off' T : Z) (policy : FsyncPolicy) (c0 : Clock) (h : list (Clock * Event)) (t' : Z)
    (cl : Z → Clock) (t1 : Z) (c0' : Clock) (disk : list Disk) (cfg : AofConfig) (fs : Files) :
  Forall (λ p, steady off p.1 ∧ event_ahead T p.1 p.2) h → ascending (inst c0) h →
  Forall (λ p, inst p.1 ≤ t') h → inst c0 ≤ t' → t' + off < (T + 1) * 1000000 →
  orderly (timed h) (fresh_engine policy c0, None) = true →
  (∀ p, early off' T (cl p) ∧ inst (cl p) ≤ t1) → (∀ p q, p ≤ q → inst (cl p) ≤ inst (cl q)) →
  t1 + off' < (T + 1) * 1000000 →
  let e := (run_events (timed h) (fresh_engine policy c0, None)).1 in
  ∃ w e', e_aof e = Some w ∧
    let file := f_data (w_inner (writer_drop w).2) in
    build_engine io_fine None (λ p, env_of (cl p)) c0' disk (Some cfg) (<[cfg_path cfg := file]> fs)
    = Some (Ok e', <[cfg_path cfg := file]> fs) ∧
    e_aof e' = Some (open (cfg_fsync cfg) file disk) ∧
    recovered off off' (live t' (view e)) (live t1 (view e')).
Proof.
  intros Hh Hasc Hend Ht HT Hone Hcl Hmono Ht1 e.
  assert (Hin : in_step off T t' (run_events (timed h) (fresh_engine policy c0, None)))
    by (apply (run_events_logs off T h (inst c0)); [done..|apply fresh_in_step]).
  destruct (proj1 Hin) as (w & rs & ds & H1 & _). exists w.
  destruct (dropped_log_restarts off off' T t' w e (run_events (timed h) (fresh_engine policy c0, None)).2
    cl t1 c0' disk cfg fs) as (e' & He'); [done|unfold e; by rewrite <- surjective_pairing|done..|].
  by exists e'.
Qed.
End processes.

Definition restart_history : list (Clock * Event) :=
  [ (clock_at 1, Do (OSet (str "k") (str "41")));
    (clock_at 2, Do (OExpireAt (str "k") 1700000005000));
    (clock_at 3, Do (OSet (str "l") (str "x")));
    (clock_at 4, Do (OIncrBy (str "k") 1));
    (clock_at 5, Do (OExpireAt (str "l") 1600000000000));
    (clock_at 6, Do (ORewriteAof None));
    (clock_at 6, Do (OSet (str "n") (str "z")));
    (clock_at 6, Capture);
    (clock_at 6, Do (OIncrBy (str "k") 1));
    (clock_at 6, Do (ORewriteAof None));
    (clock_at 7, Install (persist_err "aof rename failed: "));
    (clock_at 7, Do (OAppend (str "m") (str "y"))) ].

Ltac check_call :=
  split; [by split|]; simpl;
  first [done | split; [done|first [left; by vm_compute | right; by vm_compute]]].

Lemma log_mirrors_store_witness :
  let e := (run_events (timed restart_history) (fresh_engine EverySec (clock_at 0), None)).1 in
  ∃ w rs, e_aof e = Some w ∧ stream (w_inner w) = image rs ∧
    mirrors 1700000000000000000 (i64_min - 2) 8000000 (play rs ∅) (live 8000000 (view e)).
Proof.
  apply (log_mirrors_store 1700000000000000000 EverySec (clock_at 0) restart_history 8000000).
  - unfold restart_history. repeat (constructor; [check_call|]). constructor.
  - by vm_compute.
  - unfold restart_history. repeat (constructor; [by vm_compute|]). constructor.
  - by vm_compute.
  - by vm_compute.
Defined.

(** The clock of the second process: its instants count from another origin. *)
Definition second_clock : Clock := {| inst := 5000000; unix_ns := 1700000000900000000 |}.

Lemma restart_recovers_witness :
  let e := (run_events (timed restart_history) (fresh_engine EverySec (clock_at 0), None)).1 in
  let cfg := {| cfg_path := str "a.aof"; cfg_fsync := Always |} in
  ∃ w e', e_aof e = Some w ∧
    build_engine io_fine None (λ _, env_of second_clock) second_clock [] (Some cfg)
      (<[cfg_path cfg := f_data (w_inner (writer_drop w).2)]> ∅)
    = Some (Ok e', <[cfg_path cfg := f_data (w_inner (writer_drop w).2)]> ∅) ∧
    recovered 1700000000000000000 1700000000895000000 (live 8000000 (view e)) (live 6000000 (view e')).
Proof.
  intros e cfg.
  destruct (restart_recovers 1700000000000000000 1700000000895000000 1700000001000 EverySec (clock_at 0)
    restart_history 8000000 (λ _, second_clock) 6000000 second_clock [] cfg ∅)
    as (w & e' & H1 & H2 & _ & H3).
  - unfold restart_history. repeat (constructor; [check_call|]). constructor.
  - by vm_compute.
  - unfold restart_history. repeat (constructor; [by vm_compute|]). constructor.
  - by vm_compute.
  - by vm_compute.
  - by vm_compute.
  - intros _. split; [|by vm_compute]. split; [by split|by vm_compute].
  - intros. by vm_compute.
  - by vm_compute.
  - exists w, e'. exact (conj H1 (conj H2 H3)).
Defined.

(** ** A rewrite that outlives its claim *)

(** A worker whose delta overflowed does not notice that the slot was claimed again:
    it installs its old snapshot, and the write that overflowed the delta is in
    neither file. The cap is small here to keep the history short. *)
Definition small_delta (cap : Z) (e : Engine) : Engine :=
  set_aof ((λ w, {| w_inner := w_inner w; w_disk := w_disk w; w_seq := w_seq w; w_synced := w_synced w;
                    w_fsyncs := w_fsyncs w; w_fsync_skips := w_fsync_skips w; w_policy := w_policy w;
                    w_rewriting := w_rewriting w; w_delta := w_delta w; w_delta_cap := cap |}) <$> e_aof e) e.

Definition reclaimed_history : list (Clock * Event) :=
  [ (clock_at 1, Do (ORewriteAof None));
    (clock_at 2, Capture);
    (clock_at 3, Do (OSet (str "k") (str "a value too long for the delta")));
    (clock_at 4, Do (ORewriteAof None));
    (clock_at 5, Install (persist_err "aof rename failed: ")) ].

Example reclaimed_rewrite_loses_write :
  let e := (run_events (timed reclaimed_history) (small_delta 32 (fresh_engine EverySec (clock_at 0)), None)).1 in
  option_map data (e_store e !! str "k") = Some (str "a value too long for the delta") ∧
  option_map (λ w, stream (w_inner w)) (e_aof e) = Some [].
Proof. split; vm_compute; reflexivity. Qed.
