(* ===== verification/Web.v ===== *)
(** * Encodings of the dashboard (src/src/network/dashboard/http.rs)

    Base64, JSON strings, form fields and command lines: the text forms in which
    the dashboard moves keys, values and commands, each with the theorem that
    nothing is lost or confused on the way. *)
From S2P Require Import Prelude Numeric Text.
From Stdlib Require Import ZArith Lia Strings.Byte.
From stdpp Require Import gmap strings numbers list.
Local Open Scope Z_scope.

(** [u8::is_ascii_whitespace] *)
Definition is_ascii_whitespace (b : byte) : bool :=
  (b2z b =? 32) || (b2z b =? 9) || (b2z b =? 10) || (b2z b =? 12) || (b2z b =? 13).

(** ** Base64 *)

Definition TABLE : bytes := str "ABCDEFGHIJKLMNOPQRSTUVWXYZabcdefghijklmnopqrstuvwxyz0123456789+/".

(** [TABLE[(n & 63) as usize]] *)
Definition symbol (n : Z) : byte := nth (Z.to_nat (Z.land n 63)) TABLE x00.

(** One round of the loop of [base64_encode]; [chunk] has one to three bytes. *)
Definition encode_chunk (chunk : bytes) : bytes :=
  let b0 := b2z (nth 0 chunk x00) in
  let b1 := b2z (nth 1 chunk x00) in
  let b2 := b2z (nth 2 chunk x00) in
  let n := Z.lor (Z.lor (Z.shiftl b0 16) (Z.shiftl b1 8)) b2 in
  [ symbol (Z.shiftr n 18); symbol (Z.shiftr n 12);
    if (1 <? length chunk)%nat then symbol (Z.shiftr n 6) else x3d;
    if (2 <? length chunk)%nat then symbol n else x3d ].

(** [base64_encode], by [chunks(3)]. *)
Fixpoint base64_encode (input : bytes) : bytes :=
  match input with
  | [] => []
  | b0 :: b1 :: b2 :: rest => encode_chunk [b0; b1; b2] ++ base64_encode rest
  | chunk => encode_chunk chunk
  end.

(** [sextet] *)
Definition sextet (c : byte) : option Z :=
  if Text.between 65 90 c then Some (b2z c - 65)
  else if Text.between 97 122 c then Some (b2z c - 97 + 26)
  else if Text.between 48 57 c then Some (b2z c - 48 + 52)
  else if b2z c =? 43 then Some 62
  else if b2z c =? 47 then Some 63
  else None.

(** [n = (n << 6) | ...] over a chunk. *)
Fixpoint pack (n : Z) (chunk : bytes) : option Z :=
  match chunk with
  | [] => Some n
  | b :: chunk =>
      match (if bool_decide (b = x3d) then Some 0 else sextet b) with
      | Some v => pack (Z.lor (wrap32 (Z.shiftl n 6)) v) chunk
      | None => None
      end
  end.

(** One round of the loop of [base64_decode]. *)
Definition decode_chunk (chunk : bytes) : option bytes :=
  let pad := length (List.filter (λ b, bool_decide (b = x3d)) chunk) in
  if (2 <? pad)%nat then None
  else match pack 0 chunk with
       | None => None
       | Some n =>
           Some (z2b (Z.shiftr n 16) ::
                 (if (pad <? 2)%nat then [z2b (Z.shiftr n 8)] else []) ++
                 (if (pad <? 1)%nat then [z2b n] else []))
       end.

(** The loop, by [chunks(4)]. *)
Fixpoint decode_chunks (s : bytes) : option bytes :=
  match s with
  | [] => Some []
  | a :: b :: c :: d :: rest =>
      match decode_chunk [a; b; c; d] with
      | Some out => match decode_chunks rest with Some l => Some (out ++ l) | None => None end
      | None => None
      end
  | chunk => decode_chunk chunk
  end.

(** [base64_decode] *)
Definition base64_decode (s : bytes) : option bytes :=
  let s := List.filter (λ b, negb (is_ascii_whitespace b)) s in
  if bool_decide (s = []) then Some []
  else if negb (blen s mod 4 =? 0) then None
  else decode_chunks s.

(** ** JSON strings *)

(** The arm of the loop of [json_string] for one character; a character of more
    than one byte goes through as it is. *)
Definition json_escape (c : byte) : bytes :=
  if bool_decide (c = x22) then [x5c; x22]
  else if bool_decide (c = x5c) then [x5c; x5c]
  else if bool_decide (c = x0a) then str "\n"
  else if bool_decide (c = x0d) then str "\r"
  else if bool_decide (c = x09) then str "\t"
  else if b2z c <? 32 then str "\u00" ++ [hex_digit (b2z c / 16); hex_digit (b2z c mod 16)]
  else [c].

(** [json_string] *)
Definition json_string (s : bytes) : bytes := x22 :: flat_map json_escape s ++ [x22].

(** ** Forms *)

(** [char::to_digit(16)] *)
Definition to_digit16 (c : byte) : option Z :=
  if Text.between 48 57 c then Some (b2z c - 48)
  else if Text.between 97 102 c then Some (b2z c - 87)
  else if Text.between 65 70 c then Some (b2z c - 55)
  else None.

(** The loop of [url_decode]. *)
Fixpoint url_bytes (s : bytes) : bytes :=
  match s with
  | [] => []
  | c :: s1 =>
      if bool_decide (c = x2b) then x20 :: url_bytes s1
      else if bool_decide (c = x25) then
        match s1 with
        | h :: l :: s2 =>
            match to_digit16 h, to_digit16 l with
            | Some h, Some l => z2b (h * 16 + l) :: url_bytes s2
            | _, _ => c :: url_bytes s1
            end
        | _ => c :: url_bytes s1
        end
      else c :: url_bytes s1
  end.

(** [url_decode] *)
Definition url_decode (s : bytes) : bytes := utf8_lossy (url_bytes s).

(** One pair of [parse_query]. *)
Definition parse_pair (map : gmap bytes bytes) (pair : bytes) : gmap bytes bytes :=
  if bool_decide (pair = []) then map
  else
    let '(k, v) := match split_once x3d pair with Some kv => kv | None => (pair, []) end in
    <[url_decode k := url_decode v]> map.

(** [parse_query] *)
Definition parse_query (q : bytes) : gmap bytes bytes := fold_left parse_pair (split_on x26 q) ∅.

(** ** Command lines *)

(** The state of [tokenize_command]: the words found, the word being read, and
    whether we are in a word and in quotes. *)
Record Lexer := { lx_argv : list bytes; lx_cur : bytes; lx_in_token : bool; lx_in_quotes : bool }.

Fixpoint lex (s : bytes) (st : Lexer) : Lexer :=
  match s with
  | [] => st
  | b :: s1 =>
      if lx_in_quotes st then
        if bool_decide (b = x22) then
          lex s1 {| lx_argv := lx_argv st; lx_cur := lx_cur st;
                    lx_in_token := lx_in_token st; lx_in_quotes := false |}
        else match s1 with
             | c :: s2 =>
                 if bool_decide (b = x5c)
                 then lex s2 {| lx_argv := lx_argv st; lx_cur := lx_cur st ++ [c];
                                lx_in_token := lx_in_token st; lx_in_quotes := true |}
                 else lex s1 {| lx_argv := lx_argv st; lx_cur := lx_cur st ++ [b];
                                lx_in_token := lx_in_token st; lx_in_quotes := true |}
             | [] => lex s1 {| lx_argv := lx_argv st; lx_cur := lx_cur st ++ [b];
                               lx_in_token := lx_in_token st; lx_in_quotes := true |}
             end
      else if bool_decide (b = x22) then
        lex s1 {| lx_argv := lx_argv st; lx_cur := lx_cur st; lx_in_token := true; lx_in_quotes := true |}
      else if existsb (λ c, bool_decide (b = c)) [x20; x09; x0d; x0a] then
        lex s1 (if lx_in_token st
                then {| lx_argv := lx_argv st ++ [lx_cur st]; lx_cur := [];
                        lx_in_token := false; lx_in_quotes := false |}
                else st)
      else lex s1 {| lx_argv := lx_argv st; lx_cur := lx_cur st ++ [b];
                     lx_in_token := true; lx_in_quotes := false |}
  end.

(** [tokenize_command] *)
Definition tokenize_command (line : bytes) : option (list bytes) :=
  let st := lex line {| lx_argv := []; lx_cur := []; lx_in_token := false; lx_in_quotes := false |} in
  let argv := if lx_in_token st then lx_argv st ++ [lx_cur st] else lx_argv st in
  if lx_in_quotes st then None else Some argv.

(** ** Base64 round trip *)

(** Shifting left and filling the low bits is arithmetic. *)
Lemma lor_shift a b k : 0 ≤ k → 0 ≤ b < 2 ^ k → Z.lor (Z.shiftl a k) b = a * 2 ^ k + b.
Proof.
  intros Hk Hb. assert (Hl : Z.land (Z.shiftl a k) b = 0).
  { apply Z.bits_inj'. intros i Hi. rewrite Z.land_spec, Z.shiftl_spec, Z.bits_0 by lia.
    destruct (decide (i < k)); [by rewrite Z.testbit_neg_r by lia|].
    rewrite <- (Z.mod_small b (2 ^ k)), Z.mod_pow2_bits_high by lia. apply andb_false_r. }
  by rewrite <- Z.lxor_lor, <- Z.add_nocarry_lxor, Z.shiftl_mul_pow2 by done.
Qed.

Lemma symbol_sextet n : sextet (symbol n) = Some (n mod 64) ∧ symbol n ≠ x3d ∧ is_ascii_whitespace (symbol n) = false.
Proof.
  unfold symbol. change 63 with (Z.ones 6). rewrite Z.land_ones by lia. change (2 ^ 6) with 64.
  assert (Hr : 0 ≤ n mod 64 < 64) by (apply Z.mod_pos_bound; lia).
  generalize dependent (n mod 64). intros m Hm.
  assert (Hall : forallb (λ i, bool_decide (sextet (nth i TABLE x00) = Some (Z.of_nat i))
    && negb (bool_decide (nth i TABLE x00 = x3d)) && negb (is_ascii_whitespace (nth i TABLE x00))) (seq 0 64) = true)
    by reflexivity.
  rewrite forallb_forall in Hall. specialize (Hall (Z.to_nat m)). rewrite in_seq in Hall.
  specialize (Hall ltac:(lia)). apply andb_prop in Hall as [Hall H3]. apply andb_prop in Hall as [H1 H2].
  apply negb_true_iff in H2, H3. bool_to_prop. rewrite Z2Nat.id in H1 by lia. done.
Qed.

(** Packing four symbols of a 24-bit word gives the word back. *)
Lemma pack_symbols n :
  0 ≤ n < 16777216 →
  pack 0 [symbol (Z.shiftr n 18); symbol (Z.shiftr n 12); symbol (Z.shiftr n 6); symbol n] = Some n.
Proof.
  intros Hn. rewrite !Z.shiftr_div_pow2 by lia. cbn [pack].
  rewrite !bool_decide_false by apply symbol_sextet.
  do 4 (rewrite (proj1 (symbol_sextet _))). f_equal.
  change (2 ^ 18) with (64 * 64 * 64). change (2 ^ 12) with (64 * 64). change (2 ^ 6) with 64.
  rewrite <- !Z.div_div by lia.
  assert (Ha : n = 64 * (n / 64) + n mod 64 ∧ 0 ≤ n mod 64 < 64) by (Z.div_mod_to_equations; lia).
  set (a := n / 64) in *. assert (Hb : a = 64 * (a / 64) + a mod 64 ∧ 0 ≤ a mod 64 < 64) by (Z.div_mod_to_equations; lia).
  set (b := a / 64) in *. assert (Hc : b = 64 * (b / 64) + b mod 64 ∧ 0 ≤ b mod 64 < 64) by (Z.div_mod_to_equations; lia).
  set (c := b / 64) in *. rewrite (Z.mod_small c) by lia.
  unfold wrap32. change (Z.shiftl 0 6) with 0. rewrite Zmod_0_l, Z.lor_0_l.
  assert (Hstep : ∀ x v, 0 ≤ x < 67108864 → 0 ≤ v < 64 → Z.lor (Z.shiftl x 6 mod 4294967296) v = x * 64 + v).
  { intros x v Hx Hv. rewrite Z.mod_small by (rewrite Z.shiftl_mul_pow2; lia). by apply (lor_shift x v 6). }
  clearbody c b a. rewrite (Hstep c) by lia. rewrite (Hstep (c * 64 + _)) by lia. rewrite Hstep; lia.
Qed.

Lemma word_of b0 b1 b2 :
  let n := Z.lor (Z.lor (Z.shiftl (b2z b0) 16) (Z.shiftl (b2z b1) 8)) (b2z b2) in
  n = b2z b0 * 65536 + b2z b1 * 256 + b2z b2 ∧ 0 ≤ n < 16777216.
Proof.
  intros n. pose proof (b2z_range b0). pose proof (b2z_range b1). pose proof (b2z_range b2).
  assert (Hn : n = b2z b0 * 65536 + b2z b1 * 256 + b2z b2); [|lia]. unfold n.
  rewrite <- Z.lor_assoc, (lor_shift (b2z b1) (b2z b2) 8) by (change (2 ^ 8) with 256; lia).
  rewrite lor_shift by (change (2 ^ 16) with 65536; change (2 ^ 8) with 256; lia). lia.
Qed.

Lemma z2b_mod b z : z mod 256 = b2z b → z2b z = b.
Proof. intros Hz. rewrite <- (z2b_b2z b). unfold z2b. rewrite Hz. by rewrite (Z.mod_small (b2z b)) by (pose proof (b2z_range b); lia). Qed.

(** The bytes of a word. *)
Lemma word_bytes b0 b1 b2 :
  let n := b2z b0 * 65536 + b2z b1 * 256 + b2z b2 in
  z2b (Z.shiftr n 16) = b0 ∧ z2b (Z.shiftr n 8) = b1 ∧ z2b n = b2.
Proof.
  intros n. pose proof (b2z_range b0). pose proof (b2z_range b1). pose proof (b2z_range b2).
  rewrite !Z.shiftr_div_pow2 by lia. change (2 ^ 16) with 65536. change (2 ^ 8) with 256.
  split_and!; apply z2b_mod; unfold n; Z.div_mod_to_equations; lia.
Qed.

(** Padding stands for a symbol whose bits are zero. *)
Lemma pack_pad l n z r : z mod 64 = 0 → pack n (l ++ x3d :: r) = pack n (l ++ symbol z :: r).
Proof.
  intros Hz. revert n. induction l as [|a l IH]; intros n; cbn [app pack].
  - rewrite (bool_decide_true (x3d = x3d)), (bool_decide_false (symbol z = x3d)) by (done || apply symbol_sextet).
    by rewrite (proj1 (symbol_sextet z)), Hz.
  - by destruct (if bool_decide (a = x3d) then _ else _).
Qed.

(** What a chunk with [pad] padding characters is decoded to. *)
Lemma decode_chunk_pack chunk n pad b0 b1 b2 :
  length (List.filter (λ b, bool_decide (b = x3d)) chunk) = pad → (pad ≤ 2)%nat →
  pack 0 chunk = Some n → n = b2z b0 * 65536 + b2z b1 * 256 + b2z b2 →
  decode_chunk chunk = Some (take (3 - pad) [b0; b1; b2]).
Proof.
  intros Hpad Hle Hp ->. destruct (word_bytes b0 b1 b2) as (H0 & H1 & H2).
  unfold decode_chunk. rewrite Hpad, Hp, H0, H1, H2. by destruct pad as [|[|[|]]]; [..|lia].
Qed.

Lemma filter_symbols zs l :
  List.filter (λ b, bool_decide (b = x3d)) (map symbol zs ++ l) = List.filter (λ b, bool_decide (b = x3d)) l.
Proof.
  induction zs as [|z zs IH]; [done|]. simpl. by rewrite bool_decide_false by apply symbol_sextet.
Qed.

Lemma symbols_clean zs : Forall (λ x, is_ascii_whitespace x = false) (map symbol zs).
Proof. induction zs; constructor; [apply symbol_sextet|done]. Qed.

Lemma decode_encode_chunk chunk :
  (1 ≤ length chunk ≤ 3)%nat →
  ∃ a b c d, encode_chunk chunk = [a; b; c; d] ∧ decode_chunk [a; b; c; d] = Some chunk ∧
    Forall (λ x, is_ascii_whitespace x = false) [a; b; c; d].
Proof.
  intros Hl. unfold encode_chunk. destruct chunk as [|b0 [|b1 [|b2 [|]]]]; cbn [length] in Hl; try lia;
    cbn [nth length]; cbn [Nat.ltb Nat.leb].
  - destruct (word_of b0 x00 x00) as [Hn Hr]. set (n := Z.lor _ _) in *. eexists _, _, _, _. split; [reflexivity|].
    change (b2z x00) with 0 in Hn. split.
    + pose proof (pack_symbols n Hr) as Hp.
      change (pack 0 ([symbol (Z.shiftr n 18); symbol (Z.shiftr n 12); symbol (Z.shiftr n 6)] ++ [symbol n]) = Some n) in Hp.
      rewrite <- (pack_pad [symbol (Z.shiftr n 18); symbol (Z.shiftr n 12); symbol (Z.shiftr n 6)] 0 n []) in Hp
        by (rewrite Hn; Z.div_mod_to_equations; lia).
      change (pack 0 ([symbol (Z.shiftr n 18); symbol (Z.shiftr n 12)] ++ symbol (Z.shiftr n 6) :: [x3d]) = Some n) in Hp.
      rewrite <- (pack_pad [symbol (Z.shiftr n 18); symbol (Z.shiftr n 12)] 0 (Z.shiftr n 6) [x3d]) in Hp
        by (rewrite Z.shiftr_div_pow2 by lia; change (2 ^ 6) with 64; rewrite Hn; Z.div_mod_to_equations; lia).
      apply (decode_chunk_pack _ n 2 b0 x00 x00); [|lia|exact Hp|done].
      exact (f_equal length (filter_symbols [Z.shiftr n 18; Z.shiftr n 12] [x3d; x3d])).
    + apply (Forall_app_2 _ (map symbol [_; _]) [x3d; x3d]); [apply symbols_clean|by repeat constructor].
  - destruct (word_of b0 b1 x00) as [Hn Hr]. set (n := Z.lor _ _) in *. eexists _, _, _, _. split; [reflexivity|].
    change (b2z x00) with 0 in Hn. split.
    + pose proof (pack_symbols n Hr) as Hp.
      change (pack 0 ([symbol (Z.shiftr n 18); symbol (Z.shiftr n 12); symbol (Z.shiftr n 6)] ++ [symbol n]) = Some n) in Hp.
      rewrite <- (pack_pad [symbol (Z.shiftr n 18); symbol (Z.shiftr n 12); symbol (Z.shiftr n 6)] 0 n []) in Hp
        by (rewrite Hn; Z.div_mod_to_equations; lia).
      apply (decode_chunk_pack _ n 1 b0 b1 x00); [|lia|exact Hp|done].
      exact (f_equal length (filter_symbols [Z.shiftr n 18; Z.shiftr n 12; Z.shiftr n 6] [x3d])).
    + apply (Forall_app_2 _ (map symbol [_; _; _]) [x3d]); [apply symbols_clean|by repeat constructor].
  - destruct (word_of b0 b1 b2) as [Hn Hr]. set (n := Z.lor _ _) in *. eexists _, _, _, _. split; [reflexivity|].
    split; [|apply (symbols_clean [_; _; _; _])].
    apply (decode_chunk_pack _ n 0 b0 b1 b2); [|lia|by apply pack_symbols|done].
    exact (f_equal length (filter_symbols [Z.shiftr n 18; Z.shiftr n 12; Z.shiftr n 6; n] [])).
Qed.

(** The encoding is a sequence of whole chunks that decode to the input. *)
Lemma base64_chunks fuel input :
  (length input ≤ fuel)%nat →
  decode_chunks (base64_encode input) = Some input ∧ blen (base64_encode input) mod 4 = 0 ∧
  Forall (λ x, is_ascii_whitespace x = false) (base64_encode input).
Proof.
  assert (Hone : ∀ chunk, (1 ≤ length chunk ≤ 3)%nat → base64_encode chunk = encode_chunk chunk →
    decode_chunks (base64_encode chunk) = Some chunk ∧ blen (base64_encode chunk) mod 4 = 0 ∧
    Forall (λ x, is_ascii_whitespace x = false) (base64_encode chunk)).
  { intros chunk Hl ->. destruct (decode_encode_chunk chunk Hl) as (a & b & c & d & -> & Hd & Hw).
    cbn [decode_chunks]. by rewrite Hd, app_nil_r. }
  revert input. induction fuel as [|fuel IH]; intros input Hf.
  { by destruct input; [|cbn [length] in Hf; lia]. }
  destruct input as [|b0 [|b1 [|b2 rest]]]; [done|by apply Hone; [cbn [length]; lia|]..|].
  destruct (IH rest) as (H1 & H2 & H3); [cbn [length] in Hf; lia|].
  destruct (decode_encode_chunk [b0; b1; b2]) as (a & b & c & d & E & Hd & Hw); [cbn [length]; lia|].
  change (base64_encode (b0 :: b1 :: b2 :: rest)) with (encode_chunk [b0; b1; b2] ++ base64_encode rest).
  rewrite E. split_and!.
  - cbn [app decode_chunks]. by rewrite Hd, H1.
  - rewrite blen_app. change (blen [a; b; c; d]) with (1 * 4). by rewrite Z.add_comm, Z.mod_add.
  - by apply Forall_app_2.
Qed.

(** Base64 loses nothing: every key and value the dashboard sends out, binary or not, decodes to exactly the bytes it was. *)
Theorem base64_roundtrip (input : bytes) : base64_decode (base64_encode input) = Some input.
Proof.
  destruct (base64_chunks (length input) input) as (H1 & H2 & H3); [done|]. unfold base64_decode.
  assert (Hf : List.filter (λ b, negb (is_ascii_whitespace b)) (base64_encode input) = base64_encode input).
  { clear -H3. induction H3 as [|x l Hx _ IH]; [done|]. simpl. by rewrite Hx, IH. }
  rewrite Hf. case_bool_decide as Hnil; [rewrite Hnil in H1; exact H1|]. by rewrite H2.
Qed.

(** ** Reading JSON strings *)

(** A string literal of RFC 8259 at the head of the text, past its opening quote:
    its characters and what follows. [\u] escapes are read for ASCII. *)
Fixpoint json_chars (s : bytes) : option (bytes * bytes) :=
  let cons_to (c : byte) (r : option (bytes * bytes)) :=
    match r with Some (t, rest) => Some (c :: t, rest) | None => None end in
  match s with
  | [] => None
  | c :: s1 =>
      if bool_decide (c = x22) then Some ([], s1)
      else if bool_decide (c = x5c) then
        match s1 with
        | [] => None
        | e :: s2 =>
            if bool_decide (e = x22) then cons_to x22 (json_chars s2)
            else if bool_decide (e = x5c) then cons_to x5c (json_chars s2)
            else if bool_decide (e = x2f) then cons_to x2f (json_chars s2)
            else if bool_decide (e = x62) then cons_to x08 (json_chars s2)
            else if bool_decide (e = x66) then cons_to x0c (json_chars s2)
            else if bool_decide (e = x6e) then cons_to x0a (json_chars s2)
            else if bool_decide (e = x72) then cons_to x0d (json_chars s2)
            else if bool_decide (e = x74) then cons_to x09 (json_chars s2)
            else if bool_decide (e = x75) then
              match s2 with
              | h3 :: h2 :: h1 :: h0 :: s3 =>
                  match to_digit16 h3, to_digit16 h2, to_digit16 h1, to_digit16 h0 with
                  | Some h3, Some h2, Some h1, Some h0 =>
                      let code := ((h3 * 16 + h2) * 16 + h1) * 16 + h0 in
                      if code <? 128 then cons_to (z2b code) (json_chars s3) else None
                  | _, _, _, _ => None
                  end
              | _ => None
              end
            else None
        end
      else if b2z c <? 32 then None
      else cons_to c (json_chars s1)
  end.

Definition json_read (s : bytes) : option (bytes * bytes) :=
  match s with
  | c :: s => if bool_decide (c = x22) then json_chars s else None
  | [] => None
  end.

Lemma json_chars_escape c rest :
  json_chars (json_escape c ++ rest)
  = match json_chars rest with Some (t, r) => Some (c :: t, r) | None => None end.
Proof. by destruct c. Qed.

Lemma json_chars_flat s rest : json_chars (flat_map json_escape s ++ x22 :: rest) = Some (s, rest).
Proof.
  induction s as [|c s IH]; [done|]. cbn [flat_map]. by rewrite <- app_assoc, json_chars_escape, IH.
Qed.

(** A JSON string the dashboard writes is one literal with exactly the text it was
    given, and what follows is untouched. *)
Lemma json_string_read s rest : json_read (json_string s ++ rest) = Some (s, rest).
Proof.
  unfold json_string. cbn [app json_read]. rewrite bool_decide_true by done.
  rewrite <- app_assoc. apply json_chars_flat.
Qed.

(** ** Reading forms *)

(** Every byte as a percent escape. *)
Definition percent (s : bytes) : bytes :=
  flat_map (λ b, [x25; hex_digit (b2z b / 16); hex_digit (b2z b mod 16)]) s.

Lemma url_bytes_percent s : url_bytes (percent s) = s.
Proof.
  induction s as [|b s IH]; [done|]. cbn [percent flat_map app].
  change (flat_map _ s) with (percent s). rewrite <- IH at 2. by destruct b.
Qed.

Lemma percent_clean s c : (c = x26 ∨ c = x3d) → c ∉ percent s.
Proof.
  intros Hc. induction s as [|b s IH]; [by apply not_elem_of_nil|]. cbn [percent flat_map].
  rewrite elem_of_app. intros [Hin|Hin]; [|by apply IH]. revert Hin. clear IH.
  rewrite !elem_of_cons, elem_of_nil. destruct Hc as [-> | ->]; intros [|[|[|]]]; try done; by destruct b.
Qed.

Lemma split_on_none sep s : sep ∉ s → split_on sep s = [s].
Proof.
  induction s as [|c s IH]; [done|]. intros Hn. apply not_elem_of_cons in Hn as [Hc Hn]. simpl.
  by rewrite bool_decide_false, IH by congruence.
Qed.
Lemma split_once_first sep k v : sep ∉ k → split_once sep (k ++ sep :: v) = Some (k, v).
Proof.
  induction k as [|c k IH]; simpl; [by rewrite bool_decide_true|].
  intros Hn. apply not_elem_of_cons in Hn as [Hc Hn]. by rewrite bool_decide_false, IH by congruence.
Qed.

(** A form with one field. *)
Definition form_body (k v : bytes) : bytes := percent k ++ x3d :: percent v.

Lemma parse_query_form k v : parse_query (form_body k v) = {[ utf8_lossy k := utf8_lossy v ]}.
Proof.
  unfold parse_query, form_body. rewrite split_on_none.
  2:{ rewrite elem_of_app, elem_of_cons. intros [Hin|[Hin|Hin]]; [|done|];
      revert Hin; apply percent_clean; auto. }
  cbn [fold_left]. unfold parse_pair. rewrite bool_decide_false by (by destruct (percent k)).
  rewrite split_once_first by (apply percent_clean; auto). unfold url_decode. by rewrite !url_bytes_percent.
Qed.

(** ** Reading command lines *)

(** An argument in quotes, with quotes and backslashes escaped; and a whole line. *)
Definition quote_arg (a : bytes) : bytes :=
  x22 :: flat_map (λ b, if bool_decide (b = x22) || bool_decide (b = x5c) then [x5c; b] else [b]) a ++ [x22].
Fixpoint quote_argv (argv : list bytes) : bytes :=
  match argv with
  | [] => []
  | a :: argv => quote_arg a ++ x20 :: quote_argv argv
  end.

Lemma lex_quoted a rest ws cur :
  lex (flat_map (λ b, if bool_decide (b = x22) || bool_decide (b = x5c) then [x5c; b] else [b]) a ++ x22 :: rest)
    {| lx_argv := ws; lx_cur := cur; lx_in_token := true; lx_in_quotes := true |}
  = lex rest {| lx_argv := ws; lx_cur := cur ++ a; lx_in_token := true; lx_in_quotes := false |}.
Proof.
  revert cur. induction a as [|b a IH]; intros cur; [by rewrite app_nil_r|].
  rewrite (cons_middle b cur a), app_assoc, <- IH. cbn [flat_map].
  destruct (bool_decide (b = x22) || bool_decide (b = x5c)) eqn:E; [done|].
  apply orb_false_elim in E as [E1 E2]. cbn [app lex lx_in_quotes]. rewrite E1, E2. cbn.
  by destruct (_ ++ _).
Qed.

(** What the user quotes is what the command gets. *)
Lemma tokenize_quoted argv : tokenize_command (quote_argv argv) = Some argv.
Proof.
  unfold tokenize_command.
  assert (Hl : ∀ ws, lex (quote_argv argv) {| lx_argv := ws; lx_cur := []; lx_in_token := false; lx_in_quotes := false |}
    = {| lx_argv := ws ++ argv; lx_cur := []; lx_in_token := false; lx_in_quotes := false |}).
  { induction argv as [|a argv IH]; intros ws; [by rewrite app_nil_r|].
    cbn [quote_argv]. unfold quote_arg. cbn [app lex lx_in_quotes]. rewrite <- app_assoc. cbn [app].
    rewrite lex_quoted. cbn [lex lx_in_quotes]. cbn. rewrite IH, <- app_assoc. done. }
  by rewrite Hl.
Qed.
