(* ===== verification/Dashboard.v ===== *)
(** * The dashboard (src/src/network/dashboard/)

    The HTTP server beside the main one: reading a request within its limits,
    access control, routing, the handlers that read and change keys, the command
    console, and the check that keeps an open dashboard on the loopback address.
    The page at [/] is a parameter; [None] is a panic of the connection's task. *)
From S2P Require Import Prelude Numeric Text Error Floats Encoder Command Parser IndexMap Eviction Entry Sieve AdaptiveClimb Glob Aof ConfigFile Engine WriteGuard Commands EngineInv Server Web.
From Stdlib Require Import ZArith Lia Strings.Byte.
From stdpp Require Import gmap strings numbers list.
Local Open Scope Z_scope.

Definition KEYS_PER_PAGE : Z := 50.
Definition MAX_HEADER_BYTES : Z := 64 * 1024.
Definition MAX_BODY_BYTES : Z := 1024 * 1024.

(** The size of the read buffer of [handle_conn]. *)
Definition READ_CHUNK : Z := 8192.

(** [Request] and [Response]. *)
Record Request := {
  rq_method : bytes;
  rq_path : bytes;
  rq_query : bytes;
  rq_headers : gmap bytes bytes;
  rq_body : bytes;
}.
Record Response := { rs_status : Z; rs_content_type : bytes; rs_body : bytes }.

Definition JSON_TYPE : bytes := str "application/json; charset=utf-8".

(** [Response::ok_json], [text_html], [status_text] and [with_status]. *)
Definition ok_json (body : bytes) : Response :=
  {| rs_status := 200; rs_content_type := JSON_TYPE; rs_body := body |}.
Definition text_html (body : bytes) : Response :=
  {| rs_status := 200; rs_content_type := str "text/html; charset=utf-8"; rs_body := body |}.
Definition status_text (status : Z) : bytes :=
  if status =? 200 then str "OK"
  else if status =? 204 then str "No Content"
  else if status =? 400 then str "Bad Request"
  else if status =? 401 then str "Unauthorized"
  else if status =? 403 then str "Forbidden"
  else if status =? 404 then str "Not Found"
  else if status =? 405 then str "Method Not Allowed"
  else if status =? 408 then str "Request Timeout"
  else if status =? 413 then str "Payload Too Large"
  else if status =? 500 then str "Internal Server Error"
  else str "Unknown".
Definition with_status (status : Z) : Response :=
  {| rs_status := status; rs_content_type := str "text/plain; charset=utf-8";
     rs_body := status_text status |}.

(** A member of a JSON object: [name] in quotes, a colon and [value]. *)
Definition member (name : string) (value : bytes) : bytes := json_string (str name) ++ str ":" ++ value.

(** Values separated by [sep]. *)
Fixpoint joined_by (sep : bytes) (l : list bytes) : bytes :=
  match l with
  | [] => []
  | [x] => x
  | x :: l => x ++ sep ++ joined_by sep l
  end.
Definition object (members : list bytes) : bytes := str "{" ++ joined_by (str ",") members ++ str "}".

(** [json_error] *)
Definition json_error (status : Z) (msg : bytes) : Response :=
  {| rs_status := status; rs_content_type := JSON_TYPE;
     rs_body := object [member "error" (json_string msg)] |}.

(** ** Access control *)

(** [origin_host] *)
Definition origin_host (origin : bytes) : option bytes :=
  rest ← match str_strip_prefix origin (str "http://") with
         | Some rest => Some rest
         | None => str_strip_prefix origin (str "https://")
         end;
  match head (split_on x2f rest) with
  | Some host => if bool_decide (host = []) then None else Some host
  | None => None
  end.

(** The token of a request: [X-Ferrum-Token], or else [Authorization: Bearer]. *)
Definition provided_token (req : Request) : option bytes :=
  match rq_headers req !! str "x-ferrum-token" with
  | Some v => Some v
  | None => v ← rq_headers req !! str "authorization"; str_strip_prefix v (str "Bearer ")
  end.

Definition mutating (method : bytes) : bool :=
  existsb (bytes_eqb method) [str "POST"; str "PUT"; str "DELETE"; str "PATCH"].

(** [authorize]: the refusal, if there is one. *)
Definition authorize (req : Request) (token : option bytes) : option Response :=
  match token with
  | Some expected =>
      if bytes_eqb (rq_path req) (str "/") then None
      else match provided_token req with
           | Some p => if constant_time_eq p expected then None
                       else Some (json_error 401 (str "missing or invalid dashboard token"))
           | None => Some (json_error 401 (str "missing or invalid dashboard token"))
           end
  | None =>
      match rq_headers req !! str "origin" with
      | Some origin =>
          if mutating (rq_method req)
             && negb (bool_decide (origin_host origin = Some (default [] (rq_headers req !! str "host"))))
          then Some (json_error 403 (str "cross-origin request rejected"))
          else None
      | None => None
      end
  end.

(** [check_bind_policy]; [resolve] is [to_socket_addrs]: for each address whether
    it is a loopback one, and its text. *)
Fixpoint first_exposed (addrs : list (bool * bytes)) : option bytes :=
  match addrs with
  | [] => None
  | (is_loopback, resolved) :: addrs => if is_loopback then first_exposed addrs else Some resolved
  end.
Definition check_bind_policy (resolve : bytes → result bytes (list (bool * bytes)))
    (addr : bytes) (token : option bytes) : res () :=
  match token with
  | Some _ => Ok tt
  | None =>
      match resolve addr with
      | Err e => Err (Internal (str "invalid dashboard address '" ++ addr ++ str "': " ++ e))
      | Ok addrs =>
          match first_exposed addrs with
          | Some resolved =>
              Err (Internal (str "refusing to bind the dashboard to non-loopback address " ++ resolved
                             ++ str " without a token; pass --dashboard-token <secret> or use 127.0.0.1"))
          | None => Ok tt
          end
      end
  end.

(** ** Requests *)

(** [find_subsequence] for a needle that is not empty. *)
Fixpoint find_subsequence (hay needle : bytes) : option nat :=
  if bool_decide (take (length needle) hay = needle) then Some 0%nat
  else match hay with
       | [] => None
       | _ :: hay => S <$> find_subsequence hay needle
       end.

Definition HEADER_END : bytes := CRLF ++ CRLF.

(** [strip_prefix_byte] and [trim_ascii]. *)
Definition strip_prefix_byte (slice : bytes) (b : byte) : bytes :=
  match slice with
  | c :: rest => if bool_decide (c = b) then rest else slice
  | [] => slice
  end.
Fixpoint trim_ascii_start (s : bytes) : bytes :=
  match s with
  | c :: rest => if is_ascii_whitespace c then trim_ascii_start rest else s
  | [] => []
  end.
Definition trim_ascii (s : bytes) : bytes := rev (trim_ascii_start (rev (trim_ascii_start s))).

(** [header_value]; [split_byte] is [split_once]. *)
Fixpoint header_in (ls : list bytes) (name_lower : bytes) : option bytes :=
  match ls with
  | [] => None
  | line :: ls =>
      match split_once x3a (strip_prefix_byte line x0d) with
      | Some (k, v) =>
          if eq_ignore_ascii_case (trim_ascii k) name_lower then Some (utf8_lossy (trim_ascii v))
          else header_in ls name_lower
      | None => header_in ls name_lower
      end
  end.
Definition header_value (block name : bytes) : option bytes :=
  header_in (split_on x0a block) (map to_lower name).

Definition content_length_of (block : bytes) : Z :=
  default 0 (header_value block (str "content-length") ≫= parse_usize).

(** One header line of [parse_request]. *)
Definition add_header (headers : gmap bytes bytes) (line : bytes) : gmap bytes bytes :=
  match split_once x3a line with
  | None => headers
  | Some (k, v) =>
      let name := map to_lower (utf8_lossy (trim_ascii k)) in
      let value := utf8_lossy (trim_ascii (strip_prefix_byte (trim_ascii v) x0d)) in
      if bool_decide (name = []) then headers else <[name := value]> headers
  end.

(** [parse_request] *)
Definition parse_request (buf : bytes) : option Request :=
  pos ← find_subsequence buf HEADER_END;
  let header_end := (pos + 4)%nat in
  let header_block := take pos buf in
  match split_on x0a header_block with
  | [] => None
  | request_line :: ls =>
      match split_on x20 request_line with
      | m :: t :: _ =>
          let target := utf8_lossy t in
          let '(path, query) := match split_once x3f target with
                                | Some pq => pq
                                | None => (target, [])
                                end in
          let content_length := content_length_of header_block in
          let body := if Z.of_nat header_end + content_length <=? blen buf
                      then take (Z.to_nat content_length) (drop header_end buf) else [] in
          Some {| rq_method := utf8_lossy m; rq_path := path; rq_query := query;
                  rq_headers := fold_left add_header ls ∅; rq_body := body |}
      | _ => None
      end
  end.

(** ** The console *)

(** [encode_resp_array] *)
Definition encode_resp_array (argv : list bytes) : bytes :=
  str "*" ++ to_string_u (blen argv) ++ CRLF
  ++ flat_map (λ a, str "$" ++ to_string_u (blen a) ++ CRLF ++ a ++ CRLF) argv.

(** [read_line]: the line, and the text after its terminator. *)
Fixpoint until_cr (s : bytes) : bytes * bytes :=
  match s with
  | [] => ([], [])
  | c :: s1 =>
      if bool_decide (c = x0d) then ([], s)
      else let '(l, rest) := until_cr s1 in (c :: l, rest)
  end.
Definition read_line (s : bytes) : bytes * bytes :=
  let '(l, rest) := until_cr s in (utf8_lossy l, drop 2 rest).

(** [decode_one]: the text of the value at the head of [s] and the rest of [s],
    and the loop over the elements of an array. Every value takes a byte, so
    twice the length of the buffer is enough fuel. The code reserves room for the announced
    number of elements, which panics for an absurd one; it only decodes replies of
    [execute_command], whose arrays announce what they hold, and the model leaves it out. *)
Fixpoint decode_one (fuel : nat) (s : bytes) : option (bytes * bytes) :=
  match fuel, s with
  | S fuel, marker :: s =>
      if bool_decide (marker = x2b) then Some (read_line s)
      else if bool_decide (marker = x2d) then
        let '(l, rest) := read_line s in Some (str "(error) " ++ l, rest)
      else if bool_decide (marker = x3a) then Some (read_line s)
      else if bool_decide (marker = x24) then
        let '(l, rest) := read_line s in
        len ← parse_i64 l;
        if len <? 0 then Some (str "(nil)", rest)
        else if blen rest <? len + 2 then None
        else Some (utf8_lossy (take (Z.to_nat len) rest), drop (Z.to_nat len + 2) rest)
      else if bool_decide (marker = x2a) then
        let '(l, rest) := read_line s in
        count ← parse_i64 l;
        if count <? 0 then Some (str "(empty array)", rest)
        else
          '(parts, rest) ← decode_many fuel count rest;
          Some (joined_by [x0a] parts, rest)
      else None
  | _, _ => None
  end
with decode_many (fuel : nat) (count : Z) (s : bytes) : option (list bytes * bytes) :=
  if count <=? 0 then Some ([], s)
  else match fuel with
       | O => None
       | S fuel =>
           '(part, s) ← decode_one fuel s;
           '(parts, s) ← decode_many fuel (count - 1) s;
           Some (part :: parts, s)
       end.

(** [decode_resp] *)
Definition decode_resp (buf : bytes) : bytes :=
  match decode_one (2 * length buf + 2) buf with
  | Some (text, _) => text
  | None => utf8_lossy buf
  end.

(** ** Handlers *)

(** What the outside supplies to one request: the clocks of its engine calls in
    order, its own reading of the wall clock, the uptime in seconds, and what the
    executed command sees. *)
Record DashEnv := {
  de_env : nat → Env;
  de_now_ms : Z;
  de_uptime : Z;
  de_cmd : CmdEnv;
}.

(** [items.trim_end_matches(',')] *)
Fixpoint drop_commas (s : bytes) : bytes :=
  match s with
  | c :: rest => if bool_decide (c = x2c) then drop_commas rest else s
  | [] => []
  end.
Definition trim_end_commas (s : bytes) : bytes := rev (drop_commas (rev s)).

(** [i64::saturating_mul] *)
Definition sat_mul_i64 (a b : Z) : Z := Z.max i64_min (Z.min (a * b) i64_max).

(** [form_bytes] *)
Definition form_bytes (form : gmap bytes bytes) (field : bytes) : option bytes :=
  match form !! (field ++ str "_b64") with
  | Some b64 => base64_decode b64
  | None => form !! field
  end.

(** [parse_query(std::str::from_utf8(body).unwrap_or(""))] *)
Definition body_form (body : bytes) : gmap bytes bytes :=
  parse_query (if utf8_valid body then body else []).

Section dashboard.
Context `{IndexMap} `{HashIter} (INDEX_HTML : bytes) (de : DashEnv).

(** A call whose error becomes a value, [unwrap_or] and the like. *)
Definition or_default {A} (d : A) (m : SE Engine FerrumError A) : Engine → A * Engine := λ e,
  let '(r, e) := m e in (match r with Ok a => a | Err _ => d end, e).

Definition ttl_number (r : res TtlStatus) : Z := match r with Ok (Millis ms) => ms | _ => -1 end.

(** [info_json] *)
Definition info_json (e : Engine) : bytes * Engine :=
  let cfg := e_eviction e in
  let '(total, e) := or_default 0 (dbsize (de_env de 0)) e in
  let '((expires, avg_ttl), e) := or_default (0, 0) (expire_stats (de_env de 1)) e in
  let sum := wrap64 (e_hits e + e_misses e) in
  let hit_ratio := if 0 <? sum then F64.div (F64.of_Z (e_hits e)) (F64.of_Z sum) else F64.zero in
  (object [
     member "version" (x22 :: PKG_VERSION ++ [x22]);
     member "uptime_sec" (to_string_u (de_uptime de));
     member "keys" (to_string_u total);
     member "used_memory" (to_string_u (e_used_memory e));
     member "max_memory" (to_string_u (max_memory cfg));
     member "eviction_policy" (x22 :: policy_name (policy cfg) ++ [x22]);
     member "hits" (to_string_u (e_hits e));
     member "misses" (to_string_u (e_misses e));
     member "hit_ratio" (F64.fixed 4 hit_ratio);
     member "ahe_alpha" (F64.fixed 3 (alpha (e_ahe e)));
     member "ahe_hit_ratio" (F64.fixed 3 (last_hit_ratio (e_ahe e)));
     member "expires" (to_string_u expires);
     member "avg_ttl_ms" (to_string_u avg_ttl)], e).

(** One round of the loop of [keys_json]. *)
Definition key_item (key : bytes) (ttl : Z) : bytes :=
  object [
    member "key" (if utf8_valid key then json_string key else str "null");
    member "key_b64" (json_string (base64_encode key));
    member "binary_key" (if utf8_valid key then str "false" else str "true");
    member "type" (json_string (str "string"));
    member "ttl_ms" (to_string_i ttl)].

Fixpoint key_items (i : nat) (keys : list bytes) (e : Engine) : bytes * Engine :=
  match keys with
  | [] => ([], e)
  | key :: keys =>
      let '(ttl, e) := ttl_ms (de_env de i) key e in
      let '(items, e) := key_items (S i) keys e in
      (key_item key (ttl_number ttl) ++ str "," ++ items, e)
  end.

(** [keys_json] *)
Definition keys_json (query : bytes) (e : Engine) : bytes * Engine :=
  let params := parse_query query in
  let filter := default (str "*") (params !! str "filter") in
  let limit := default KEYS_PER_PAGE (params !! str "limit" ≫= parse_usize) in
  let offset := default 0 (params !! str "offset" ≫= parse_usize) in
  let '(all, e) := or_default [] (scan_keys (de_env de 0) filter) e in
  let total := blen all in
  let slice_start := Z.min offset total in
  let slice_end := Z.min (sat_add_u64 offset limit) total in
  let page := take (Z.to_nat (slice_end - slice_start)) (drop (Z.to_nat slice_start) all) in
  let '(items, e) := key_items 1 page e in
  (object [
     member "total" (to_string_u total);
     member "count" (to_string_u (slice_end - slice_start));
     member "offset" (to_string_u offset);
     member "keys" (str "[" ++ trim_end_commas items ++ str "]")], e).

(** [key_detail] *)
Definition key_detail (key : bytes) (e : Engine) : Response * Engine :=
  let '(r, e) := get (de_env de 0) key e in
  match r with
  | Ok (Some value) =>
      let '(ttl, e) := ttl_ms (de_env de 1) key e in
      (ok_json (object (
         [ member "key" (json_string (utf8_lossy key));
           member "key_b64" (json_string (base64_encode key));
           member "type" (json_string (str "string")) ]
         ++ (if utf8_valid value
             then [member "value" (json_string value); member "binary" (str "false")]
             else [member "value" (str "null"); member "binary" (str "true");
                   member "value_b64" (json_string (base64_encode value))])
         ++ [ member "bytes" (to_string_u (blen value));
              member "ttl_ms" (to_string_i (ttl_number ttl)) ])), e)
  | Ok None => (json_error 404 (str "key not found"), e)
  | Err x => (json_error 500 (display x), e)
  end.

(** [apply_ttl] *)
Definition apply_ttl (key ttl_str : bytes) (e : Engine) : Engine :=
  match parse_i64 ttl_str with
  | Some ttl =>
      if 0 <? ttl then
        (expire_at_ms (de_env de 1) key (sat_add_i64 (de_now_ms de) (sat_mul_i64 ttl 1000)) e).2
      else if ttl =? 0 then (persist (de_env de 1) key e).2
      else e
  | None => e
  end.

(** [create_key] *)
Definition create_key (body : bytes) (e : Engine) : Response * Engine :=
  let form := body_form body in
  match form_bytes form (str "key") with
  | None | Some [] => (json_error 400 (str "missing 'key'"), e)
  | Some key =>
      let value := default [] (form_bytes form (str "value")) in
      match set (de_env de 0) key value e with
      | (Err x, e) => (json_error 500 (display x), e)
      | (Ok _, e) =>
          (ok_json (object [member "ok" (str "true"); member "key" (json_string (utf8_lossy key))]),
           match form !! str "ttl" with Some ttl_str => apply_ttl key ttl_str e | None => e end)
      end
  end.

(** [update_key] *)
Definition update_key (key body : bytes) (e : Engine) : Response * Engine :=
  let form := body_form body in
  match form_bytes form (str "value") with
  | None => (json_error 400 (str "missing 'value'"), e)
  | Some value =>
      match set (de_env de 0) key value e with
      | (Err x, e) => (json_error 500 (display x), e)
      | (Ok _, e) =>
          (ok_json (object [member "ok" (str "true")]),
           match form !! str "ttl" with Some ttl_str => apply_ttl key ttl_str e | None => e end)
      end
  end.

(** [delete_key] *)
Definition delete_key (key : bytes) (e : Engine) : Response * Engine :=
  match del (de_env de 0) key e with
  | (Ok true, e) => (ok_json (object [member "deleted" (str "true")]), e)
  | (Ok false, e) => (ok_json (object [member "deleted" (str "false")]), e)
  | (Err x, e) => (json_error 500 (display x), e)
  end.

(** [run_command] of the dashboard. *)
Definition run_console (body : bytes) (e : Engine) : option (Response * Engine) :=
  match body_form body !! str "command" with
  | None => Some (json_error 400 (str "missing 'command'"), e)
  | Some command =>
      match tokenize_command command with
      | None | Some [] => Some (json_error 400 (str "empty command"), e)
      | Some argv =>
          match parse_frame (encode_resp_array argv) with
          | Ok (Complete parsed _) =>
              match execute_command (de_cmd de) parsed None Resp2 (e, []) with
              | Some (e, out) =>
                  Some (ok_json (object [member "ok" (str "true");
                                         member "response" (json_string (decode_resp out))]), e)
              | None => None
              end
          | Ok (Invalid error _) => Some (json_error 400 (display error), e)
          | Ok Incomplete => Some (json_error 400 (str "incomplete command"), e)
          | Err x => Some (json_error 400 (display x), e)
          end
      end
  end.

(** [route] *)
Definition route (req : Request) (e : Engine) : option (Response * Engine) :=
  let is_method m := bytes_eqb (rq_method req) (str m) in
  let path := rq_path req in
  let not_allowed := Some (with_status 405, e) in
  if bytes_eqb path (str "/") then
    if is_method "GET" then Some (text_html INDEX_HTML, e) else not_allowed
  else if bytes_eqb path (str "/api/info") then
    if is_method "GET" then let '(j, e) := info_json e in Some (ok_json j, e) else not_allowed
  else if bytes_eqb path (str "/api/keys") then
    if is_method "GET" then let '(j, e) := keys_json (rq_query req) e in Some (ok_json j, e)
    else if is_method "POST" then Some (create_key (rq_body req) e)
    else not_allowed
  else if bytes_eqb path (str "/api/command") then
    if is_method "POST" then run_console (rq_body req) e else not_allowed
  else match str_strip_prefix path (str "/api/keys/") with
       | Some raw =>
           let key := url_decode raw in
           if is_method "GET" then Some (key_detail key e)
           else if is_method "DELETE" then Some (delete_key key e)
           else if is_method "POST" || is_method "PUT" then Some (update_key key (rq_body req) e)
           else not_allowed
       | None => Some (with_status 404, e)
       end.

(** ** Connections *)

(** [write_response]: the bytes written. *)
Definition write_response (resp : Response) : bytes :=
  str "HTTP/1.1 " ++ to_string_u (rs_status resp) ++ str " " ++ status_text (rs_status resp) ++ CRLF
  ++ str "Content-Type: " ++ rs_content_type resp ++ CRLF
  ++ str "Content-Length: " ++ to_string_u (blen (rs_body resp)) ++ CRLF
  ++ str "X-Content-Type-Options: nosniff" ++ CRLF
  ++ str "X-Frame-Options: DENY" ++ CRLF
  ++ str "Referrer-Policy: no-referrer" ++ CRLF
  ++ str "Cache-Control: no-store" ++ CRLF
  ++ str "Connection: close" ++ CRLF ++ CRLF
  ++ rs_body resp.

(** What [read_with_timeout] answers: a chunk (empty at the end of the stream), an
    error, or nothing because of a shutdown or the timeout. *)
Inductive Read := RChunk (chunk : bytes) | RError (m : bytes) | RNone.

(** How a connection ends: quietly, with an error, with an answer, by a panic, or
    not yet, with what has been received so far. *)
Inductive ConnEnd := Quiet | Broken (x : FerrumError) | Answered (out : bytes) | Panicked | Waiting (buf : bytes).

(** Phase 1 of [handle_conn]; [stop i] is what round [i] sees of the shutdown
    flag. The result is how it ended, or the end of the header with the buffer, the
    rounds and the reads that are left. *)
Fixpoint read_header (stop : nat → bool) (i : nat) (buf : bytes) (reads : list Read)
    : ConnEnd + (nat * bytes * nat * list Read) :=
  if stop i then inl Quiet
  else match find_subsequence buf HEADER_END with
  | Some pos => inr ((pos + 4)%nat, buf, S i, reads)
  | None =>
      if MAX_HEADER_BYTES <? blen buf then inl (Answered (write_response (with_status 400)))
      else match reads with
           | [] => inl (Waiting buf)
           | RChunk [] :: _ => inl Quiet
           | RChunk chunk :: reads => read_header stop (S i) (buf ++ chunk) reads
           | RError m :: _ => inl (Broken (IoError m))
           | RNone :: _ => inl Quiet
           end
  end.

(** Phase 2: the body. *)
Fixpoint read_body (stop : nat → bool) (i : nat) (want : Z) (buf : bytes) (reads : list Read)
    : ConnEnd + bytes :=
  if want <=? blen buf then inr buf
  else if stop i then inl Quiet
  else match reads with
       | [] => inl (Waiting buf)
       | RChunk [] :: _ => inr buf
       | RChunk chunk :: reads => read_body stop (S i) want (buf ++ chunk) reads
       | RError m :: _ => inl (Broken (IoError m))
       | RNone :: _ => inl Quiet
       end.

(** The bytes of a request, within the limits. *)
Definition receive (stop : nat → bool) (reads : list Read) : ConnEnd + bytes :=
  match read_header stop 0 [] reads with
  | inl x => inl x
  | inr (header_end, buf, i, reads) =>
      let content_length := content_length_of (take header_end buf) in
      if MAX_BODY_BYTES <? content_length then inl (Answered (write_response (with_status 413)))
      else read_body stop i (Z.of_nat header_end + content_length) buf reads
  end.

(** [handle_conn] *)
Definition handle_conn (stop : nat → bool) (token : option bytes) (reads : list Read) (e : Engine)
    : ConnEnd * Engine :=
  match receive stop reads with
  | inl x => (x, e)
  | inr buf =>
      match parse_request buf with
      | None => (Answered (write_response (with_status 400)), e)
      | Some req =>
          match authorize req token with
          | Some denied => (Answered (write_response denied), e)
          | None =>
              match route req e with
              | Some (resp, e) => (Answered (write_response resp), e)
              | None => (Panicked, e)
              end
          end
      end
  end.

End dashboard.
