(* ===== verification/DashboardProps.v ===== *)
(** * What the dashboard promises

    Who may change the store through it, how much a client can make it hold, that
    every JSON body is well formed, and that the console runs a command line the
    way a client of the main server would. *)
From S2P Require Import Prelude Numeric Text Error Floats Encoder Command Parser IndexMap Eviction Entry Sieve AdaptiveClimb Glob Aof ConfigFile Engine WriteGuard Commands EngineInv Server Reachable Connection Web Dashboard.
From Stdlib Require Import ZArith Lia Strings.Byte SpecFloat.
From stdpp Require Import gmap strings numbers list.
Local Open Scope Z_scope.

(** ** Access *)

(** The browser page the request came from is the dashboard's own. *)
Definition same_origin (req : Request) : Prop :=
  ∀ origin, rq_headers req !! str "origin" = Some origin →
    origin_host origin = Some (default [] (rq_headers req !! str "host")).

(** What lets a request through. *)
Definition admitted (token : option bytes) (req : Request) : Prop :=
  match token with
  | Some t => provided_token req = Some t
  | None => mutating (rq_method req) = true → same_origin req
  end.

Section access.
Context `{IndexMap} `{HashIter} (INDEX_HTML : bytes) (de : DashEnv).

Lemma authorize_admits req token :
  authorize req token = None → admitted token req ∨ (token ≠ None ∧ rq_path req = str "/").
Proof using Type.
  unfold authorize, admitted. destruct token as [t|].
  - destruct (bytes_eqb (rq_path req) (str "/")) eqn:E; [right; split; [done|by apply bytes_eqb_eq]|].
    destruct (provided_token req) as [p|]; [|done]. rewrite constant_time_eq_spec.
    destruct (bytes_eqb p t) eqn:Ep; [|done]. apply bytes_eqb_eq in Ep as ->. by left.
  - intros Ha. left. intros Hm origin Ho. rewrite Ho, Hm in Ha. simpl in Ha.
    by case_bool_decide.
Qed.

Lemma route_page req e r e' :
  rq_path req = str "/" → route INDEX_HTML de req e = Some (r, e') → e' = e.
Proof using Type.
  intros Hp. unfold route. rewrite Hp, bytes_eqb_refl. destruct (bytes_eqb _ _); by intros [= _ <-].
Qed.

(** C21: Who can change the store through the dashboard: with a token configured, only a request that presents exactly that token; without one, no page of another origin can, by POST, PUT, DELETE or PATCH. Whatever bytes arrive, however they are split and however the connection ends, every other connection leaves the engine exactly as it was. *)
Theorem dashboard_access stop token reads e :
  (handle_conn INDEX_HTML de stop token reads e).2 = e ∨
  ∃ buf req, receive stop reads = inr buf ∧ parse_request buf = Some req ∧ admitted token req.
Proof using Type.
  unfold handle_conn. destruct (receive stop reads) as [x|buf]; [by left|].
  destruct (parse_request buf) as [req|] eqn:Ep; [|by left].
  destruct (authorize req token) eqn:Ea; [by left|].
  destruct (authorize_admits _ _ Ea) as [Hadm|[_ Hpage]]; [right; eauto|].
  left. destruct (route INDEX_HTML de req e) as [[r e']|] eqn:Er; [|done]. by eapply route_page.
Qed.
End access.

(** An empty token, which a configuration file can set, is presented by an empty header. *)
Example empty_token_admits (method path query body : bytes) :
  authorize {| rq_method := method; rq_path := path; rq_query := query;
               rq_headers := <[str "x-ferrum-token" := []]> ∅; rq_body := body |} (Some []) = None.
Proof. unfold authorize, provided_token. cbn [rq_headers rq_path]. rewrite lookup_insert_eq. by case_match. Qed.

(** ** Limits *)

(** Reads of at most the size of the read buffer. *)
Definition fits_chunk (r : Read) : Prop := match r with RChunk c => blen c ≤ READ_CHUNK | _ => True end.

Lemma find_subsequence_bound hay needle pos :
  find_subsequence hay needle = Some pos → (pos + length needle ≤ length hay)%nat.
Proof.
  revert pos. induction hay as [|c hay IH]; intros pos; cbn [find_subsequence]; case_bool_decide as Hb.
  - intros [= <-]. rewrite <- Hb, length_take. lia.
  - done.
  - intros [= <-]. rewrite <- Hb, length_take. lia.
  - destruct (find_subsequence hay needle) as [p|]; [|done]. intros [= <-]. specialize (IH p eq_refl). simpl. lia.
Qed.

Lemma read_header_bound stop i buf reads :
  Forall fits_chunk reads → blen buf ≤ MAX_HEADER_BYTES + READ_CHUNK →
  match read_header stop i buf reads with
  | inl (Waiting buf) => blen buf ≤ MAX_HEADER_BYTES
  | inr (header_end, buf, _, reads) =>
      blen buf ≤ MAX_HEADER_BYTES + READ_CHUNK ∧ Z.of_nat header_end ≤ blen buf ∧ Forall fits_chunk reads
  | _ => True
  end.
Proof.
  revert i buf. induction reads as [|r reads IH]; intros i buf Hf Hb; cbn [read_header];
    (destruct (stop i); [done|]); destruct (find_subsequence buf HEADER_END) as [pos|] eqn:E.
  1,3: apply find_subsequence_bound in E; change (length HEADER_END) with 4%nat in E; unfold blen in *;
       split_and!; [done|lia|done].
  - destruct (_ <? blen buf) eqn:El; [done|]. by bool_to_prop.
  - destruct (_ <? blen buf) eqn:El; [done|]. bool_to_prop. apply Forall_cons in Hf as [Hr Hf].
    destruct r as [[|c chunk]|m|]; try done. apply IH; [done|]. rewrite blen_app. simpl in Hr. lia.
Qed.

Lemma read_body_bound stop i want buf reads :
  Forall fits_chunk reads → blen buf ≤ want + READ_CHUNK →
  match read_body stop i want buf reads with
  | inl (Waiting buf) => blen buf < want
  | inr buf => blen buf ≤ want + READ_CHUNK
  | _ => True
  end.
Proof.
  revert i buf. induction reads as [|r reads IH]; intros i buf Hf Hb; cbn [read_body];
    (destruct (want <=? blen buf) eqn:Ew; [by bool_to_prop|]); bool_to_prop; (destruct (stop i); [done|]); [done|].
  apply Forall_cons in Hf as [Hr Hf]. destruct r as [[|c chunk]|m|]; try done.
  apply IH; [done|]. rewrite blen_app. simpl in Hr. lia.
Qed.

(** A client cannot make the dashboard hold more than about a megabyte: at every point of a connection, whatever is sent and announced, the buffer holds at most the largest header, the largest body and two reads, and a request that is handed on is no larger. *)
Theorem dashboard_buffer_bounded stop reads :
  Forall fits_chunk reads →
  match receive stop reads with
  | inl (Waiting buf) | inr buf => blen buf ≤ MAX_HEADER_BYTES + MAX_BODY_BYTES + 2 * READ_CHUNK
  | _ => True
  end.
Proof.
  intros Hf. unfold receive.
  pose proof (read_header_bound stop 0 [] reads Hf ltac:(by vm_compute)) as Hh.
  destruct (read_header stop 0 [] reads) as [[]|[[[header_end buf] i] reads']]; try done.
  { unfold MAX_HEADER_BYTES, MAX_BODY_BYTES, READ_CHUNK in *. lia. }
  destruct Hh as (Hb & He & Hf'). set (n := content_length_of _).
  destruct (MAX_BODY_BYTES <? n) eqn:El; [done|]. bool_to_prop.
  assert (Hn : 0 ≤ n).
  { unfold n, content_length_of. destruct (_ ≫= parse_usize) as [z|] eqn:Ez; simpl; [|done].
    apply bind_Some in Ez as (v & _ & Hz). apply parse_unsigned_range in Hz. lia. }
  destruct (decide (blen buf ≤ Z.of_nat header_end + n + READ_CHUNK)) as [Hle|Hgt].
  - pose proof (read_body_bound stop i (Z.of_nat header_end + n) buf reads' Hf' Hle) as Hr.
    destruct (read_body _ _ _ _ _) as [[]|]; try done; unfold MAX_HEADER_BYTES, MAX_BODY_BYTES, READ_CHUNK in *; lia.
  - unfold MAX_HEADER_BYTES, MAX_BODY_BYTES, READ_CHUNK in *.
    destruct reads'; cbn [read_body]; (destruct (_ <=? blen buf) eqn:E; [|bool_to_prop; lia]); lia.
Qed.

(** ** JSON *)

(** An integer part as RFC 8259 has it: digits, without leading zeros. *)
Definition json_digits (ds : bytes) : Prop :=
  ds ≠ [] ∧ Forall (λ b, is_digit b = true) ds ∧ (head ds = Some x30 → ds = [x30]).

(** The JSON texts without whitespace between tokens. *)
Inductive json : bytes → Prop :=
| json_str s t : json_read s = Some (t, []) → json s
| json_int (neg : bool) ds : json_digits ds → json ((if neg then str "-" else []) ++ ds)
| json_frac (neg : bool) ds fs :
    json_digits ds → fs ≠ [] → Forall (λ b, is_digit b = true) fs →
    json ((if neg then str "-" else []) ++ ds ++ str "." ++ fs)
| json_true : json (str "true")
| json_false : json (str "false")
| json_null : json (str "null")
| json_array l : Forall json l → json (str "[" ++ joined_by (str ",") l ++ str "]")
| json_object (ms : list (bytes * bytes)) :
    Forall (λ p, ∃ t, json_read p.1 = Some (t, [])) ms → Forall (λ p, json p.2) ms →
    json (str "{" ++ joined_by (str ",") (map (λ p, p.1 ++ str ":" ++ p.2) ms) ++ str "}").

Create HintDb json discriminated.
#[export] Hint Constants Opaque : json.
#[export] Hint Variables Opaque : json.
#[export] Hint Resolve json_true json_false json_null : json.

Lemma json_string_json s : json (json_string s).
Proof. apply (json_str _ s). rewrite <- (app_nil_r (json_string s)). apply json_string_read. Qed.

(** The members of an object, one at a time. *)
Inductive fields : list bytes → Prop :=
| fields_nil : fields []
| fields_cons name v l : json v → fields l → fields (member name v :: l).
#[export] Hint Resolve fields_nil fields_cons json_string_json : json.

Lemma fields_app l k : fields l → fields k → fields (l ++ k).
Proof. induction 1; simpl; auto with json. Qed.

Lemma object_json l : fields l → json (object l).
Proof.
  intros Hl. assert (∃ ms, l = map (λ p, p.1 ++ str ":" ++ p.2) ms ∧
    Forall (λ p : bytes * bytes, ∃ t, json_read p.1 = Some (t, [])) ms ∧ Forall (λ p : bytes * bytes, json p.2) ms)
    as (ms & -> & Hk & Hv).
  { induction Hl as [|name v l Hv _ (ms & -> & Hk & Hvs)]; [by exists []|].
    exists ((json_string (str name), v) :: ms). split; [done|]. split; constructor; try done.
    exists (str name). cbn [fst]. rewrite <- (app_nil_r (json_string _)). apply json_string_read. }
  by apply json_object.
Qed.

(** ** Numbers *)

Lemma to_string_u_json_digits n : 0 ≤ n → json_digits (to_string_u n).
Proof.
  intros Hn. split; [apply to_string_u_nonempty|]. split; [by apply to_string_u_digits|].
  intros Hh. destruct (decide (n = 0)) as [->|Hne]; [done|]. exfalso.
  by apply (to_string_u_head_pos n) in Hh; [|lia].
Qed.
Lemma to_string_u_json n : 0 ≤ n → json (to_string_u n).
Proof. intros Hn. by apply (json_int false), to_string_u_json_digits. Qed.
Lemma to_string_i_json n : json (to_string_i n).
Proof.
  unfold to_string_i. destruct (n <? 0) eqn:E; bool_to_prop; [|by apply to_string_u_json].
  apply (json_int true), to_string_u_json_digits. lia.
Qed.

Lemma round_half_even_nonneg num den : 0 ≤ num → 0 < den → 0 ≤ F64.round_half_even num den.
Proof.
  intros Hn Hd. unfold F64.round_half_even. pose proof (Z.div_pos num den Hn Hd).
  repeat case_match; lia.
Qed.

Lemma zeros_digits n : Forall (λ b, is_digit b = true) (F64.zeros n).
Proof. unfold F64.zeros. induction (Z.to_nat n); by constructor. Qed.

(** A finite number with a fixed number of decimals is a JSON number. *)
Lemma fixed_json d x : 0 < d → F64.is_finite x = true → json (F64.fixed d x).
Proof.
  intros Hd Hx. destruct x as [s|s| |s m e]; try done; unfold F64.fixed; cbv zeta.
  - apply (json_frac s [x30]); [by split_and!; [|repeat constructor|]| |apply zeros_digits].
    unfold F64.zeros. destruct (Z.to_nat d) eqn:E; [lia|done].
  - set (q := F64.round_half_even _ _).
    assert (Hq : 0 ≤ q).
    { apply round_half_even_nonneg; [|apply Z.pow_pos_nonneg; lia].
      pose proof (Z.pow_nonneg 2 (Z.max e 0)). pose proof (Z.pow_nonneg 10 d). nia. }
    assert (0 < 10 ^ d) by (apply Z.pow_pos_nonneg; lia).
    apply json_frac.
    + apply to_string_u_json_digits. apply Z.div_pos; lia.
    + intros Hnil. apply app_eq_nil in Hnil as [_ Hnil]. by apply to_string_u_nonempty in Hnil.
    + apply Forall_app_2; [apply zeros_digits|]. apply to_string_u_digits, Z.mod_pos_bound. lia.
Qed.
#[export] Hint Resolve to_string_i_json : json.

(** ** Bodies *)

(** Trailing commas: a list printed with one after each element. *)
Lemma drop_commas_last s c : c ≠ x2c → trim_end_commas (s ++ [c]) = s ++ [c].
Proof.
  intros Hc. unfold trim_end_commas. rewrite rev_app_distr. cbn [rev app drop_commas].
  rewrite bool_decide_false by done. cbn [rev]. by rewrite rev_involutive.
Qed.
Lemma trim_end_comma s c : c ≠ x2c → trim_end_commas ((s ++ [c]) ++ str ",") = s ++ [c].
Proof.
  intros Hc. rewrite <- (drop_commas_last s c Hc) at 2. unfold trim_end_commas.
  rewrite (rev_app_distr (s ++ [c])). done.
Qed.

Lemma joined_by_end sep l : l ≠ [] → Forall (λ x, ∃ s, x = s ++ str "}") l → ∃ s, joined_by sep l = s ++ str "}".
Proof.
  intros Hne Hl. induction Hl as [|x l [s ->] Hl IH]; [done|]. destruct l as [|y l]; [by exists s|].
  destruct (IH ltac:(done)) as [s' Hs']. exists ((s ++ str "}") ++ sep ++ s').
  change (joined_by _ (_ :: y :: l)) with ((s ++ str "}") ++ sep ++ joined_by sep (y :: l)).
  rewrite Hs'. by rewrite !app_assoc.
Qed.

Lemma with_commas l :
  l ≠ [] → flat_map (λ x, x ++ str ",") l = joined_by (str ",") l ++ str ",".
Proof.
  induction l as [|x l IH]; [done|]. intros _. destruct l as [|y l].
  { cbn [flat_map joined_by]. by rewrite app_nil_r. }
  change (flat_map _ (x :: y :: l)) with ((x ++ str ",") ++ flat_map (λ x, x ++ str ",") (y :: l)).
  change (joined_by _ (x :: y :: l)) with (x ++ str "," ++ joined_by (str ",") (y :: l)).
  rewrite (IH ltac:(done)). by rewrite !app_assoc.
Qed.

(** The loop that prints elements with commas and cuts the last one. *)
Lemma trim_list l :
  Forall (λ x, ∃ s, x = s ++ str "}") l → trim_end_commas (flat_map (λ x, x ++ str ",") l) = joined_by (str ",") l.
Proof.
  intros Hl. destruct l as [|x l]; [done|]. rewrite with_commas by done.
  destruct (joined_by_end (str ",") (x :: l) ltac:(done) Hl) as [s ->]. by apply (trim_end_comma s x7d).
Qed.

Section bodies.
Context `{IndexMap} `{HashIter} (INDEX_HTML : bytes) (de : DashEnv).
Implicit Types (e : Engine).

(** A response whose body is what its content type says. *)
Definition honest (r : Response) : Prop := rs_content_type r = JSON_TYPE → json (rs_body r).

Lemma json_error_honest status msg : honest (json_error status msg).
Proof using Type. intros _. apply object_json. auto with json. Qed.
Lemma ok_json_honest body : json body → honest (ok_json body).
Proof using Type. by intros Hb _. Qed.
Lemma with_status_honest status : honest (with_status status).
Proof using Type. by intros Hc. Qed.

Lemma key_item_object key ttl : ∃ s, key_item key ttl = s ++ str "}".
Proof using Type. unfold key_item, object. rewrite app_assoc. by eexists. Qed.
Lemma key_item_json key ttl : json (key_item key ttl).
Proof using Type. apply object_json. destruct (utf8_valid key); auto 10 with json. Qed.

Lemma key_items_flat i keys e :
  ∃ l, (key_items de i keys e).1 = flat_map (λ x, x ++ str ",") l ∧
    Forall json l ∧ Forall (λ x, ∃ s, x = s ++ str "}") l.
Proof using Type.
  revert i e. induction keys as [|key keys IH]; intros i e; [by exists []|]. cbn [key_items].
  destruct (ttl_ms (de_env de i) key e) as [ttl e1]. destruct (IH (S i) e1) as (l & Hl & Hj & Hs).
  destruct (key_items de (S i) keys e1) as [items e2]. simpl in Hl. subst items.
  exists (key_item key (ttl_number ttl) :: l). split; [by rewrite app_assoc|].
  split; constructor; auto using key_item_json, key_item_object.
Qed.

Lemma param_range (o : option bytes) d :
  0 ≤ d ≤ u64_max → 0 ≤ default d (o ≫= parse_usize) ≤ u64_max.
Proof using Type.
  intros Hd. destruct o as [v|]; [|done]. simpl. destruct (parse_usize v) as [z|] eqn:Ez; [|done].
  by apply parse_unsigned_range in Ez.
Qed.

Lemma keys_json_json query e : json (keys_json de query e).1.
Proof using Type.
  unfold keys_json, or_default, scan_keys, gets. cbv zeta.
  set (all := scan_loop _ _ _ _). set (offset := default 0 _). set (limit := default KEYS_PER_PAGE _).
  set (page := take _ _). destruct (key_items_flat 1 page e) as (l & Hl & Hj & Hs).
  destruct (key_items de 1 page e) as [items e']. simpl in Hl. subst items. cbn [fst].
  assert (Ho : 0 ≤ offset ≤ u64_max) by (by apply param_range).
  assert (Hm : 0 ≤ limit ≤ u64_max) by (by apply param_range).
  pose proof (blen_nonneg all). apply object_json. repeat apply fields_cons; try apply fields_nil.
  - by apply to_string_u_json.
  - apply to_string_u_json. unfold sat_add_u64. lia.
  - apply to_string_u_json. lia.
  - rewrite trim_list by done. by apply json_array.
Qed.

Lemma expire_stats_nonneg env e count avg :
  (expire_stats env e).1 = Ok (count, avg) → 0 ≤ count ∧ 0 ≤ avg.
Proof using Type.
  unfold expire_stats, gets. cbv zeta. set (f := λ '(count, sum_ms) p, _).
  assert (Hf : ∀ l count sum_ms, 0 ≤ count → 0 ≤ sum_ms →
    0 ≤ (fold_left f l (count, sum_ms)).1 ∧ 0 ≤ (fold_left f l (count, sum_ms)).2).
  { induction l as [|p l IH]; intros c s Hc Hs; [done|]. cbn [fold_left]. unfold f at 2 4.
    destruct (is_expired _ _); [by apply IH|]. destruct (expire_at _); [|by apply IH].
    apply IH; [lia|]. unfold sat_add_u64, u64_max, wrap64. pose proof (Z.mod_pos_bound ((z - read_now env) / 1000000) 18446744073709551616). lia. }
  specialize (Hf (hm_iter (e_store e)) 0 0 ltac:(done) ltac:(done)).
  destruct (fold_left f _ _) as [c s]. destruct Hf as [Hc Hs]. simpl in *. intros [= <- <-].
  split; [done|]. destruct (c =? 0) eqn:E; bool_to_prop; [done|]. apply Z.div_pos; lia.
Qed.

(** The numbers of [/api/info]: counters are not negative and ratios are finite. *)
Definition hit_ratio_of (e : Engine) : spec_float :=
  let sum := wrap64 (e_hits e + e_misses e) in
  if 0 <? sum then F64.div (F64.of_Z (e_hits e)) (F64.of_Z sum) else F64.zero.
Definition sane (e : Engine) : Prop :=
  0 ≤ e_hits e ∧ 0 ≤ e_misses e ∧ 0 ≤ e_used_memory e ∧ 0 ≤ max_memory (e_eviction e) ∧
  F64.is_finite (hit_ratio_of e) = true ∧ F64.is_finite (alpha (e_ahe e)) = true ∧
  F64.is_finite (last_hit_ratio (e_ahe e)) = true.

(** A running server's engine is sane. *)
Lemma served_sane n e : served n e → n < i63 → sane e.
Proof using Type.
  intros Hs Hn. destruct (served_wf n e 0 Hs) as [Hwf Hl]; [done|lia|]. pose proof (total_nonneg (e_store e)).
  destruct Hwf as [Hused _ _ _ Hahe _ _ _ _ [[Hh1 Hh2] [Hm1 Hm2]] Hratio]. unfold sane. rewrite Hused.
  split_and!; try done.
  - unfold hit_ratio_of. destruct (Z.ltb_spec 0 (wrap64 (e_hits e + e_misses e))); [|done].
    apply f64_ratio_finite; [done|]. split; [done|]. apply (Z.mod_pos_bound (e_hits e + e_misses e)). lia.
  - pose proof alphas_finite as Ha. rewrite Forall_forall in Ha. apply Ha, Hahe.
  - apply Hratio.
Qed.

Lemma info_json_json e : 0 ≤ de_uptime de → sane e → json (info_json de e).1.
Proof using Type.
  intros Hu (H1 & H2 & H3 & H4 & H5 & H6 & H7). unfold info_json, or_default. cbv zeta.
  change (dbsize (de_env de 0) e) with (Ok (E := FerrumError)
    (blen (List.filter (λ p, negb (is_expired (read_now (de_env de 0)) p.2)) (hm_iter (e_store e)))), e).
  cbn iota. pose proof (expire_stats_nonneg (de_env de 1) e) as Hs.
  change (expire_stats (de_env de 1) e) with ((expire_stats (de_env de 1) e).1, e).
  destruct (expire_stats (de_env de 1) e).1 as [[count avg]|] eqn:Es; [|done].
  destruct (Hs count avg eq_refl) as [Hc Ha]. cbn [fst].
  fold (hit_ratio_of e). apply object_json. repeat apply fields_cons; try apply fields_nil;
    try (apply to_string_u_json; first [done|apply blen_nonneg]); try (by apply fixed_json).
  - by apply (json_str _ PKG_VERSION).
  - apply (json_str _ (policy_name (policy (e_eviction e)))). by destruct (policy (e_eviction e)).
Qed.

Lemma key_detail_honest key e : honest (key_detail de key e).1.
Proof using Type.
  unfold key_detail. destruct (get _ _ _) as [[[value|]|x] e1]; try apply json_error_honest.
  destruct (ttl_ms _ _ _) as [ttl e2]. apply ok_json_honest, object_json. cbn [fst].
  repeat apply fields_app; [auto 10 with json| |auto using to_string_u_json, blen_nonneg with json].
  destruct (utf8_valid value); auto 10 with json.
Qed.
Lemma create_key_honest body e : honest (create_key de body e).1.
Proof using Type.
  unfold create_key. destruct (form_bytes _ _) as [[|c key]|]; try apply json_error_honest.
  destruct (set _ _ _ _) as [[old|x] e1]; [|apply json_error_honest].
  apply ok_json_honest, object_json. auto with json.
Qed.
Lemma update_key_honest key body e : honest (update_key de key body e).1.
Proof using Type.
  unfold update_key. destruct (form_bytes _ _) as [value|]; [|apply json_error_honest].
  destruct (set _ _ _ _) as [[old|x] e1]; [|apply json_error_honest].
  apply ok_json_honest, object_json. auto with json.
Qed.
Lemma delete_key_honest key e : honest (delete_key de key e).1.
Proof using Type.
  unfold delete_key. destruct (del _ _ _) as [[[]|x] e1]; [..|apply json_error_honest];
    apply ok_json_honest, object_json; auto with json.
Qed.

(** A command the parser has built never panics. *)
Lemma run_console_spec body e :
  ∃ r e', run_console de body e = Some (r, e') ∧ honest r.
Proof using Type.
  unfold run_console. destruct (_ !! _) as [command|]; [|eauto using json_error_honest].
  destruct (tokenize_command command) as [[|a argv]|]; [eauto using json_error_honest| |eauto using json_error_honest].
  destruct (parse_frame _) as [[parsed n|error n|]|x] eqn:Ep; try (by eauto using json_error_honest).
  apply parse_frame_wf in Ep.
  destruct (execute_answers (λ _, True) (λ _ _, I) (de_cmd de) parsed None Resp2 e Ep) as (e' & f & _ & ->); [done|].
  eexists _, e'. split; [done|]. apply ok_json_honest, object_json. auto with json.
Qed.

Lemma answered (p : Response * Engine) : honest p.1 → ∃ r e', Some p = Some (r, e') ∧ honest r.
Proof using Type. destruct p as [r e]. eauto. Qed.

End bodies.

Definition dash_env_at (ms : Z) : DashEnv := {|
  de_env := λ _, env_at ms; de_now_ms := 1700000000000 + ms; de_uptime := 5; de_cmd := cmd_env_at ms |}.

Definition info_request : Request := {|
  rq_method := str "GET"; rq_path := str "/api/info"; rq_query := []; rq_headers := ∅; rq_body := [] |}.


Lemma dashboard_buffer_bounded_witness :
  match receive (λ _, false) [RChunk (str "GET / HTTP/1.1"); RChunk (CRLF ++ CRLF)] with
  | inl (Waiting buf) | inr buf => blen buf ≤ MAX_HEADER_BYTES + MAX_BODY_BYTES + 2 * READ_CHUNK
  | _ => True
  end.
Proof.
  apply (dashboard_buffer_bounded (λ _, false) [RChunk (str "GET / HTTP/1.1"); RChunk (CRLF ++ CRLF)]).
  repeat constructor; by vm_compute.
Defined.

(** ** Decoding replies *)

Lemma read_line_length s : (length (read_line s).2 ≤ length s)%nat.
Proof.
  unfold read_line. assert (H : (length (until_cr s).2 ≤ length s)%nat).
  { induction s as [|c s IH]; [done|]. cbn [until_cr]. case_bool_decide; [done|].
    destruct (until_cr s). simpl in *. lia. }
  destruct (until_cr s) as [l rest]. simpl in *. rewrite length_drop. lia.
Qed.

(** A value takes at least a byte. *)
Lemma decode_length fuel :
  (∀ s t r, decode_one fuel s = Some (t, r) → length r < length s)%nat ∧
  (∀ count s ts r, decode_many fuel count s = Some (ts, r) → length r ≤ length s)%nat.
Proof.
  induction fuel as [|fuel [IH1 IH2]]; split.
  - done.
  - intros count s ts r. cbn [decode_many]. destruct (count <=? 0); [|done]. by intros [= _ <-].
  - intros s t r. destruct s as [|marker s]; [done|]. cbn [decode_one length].
    pose proof (read_line_length s) as Hl. destruct (read_line s) as [l rest]. cbn [snd] in Hl.
    repeat case_bool_decide; intros Hd; simplify_eq; try lia.
    + destruct (parse_i64 l) as [len|]; [|done]. simpl in Hd. destruct (len <? 0); [simplify_eq; lia|].
      destruct (_ <? _); [done|]. simplify_eq. rewrite length_drop. lia.
    + destruct (parse_i64 l) as [count|]; [|done]. simpl in Hd. destruct (count <? 0); [simplify_eq; lia|].
      destruct (decode_many fuel count rest) as [[ts r']|] eqn:E; [|done]. simpl in Hd. simplify_eq.
      apply IH2 in E. lia.
  - intros count s ts r. cbn [decode_many]. destruct (count <=? 0); [by intros [= _ <-]|].
    destruct (decode_one fuel s) as [[t s1]|] eqn:E1; [|done]. simpl.
    destruct (decode_many fuel (count - 1) s1) as [[ts' s2]|] eqn:E2; [|done]. simpl.
    intros [= _ <-]. apply IH1 in E1. apply IH2 in E2. lia.
Qed.

(** Enough fuel is enough: more of it changes nothing. *)
Lemma decode_fuel f1 : ∀ f2,
  (∀ s, (2 * length s + 1 ≤ f1)%nat → (2 * length s + 1 ≤ f2)%nat → decode_one f1 s = decode_one f2 s) ∧
  (∀ count s, (2 * length s + 2 ≤ f1)%nat → (2 * length s + 2 ≤ f2)%nat →
     decode_many f1 count s = decode_many f2 count s).
Proof.
  induction f1 as [|f1 IH]; intros f2; [split; intros; lia|]. destruct f2 as [|f2]; [split; intros; lia|].
  destruct (IH f2) as [IH1 IH2]. split.
  - intros s H1 H2. destruct s as [|marker s]; [done|]. cbn [decode_one length] in *.
    pose proof (read_line_length s) as Hl. destruct (read_line s) as [l rest]. cbn [snd] in Hl.
    repeat case_bool_decide; try done. destruct (parse_i64 l) as [count|]; [|done]. simpl.
    destruct (count <? 0); [done|]. by rewrite IH2 by lia.
  - intros count s H1 H2. cbn [decode_many]. destruct (count <=? 0); [done|]. rewrite IH1 by lia.
    destruct (decode_one f2 s) as [[t s1]|] eqn:E; [|done]. simpl.
    apply (proj1 (decode_length f2)) in E. by rewrite IH2 by lia.
Qed.

(** ** The console *)

Lemma encode_resp_array_eq argv : encode_resp_array argv = encode_command argv.
Proof.
  unfold encode_resp_array, encode_command. rewrite <- !app_assoc. do 3 f_equal.
  induction argv as [|a argv IH]; [done|]. cbn [flat_map map concat]. by rewrite IH.
Qed.

Lemma form_body_ascii k v : Forall (λ b, b2z b < 128) (form_body k v).
Proof.
  assert (Hp : ∀ s, Forall (λ b, b2z b < 128) (percent s)).
  { intros s. induction s as [|b s IH]; [constructor|]. cbn [percent flat_map]. apply Forall_app_2; [|done].
    by destruct b; repeat constructor. }
  unfold form_body. apply Forall_app_2; [done|]. by constructor.
Qed.

Section console.
Context `{IndexMap} `{HashIter} (INDEX_HTML : bytes) (de : DashEnv).

(** Who sent a command shows only in the slow log, when nobody is monitoring. *)
Lemma client_only_logged ce cmd client client' v e out :
  e_monitor_registry e = [] →
  match execute_command ce cmd client v (e, out), execute_command ce cmd client' v (e, out) with
  | Some (e1, out1), Some (e2, out2) => out1 = out2 ∧ set_slowlog [] e1 = set_slowlog [] e2
  | None, None => True
  | _, _ => False
  end.
Proof using Type.
  intros Hm. unfold execute_command. cbn [fst snd].
  assert (Hb : ∀ c, before_dispatch ce cmd c e = set_total_commands (succ64 (e_total_commands e)) e).
  { intros c. unfold before_dispatch, has_subscribers. cbn [e_monitor_registry set_total_commands]. rewrite Hm.
    by rewrite andb_false_r. }
  rewrite !Hb. destruct (dispatch ce v cmd _) as [[e1 o1]|[e1 o1]|]; [|done|done].
  split; [done|]. unfold after_dispatch. destruct (_ && _); [|done]. unfold maybe_push_slowlog, modify. cbn [snd].
  by destruct (negb _).
Qed.

(** C30: The console is a client like any other. A command line with quoted arguments
    that is valid UTF-8, posted as a form, is parsed by the server's own parser and run by
    its [execute_command], with RESP 2 and without a client address; the effect on the
    engine is that of the command and its reply is shown. If the server asks for no
    password and nobody is monitoring, a client that sends the same arguments to the main
    server gets exactly that reply, and leaves the same engine but for the address in the
    slow log, for each command but [AUTH], [HELLO] and [MONITOR], which only a connection
    understands. Arguments that do not make a command are answered with the parser's error
    and change nothing. (The dashboard's own token is checked before; the password of the
    main server is not.) *)
Theorem console_runs_command (argv : list bytes) query headers e :
  wf_parts argv → utf8_valid (quote_argv argv) = true →
  let req := {| rq_method := str "POST"; rq_path := str "/api/command"; rq_query := query;
                rq_headers := headers; rq_body := form_body (str "command") (quote_argv argv) |} in
  match build_command argv with
  | Ok cmd => ∃ e' out,
      execute_command (de_cmd de) cmd None Resp2 (e, []) = Some (e', out) ∧
      route INDEX_HTML de req e
      = Some (ok_json (object [member "ok" (str "true");
                               member "response" (json_string (decode_resp out))]), e') ∧
      (ordinary cmd = true → e_auth_required e = false → e_monitor_registry e = [] → ∀ peer,
         let c := (on_chunk (λ _, de_cmd de) peer (encode_command argv) (connect e [])).1 in
         cn_sent c = out ∧ set_slowlog [] (cn_engine c) = set_slowlog [] e')
  | Err x => route INDEX_HTML de req e = Some (json_error 400 (display x), e)
  end.
Proof using Type.
  intros Hwf Hu req.
  assert (Hr : route INDEX_HTML de req e = run_console de (rq_body req) e) by reflexivity.
  assert (Hf : body_form (rq_body req) !! str "command" = Some (quote_argv argv)).
  { unfold body_form. rewrite ascii_utf8_valid by apply form_body_ascii. cbn [rq_body req].
    rewrite parse_query_form, (utf8_lossy_valid (quote_argv argv)) by done.
    change (utf8_lossy (str "command")) with (str "command"). by rewrite lookup_singleton_eq. }
  pose proof (parse_frame_encode argv [] Hwf) as Hp. rewrite app_nil_r in Hp. unfold frame_of in Hp.
  assert (Hc : run_console de (rq_body req) e = match build_command argv with
    | Ok cmd => match execute_command (de_cmd de) cmd None Resp2 (e, []) with
                | Some (e, out) => Some (ok_json (object [member "ok" (str "true");
                                         member "response" (json_string (decode_resp out))]), e)
                | None => None
                end
    | Err x => Some (json_error 400 (display x), e) end).
  { unfold run_console. rewrite Hf, tokenize_quoted. destruct argv as [|a argv]; [by destruct Hwf|].
    rewrite encode_resp_array_eq, Hp. by destruct (build_command (a :: argv)). }
  rewrite Hr, Hc. destruct (build_command argv) as [cmd|x] eqn:Eb; [|done].
  apply build_command_wf in Eb.
  destruct (execute_answers (λ _, True) (λ _ _, I) (de_cmd de) cmd None Resp2 e Eb) as (e' & f & _ & He); [done|].
  rewrite He. exists e', (f []). split; [done|]. split; [done|]. intros Ho Ha Hm peer.
  destruct (one_request (λ _, de_cmd de) peer _ cmd e Hp Ho Ha) as (e2 & w & c & Hx & Hs & He2 & Hw).
  rewrite Hs. cbv zeta. cbn [fst]. rewrite He2, Hw.
  pose proof (client_only_logged (de_cmd de) cmd (Some peer) None Resp2 e [] Hm) as Hl. rewrite Hx, He in Hl. done.
Qed.
End console.

Lemma console_runs_command_witness :
  let argv := [str "SET"; str "a key"; x22 :: str "v"] in
  let req := {| rq_method := str "POST"; rq_path := str "/api/command"; rq_query := [];
                rq_headers := ∅; rq_body := form_body (str "command") (quote_argv argv) |} in
  ∃ e' out,
    route [] (dash_env_at 1) req (engine_new (clock_at 0))
    = Some (ok_json (object [member "ok" (str "true"); member "response" (json_string (decode_resp out))]), e') ∧
    let c := (on_chunk (λ _, de_cmd (dash_env_at 1)) (str "peer") (encode_command argv) (connect (engine_new (clock_at 0)) [])).1 in
    cn_sent c = out ∧ set_slowlog [] (cn_engine c) = set_slowlog [] e'.
Proof.
  intros argv req.
  assert (H1 : wf_parts argv) by (split; [done|]; split; [by vm_compute|]; repeat constructor; by vm_compute).
  assert (H2 : utf8_valid (quote_argv argv) = true) by (by vm_compute).
  destruct (console_runs_command [] (dash_env_at 1) argv [] ∅ (engine_new (clock_at 0)) H1 H2) as (e' & out & _ & Hr & Hs).
  exists e', out. split; [exact Hr|]. apply Hs; reflexivity.
Defined.
