(* ===== verification/GroupCommit.v ===== *)
(** * Group commit: concurrent writers under [appendfsync always]
      (src/src/persistence/writer.rs)

    [write_bytes] and [sync_if_needed] as they interleave. Each thread runs a write
    and then the barrier; a step is what happens between two points at which another
    thread can be seen: taking or releasing a lock, an atomic load or update, a call
    to the file. The file and the failures of the disk are those of the writer's
    model; a rewrite does not run meanwhile, so [rewrite_lock], which a write holds
    around [inner], adds nothing. The two counters of batches are unbounded here and 64-bit
    words in the code, where they would take 2^64 batches to wrap. The theorem is the promise of the
    barrier: when it reports success the caller's record is on disk, whichever
    thread issued the fsync. The last section shows what the swap of a rewrite does to
    a barrier in progress. *)
From S2P Require Import Prelude Error Aof.
From Stdlib Require Import ZArith Lia.
From stdpp Require Import gmap strings numbers functions list.
Local Open Scope Z_scope.

(** Where a thread is. [pos] and [bs] are the place and the bytes of its record,
    [n] is the number of batches published up to its own; both are only for the
    statement. *)
Inductive Pc :=
| Idle
| Locked (bs : bytes)                                      (* holds [inner] *)
| Buffered (pos : nat) (bs : bytes)                        (* [write_all] done *)
| Written (pos : nat) (bs : bytes)                         (* flushed *)
| Published (pos : nat) (bs : bytes) (n : Z)               (* [seq] counted, lock released *)
| Loaded (pos : nat) (bs : bytes) (n target : Z)           (* [target] loaded *)
| Queued (pos : nat) (bs : bytes) (n : Z)                  (* [synced] was below it *)
| Gated (pos : nat) (bs : bytes) (n : Z)                   (* holds [sync_lock] *)
| Covering (pos : nat) (bs : bytes) (n covered : Z)        (* [covered] loaded *)
| Flushing (pos : nat) (bs : bytes) (n covered : Z)        (* [synced] was below it *)
| Syncing (pos : nat) (bs : bytes) (n covered : Z)         (* buffer flushed *)
| Synced (pos : nat) (bs : bytes) (n covered : Z)          (* [sync_data] succeeded *)
| Acknowledged (pos : nat) (bs : bytes)                    (* returned [Ok] *)
| Failed.                                                  (* returned an error *)

Record State := {
  g_file : BufFile;
  g_disk : list Disk;
  g_seq : Z;
  g_synced : Z;
  g_inner : option nat;
  g_gate : option nat;
  g_pc : nat → Pc;
}.

(** Updates of one part of the state, with the thread's next point. *)
Definition goto (t : nat) (p : Pc) (st : State) : State :=
  {| g_file := g_file st; g_disk := g_disk st; g_seq := g_seq st; g_synced := g_synced st;
     g_inner := g_inner st; g_gate := g_gate st; g_pc := <[t := p]> (g_pc st) |}.
Definition with_file (io : BufFile * list Disk) (st : State) : State :=
  {| g_file := io.1; g_disk := io.2; g_seq := g_seq st; g_synced := g_synced st;
     g_inner := g_inner st; g_gate := g_gate st; g_pc := g_pc st |}.
Definition with_seq (n : Z) (st : State) : State :=
  {| g_file := g_file st; g_disk := g_disk st; g_seq := n; g_synced := g_synced st;
     g_inner := g_inner st; g_gate := g_gate st; g_pc := g_pc st |}.
Definition with_synced (n : Z) (st : State) : State :=
  {| g_file := g_file st; g_disk := g_disk st; g_seq := g_seq st; g_synced := n;
     g_inner := g_inner st; g_gate := g_gate st; g_pc := g_pc st |}.
Definition with_inner (o : option nat) (st : State) : State :=
  {| g_file := g_file st; g_disk := g_disk st; g_seq := g_seq st; g_synced := g_synced st;
     g_inner := o; g_gate := g_gate st; g_pc := g_pc st |}.
Definition with_gate (o : option nat) (st : State) : State :=
  {| g_file := g_file st; g_disk := g_disk st; g_seq := g_seq st; g_synced := g_synced st;
     g_inner := g_inner st; g_gate := o; g_pc := g_pc st |}.

Definition io_of (st : State) : BufFile * list Disk := (g_file st, g_disk st).

(** One step of thread [t], from the point where it is. *)
Definition thread_step (t : nat) (bs : bytes) (st : State) : option State :=
  match g_pc st t with
  (* write_bytes *)
  | Idle | Acknowledged _ _ | Failed =>
      match g_inner st with
      | None => Some (goto t (Locked bs) (with_inner (Some t) st))
      | Some _ => None
      end
  | Locked bs =>
      let pos := length (stream (g_file st)) in
      let '(r, io) := bw_write_all BUFWRITER_CAP bs (io_of st) in
      Some (match r with
            | Ok _ => goto t (Buffered pos bs) (with_file io st)
            | Err _ => goto t Failed (with_inner None (with_file io st))
            end)
  | Buffered pos bs =>
      let '(r, io) := bw_flush (io_of st) in
      Some (match r with
            | Ok _ => goto t (Written pos bs) (with_file io st)
            | Err _ => goto t Failed (with_inner None (with_file io st))
            end)
  | Written pos bs =>
      Some (goto t (Published pos bs (g_seq st + 1)) (with_inner None (with_seq (g_seq st + 1) st)))
  (* sync_if_needed *)
  | Published pos bs n => Some (goto t (Loaded pos bs n (g_seq st)) st)
  | Loaded pos bs n target =>
      Some (if target <=? g_synced st then goto t (Acknowledged pos bs) st else goto t (Queued pos bs n) st)
  | Queued pos bs n =>
      match g_gate st with
      | None => Some (goto t (Gated pos bs n) (with_gate (Some t) st))
      | Some _ => None
      end
  | Gated pos bs n => Some (goto t (Covering pos bs n (g_seq st)) st)
  | Covering pos bs n covered =>
      Some (if covered <=? g_synced st then goto t (Acknowledged pos bs) (with_gate None st)
            else goto t (Flushing pos bs n covered) st)
  | Flushing pos bs n covered =>
      match g_inner st with
      | None =>
          let '(r, io) := bw_flush (io_of st) in
          Some (match r with
                | Ok _ => goto t (Syncing pos bs n covered) (with_file io st)
                | Err _ => goto t Failed (with_gate None (with_file io st))
                end)
      | Some _ => None
      end
  | Syncing pos bs n covered =>
      let '(r, io) := os_sync (io_of st) in
      Some (match r with
            | Ok _ => goto t (Synced pos bs n covered) (with_file io st)
            | Err _ => goto t Failed (with_gate None (with_file io st))
            end)
  | Synced pos bs n covered =>
      Some (goto t (Acknowledged pos bs) (with_gate None (with_synced (Z.max (g_synced st) covered) st)))
  end.

(** The system: at any time some thread takes its next step, with a new record if
    it starts a write. *)
Inductive reachable (st0 : State) : State → Prop :=
| reach_start : reachable st0 st0
| reach_step st st' t bs : reachable st0 st → thread_step t bs st = Some st' → reachable st0 st'.

(** A writer that has just opened a file, over a disk with any failures to come. *)
Definition opened (existing : bytes) (disk : list Disk) : State :=
  {| g_file := {| f_data := existing; f_durable := length existing; f_buf := [] |};
     g_disk := disk; g_seq := 0; g_synced := 0; g_inner := None; g_gate := None; g_pc := λ _, Idle |}.

(** ** The invariant *)

(** The record [bs] is in the log, behind [pos] bytes. *)
Definition placed (f : BufFile) (pos : nat) (bs : bytes) : Prop :=
  ∃ pre, length pre = pos ∧ pre ++ bs `prefix_of` stream f.

(** [marks] has, for each published batch, where it ends in the file; the first [c]
    of them are durable. *)
Definition durable_upto (marks : list nat) (c : Z) (f : BufFile) : Prop :=
  ∀ i m, marks !! i = Some m → Z.of_nat i < c → (m ≤ f_durable f)%nat.

Record shared (marks : list nat) (st : State) : Prop := {
  sh_valid : (f_durable (g_file st) ≤ length (f_data (g_file st)))%nat;
  sh_seq : g_seq st = Z.of_nat (length marks);
  sh_marks : Forall (λ m, m ≤ length (f_data (g_file st)))%nat marks;
  sh_synced : g_synced st ≤ g_seq st;
  sh_durable : durable_upto marks (g_synced st) (g_file st);
}.

(** The thread's record is the [n]-th published batch. *)
Definition counted (marks : list nat) (f : BufFile) (pos : nat) (bs : bytes) (n : Z) : Prop :=
  placed f pos bs ∧ 1 ≤ n ∧ marks !! Z.to_nat (n - 1) = Some (pos + length bs)%nat.

Definition pc_ok (marks : list nat) (f : BufFile) (p : Pc) : Prop :=
  match p with
  | Idle | Locked _ | Failed => True
  | Buffered pos bs => placed f pos bs
  | Written pos bs => placed f pos bs ∧ (pos + length bs ≤ length (f_data f))%nat
  | Published pos bs n | Queued pos bs n | Gated pos bs n => counted marks f pos bs n
  | Loaded pos bs n c => counted marks f pos bs n ∧ n ≤ c
  | Covering pos bs n c | Flushing pos bs n c | Syncing pos bs n c =>
      counted marks f pos bs n ∧ n ≤ c ≤ Z.of_nat (length marks)
  | Synced pos bs n c =>
      counted marks f pos bs n ∧ n ≤ c ≤ Z.of_nat (length marks) ∧ durable_upto marks c f
  | Acknowledged pos bs => placed f pos bs ∧ (pos + length bs ≤ f_durable f)%nat
  end.

Definition inv (st : State) : Prop :=
  ∃ marks, shared marks st ∧ ∀ t, pc_ok marks (g_file st) (g_pc st t).

(** The file only grows. *)
Record grows (f f' : BufFile) : Prop := {
  gr_stream : stream f `prefix_of` stream f';
  gr_data : (length (f_data f) ≤ length (f_data f'))%nat;
  gr_durable : (f_durable f ≤ f_durable f')%nat;
}.

Lemma grows_refl f : grows f f.
Proof. by split. Qed.

Lemma extends_grows f f' : extends f f' → stream f `prefix_of` stream f' → grows f f'.
Proof. intros [H1 H2 _] Hs. split; [done|by apply prefix_length|done]. Qed.

Lemma counted_grows marks marks' f f' pos bs n :
  marks `prefix_of` marks' → grows f f' → counted marks f pos bs n → counted marks' f' pos bs n.
Proof.
  intros Hm [Hs _ _] ((pre & Hl & Hp) & Hn & Hk). split_and!; [|done|by eapply prefix_lookup_Some].
  exists pre. split; [done|]. by etrans.
Qed.

Lemma durable_grows marks marks' f f' c :
  marks `prefix_of` marks' → grows f f' → c ≤ Z.of_nat (length marks) →
  durable_upto marks c f → durable_upto marks' c f'.
Proof.
  intros [l ->] [_ _ Hd] Hc H i m Hi Hlt. rewrite lookup_app_l in Hi by lia. specialize (H i m Hi Hlt). lia.
Qed.

Lemma pc_ok_grows marks marks' f f' p :
  marks `prefix_of` marks' → grows f f' → pc_ok marks f p → pc_ok marks' f' p.
Proof.
  intros Hm Hg. pose proof (prefix_length _ _ Hm) as Hlen.
  assert (Hpl : ∀ pos bs, placed f pos bs → placed f' pos bs).
  { intros pos bs (pre & Hl & Hp). exists pre. split; [done|]. etrans; [done|apply Hg]. }
  pose proof (gr_data _ _ Hg) as Hd. pose proof (gr_durable _ _ Hg) as Hu.
  destruct p; simpl; try done; try (by eauto using counted_grows).
  - intros [? ?]. split; [auto|lia].
  - intros [? ?]. eauto using counted_grows.
  - intros [? ?]. split; [by eapply counted_grows|lia].
  - intros [? ?]. split; [by eapply counted_grows|lia].
  - intros [? ?]. split; [by eapply counted_grows|lia].
  - intros (? & ? & ?). split_and!; [by eapply counted_grows|lia|lia|]. eapply durable_grows; try done; lia.
  - intros [? ?]. split; [auto|lia].
Qed.

(** A step of one thread: the shared part moves on and the thread is at [p]. *)
Lemma inv_goto marks marks' st st' t p :
  (∀ t, pc_ok marks (g_file st) (g_pc st t)) → g_pc st' = g_pc st →
  marks `prefix_of` marks' → grows (g_file st) (g_file st') → shared marks' st' →
  pc_ok marks' (g_file st') p → inv (goto t p st').
Proof.
  intros Hpc Heq Hm Hg Hsh Hp. exists marks'. split; [by destruct Hsh; split|]. intros t'.
  unfold goto. cbn [g_file g_pc]. destruct (decide (t = t')) as [->|Hne].
  - by rewrite fn_lookup_insert.
  - rewrite fn_lookup_insert_ne, Heq by done. eapply pc_ok_grows; [done|done|apply Hpc].
Qed.

(** A step that changes nothing shared but the locks. *)
Lemma inv_quiet marks st st' t p :
  shared marks st → (∀ t, pc_ok marks (g_file st) (g_pc st t)) →
  g_pc st' = g_pc st → g_file st' = g_file st → g_seq st' = g_seq st → g_synced st' = g_synced st →
  pc_ok marks (g_file st) p → inv (goto t p st').
Proof.
  intros [] Hpc H1 H2 H3 H4 Hp. eapply inv_goto; try done; rewrite ?H2; [apply grows_refl| |done].
  split; by rewrite ?H2, ?H3, ?H4.
Qed.

(** A step on the file. *)
Lemma inv_file marks st st' t p :
  shared marks st → (∀ t, pc_ok marks (g_file st) (g_pc st t)) →
  g_pc st' = g_pc st → g_seq st' = g_seq st → g_synced st' = g_synced st →
  extends (g_file st) (g_file st') → stream (g_file st) `prefix_of` stream (g_file st') →
  pc_ok marks (g_file st') p → inv (goto t p st').
Proof.
  intros [Hv Hq Hm Hs Hd] Hpc H1 H3 H4 He Hst Hp. pose proof (extends_grows _ _ He Hst) as Hg.
  eapply inv_goto; try done. split; rewrite ?H3, ?H4; try done.
  - by apply (extends_valid _ _ He).
  - eapply Forall_impl; [exact Hm|]. intros m Hle. simpl in *. pose proof (gr_data _ _ Hg). lia.
  - eapply durable_grows; try done. lia.
Qed.

Lemma prefix_of_err {A} (l k : list A) n : l `prefix_of` l ++ take n k.
Proof. by exists (take n k). Qed.

(** What the thread's own batch gives: everything up to [c >= n] durable means its
    record is. *)
Lemma counted_durable marks f pos bs n c :
  counted marks f pos bs n → n ≤ c → durable_upto marks c f → placed f pos bs ∧ (pos + length bs ≤ f_durable f)%nat.
Proof. intros (Hp & Hn & Hk) Hc Hd. split; [done|]. apply (Hd _ _ Hk). lia. Qed.

Lemma counted_seq marks f pos bs n : counted marks f pos bs n → n ≤ Z.of_nat (length marks).
Proof. intros (_ & Hn & Hk). apply lookup_lt_Some in Hk. lia. Qed.

Lemma step_inv t bs0 st st' : thread_step t bs0 st = Some st' → inv st → inv st'.
Proof.
  intros Hstep (marks & Hsh & Hpc). pose proof (Hpc t) as Ht. unfold thread_step in Hstep.
  destruct (g_pc st t) as [|bs|pos bs|pos bs|pos bs n|pos bs n target|pos bs n|pos bs n
    |pos bs n c|pos bs n c|pos bs n c|pos bs n c|pos bs|] eqn:Epc; simpl in Ht.
  - destruct (g_inner st); simplify_eq. by eapply inv_quiet.
  - unfold io_of in Hstep. destruct (bw_write_all _ bs _) as [r [f d]] eqn:E.
    apply bw_write_all_spec in E as (He & _ & Hr); [|by vm_compute].
    destruct r as [[]|m]; simplify_eq; eapply inv_file; try done; cbn [g_file with_file with_inner fst].
    + rewrite Hr. by apply prefix_app_r.
    + exists (stream (g_file st)). by rewrite Hr.
    + destruct Hr as [k ->]. apply prefix_of_err.
  - unfold io_of in Hstep. destruct (bw_flush _) as [r [f d]] eqn:E.
    apply bw_flush_spec in E as (He & Hs & _ & Hok).
    destruct r as [[]|m]; simplify_eq; eapply inv_file; try done; cbn [g_file with_file with_inner fst]; rewrite ?Hs; try done.
    destruct (Hok eq_refl) as [_ Hd]. destruct Ht as (pre & Hl & Hp). split; [exists pre; by rewrite Hs|].
    rewrite Hd. apply prefix_length in Hp. rewrite length_app in Hp. lia.
  - simplify_eq. destruct Ht as [Hp Hle]. destruct Hsh as [Hv Hq Hm Hs Hd].
    apply (inv_goto marks (marks ++ [pos + length bs]%nat) st); [done|done|by apply prefix_app_r|apply grows_refl| |].
    + split; cbn [g_file g_seq g_synced with_inner with_seq]; try done.
      * rewrite length_app. simpl. lia.
      * apply Forall_app_2; [done|by constructor].
      * lia.
      * eapply (durable_grows marks); [by apply prefix_app_r|apply grows_refl|lia|done].
    + split; [done|]. split; [lia|]. rewrite Hq. replace (Z.to_nat _) with (length marks) by lia.
      rewrite lookup_app_r, Nat.sub_diag by lia. done.
  - simplify_eq. eapply inv_quiet; try done. split; [done|]. rewrite (sh_seq _ _ Hsh). by eapply counted_seq.
  - destruct Ht as [Hk Hc]. destruct (target <=? g_synced st) eqn:E; bool_to_prop; simplify_eq; eapply inv_quiet; try done.
    eapply (counted_durable marks); [done| |apply Hsh]. lia.
  - destruct (g_gate st); simplify_eq. by eapply inv_quiet.
  - simplify_eq. eapply inv_quiet; try done. split; [done|]. rewrite (sh_seq _ _ Hsh). split; [by eapply counted_seq|done].
  - destruct Ht as [Hk Hc]. destruct (c <=? g_synced st) eqn:E; bool_to_prop; simplify_eq; eapply inv_quiet; try done.
    eapply (counted_durable marks); [done| |apply Hsh]. lia.
  - destruct (g_inner st); [done|]. unfold io_of in Hstep. destruct (bw_flush _) as [r [f d]] eqn:E.
    apply bw_flush_spec in E as (He & Hs & _ & Hok). destruct Ht as [Hk Hc].
    assert (Hg : grows (g_file st) f) by (apply extends_grows; [done|by rewrite Hs]).
    destruct r as [[]|m]; simplify_eq; eapply inv_file; try done; cbn [g_file with_file with_gate fst]; rewrite ?Hs; try done.
    split; [by eapply counted_grows|done].
  - unfold io_of in Hstep. destruct (os_sync _) as [r [f d]] eqn:E.
    apply os_sync_spec in E as (He & Hs & _ & Hdata & Hok); [|apply Hsh]. destruct Ht as [Hk Hc].
    assert (Hg : grows (g_file st) f) by (apply extends_grows; [done|by rewrite Hs]).
    destruct r as [[]|m]; simplify_eq; eapply inv_file; try done; cbn [g_file with_file with_gate fst]; rewrite ?Hs; try done.
    split; [by eapply counted_grows|]. split; [done|]. intros i m Hi _. rewrite (Hok eq_refl), Hdata.
    pose proof (sh_marks _ _ Hsh) as Hm. rewrite Forall_lookup in Hm. by eapply Hm.
  - destruct Ht as (Hk & Hc & Hd). simplify_eq. destruct Hsh as [Hv Hq Hm Hs Hd0].
    apply (inv_goto marks marks st); [done|done|done|apply grows_refl| |by eapply counted_durable; [done| |exact Hd]; lia].
    split; cbn [g_file g_seq g_synced with_gate with_synced]; try done; [lia|].
    intros i m Hi Hlt. destruct (Z.max_spec (g_synced st) c) as [[_ Hmax]|[_ Hmax]]; rewrite Hmax in Hlt; eauto.
  - destruct (g_inner st); simplify_eq. by eapply inv_quiet.
  - destruct (g_inner st); simplify_eq. by eapply inv_quiet.
Qed.

(** C8: Group commit keeps the promise of [appendfsync always] for every writer: however the writes and the barriers of any number of threads interleave, and whatever the disk refuses, a thread whose barrier reports success has its whole record in the durable part of the file, also when the fsync was issued by another thread. *)
Theorem group_commit_durable existing disk st t pos bs :
  reachable (opened existing disk) st → g_pc st t = Acknowledged pos bs →
  (pos + length bs ≤ f_durable (g_file st))%nat ∧
  take (length bs) (drop pos (take (f_durable (g_file st)) (f_data (g_file st)))) = bs.
Proof.
  intros Hr Ht. assert (Hinv : inv st).
  { clear Ht. induction Hr as [|st st' t' bs' _ IH Hs]; [|by eapply step_inv].
    exists []. split; [|done]. split; [done|done|constructor|simpl; lia|by intros i m Hi]. }
  destruct Hinv as (marks & [Hv _ _ _ _] & Hpc). specialize (Hpc t). rewrite Ht in Hpc.
  destruct Hpc as [(pre & Hl & [post Hp]) Hle]. split; [done|]. unfold stream in Hp.
  rewrite <- (take_app_le (f_data (g_file st)) (f_buf (g_file st))) by done. rewrite Hp.
  rewrite <- app_assoc, skipn_firstn_comm, drop_app_length' by done.
  rewrite take_take, Nat.min_l by lia. by rewrite take_app_length.
Qed.

(** Two writers, one fsync: thread 1 acknowledges on the barrier of thread 0. *)
Definition schedule (l : list (nat * bytes)) (st : State) : option State :=
  fold_left (λ o p, o ≫= thread_step p.1 p.2) l (Some st).

Lemma schedule_reachable l st0 st st' :
  reachable st0 st → schedule l st = Some st' → reachable st0 st'.
Proof.
  unfold schedule. revert st. induction l as [|[t bs] l IH]; intros st Hr; simpl; [by intros [= <-]|].
  destruct (thread_step t bs st) as [st1|] eqn:E; [intros Hl; eapply IH; [by eapply reach_step|done]|].
  intros Hl. exfalso. clear -Hl. induction l; [done|by apply IHl].
Qed.

Definition two_writers : list (nat * bytes) :=
  let a := str "A" in let b := str "BB" in
  [ (0, a); (0, a); (0, a); (0, a); (1, b); (1, b); (1, b); (1, b);  (* both written and published *)
    (0, a); (1, b); (0, a); (1, b);                                  (* both load their target and queue *)
    (0, a); (0, a); (0, a); (0, a); (0, a); (0, a);                  (* thread 0: gate, covered, flush, fsync *)
    (1, b); (1, b); (1, b) ]%nat.                                    (* thread 1: gate, covered, skipped *)

Lemma group_commit_durable_witness :
  ∃ st, reachable (opened [] []) st ∧ g_pc st 1%nat = Acknowledged 1 (str "BB") ∧
    (1 + length (str "BB") ≤ f_durable (g_file st))%nat.
Proof.
  destruct (schedule two_writers (opened [] [])) as [st|] eqn:E; [|by vm_compute in E].
  assert (Hr : reachable (opened [] []) st) by (eapply schedule_reachable; [apply reach_start|exact E]).
  assert (Ht : g_pc st 1%nat = Acknowledged 1 (str "BB")) by (vm_compute in E; injection E as <-; vm_compute; reflexivity).
  exists st. split; [exact Hr|]. split; [exact Ht|].
  apply (group_commit_durable [] [] st 1 1 (str "BB") Hr Ht).
Defined.

(** ** A rewrite in between *)

(** The swap of [finish_rewrite], under the lock of [inner]: the new file holds the
    snapshot and the delta, all of it fsynced, and the counters start again. *)
Definition swap (data : bytes) (st : State) : option State :=
  match g_inner st with
  | None =>
      Some (with_synced 0 (with_seq 0
        (with_file ({| f_data := data; f_durable := length data; f_buf := [] |}, g_disk st) st)))
  | Some _ => None
  end.

(** Thread 0 writes and is about to fsync when the files are swapped; then it
    finishes and thread 1 writes. *)
Definition swapped_under_barrier : option State :=
  st ← schedule [(0, str "A"); (0, []); (0, []); (0, []); (0, []); (0, []); (0, []); (0, []); (0, []); (0, [])]%nat
         (opened [] []);
  st ← swap (str "A") st;
  schedule [(0, []); (0, []); (1, str "BB"); (1, []); (1, []); (1, []); (1, []); (1, [])]%nat st.

(** The barrier of thread 0 puts the count of the old file back after the swap, and
    thread 1 is told that its record is durable when only the first byte is. *)
Example swap_misleads_barrier :
  (λ st, (g_pc st 1%nat, f_durable (g_file st))) <$> swapped_under_barrier
  = Some (Acknowledged 1 (str "BB"), 1%nat).
Proof. vm_compute. reflexivity. Qed.
