(* ===== verification/Shutdown.v ===== *)
(** * The shutdown signal (src/src/network/shutdown.rs)

    A flag and a [tokio::sync::Notify]: [trigger] on some threads and [notified] on
    any number of tasks, step by step as they interleave. The notifier is a
    parameter with what its documentation promises; the theorem is that no task
    misses the signal. *)
From S2P Require Import Prelude.
From Stdlib Require Import ZArith Lia.
From stdpp Require Import gmap numbers functions list.

(** [tokio::sync::Notify]: a future made by [notified()] is ready once
    [notify_waiters()] has been called after it was made, polled or not. *)
Class Notify := {
  notify : Type;
  waiter : Type;
  new_waiter : notify → waiter;
  notify_waiters : notify → notify;
  ready : notify → waiter → bool;
  ready_after : ∀ n k, ready (Nat.iter (S k) notify_waiters n) (new_waiter n) = true;
}.

(** Where a thread is: in [notified], in [trigger], or elsewhere. *)
Inductive Pc {waiter : Type} :=
| Calling                    (* [notified] called *)
| Probed                     (* the flag was not set *)
| Armed (w : waiter)         (* the waiter is made *)
| Parked (w : waiter)        (* the flag was not set again; awaiting *)
| Resolved                   (* [notified] returned *)
| Triggering                 (* [trigger] called *)
| Stored                     (* the flag is set *)
| Triggered.                 (* the waiters are notified; [trigger] returned *)
Arguments Pc : clear implicits.

Section shutdown.
Context `{Notify}.

(** [Shutdown], with the threads that use it. *)
Record State := { flag : bool; notifier : notify; pc : nat → Pc waiter }.

Definition goto (t : nat) (p : Pc waiter) (st : State) : State :=
  {| flag := flag st; notifier := notifier st; pc := <[t := p]> (pc st) |}.

(** [is_triggered] *)
Definition is_triggered (st : State) : bool := flag st.

(** One step of thread [t]; [None] while it has to wait. *)
Definition thread_step (t : nat) (st : State) : option State :=
  match pc st t with
  (* notified *)
  | Calling => Some (goto t (if is_triggered st then Resolved else Probed) st)
  | Probed => Some (goto t (Armed (new_waiter (notifier st))) st)
  | Armed w => Some (goto t (if is_triggered st then Resolved else Parked w) st)
  | Parked w => if ready (notifier st) w then Some (goto t Resolved st) else None
  | Resolved => None
  (* trigger *)
  | Triggering => Some (goto t Stored {| flag := true; notifier := notifier st; pc := pc st |})
  | Stored => Some (goto t Triggered {| flag := flag st; notifier := notify_waiters (notifier st); pc := pc st |})
  | Triggered => None
  end.

(** A fresh signal: every thread is about to call [notified] or [trigger]. *)
Definition fresh_signal (n : notify) (callers : nat → bool) : State :=
  {| flag := false; notifier := n; pc := λ t, if callers t then Triggering else Calling |}.

Inductive reachable (st0 : State) : State → Prop :=
| reach_start : reachable st0 st0
| reach_step st st' t : reachable st0 st → thread_step t st = Some st' → reachable st0 st'.

(** ** The invariant *)

(** The waiter [w] was made [k] notifications ago. *)
Definition made (st : State) (w : waiter) (k : nat) : Prop :=
  ∃ n, w = new_waiter n ∧ notifier st = Nat.iter k notify_waiters n.

Record inv (st : State) : Prop := {
  inv_flag t : pc st t = Stored ∨ pc st t = Triggered → flag st = true;
  inv_armed t w : pc st t = Armed w → ∃ k, made st w k;
  inv_parked t w : pc st t = Parked w → ∃ k, made st w k ∧ (k = 0%nat → ∀ t', pc st t' ≠ Triggered);
}.

(** A step of one thread that does not touch the notifier. *)
Lemma signal_inv_goto t p f st :
  inv st → (flag st = true → f = true) →
  (p = Stored ∨ p = Triggered → f = true) →
  (∀ w, p = Armed w → ∃ k, made st w k) →
  (∀ w, p = Parked w → flag st = false ∧ ∃ k, made st w k) → p ≠ Triggered → pc st t ≠ Triggered →
  inv (goto t p {| flag := f; notifier := notifier st; pc := pc st |}).
Proof using Type.
  intros [H1 H2 H3] Hf Hs Ha Hp Hnt Hold. split; unfold goto; cbn [flag notifier pc]; intros t'.
  - destruct (decide (t = t')) as [->|Hne]; [by rewrite fn_lookup_insert|].
    rewrite fn_lookup_insert_ne by done. eauto.
  - intros w. destruct (decide (t = t')) as [->|Hne]; [rewrite fn_lookup_insert; apply Ha|].
    rewrite fn_lookup_insert_ne by done. apply H2.
  - intros w Hw. assert (Hno : ∀ k, (k = 0%nat → ∀ t', pc st t' ≠ Triggered) → k = 0%nat →
      ∀ t'', <[t := p]> (pc st) t'' ≠ Triggered).
    { intros k Hk Hk0 t''. destruct (decide (t = t'')) as [->|Hne]; [by rewrite fn_lookup_insert|].
      rewrite fn_lookup_insert_ne by done. by apply Hk. }
    destruct (decide (t = t')) as [->|Hne].
    + rewrite fn_lookup_insert in Hw. destruct (Hp w Hw) as (Hfl & k & Hk). exists k. split; [done|].
      apply Hno. intros _ t'' Ht. specialize (H1 t'' (or_intror Ht)). congruence.
    + rewrite fn_lookup_insert_ne in Hw by done. destruct (H3 t' w Hw) as (k & Hk & Hk0). exists k.
      split; [done|]. by apply Hno.
Qed.

Lemma signal_step_inv t st st' : thread_step t st = Some st' → inv st → inv st'.
Proof using Type.
  intros Hs Hi. unfold thread_step, is_triggered in Hs. destruct st as [f n p]. cbn [pc flag notifier] in *.
  destruct (p t) as [| |w|w| | | |] eqn:Ep; try done.
  - destruct f; simplify_eq; apply (signal_inv_goto t _ _ _ Hi); cbn; rewrite ?Ep; try done; by intros [|].
  - simplify_eq. apply (signal_inv_goto t _ _ _ Hi); cbn; rewrite ?Ep; try done; try (by intros [|]).
    intros w [= <-]. exists 0%nat. by exists n.
  - destruct f; simplify_eq; apply (signal_inv_goto t _ _ _ Hi); cbn; rewrite ?Ep; try done; try (by intros [|]).
    intros w' [= <-]. split; [done|]. by eapply (inv_armed _ Hi).
  - destruct (ready n w); simplify_eq. apply (signal_inv_goto t _ _ _ Hi); cbn; rewrite ?Ep; try done; by intros [|].
  - simplify_eq. apply (signal_inv_goto t _ _ _ Hi); cbn; rewrite ?Ep; try done; by intros [|].
  - simplify_eq. destruct Hi as [H1 H2 H3]. cbn [pc flag notifier] in *.
    assert (Hmade : ∀ w k, made {| flag := f; notifier := n; pc := p |} w k →
      ∀ q, made {| flag := f; notifier := notify_waiters n; pc := q |} w (S k)).
    { intros w k (n0 & -> & Hn) q. exists n0. split; [done|]. cbn in *. by rewrite Hn. }
    split; unfold goto; cbn [flag notifier pc]; intros t'.
    + intros _. apply (H1 t). by left.
    + intros w. destruct (decide (t = t')) as [->|Hne]; [by rewrite fn_lookup_insert|].
      rewrite fn_lookup_insert_ne by done. intros [k Hk]%H2. eauto.
    + intros w. destruct (decide (t = t')) as [->|Hne]; [by rewrite fn_lookup_insert|].
      rewrite fn_lookup_insert_ne by done. intros (k & Hk & _)%H3. exists (S k). split; [eauto|done].
Qed.

Lemma reachable_inv n callers st : reachable (fresh_signal n callers) st → inv st.
Proof using Type.
  induction 1 as [|st st' t _ IH Hs]; [|by eapply signal_step_inv].
  split; cbn; intros t; destruct (callers t); by intros; repeat destruct_or?.
Qed.

(** Running one thread alone. *)
Fixpoint run_alone (k : nat) (t : nat) (st : State) : State :=
  match k with
  | O => st
  | S k => match thread_step t st with Some st' => run_alone k t st' | None => st end
  end.

Lemma run_alone_reachable k t st0 st : reachable st0 st → reachable st0 (run_alone k t st).
Proof using Type.
  revert st. induction k as [|k IH]; intros st Hr; [done|]. cbn [run_alone].
  destruct (thread_step t st) eqn:E; [|done]. by eapply IH, reach_step.
Qed.
Lemma run_step k t st st' :
  thread_step t st = Some st' → pc (run_alone k t st') t = Resolved → pc (run_alone (S k) t st) t = Resolved.
Proof using Type. cbn [run_alone]. by intros ->. Qed.
Lemma run_resolved k t st : pc st t = Resolved → pc (run_alone k t st) t = Resolved.
Proof using Type. intros He. destruct k; [done|]. cbn [run_alone]. unfold thread_step. by rewrite He. Qed.

(** A task in [notified]. *)
Definition in_notified (p : Pc waiter) : Prop :=
  match p with Calling | Probed | Armed _ | Parked _ => True | _ => False end.

(** C22: The shutdown signal is never missed: however the tasks and the threads that trigger it interleave, once one call of [trigger] has returned, every task that is in [notified], at whatever point, comes out of it within three steps of its own; in particular a task that armed its waiter just before the signal is not left asleep. *)
Theorem shutdown_never_missed n callers st t t' :
  reachable (fresh_signal n callers) st → pc st t' = Triggered → in_notified (pc st t) →
  pc (run_alone 3 t st) t = Resolved.
Proof using Type.
  intros Hr Ht' Ht. apply reachable_inv in Hr as Hi. destruct Hi as [H1 H2 H3].
  assert (Hf : flag st = true) by (apply (H1 t'); by right).
  destruct (pc st t) as [| |w|w| | | |] eqn:Ep; try done.
  - eapply run_step; [unfold thread_step; by rewrite Ep|]. unfold is_triggered. rewrite Hf.
    apply run_resolved, fn_lookup_insert.
  - eapply run_step; [unfold thread_step; by rewrite Ep|].
    eapply run_step; [unfold thread_step; cbn [pc goto]; by rewrite fn_lookup_insert|].
    unfold is_triggered. cbn [flag goto]. rewrite Hf. apply run_resolved, fn_lookup_insert.
  - eapply run_step; [unfold thread_step; by rewrite Ep|]. unfold is_triggered. rewrite Hf.
    apply run_resolved, fn_lookup_insert.
  - destruct (H3 t w Ep) as ([|k] & (n0 & -> & Hn) & Hk0); [by destruct (Hk0 eq_refl t')|].
    eapply run_step; [unfold thread_step; by rewrite Ep, Hn, ready_after|]. apply run_resolved, fn_lookup_insert.
Qed.
End shutdown.

(** A notifier that counts the notifications. *)
#[export] Program Instance counting_notify : Notify := {|
  notify := nat; waiter := nat; new_waiter := id; notify_waiters := S; ready := λ n w, (w <? n)%nat |}.
Next Obligation.
  intros n k. apply Nat.ltb_lt. unfold id. induction k as [|k IH]; cbn in *; lia.
Qed.

(** Task 0 arms its waiter, thread 1 triggers, and task 0 comes out. *)
Definition signal_example : State := @fresh_signal counting_notify 0%nat (λ t, (t =? 1)%nat).

Lemma shutdown_never_missed_witness :
  let st := run_alone 2 1 (run_alone 3 0 signal_example) in
  pc st 0%nat = Parked 0%nat ∧ pc st 1%nat = Triggered ∧ pc (run_alone 3 0 st) 0%nat = Resolved.
Proof.
  intros st.
  assert (Hr : reachable signal_example st).
  { do 2 apply run_alone_reachable. apply reach_start. }
  split; [reflexivity|]. split; [reflexivity|].
  exact (@shutdown_never_missed counting_notify 0%nat (λ t, (t =? 1)%nat) st 0 1 Hr eq_refl I).
Defined.
