(* ===== verification/Rewrite.v ===== *)
(** * The rewrite of the log beside appends
      (src/src/persistence/writer.rs, src/src/storage/engine/mod.rs)

    [write_bytes] on any number of threads and the workers of [BGREWRITEAOF], step by
    step: an append holds [rewrite_lock] (and the file) from its write to its mirroring, a
    worker takes it only for the swap, and the flag that ties them together is a bare
    atomic. The file and the failures of the disk are those of the writer's model. Two
    workers past their renames at once are not followed: the second has nothing left to
    swap in. The theorem is that a rewrite that ends well has kept every append made meanwhile; the
    examples are the three windows in which the code does not keep them. *)
From S2P Require Import Prelude Error Encoder Aof.
From Stdlib Require Import ZArith Lia.
From stdpp Require Import gmap strings numbers list.
Local Open Scope Z_scope.

(** [write_bytes] up to the point where it looks at the flag. *)
Definition append_half (bs : bytes) : WM () :=
  lift_io (persist_err "aof write failed: ") (bw_write_all BUFWRITER_CAP bs);;
  policy ← gets w_policy;
  match policy with
  | Always =>
      lift_io (persist_err "aof flush failed: ") bw_flush;;
      modify (λ w, set_counters (wrap64 (w_seq w + 1)) (w_synced w) (w_fsyncs w) (w_fsync_skips w) w)
  | EverySec | No => mret tt
  end.

Lemma write_bytes_halves bs w : write_bytes bs w = (append_half bs;; mirror_delta bs) w.
Proof.
  unfold write_bytes, append_half, mbind, se_bind.
  destruct (lift_io _ _ w) as [[[]|e] w1]; [|done]. unfold gets. destruct (w_policy w1); [|done..].
  by destruct (lift_io _ bw_flush w1) as [[[]|e] w2].
Qed.

(** Where a worker of [BGREWRITEAOF] is. *)
Inductive Phase :=
| Claimed                                             (* the slot is taken *)
| Saved (snap : list (bytes * bytes * option Z))      (* the temporary file is complete *)
| Checked (snap : list (bytes * bytes * option Z))    (* the flag was set *)
| Renamed (snap : list (bytes * bytes * option Z))    (* the path names the new file *)
| Finished (snap : list (bytes * bytes * option Z))
| Stopped.

(** Every worker so far, with what appends wrote while it was running (for the
    statements only). [temp] is the file at the temporary path, which all workers share;
    [moved] the one the log's path names while that is not the file the writer has open. *)
Record State := {
  writer : AofWriter;
  lock : option (nat * bytes);    (* who holds [rewrite_lock], with its record *)
  workers : list (Phase * bytes);
  temp : option BufFile;
  moved : option BufFile;
}.

Inductive Step :=
| BeginAppend (t : nat) (bs : bytes)
| EndAppend
| Barrier
| Claim
| Save (i : nat) (snap : list (bytes * bytes * option Z))
| CheckFlag (i : nat)
| Rename (i : nat)
| Swap (i : nat).

Definition active (x : Phase) : bool :=
  match x with Claimed | Saved _ | Checked _ | Renamed _ => true | Finished _ | Stopped => false end.

Definition saw (bs : bytes) (p : Phase * bytes) : Phase * bytes :=
  (p.1, if active p.1 then p.2 ++ bs else p.2).

Definition go (i : nat) (x : Phase) (ws : list (Phase * bytes)) : list (Phase * bytes) :=
  alter (λ p, (x, p.2)) i ws.

(** The phase of a worker. *)
Definition at_phase (i : nat) (st : State) : option Phase := fst <$> workers st !! i.

(** Whether the swap gets as far as replacing the open file. *)
Definition reopens (w : AofWriter) : bool :=
  match (lift_io IoError os_call;; lift_io IoError os_call) w with (Ok _, _) => true | (Err _, _) => false end.

Definition step (s : Step) (st : State) : option State :=
  match s with
  | BeginAppend t bs =>
      match lock st with
      | Some _ => None
      | None =>
          let '(r, w) := append_half bs (writer st) in
          Some {| writer := w; lock := match r with Ok _ => Some (t, bs) | Err _ => None end;
                  workers := workers st; temp := temp st; moved := moved st |}
      end
  | EndAppend =>
      match lock st with
      | None => None
      | Some (_, bs) =>
          Some {| writer := (mirror_delta bs (writer st)).2; lock := None;
                  workers := saw bs <$> workers st; temp := temp st; moved := moved st |}
      end
  (* [sync_if_needed] needs the file, which an append holds with the lock *)
  | Barrier =>
      match lock st with
      | Some _ => None
      | None =>
          Some {| writer := (sync_if_needed (writer st)).2; lock := None;
                  workers := workers st; temp := temp st; moved := moved st |}
      end
  (* [try_begin_rewrite] *)
  | Claim =>
      match try_begin_rewrite (writer st) with
      | (Ok true, w) =>
          Some {| writer := w; lock := lock st; workers := workers st ++ [(Claimed, [])];
                  temp := temp st; moved := moved st |}
      | _ => None
      end
  (* [perform_aof_rewrite] *)
  | Save i snap =>
      match at_phase i st with
      | Some Claimed =>
          if negb (w_rewriting (writer st)) then
            Some {| writer := writer st; lock := lock st; workers := go i Stopped (workers st);
                    temp := temp st; moved := moved st |}
          else
            match serialise_compact_aof snap (writer st) with
            | (Ok f, w) =>
                Some {| writer := w; lock := lock st; workers := go i (Saved snap) (workers st);
                        temp := Some f; moved := moved st |}
            | (Err _, w) =>
                Some {| writer := (abort_rewrite w).2; lock := lock st; workers := go i Stopped (workers st);
                        temp := None; moved := moved st |}
            end
      | _ => None
      end
  (* [finish_rewrite] *)
  | CheckFlag i =>
      match at_phase i st with
      | Some (Saved snap) =>
          if w_rewriting (writer st) then
            Some {| writer := writer st; lock := lock st; workers := go i (Checked snap) (workers st);
                    temp := temp st; moved := moved st |}
          else
            Some {| writer := writer st; lock := lock st; workers := go i Stopped (workers st);
                    temp := None; moved := moved st |}
      | _ => None
      end
  | Rename i =>
      match at_phase i st, temp st with
      | Some (Checked snap), Some f =>
          match lift_io IoError os_call (writer st) with
          | (Ok _, w) =>
              Some {| writer := w; lock := lock st; workers := go i (Renamed snap) (workers st);
                      temp := None; moved := Some f |}
          | (Err _, w) =>
              Some {| writer := w; lock := lock st; workers := go i Stopped (workers st);
                      temp := None; moved := moved st |}
          end
      | Some (Checked snap), None =>
          (* another worker has taken the file away *)
          Some {| writer := writer st; lock := lock st; workers := go i Stopped (workers st);
                  temp := None; moved := moved st |}
      | _, _ => None
      end
  | Swap i =>
      match at_phase i st, lock st, moved st with
      | Some (Renamed snap), None, Some f =>
          let '(r, w) := install_rewrite f (writer st) in
          Some {| writer := w; lock := None; temp := temp st;
                  moved := if reopens (writer st) then None else Some f;
                  workers := go i (match r with Ok _ => Finished snap | Err _ => Stopped end) (workers st) |}
      | _, _, _ => None
      end
  end.

(** A writer before any rewrite. *)
Definition started (w : AofWriter) : State :=
  {| writer := w; lock := None; workers := []; temp := None; moved := None |}.

Fixpoint steps (l : list Step) (st : State) : option State :=
  match l with [] => Some st | s :: l' => st' ← step s st; steps l' st' end.

(** ** The invariant *)

(** The file of a worker holds its snapshot, all of it durable. *)
Definition compact (snap : list (bytes * bytes * option Z)) (f : option BufFile) : Prop :=
  ∃ f', f = Some f' ∧ f_data f' = concat (concat (map compact_record snap)) ∧
    f_durable f' = length (f_data f').

Definition file_ok (x : Phase) (st : State) : Prop :=
  match x with
  | Saved snap | Checked snap => compact snap (temp st)
  | Renamed snap => compact snap (moved st)
  | _ => True
  end.

(** No worker so far has seen more appends than the delta can hold. *)
Definition fits (cap : Z) (st : State) : Prop := Forall (λ p, blen p.2 ≤ cap) (workers st).

Record inv (cap : Z) (st : State) : Prop := {
  inv_cap : w_delta_cap (writer st) = cap;
  inv_idle : w_rewriting (writer st) = false → w_delta (writer st) = [];
  inv_one : fits cap st → ∀ i j p q, workers st !! i = Some p → workers st !! j = Some q →
    active p.1 = true → active q.1 = true → i = j;
  inv_delta : fits cap st → ∀ i x s, workers st !! i = Some (x, s) → active x = true →
    w_rewriting (writer st) = true ∧ w_delta (writer st) = s ∧ file_ok x st;
}.

(** Steps that leave the flag and the delta alone. *)
Definition same_delta (w w' : AofWriter) : Prop :=
  w_delta_cap w' = w_delta_cap w ∧ w_rewriting w' = w_rewriting w ∧ w_delta w' = w_delta w.

Lemma lift_io_same err (m : Io ()) w : same_delta w (lift_io err m w).2.
Proof. unfold lift_io. by destruct (m _) as [[] []]. Qed.

Lemma same_delta_refl w : same_delta w w.
Proof. done. Qed.

Lemma same_delta_trans w1 w2 w3 : same_delta w1 w2 → same_delta w2 w3 → same_delta w1 w3.
Proof. intros (?&?&?) (?&?&?). unfold same_delta. split_and!; congruence. Qed.

(** An operation built from file operations and counters leaves them alone. *)
Lemma bind_same {A B} (m : WM A) (k : A → WM B) w :
  same_delta w (m w).2 → (∀ a w', same_delta w' (k a w').2) → same_delta w ((m ≫= k) w).2.
Proof.
  unfold mbind, se_bind. intros H Hk. destruct (m w) as [[a|e] w1]; [|done].
  eapply same_delta_trans; [exact H|apply Hk].
Qed.

Lemma append_half_same bs w : same_delta w (append_half bs w).2.
Proof.
  unfold append_half. apply bind_same; [apply lift_io_same|]. intros _ w1.
  apply bind_same; [done|]. intros p w2. destruct p; [|done..].
  apply bind_same; [apply lift_io_same|]. done.
Qed.

Lemma sync_same w : same_delta w (sync_if_needed w).2.
Proof.
  unfold sync_if_needed. apply bind_same; [done|]. intros w0 w1.
  destruct (negb _); [done|]. destruct (_ <=? _); [done|].
  repeat (apply bind_same; [apply lift_io_same|intros _ ?]). done.
Qed.

Lemma serialise_same snap w : same_delta w (serialise_compact_aof snap w).2.
Proof. unfold serialise_compact_aof. by case_match; case_match. Qed.

(** Append steps: the workers keep their phases. *)
Lemma inv_same cap st w l :
  inv cap st → same_delta (writer st) w →
  inv cap {| writer := w; lock := l; workers := workers st; temp := temp st; moved := moved st |}.
Proof.
  intros [H1 H2 H3 H4] (S1 & S2 & S3). split; simpl; [congruence|by rewrite S2, S3|done|].
  intros Hf i x s Hi Ha. rewrite S2, S3. by apply (H4 Hf i x s).
Qed.

Lemma fits_saw cap bs st w l t m :
  fits cap {| writer := w; lock := l; workers := saw bs <$> workers st; temp := t; moved := m |} →
  fits cap st.
Proof.
  unfold fits. cbn [workers]. rewrite Forall_fmap. intros H. eapply Forall_impl; [exact H|]. intros [x s]. unfold saw, blen.
  simpl. destruct (active x); rewrite ?length_app; lia.
Qed.

(** An append's mirroring: the workers see the record, and the delta has it as long as
    all of it fits. *)
Lemma inv_mirror cap st bs :
  inv cap st →
  inv cap {| writer := (mirror_delta bs (writer st)).2; lock := None;
             workers := saw bs <$> workers st; temp := temp st; moved := moved st |}.
Proof.
  intros [H1 H2 H3 H4]. split.
  - unfold mirror_delta, modify. simpl. by repeat case_match.
  - unfold mirror_delta, modify. simpl. case_match eqn:E; [case_match|]; simpl; [done..|by rewrite E].
  - intros Hf i j p q. cbn [workers]. rewrite !list_lookup_fmap.
    intros (p' & Hi & ->)%fmap_Some (q' & Hj & ->)%fmap_Some. cbn [saw fst].
    apply (H3 (fits_saw _ _ _ _ _ _ _ Hf) i j p' q'); done.
  - intros Hf i x s. pose proof Hf as Hf'. unfold fits in Hf'. cbn [workers] in *.
    intros Hi Ha. pose proof (Forall_lookup_1 _ _ _ _ Hf' Hi) as Hle. simpl in Hle.
    rewrite list_lookup_fmap in Hi. apply fmap_Some in Hi as ([x' s'] & Hi & Hp).
    unfold saw in Hp. simpl in Hp. injection Hp as -> ->. rewrite Ha in Hle.
    destruct (H4 (fits_saw _ _ _ _ _ _ _ Hf) i x' s' Hi Ha) as (Hrw & Hd & Hok).
    unfold mirror_delta, modify. cbn [writer snd]. rewrite Hrw, Hd, H1, Ha.
    unfold blen in Hle. rewrite length_app in Hle.
    destruct (_ <? _) eqn:E; [apply Z.ltb_lt in E; unfold blen in E; lia|]. done.
Qed.

(** A worker's own step. *)
Lemma go_lookup i x ws j : go i x ws !! j = if decide (i = j) then (λ p, (x, p.2)) <$> ws !! i else ws !! j.
Proof. apply list_lookup_alter. Qed.

Lemma fits_go cap i x st w l t m :
  fits cap {| writer := w; lock := l; workers := go i x (workers st); temp := t; moved := m |} ↔ fits cap st.
Proof.
  unfold fits. cbn [workers]. rewrite !Forall_lookup. split; intros H j p Hj.
  - specialize (H j). rewrite go_lookup in H. case_decide; subst.
    + specialize (H (x, p.2)). rewrite Hj in H. by apply H.
    + by apply H.
  - rewrite go_lookup in Hj. case_decide; subst; [|by apply (H j)].
    apply fmap_Some in Hj as (q & Hq & ->). by apply (H j q).
Qed.

(** The swap of a file either clears the delta or leaves it alone. *)
Lemma install_delta f w :
  let '(r, w') := install_rewrite f w in
  w_delta_cap w' = w_delta_cap w ∧
  match r with Ok _ => w_rewriting w' = false ∧ w_delta w' = [] | Err _ => same_delta w w' end.
Proof.
  unfold install_rewrite, gets, mbind, se_bind.
  pose proof (lift_io_same (persist_err "aof reopen failed: ") os_call w) as S1.
  destruct (lift_io _ os_call w) as [[[]|] w1]; cbn [snd] in *; [|split; [apply S1|exact S1]].
  pose proof (lift_io_same (persist_err "aof reopen failed: ") os_call w1) as S2.
  pose proof (same_delta_trans _ _ _ S1 S2) as S12. clear S2.
  destruct (lift_io _ os_call w1) as [[[]|] w2]; cbn [snd] in *; [|split; [apply S12|exact S12]].
  unfold modify at 1. cbn beta iota. set (w3 := set_counters _ _ _ _ _).
  assert (S3 : same_delta w w3) by exact S12. clearbody w3. clear S1 S12.
  assert (H : ∀ m : WM (), (∀ w4, same_delta w4 (m w4).2) →
    let '(r, w') := match m w3 with (Ok a, s') => modify (set_rewrite false []) s' | (Err e, s') => (Err e, s') end in
    w_delta_cap w' = w_delta_cap w ∧
    match r with Ok _ => w_rewriting w' = false ∧ w_delta w' = [] | Err _ => same_delta w w' end).
  { intros m Hm. pose proof (same_delta_trans _ _ _ S3 (Hm w3)) as S. destruct (m w3) as [[a|e] w4]; cbn [snd] in S.
    - cbn. split; [apply S|done].
    - split; [apply S|done]. }
  destruct (w_delta w3) as [|b delta]; [by apply (H (mret tt))|].
  refine (H (lift_io (persist_err "aof rewrite delta replay failed: ") (bw_write_all BUFWRITER_CAP (b :: delta));;
             lift_io (persist_err "aof rewrite delta flush failed: ") bw_flush;;
             lift_io (persist_err "aof rewrite delta fsync failed: ") os_sync) _).
  intros w4. repeat (apply bind_same; [apply lift_io_same|intros _ ?]). apply lift_io_same.
Qed.

(** The step of a running worker [i]: while everything fits it is the only one. *)
Lemma inv_go cap st i x0 s0 x w l t m :
  inv cap st → workers st !! i = Some (x0, s0) → active x0 = true →
  w_delta_cap w = cap → (w_rewriting w = false → w_delta w = []) →
  (active x = true → w_rewriting (writer st) = true → file_ok x0 st →
    w_rewriting w = true ∧ w_delta w = w_delta (writer st) ∧
    file_ok x {| writer := w; lock := l; workers := go i x (workers st); temp := t; moved := m |}) →
  inv cap {| writer := w; lock := l; workers := go i x (workers st); temp := t; moved := m |}.
Proof.
  intros [H1 H2 H3 H4] Hi Ha0 Hcap Hidle Hx. split; [done|done|..].
  - intros Hf j k p q Hj Hk Hp Hq. rewrite fits_go in Hf. cbn [workers] in *. rewrite go_lookup in *.
    assert (Hjk : ∀ n r, (if decide (i = n) then (λ p, (x, p.2)) <$> workers st !! i else workers st !! n) = Some r →
      active r.1 = true → n = i).
    { intros n r. destruct (decide (i = n)); [by intros|]. intros Hn Hr. exact (H3 Hf _ _ _ _ Hn Hi Hr Ha0). }
    by rewrite (Hjk j p Hj Hp), (Hjk k q Hk Hq).
  - intros Hf j y s Hj Hy. rewrite fits_go in Hf. cbn [workers writer] in *. rewrite go_lookup in Hj.
    case_decide as E; [subst j|].
    + rewrite Hi in Hj. simpl in Hj. injection Hj as -> ->.
      destruct (H4 Hf _ _ _ Hi Ha0) as (Hrw & Hd & Hok). rewrite <- Hd. by apply Hx.
    + destruct E. symmetry. exact (H3 Hf _ _ _ _ Hj Hi Hy Ha0).
Qed.

Lemma at_phase_Some i st x : at_phase i st = Some x → ∃ s, workers st !! i = Some (x, s).
Proof. intros ([y s] & Hi & [= ->])%fmap_Some. eauto. Qed.

Lemma inv_claim cap st :
  inv cap st → w_rewriting (writer st) = false →
  inv cap {| writer := set_rewrite true (w_delta (writer st)) (writer st); lock := lock st;
             workers := workers st ++ [(Claimed, [])]; temp := temp st; moved := moved st |}.
Proof.
  intros [H1 H2 H3 H4] Hrw.
  assert (Hnone : fits cap {| writer := set_rewrite true (w_delta (writer st)) (writer st); lock := lock st;
      workers := workers st ++ [(Claimed, [])]; temp := temp st; moved := moved st |} →
    ∀ i p, (workers st ++ [(Claimed, [])]) !! i = Some p → active p.1 = true → i = length (workers st) ∧ p = (Claimed, [])).
  { unfold fits. cbn [workers]. rewrite Forall_app. intros [Hf _] i [x s] Hi Ha.
    apply lookup_app_Some in Hi as [Hi|[Hge Hi]].
    - destruct (H4 Hf _ _ _ Hi Ha) as [? _]. congruence.
    - apply list_lookup_singleton_Some in Hi as [? <-]. split; [lia|done]. }
  split; cbn [writer workers]; [done|done|..].
  - intros Hf i j p q Hi Hj Hp Hq. destruct (Hnone Hf _ _ Hi Hp) as [-> _]. by destruct (Hnone Hf _ _ Hj Hq).
  - intros Hf i x s Hi Ha. destruct (Hnone Hf _ _ Hi Ha) as [_ [= -> ->]]. simpl. by rewrite H2.
Qed.

Ltac worker_step Hinv Hi := refine (inv_go _ _ _ _ _ _ _ _ _ _ Hinv Hi eq_refl _ _ _); cbn [writer].

Lemma rewrite_step_inv cap s st st' : inv cap st → step s st = Some st' → inv cap st'.
Proof.
  intros Hinv. pose proof (inv_cap _ _ Hinv) as Hcap. pose proof (inv_idle _ _ Hinv) as Hidle.
  destruct s as [t bs| | | |i snap|i|i|i]; cbn [step].
  - destruct (lock st); [done|]. pose proof (append_half_same bs (writer st)) as Hs.
    destruct (append_half _ _) as [r w]. intros [= <-]. by apply inv_same.
  - destruct (lock st) as [[t bs]|]; [|done]. intros [= <-]. by apply inv_mirror.
  - destruct (lock st); [done|]. intros [= <-]. apply inv_same; [done|apply sync_same].
  - unfold try_begin_rewrite. destruct (w_rewriting _) eqn:E; [done|]. intros [= <-]. by apply inv_claim.
  - destruct (at_phase i st) as [[]|] eqn:Hp; [|done..]. apply at_phase_Some in Hp as [s Hi].
    destruct (w_rewriting (writer st)) eqn:Erw; simpl.
    + pose proof (serialise_same snap (writer st)) as (S1 & S2 & S3).
      destruct (serialise_compact_aof snap (writer st)) as [[f|e] w] eqn:E; cbn [snd] in *; intros [= <-].
      * apply serialise_compact_aof_spec in E as (E1 & E2 & _).
        worker_step Hinv Hi; [congruence|congruence|]. intros _ _ _. split_and!; [congruence|done|].
        exists f. done.
      * worker_step Hinv Hi; [simpl; congruence|done|done].
    + intros [= <-]. worker_step Hinv Hi; [done|apply (inv_idle _ _ Hinv)|done].
  - destruct (at_phase i st) as [[]|] eqn:Hp; [done| |done..]. apply at_phase_Some in Hp as [s Hi].
    destruct (w_rewriting (writer st)) eqn:Erw; intros [= <-]; worker_step Hinv Hi; try first [done|apply (inv_idle _ _ Hinv)].
  - destruct (at_phase i st) as [[]|] eqn:Hp; [done|done| |done..]. apply at_phase_Some in Hp as [s Hi].
    destruct (temp st) as [f|] eqn:Et; [|intros [= <-]; worker_step Hinv Hi; [done|apply (inv_idle _ _ Hinv)|done]].
    pose proof (lift_io_same IoError os_call (writer st)) as (S1 & S2 & S3).
    destruct (lift_io _ _ _) as [[[]|] w]; cbn [snd] in *; intros [= <-];
      (worker_step Hinv Hi; [congruence|rewrite S2, S3; exact Hidle|]); [|done].
    intros _ Hrw Hok. split_and!; [congruence|done|]. simpl in *. by rewrite Et in Hok.
  - destruct (at_phase i st) as [[]|] eqn:Hp; [done|done|done| |done..]. apply at_phase_Some in Hp as [s Hi].
    destruct (lock st); [done|]. destruct (moved st) as [f|]; [|done].
    pose proof (install_delta f (writer st)) as HD. destruct (install_rewrite _ _) as [[[]|] w]; intros [= <-];
      destruct HD as [D1 D2]; (worker_step Hinv Hi; [congruence| |done]).
    + by destruct D2.
    + destruct D2 as (_ & -> & ->). apply (inv_idle _ _ Hinv).
Qed.

Lemma steps_inv cap l st st' : inv cap st → steps l st = Some st' → inv cap st'.
Proof.
  revert st. induction l as [|s l IH]; simpl; intros st Hinv; [by intros [= <-]|].
  destruct (step s st) as [st1|] eqn:E; [|done]. simpl. apply IH. by eapply rewrite_step_inv.
Qed.

Lemma started_inv w : w_rewriting w = false → w_delta w = [] → inv (w_delta_cap w) (started w).
Proof. by split. Qed.

(** C9: a rewrite that ends well has kept every write made while it ran. In any
    interleaving of appends, barriers and rewrite workers in which no worker has seen
    more than the delta buffer holds, the swap that ends a worker well leaves a log that
    is its compact snapshot followed by exactly what appends wrote since the worker
    claimed the slot, in their order, all of it in the file and durable, with the slot
    free again. *)
Theorem rewrite_keeps_writes l w0 st i snap s st' :
  w_rewriting w0 = false → w_delta w0 = [] →
  steps l (started w0) = Some st → fits (w_delta_cap w0) st →
  workers st !! i = Some (Renamed snap, s) →
  step (Swap i) st = Some st' → at_phase i st' = Some (Finished snap) →
  let f := w_inner (writer st') in
  stream f = concat (concat (map compact_record snap)) ++ s ∧
  f_durable f = length (f_data f) ∧ f_buf f = [] ∧ w_rewriting (writer st') = false.
Proof.
  intros Hrw0 Hd0 Hl Hf Hi Hstep Hend.
  pose proof (steps_inv _ _ _ _ (started_inv _ Hrw0 Hd0) Hl) as Hinv.
  destruct (inv_delta _ _ Hinv Hf _ _ _ Hi eq_refl) as (Hrw & Hd & f & Hm & Hf1 & Hf2).
  cbn [step] in Hstep. unfold at_phase in Hstep. rewrite Hi, Hm in Hstep. cbn [fmap option_fmap option_map fst] in Hstep.
  destruct (lock st); [done|].
  destruct (install_rewrite f (writer st)) as [[[]|e] w] eqn:E; injection Hstep as <-.
  - apply install_rewrite_spec in E as (E1 & E2 & E3 & E4 & _); [|done]. cbn [writer].
    rewrite E1, Hf1, Hd. done.
  - unfold at_phase in Hend. cbn [workers] in Hend. rewrite go_lookup, decide_True, Hi in Hend by done. done.
Qed.

(** A run in which one append is made before the claim, one while the snapshot is written,
    and one after the rename. *)
Definition sample_run : list Step :=
  [BeginAppend 0 (str "a"); EndAppend; Claim; BeginAppend 0 (str "b"); Save 0 [(str "k", str "v", None)];
   EndAppend; CheckFlag 0; Rename 0; BeginAppend 1 (str "c"); EndAppend].

Lemma rewrite_keeps_writes_witness :
  (st ← steps sample_run (started (open Always [] [])); st' ← step (Swap 0) st;
   Some (stream (w_inner (writer st')))) =
  Some (concat (concat (map compact_record [(str "k", str "v", None)])) ++ str "bc").
Proof.
  destruct (steps sample_run (started (open Always [] []))) as [st|] eqn:E; [|vm_compute in E; discriminate].
  cbn [mbind option_bind]. pose proof E as E0. vm_compute in E0. injection E0 as E0.
  destruct (step (Swap 0) st) as [st'|] eqn:E'; [|rewrite <- E0 in E'; vm_compute in E'; discriminate].
  cbn [mbind option_bind].
  destruct (rewrite_keeps_writes sample_run (open Always [] []) st 0 [(str "k", str "v", None)] (str "bc") st') as [-> _];
    [reflexivity|reflexivity|exact E| | |exact E'| |reflexivity].
  - rewrite <- E0. repeat constructor; vm_compute; discriminate.
  - rewrite <- E0. vm_compute. reflexivity.
  - rewrite <- E0 in E'. vm_compute in E'. injection E' as <-. vm_compute. reflexivity.
Defined.

(** ** Three windows *)

(** What a restart after a power failure reads: the durable part of the file the path
    names. *)
Definition recovered (st : State) : bytes :=
  let f := match moved st with Some f => f | None => w_inner (writer st) end in
  take (f_durable f) (f_data f).

(** Under [appendfsync always] an append is acknowledged once its barrier has run; between
    the rename and the swap the barrier syncs the file that no longer has a name, so a
    power failure there loses the acknowledged write. *)
Example rename_window :
  (recovered <$> steps [Claim; Save 0 []; BeginAppend 0 (str "x"); EndAppend; Barrier]
     (started (open Always [] []))) = Some (str "x") ∧
  (recovered <$> steps [Claim; Save 0 []; BeginAppend 0 (str "x"); EndAppend; Barrier; CheckFlag 0; Rename 0]
     (started (open Always [] []))) = Some [].
Proof. vm_compute. done. Qed.

(** A small delta buffer, as the overflow needs one. *)
Definition small (cap : Z) : AofWriter :=
  let w := open Always [] [] in
  {| w_inner := w_inner w; w_disk := w_disk w; w_seq := 0; w_synced := 0; w_fsyncs := 0; w_fsync_skips := 0;
     w_policy := Always; w_rewriting := false; w_delta := []; w_delta_cap := cap |}.

(** An append that overflows the delta after the flag was checked aborts a rewrite that
    goes on all the same: the writes it saw are gone. *)
Example overflow_after_check :
  (recovered <$> steps [Claim; Save 0 []; BeginAppend 0 (str "xy"); EndAppend; CheckFlag 0; Rename 0;
                        BeginAppend 0 (str "z"); EndAppend; Barrier; Swap 0] (started (small 2))) = Some [].
Proof. vm_compute. done. Qed.

(** A second worker claims the slot an overflow freed while the first still runs: the first
    finds the flag set again and swaps in its own snapshot, without the writes made before
    the second claim. *)
Example aborted_rewrite_revived :
  (recovered <$> steps [Claim; Save 0 []; BeginAppend 0 (str "xyz"); EndAppend; Barrier;
                        Claim; CheckFlag 0; Rename 0; Swap 0] (started (small 2))) = Some [].
Proof. vm_compute. done. Qed.
