(* ===== verification/Background.v ===== *)
(** * The background threads
      (src/src/storage/expire.rs, src/src/persistence/writer.rs)

    The expiry sweeper and the AOF flusher are the same loop: sleep on a condition
    variable for an interval, look at the stop flag, work. The loop is a step system with
    a clock; the thread's own steps, the passing of time, spurious wake-ups, the owner's
    stop and wake-up and what other threads do to the shared data interleave freely.
    Between two rounds the thread spends at most [slack] outside its sleep. The theorems:
    the loop stops within one interval even when the wake-up is lost, the flusher leaves
    at most one interval of writes undurable, and repeated sweeps of the keyspace find
    every expired key. *)
From S2P Require Import Prelude Numeric Error Encoder IndexMap Entry Aof Engine Commands EngineInv MemoryLimit LogState.
From Stdlib Require Import ZArith Lia.
From stdpp Require Import gmap strings numbers list.
Local Open Scope Z_scope.

(** Where the thread is. *)
Inductive Pc :=
| Locking                  (* about to sleep *)
| Waiting (deadline : Z)   (* in [wait_timeout] *)
| Testing                  (* about to look at the stop flag *)
| Working (left : nat)     (* about to do one of at most [left] pieces of work *)
| Exited.

Section loop.
Context {A Op : Type}.
(** What a round does to the shared data at a moment, and whether it goes on at once. *)
Context (body : Z → A → A * bool).
(** What other threads do. *)
Context (outside : Op → Z → A → A).
Context (rounds : nat) (interval slack : Z).

(** [last] and [spent] are kept for the statements: when the thread last worked, and the
    time it has spent since outside its sleep. *)
Record State := {
  pc : Pc;
  stop : bool;
  guard : bool;     (* the flag behind the condition variable's mutex *)
  now : Z;
  data : A;
  last : Z;
  spent : Z;
}.

Inductive Move := Time (n : Z) | Run | Spurious | Trigger | Wake | Outside (op : Op).

Definition at_pc (p : Pc) (st : State) : State :=
  {| pc := p; stop := stop st; guard := guard st; now := now st; data := data st;
     last := last st; spent := spent st |}.

(** The end of the sleep, for whatever reason; the flag is reset. *)
Definition wake_up (st : State) : State :=
  {| pc := Testing; stop := stop st; guard := false; now := now st; data := data st;
     last := last st; spent := spent st |}.

Definition run (st : State) : option State :=
  match pc st with
  | Locking => Some (at_pc (Waiting (now st + interval)) st)
  | Waiting d => if d <=? now st then Some (wake_up st) else None
  | Testing => Some (at_pc (if stop st then Exited else Working rounds) st)
  | Working O => Some (at_pc Locking st)
  | Working (S k) =>
      let '(a, more) := body (now st) (data st) in
      Some {| pc := if more then Working k else Locking; stop := stop st; guard := guard st;
              now := now st; data := a; last := now st; spent := 0 |}
  | Exited => None
  end.

Definition step (m : Move) (st : State) : option State :=
  match m with
  | Time n =>
      let later s := {| pc := pc st; stop := stop st; guard := guard st; now := now st + n;
                        data := data st; last := last st; spent := s |} in
      if n <? 0 then None
      else match pc st with
           | Waiting d => if now st + n <=? d then Some (later (spent st)) else None
           | Exited => Some (later (spent st))
           | _ => if spent st + n <=? slack then Some (later (spent st + n)) else None
           end
  | Run => run st
  | Spurious => match pc st with Waiting _ => Some (wake_up st) | _ => None end
  | Trigger =>
      Some {| pc := pc st; stop := true; guard := guard st; now := now st; data := data st;
              last := last st; spent := spent st |}
  | Wake =>
      match pc st with
      | Waiting _ => Some (wake_up st)
      | _ => Some {| pc := pc st; stop := stop st; guard := true; now := now st; data := data st;
                     last := last st; spent := spent st |}
      end
  | Outside op =>
      Some {| pc := pc st; stop := stop st; guard := guard st; now := now st;
              data := outside op (now st) (data st); last := last st; spent := spent st |}
  end.

Definition spawned (p : Pc) (a : A) (t : Z) : State :=
  {| pc := p; stop := false; guard := false; now := t; data := a; last := t; spent := 0 |}.

Inductive reachable (st0 : State) : State → Prop :=
| reach_start : reachable st0 st0
| reach_step st st' m : reachable st0 st → step m st = Some st' → reachable st0 st'.

Fixpoint steps (ms : list Move) (st : State) : option State :=
  match ms with [] => Some st | m :: ms' => st' ← step m st; steps ms' st' end.

Lemma steps_reachable ms st0 st st' : reachable st0 st → steps ms st = Some st' → reachable st0 st'.
Proof using Type.
  revert st. induction ms as [|m ms IH]; cbn; intros st Hr; [by intros [= <-]|].
  destruct (step m st) as [st1|] eqn:E; [|done]. apply IH. by eapply reach_step.
Qed.

(** Nobody but the owner of the flag stops the thread: without it, it never exits. *)
Lemma never_unasked st0 ms st :
  pc st0 ≠ Exited → stop st0 = false → Forall (λ m, m ≠ Trigger) ms → steps ms st0 = Some st → pc st ≠ Exited ∧ stop st = false.
Proof using Type.
  intros Hp Hs Hms. revert st0 Hp Hs. induction Hms as [|m ms Hm Hms IH]; intros st0 Hp Hs; cbn; [by intros [= <-]|].
  destruct (step m st0) as [st1|] eqn:E; [|done]. cbn. apply IH; destruct m; cbn in E; try done.
  all: repeat case_match; simplify_eq; cbn; try done; unfold run in *; rewrite ?Hs in *.
  all: repeat case_match; simplify_eq; cbn; done.
Qed.

(** ** Rounds come in time *)

Definition timely (st : State) : Prop :=
  0 ≤ spent st ≤ slack ∧
  match pc st with
  | Locking => now st ≤ last st + spent st
  | Waiting d => now st ≤ d ∧ d ≤ last st + spent st + interval ∧ d ≤ now st + interval
  | Testing => now st ≤ last st + spent st + interval
  | Working k => (k ≤ rounds)%nat ∧
      now st ≤ last st + spent st + (if decide (k = rounds) then interval else 0)
  | Exited => True
  end.

Hypothesis interval_pos : 0 ≤ interval.
Hypothesis slack_pos : 0 ≤ slack.
Hypothesis rounds_pos : (0 < rounds)%nat.

Lemma step_timely m st st' : timely st → step m st = Some st' → timely st'.
Proof using interval_pos slack_pos rounds_pos.
  destruct st as [p b g t a la sp]. unfold timely. intros [Hs Hp]. destruct m; cbn in *.
  - destruct (n <? 0) eqn:En; [done|]. apply Z.ltb_ge in En.
    destruct p; try (destruct (_ <=? _) eqn:El; [|done]; apply Z.leb_le in El);
      intros [= <-]; cbn; repeat case_decide; lia.
  - unfold run. destruct p as [|d| |[|k]|]; cbn.
    + intros [= <-]. cbn. lia.
    + destruct (d <=? t); [|done]. intros [= <-]. cbn. lia.
    + destruct b; intros [= <-]; cbn; rewrite ?decide_True by done; lia.
    + intros [= <-]. cbn. rewrite decide_False in Hp by lia. lia.
    + destruct (body _ _) as [a' []]; intros [= <-]; cbn; [rewrite decide_False by lia|]; lia.
    + done.
  - destruct p; [done| |done..]. intros [= <-]. cbn. lia.
  - by intros [= <-].
  - destruct p; intros [= <-]; cbn; try done; lia.
  - by intros [= <-].
Qed.

Lemma reachable_timely st0 st : timely st0 → reachable st0 st → timely st.
Proof using interval_pos slack_pos rounds_pos.
  intros H0. induction 1 as [|st st' m _ IH Hs]; [done|]. by eapply step_timely.
Qed.

Lemma spawned_timely p a t : p = Locking ∨ p = Testing → timely (spawned p a t).
Proof using interval_pos slack_pos rounds_pos. intros [->| ->]; unfold timely; cbn; lia. Qed.

(** A running thread worked at most an interval and its own time ago. *)
Lemma timely_due st : timely st → pc st ≠ Exited → now st ≤ last st + interval + slack.
Proof using interval_pos slack_pos rounds_pos.
  intros [Hs Hp] Hne. destruct (pc st) as [|d| |k|] eqn:Ep; try done; try lia. case_decide; lia.
Qed.

(** ** Stopping *)

(** The thread alone: time passes only while it sleeps, and it sleeps to its deadline. *)
Definition slept (st : State) : State :=
  {| pc := pc st; stop := stop st; guard := guard st;
     now := match pc st with Waiting d => Z.max (now st) d | _ => now st end; data := data st;
     last := last st; spent := spent st |}.

Fixpoint drive (n : nat) (st : State) : State :=
  match n with
  | O => st
  | S n => match run (slept st) with Some st' => drive n st' | None => st end
  end.

Lemma drive_S n st st' : run (slept st) = Some st' → drive (S n) st = drive n st'.
Proof using Type. cbn [drive]. by intros ->. Qed.

Lemma drive_exited n st : pc st = Exited → drive n st = st.
Proof using Type. destruct st. cbn [pc]. intros ->. by destruct n. Qed.

Lemma drive_testing n st : stop st = true → pc st = Testing →
  pc (drive (S n) st) = Exited ∧ now (drive (S n) st) = now st ∧ data (drive (S n) st) = data st.
Proof using Type.
  destruct st. cbn [stop pc]. intros -> ->. erewrite drive_S by reflexivity.
  by rewrite drive_exited.
Qed.

Lemma drive_waiting n st d : stop st = true → pc st = Waiting d →
  pc (drive (S (S n)) st) = Exited ∧ now (drive (S (S n)) st) = Z.max (now st) d.
Proof using Type.
  destruct st as [p b g t a la sp]. cbn [stop pc now]. intros -> ->.
  erewrite drive_S; [|unfold run, slept; cbn [pc now]; by rewrite (proj2 (Z.leb_le _ _) (Z.le_max_r t d))].
  match goal with |- pc (drive _ ?st) = _ ∧ _ => destruct (drive_testing n st) as (H1 & H2 & _) end; done.
Qed.

Lemma drive_locking n st : stop st = true → pc st = Locking →
  pc (drive (S (S (S n))) st) = Exited ∧ now (drive (S (S (S n))) st) ≤ now st + interval.
Proof using interval_pos slack_pos rounds_pos.
  destruct st as [p b g t a la sp]. cbn [stop pc now]. intros -> ->. erewrite drive_S by reflexivity.
  match goal with |- pc (drive _ ?st) = _ ∧ _ => destruct (drive_waiting n st (t + interval)) as (H1 & H2) end;
    [done|done|]. split; [done|]. rewrite H2. cbn. lia.
Qed.

Lemma drive_working n k st : stop st = true → pc st = Working k →
  pc (drive (k + S (S (S (S n)))) st) = Exited ∧ now (drive (k + S (S (S (S n)))) st) ≤ now st + interval.
Proof using interval_pos slack_pos rounds_pos.
  revert st. induction k as [|k IH]; intros [p b g t a la sp]; cbn [stop pc]; intros -> ->.
  - cbn [Nat.add]. erewrite drive_S by reflexivity.
    match goal with |- pc (drive _ ?st) = _ ∧ _ => exact (drive_locking n st eq_refl eq_refl) end.
  - cbn [Nat.add]. destruct (body t a) as [a' more] eqn:Eb.
    erewrite drive_S; [|unfold run, slept; cbn [pc now data]; rewrite Eb; reflexivity].
    destruct more.
    + match goal with |- pc (drive _ ?st) = _ ∧ _ => exact (IH st eq_refl eq_refl) end.
    + replace (k + S (S (S (S n))))%nat with (S (S (S (k + S n)))) by lia.
      match goal with |- pc (drive _ ?st) = _ ∧ _ => exact (drive_locking _ st eq_refl eq_refl) end.
Qed.
End loop.

(** C23: stopping a background thread never takes longer than its interval. Once the stop
    flag is set the loop, wherever it was, leaves within the interval, even when the
    wake-up was lost because the thread was not asleep yet; a thread woken from its sleep
    leaves at once, without working again. *)
Theorem stop_within_interval {A Op} (body : Z → A → A * bool) (outside : Op → Z → A → A)
    (rounds : nat) (interval slack : Z) (p : Pc) (a : A) (t : Z) (st : State) :
  0 ≤ interval → 0 ≤ slack → (0 < rounds)%nat → p = Locking ∨ p = Testing →
  reachable body outside rounds interval slack (spawned p a t) st → stop st = true →
  let st' := drive body rounds interval (rounds + 4) st in
  pc st' = Exited ∧ now st' ≤ now st + interval ∧
  (∀ d, pc st = Waiting d → ∃ st1, step body outside rounds interval slack Wake st = Some st1 ∧
     let st2 := drive body rounds interval 1 st1 in
     pc st2 = Exited ∧ now st2 = now st ∧ data st2 = data st).
Proof.
  intros Hi Hs Hr Hp Hreach Hstop.
  assert (Ht : timely rounds interval slack st) by (eapply reachable_timely; [..|exact Hreach]; try done; by apply spawned_timely).
  cbv zeta. apply and_assoc. split.
  - destruct Ht as [_ Ht]. destruct (pc st) as [|d| |k|] eqn:Ep.
    + replace (rounds + 4)%nat with (S (S (S (rounds + 1)))) by lia. by apply (drive_locking body rounds interval slack).
    + replace (rounds + 4)%nat with (S (S (rounds + 2))) by lia.
      destruct (drive_waiting body rounds interval (rounds + 2) st d) as [H1 H2]; [done|done|].
      split; [done|]. lia.
    + replace (rounds + 4)%nat with (S (rounds + 3)) by lia.
      destruct (drive_testing body rounds interval (rounds + 3) st) as (H1 & H2 & _); [done|done|]. split; [done|lia].
    + destruct Ht as [Hk _]. replace (rounds + 4)%nat with (k + S (S (S (S (rounds - k)))))%nat by lia.
      by apply (drive_working body rounds interval slack).
    + rewrite drive_exited by done. split; [done|lia].
  - intros d Hd. exists (wake_up st). cbn [step]. rewrite Hd. split; [done|].
    apply (drive_testing body rounds interval 0 (wake_up st)); done.
Qed.

Lemma stop_within_interval_witness :
  let body := λ (t : Z) (a : Z), (a + 1, true) in
  let outside := λ (op : unit) (t a : Z), a in
  let st := {| pc := Locking; stop := true; guard := true; now := 5; data := 2; last := 5; spent := 0 |} in
  pc (drive body 2 100 6 st) = Exited ∧ now (drive body 2 100 6 st) ≤ 105.
Proof.
  intros body outside st.
  assert (Hr : reachable body outside 2 100 9 (spawned Testing 0 5) st).
  { eapply (steps_reachable _ _ _ _ _ [Run; Run; Run; Run; Trigger; Wake]); [apply reach_start|reflexivity]. }
  destruct (stop_within_interval body outside 2 100 9 Testing 0 5 st) as (H1 & H2 & _);
    [lia|lia|lia|by right|exact Hr|reflexivity|]. split; [exact H1|exact H2].
Defined.

(** The wake-up is lost when it comes while the thread is not asleep: the flag it sets is
    never read, and the thread sleeps its whole interval. *)
Example wake_lost :
  let body := λ (t : Z) (a : Z), (a, false) in
  let outside := λ (op : unit) (t a : Z), a in
  (st ← steps body outside 16 100 9 [Run; Run; Trigger; Wake; Run; Time 100; Run; Run] (spawned Testing 0 5);
   Some (pc st, now st)) = Some (Exited, 105).
Proof. reflexivity. Qed.

(** A wake-up alone does not stop the thread: the handle's [shutdown] without the flag
    waits for ever. *)
Example wake_alone :
  let body := λ (t : Z) (a : Z), (a, false) in
  let outside := λ (op : unit) (t a : Z), a in
  (st ← steps body outside 16 100 9 [Run; Run; Run; Wake; Run; Run] (spawned Testing 0 5);
   Some (pc st)) = Some Locking.
Proof. reflexivity. Qed.

(** ** The flusher *)

(** The writer, with the appends so far: when each was made and how long the log then was
    (for the statement only). *)
Record Log := { log_writer : AofWriter; log_marks : list (Z * nat) }.

(** One round of the [ferrum-aof-fsync] thread. *)
Definition flush_body (t : Z) (l : Log) : Log * bool :=
  ({| log_writer := (flusher_tick (log_writer l)).2; log_marks := log_marks l |}, false).

Definition append_bytes (bs : bytes) (t : Z) (l : Log) : Log :=
  let w := (write_bytes bs (log_writer l)).2 in
  {| log_writer := w; log_marks := (t, length (stream (w_inner w))) :: log_marks l |}.

Definition flusher_spawn (w : AofWriter) (t : Z) : State := spawned Locking {| log_writer := w; log_marks := [] |} t.

Record marked (l : Log) (t la : Z) : Prop := {
  mk_disk : w_disk (log_writer l) = [];
  mk_valid : (f_durable (w_inner (log_writer l)) ≤ length (f_data (w_inner (log_writer l))))%nat;
  mk_len T n : (T, n) ∈ log_marks l → (n ≤ length (stream (w_inner (log_writer l))))%nat;
  mk_durable T n : (T, n) ∈ log_marks l → T < la → (n ≤ f_durable (w_inner (log_writer l)))%nat;
  mk_past : la ≤ t;
}.

Lemma flusher_tick_durable w :
  w_disk w = [] → (f_durable (w_inner w) ≤ length (f_data (w_inner w)))%nat →
  let w' := (flusher_tick w).2 in
  w_disk w' = [] ∧ stream (w_inner w') = stream (w_inner w) ∧
  f_durable (w_inner w') = length (stream (w_inner w)) ∧ f_durable (w_inner w') = length (f_data (w_inner w')).
Proof.
  intros Hd Hv. unfold flusher_tick, attempt, mbind, se_bind, lift_io. rewrite Hd. cbn.
  rewrite firstn_all. unfold stream. cbn. by rewrite app_nil_r.
Qed.

Lemma marked_append bs l t la : marked l t la → marked (append_bytes bs t l) t la.
Proof.
  intros [H1 H2 H3 H4 H5]. destruct (write_bytes_healthy bs (log_writer l) H1) as (w' & E & Hd & Hs & _).
  pose proof E as E'. apply write_bytes_spec in E' as (He & _ & _ & Hdur & _).
  unfold append_bytes. rewrite E. cbn [snd]. split; cbn [log_writer log_marks].
  - done.
  - by apply He.
  - intros T n [[= -> ->]|Hin]%elem_of_cons; [done|]. apply H3 in Hin. rewrite Hs, length_app. lia.
  - intros T n [[= -> ->]|Hin]%elem_of_cons; [lia|]. rewrite Hdur. eauto.
  - done.
Qed.

Lemma marked_flush l t la : marked l t la → marked (flush_body t l).1 t t.
Proof.
  intros [H1 H2 H3 H4 H5]. destruct (flusher_tick_durable _ H1 H2) as (F1 & F2 & F3 & F4).
  split; cbn [flush_body fst log_writer log_marks]; [done|lia|by rewrite F2| |lia].
  intros T n Hin _. rewrite F3. by eapply H3.
Qed.

Lemma marked_later l t t' la : marked l t la → t ≤ t' → marked l t' la.
Proof. intros [] ?. split; try done. lia. Qed.

Lemma flusher_marked (interval slack : Z) w t st :
  w_disk w = [] → (f_durable (w_inner w) ≤ length (f_data (w_inner w)))%nat →
  reachable flush_body append_bytes 1 interval slack (flusher_spawn w t) st → marked (data st) (now st) (last st).
Proof.
  intros Hd Hv. induction 1 as [|st st' m _ IH Hs].
  - split; cbn; try done; intros ? ? Hin; by apply elem_of_nil in Hin.
  - destruct st as [p b g tm l la sp]. cbn in *. destruct m; cbn in Hs.
    + destruct (n <? 0) eqn:En; [done|]. apply Z.ltb_ge in En.
      assert (marked l (tm + n) la) by (eapply marked_later; [done|lia]).
      destruct p; repeat case_match; simplify_eq; done.
    + unfold run in Hs. cbn in Hs. destruct p as [|d| |[|k]|]; repeat case_match; simplify_eq; try done.
      by apply marked_flush in IH.
    + destruct p; simplify_eq; done.
    + simplify_eq. done.
    + destruct p; simplify_eq; done.
    + simplify_eq. by apply marked_append.
Qed.

(** C10: under [appendfsync everysec] at most one interval of writes can be lost. In any
    interleaving of appends with the flusher thread on a working disk, while the thread
    runs everything that was appended more than an interval (and the time the thread
    spends outside its sleep) ago is on the disk. *)
Theorem everysec_lag (interval slack : Z) w t st T n :
  0 ≤ interval → 0 ≤ slack → w_disk w = [] →
  (f_durable (w_inner w) ≤ length (f_data (w_inner w)))%nat →
  reachable flush_body append_bytes 1 interval slack (flusher_spawn w t) st → pc st ≠ Exited →
  (T, n) ∈ log_marks (data st) → T + interval + slack < now st →
  (n ≤ f_durable (w_inner (log_writer (data st))))%nat.
Proof.
  intros Hi Hs Hd Hv Hr Hp Hin Hlate.
  apply (mk_durable _ _ _ (flusher_marked _ _ _ _ _ Hd Hv Hr) T n Hin).
  assert (Ht : timely 1 interval slack st).
  { eapply reachable_timely; [..|exact Hr]; try done; [lia|]. apply spawned_timely; [done|done|lia|by left]. }
  pose proof (timely_due 1 interval slack Hi Hs ltac:(lia) st Ht Hp). lia.
Qed.

Lemma everysec_lag_witness :
  (st ← steps flush_body append_bytes 1 1000 5
     [Run; Time 300; Outside (str "abc"); Time 700; Run; Run; Time 2; Run; Run; Time 1000]
     (flusher_spawn (open EverySec [] []) 0);
   Some (3 <=? f_durable (w_inner (log_writer (data st))))%nat) = Some true.
Proof.
  destruct (steps flush_body append_bytes 1 1000 5 _ _) as [st|] eqn:E; [|vm_compute in E; discriminate].
  cbn [mbind option_bind]. f_equal. apply Nat.leb_le.
  pose proof E as E0. vm_compute in E0. injection E0 as E0.
  apply (everysec_lag 1000 5 (open EverySec [] []) 0 st 300 3); [lia|lia|reflexivity|vm_compute; lia| | | | ].
  - eapply (steps_reachable _ _ _ _ _ _ _ _ _ (reach_start _ _ _ _ _ _) E).
  - rewrite <- E0. discriminate.
  - rewrite <- E0. cbn. left.
  - rewrite <- E0. cbn. lia.
Defined.

(** ** The sweeper *)

Section sweeper.
Context `{IndexMap} `{HashIter}.

Definition DEFAULT_SAMPLE : Z := 20.
(** In milliseconds. *)
Definition DEFAULT_INTERVAL : Z := 100.
(** The most sweeps of one tick. *)
Definition SWEEP_ROUNDS : nat := 16.

(** One of the rounds of a tick: a sweep, and whether another follows at once. *)
Definition sweep_body (sample : Z) (env : Z → Env) (t : Z) (e : Engine) : Engine * bool :=
  match sweep_expired (env t) sample e with
  | (Ok stats, e') => (e', should_continue stats)
  | (Err _, e') => (e', false)
  end.

(** The sweeper thread at its start: it looks at the stop flag first. *)
Definition sweeper_spawn (e : Engine) (t : Z) : State := spawned Testing e t.

(** ** Repeated sweeps find every expired key *)

Fixpoint sweeps (sample : Z) (envs : list Env) (e : Engine) : Engine :=
  match envs with [] => e | env :: envs' => sweeps sample envs' (sweep_expired env sample e).2 end.

Definition sweep_start (e : Engine) : nat :=
  Z.to_nat (if Z.of_nat (size (e_store e)) =? 0 then 0 else e_sweep_cursor e mod Z.of_nat (size (e_store e))).

(** The keys a sweep removes. *)
Definition victims (sample : Z) (env : Env) (e : Engine) : list bytes :=
  map fst (List.filter (λ p, is_expired (inst (env_guard env)) p.2)
    (sweep_window sample (Z.of_nat (sweep_start e)) (e_store e))).

(** What the removal of a victim changes. *)
Definition drop_victim (key : bytes) : SE Engine FerrumError () :=
  track_remove key;;
  modify (λ e, set_expired_keys (succ64 (e_expired_keys e)) e);;
  note_aof (append_del key).

Lemma drop_victim_effect k e :
  ∃ e', drop_victim k e = (Ok tt, e') ∧ e_store e' = delete k (e_store e) ∧ e_sweep_cursor e' = e_sweep_cursor e.
Proof using Type.
  unfold drop_victim, mbind, se_bind. destruct (track_remove_frame k e) as (T1 & T2 & _).
  assert (T3 : e_sweep_cursor (track_remove k e).2 = e_sweep_cursor e).
  { unfold track_remove, ac_notify_remove, sieve_notify_remove, apply_delta. cbn. by repeat case_match. }
  destruct (track_remove k e) as [r e1]. cbn [fst snd] in *. subst r. unfold modify. cbn beta iota.
  match goal with |- context [note_aof _ ?e2] => destruct (note_aof_frame (append_del k) e2) as (N1 & N2 & _);
    assert (N3 : e_sweep_cursor (note_aof (append_del k) e2).2 = e_sweep_cursor e2)
      by (unfold note_aof; by repeat case_match);
    destruct (note_aof (append_del k) e2) as [r e3] end.
  cbn [fst snd] in *. subst r. exists e3. split; [done|]. by rewrite N2, N3.
Qed.

Lemma drop_victims_effect ks e :
  ∃ e', for_each ks drop_victim e = (Ok tt, e') ∧ e_store e' = foldl (λ s k, delete k s) (e_store e) ks ∧
    e_sweep_cursor e' = e_sweep_cursor e.
Proof using Type.
  revert e. induction ks as [|k ks IH]; intros e; [by exists e|]. cbn [for_each foldl].
  unfold mbind, se_bind. destruct (drop_victim_effect k e) as (e1 & -> & S1 & C1).
  destruct (IH e1) as (e2 & -> & S2 & C2). exists e2. split; [done|]. by rewrite S2, S1, C2, C1.
Qed.

Lemma window_length sample e :
  0 < sample →
  blen (sweep_window sample (Z.of_nat (sweep_start e)) (e_store e)) = Z.min sample (Z.of_nat (size (e_store e))).
Proof using Type.
  intros Hs. unfold sweep_window, blen. rewrite length_take, length_app, length_drop, length_take, hm_iter_length. lia.
Qed.

Lemma sweep_start_lt e : (0 < size (e_store e))%nat → (sweep_start e < size (e_store e))%nat.
Proof using Type.
  intros Hl. unfold sweep_start. destruct (_ =? 0) eqn:E; [apply Z.eqb_eq in E; lia|].
  assert (Hz : 0 < Z.of_nat (size (e_store e))) by lia.
  pose proof (Z.mod_pos_bound (e_sweep_cursor e) _ Hz). lia.
Qed.

(** A sweep removes its victims and moves the cursor past what it looked at. *)
Lemma sweep_effect sample env e :
  0 < sample → 2 * Z.of_nat (size (e_store e)) < 2 ^ 64 →
  let e' := (sweep_expired env sample e).2 in let len := Z.of_nat (size (e_store e)) in
  e_store e' = foldl (λ s k, delete k s) (e_store e) (victims sample env e) ∧
  (0 < len → e_sweep_cursor e' = (Z.of_nat (sweep_start e) + Z.min sample len) mod len).
Proof using Type.
  intros Hs Hlen e' len. unfold e', sweep_expired. destruct (sample =? 0) eqn:E0; [apply Z.eqb_eq in E0; lia|].
  unfold gets, mbind, se_bind, id. cbn beta iota zeta.
  assert (Hst : (if Z.of_nat (size (e_store e)) =? 0 then 0 else e_sweep_cursor e mod Z.of_nat (size (e_store e)))
    = Z.of_nat (sweep_start e)).
  { unfold sweep_start. destruct (Z.of_nat (size (e_store e)) =? 0) eqn:E; [done|]. apply Z.eqb_neq in E.
    assert (Hz : 0 < Z.of_nat (size (e_store e))) by lia.
    pose proof (Z.mod_pos_bound (e_sweep_cursor e) _ Hz). lia. }
  rewrite Hst, window_length by done. fold len.
  set (move := if 0 <? len then _ else _).
  assert (Hm : ∃ e1, move e = (Ok tt, e1) ∧ e_store e1 = e_store e ∧
    (0 < len → e_sweep_cursor e1 = (Z.of_nat (sweep_start e) + Z.min sample len) mod len)).
  { unfold move. destruct (0 <? len) eqn:E; [|apply Z.ltb_ge in E].
    - apply Z.ltb_lt in E. eexists. split; [reflexivity|]. split; [done|]. intros _. cbn.
      pose proof (sweep_start_lt e ltac:(lia)). unfold wrap64. rewrite (Z.mod_small (_ + _)); [done|]. lia.
    - exists e. split; [done|]. split; [done|lia]. }
  destruct Hm as (e1 & -> & Hs1 & Hc1). fold (victims sample env e).
  destruct (drop_victims_effect (victims sample env e) e1) as (e2 & E2 & Hs2 & Hc2).
  unfold drop_victim in E2. unfold mbind, se_bind in E2. rewrite E2. unfold mret, se_ret. cbv beta iota. cbn [snd].
  by rewrite Hs2, Hs1, Hc2.
Qed.

Lemma foldl_delete_lookup (s : store) ks k :
  foldl (λ s k, delete k s) s ks !! k = if decide (k ∈ ks) then None else s !! k.
Proof using Type.
  revert s. induction ks as [|x ks IH]; intros s; cbn [foldl]; [by rewrite decide_False by apply not_elem_of_nil|].
  rewrite IH. destruct (decide (k = x)) as [->|Hne].
  - rewrite lookup_delete_eq, (decide_True (P := x ∈ x :: ks)) by left. by case_decide.
  - rewrite lookup_delete_ne by done. destruct (decide (k ∈ ks)); [rewrite decide_True by (by right)|]; [done|].
    rewrite decide_False; [done|]. by intros [?|?]%elem_of_cons.
Qed.

Lemma foldl_delete_sub (s : store) ks : foldl (λ s k, delete k s) s ks ⊆ s.
Proof using Type.
  apply map_subseteq_spec. intros k v. rewrite foldl_delete_lookup. by case_decide.
Qed.

Lemma sweep_sub sample env e :
  0 < sample → 2 * Z.of_nat (size (e_store e)) < 2 ^ 64 → e_store (sweep_expired env sample e).2 ⊆ e_store e.
Proof using Type.
  intros Hs Hl. destruct (sweep_effect sample env e Hs Hl) as [-> _]. apply foldl_delete_sub.
Qed.

Lemma sweeps_sub sample envs e :
  0 < sample → 2 * Z.of_nat (size (e_store e)) < 2 ^ 64 → e_store (sweeps sample envs e) ⊆ e_store e.
Proof using Type.
  intros Hs. revert e. induction envs as [|env envs IH]; intros e Hl; [done|]. cbn [sweeps].
  pose proof (sweep_sub sample env e Hs Hl) as Hsub. etrans; [apply IH|exact Hsub].
  pose proof (map_subseteq_size _ _ Hsub). lia.
Qed.

Lemma sweeps_app sample envs1 envs2 e : sweeps sample (envs1 ++ envs2) e = sweeps sample envs2 (sweeps sample envs1 e).
Proof using Type. revert e. induction envs1 as [|env envs1 IH]; intros e; [done|]. apply IH. Qed.

Lemma rotate_lookup {B} (l : list B) (n k : nat) :
  (n < length l)%nat → (k < length l)%nat →
  (drop n l ++ take n l) !! k = l !! Z.to_nat ((Z.of_nat n + Z.of_nat k) mod Z.of_nat (length l)).
Proof using Type.
  intros Hn Hk. destruct (decide (n + k < length l)%nat) as [Hlt|Hge].
  - rewrite lookup_app_l by (rewrite length_drop; lia). rewrite lookup_drop, Z.mod_small by lia. f_equal. lia.
  - rewrite lookup_app_r by (rewrite length_drop; lia). rewrite length_drop.
    rewrite <- (Z_mod_plus_full _ (-1)), Z.mod_small by lia. rewrite lookup_take_lt by lia. f_equal. lia.
Qed.

(** The key at position [i] of the map is the [d]-th a sweep looks at. *)
Lemma in_window sample e i p (d : Z) :
  hm_iter (e_store e) !! i = Some p →
  d = (Z.of_nat i - Z.of_nat (sweep_start e)) mod Z.of_nat (size (e_store e)) → d < sample →
  p ∈ sweep_window sample (Z.of_nat (sweep_start e)) (e_store e).
Proof using Type.
  intros Hi Hd Hlt. pose proof (lookup_lt_Some _ _ _ Hi) as Hil. rewrite hm_iter_length in Hil.
  assert (Hz : 0 < Z.of_nat (size (e_store e))) by lia.
  pose proof (Z.mod_pos_bound (Z.of_nat i - Z.of_nat (sweep_start e)) _ Hz) as Hb. rewrite <- Hd in Hb.
  pose proof (sweep_start_lt e ltac:(lia)) as Hst.
  apply list_elem_of_lookup. exists (Z.to_nat d). unfold sweep_window, blen. rewrite Nat2Z.id, hm_iter_length.
  rewrite lookup_take_lt by lia. rewrite rotate_lookup by (rewrite hm_iter_length; lia).
  rewrite hm_iter_length, Z2Nat.id by lia. rewrite Hd, Zplus_mod_idemp_r.
  replace (_ + _) with (Z.of_nat i) by lia. rewrite Z.mod_small, Nat2Z.id by lia. done.
Qed.

Lemma victims_stored sample env e k :
  k ∈ victims sample env e → ∃ entry, e_store e !! k = Some entry ∧ is_expired (inst (env_guard env)) entry = true.
Proof using Type.
  intros Hk. apply list_elem_of_In, in_map_iff in Hk as ([k' entry] & <- & Hin).
  apply filter_In in Hin as [Hin Hx]. apply list_elem_of_In in Hin.
  unfold sweep_window in Hin. apply subseteq_take in Hin. rewrite app_Permutation_comm, take_drop in Hin.
  apply elem_of_hm_iter in Hin. eauto.
Qed.

Lemma expired_later T T' entry : is_expired T entry = true → T ≤ T' → is_expired T' entry = true.
Proof using Type. unfold is_expired. destruct (expire_at entry); [|done]. rewrite !Z.leb_le. lia. Qed.

(** A sweep that removes nothing has only moved the cursor. *)
Lemma idle_sweep sample env e :
  0 < sample < Z.of_nat (size (e_store e)) → 2 * Z.of_nat (size (e_store e)) < 2 ^ 64 → victims sample env e = [] →
  let e' := (sweep_expired env sample e).2 in let len := Z.of_nat (size (e_store e)) in
  e_store e' = e_store e ∧ Z.of_nat (sweep_start e') = (Z.of_nat (sweep_start e) + sample) mod len.
Proof using Type.
  intros [Hs Hlt] Hl Hv e' len. destruct (sweep_effect sample env e Hs Hl) as [Hst Hcur]. fold e' in Hst, Hcur.
  rewrite Hv in Hst. cbn [foldl] in Hst. split; [done|]. unfold sweep_start at 1. rewrite Hst, Hcur by lia. fold len.
  destruct (len =? 0) eqn:E; [apply Z.eqb_eq in E; lia|].
  assert (Hz : 0 < len) by lia. rewrite Z.mod_mod, Z.min_l by lia.
  pose proof (Z.mod_pos_bound (Z.of_nat (sweep_start e) + sample) _ Hz). lia.
Qed.

(** Within the sweeps it takes to come round to an expired key, some key is removed. *)
Lemma sweeps_shrink sample T envs e i p :
  0 < sample → 2 * Z.of_nat (size (e_store e)) < 2 ^ 64 → Forall (λ env, T ≤ inst (env_guard env)) envs →
  hm_iter (e_store e) !! i = Some p → is_expired T p.2 = true →
  (Z.of_nat i - Z.of_nat (sweep_start e)) mod Z.of_nat (size (e_store e)) < Z.of_nat (length envs) * sample →
  (size (e_store (sweeps sample envs e)) < size (e_store e))%nat.
Proof using Type.
  intros Hs. revert e. induction envs as [|env envs IH]; intros e Hl Henvs Hi Hx Hd;
    pose proof (lookup_lt_Some _ _ _ Hi) as Hil; rewrite hm_iter_length in Hil;
    assert (Hz : 0 < Z.of_nat (size (e_store e))) by lia;
    pose proof (Z.mod_pos_bound (Z.of_nat i - Z.of_nat (sweep_start e)) _ Hz) as Hb; [cbn in Hd; lia|].
  apply Forall_cons in Henvs as [Henv Henvs]. cbn [sweeps].
  destruct (victims sample env e) as [|k ks] eqn:Ev.
  - assert (Hge : sample ≤ (Z.of_nat i - Z.of_nat (sweep_start e)) mod Z.of_nat (size (e_store e))).
    { apply Z.nlt_ge. intros Hlt. pose proof (in_window sample e i p _ Hi eq_refl Hlt) as Hin.
      assert (p.1 ∈ victims sample env e) as Hv; [|rewrite Ev in Hv; by apply elem_of_nil in Hv].
      apply list_elem_of_In, in_map, filter_In. split; [by apply list_elem_of_In|]. by eapply expired_later. }
    destruct (idle_sweep sample env e ltac:(lia) Hl Ev) as [Hst Hstart].
    rewrite <- Hst. apply IH; rewrite ?Hst, ?Hstart; [done..|].
    rewrite Zminus_mod_idemp_r.
    replace (Z.of_nat i - (Z.of_nat (sweep_start e) + sample)) with (Z.of_nat i - Z.of_nat (sweep_start e) - sample) by lia.
    rewrite <- Zminus_mod_idemp_l, Z.mod_small by lia. cbn [length] in Hd. lia.
  - destruct (sweep_effect sample env e Hs Hl) as [Hst _]. rewrite Ev in Hst.
    assert (Hlt : (size (e_store (sweep_expired env sample e).2) < size (e_store e))%nat).
    { apply map_subset_size. rewrite Hst. destruct (victims_stored sample env e k) as (entry & Hk & _); [rewrite Ev; left|].
      split; [apply foldl_delete_sub|]. intros Hsub. eapply lookup_weaken in Hk; [|exact Hsub].
      rewrite foldl_delete_lookup, decide_True in Hk by left. done. }
    assert (Hl' : 2 * Z.of_nat (size (e_store (sweep_expired env sample e).2)) < 2 ^ 64) by lia.
    pose proof (map_subseteq_size _ _ (sweeps_sub sample envs _ Hs Hl')). lia.
Qed.

(** No key that had expired at [T] is stored. *)
Definition clean (T : Z) (e : Engine) : Prop := ∀ k entry, e_store e !! k = Some entry → is_expired T entry = false.

Lemma clean_dec T e : clean T e ∨ ∃ i p, hm_iter (e_store e) !! i = Some p ∧ is_expired T p.2 = true.
Proof using Type.
  destruct (List.existsb (λ p, is_expired T p.2) (hm_iter (e_store e))) eqn:E.
  - right. apply existsb_exists in E as (p & Hin & Hx). apply list_elem_of_In, list_elem_of_lookup in Hin as [i Hi]. eauto.
  - left. intros k entry Hk. destruct (is_expired T entry) eqn:Ex; [|done].
    rewrite <- E. symmetry. apply existsb_exists. exists (k, entry). split; [|done].
    by apply list_elem_of_In, elem_of_hm_iter.
Qed.

(** [b] sweeps go once round the map. *)
Lemma sweeps_clean_blocks sample T (b n : nat) envs e :
  0 < sample → 2 * Z.of_nat (size (e_store e)) < 2 ^ 64 → Z.of_nat (size (e_store e)) ≤ Z.of_nat b * sample →
  Forall (λ env, T ≤ inst (env_guard env)) envs → (size (e_store e) ≤ n)%nat → (n * b ≤ length envs)%nat →
  clean T (sweeps sample envs e).
Proof using Type.
  intros Hs. revert envs e. induction n as [|n IH]; intros envs e Hl Hb Henvs Hn Hlen.
  { intros k entry Hk. eapply lookup_weaken in Hk; [|by apply sweeps_sub].
    assert (size (e_store e) = 0%nat) as Hz by lia. apply map_size_empty_inv in Hz. by rewrite Hz, lookup_empty in Hk. }
  destruct (clean_dec T e) as [Hc|(i & p & Hi & Hx)].
  { intros k entry Hk. eapply Hc, lookup_weaken; [exact Hk|]. by apply sweeps_sub. }
  rewrite <- (take_drop b envs), sweeps_app. pose proof (Forall_take _ b _ Henvs) as H1. pose proof (Forall_drop _ b _ Henvs) as H2.
  pose proof (lookup_lt_Some _ _ _ Hi) as Hil. rewrite hm_iter_length in Hil.
  assert (Hz : 0 < Z.of_nat (size (e_store e))) by lia.
  pose proof (Z.mod_pos_bound (Z.of_nat i - Z.of_nat (sweep_start e)) _ Hz) as Hbd.
  pose proof (sweeps_shrink sample T (take b envs) e i p Hs Hl H1 Hi Hx) as Hshr.
  rewrite length_take_le in Hshr by lia. specialize (Hshr ltac:(lia)).
  apply IH; [lia|lia|done|lia|rewrite length_drop; lia].
Qed.

Lemma sweeps_keep sample envs e k entry :
  0 < sample → 2 * Z.of_nat (size (e_store e)) < 2 ^ 64 →
  Forall (λ env, is_expired (inst (env_guard env)) entry = false) envs →
  e_store e !! k = Some entry → e_store (sweeps sample envs e) !! k = Some entry.
Proof using Type.
  intros Hs. revert e. induction envs as [|env envs IH]; intros e Hl Henvs Hk; [done|].
  apply Forall_cons in Henvs as [Henv Henvs]. cbn [sweeps].
  pose proof (map_subseteq_size _ _ (sweep_sub sample env e Hs Hl)).
  apply IH; [lia|done|]. destruct (sweep_effect sample env e Hs Hl) as [-> _]. rewrite foldl_delete_lookup.
  rewrite decide_False; [done|]. intros (entry' & Hk' & Hx)%victims_stored. congruence.
Qed.

(** C26: the active sweep finds every expired key. On an engine left to itself, when a
    round of [b] sweeps of [sample] keys covers the map, as many rounds as there are keys
    leave no key that had expired at [T], although every removal reorders the map under
    the cursor; and keys that did not expire meanwhile are all still there, unchanged. *)
Theorem sweeps_remove_expired sample T (b : nat) envs e :
  0 < sample → 2 * Z.of_nat (size (e_store e)) < 2 ^ 64 →
  Z.of_nat (size (e_store e)) ≤ Z.of_nat b * sample → (size (e_store e) * b ≤ length envs)%nat →
  Forall (λ env, T ≤ inst (env_guard env)) envs →
  (∀ k entry, e_store (sweeps sample envs e) !! k = Some entry → is_expired T entry = false) ∧
  (∀ k entry, e_store e !! k = Some entry →
     Forall (λ env, is_expired (inst (env_guard env)) entry = false) envs →
     e_store (sweeps sample envs e) !! k = Some entry).
Proof using Type.
  intros Hs Hl Hb Hlen Henvs. split; [by eapply sweeps_clean_blocks|]. intros k entry Hk Hx. by apply sweeps_keep.
Qed.
End sweeper.

(** Two keys with a deadline and one without, swept one at a time. *)
Definition sweep_example : Engine :=
  run_ops [ (env_at 1, OSet (str "a") (str "1")); (env_at 1, OExpireAt (str "a") 1700000000020);
            (env_at 1, OSet (str "b") (str "2")); (env_at 1, OSet (str "c") (str "3"));
            (env_at 1, OExpireAt (str "c") 1700000000030) ] (engine_new (clock_at 0)).

Lemma sweeps_remove_expired_witness :
  e_store (sweeps 1 (replicate 9 (env_at 25)) sweep_example) !! str "a" = None ∧
  is_Some (e_store (sweeps 1 (replicate 9 (env_at 25)) sweep_example) !! str "b").
Proof.
  destruct (sweeps_remove_expired 1 (inst (clock_at 25)) 3 (replicate 9 (env_at 25)) sweep_example) as [H1 H2];
    [lia|vm_compute; reflexivity|vm_compute; discriminate|vm_compute; lia|apply Forall_replicate; vm_compute; discriminate|].
  split.
  - destruct (e_store (sweeps 1 (replicate 9 (env_at 25)) sweep_example) !! str "a") as [entry|] eqn:E; [|done].
    pose proof (H1 _ _ E) as Hx. eapply lookup_weaken in E; [|apply sweeps_sub; [lia|vm_compute; reflexivity]].
    vm_compute in E. injection E as <-. vm_compute in Hx. discriminate.
  - destruct (e_store sweep_example !! str "b") as [entry|] eqn:E; [|vm_compute in E; discriminate].
    exists entry. apply (H2 _ _ E). apply Forall_replicate. vm_compute in E. injection E as <-. vm_compute. reflexivity.
Defined.
