(* ===== verification/LoadGen.v ===== *)
(** * The load generator (src/examples/load_gen.rs)

    The program's arguments and output, the frames its clients send and the replies they
    read, and its three phases run against a server: each client thread sends its next
    request when the schedule picks it, the server's connection handler takes the frame
    and answers it from the shared engine, and the client reads one reply. Refused
    connections and failed writes are part of the schedule. The theorem is that the program
    ends and finds no error on a server that asks for no password and is not limited in
    memory, whatever the interleaving. *)
From S2P Require Import Prelude Numeric Text Error Floats Encoder Command Parser IndexMap Eviction Entry Sieve Aof Engine WriteGuard Commands Frames EngineInv Server Connection Spec Refinement.
From Stdlib Require Import ZArith Lia SpecFloat Strings.Byte.
From stdpp Require Import gmap strings numbers list.
Local Open Scope Z_scope.

(** ** Arguments *)

Record Config := { addr : bytes; clients : Z; requests : Z; value_size : Z }.

(** [ParseIntError], as it is shown: the digits are read in order, so a number that is
    already too large wins over a bad digit after it. *)
Fixpoint digits_error (acc : Z) (s : bytes) : bytes :=
  match s with
  | [] => []
  | c :: s' =>
      if negb (is_digit c) then str "invalid digit found in string"
      else if u64_max <? acc * 10 + digit_val c then str "number too large to fit in target type"
      else digits_error (acc * 10 + digit_val c) s'
  end.

Definition int_error (s : bytes) : bytes :=
  match s with
  | [] => str "cannot parse integer from empty string"
  | [x2b] => str "invalid digit found in string"
  | x2b :: s' => digits_error 0 s'
  | _ => digits_error 0 s
  end.

Definition usize_flag (flag : string) (v : bytes) : result bytes Z :=
  match parse_usize v with Some n => Ok n | None => Err (str flag ++ str ": " ++ int_error v) end.

Definition needs_value (flag : string) : bytes := str flag ++ str " requires a value".

(** The loop of [parse_args]; [None] is [--help], which ends the program. *)
Fixpoint scan_args (args : list bytes) (cfg : Config) : result bytes (option Config) :=
  let with_addr a := {| addr := a; clients := clients cfg; requests := requests cfg; value_size := value_size cfg |} in
  let with_clients n := {| addr := addr cfg; clients := n; requests := requests cfg; value_size := value_size cfg |} in
  let with_requests n := {| addr := addr cfg; clients := clients cfg; requests := n; value_size := value_size cfg |} in
  let with_value_size n := {| addr := addr cfg; clients := clients cfg; requests := requests cfg; value_size := n |} in
  match args with
  | [] => Ok (Some cfg)
  | flag :: rest =>
      if bytes_eqb flag (str "--addr") then
        match rest with [] => Err (needs_value "--addr") | v :: rest => scan_args rest (with_addr v) end
      else if bytes_eqb flag (str "--clients") then
        match rest with
        | [] => Err (needs_value "--clients")
        | v :: rest => match usize_flag "--clients" v with Ok n => scan_args rest (with_clients n) | Err e => Err e end
        end
      else if bytes_eqb flag (str "--requests") then
        match rest with
        | [] => Err (needs_value "--requests")
        | v :: rest => match usize_flag "--requests" v with Ok n => scan_args rest (with_requests n) | Err e => Err e end
        end
      else if bytes_eqb flag (str "--value-size") then
        match rest with
        | [] => Err (needs_value "--value-size")
        | v :: rest => match usize_flag "--value-size" v with Ok n => scan_args rest (with_value_size n) | Err e => Err e end
        end
      else if bytes_eqb flag (str "-h") || bytes_eqb flag (str "--help") then Ok None
      else Err (str "unknown flag: " ++ flag)
  end.

Definition default_config : Config :=
  {| addr := str "127.0.0.1:6399"; clients := 50; requests := 100000; value_size := 64 |}.

Definition parse_args (args : list bytes) : result bytes (option Config) :=
  match scan_args args default_config with
  | Ok (Some cfg) =>
      if clients cfg =? 0 then Err (str "--clients must be > 0")
      else if requests cfg =? 0 then Err (str "--requests must be > 0")
      else Ok (Some cfg)
  | r => r
  end.

(** ** Frames and replies *)

Definition append_bulk (out payload : bytes) : bytes :=
  (out ++ str "$" ++ to_string_u (blen payload) ++ CRLF) ++ payload ++ CRLF.

Definition build_set (key value : bytes) : bytes :=
  append_bulk (append_bulk (append_bulk (str "*3" ++ CRLF) (str "SET")) key) value.
Definition build_get (key : bytes) : bytes :=
  append_bulk (append_bulk (str "*2" ++ CRLF) (str "GET")) key.
Definition build_incr (key : bytes) : bytes :=
  append_bulk (append_bulk (str "*2" ++ CRLF) (str "INCR")) key.

(** The loop of [read_reply_kind]: byte after byte up to the first CRLF. The stream holds
    what the server will send; reading past it fails. *)
Fixpoint read_header (header stream : bytes) : option (bytes * bytes) :=
  match stream with
  | [] => None
  | b :: stream' =>
      let header := header ++ [b] in
      if bytes_eqb (drop (length header - 2) header) CRLF then Some (header, stream')
      else read_header header stream'
  end.

(** [read_reply_kind]: the first byte of one reply, and the stream after it. *)
Definition read_reply_kind (stream : bytes) : option (byte * bytes) :=
  match read_header [] stream with
  | None => None
  | Some (header, rest) =>
      match header with
      | [] => None
      | kind :: tail =>
          if bool_decide (kind = x2b) || bool_decide (kind = x2d) || bool_decide (kind = x3a) then Some (kind, rest)
          else if bool_decide (kind = x24) then
            let line := take (length tail - 2) tail in
            if negb (utf8_valid line) then None
            else match parse_i64 line with
                 | None => None
                 | Some len =>
                     if 0 <=? len then
                       if blen rest <? len + 2 then None
                       else Some (x24, drop (Z.to_nat (len + 2)) rest)
                     else Some (x24, rest)
                 end
          else None
      end
  end.

(** ** Reading is exact *)

Lemma ends_crlf h c b : bytes_eqb (drop (length ((h ++ [c]) ++ [b]) - 2) ((h ++ [c]) ++ [b])) CRLF = bytes_eqb [c; b] CRLF.
Proof.
  rewrite <- app_assoc. rewrite length_app. cbn [length app]. replace (length h + 2 - 2)%nat with (length h) by lia.
  by rewrite drop_app_length.
Qed.

Lemma not_crlf h b : b ≠ x0a → bytes_eqb (drop (length (h ++ [b]) - 2) (h ++ [b])) CRLF = false.
Proof.
  intros Hb. destruct h as [|c h] using rev_ind; [by destruct b|]. rewrite ends_crlf.
  apply not_true_iff_false. rewrite bytes_eqb_eq. unfold CRLF. congruence.
Qed.

Lemma read_header_line l rest h :
  no_crlf l → read_header h (l ++ CRLF ++ rest) = Some (h ++ l ++ CRLF, rest).
Proof.
  intros Hl. revert h. induction Hl as [|b l [Hcr Hlf] Hl IH]; intros h.
  - unfold CRLF. cbn [app read_header]. rewrite not_crlf by done. rewrite ends_crlf. cbn.
    by rewrite <- app_assoc.
  - cbn [app read_header]. rewrite not_crlf by done. rewrite IH. by rewrite <- app_assoc.
Qed.

(** A line reply is read to its end and no further. *)
Lemma read_line_reply (kind : byte) l rest :
  no_crlf l → kind = x2b ∨ kind = x2d ∨ kind = x3a →
  read_reply_kind (([kind] ++ l ++ CRLF) ++ rest) = Some (kind, rest).
Proof.
  intros Hl Hk. unfold read_reply_kind.
  assert (E : read_header [] (([kind] ++ l ++ CRLF) ++ rest) = Some ([kind] ++ l ++ CRLF, rest)).
  { rewrite <- !app_assoc. rewrite app_assoc. apply (read_header_line ([kind] ++ l) rest []).
    constructor; [|done]. by destruct Hk as [->|[->| ->]]. }
  rewrite E. cbn [app]. by destruct Hk as [->|[->| ->]].
Qed.

(** So is a bulk reply, null or not. *)
Lemma read_null_reply rest : read_reply_kind (encode_null_bulk [] ++ rest) = Some (x24, rest).
Proof. reflexivity. Qed.

Lemma read_bulk_reply p rest :
  blen p ≤ i64_max → read_reply_kind (encode_bulk_string [] p ++ rest) = Some (x24, rest).
Proof.
  intros Hp. unfold encode_bulk_string, read_reply_kind. cbn [app].
  assert (H0 : 0 ≤ blen p) by (unfold blen; lia).
  pose proof (read_header_line ([x24] ++ to_string_u (blen p)) (p ++ CRLF ++ rest) []) as E.
  cbn [app] in *. rewrite <- !app_assoc in *. cbn [app] in *. rewrite E; clear E;
    [|constructor; [done|by apply no_crlf_to_string_u]].
  cbn [bool_decide]. rewrite !bool_decide_false by done. rewrite bool_decide_true by done. cbn [orb].
  rewrite length_app. cbn [length CRLF]. replace (length (to_string_u (blen p)) + 2 - 2)%nat with (length (to_string_u (blen p))) by lia.
  rewrite take_app_length, to_string_u_utf8, parse_i64_to_string_u by lia. cbn [negb].
  rewrite (proj2 (Z.leb_le 0 (blen p))) by done.
  assert (Hl : Z.to_nat (blen p + 2) = length (p ++ CRLF)) by (rewrite length_app; unfold blen; cbn; lia).
  rewrite Hl, app_assoc, drop_app_length.
  destruct (_ <? _) eqn:E; [|done]. apply Z.ltb_lt in E. unfold blen in *. rewrite !length_app in *. cbn in *. lia.
Qed.

(** ** The frames are the commands *)

Lemma append_bulk_part out payload : append_bulk out payload = out ++ encode_part payload.
Proof. unfold append_bulk, encode_part. by rewrite <- !app_assoc. Qed.

Lemma build_set_encode k v : build_set k v = encode_command [str "SET"; k; v].
Proof. unfold build_set. rewrite !append_bulk_part, <- !app_assoc. unfold encode_command. cbn [map concat]. by rewrite app_nil_r. Qed.
Lemma build_get_encode k : build_get k = encode_command [str "GET"; k].
Proof. unfold build_get. rewrite !append_bulk_part, <- !app_assoc. unfold encode_command. cbn [map concat]. by rewrite app_nil_r. Qed.
Lemma build_incr_encode k : build_incr k = encode_command [str "INCR"; k].
Proof. unfold build_incr. rewrite !append_bulk_part, <- !app_assoc. unfold encode_command. cbn [map concat]. by rewrite app_nil_r. Qed.

(** ** Output *)

(** A line on the standard output or on the error stream. *)
Inductive Line := Out (l : bytes) | Eprint (l : bytes).

(** [{:<n}] and [{:>n}] *)
Definition pad (n : nat) (s : bytes) : bytes := s ++ repeat x20 (n - length s).
Definition rpad (n : nat) (s : bytes) : bytes := repeat x20 (n - length s) ++ s.

(** [{:.0}] *)
Definition fixed0 (x : spec_float) : bytes :=
  match x with
  | S754_finite s m e =>
      (if s then str "-" else []) ++ to_string_u (F64.round_half_even (Zpos m * 2 ^ Z.max e 0) (2 ^ Z.max (- e) 0))
  | S754_zero s => (if s then str "-" else []) ++ str "0"
  | _ => F64.to_string x
  end.

Definition print_usage : Line :=
  Eprint (str "usage: load_gen [--addr HOST:PORT] [--clients N] [--requests N] [--value-size BYTES]").

Definition config_line (cfg : Config) : Line :=
  Out (str "addr=" ++ addr cfg ++ str " clients=" ++ to_string_u (clients cfg) ++ str " requests=" ++ to_string_u (requests cfg)
    ++ str " value_size=" ++ to_string_u (value_size cfg)).

(** The report of a phase that took [elapsed] nanoseconds. *)
Definition phase_line (label : bytes) (ops elapsed : Z) : Line :=
  let secs := as_secs_f64 elapsed in
  let tiny := F64.lit 1 (-9) in
  let secs := if SFltb secs tiny then tiny else secs in
  let qps := F64.div (F64.of_Z ops) secs in
  Out (pad 5 label ++ str "  " ++ rpad 10 (to_string_u ops) ++ str " ops  " ++ rpad 7 (F64.fixed 3 secs) ++ str " s  "
    ++ rpad 10 (fixed0 qps) ++ str " ops/s").

Example phase_line_ex : phase_line (str "GET") 1000 250000000 = Out (str "GET          1000 ops    0.250 s        4000 ops/s").
Proof. vm_compute. reflexivity. Qed.

(** ** The phases *)

Record Totals := { t_set : Z; t_get : Z; t_incr : Z; t_errors : Z }.

(** The counter of a phase, and of errors. *)
Definition bump (label : bytes) (t : Totals) : Totals :=
  if bytes_eqb label (str "SET") then {| t_set := t_set t + 1; t_get := t_get t; t_incr := t_incr t; t_errors := t_errors t |}
  else if bytes_eqb label (str "GET") then {| t_set := t_set t; t_get := t_get t + 1; t_incr := t_incr t; t_errors := t_errors t |}
  else if bytes_eqb label (str "INCR") then {| t_set := t_set t; t_get := t_get t; t_incr := t_incr t + 1; t_errors := t_errors t |}
  else t.
Definition bump_errors (n : Z) (t : Totals) : Totals :=
  {| t_set := t_set t; t_get := t_get t; t_incr := t_incr t; t_errors := t_errors t + n |}.

Definition done_of (label : bytes) (t : Totals) : Z :=
  if bytes_eqb label (str "SET") then t_set t
  else if bytes_eqb label (str "GET") then t_get t
  else if bytes_eqb label (str "INCR") then t_incr t
  else 0.

(** How many requests client [cid] makes. *)
Definition client_count (cfg : Config) (cid : Z) : Z :=
  let per_client := requests cfg / clients cfg in
  let remainder := requests cfg - per_client * clients cfg in
  per_client + (if cid <? remainder then 1 else 0).

(** The scheduler picks a client; [None] is a failed write, otherwise the server sees the
    request from an address at a moment. *)
Abbreviation Turn := (nat * option (bytes * CmdEnv))%type.

Section run.
Context `{IndexMap} `{HashIter}.

(** The server's side of one request: what [handle_client] does with the frame on the
    client's connection. None of these requests changes what the connection keeps between
    frames ([AUTH] and [HELLO] are never sent), so it is as good as new each time. *)
Definition serve (ce : CmdEnv) (peer frame : bytes) (e : Engine) : Engine * bytes :=
  let c := (on_chunk (λ _, ce) peer frame (connect e [])).1 in
  (cn_engine c, cn_sent c).

(** A client thread: its next request, unless it broke off. *)
Inductive Client := Running (op : Z) | Broke.

Record Phase := { ph_engine : Engine; ph_clients : list Client; ph_totals : Totals }.

(** One round of a client's loop. *)
Definition request (build : Z → Z → bytes) (label : bytes) (cfg : Config) (ph : Phase) (turn : Turn) : Phase :=
  let cid := turn.1 in
  let broken e :=
    {| ph_engine := e; ph_clients := <[cid := Broke]> (ph_clients ph); ph_totals := bump_errors 1 (ph_totals ph) |} in
  match ph_clients ph !! cid with
  | Some (Running op) =>
      if op <? client_count cfg (Z.of_nat cid) then
        match turn.2 with
        | None => broken (ph_engine ph)
        | Some (peer, ce) =>
            let '(e, reply) := serve ce peer (build (Z.of_nat cid) op) (ph_engine ph) in
            match read_reply_kind reply with
            | Some (kind, _) =>
                {| ph_engine := e; ph_clients := <[cid := Running (op + 1)]> (ph_clients ph);
                   ph_totals := if bool_decide (kind = x2d) then bump_errors 1 (ph_totals ph) else bump label (ph_totals ph) |}
            | None => broken e
            end
        end
      else ph
  | _ => ph
  end.

(** A thread has left its loop. *)
Definition finished (cfg : Config) (cid : Z) (c : Client) : bool :=
  match c with Running op => client_count cfg cid <=? op | Broke => true end.

(** The threads at their start: one that cannot connect counts all its requests as
    errors. (The line it writes to the error stream is left out.) *)
Definition start_phase (cfg : Config) (connects : nat → bool) (e : Engine) (t : Totals) : Phase :=
  let cids := seq 0 (Z.to_nat (clients cfg)) in
  {| ph_engine := e;
     ph_clients := map (λ cid, if connects cid then Running 0 else Broke) cids;
     ph_totals := fold_left (λ t cid, if connects cid then t else bump_errors (client_count cfg (Z.of_nat cid)) t) cids t |}.

(** What the host brings to a phase: who gets a connection, the schedule, the time taken. *)
Record Round := { rd_connects : nat → bool; rd_turns : list Turn; rd_elapsed : Z }.

(** [run_phase]: the client threads as the schedule picks them, until all have left their
    loops, and the report; [None] while some have not. *)
Definition run_phase (label : bytes) (cfg : Config) (build : Z → Z → bytes) (r : Round) (e : Engine) (t : Totals)
    : option (Engine * Totals * Line) :=
  let ph := fold_left (request build label cfg) (rd_turns r) (start_phase cfg (rd_connects r) e t) in
  if forallb (λ '(cid, c), finished cfg (Z.of_nat cid) c) (imap pair (ph_clients ph))
  then Some (ph_engine ph, ph_totals ph, phase_line label (done_of label (ph_totals ph)) (rd_elapsed r)) else None.

Definition op_key (cid op : Z) : bytes := str "c" ++ to_string_u cid ++ str ":k" ++ to_string_u op.

Definition no_totals : Totals := {| t_set := 0; t_get := 0; t_incr := 0; t_errors := 0 |}.

(** [main]: the exit code and the lines, with the totals and the engine. *)
Definition main (args : list bytes) (r1 r2 r3 : Round) (e : Engine) : option (Z * list Line * Totals * Engine) :=
  match parse_args args with
  | Err m => Some (2, [Eprint (str "error: " ++ m); print_usage], no_totals, e)
  | Ok None => Some (0, [print_usage], no_totals, e)
  | Ok (Some cfg) =>
      '(e, t, l1) ← run_phase (str "SET") cfg
                      (λ cid op, build_set (op_key cid op) (repeat x78 (Z.to_nat (value_size cfg)))) r1 e no_totals;
      '(e, t, l2) ← run_phase (str "GET") cfg (λ cid op, build_get (op_key cid op)) r2 e t;
      '(e, t, l3) ← run_phase (str "INCR") cfg (λ _ _, build_incr (str "counter")) r3 e t;
      let lines := [config_line cfg; l1; l2; l3] in
      Some (if 0 <? t_errors t
            then (1, lines ++ [Eprint (str "warning: " ++ to_string_u (t_errors t) ++ str " command errors during run")], t, e)
            else (0, lines, t, e))
  end.

(** ** One request *)

Lemma shows_before now L ce cmd client e : shows now L e → shows now L (before_dispatch ce cmd client e).
Proof using Type. apply shows_frame; unfold before_dispatch; by case_match. Qed.
Lemma shows_after now L ce cmd client b e : shows now L e → shows now L (after_dispatch ce cmd client b e).
Proof using Type.
  apply shows_frame; unfold after_dispatch; (case_match; [|done]); unfold maybe_push_slowlog, modify; cbn [snd]; by case_match.
Qed.

(** The server asks for no password. *)
Definition open (e : Engine) : Prop := e_auth_required e = false.
#[local] Instance open_stable : Stable open.
Proof. by split. Qed.
#[local] Instance open_reads : StableReads open.
Proof. by split. Qed.

Lemma open_before ce cmd client e : open e → open (before_dispatch ce cmd client e).
Proof using Type. unfold open, before_dispatch. by case_match. Qed.
Lemma open_after ce cmd client b e : open e → open (after_dispatch ce cmd client b e).
Proof using Type.
  unfold open, after_dispatch. case_match; [|done]. unfold maybe_push_slowlog, modify. cbn [snd]. by case_match.
Qed.

(** The frame of an ordinary command: it is executed, and its reply is sent. *)
Lemma serve_command ce peer parts cmd e :
  wf_parts parts → build_command parts = Ok cmd → ordinary cmd = true → open e →
  ∃ e' w, execute_command ce cmd (Some peer) Resp2 (e, []) = Some (e', w) ∧
    serve ce peer (encode_command parts) e = (e', w).
Proof using Type.
  intros Hwf Hb Ho He. pose proof (parse_frame_encode parts [] Hwf) as Hp. rewrite app_nil_r in Hp.
  unfold frame_of in Hp. rewrite Hb in Hp.
  destruct (one_request (λ _, ce) peer _ cmd e Hp Ho He) as (e' & w & c & Hx & Hc & <- & <-).
  exists (cn_engine c), (cn_sent c). split; [done|]. unfold serve. by rewrite Hc.
Qed.

Lemma serve_call {A} ce peer parts cmd (m : SE Engine FerrumError A) render now L a L' e :
  wf_parts parts → build_command parts = Ok cmd → ordinary cmd = true →
  (∀ s, dispatch ce Resp2 cmd s = Next (call m render s)) →
  preserves open m → eff (shows now) m L (Ok a) L' → open e → shows now L e →
  ∃ e', serve ce peer (encode_command parts) e = (e', render a []) ∧ open e' ∧ shows now L' e'.
Proof using Type.
  intros Hwf Hb Ho Hd Hp Hm Hopen He.
  destruct (serve_command ce peer parts cmd e Hwf Hb Ho Hopen) as (e' & w & Hx & Hs). rewrite Hs.
  revert Hx. unfold execute_command. cbn [fst snd]. rewrite Hd. unfold call.
  destruct (Hm _ (shows_before now L ce cmd (Some peer) e He)) as [H1 H2].
  pose proof (Hp _ (open_before ce cmd (Some peer) e Hopen)) as H3.
  destruct (m _) as [r e1]. cbn [fst snd] in *. subst r. intros [= <- <-].
  eexists. split; [done|]. split; [by apply open_after|by apply shows_after].
Qed.

(** The clock of a request: all its readings are the same instant. *)
Definition clock_of (ce : CmdEnv) : Clock := env_read (ce_env ce).
Definition steady (ce : CmdEnv) : Prop := ce_env ce = env_of (clock_of ce).

Lemma steady_at ce : steady ce → at_clock (ce_env ce) (clock_of ce).
Proof using Type. unfold steady. by intros ->. Qed.

Lemma small_parts parts : parts ≠ [] → (length parts ≤ 3)%nat → Forall (λ p, blen p ≤ VALUE_MAX_BYTES) parts → wf_parts parts.
Proof using Type.
  intros H1 H2 H3. split; [done|]. split; [unfold blen, MAX_ARRAY_ELEMENTS; lia|].
  eapply Forall_impl; [exact H3|]. cbn. unfold VALUE_MAX_BYTES, MAX_BULK_LEN. lia.
Qed.

Ltac small_frame :=
  apply small_parts; [done|cbn; lia|];
  repeat (apply Forall_cons_2; [first [unfold KEY_MAX_BYTES, VALUE_MAX_BYTES in *; lia|vm_compute; discriminate]|]); apply Forall_nil_2.

Lemma serve_set ce peer k v L e :
  steady ce → 0 < blen k ≤ KEY_MAX_BYTES → blen v ≤ VALUE_MAX_BYTES → open e → shows (inst (clock_of ce)) L e →
  ∃ e', serve ce peer (build_set k v) e = (e', encode_simple_string [] (str "OK")) ∧ open e' ∧
    shows (inst (clock_of ce)) (<[k := (v, None)]> L) e'.
Proof using Type.
  intros Hs Hk Hv Ho He. rewrite build_set_encode.
  assert (Hval : valid k v = Ok tt).
  { unfold valid, validate_key, validate_value. destruct (blen k =? 0) eqn:E1; [apply Z.eqb_eq in E1; lia|].
    destruct (KEY_MAX_BYTES <? blen k) eqn:E2; [apply Z.ltb_lt in E2; lia|].
    by destruct (VALUE_MAX_BYTES <? blen v) eqn:E3; [apply Z.ltb_lt in E3; lia|]. }
  eapply (serve_call ce peer _ (CSet k v) (set (ce_env ce) k v) say_ok (inst (clock_of ce)) L (fst <$> L !! k)); [|done|done|done|apply (stable_set open)| |done|done].
  - small_frame.
  - pose proof (eff_with_guard _ _ (steady_at ce Hs) _ _ _ _
      (eff_guard_insert _ (current_epoch_ms (clock_of ce)) (ce_env ce) k v L (late_now _ _ (steady_at ce Hs)))) as Hx.
    by rewrite Hval in Hx.
Qed.

Lemma serve_get ce peer k L e :
  steady ce → blen k ≤ KEY_MAX_BYTES → open e → shows (inst (clock_of ce)) L e →
  ∃ e', serve ce peer (build_get k) e = (e', opt_bulk Resp2 (fst <$> L !! k) []) ∧ open e' ∧ shows (inst (clock_of ce)) L e'.
Proof using Type.
  intros Hs Hk Ho He. rewrite build_get_encode.
  eapply (serve_call ce peer _ (CGet k) (get (ce_env ce) k)); [|done|done|done|apply (stable_get open)| |done|done].
  - small_frame.
  - apply eff_get. by apply steady_at.
Qed.

Lemma serve_incr ce peer k L e n z :
  steady ce → 0 < blen k ≤ KEY_MAX_BYTES → open e → shows (inst (clock_of ce)) L e →
  counter_at k L = Ok (n, None) → checked_i64 (n + 1) = Some z →
  ∃ e', serve ce peer (build_incr k) e = (e', encode_integer [] z) ∧ open e' ∧
    shows (inst (clock_of ce)) (<[k := (to_string_i z, None)]> L) e'.
Proof using Type.
  intros Hs Hk Ho He Hc Hz. rewrite build_incr_encode.
  eapply (serve_call ce peer _ (CIncrBy k 1) (incr_by (ce_env ce) k 1) say_int _ _ z); [|done|done|done|apply (stable_incr_by open)| |done|done].
  - small_frame.
  - pose proof (eff_incr_by _ _ (steady_at ce Hs) k 1 L) as Hx. unfold spec_incr in Hx. rewrite Hc, Hz in Hx.
    unfold validate_key in Hx. destruct (blen k =? 0) eqn:E1; [apply Z.eqb_eq in E1; lia|].
    destruct (KEY_MAX_BYTES <? blen k) eqn:E2; [apply Z.ltb_lt in E2; lia|]. exact Hx.
Qed.
End run.
(** ** The requests are shared out *)

(** Prove the first premise of a hypothesis. *)
Ltac discharge H :=
  match type of H with ?P → _ => let HP := fresh in assert P as HP; [|specialize (H HP); clear HP] end.

Fixpoint sum_from (cfg : Config) (i : Z) (n : nat) : Z :=
  match n with O => 0 | S n => client_count cfg i + sum_from cfg (i + 1) n end.

Lemma sum_from_eq cfg i n :
  0 < clients cfg → 0 ≤ i →
  sum_from cfg i n = requests cfg / clients cfg * Z.of_nat n
    + Z.max 0 (Z.min (i + Z.of_nat n) (requests cfg mod clients cfg) - i).
Proof.
  intros Hc. revert i. induction n as [|n IH]; intros i Hi; [cbn; lia|]. cbn [sum_from]. rewrite IH by lia.
  unfold client_count. rewrite <- Zmod_eq_full by lia.
  destruct (i <? requests cfg mod clients cfg) eqn:E; bool_to_prop; lia.
Qed.

Lemma shares_sum cfg : 0 < clients cfg → sum_from cfg 0 (Z.to_nat (clients cfg)) = requests cfg.
Proof.
  intros Hc. rewrite sum_from_eq by lia. pose proof (Z.mod_pos_bound (requests cfg) _ Hc).
  pose proof (Z.div_mod (requests cfg) (clients cfg)). lia.
Qed.

Definition ran (c : Client) : Z := match c with Running op => op | Broke => 0 end.
Definition total (l : list Client) : Z := foldr (λ c z, ran c + z) 0 l.

Lemma clients_total_insert l k c c' : l !! k = Some c → total (<[k := c']> l) = total l - ran c + ran c'.
Proof.
  revert k. induction l as [|x l IH]; intros [|k] Hk; simplify_eq/=; [lia|]. rewrite (IH k Hk). lia.
Qed.

Lemma total_le cfg l i :
  (∀ k c, l !! k = Some c → ∃ op, c = Running op ∧ op ≤ client_count cfg (i + Z.of_nat k)) →
  total l ≤ sum_from cfg i (length l).
Proof.
  revert i. induction l as [|x l IH]; intros i Hl; [done|]. cbn [total foldr length sum_from].
  destruct (Hl 0%nat x eq_refl) as (op & -> & Hop). replace (i + Z.of_nat 0) with i in Hop by lia.
  specialize (IH (i + 1)). discharge IH.
  { intros k c Hk. destruct (Hl (S k) c Hk) as (op' & -> & Hop'). exists op'. split; [done|].
    by replace (i + 1 + Z.of_nat k) with (i + Z.of_nat (S k)) by lia. }
  unfold total in IH. cbn [ran]. lia.
Qed.

Lemma total_full cfg l i :
  (∀ k c, l !! k = Some c → c = Running (client_count cfg (i + Z.of_nat k))) → total l = sum_from cfg i (length l).
Proof.
  revert i. induction l as [|x l IH]; intros i Hl; [done|]. cbn [total foldr length sum_from].
  rewrite (Hl 0%nat x eq_refl). cbn [ran]. replace (i + Z.of_nat 0) with i by lia. f_equal. apply IH.
  intros k c Hk. rewrite (Hl (S k) c Hk). do 2 f_equal. lia.
Qed.

(** ** A phase *)

Section phase.
Context `{IndexMap} `{HashIter}.
Context (cfg : Config) (build : Z → Z → bytes) (label : bytes) (t0 : Totals).
(** What is known of the engine at an instant, when the given requests have been made. *)
Context (J : Z → list (Z * Z) → Engine → Prop).
Hypothesis clients_pos : 0 < clients cfg.
Hypothesis J_later : ∀ t t' D e, J t D e → t ≤ t' → J t' D e.
Hypothesis J_step : ∀ t D e cid op peer ce,
  J t D e → t ≤ inst (clock_of ce) → steady ce → 0 ≤ cid < clients cfg → 0 ≤ op < client_count cfg cid →
  Z.of_nat (length D) < requests cfg →
  ∃ e' reply kind rest, serve ce peer (build cid op) e = (e', reply) ∧
    read_reply_kind reply = Some (kind, rest) ∧ kind ≠ x2d ∧ J (inst (clock_of ce)) ((cid, op) :: D) e'.

Record going (t : Z) (D : list (Z * Z)) (ph : Phase) : Prop := {
  go_len : length (ph_clients ph) = Z.to_nat (clients cfg);
  go_run k c : ph_clients ph !! k = Some c → ∃ op, c = Running op ∧ 0 ≤ op ≤ client_count cfg (Z.of_nat k);
  go_done k op op' : ph_clients ph !! k = Some (Running op) → 0 ≤ op' < op → (Z.of_nat k, op') ∈ D;
  go_num : Z.of_nat (length D) = total (ph_clients ph);
  go_tot : ph_totals ph = Nat.iter (length D) (bump label) t0;
  go_eng : J t D (ph_engine ph);
}.

Lemma request_going t D ph cid peer ce :
  going t D ph → t ≤ inst (clock_of ce) → steady ce →
  ∃ D', going (inst (clock_of ce)) D' (request build label cfg ph (cid, Some (peer, ce))).
Proof using clients_pos J_later J_step.
  intros [H1 H2 H3 H4 H5 H6] Ht Hs. unfold request. cbn [fst snd].
  destruct (ph_clients ph !! cid) as [[op|]|] eqn:Ek; [|exists D; split; eauto..].
  destruct (op <? client_count cfg (Z.of_nat cid)) eqn:Eop; [|exists D; split; eauto]. apply Z.ltb_lt in Eop.
  pose proof (lookup_lt_Some _ _ _ Ek) as Hlt. destruct (H2 _ _ Ek) as (? & [= <-] & Hop).
  assert (Hl2 : ∀ k c, <[cid := Running (op + 1)]> (ph_clients ph) !! k = Some c →
    ∃ op', c = Running op' ∧ 0 ≤ op' ≤ client_count cfg (Z.of_nat k)).
  { intros k c Hk. destruct (decide (k = cid)) as [->|Hne].
    - rewrite list_lookup_insert_eq in Hk by done. simplify_eq. exists (op + 1). split; [done|lia].
    - rewrite list_lookup_insert_ne in Hk by done. eauto. }
  assert (Htot : total (<[cid := Running (op + 1)]> (ph_clients ph)) = total (ph_clients ph) + 1)
    by (rewrite (clients_total_insert _ _ _ _ Ek); cbn; lia).
  assert (Hnum : Z.of_nat (length D) < requests cfg).
  { rewrite H4, <- (shares_sum cfg clients_pos), <- H1, <- (length_insert (ph_clients ph) cid (Running (op + 1))).
    pose proof (total_le cfg (<[cid := Running (op + 1)]> (ph_clients ph)) 0) as Hle. discharge Hle; [|lia].
    intros k c Hk. destruct (Hl2 k c Hk) as (o & -> & Ho). exists o. split; [done|]. rewrite Z.add_0_l. lia. }
  destruct (J_step t D (ph_engine ph) (Z.of_nat cid) op peer ce H6 Ht Hs ltac:(lia) ltac:(lia) Hnum)
    as (e' & reply & kind & rest & -> & -> & Hkind & HJ).
  exists ((Z.of_nat cid, op) :: D). rewrite bool_decide_false by done.
  split; cbn [ph_clients ph_totals ph_engine length].
  - by rewrite length_insert.
  - exact Hl2.
  - intros k o o' Hk Ho. destruct (decide (k = cid)) as [->|Hne].
    + rewrite list_lookup_insert_eq in Hk by done. simplify_eq.
      destruct (decide (o' = op)) as [->|]; [left|]. right. apply (H3 cid op); [done|lia].
    + rewrite list_lookup_insert_ne in Hk by done. right. eauto.
  - rewrite Htot. lia.
  - rewrite H5. done.
  - done.
Qed.

(** Every write of a schedule succeeds, and the requests are in clock order. *)
Fixpoint in_order (t : Z) (s : list Turn) : Prop :=
  match s with
  | [] => True
  | (_, None) :: _ => False
  | (_, Some (_, ce)) :: s' => t ≤ inst (clock_of ce) ∧ steady ce ∧ in_order (inst (clock_of ce)) s'
  end.

Fixpoint end_time (t : Z) (s : list Turn) : Z :=
  match s with [] => t | (_, None) :: s' => end_time t s' | (_, Some (_, ce)) :: s' => end_time (inst (clock_of ce)) s' end.

Lemma schedule_going t D ph s :
  going t D ph → in_order t s → ∃ D', going (end_time t s) D' (fold_left (request build label cfg) s ph).
Proof using clients_pos J_later J_step.
  revert t D ph. induction s as [|[cid [[peer ce]|]] s IH]; intros t D ph Hg Ho; [by exists D| |done].
  destruct Ho as (Ht & Hs & Ho). destruct (request_going t D ph cid peer ce Hg Ht Hs) as [D' Hg'].
  cbn [fold_left end_time]. by apply (IH _ D').
Qed.

(** A client that gets enough turns leaves its loop. *)
Definition ahead (cid : nat) (n : Z) (ph : Phase) : Prop :=
  ∀ op, ph_clients ph !! cid = Some (Running op) → Z.min n (client_count cfg (Z.of_nat cid)) ≤ op.
Definition turns (cid : nat) (s : list Turn) : Z := Z.of_nat (length (filter (λ x : Turn, x.1 = cid) s)).

Lemma request_ahead cid n ph (x : Turn) :
  ahead cid n ph → ahead cid (n + (if bool_decide (x.1 = cid) then 1 else 0)) (request build label cfg ph x).
Proof using Type.
  intros Ha op. destruct x as [k io]. unfold request. cbn [fst snd].
  assert (Hsame : ∀ op, ph_clients ph !! cid = Some (Running op) → k ≠ cid → 
    Z.min (n + (if bool_decide (k = cid) then 1 else 0)) (client_count cfg (Z.of_nat cid)) ≤ op).
  { intros o Ho Hne. rewrite bool_decide_false by done. rewrite Z.add_0_r. by apply Ha. }
  destruct (ph_clients ph !! k) as [[o|]|] eqn:Ek.
  - destruct (decide (k = cid)) as [->|Hne].
    + specialize (Ha o Ek). rewrite bool_decide_true by done. pose proof (lookup_lt_Some _ _ _ Ek).
      destruct (o <? client_count cfg (Z.of_nat cid)) eqn:Eo; [apply Z.ltb_lt in Eo|apply Z.ltb_ge in Eo].
      * destruct io as [[peer ce]|]; [destruct (serve _ _ _ _); destruct (read_reply_kind _) as [[]|]|]; cbn [ph_clients];
          rewrite list_lookup_insert_eq by done; try done. intros [= <-]. lia.
      * rewrite Ek. intros [= <-]. lia.
    + intros Hop. apply Hsame; [|done]. destruct (o <? _); [|done].
      destruct io as [[peer ce]|]; [destruct (serve _ _ _ _); destruct (read_reply_kind _) as [[]|]|]; cbn [ph_clients] in Hop;
        by rewrite list_lookup_insert_ne in Hop by done.
  - intros Hop. apply Hsame; [done|]. intros ->. by rewrite Ek in Hop.
  - intros Hop. apply Hsame; [done|]. intros ->. by rewrite Ek in Hop.
Qed.

Lemma schedule_ahead cid s n ph : ahead cid n ph → ahead cid (n + turns cid s) (fold_left (request build label cfg) s ph).
Proof using Type.
  revert n ph. induction s as [|x s IH]; intros n ph Ha; cbn [fold_left]; [by rewrite Z.add_0_r|].
  apply (request_ahead cid n ph x), IH in Ha. unfold turns in *. rewrite filter_cons. 
  case_bool_decide; destruct (decide _); try done; cbn [length]; [rewrite Nat2Z.inj_succ|]; unfold ahead in *; intros op Hop; specialize (Ha op Hop); lia.
Qed.

(** The schedule lets every client finish. *)
Definition fair (s : list Turn) : Prop :=
  ∀ cid, Z.of_nat cid < clients cfg → client_count cfg (Z.of_nat cid) ≤ turns cid s.

Lemma start_connected e t :
  start_phase cfg (λ _, true) e t
  = {| ph_engine := e; ph_clients := repeat (Running 0) (Z.to_nat (clients cfg)); ph_totals := t |}.
Proof using Type.
  unfold start_phase. f_equal.
  - generalize 0%nat. induction (Z.to_nat (clients cfg)) as [|n IH]; intros i; cbn; [done|]. by rewrite IH.
  - revert t. induction (seq _ _) as [|x l IH]; intros t; [done|apply IH].
Qed.

(** Under a fair schedule a phase ends, having made every request, each answered without an
    error. *)
Lemma phase_ends t s e n :
  0 ≤ requests cfg → in_order t s → fair s → J t [] e →
  ∃ e' D, run_phase label cfg build {| rd_connects := λ _, true; rd_turns := s; rd_elapsed := n |} e t0
    = Some (e', Nat.iter (Z.to_nat (requests cfg)) (bump label) t0,
            phase_line label (done_of label (Nat.iter (Z.to_nat (requests cfg)) (bump label) t0)) n) ∧
  J (end_time t s) D e' ∧ Z.of_nat (length D) = requests cfg ∧
    ∀ cid op, 0 ≤ cid < clients cfg → 0 ≤ op < client_count cfg cid → (cid, op) ∈ D.
Proof using clients_pos J_later J_step.
  intros Hr Ho Hfair HJ. unfold run_phase. cbn [rd_connects rd_turns rd_elapsed]. rewrite start_connected.
  assert (Hcount : ∀ cid, 0 ≤ client_count cfg cid).
  { intros cid. unfold client_count. pose proof (Z.div_pos (requests cfg) (clients cfg) Hr clients_pos). case_match; lia. }
  assert (Htotal0 : ∀ n, total (repeat (Running 0) n) = 0) by (intros m; induction m as [|m IHm]; [done|exact IHm]).
  set (ph0 := {| ph_engine := e |}).
  assert (Hrep : ∀ k c, ph_clients ph0 !! k = Some c → c = Running 0).
  { intros k c Hk. by apply list_elem_of_lookup_2, list_elem_of_In, repeat_spec in Hk. }
  destruct (schedule_going t [] ph0 s) as [D [H1 H2 H3 H4 H5 H6]]; [|done|].
  { split; cbn [ph_clients ph_totals ph_engine ph0].
    - apply repeat_length.
    - intros k c ->%Hrep. exists 0. split; [done|]. split; [lia|apply Hcount].
    - intros k op op' Hk%Hrep Hop. simplify_eq. lia.
    - by rewrite Htotal0.
    - done.
    - done. }
  pose proof (λ cid, schedule_ahead cid s 0 ph0) as Hahead.
  set (ph := fold_left _ s _) in *.
  assert (Hfull : ∀ k c, ph_clients ph !! k = Some c → c = Running (client_count cfg (0 + Z.of_nat k))).
  { intros k c Hk. destruct (H2 k c Hk) as (op & -> & Hop). pose proof (lookup_lt_Some _ _ _ Hk) as Hlt. rewrite H1 in Hlt.
    specialize (Hfair k ltac:(lia)). specialize (Hahead k). discharge Hahead; [intros o Ho'%Hrep; simplify_eq; lia|].
    specialize (Hahead op Hk). f_equal. rewrite Z.add_0_l. lia. }
  assert (Hlen : Z.of_nat (length D) = requests cfg).
  { rewrite H4, (total_full cfg _ 0 Hfull), H1. by apply shares_sum. }
  assert (Ef : forallb (λ '(cid, c), finished cfg (Z.of_nat cid) c) (imap pair (ph_clients ph)) = true).
  { apply forallb_forall. intros [k c] Hin%list_elem_of_In%list_elem_of_lookup. destruct Hin as [i Hi].
    rewrite list_lookup_imap in Hi. destruct (ph_clients ph !! i) as [c'|] eqn:Ec; [|done]. injection Hi as <- <-.
    rewrite (Hfull _ _ Ec). unfold finished. rewrite Z.add_0_l. by apply Z.leb_le. }
  rewrite Ef, H5. exists (ph_engine ph), D. split; [replace (length D) with (Z.to_nat (requests cfg)) by lia; done|].
  split; [done|]. split; [done|].
  intros cid op Hcid Hop. destruct (lookup_lt_is_Some_2 (ph_clients ph) (Z.to_nat cid)) as [c Hc]; [rewrite H1; lia|].
  pose proof (Hfull _ _ Hc) as ->. rewrite <- (Z2Nat.id cid) by lia. eapply H3; [exact Hc|].
  rewrite Z.add_0_l, Z2Nat.id by lia. done.
Qed.
End phase.

(** ** The whole run *)

Lemma live_later (t t' : Z) (m : kv) (k v : bytes) :
  t ≤ t' → live t m !! k = Some (v, None) → live t' m !! k = Some (v, None).
Proof. intros Ht Hk. rewrite <- (live_live t t') by done. rewrite live_lookup, Hk. done. Qed.

Lemma live_later_none (t t' : Z) (m : kv) (k : bytes) : t ≤ t' → live t m !! k = None → live t' m !! k = None.
Proof. intros Ht Hk. rewrite <- (live_live t t') by done. by rewrite live_lookup, Hk. Qed.

Lemma op_key_length cid op :
  0 ≤ cid ≤ u64_max → 0 ≤ op ≤ u64_max → 0 < blen (op_key cid op) ≤ KEY_MAX_BYTES.
Proof.
  intros Hc Ho. unfold op_key. pose proof (to_string_u_length cid) as H1. pose proof (to_string_u_length op) as H2.
  assert (∀ n, 0 ≤ n ≤ u64_max → Z.log2 n ≤ 63) as Hlog.
  { intros n Hn. etrans; [apply Z.log2_le_mono, Hn|]. vm_compute. discriminate. }
  pose proof (Hlog cid Hc). pose proof (Hlog op Ho). unfold blen, KEY_MAX_BYTES in *.
  rewrite !length_app. cbn [length str]. change (length (str "c")) with 1%nat. change (length (str ":k")) with 2%nat. lia.
Qed.

Lemma op_key_counter cid op : 0 ≤ cid → op_key cid op ≠ str "counter".
Proof.
  intros Hc. unfold op_key. destruct (to_string_u_head cid Hc) as (c & s & -> & Hd). cbn. intros [= Hx _].
  subst c. done.
Qed.

Section clean.
Context `{IndexMap} `{HashIter}.
Context (cfg : Config).
Hypothesis clients_ok : 0 < clients cfg ≤ u64_max.
Hypothesis requests_ok : 0 ≤ requests cfg ≤ i64_max.
Hypothesis value_ok : 0 ≤ value_size cfg ≤ VALUE_MAX_BYTES.

Definition payload : bytes := repeat x78 (Z.to_nat (value_size cfg)).

Lemma payload_length : blen payload = value_size cfg.
Proof using value_ok. unfold payload, blen. rewrite repeat_length. lia. Qed.

(** The engine at an instant: no password, no limit on memory, the keys of the given requests with
    their value, and the counter at [n]. *)
Definition held (n : Z) (P : Z * Z → Prop) (t : Z) (e : Engine) : Prop :=
  open e ∧ max_memory (e_eviction e) = 0 ∧
  (∀ p, P p → live t (view e) !! op_key p.1 p.2 = Some (payload, None)) ∧
  live t (view e) !! str "counter" = if n =? 0 then None else Some (to_string_i n, None).

Lemma held_later n P t t' e : held n P t e → t ≤ t' → held n P t' e.
Proof using Type.
  intros (Hopen & H1 & H2 & H3) Ht. split; [done|]. split; [done|]. split; [eauto using live_later|].
  destruct (n =? 0); [by eapply live_later_none|by eapply live_later].
Qed.

(** A request of a client. *)
Definition made (p : Z * Z) : Prop := 0 ≤ p.1 < clients cfg ∧ 0 ≤ p.2 < client_count cfg p.1.

Lemma client_count_le cid : client_count cfg cid ≤ i64_max + 1.
Proof using clients_ok requests_ok.
  unfold client_count. assert (requests cfg / clients cfg ≤ requests cfg) by (apply Z.div_le_upper_bound; nia).
  case_match; lia.
Qed.

Lemma made_key p : made p → 0 < blen (op_key p.1 p.2) ≤ KEY_MAX_BYTES.
Proof using clients_ok requests_ok.
  intros [H1 H2]. pose proof (client_count_le p.1). apply op_key_length; unfold u64_max, i64_max in *; lia.
Qed.

Lemma set_phase t D e cid op peer ce :
  held 0 (λ p, p ∈ D) t e → t ≤ inst (clock_of ce) → steady ce → made (cid, op) →
  ∃ e' reply kind rest, serve ce peer (build_set (op_key cid op) payload) e = (e', reply) ∧
    read_reply_kind reply = Some (kind, rest) ∧ kind ≠ x2d ∧ held 0 (λ p, p ∈ (cid, op) :: D) (inst (clock_of ce)) e'.
Proof using clients_ok requests_ok value_ok.
  intros Hh Ht Hs Hm. apply (held_later _ _ _ _ _ Hh) in Ht as (Hopen & H1 & H2 & H3).
  destruct (serve_set ce peer (op_key cid op) payload (live (inst (clock_of ce)) (view e)) e Hs (made_key _ Hm)) as (e' & -> & Hopen' & Hv & HL);
    [rewrite payload_length; lia|done|by split|].
  eexists _, _, _, []. split; [done|]. split; [reflexivity|]. split; [done|].
  split; [done|]. split; [done|]. rewrite HL. split.
  - intros p [->|Hp]%elem_of_cons; [by rewrite lookup_insert_eq|].
    destruct (decide (op_key p.1 p.2 = op_key cid op)) as [->|]; [by rewrite lookup_insert_eq|].
    rewrite lookup_insert_ne by done. by apply H2.
  - rewrite lookup_insert_ne by (apply op_key_counter, Hm). done.
Qed.

Lemma get_phase t e cid op peer ce :
  held 0 made t e → t ≤ inst (clock_of ce) → steady ce → made (cid, op) →
  ∃ e' reply kind rest, serve ce peer (build_get (op_key cid op)) e = (e', reply) ∧
    read_reply_kind reply = Some (kind, rest) ∧ kind ≠ x2d ∧ held 0 made (inst (clock_of ce)) e'.
Proof using clients_ok requests_ok value_ok.
  intros Hh Ht Hs Hm. apply (held_later _ _ _ _ _ Hh) in Ht as (Hopen & H1 & H2 & H3).
  destruct (serve_get ce peer (op_key cid op) (live (inst (clock_of ce)) (view e)) e Hs (proj2 (made_key _ Hm)) Hopen (conj H1 eq_refl)) as (e' & -> & Hopen' & Hv & HL).
  pose proof (H2 _ Hm) as Hx. cbn [fst snd] in Hx. rewrite Hx. cbn [fmap option_fmap option_map fst opt_bulk].
  pose proof (read_bulk_reply payload []) as Hr. rewrite app_nil_r, payload_length in Hr.
  eexists _, _, _, _. split; [done|]. split; [apply Hr; unfold VALUE_MAX_BYTES, i64_max in *; lia|]. split; [done|].
  split; [done|]. split; [done|]. by rewrite HL.
Qed.

Lemma incr_phase t n e peer ce :
  0 ≤ n < requests cfg → held n made t e → t ≤ inst (clock_of ce) → steady ce →
  ∃ e' reply kind rest, serve ce peer (build_incr (str "counter")) e = (e', reply) ∧
    read_reply_kind reply = Some (kind, rest) ∧ kind ≠ x2d ∧ held (n + 1) made (inst (clock_of ce)) e'.
Proof using clients_ok requests_ok value_ok.
  intros Hn Hh Ht Hs. apply (held_later _ _ _ _ _ Hh) in Ht as (Hopen & H1 & H2 & H3).
  assert (Hi : ∀ z, 0 ≤ z ≤ i64_max → in_i64 z = true) by (intros z Hz; unfold in_i64, i64_min; mlia).
  destruct (serve_incr ce peer (str "counter") (live (inst (clock_of ce)) (view e)) e n (n + 1) Hs) as (e' & -> & Hopen' & Hv & HL).
  - vm_compute. split; [reflexivity|discriminate].
  - done.
  - by split.
  - unfold counter_at. rewrite H3. destruct (n =? 0) eqn:E; [apply Z.eqb_eq in E; by subst|].
    rewrite to_string_i_utf8, parse_i64_to_string by (apply Hi; lia). done.
  - unfold checked_i64. by rewrite Hi by lia.
  - eexists _, _, _, _. split; [done|]. split; [|split].
    + unfold encode_integer. rewrite <- (app_nil_r ([] ++ _)). apply (read_line_reply x3a); [apply no_crlf_to_string_i|auto].
    + done.
    + split; [done|]. split; [done|]. rewrite HL. split.
      * intros p Hp. rewrite lookup_insert_ne; [by apply H2|]. apply not_eq_sym, op_key_counter, Hp.
      * rewrite lookup_insert_eq. destruct (n + 1 =? 0) eqn:E; [apply Z.eqb_eq in E; lia|done].
Qed.
End clean.

Lemma in_order_app (t : Z) (s1 s2 : list Turn) :
  in_order t (s1 ++ s2) → in_order t s1 ∧ in_order (end_time t s1) s2.
Proof.
  revert t. induction s1 as [|[cid [[peer ce]|]] s1 IH]; intros t; [done| |done]. cbn [app in_order end_time].
  intros (H1 & H2 & H3). apply IH in H3 as [H3 H4]. done.
Qed.

Lemma bump_iter n t :
  Nat.iter n (bump (str "SET")) t = {| t_set := t_set t + Z.of_nat n; t_get := t_get t; t_incr := t_incr t; t_errors := t_errors t |} ∧
  Nat.iter n (bump (str "GET")) t = {| t_set := t_set t; t_get := t_get t + Z.of_nat n; t_incr := t_incr t; t_errors := t_errors t |} ∧
  Nat.iter n (bump (str "INCR")) t = {| t_set := t_set t; t_get := t_get t; t_incr := t_incr t + Z.of_nat n; t_errors := t_errors t |}.
Proof.
  induction n as [|n (IH1 & IH2 & IH3)]; [destruct t; cbn; by rewrite !Z.add_0_r|].
  rewrite !Nat.iter_succ, IH1, IH2, IH3. split_and!; unfold bump; cbn [t_set t_get t_incr t_errors];
    cbn -[Z.of_nat Z.add]; f_equal; lia.
Qed.

(** C28: the load generator finds no error. On a server that asks for no password and has
    no memory limit, on which the counter does not exist, when every client connects and every write goes through,
    for every interleaving of the client threads in clock order that gives each thread
    its turns, the program ends with exit code 0, reports the configured number of SET,
    GET and INCR replies and counts no error; every key it wrote holds its value, and the
    counter stands at the number of requests. *)
Theorem load_gen_clean `{IndexMap} `{HashIter} args cfg (s1 s2 s3 : list Turn) (n1 n2 n3 t : Z) e :
  parse_args args = Ok (Some cfg) →
  0 < clients cfg ≤ u64_max → 0 < requests cfg ≤ i64_max → 0 ≤ value_size cfg ≤ VALUE_MAX_BYTES →
  e_auth_required e = false → max_memory (e_eviction e) = 0 → live t (view e) !! str "counter" = None →
  in_order t (s1 ++ s2 ++ s3) → fair cfg s1 → fair cfg s2 → fair cfg s3 →
  let round s n := {| rd_connects := λ _, true; rd_turns := s; rd_elapsed := n |} in
  ∃ e', main args (round s1 n1) (round s2 n2) (round s3 n3) e
    = Some (0, [config_line cfg; phase_line (str "SET") (requests cfg) n1; phase_line (str "GET") (requests cfg) n2;
                phase_line (str "INCR") (requests cfg) n3],
            {| t_set := requests cfg; t_get := requests cfg; t_incr := requests cfg; t_errors := 0 |}, e') ∧
  (∀ cid op, 0 ≤ cid < clients cfg → 0 ≤ op < client_count cfg cid →
     fst <$> view e' !! op_key cid op = Some (repeat x78 (Z.to_nat (value_size cfg)))) ∧
  fst <$> view e' !! str "counter" = Some (to_string_i (requests cfg)).
Proof.
  intros Hargs Hc Hr Hv Hauth Hmem Hctr Ho F1 F2 F3 round. assert (Hr' : 0 ≤ requests cfg ≤ i64_max) by lia.
  apply in_order_app in Ho as [Ho1 Ho]. apply in_order_app in Ho as [Ho2 Ho3]. unfold main. rewrite Hargs.
  edestruct (phase_ends cfg (λ cid op, build_set (op_key cid op) (repeat x78 (Z.to_nat (value_size cfg)))) (str "SET") no_totals
    (λ t D e, held cfg 0 (λ p, p ∈ D) t e)) as (e1 & D1 & E1 & HJ1 & _ & Hall);
    [lia|intros; by eapply held_later| |lia|exact Ho1|exact F1|split; [done|split; [done|split; [by intros ? ?%elem_of_nil|done]]]|].
  { intros. eapply set_phase; [done..|split; done]. }
  assert (Hall' : held cfg 0 (made cfg) (end_time t s1) e1).
  { destruct HJ1 as (A0 & A1 & A2 & A3). split; [done|]. split; [done|]. split; [|done]. intros [cid op] [Hp1 Hp2]. apply A2. by apply Hall. }
  edestruct (phase_ends cfg (λ cid op, build_get (op_key cid op)) (str "GET")) with (J := λ (t : Z) (D : list (Z * Z)) e, held cfg 0 (made cfg) t e)
    as (e2 & D2 & E2 & HJ2 & _ & _); [lia|intros; by eapply held_later| |lia|exact Ho2|exact F2|exact Hall'|].
  { intros. eapply get_phase; [done..|split; done]. }
  edestruct (phase_ends cfg (λ _ _, build_incr (str "counter")) (str "INCR")) with (J := λ t (D : list (Z * Z)) e, held cfg (Z.of_nat (length D)) (made cfg) t e)
    as (e3 & D3 & E3 & HJ3 & Hn & _); [lia|intros; by eapply held_later| |lia|exact Ho3|exact F3|exact HJ2|].
  { intros u D e0 cid op peer ce HJ Hle Hst Hcid Hop HD.
    destruct (incr_phase cfg Hc Hr' Hv u (Z.of_nat (length D)) e0 peer ce) as (x & y & z & w & A1 & A2 & A3 & A4);
      [lia|done..|]. exists x, y, z, w. split_and!; try done. cbn [length]. by rewrite Nat2Z.inj_succ. }
  unfold round. rewrite E1. cbn [mbind option_bind]. rewrite E2. cbn [mbind option_bind]. rewrite E3. cbn [mbind option_bind].
  destruct HJ3 as (_ & _ & Hkeys & Hcounter).
  destruct (bump_iter (Z.to_nat (requests cfg)) no_totals) as (-> & _ & _).
  edestruct (bump_iter (Z.to_nat (requests cfg))) as (_ & -> & _).
  edestruct (bump_iter (Z.to_nat (requests cfg))) as (_ & _ & ->). cbn [t_set t_get t_incr t_errors no_totals].
  assert (Hview : ∀ (t : Z) (m : kv) (k v : bytes), live t m !! k = Some (v, None) → fst <$> m !! k = Some v).
  { intros t' m k v. rewrite live_lookup. destruct (m !! k) as [p|]; [|done]. destruct (alive _ _); [|done]. by intros [= ->]. }
  exists e3. rewrite !Z2Nat.id, !Z.add_0_l by lia. split; [done|]. split.
  - intros cid op Hcid Hop. eapply Hview, (Hkeys (cid, op)). done.
  - rewrite Hn in Hcounter. destruct (requests cfg =? 0) eqn:E; [apply Z.eqb_eq in E; lia|]. by eapply Hview.
Qed.

(** Three requests by two clients. *)
Definition sample_args : list bytes :=
  [str "--clients"; str "2"; str "--requests"; str "3"; str "--value-size"; str "2"].
Definition sample_config : Config := {| addr := str "127.0.0.1:6399"; clients := 2; requests := 3; value_size := 2 |}.
Definition sample_schedule (t : Z) : list Turn :=
  [(1%nat, Some (str "a", cmd_env_at t)); (0%nat, Some (str "b", cmd_env_at (t + 1))); (0%nat, Some (str "b", cmd_env_at (t + 2)))].

Lemma sample_fair t : fair sample_config (sample_schedule t).
Proof. intros cid Hc. cbn in Hc. destruct cid as [|[|cid]]; [vm_compute; discriminate..|lia]. Qed.

Lemma load_gen_clean_witness :
  let round s := {| rd_connects := λ _, true; rd_turns := s; rd_elapsed := 1000000000 |} in
  ∃ lines e', main sample_args (round (sample_schedule 1)) (round (sample_schedule 4)) (round (sample_schedule 7)) (engine_new (clock_at 0))
    = Some (0, lines, {| t_set := 3; t_get := 3; t_incr := 3; t_errors := 0 |}, e') ∧
    fst <$> view e' !! str "counter" = Some (str "3").
Proof.
  destruct (load_gen_clean sample_args sample_config (sample_schedule 1) (sample_schedule 4) (sample_schedule 7)
    1000000000 1000000000 1000000000 0 (engine_new (clock_at 0))) as (e' & Hm & _ & Hc).
  - vm_compute. reflexivity.
  - split; [reflexivity|vm_compute; discriminate].
  - split; [reflexivity|vm_compute; discriminate].
  - split; vm_compute; discriminate.
  - reflexivity.
  - reflexivity.
  - vm_compute. reflexivity.
  - vm_compute. repeat split; discriminate.
  - apply sample_fair.
  - apply sample_fair.
  - apply sample_fair.
  - eexists _, e'. split; [exact Hm|exact Hc].
Defined.
