(* ===== verification/HitRatio.v ===== *)
(** * The hit-ratio benchmark (src/examples/hit_ratio_bench.rs)

    The workload generator, the client, and the run of one workload against a server:
    every request goes through the handler of a connection, every reply is read back from the
    bytes. The arguments and the program around it are in [HitRatioMain]. Arithmetic is that
    of the release build the program asks for (it wraps); a panic is [None]: a remainder by
    zero, a table too large to reserve, a pace that no [Duration] can hold. [powf] and the
    grant of the tables by the allocator are parameters, and so are the clocks the pauses
    between requests let pass. The generated keys stay in
    their ranges, and the ratio a workload reports is exactly the share of its own reads
    that were answered with a value. *)
From S2P Require Import Prelude Numeric Text Error Floats Encoder Command Parser IndexMap Eviction Entry Aof ConfigFile Cli Engine WriteGuard Commands Frames EngineInv MemoryLimit Server Connection LoadGen.
From Stdlib Require Import ZArith Lia SpecFloat Strings.Byte.
From stdpp Require Import gmap strings numbers list.
Local Open Scope Z_scope.

(** [bytes_per_entry] *)
Definition bytes_per_entry (value_size : Z) : Z := 9 + value_size + PER_ENTRY_OVERHEAD.

Inductive Pattern := Zipf | Shift | Mixed | Scan | Ttl.
Definition pattern_str (p : Pattern) : bytes :=
  match p with
  | Zipf => str "zipf" | Shift => str "shift" | Mixed => str "mixed" | Scan => str "scan" | Ttl => str "ttl"
  end.
(** [pattern as u64] *)
Definition pattern_index (p : Pattern) : Z :=
  match p with Zipf => 0 | Shift => 1 | Mixed => 2 | Scan => 3 | Ttl => 4 end.

Inductive Policy := Lru | Lfu | Ahe | Random | PSieve | SieveS.
Definition name (p : Policy) : bytes :=
  match p with
  | Lru => str "allkeys-lru" | Lfu => str "allkeys-lfu" | Ahe => str "allkeys-ahe"
  | Random => str "allkeys-random" | PSieve => str "allkeys-sieve" | SieveS => str "allkeys-sieves"
  end.

(** ** The generator *)

(** [Rng::new] and [next_u64], on a 64-bit word. *)
Definition rng_new (seed : Z) : Z := Z.lor seed 1.
Definition next_u64 (x : Z) : Z :=
  let x := Z.lxor x (wrap64 (Z.shiftl x 13)) in
  let x := Z.lxor x (Z.shiftr x 7) in
  Z.lxor x (wrap64 (Z.shiftl x 17)).
(** [next_f64]: the new state and the fraction. *)
Definition next_f64 (x : Z) : Z * spec_float :=
  let x := next_u64 x in
  (x, F64.div (F64.of_Z (Z.shiftr x 11)) (F64.of_Z (Z.shiftl 1 53))).

Section zipf.
Context (powf : spec_float → spec_float → spec_float).
(** Whether the allocator grants so many bytes. *)
Context (alloc : Z → bool).

(** The running sums of [build_zipf_cdf], for [n] ranks from [i] on. *)
Fixpoint zipf_sums (n : nat) (i : Z) (s sum : spec_float) : list spec_float :=
  match n with
  | O => []
  | S n =>
      let sum := F64.add sum (F64.div (F64.of_Z 1) (powf (F64.of_Z i) s)) in
      sum :: zipf_sums n (i + 1) s sum
  end.

(** What [build_zipf_cdf] fills its vector with. *)
Definition zipf_table (n : Z) (s : spec_float) : list spec_float :=
  let cdf := zipf_sums (Z.to_nat n) 1 s F64.zero in
  let inv := F64.div (F64.of_Z 1) (List.last cdf F64.zero) in
  map (λ v, F64.mul v inv) cdf.

(** [build_zipf_cdf]: [Vec::with_capacity] panics when the size in bytes exceeds
    [isize::MAX], and ends the program when the allocator refuses it. *)
Definition build_zipf_cdf (n : Z) (s : spec_float) : option (list spec_float) :=
  if (i64_max <? 8 * n) || negb (alloc (8 * n)) then None else Some (zipf_table n s).

(** [slice::partition_point]: binary search between [left] and [left + size]. *)
Fixpoint partition_loop {A} (fuel : nat) (p : A → bool) (l : list A) (left size : nat) : nat :=
  match fuel with
  | O => left
  | S fuel =>
      match size with
      | O => left
      | _ =>
          let half := Nat.div2 size in
          match l !! (left + half)%nat with
          | Some x =>
              if p x then partition_loop fuel p l (S (left + half)) (size - half - 1)
              else partition_loop fuel p l left half
          | None => left
          end
      end
  end.
Definition partition_point {A} (p : A → bool) (l : list A) : nat := partition_loop (S (length l)) p l 0 (length l).

(** [sample_zipf]; [cdf.len() - 1] wraps for an empty table. *)
Definition sample_zipf (cdf : list spec_float) (u : spec_float) : Z :=
  let idx := partition_point (λ v, SFltb v u) cdf in
  Z.min (Z.of_nat idx) (wrap64 (blen cdf - 1)).

Record Params := {
  working_set : Z;
  capacity : Z;
  ops : Z;
  pace_ms : spec_float;
  value_size : Z;
  seed : Z;
  epochs : Z;
  zipf_s : spec_float;
  hot_frac : spec_float;
  durable_frac : spec_float;
  durable_pool : Z;
  ephemeral_pool : Z;
  durable_ttl_secs : Z;
  ephemeral_ttl_secs : Z;
  base_port : Z;
}.

Record Cdfs := {
  whole : list spec_float;
  band : list spec_float;
  hot : list spec_float;
  durable : list spec_float;
  ephemeral : list spec_float;
}.

(** The tables [main] builds, when nothing fails. *)
Definition cdf_tables (p : Params) : Cdfs := {|
  whole := zipf_table (working_set p) (zipf_s p);
  band := zipf_table (Z.max (working_set p / epochs p) 1) (zipf_s p);
  hot := zipf_table (capacity p) (zipf_s p);
  durable := zipf_table (durable_pool p) (zipf_s p);
  ephemeral := zipf_table (ephemeral_pool p) (zipf_s p);
|}.

Definition build_cdfs (p : Params) : option Cdfs :=
  if epochs p =? 0 then None
  else
    w ← build_zipf_cdf (working_set p) (zipf_s p);
    b ← build_zipf_cdf (Z.max (working_set p / epochs p) 1) (zipf_s p);
    h ← build_zipf_cdf (capacity p) (zipf_s p);
    d ← build_zipf_cdf (durable_pool p) (zipf_s p);
    t ← build_zipf_cdf (ephemeral_pool p) (zipf_s p);
    Some {| whole := w; band := b; hot := h; durable := d; ephemeral := t |}.

(** [gen_id]: the generator's state, the id and its time to live; a remainder or quotient
    by zero panics. *)
Definition gen_id (pattern : Pattern) (op ops : Z) (p : Params) (cdfs : Cdfs) (rng : Z) : option (Z * (Z * Z)) :=
  match pattern with
  | Scan => if working_set p =? 0 then None else Some (rng, (op mod working_set p, 0))
  | Zipf => let '(rng, u) := next_f64 rng in Some (rng, (sample_zipf (whole cdfs) u, 0))
  | Shift =>
      if epochs p =? 0 then None
      else
        let width := Z.max (working_set p / epochs p) 1 in
        let epoch := wrap64 (op * epochs p) / Z.max ops 1 in
        let base := wrap64 (epoch * width) in
        let '(rng, u) := next_f64 rng in
        let within := sample_zipf (band cdfs) u in
        if working_set p =? 0 then None
        else Some (rng, (wrap64 (base + within) mod working_set p, 0))
  | Mixed =>
      let '(rng, u) := next_f64 rng in
      if SFltb u (hot_frac p) then
        let '(rng, u) := next_f64 rng in Some (rng, (sample_zipf (hot cdfs) u, 0))
      else if working_set p =? 0 then None else Some (rng, (op mod working_set p, 0))
  | Ttl =>
      let '(rng, u) := next_f64 rng in
      if SFltb u (durable_frac p) then
        let '(rng, u) := next_f64 rng in
        Some (rng, (sample_zipf (durable cdfs) u mod Z.max (durable_pool p) 1, durable_ttl_secs p))
      else
        let pool := Z.max (ephemeral_pool p) 1 in
        let '(rng, u) := next_f64 rng in
        Some (rng, (wrap64 (durable_pool p + sample_zipf (ephemeral cdfs) u mod pool), ephemeral_ttl_secs p))
  end.
End zipf.

(** ** The client *)

Inductive Reply := Simple | Error (e : bytes) | Bulk (body : bytes) | Null.

(** [read_line], over what the server will send: [None] when that runs out. *)
Fixpoint read_line (out s : bytes) : option (bytes * bytes) :=
  match s with
  | [] => None
  | b :: s' =>
      if bool_decide (b = x0a) then Some (utf8_lossy out, s')
      else if bool_decide (b = x0d) then read_line out s'
      else read_line (out ++ [b]) s'
  end.

(** [read_reply]: one reply and the bytes after it. *)
Definition read_reply (s : bytes) : result bytes (Reply * bytes) :=
  let eof : bytes := str "failed to fill whole buffer" in
  match s with
  | [] => Err eof
  | head :: s =>
      if bool_decide (head = x2b) || bool_decide (head = x3a) then
        match read_line [] s with Some (_, rest) => Ok (Simple, rest) | None => Err eof end
      else if bool_decide (head = x2d) then
        match read_line [] s with Some (line, rest) => Ok (Error line, rest) | None => Err eof end
      else if bool_decide (head = x24) then
        match read_line [] s with
        | None => Err eof
        | Some (line, rest) =>
            match parse_i64 (trim line) with
            | None => Err (str "bad bulk length")
            | Some len =>
                if len <? 0 then Ok (Null, rest)
                else if blen rest <? len + 2 then Err eof
                else Ok (Bulk (take (Z.to_nat len) rest), drop (Z.to_nat (len + 2)) rest)
            end
        end
      else Err (str "unexpected reply prefix: 0x" ++ hex_byte (b2z head))
  end.

(** The frames; [append_bulk], [build_get] and [build_set] are those of the load
    generator, line for line. *)
Definition build_set_ex (key : bytes) (ttl_secs : Z) : bytes :=
  append_bulk (append_bulk (append_bulk (str "*3" ++ CRLF) (str "EXPIRE")) key) (to_string_u ttl_secs).

Definition INFO_STATS : bytes :=
  str "*2" ++ CRLF ++ str "$4" ++ CRLF ++ str "INFO" ++ CRLF ++ str "$5" ++ CRLF ++ str "stats" ++ CRLF.

(** [format!("k{:08}", id)] *)
Definition bench_key (id : Z) : bytes :=
  let d := to_string_u id in str "k" ++ repeat x30 (8 - length d) ++ d.

(** [parse_hit_ratio] *)
Definition ratio_line (acc : option Z * option Z) (line : bytes) : option Z * option Z :=
  match str_strip_prefix line (str "keyspace_hits:") with
  | Some v => (parse_u64 (trim v), acc.2)
  | None =>
      match str_strip_prefix line (str "keyspace_misses:") with
      | Some v => (acc.1, parse_u64 (trim v))
      | None => acc
      end
  end.
Definition parse_hit_ratio (body : bytes) : result bytes spec_float :=
  match fold_left ratio_line (lines (utf8_lossy body)) (None, None) with
  | (Some h, Some m) =>
      let total := wrap64 (h + m) in
      if total =? 0 then Ok F64.zero else Ok (F64.div (F64.of_Z h) (F64.of_Z total))
  | _ => Err (str "missing keyspace_hits/misses in INFO")
  end.

(** [Duration::from_secs_f64], in nanoseconds: rounded to the nearest, ties to even; it
    panics on a negative number, on 2^64 seconds or more, and on what is not a number. *)
Definition from_secs_f64 (x : spec_float) : option Z :=
  match x with
  | S754_zero _ => Some 0
  | S754_finite false m e =>
      let num := Zpos m * 1000000000 in
      if 0 <=? e then
        (if Zpos m * 2 ^ e <? 2 ^ 64 then Some (num * 2 ^ e) else None)
      else if Zpos m <? 2 ^ 64 * 2 ^ (- e) then
        let q := num / 2 ^ (- e) in
        let twice := 2 * (num mod 2 ^ (- e)) in
        Some (if (2 ^ (- e) <? twice) || ((2 ^ (- e) =? twice) && Z.odd q) then q + 1 else q)
      else None
  | _ => None
  end.

(** The pace between two operations; the sleeps show in the clocks of the requests. *)
Definition pace (ms : spec_float) : option Z :=
  if SFltb F64.zero ms then from_secs_f64 (F64.div ms (F64.of_Z 1000)) else Some 0.

Example pace_values :
  (pace (F64.of_Z 2), pace (S754_infinity false), pace (F64.lit 1 300), pace S754_nan, pace (S754_infinity true))
  = (Some 2000000, None, None, Some 0, Some 0).
Proof. vm_compute. reflexivity. Qed.

Section workload.
Context `{IndexMap} `{HashIter}.
Context (powf : spec_float → spec_float → spec_float).
(** The clocks of the requests of one operation, and the address the server sees. *)
Context (envs : Z → nat → CmdEnv) (peer : bytes).

(** The engine and the socket: what the server has sent and the client not read. [wd_hits]
    counts the reads that were answered with a value, for the statement only. *)
Record World := { wd_engine : Engine; wd_stream : bytes; wd_hits : Z }.

(** [s.write_all(frame)] and the server's answer to it. *)
Definition send (ce : CmdEnv) (frame : bytes) (w : World) : World :=
  let '(e, reply) := serve ce peer frame (wd_engine w) in
  {| wd_engine := e; wd_stream := wd_stream w ++ reply; wd_hits := wd_hits w |}.

(** [let _ = read_reply(&mut s)] *)
Definition skip_reply (w : World) : World :=
  {| wd_engine := wd_engine w;
     wd_stream := match read_reply (wd_stream w) with Ok (_, rest) => rest | Err _ => [] end;
     wd_hits := wd_hits w |}.

(** One operation of the loop. *)
Definition bench_op (pattern : Pattern) (p : Params) (cdfs : Cdfs) (op : Z) (rng : Z) (w : World)
    : option (result bytes (Z * World)) :=
  '(rng, (id, ttl)) ← gen_id pattern op (ops p) p cdfs rng;
  let key := bench_key id in
  let w := send (envs op 0%nat) (build_get key) w in
  match read_reply (wd_stream w) with
  | Err e => Some (Err e)
  | Ok (reply, rest) =>
      let w := {| wd_engine := wd_engine w; wd_stream := rest;
                  wd_hits := match reply with Bulk _ => wd_hits w + 1 | _ => wd_hits w end |} in
      match reply with
      | Null =>
          let w := skip_reply (send (envs op 1%nat) (build_set key (repeat x76 (Z.to_nat (value_size p)))) w) in
          Some (Ok (rng, if 0 <? ttl then skip_reply (send (envs op 2%nat) (build_set_ex key ttl) w) else w))
      | Error e => Some (Err (str "GET error: " ++ e))
      | _ => Some (Ok (rng, w))
      end
  end.

Fixpoint bench_loop (n : nat) (pattern : Pattern) (p : Params) (cdfs : Cdfs) (op : Z) (rng : Z) (w : World)
    : option (result bytes World) :=
  match n with
  | O => Some (Ok w)
  | S n =>
      r ← bench_op pattern p cdfs op rng w;
      match r with
      | Ok (rng, w) => bench_loop n pattern p cdfs (op + 1) rng w
      | Err e => Some (Err e)
      end
  end.

(** [run_workload] on a server that has just been started with the engine [e]. *)
Definition run_workload (pattern : Pattern) (p : Params) (cdfs : Cdfs) (e : Engine)
    : option (result bytes (spec_float * World)) :=
  _ ← pace (pace_ms p);
  let rng := rng_new (Z.lxor (seed p) (wrap64 (pattern_index pattern * 0x9E3779B9))) in
  r ← bench_loop (Z.to_nat (ops p)) pattern p cdfs 0 rng {| wd_engine := e; wd_stream := []; wd_hits := 0 |};
  Some (match r with
        | Err m => Err m
        | Ok w =>
            let w := send (envs (ops p) 0%nat) INFO_STATS w in
            match read_reply (wd_stream w) with
            | Err m => Err m
            | Ok (Bulk body, _) =>
                match parse_hit_ratio body with Ok x => Ok (x, w) | Err m => Err m end
            | Ok _ => Err (str "INFO did not return a bulk reply")
            end
        end).
End workload.

(** ** The keys stay in their ranges *)

Lemma partition_loop_bound {A} fuel (p : A → bool) l left size :
  (left ≤ partition_loop fuel p l left size ≤ left + size)%nat.
Proof.
  revert left size. induction fuel as [|fuel IH]; intros left size; cbn [partition_loop]; [lia|].
  destruct size as [|size]; [lia|]. set (h := Nat.div2 (S size)).
  assert (h < S size)%nat by (apply Nat.lt_div2; lia).
  destruct (l !! (left + h)%nat) as [x|]; [|lia]. destruct (p x).
  - specialize (IH (S (left + h)) (S size - h - 1)%nat). lia.
  - specialize (IH left h). lia.
Qed.

(** The search has fuel enough: on a list that is split by [p] it finds the split. *)
Lemma partition_loop_split {A} fuel (p : A → bool) l left size m :
  (size < fuel)%nat → (left ≤ m ≤ left + size)%nat → (left + size ≤ length l)%nat →
  (∀ i x, l !! i = Some x → p x = bool_decide (i < m)%nat) →
  partition_loop fuel p l left size = m.
Proof.
  intros Hf Hm Hl Hp. revert left size Hf Hm Hl. induction fuel as [|fuel IH]; intros left size Hf Hm Hl; [lia|].
  cbn [partition_loop]. destruct size as [|size]; [lia|]. set (h := Nat.div2 (S size)).
  assert (h < S size)%nat by (apply Nat.lt_div2; lia).
  destruct (l !! (left + h)%nat) as [x|] eqn:Ex; [|apply lookup_ge_None in Ex; lia].
  rewrite (Hp _ _ Ex). case_bool_decide; apply IH; lia.
Qed.
Lemma partition_point_split {A} (p : A → bool) l m :
  (m ≤ length l)%nat → (∀ i x, l !! i = Some x → p x = bool_decide (i < m)%nat) → partition_point p l = m.
Proof. intros Hm Hp. apply partition_loop_split; [lia|lia|lia|done]. Qed.

Lemma zipf_sums_length powf n i s sum : length (zipf_sums powf n i s sum) = n.
Proof. revert i sum. induction n as [|n IH]; intros; cbn; [done|]. by rewrite IH. Qed.

Lemma zipf_table_length powf n s : 0 ≤ n → blen (zipf_table powf n s) = n.
Proof. intros Hn. unfold zipf_table, blen. rewrite length_map, zipf_sums_length. lia. Qed.

Lemma sample_zipf_bound powf n s u :
  0 ≤ n < 2 ^ 64 → 0 ≤ sample_zipf (zipf_table powf n s) u < Z.max n 1.
Proof.
  intros Hn. unfold sample_zipf. rewrite zipf_table_length by lia.
  pose proof (partition_loop_bound (S (length (zipf_table powf n s))) (λ v, SFltb v u) (zipf_table powf n s) 0
    (length (zipf_table powf n s))) as Hb. fold (partition_point (λ v, SFltb v u) (zipf_table powf n s)) in Hb.
  pose proof (zipf_table_length powf n s) as Hl. unfold blen in Hl. unfold wrap64.
  destruct (decide (n = 0)) as [->|]; [|rewrite Z.mod_small by lia; lia].
  pose proof (Z.mod_pos_bound (0 - 1) 18446744073709551616 eq_refl). lia.
Qed.

Lemma gen_id_spec powf pattern (op n : Z) p rng :
  0 < working_set p < 2 ^ 64 → 0 < epochs p → 0 ≤ op →
  0 ≤ capacity p < 2 ^ 64 → 0 ≤ durable_pool p < 2 ^ 64 → 0 ≤ ephemeral_pool p < 2 ^ 64 →
  durable_pool p + Z.max (ephemeral_pool p) 1 ≤ 2 ^ 64 →
  ∃ rng' id ttl, gen_id pattern op n p (cdf_tables powf p) rng = Some (rng', (id, ttl)) ∧
  match pattern with
  | Zipf | Shift | Scan => 0 ≤ id < working_set p ∧ ttl = 0
  | Mixed => 0 ≤ id < Z.max (working_set p) (capacity p) ∧ ttl = 0
  | Ttl =>
      (0 ≤ id < Z.max (durable_pool p) 1 ∧ ttl = durable_ttl_secs p) ∨
      (durable_pool p ≤ id < durable_pool p + Z.max (ephemeral_pool p) 1 ∧ ttl = ephemeral_ttl_secs p)
  end.
Proof.
  intros Hw He Hop Hc Hd Hep Hsum.
  assert (Hwz : (working_set p =? 0) = false) by (apply Z.eqb_neq; lia).
  pose proof (Z.mod_pos_bound op (working_set p) ltac:(lia)) as Hmod.
  destruct pattern; cbn [gen_id cdf_tables whole band hot durable ephemeral].
  - destruct (next_f64 rng) as [r u]. eexists _, _, _. split; [reflexivity|].
    pose proof (sample_zipf_bound powf (working_set p) (zipf_s p) u ltac:(lia)). lia.
  - rewrite (proj2 (Z.eqb_neq (epochs p) 0)) by lia. destruct (next_f64 rng) as [r u]. rewrite Hwz.
    eexists _, _, _. split; [reflexivity|]. split; [apply Z.mod_pos_bound; lia|done].
  - destruct (next_f64 rng) as [r u]. destruct (SFltb u (hot_frac p)).
    + destruct (next_f64 r) as [r' u']. eexists _, _, _. split; [reflexivity|].
      pose proof (sample_zipf_bound powf (capacity p) (zipf_s p) u' ltac:(lia)). lia.
    + rewrite Hwz. eexists _, _, _. split; [reflexivity|]. lia.
  - rewrite Hwz. eexists _, _, _. split; [reflexivity|]. lia.
  - destruct (next_f64 rng) as [r u]. destruct (SFltb u (durable_frac p)); destruct (next_f64 r) as [r' u'].
    + eexists _, _, _. split; [reflexivity|]. left. split; [apply Z.mod_pos_bound; lia|done].
    + eexists _, _, _. split; [reflexivity|]. right. split; [|done].
      pose proof (Z.mod_pos_bound (sample_zipf (zipf_table powf (ephemeral_pool p) (zipf_s p)) u')
        (Z.max (ephemeral_pool p) 1) ltac:(lia)). unfold wrap64. rewrite (Z.mod_small (_ + _)) by lia. lia.
Qed.
(** The workload generator never leaves its key space. Whatever the distribution, the
    generator's state and the position, a request is for a key of the working set (or of
    the hot set) without expiry, and in the TTL workload for a durable id with the durable
    time to live or for an ephemeral id with the ephemeral one; the two ranges do not meet
    as long as there is a durable pool. *)
Theorem gen_id_range powf pattern (op n : Z) p rng :
  0 < working_set p < 2 ^ 64 → 0 < epochs p → 0 ≤ op →
  0 ≤ capacity p < 2 ^ 64 → 0 ≤ durable_pool p < 2 ^ 64 → 0 ≤ ephemeral_pool p < 2 ^ 64 →
  durable_pool p + Z.max (ephemeral_pool p) 1 ≤ 2 ^ 64 →
  ∃ rng' id ttl, gen_id pattern op n p (cdf_tables powf p) rng = Some (rng', (id, ttl)) ∧
  match pattern with
  | Zipf | Shift | Scan => 0 ≤ id < working_set p ∧ ttl = 0
  | Mixed => 0 ≤ id < Z.max (working_set p) (capacity p) ∧ ttl = 0
  | Ttl =>
      (0 ≤ id < Z.max (durable_pool p) 1 ∧ ttl = durable_ttl_secs p) ∨
      (durable_pool p ≤ id < durable_pool p + Z.max (ephemeral_pool p) 1 ∧ ttl = ephemeral_ttl_secs p)
  end.
Proof. apply gen_id_spec. Qed.

(** The defaults of [parse_args]. *)
Definition default_params : Params := {|
  working_set := 100000; capacity := 5000; ops := 3000; pace_ms := F64.of_Z 20; value_size := 64;
  seed := 0x12345678; epochs := 8; zipf_s := F64.of_Z 1; hot_frac := F64.lit 7 (-1); durable_frac := F64.lit 5 (-1);
  durable_pool := 10000; ephemeral_pool := 5000; durable_ttl_secs := 3600; ephemeral_ttl_secs := 25;
  base_port := 6391 |}.

Lemma gen_id_range_witness :
  ∃ rng' id ttl, gen_id Ttl 7 3000 default_params (cdf_tables (λ x _, x) default_params) 5 = Some (rng', (id, ttl)) ∧
    (0 ≤ id < 10000 ∧ ttl = 3600 ∨ 10000 ≤ id < 15000 ∧ ttl = 25).
Proof.
  exact (gen_id_range (λ x _, x) Ttl 7 3000 default_params 5 ltac:(cbn; lia) ltac:(cbn; lia) ltac:(lia) ltac:(cbn; lia)
    ltac:(cbn; lia) ltac:(cbn; lia) ltac:(cbn; lia)).
Defined.

(** ** Replies *)

Lemma read_line_exact l rest out : no_crlf l → read_line out (l ++ CRLF ++ rest) = Some (utf8_lossy (out ++ l), rest).
Proof.
  intros Hl. revert out. induction Hl as [|b l [H1 H2] _ IH]; intros out; cbn [app read_line CRLF].
  - by rewrite app_nil_r.
  - rewrite !bool_decide_false by done. rewrite IH, <- app_assoc. done.
Qed.

(** A reply of one line: a simple string, an integer or an error. *)
Definition line_reply (w : bytes) : Prop :=
  ∃ kind l, no_crlf l ∧ (kind = x2b ∨ kind = x2d ∨ kind = x3a) ∧ w = [kind] ++ l ++ CRLF.

Lemma read_reply_line w rest : line_reply w → ∃ r, read_reply (w ++ rest) = Ok (r, rest).
Proof.
  intros (kind & l & Hl & Hk & ->). cbn [app read_reply]. rewrite <- app_assoc, read_line_exact by done.
  destruct Hk as [->|[->| ->]]; eexists; reflexivity.
Qed.

Lemma read_reply_bulk o rest :
  (∀ b, o = Some b → blen b ≤ i64_max) →
  read_reply (opt_bulk Resp2 o [] ++ rest) = Ok (match o with Some b => Bulk b | None => Null end, rest).
Proof.
  intros Hb. destruct o as [b|]; [|reflexivity]. specialize (Hb b eq_refl). cbn [opt_bulk]. unfold encode_bulk_string.
  assert (H0 : 0 ≤ blen b) by (unfold blen; lia). cbn [app read_reply].
  rewrite <- !app_assoc, read_line_exact by (by apply no_crlf_to_string_u). cbn [app].
  rewrite !bool_decide_false by done. rewrite bool_decide_true by done. cbn [orb].
  rewrite utf8_lossy_valid by (by apply to_string_u_utf8).
  rewrite trim_solid, parse_i64_to_string_u by (done || by apply to_string_u_solid).
  rewrite (proj2 (Z.ltb_ge (blen b) 0)) by done.
  rewrite (proj2 (Z.ltb_ge _ _)) by (unfold blen; rewrite !length_app; cbn; lia).
  do 2 f_equal. f_equal.
  - f_equal. unfold blen. rewrite Nat2Z.id. apply take_app_length.
  - rewrite app_assoc. apply drop_app_length'. rewrite length_app. unfold blen. cbn. lia.
Qed.
(** ** The counters of [INFO] *)

Lemma lines_crlf l rest : no_crlf l → lines (l ++ CRLF ++ rest) = l :: lines rest.
Proof.
  induction 1 as [|c l [H1 H2] _ IH]; [reflexivity|]. cbn [app lines]. rewrite bool_decide_false, IH by done.
  destruct (l ++ CRLF ++ rest) as [|d s] eqn:E; [done|]. by rewrite (bool_decide_false (c = x0d)).
Qed.

Lemma ratio_skip acc line : head line ≠ Some x6b → ratio_line acc line = acc.
Proof.
  intros Hh. assert (H : ∀ p, head p = Some x6b → str_strip_prefix line p = None).
  { intros [|c p] [= ->]. unfold str_strip_prefix. rewrite bool_decide_false; [done|].
    destruct line as [|b line]; cbn; [done|]. intros [= -> _]. done. }
  unfold ratio_line. by rewrite !H by reflexivity.
Qed.

Lemma strip_app p v : str_strip_prefix (p ++ v) p = Some v.
Proof. unfold str_strip_prefix. rewrite take_app_length, drop_app_length. by rewrite bool_decide_true. Qed.

Lemma dec_digits_ascii fuel n : Forall (λ b, b2z b < 128) (dec_digits fuel n).
Proof.
  revert n. induction fuel as [|fuel IH]; intros n; cbn [dec_digits]; [constructor|].
  apply Forall_app_2; [by destruct (n <? 10); [constructor|]|]. constructor; [|constructor].
  pose proof (Z.mod_pos_bound n 10 eq_refl). rewrite b2z_digit by lia. lia.
Qed.

Lemma ratio_hits acc v : ratio_line acc (str "keyspace_hits" ++ str ":" ++ v) = (parse_u64 (trim v), acc.2).
Proof.
  change (str "keyspace_hits" ++ str ":" ++ v) with (str "keyspace_hits:" ++ v). unfold ratio_line. by rewrite strip_app.
Qed.
Lemma ratio_misses acc v : ratio_line acc (str "keyspace_misses" ++ str ":" ++ v) = (acc.1, parse_u64 (trim v)).
Proof.
  change (str "keyspace_misses" ++ str ":" ++ v) with (str "keyspace_misses:" ++ v). unfold ratio_line.
  assert (str_strip_prefix (str "keyspace_misses:" ++ v) (str "keyspace_hits:") = None) as ->; [|by rewrite strip_app].
  unfold str_strip_prefix. rewrite bool_decide_false; [done|]. discriminate.
Qed.

Section ratio.
Context `{IndexMap} `{HashIter}.

Ltac ascii_text := match goal with |- Forall _ ?l => let v := eval vm_compute in l in change (Forall (λ b, b2z b < 128) v) end;
  repeat (apply Forall_cons_2; [vm_compute; reflexivity|]); apply Forall_nil_2.

Lemma info_line_ascii nm n : Forall (λ b, b2z b < 128) (str nm) → Forall (λ b, b2z b < 128) (info_line nm (to_string_u n)).
Proof using Type.
  intros Hn. unfold info_line. rewrite !Forall_app. split_and!; [done|ascii_text|apply dec_digits_ascii|ascii_text].
Qed.

Lemma info_stats_text e : utf8_lossy (info_stats e) = info_stats e.
Proof using Type.
  apply utf8_lossy_valid, ascii_utf8_valid. unfold info_stats.
  rewrite !Forall_app. split_and!; try (apply info_line_ascii); ascii_text.
Qed.

Lemma info_lines nm n rest :
  no_crlf (str nm) → lines (info_line nm (to_string_u n) ++ rest) = (str nm ++ str ":" ++ to_string_u n) :: lines rest.
Proof using Type.
  intros Hn. unfold info_line.
  replace ((str nm ++ str ":" ++ to_string_u n ++ CRLF) ++ rest) with ((str nm ++ str ":" ++ to_string_u n) ++ CRLF ++ rest)
    by (by rewrite <- !app_assoc).
  apply lines_crlf. apply no_crlf_app; [done|]. apply no_crlf_app; [by apply no_crlfb_spec|apply no_crlf_printed].
Qed.

(** The benchmark reads the counters the server prints. *)
Lemma parse_info_stats e :
  0 ≤ e_hits e ≤ u64_max → 0 ≤ e_misses e ≤ u64_max →
  parse_hit_ratio (info_stats e) =
    let total := wrap64 (e_hits e + e_misses e) in
    Ok (if total =? 0 then F64.zero else F64.div (F64.of_Z (e_hits e)) (F64.of_Z total)).
Proof using Type.
  intros Hh Hm. unfold parse_hit_ratio. rewrite info_stats_text. unfold info_stats.
  rewrite lines_crlf by (by apply no_crlfb_spec). rewrite !info_lines by (by apply no_crlfb_spec).
  cbn [fold_left]. rewrite !ratio_skip by done.
  rewrite ratio_hits, ratio_misses. rewrite !ratio_skip by done. cbn [fst snd].
  rewrite !trim_solid by (apply to_string_u_solid; lia).
  unfold parse_u64. rewrite !parse_unsigned_to_string by done. change (lines CRLF) with [[] : bytes].
  cbn [fold_left]. rewrite ratio_skip by done. cbv beta iota zeta. by destruct (wrap64 _ =? 0).
Qed.

(** ** The server's side of the requests *)

(** A frame that is no command: the error is sent, and the engine is as before. *)
Lemma serve_invalid ce peer parts x e :
  wf_parts parts → build_command parts = Err x → serve ce peer (encode_command parts) e = (e, write_ferrum_error [] x).
Proof using Type.
  intros Hwf Hb. pose proof (parse_frame_encode parts [] Hwf) as Hp. rewrite app_nil_r in Hp.
  unfold frame_of in Hp. rewrite Hb in Hp.
  destruct (one_refusal (λ _, ce) peer _ x e Hp) as (c & Hc & He & Hs). unfold serve. rewrite Hc. cbn [fst]. by rewrite He, Hs.
Qed.

(** The counters of reads. *)
Definition reads (e : Engine) : Z * Z := (e_hits e, e_misses e).
#[local] Instance reads_stable x : Stable (λ e, reads e = x).
Proof. by split. Qed.

(** The counters that [INFO stats] prints beside them, on a server without a log or a
    password. *)
Definition word (n : Z) : Prop := 0 ≤ n ≤ u64_max.
Definition counted (e : Engine) : Prop :=
  (e_aof e = None ∧ open e) ∧ word (e_total_commands e) ∧ word (e_evicted_keys e) ∧ word (e_expired_keys e) ∧ word (e_aof_errors e).

Lemma succ64_range n : word (succ64 n).
Proof using Type.
  unfold word, succ64, wrap64, u64_max. pose proof (Z.mod_pos_bound (n + 1) 18446744073709551616 eq_refl). lia.
Qed.

#[local] Instance counted_stable : Stable counted.
Proof using Type.
  split; unfold counted; cbn; try done; [intros w w' e Hw ([Ha _] & _); congruence|..];
    intros e ([H1 H1'] & H2 & H3 & H4 & H5); split_and!; (done || apply succ64_range).
Qed.
#[local] Instance counted_reads : StableReads counted.
Proof. by split. Qed.

Lemma counted_before ce cmd client e : counted e → counted (before_dispatch ce cmd client e).
Proof using Type.
  intros ([H1 H1'] & H2 & H3 & H4 & H5). unfold before_dispatch. pose proof (succ64_range (e_total_commands e)).
  by destruct (_ && _).
Qed.
Lemma counted_after ce cmd client b e : counted e → counted (after_dispatch ce cmd client b e).
Proof using Type.
  intros Hc. unfold after_dispatch. case_match; [|done]. unfold maybe_push_slowlog, modify. cbn [snd]. by case_match.
Qed.

Lemma reads_before ce cmd client e : reads (before_dispatch ce cmd client e) = reads e.
Proof using Type. unfold before_dispatch. by case_match. Qed.
Lemma reads_after ce cmd client b e : reads (after_dispatch ce cmd client b e) = reads e.
Proof using Type.
  unfold after_dispatch. case_match; [|done]. unfold maybe_push_slowlog, modify. cbn [snd]. by case_match.
Qed.

Lemma wf_before r ce cmd client e : engine_wf r e → engine_wf r (before_dispatch ce cmd client e).
Proof using Type. unfold before_dispatch. intros []. by case_match; split. Qed.
Lemma wf_after r ce cmd client b e : engine_wf r e → engine_wf r (after_dispatch ce cmd client b e).
Proof using Type.
  intros Hw. unfold after_dispatch. case_match; [|done]. unfold maybe_push_slowlog, modify. cbn [snd].
  case_match; [done|]. destruct Hw. by split.
Qed.

(** A command whose arm is one call: its reply, and what is left of the engine. *)
Lemma serve_arm {A} ce peer parts cmd (m : SE Engine FerrumError A) render e :
  wf_parts parts → build_command parts = Ok cmd → ordinary cmd = true → counted e →
  (∀ s, dispatch ce Resp2 cmd s = Next (call m render s)) →
  ∃ e', serve ce peer (encode_command parts) e =
          (e', match (m (before_dispatch ce cmd (Some peer) e)).1 with
               | Ok a => render a [] | Err x => write_ferrum_error [] x end) ∧
    reads e' = reads (m (before_dispatch ce cmd (Some peer) e)).2 ∧ (preserves counted m → counted e') ∧
    (∀ c r, 0 ≤ r → spends (λ e : Engine, e) c m → engine_wf (r + c) e → engine_wf r e').
Proof using Type.
  intros Hwf Hb Ho Hc Hd. destruct (serve_command ce peer parts cmd e Hwf Hb Ho (proj2 (proj1 Hc))) as (e2 & w & Hx & Hs).
  rewrite Hs. revert Hx. unfold execute_command. cbn [fst snd]. rewrite Hd. unfold call.
  destruct (m _) as [x e'] eqn:E. intros [= <- <-]. eexists. split; [done|]. split; [apply reads_after|]. split.
  { intros Hm. apply counted_after. apply (counted_before ce cmd (Some peer)) in Hc. apply Hm in Hc. by rewrite E in Hc. }
  intros c r Hr Hsp Hw. apply wf_after. apply (wf_before _ ce cmd (Some peer)) in Hw. specialize (Hsp r Hr _ Hw). by rewrite E in Hsp.
Qed.

Lemma error_line x : line_reply (write_ferrum_error [] x).
Proof using Type.
  unfold write_ferrum_error, encode_error. eexists x2d, _. split; [|split; [auto|reflexivity]].
  apply no_crlf_app; [by destruct x; apply no_crlfb_spec|]. apply no_crlf_app; [by apply no_crlfb_spec|apply sanitised_no_crlf].
Qed.
Lemma touch_access_ok env k e : (touch_access env k e).1 = Ok tt.
Proof using Type. unfold touch_access. by destruct (e_store e !! k). Qed.
Lemma expire_now_ok k g : (expire_now k g).1 = Ok tt.
Proof using Type.
  unfold expire_now, on_engine, log_expire_drop, mbind, se_bind.
  destruct (track_remove_frame k (g_engine g)) as (T1 & _). destruct (track_remove k (g_engine g)) as [x e1].
  cbn [fst] in T1. subst x. cbn [g_engine set_engine].
  destruct (note_aof_frame (append_del k) e1) as (N1 & _). by destruct (note_aof (append_del k) e1).
Qed.

(** What a read does to the counters, and where its answer comes from. *)
Definition read_once (k : bytes) (e : Engine) (r : res (option bytes)) (e' : Engine) : Prop :=
  ∃ o, r = Ok o ∧ reads e' = match o with
                             | Some _ => (succ64 (e_hits e), e_misses e)
                             | None => (e_hits e, succ64 (e_misses e))
                             end ∧
    (∀ b, o = Some b → ∃ entry, e_store e !! k = Some entry ∧ data entry = b).

Lemma fetch_live_reads env k g r g' : fetch_live env k g = (r, g') → read_once k (g_engine g) r (g_engine g').
Proof using Type.
  unfold fetch_live, lookup_entry, gets, mbind, se_bind. cbn beta iota.
  destruct (e_store (g_engine g) !! k) as [entry|] eqn:Ek; [destruct (is_expired (g_now g) entry)|].
  - pose proof (expire_now_ok k g) as H1. pose proof (stable_expire_now (λ e, reads e = reads (g_engine g)) k g eq_refl) as H2.
    destruct (expire_now k g) as [x g1]. cbn [fst snd] in *. subst x. injection H2 as H2 H3.
    intros [= <- <-]. exists None. split; [done|]. split; [|done]. rewrite <- H2, <- H3. reflexivity.
  - unfold on_engine. pose proof (touch_access_ok env k (g_engine g)) as H1.
    pose proof (stable_touch_access (λ e, reads e = reads (g_engine g)) env k (g_engine g) eq_refl) as H2.
    destruct (touch_access env k (g_engine g)) as [x e1]. cbn [fst snd] in *. subst x. injection H2 as H2 H3.
    intros [= <- <-]. exists (Some (data entry)). split; [done|]. split; [rewrite <- H2, <- H3; reflexivity|].
    intros b [= <-]. eauto.
  - intros [= <- <-]. by exists None.
Qed.

Lemma get_reads env k e r e' : get env k e = (r, e') → read_once k e r e'.
Proof using Type.
  unfold get, gets, mbind, se_bind. cbn beta iota.
  destruct (e_store e !! k) as [entry|] eqn:Ek; [destruct (is_expired (read_now env) entry) eqn:Ex|]; cbn [negb].
  - unfold with_guard. destruct (fetch_live env k (guard_begin env e)) as [x g] eqn:E.
    apply fetch_live_reads in E as (o & H1 & H2 & H3). intros [= <- <-]. exists o. split; [done|]. split; [|done].
    transitivity (reads (g_engine g)); [|exact H2].
    by apply (stable_drop (λ e, reads e = reads (g_engine g))).
  - pose proof (touch_access_ok env k e) as H1. pose proof (stable_touch_access (λ e', reads e' = reads e) env k e eq_refl) as H2.
    destruct (touch_access env k e) as [x e1]. cbn [fst snd] in *. subst x. injection H2 as H2 H3.
    intros [= <- <-]. exists (Some (data entry)). split; [done|]. split; [rewrite <- H2, <- H3; reflexivity|].
    intros b [= <-]. eauto.
  - intros [= <- <-]. by exists None.
Qed.

Lemma key_parts k rest : 0 ≤ blen k ≤ KEY_MAX_BYTES → (length rest ≤ 1)%nat → Forall (λ p, blen p ≤ VALUE_MAX_BYTES) rest →
  ∀ nm : string, blen (str nm) ≤ 64 → wf_parts (str nm :: k :: rest).
Proof using Type.
  intros Hk Hl Hr nm Hn. apply small_parts; [done|cbn; lia|].
  unfold KEY_MAX_BYTES, VALUE_MAX_BYTES in *. repeat (apply Forall_cons_2; [lia|]). done.
Qed.

(** [GET]: one read, and the reply is its answer. *)
Lemma bench_get ce peer k e r :
  0 ≤ blen k ≤ KEY_MAX_BYTES → 0 ≤ r → engine_wf r e → counted e →
  ∃ e' o, serve ce peer (build_get k) e = (e', opt_bulk Resp2 o []) ∧ engine_wf r e' ∧ counted e' ∧
    reads e' = match o with Some _ => (succ64 (e_hits e), e_misses e) | None => (e_hits e, succ64 (e_misses e)) end ∧
    (∀ b, o = Some b → blen b ≤ i64_max).
Proof using Type.
  intros Hk Hr Hw Hc. rewrite build_get_encode.
  destruct (serve_arm ce peer [str "GET"; k] (CGet k) (get (ce_env ce) k) (opt_bulk Resp2) e) as (e' & -> & Hre & Hcnt & Hwf);
    [apply (key_parts k [] Hk); [cbn; lia|constructor|vm_compute; discriminate]|done|done|done|done|].
  set (e1 := before_dispatch ce (CGet k) (Some peer) e) in *.
  pose proof (reads_before ce (CGet k) (Some peer) e) as Hb. fold e1 in Hb. injection Hb as Hb1 Hb2.
  destruct (get_reads (ce_env ce) k e1 _ _ (surjective_pairing _)) as (o & Ho & Hreads & Hsrc).
  exists e', o. rewrite Ho. split; [done|].
  split; [apply (Hwf 0 r Hr); [apply costs_get|by rewrite Z.add_0_r]|].
  split; [apply Hcnt, (stable_get counted)|].
  split; [by rewrite Hre, Hreads, Hb1, Hb2|]. intros b Hob. destruct (Hsrc b Hob) as (entry & Hk' & <-).
  assert (Hs : e_store e1 = e_store e) by (unfold e1, before_dispatch; by destruct (_ && _)).
  rewrite Hs in Hk'. pose proof (entry_le_total _ _ _ Hk') as Hle. pose proof (wf_room _ _ Hw) as Hroom.
  unfold entry_bytes, PER_ENTRY_OVERHEAD in Hle. unfold i63 in Hroom. unfold i64_max. pose proof (blen_nonneg k). lia.
Qed.

(** A write: one line, the counters untouched. *)
Lemma bench_set ce peer k v e r :
  0 ≤ blen k ≤ KEY_MAX_BYTES → blen v ≤ VALUE_MAX_BYTES → 0 ≤ r → engine_wf (r + write_cost k (blen v)) e → counted e →
  ∃ e' w, serve ce peer (build_set k v) e = (e', w) ∧ line_reply w ∧ engine_wf r e' ∧ counted e' ∧ reads e' = reads e.
Proof using Type.
  intros Hk Hv Hr Hw Hc. rewrite build_set_encode.
  destruct (serve_arm ce peer [str "SET"; k; v] (CSet k v) (set (ce_env ce) k v) say_ok e) as (e' & -> & Hre & Hcnt & Hwf);
    [apply (key_parts k [v] Hk); [cbn; lia|by repeat constructor|vm_compute; discriminate]|done|done|done|done|].
  eexists e', _. split; [done|]. split.
  { destruct (set _ _ _ _) as [[a|x] ?]; [|apply error_line]. exists x2b, (str "OK"). split; [by apply no_crlfb_spec|auto]. }
  split; [eapply Hwf; [done|apply costs_with_guard, gcosts_guard_insert|done]|].
  split; [apply Hcnt, (stable_set counted)|].
  rewrite Hre. apply (stable_set (λ e', reads e' = reads e)), reads_before.
Qed.

Lemma build_expire k d :
  build_command [str "EXPIRE"; k; d] = match parse_i64 d with Some z => Ok (CExpire k z) | None => Err not_an_integer end.
Proof using Type.
  transitivity (try_cmd (parse_integer_argument d) (λ z, Ok (CExpire k z))); [reflexivity|].
  unfold parse_integer_argument. by destruct (parse_i64 d).
Qed.

(** [EXPIRE] after it, whatever the time to live. *)
Lemma bench_expire ce peer k ttl e r :
  0 ≤ blen k ≤ KEY_MAX_BYTES → 0 ≤ ttl ≤ u64_max → 0 ≤ r → engine_wf r e → counted e →
  ∃ e' w, serve ce peer (build_set_ex k ttl) e = (e', w) ∧ line_reply w ∧ engine_wf r e' ∧ counted e' ∧ reads e' = reads e.
Proof using Type.
  intros Hk Ht Hr Hw Hc.
  assert (Henc : build_set_ex k ttl = encode_command [str "EXPIRE"; k; to_string_u ttl]).
  { unfold build_set_ex. rewrite !append_bulk_part, <- !app_assoc. unfold encode_command. cbn [map concat]. by rewrite app_nil_r. }
  assert (Hparts : wf_parts [str "EXPIRE"; k; to_string_u ttl]).
  { apply (key_parts k [to_string_u ttl] Hk); [cbn; lia| |vm_compute; discriminate]. constructor; [|constructor].
    pose proof (to_string_u_length ttl). assert (Z.log2 ttl ≤ 63).
    { etrans; [apply Z.log2_le_mono, Ht|]. vm_compute. discriminate. }
    unfold VALUE_MAX_BYTES. lia. }
  rewrite Henc. destruct (parse_i64 (to_string_u ttl)) as [z|] eqn:Ez.
  - destruct (serve_arm ce peer [str "EXPIRE"; k; to_string_u ttl] (CExpire k z)
      (expire_reply ce k (checked_seconds_to_ms z)) (λ b out, enc_bool Resp2 out b) e) as (e' & -> & Hre & Hcnt & Hwf);
      [done|by rewrite build_expire, Ez|done|done|done|].
    eexists e', _. split; [done|]. split.
    { destruct (expire_reply _ _ _ _) as [[a|x] ?]; [|apply error_line].
      eexists x3a, _. split; [apply no_crlf_to_string_i|]. split; [auto|reflexivity]. }
    split; [apply (Hwf 0); [done|apply costs_with_guard, gcosts_guard_expire_at|by rewrite Z.add_0_r]|].
    split; [apply Hcnt, (stable_expire_at_ms counted)|].
    rewrite Hre. apply (stable_expire_at_ms (λ e', reads e' = reads e)), reads_before.
  - exists e, (write_ferrum_error [] not_an_integer). split; [|split; [apply error_line|done]].
    apply serve_invalid; [done|]. by rewrite build_expire, Ez.
Qed.

(** ** The whole workload *)

Context (powf : spec_float → spec_float → spec_float).
Context (envs : Z → nat → CmdEnv) (peer : bytes).

(** The parameters the benchmark can run with: tables that fit in the address space (less
    than 2^60 entries), a number of epochs, a pace that is a duration, values the server
    takes, and otherwise the ranges of the types. *)
Record sensible (p : Params) : Prop := {
  ok_working : 0 < working_set p < 2 ^ 60;
  ok_epochs : 0 < epochs p;
  ok_capacity : 0 ≤ capacity p < 2 ^ 60;
  ok_durable : 0 ≤ durable_pool p < 2 ^ 60;
  ok_ephemeral : 0 ≤ ephemeral_pool p < 2 ^ 60;
  ok_pace : pace (pace_ms p) ≠ None;
  ok_ttls : 0 ≤ durable_ttl_secs p ≤ u64_max ∧ 0 ≤ ephemeral_ttl_secs p ≤ u64_max;
  ok_ops : 0 ≤ ops p ≤ u64_max;
  ok_value : 0 ≤ value_size p ≤ VALUE_MAX_BYTES;
}.

Lemma gen_id_ok pattern op (p : Params) rng :
  sensible p → 0 ≤ op →
  ∃ rng' id ttl, gen_id pattern op (ops p) p (cdf_tables powf p) rng = Some (rng', (id, ttl)) ∧
    0 ≤ id ≤ u64_max ∧ 0 ≤ ttl ≤ u64_max.
Proof using Type.
  intros [] Hop. destruct (gen_id_spec powf pattern op (ops p) p rng) as (rng' & id & ttl & Hg & Hr); [done || lia..|].
  exists rng', id, ttl. split; [done|]. unfold u64_max in *. destruct pattern; lia.
Qed.

Lemma build_cdfs_ok alloc p :
  sensible p → (∀ n, alloc n = true) → build_cdfs powf alloc p = Some (cdf_tables powf p).
Proof using Type.
  intros [] Ha. assert (Hz : ∀ n s, n < 2 ^ 60 → build_zipf_cdf powf alloc n s = Some (zipf_table powf n s)).
  { intros n s Hn. unfold build_zipf_cdf. rewrite Ha. replace (i64_max <? 8 * n) with false; [done|].
    symmetry. apply Z.ltb_ge. unfold i64_max. lia. }
  assert (working_set p / epochs p ≤ working_set p) by (apply Z.div_le_upper_bound; nia).
  unfold build_cdfs. rewrite (proj2 (Z.eqb_neq (epochs p) 0)) by lia. by rewrite !Hz by lia.
Qed.

Lemma bench_key_length id : 0 ≤ id ≤ u64_max → 0 ≤ blen (bench_key id) ≤ 128.
Proof using Type.
  intros Hid. split; [apply blen_nonneg|]. unfold bench_key. pose proof (to_string_u_length id).
  assert (Z.log2 id ≤ 63) by (etrans; [apply Z.log2_le_mono, Hid|vm_compute; discriminate]).
  unfold blen in *. rewrite !length_app, repeat_length. change (length (str "k")) with 1%nat. lia.
Qed.

(** What one operation may cost. *)
Definition op_budget (p : Params) : Z := write_cost [] (value_size p) + 128.

Lemma send_eq ce frame w e reply :
  serve ce peer frame (wd_engine w) = (e, reply) →
  send peer ce frame w = {| wd_engine := e; wd_stream := wd_stream w ++ reply; wd_hits := wd_hits w |}.
Proof using Type. unfold send. by intros ->. Qed.

(** A request whose reply is one line, read and dropped. *)
Lemma exchange ce frame w e reply :
  serve ce peer frame (wd_engine w) = (e, reply) → line_reply reply → wd_stream w = [] →
  skip_reply (send peer ce frame w) = {| wd_engine := e; wd_stream := []; wd_hits := wd_hits w |}.
Proof using Type.
  intros Hs Hl Hw. rewrite (send_eq _ _ _ _ _ Hs), Hw. unfold skip_reply. cbn [app wd_stream wd_engine wd_hits].
  destruct (read_reply_line reply [] Hl) as [x Hx]. rewrite app_nil_r in Hx. by rewrite Hx.
Qed.

Lemma succ64_small z : 0 ≤ z < u64_max → succ64 z = z + 1.
Proof using Type. intros Hz. unfold succ64, wrap64, u64_max in *. rewrite Z.mod_small; lia. Qed.

Lemma budget_nonneg (p : Params) : sensible p → 0 ≤ op_budget p.
Proof using Type.
  intros Hp. unfold op_budget. pose proof (write_cost_nonneg [] (value_size p) (proj1 (ok_value _ Hp))). lia.
Qed.

Lemma bench_op_reads pattern p op rng w r n :
  sensible p → 0 ≤ op → 0 ≤ r → 0 ≤ n < u64_max →
  engine_wf (r + op_budget p) (wd_engine w) → counted (wd_engine w) → wd_stream w = [] →
  reads (wd_engine w) = (wd_hits w, n - wd_hits w) → 0 ≤ wd_hits w ≤ n →
  ∃ rng' w', bench_op envs peer pattern p (cdf_tables powf p) op rng w = Some (Ok (rng', w')) ∧
    engine_wf r (wd_engine w') ∧ counted (wd_engine w') ∧ wd_stream w' = [] ∧
    reads (wd_engine w') = (wd_hits w', n + 1 - wd_hits w') ∧ 0 ≤ wd_hits w' ≤ n + 1.
Proof using Type.
  intros Hp Hop Hr Hn Hw Hc Hs Hre Hh. pose proof (budget_nonneg p Hp) as Hb.
  destruct (gen_id_ok pattern op p rng Hp Hop) as (rng' & id & ttl & Hg & Hid & Httl).
  unfold bench_op. rewrite Hg. cbn [mbind option_bind]. set (k := bench_key id).
  pose proof (bench_key_length id Hid) as Hk. fold k in Hk.
  assert (Hk' : 0 ≤ blen k ≤ KEY_MAX_BYTES) by (unfold KEY_MAX_BYTES; lia).
  destruct (bench_get (envs op 0%nat) peer k (wd_engine w) (r + op_budget p) Hk' ltac:(lia) Hw Hc)
    as (e1 & o & E1 & Hw1 & Hc1 & Hre1 & Hlen).
  injection Hre as Hh1 Hm1. rewrite Hh1, Hm1 in Hre1. rewrite (send_eq _ _ _ _ _ E1), Hs.
  cbn [app wd_stream wd_engine wd_hits].
  pose proof (read_reply_bulk o [] Hlen) as Hrd. rewrite app_nil_r in Hrd. rewrite Hrd. destruct o as [b|].
  { eexists _, _. split; [reflexivity|]. cbn [wd_stream wd_engine wd_hits]. rewrite Hre1, succ64_small by lia.
    split; [eapply engine_wf_less; [|exact Hw1]; lia|]. split; [done|]. split; [done|]. split; [f_equal; lia|lia]. }
  set (v := repeat x76 _). assert (Hv : blen v = value_size p).
  { unfold v, blen. rewrite repeat_length. pose proof (ok_value _ Hp). lia. }
  destruct (bench_set (envs op 1%nat) peer k v e1 r Hk') as (e2 & w2 & E2 & Hl2 & Hw2 & Hc2 & Hre2);
    [rewrite Hv; apply (ok_value _ Hp)|done| |done|].
  { eapply engine_wf_less; [|exact Hw1]. unfold op_budget, write_cost in *. rewrite Hv. unfold blen in *. cbn [length]. lia. }
  erewrite (exchange (envs op 1%nat)); [|exact E2|exact Hl2|done]. cbn [wd_hits].
  assert (Hend : reads e2 = (wd_hits w, n + 1 - wd_hits w)) by (rewrite Hre2, Hre1, succ64_small by lia; f_equal; lia).
  eexists _, _. split; [reflexivity|]. destruct (0 <? ttl); [|cbn [wd_stream wd_engine wd_hits]; split_and!; (done || lia)].
  destruct (bench_expire (envs op 2%nat) peer k ttl e2 r Hk' Httl Hr Hw2 Hc2) as (e3 & w3 & E3 & Hl3 & Hw3 & Hc3 & Hre3).
  erewrite (exchange (envs op 2%nat)); [|exact E3|exact Hl3|done]. cbn [wd_stream wd_engine wd_hits].
  rewrite Hre3. split_and!; (done || lia).
Qed.

Lemma bench_loop_reads pattern p m op rng w r n :
  sensible p → 0 ≤ op → 0 ≤ r → 0 ≤ n → n + Z.of_nat m ≤ u64_max →
  engine_wf (r + Z.of_nat m * op_budget p) (wd_engine w) → counted (wd_engine w) → wd_stream w = [] →
  reads (wd_engine w) = (wd_hits w, n - wd_hits w) → 0 ≤ wd_hits w ≤ n →
  ∃ w', bench_loop envs peer m pattern p (cdf_tables powf p) op rng w = Some (Ok w') ∧
    engine_wf r (wd_engine w') ∧ counted (wd_engine w') ∧ wd_stream w' = [] ∧
    reads (wd_engine w') = (wd_hits w', n + Z.of_nat m - wd_hits w') ∧ 0 ≤ wd_hits w' ≤ n + Z.of_nat m.
Proof using Type.
  intros Hp. pose proof (budget_nonneg p Hp) as Hb.
  revert op rng w n. induction m as [|m IH]; intros op rng w n Hop Hr Hn Hmax Hw Hc Hs Hre Hh; cbn [bench_loop].
  { eexists. split; [reflexivity|]. rewrite Hre. split_and!; try done; [eapply engine_wf_less; [|exact Hw]; lia|f_equal; lia|lia|lia]. }
  destruct (bench_op_reads pattern p op rng w (r + Z.of_nat m * op_budget p) n) as (rng' & w' & -> & Hw' & Hc' & Hs' & Hre' & Hh');
    [done|done|nia|lia|eapply engine_wf_less; [|exact Hw]; nia|done|done|done|done|].
  cbn [mbind option_bind].
  destruct (IH (op + 1) rng' w' (n + 1)) as (w2 & -> & H1 & H2 & H3 & H4 & H5); [lia|done|lia|lia|done|done|done|done|lia|].
  exists w2. split; [done|]. split; [done|]. split; [done|]. split; [done|]. split; [rewrite H4; f_equal; lia|lia].
Qed.
Lemma bench_info ce e :
  counted e →
  ∃ e', serve ce peer INFO_STATS e = (e', encode_bulk_string [] (info_stats (before_dispatch ce (CInfo (Some (str "stats"))) (Some peer) e))).
Proof using Type.
  intros Hc. assert (Hp : parse_frame INFO_STATS = Ok (Complete (CInfo (Some (str "stats"))) (length INFO_STATS)))
    by (vm_compute; reflexivity).
  destruct (one_request (λ _, ce) peer _ _ e Hp eq_refl (proj2 (proj1 Hc))) as (e' & w & c & Hx & Hs & He & Hw).
  unfold serve. rewrite Hs. cbn [fst]. rewrite He, Hw. exists e'. f_equal. revert Hx.
  unfold execute_command. cbn [fst snd dispatch say]. unfold info_reply.
  assert (Hi : ∀ env e0, concat (map snd (render_info_sections env e0 (Some (str "stats")))) = info_stats e0).
  { intros env e0. change (render_info_sections env e0 (Some (str "stats"))) with [(str "stats", info_stats e0)].
    cbn [map concat snd]. apply app_nil_r. }
  rewrite Hi. by intros [= _ <-].
Qed.

Lemma info_line_length nm n : word n → blen (str nm) ≤ 64 → blen (info_line nm (to_string_u n)) ≤ 256.
Proof using Type.
  intros [H1 H2] Hn. unfold info_line. pose proof (to_string_u_length n).
  assert (Z.log2 n ≤ 63) by (etrans; [apply Z.log2_le_mono, H2|vm_compute; discriminate]).
  unfold blen in *. rewrite !length_app. change (length (str ":")) with 1%nat. change (length CRLF) with 2%nat. lia.
Qed.

Lemma info_stats_length e : counted e → word (e_hits e) → word (e_misses e) → blen (info_stats e) ≤ 4096.
Proof using Type.
  intros ([Ha _] & Ht & He & Hx & Hf) Hh Hm. unfold info_stats, aof_fsync_count, aof_fsync_skips, aof_append_batches.
  rewrite Ha. assert (Hz : word 0) by (vm_compute; split; discriminate).
  pose proof (λ nm n Hn, info_line_length nm n Hn) as Hl. unfold blen in *. rewrite !length_app.
  pose proof (Hl "total_commands_processed" _ Ht ltac:(vm_compute; discriminate)).
  pose proof (Hl "keyspace_hits" _ Hh ltac:(vm_compute; discriminate)).
  pose proof (Hl "keyspace_misses" _ Hm ltac:(vm_compute; discriminate)).
  pose proof (Hl "evicted_keys" _ He ltac:(vm_compute; discriminate)).
  pose proof (Hl "expired_keys" _ Hx ltac:(vm_compute; discriminate)).
  pose proof (Hl "aof_write_errors" _ Hf ltac:(vm_compute; discriminate)).
  pose proof (Hl "aof_fsyncs" _ Hz ltac:(vm_compute; discriminate)).
  pose proof (Hl "aof_fsync_skips" _ Hz ltac:(vm_compute; discriminate)).
  pose proof (Hl "aof_append_batches" _ Hz ltac:(vm_compute; discriminate)).
  change (length (str "# Stats")) with 7%nat. change (length CRLF) with 2%nat. lia.
Qed.
End ratio.

(** The ratio the benchmark reports is the hit ratio. On a freshly started server
    without a log, whatever its eviction policy and memory limit and whatever the clocks,
    a workload runs to its end, and the number it reports is exactly the share of its own
    reads that were answered with a value: evictions, refused writes and expired keys
    cannot make the client and the server's counters disagree. *)
Lemma run_workload_ratio `{IndexMap} `{HashIter} powf (envs : Z → nat → CmdEnv) (peer : bytes) pattern p e r :
  sensible p → 0 ≤ r → engine_wf (r + ops p * op_budget p) e → counted e → reads e = (0, 0) →
  ∃ ratio w, run_workload envs peer pattern p (cdf_tables powf p) e = Some (Ok (ratio, w)) ∧
    0 ≤ wd_hits w ≤ ops p ∧
    ratio = if ops p =? 0 then F64.zero else F64.div (F64.of_Z (wd_hits w)) (F64.of_Z (ops p)).
Proof.
  intros Hp Hr Hw Hc Hre. pose proof (ok_ops _ Hp) as Hops. unfold run_workload.
  destruct (pace (pace_ms p)) as [z|] eqn:Ez; [|by destruct (ok_pace _ Hp)]. cbn [mbind option_bind].
  destruct (bench_loop_reads powf envs peer pattern p (Z.to_nat (ops p)) 0
    (rng_new (Z.lxor (seed p) (wrap64 (pattern_index pattern * 0x9E3779B9)))) {| wd_engine := e; wd_stream := []; wd_hits := 0 |} r 0)
    as (w & -> & Hw' & Hc' & Hs & Hre' & Hh); [done|lia|done|lia|lia|by rewrite Z2Nat.id by lia|done|done|done|cbn; lia|].
  rewrite Z2Nat.id, Z.add_0_l in * by lia. cbn [mbind option_bind].
  set (ce := envs (ops p) 0%nat). destruct (bench_info peer ce (wd_engine w) Hc') as (e' & He').
  set (e1 := before_dispatch ce (CInfo (Some (str "stats"))) (Some peer) (wd_engine w)) in *.
  pose proof (reads_before ce (CInfo (Some (str "stats"))) (Some peer) (wd_engine w)) as Hb. fold e1 in Hb.
  rewrite Hre' in Hb. injection Hb as Hb1 Hb2.
  assert (Hword : word (e_hits e1) ∧ word (e_misses e1)) by (rewrite Hb1, Hb2; unfold word; lia).
  pose proof (info_stats_length e1 (counted_before _ _ _ _ Hc') (proj1 Hword) (proj2 Hword)) as Hlen.
  rewrite (send_eq _ _ _ _ _ _ He'), Hs. cbn [app wd_stream wd_engine wd_hits].
  pose proof (read_reply_bulk (Some (info_stats e1)) []) as Hrd. rewrite app_nil_r in Hrd. cbn [opt_bulk] in Hrd.
  rewrite Hrd by (intros b [= <-]; unfold i64_max; lia).
  rewrite parse_info_stats by apply Hword. cbv zeta. rewrite Hb1, Hb2.
  replace (wd_hits w + (ops p - wd_hits w)) with (ops p) by lia.
  unfold wrap64. rewrite Z.mod_small by (unfold u64_max in *; lia).
  eexists _, _. split; [reflexivity|]. cbn [wd_hits]. split; [lia|done].
Qed.
