(* ===== verification/HitRatioMain.v ===== *)
(** * The hit-ratio benchmark as a program (src/examples/hit_ratio_bench.rs)

    Its arguments, the servers it starts, the grid of policies and patterns it measures
    and the table it prints. A panic is [None]; output is the list of lines written to
    the two streams. What the host answers (whether a child starts, listens and can be
    connected to, the clocks, the addresses the server sees) is an input; a server that
    starts is [Startup.main] on the command line the benchmark builds. The theorem: when
    the host is willing, every cell of the table is the hit ratio of the workload of its
    column under the policy of its row, measured on an empty server with exactly the
    memory cap. *)
From S2P Require Import Prelude Numeric Text Error Floats IndexMap Eviction Entry Aof ConfigFile Cli Engine Commands EngineInv Replay Startup Server LoadGen HitRatio.
From Stdlib Require Import ZArith Lia SpecFloat Strings.Byte.
From stdpp Require Import gmap strings numbers list.
Local Open Scope Z_scope.

(** ** Arguments *)

Record Config := { patterns : list Pattern; policies : list Policy; params : HitRatio.Params }.

Definition pattern_named (s : bytes) : option Pattern :=
  if bytes_eqb s (str "zipf") then Some Zipf
  else if bytes_eqb s (str "shift") then Some Shift
  else if bytes_eqb s (str "mixed") then Some Mixed
  else if bytes_eqb s (str "scan") then Some Scan
  else if bytes_eqb s (str "ttl") then Some Ttl
  else None.
Definition policy_named (s : bytes) : option Policy :=
  if bytes_eqb s (str "lru") then Some Lru
  else if bytes_eqb s (str "lfu") then Some Lfu
  else if bytes_eqb s (str "ahe") then Some Ahe
  else if bytes_eqb s (str "random") then Some Random
  else if bytes_eqb s (str "sieve") then Some PSieve
  else if bytes_eqb s (str "sieves") then Some SieveS
  else None.

(** The words between commas, trimmed, the empty ones left out. *)
Definition words (s : bytes) : list bytes := filter (λ w, w ≠ []) (map trim (split_on x2c s)).
(** [parse_patterns], [parse_policies]: an unknown word panics. *)
Definition parse_patterns (s : bytes) : option (list Pattern) := mapM pattern_named (words s).
Definition parse_policies (s : bytes) : option (list Policy) := mapM policy_named (words s).

(** [params.<field> = value] *)
Definition put_working_set x '(HitRatio.Build_Params _ b c d e f g h i j k l m n o) : HitRatio.Params :=
  HitRatio.Build_Params x b c d e f g h i j k l m n o.
Definition put_capacity x '(HitRatio.Build_Params a _ c d e f g h i j k l m n o) : HitRatio.Params :=
  HitRatio.Build_Params a x c d e f g h i j k l m n o.
Definition put_ops x '(HitRatio.Build_Params a b _ d e f g h i j k l m n o) : HitRatio.Params :=
  HitRatio.Build_Params a b x d e f g h i j k l m n o.
Definition put_pace_ms x '(HitRatio.Build_Params a b c _ e f g h i j k l m n o) : HitRatio.Params :=
  HitRatio.Build_Params a b c x e f g h i j k l m n o.
Definition put_value_size x '(HitRatio.Build_Params a b c d _ f g h i j k l m n o) : HitRatio.Params :=
  HitRatio.Build_Params a b c d x f g h i j k l m n o.
Definition put_seed x '(HitRatio.Build_Params a b c d e _ g h i j k l m n o) : HitRatio.Params :=
  HitRatio.Build_Params a b c d e x g h i j k l m n o.
Definition put_epochs x '(HitRatio.Build_Params a b c d e f _ h i j k l m n o) : HitRatio.Params :=
  HitRatio.Build_Params a b c d e f x h i j k l m n o.
Definition put_zipf_s x '(HitRatio.Build_Params a b c d e f g _ i j k l m n o) : HitRatio.Params :=
  HitRatio.Build_Params a b c d e f g x i j k l m n o.
Definition put_hot_frac x '(HitRatio.Build_Params a b c d e f g h _ j k l m n o) : HitRatio.Params :=
  HitRatio.Build_Params a b c d e f g h x j k l m n o.
Definition put_durable_frac x '(HitRatio.Build_Params a b c d e f g h i _ k l m n o) : HitRatio.Params :=
  HitRatio.Build_Params a b c d e f g h i x k l m n o.
Definition put_durable_pool x '(HitRatio.Build_Params a b c d e f g h i j _ l m n o) : HitRatio.Params :=
  HitRatio.Build_Params a b c d e f g h i j x l m n o.
Definition put_ephemeral_pool x '(HitRatio.Build_Params a b c d e f g h i j k _ m n o) : HitRatio.Params :=
  HitRatio.Build_Params a b c d e f g h i j k x m n o.
Definition put_durable_ttl_secs x '(HitRatio.Build_Params a b c d e f g h i j k l _ n o) : HitRatio.Params :=
  HitRatio.Build_Params a b c d e f g h i j k l x n o.
Definition put_ephemeral_ttl_secs x '(HitRatio.Build_Params a b c d e f g h i j k l m _ o) : HitRatio.Params :=
  HitRatio.Build_Params a b c d e f g h i j k l m x o.
Definition put_base_port x '(HitRatio.Build_Params a b c d e f g h i j k l m n _) : HitRatio.Params :=
  HitRatio.Build_Params a b c d e f g h i j k l m n x.
Definition put_params p (cfg : Config) : Config :=
  {| patterns := patterns cfg; policies := policies cfg; params := p |}.
Definition put_patterns l (cfg : Config) : Config :=
  {| patterns := l; policies := policies cfg; params := params cfg |}.
Definition put_policies l (cfg : Config) : Config :=
  {| patterns := patterns cfg; policies := l; params := params cfg |}.

(** The arm of a flag that takes a value; an unparsable value and an unknown flag panic. *)
Definition bench_flag (flag value : bytes) (cfg : Config) : option Config :=
  let param {A} (parse : bytes → option A) (put : A → HitRatio.Params → HitRatio.Params) :=
    x ← parse value; Some (put_params (put x (params cfg)) cfg) in
  if bytes_eqb flag (str "--working-set") then param parse_u64 put_working_set
  else if bytes_eqb flag (str "--capacity") then param parse_u64 put_capacity
  else if bytes_eqb flag (str "--ops") then param parse_u64 put_ops
  else if bytes_eqb flag (str "--pace-ms") then param F64.parse put_pace_ms
  else if bytes_eqb flag (str "--value-size") then param parse_usize put_value_size
  else if bytes_eqb flag (str "--seed") then param parse_u64 put_seed
  else if bytes_eqb flag (str "--epochs") then param parse_u64 put_epochs
  else if bytes_eqb flag (str "--zipf-s") then param F64.parse put_zipf_s
  else if bytes_eqb flag (str "--hot-frac") then param F64.parse put_hot_frac
  else if bytes_eqb flag (str "--durable-frac") then param F64.parse put_durable_frac
  else if bytes_eqb flag (str "--base-port") then param parse_u16 put_base_port
  else if bytes_eqb flag (str "--durable-pool") then param parse_u64 put_durable_pool
  else if bytes_eqb flag (str "--ephemeral-pool") then param parse_u64 put_ephemeral_pool
  else if bytes_eqb flag (str "--durable-ttl-secs") then param parse_u64 put_durable_ttl_secs
  else if bytes_eqb flag (str "--ephemeral-ttl-secs") then param parse_u64 put_ephemeral_ttl_secs
  else if bytes_eqb flag (str "--patterns") then l ← parse_patterns value; Some (put_patterns l cfg)
  else if bytes_eqb flag (str "--policies") then l ← parse_policies value; Some (put_policies l cfg)
  else None.

(** The loop of [parse_args]; [Some None] is [--help], which ends the program. *)
Fixpoint bench_flags (args : list bytes) (cfg : Config) : option (option Config) :=
  match args with
  | [] => Some (Some cfg)
  | flag :: rest =>
      if bytes_eqb flag (str "-h") || bytes_eqb flag (str "--help") then Some None
      else
        match rest with
        | [] => None
        | value :: rest => cfg ← bench_flag flag value cfg; bench_flags rest cfg
        end
  end.

(** [parse_args] *)
Definition bench_parse_args (args : list bytes) : option (option Config) :=
  ps ← parse_patterns (str "zipf,shift,mixed,scan");
  qs ← parse_policies (str "lru,lfu,ahe,random");
  bench_flags args {| patterns := ps; policies := qs; params := default_params |}.

Example parse_args_ex :
  match bench_parse_args [str "--ops"; str "12"; str "--policies"; str " sieve, ,lfu"; str "--pace-ms"; str "0.5"] with
  | Some (Some c) =>
      patterns c = [Zipf; Shift; Mixed; Scan] ∧ policies c = [PSieve; Lfu] ∧ ops (params c) = 12 ∧
      pace_ms (params c) = F64.lit 5 (-1)
  | _ => False
  end.
Proof. vm_compute. by split_and!. Qed.
Example unknown_flag_panics : bench_parse_args [str "--op"; str "12"] = None.
Proof. vm_compute. reflexivity. Qed.

(** ** Output *)

(** [{:?}] of a word without escapes, and of a vector of them. *)
Definition quoted (w : bytes) : bytes := [x22] ++ w ++ [x22].
Fixpoint commas (l : list bytes) : bytes :=
  match l with
  | [] => []
  | [w] => quoted w
  | w :: l => quoted w ++ str ", " ++ commas l
  end.
Definition listed (l : list bytes) : bytes := str "[" ++ commas l ++ str "]".

(** [print_help] *)
Definition print_help : Line :=
  Eprint (str "usage: hit_ratio_bench [--working-set N] [--capacity N] [--ops N] [--pace-ms F] [--value-size B] [--seed N] [--epochs N] [--zipf-s F] [--hot-frac F] [--durable-frac F] [--base-port P] [--durable-pool N] [--ephemeral-pool N] [--durable-ttl-secs S] [--ephemeral-ttl-secs S] [--patterns zipf,shift,mixed,scan,ttl] [--policies lru,lfu,ahe,random,sieve,sieves]").

(** The line [main] starts with. *)
Definition banner (cfg : Config) (max_memory : Z) : Line :=
  let p := params cfg in
  Out (str "FerrumKV hit-ratio benchmark | working_set=" ++ to_string_u (working_set p)
    ++ str " capacity=" ++ to_string_u (capacity p) ++ str " (" ++ to_string_u (max_memory / 1024) ++ str " KiB cap) ops="
    ++ to_string_u (ops p) ++ str " pace=" ++ F64.to_string (pace_ms p)
    ++ str "ms patterns=" ++ listed (map pattern_str (patterns cfg))
    ++ str " policies=" ++ listed (map name (policies cfg))).

(** A ratio as a percentage with [d] digits. *)
Definition percent (d : Z) (ratio : spec_float) : bytes := F64.fixed d (F64.mul ratio (F64.of_Z 100)) ++ str "%".

Definition failed (policy : Policy) (pattern : Pattern) (what : bytes) : Line :=
  Eprint (str "!! " ++ name policy ++ str " " ++ pattern_str pattern ++ str ": " ++ what).
Definition measured (policy : Policy) (pattern : Pattern) (ratio : spec_float) : Line :=
  Out (str "  " ++ pad 14 (name policy) ++ str " " ++ pad 6 (pattern_str pattern) ++ str " hit_ratio=" ++ percent 2 ratio).

(** One row of the table; a cell is the result where [ok] is set. *)
Definition row_line (policy : Policy) (cells : list (option spec_float)) : bytes :=
  str "| `" ++ name policy ++ str "`"
    ++ concat (map (λ c, match c with Some r => str " | " ++ percent 1 r | None => str " | —" end) cells)
    ++ str " |".

(** [print_table] *)
Definition print_table (cfg : Config) (grid : list (list (option spec_float))) (max_memory : Z) : list Line :=
  map Out
    ([[]; str "## Hit ratio by eviction policy (working set " ++ to_string_u (working_set (params cfg))
           ++ str " keys, cache cap " ++ to_string_u (max_memory / 1024) ++ str " KiB)"; [];
      str "| Policy" ++ concat (map (λ p, str " | " ++ pattern_str p) (patterns cfg)) ++ str " |";
      str "|--------" ++ concat (map (λ _, str "|--------:") (patterns cfg)) ++ str "|"]
     ++ zip_with row_line (policies cfg) grid
     ++ [[]; str "Higher is better. Each cell replays the same seeded workload against a fresh server pinned to that policy; the value is the server's own `keyspace_hits / (keyspace_hits + keyspace_misses)` over the whole run (cold start included). Reproduce with `scripts/bench-hit-ratio.sh`."]).

(** ** The servers it starts *)

(** The arguments of [start_server]. *)
Definition server_args (policy : bytes) (max_memory : Z) (addr : bytes) : list bytes :=
  [str "--addr"; addr; str "--maxmemory"; to_string_u max_memory; str "--maxmemory-policy"; policy;
   str "--dashboard-addr"; str "off"].

(** [format!("127.0.0.1:{}", port)] *)
Definition local_addr (port : Z) : bytes := str "127.0.0.1:" ++ to_string_u port.

Definition wrap16 (n : Z) : Z := n mod 65536.

(** What the host does for the child at an address: the error of starting it, whether it
    accepts connections in time, the error of connecting to it again, its clock at the
    start, the clocks of its commands, and the address it sees the client at. *)
Record Child := {
  ch_spawn : option bytes;
  ch_ready : bool;
  ch_connect : option bytes;
  ch_clock : Clock;
  ch_envs : Z → nat → CmdEnv;
  ch_peer : bytes;
}.

Section program.
Context `{IndexMap} `{HashIter}.
Context (powf : spec_float → spec_float → spec_float).
(** What the allocator of the benchmark grants. *)
Context (alloc : Z → bool).
(** The host by address; and what it would answer about a log and a configuration file. *)
Context (child : bytes → Child) (io : ReplayIo) (read : bytes → result bytes bytes) (renv : Z → Env) (fs : Files).

(** The engine of a server that came up, if it did. *)
Definition booted (argv : list bytes) (addr : bytes) : option Engine :=
  match Startup.main willing read argv io None renv (ch_clock (child addr)) [] fs with
  | Some (Served e _ _ _, _) => Some e
  | _ => None
  end.

(** The body of the inner loop: the line it prints and the result, if there is one. *)
Definition bench_cell (p : HitRatio.Params) (cdfs : Cdfs) (max_memory : Z) (policy : Policy) (pattern : Pattern) (addr : bytes)
    : option (Line * option spec_float) :=
  let c := child addr in
  match ch_spawn c with
  | Some e => Some (failed policy pattern (str "failed to start server: " ++ e), None)
  | None =>
      match (if ch_ready c then booted (server_args (name policy) max_memory addr) addr else None) with
      | None => Some (failed policy pattern (str "server not ready"), None)
      | Some e =>
          match ch_connect c with
          | Some m => Some (failed policy pattern (str "workload error: " ++ m), None)
          | None =>
              r ← run_workload (ch_envs c) (ch_peer c) pattern p cdfs e;
              Some (match r with
                    | Ok (ratio, _) => (measured policy pattern ratio, Some ratio)
                    | Err m => (failed policy pattern (str "workload error: " ++ m), None)
                    end)
          end
      end
  end.

(** The inner loop, from a port on. *)
Fixpoint bench_row (p : HitRatio.Params) (cdfs : Cdfs) (max_memory : Z) (policy : Policy) (pats : list Pattern) (port : Z)
    : option (Z * list (option spec_float) * list Line) :=
  match pats with
  | [] => Some (port, [], [])
  | pattern :: pats =>
      '(line, r) ← bench_cell p cdfs max_memory policy pattern (local_addr port);
      '(port, rs, lines) ← bench_row p cdfs max_memory policy pats (wrap16 (port + 1));
      Some (port, r :: rs, line :: lines)
  end.

(** The outer loop. *)
Fixpoint bench_rows (p : HitRatio.Params) (cdfs : Cdfs) (max_memory : Z) (pats : list Pattern) (pols : list Policy) (port : Z)
    : option (list (list (option spec_float)) * list Line) :=
  match pols with
  | [] => Some ([], [])
  | policy :: pols =>
      '(port, row, lines) ← bench_row p cdfs max_memory policy pats port;
      '(rows, more) ← bench_rows p cdfs max_memory pats pols port;
      Some (row :: rows, lines ++ more)
  end.

(** [main]: the lines it writes. *)
Definition bench_main (args : list bytes) : option (list Line) :=
  r ← bench_parse_args args;
  match r with
  | None => Some [print_help]
  | Some cfg =>
      let p := params cfg in
      let max_memory := wrap64 (capacity p * bytes_per_entry (HitRatio.value_size p)) in
      cdfs ← build_cdfs powf alloc p;
      '(grid, lines) ← bench_rows p cdfs max_memory (patterns cfg) (policies cfg) (base_port p);
      Some (banner cfg max_memory :: lines ++ print_table cfg grid max_memory)
  end.

(** ** The cells *)

(** The policy of the server under a name of the benchmark. *)
Definition server_policy (p : Policy) : EvictionPolicy :=
  match p with
  | Lru => AllKeysLru | Lfu => AllKeysLfu | Ahe => AllKeysAhe | Random => AllKeysRandom
  | PSieve => AllKeysSieve | SieveS => AllKeysSieveS
  end.

(** An empty server without a log, under a policy and a cap, that has counted nothing. *)
Record pristine (cap : Z) (pol : Policy) (e : Engine) : Prop := {
  pr_store : e_store e = ∅;
  pr_limit : e_eviction e = {| Eviction.max_memory := cap; policy := server_policy pol; samples := samples Eviction.default_config |};
  pr_counted : counted e;
  pr_reads : reads e = (0, 0);
  pr_wf : ∀ r, 0 ≤ r < i63 → engine_wf r e;
}.

Lemma server_args_flags p cap addr :
  server_args (name p) cap addr
  = argv_of (Build_RawFlags None (Some addr) None None None None None (Some cap) (Some (server_policy p)) None None None
               (Some (str "off")) None).
Proof using Type. by destruct p. Qed.

(** The command line of a child is accepted. *)
Lemma child_parse p cap addr :
  0 ≤ cap ≤ u64_max →
  cli_parse read (server_args (name p) cap addr) = Ok (Run {|
    ca_addr := addr; ca_aof_path := None; ca_appendfsync := None; ca_client_timeout := None; ca_max_clients := None;
    ca_loglevel := None; ca_max_memory := Some cap; ca_max_memory_policy := Some (server_policy p);
    ca_max_memory_samples := None; ca_requirepass := None; ca_io_threads := None;
    ca_dashboard_addr := Some (str "off"); ca_dashboard_token := None |}).
Proof using Type.
  intros Hm. unfold cli_parse. rewrite server_args_flags, scan_argv_of; [reflexivity|].
  assert (Hc : in_u64 cap = true) by (unfold in_u64, u64_max in *; mlia).
  unfold sayable. cbn. by rewrite Hc.
Qed.

(** It gives the server the benchmark means. *)
Lemma booted_pristine p cap addr :
  0 ≤ cap ≤ u64_max → ∃ e, booted (server_args (name p) cap addr) addr = Some e ∧ pristine cap p e.
Proof using Type.
  intros Hm. unfold booted, Startup.main. rewrite child_parse by done. cbn [aof_config mbind option_bind ca_aof_path build_engine].
  set (cfg := eviction_config _). set (e0 := engine_new _).
  pose proof (λ r Hr, costs_set_eviction_config cfg r Hr e0) as Hwf.
  assert (Hst : ∃ e, set_eviction_config cfg e0 = (Ok tt, e) ∧ e_store e = ∅ ∧ e_eviction e = cfg ∧ counted e ∧ reads e = (0, 0)).
  { eexists. split; [reflexivity|]. subst e0. by destruct p; split_and!. }
  destruct Hst as (e & He & H1 & H2 & H3 & H4). rewrite He in Hwf |- *. cbn [ca_requirepass willing h_bind h_local_addr h_signals negb].
  exists e. split; [done|]. split; [done|done|done|done|].
  intros r Hr. apply Hwf; [lia|]. rewrite Z.add_0_r. by apply engine_new_wf.
Qed.

(** What a cell of the table stands for. *)
Definition cell_ok (p : HitRatio.Params) (cap : Z) (pol : Policy) (pattern : Pattern) (addr : bytes) (ratio : spec_float) : Prop :=
  ∃ e w, pristine cap pol e ∧
    run_workload (ch_envs (child addr)) (ch_peer (child addr)) pattern p (cdf_tables powf p) e = Some (Ok (ratio, w)) ∧
    0 ≤ wd_hits w ≤ ops p ∧
    ratio = if ops p =? 0 then F64.zero else F64.div (F64.of_Z (wd_hits w)) (F64.of_Z (ops p)).

(** The host does its part for every child. *)
Definition obliging : Prop :=
  ∀ port, ch_spawn (child (local_addr port)) = None ∧ ch_ready (child (local_addr port)) = true ∧
    ch_connect (child (local_addr port)) = None.

Lemma bench_cell_ok p cap pol pattern port :
  obliging → sensible p → 0 ≤ cap ≤ u64_max → ops p * op_budget p < i63 →
  ∃ line ratio, bench_cell p (cdf_tables powf p) cap pol pattern (local_addr port) = Some (line, Some ratio) ∧
    cell_ok p cap pol pattern (local_addr port) ratio.
Proof using Type.
  intros Ho Hp Hc Hb. destruct (Ho port) as (H1 & H2 & H3). unfold bench_cell. rewrite H1, H2, H3.
  destruct (booted_pristine pol cap (local_addr port) Hc) as (e & -> & He).
  pose proof (budget_nonneg p Hp) as Hbn. pose proof (ok_ops _ Hp) as Hops.
  destruct (run_workload_ratio powf (ch_envs (child (local_addr port))) (ch_peer (child (local_addr port))) pattern p e 0 Hp)
    as (ratio & w & Hr & Hrest); [lia|apply (pr_wf _ _ _ He); nia|apply He|apply He|].
  rewrite Hr. cbn [mbind option_bind]. eexists _, _. split; [reflexivity|]. exists e, w. done.
Qed.

Lemma wrap16_step (port : Z) (i : nat) : wrap16 (wrap16 (port + 1) + Z.of_nat i) = wrap16 (port + Z.of_nat (S i)).
Proof using Type. unfold wrap16. rewrite Zplus_mod_idemp_l. f_equal. lia. Qed.

Lemma bench_row_ok p cap pol pats port :
  obliging → sensible p → 0 ≤ cap ≤ u64_max → ops p * op_budget p < i63 → wrap16 port = port →
  ∃ row lines, bench_row p (cdf_tables powf p) cap pol pats port = Some (wrap16 (port + Z.of_nat (length pats)), row, lines) ∧
    length row = length pats ∧
    ∀ ti pattern, pats !! ti = Some pattern →
      ∃ ratio, row !! ti = Some (Some ratio) ∧ cell_ok p cap pol pattern (local_addr (wrap16 (port + Z.of_nat ti))) ratio.
Proof using Type.
  intros Ho Hp Hc Hb. revert port. induction pats as [|pattern pats IH]; intros port Hport; cbn [bench_row].
  { exists [], []. rewrite Z.add_0_r, Hport. by split_and!. }
  destruct (bench_cell_ok p cap pol pattern port Ho Hp Hc Hb) as (line & ratio & -> & Hcell). cbn [mbind option_bind].
  destruct (IH (wrap16 (port + 1))) as (row & lines & -> & Hl & Hrow); [unfold wrap16; by rewrite Z.mod_mod|].
  eexists _, _. cbn [mbind option_bind]. split; [by rewrite wrap16_step|]. split; [cbn; lia|].
  intros [|ti] pat'; cbn.
  - intros [= <-]. exists ratio. split; [done|]. by rewrite Z.add_0_r, Hport.
  - intros Hti. destruct (Hrow ti pat' Hti) as (x & Hx & Hok). rewrite wrap16_step in Hok. exists x. exact (conj Hx Hok).
Qed.

Lemma bench_rows_ok p cap pats pols port :
  obliging → sensible p → 0 ≤ cap ≤ u64_max → ops p * op_budget p < i63 → wrap16 port = port →
  ∃ grid lines, bench_rows p (cdf_tables powf p) cap pats pols port = Some (grid, lines) ∧ length grid = length pols ∧
    ∀ pi pol, pols !! pi = Some pol → ∃ row, grid !! pi = Some row ∧ length row = length pats ∧
      ∀ ti pattern, pats !! ti = Some pattern →
        ∃ ratio, row !! ti = Some (Some ratio) ∧
          cell_ok p cap pol pattern (local_addr (wrap16 (port + Z.of_nat (pi * length pats + ti)))) ratio.
Proof using Type.
  intros Ho Hp Hc Hb. revert port. induction pols as [|pol pols IH]; intros port Hport; cbn [bench_rows].
  { exists [], []. by split_and!. }
  destruct (bench_row_ok p cap pol pats port Ho Hp Hc Hb Hport) as (row & lines & -> & Hl & Hrow). cbn [mbind option_bind].
  destruct (IH (wrap16 (port + Z.of_nat (length pats)))) as (grid & more & -> & Hg & Hgrid); [unfold wrap16; by rewrite Z.mod_mod|].
  eexists _, _. cbn [mbind option_bind]. split; [done|]. split; [cbn; lia|].
  intros [|pi] pol'; cbn [lookup list_lookup].
  - intros [= <-]. exists row. split; [done|]. split; [done|]. intros ti pattern Hti. by apply Hrow.
  - intros Hpi. destruct (Hgrid pi pol' Hpi) as (row' & Hr' & Hl' & Hcells). exists row'. split; [done|]. split; [done|].
    intros ti pattern Hti. destruct (Hcells ti pattern Hti) as (x & Hx & Hok). exists x. split; [done|].
    unfold wrap16 in Hok. rewrite Zplus_mod_idemp_l in Hok. unfold wrap16.
    by replace (port + Z.of_nat (S pi * length pats + ti)) with (port + Z.of_nat (length pats) + Z.of_nat (pi * length pats + ti)) by lia.
Qed.
End program.

(** C27: the table is what its caption says. When the parameters are [sensible] (each
    table of the generator has less than 2^60 entries, at least one key and one epoch, a
    pace that [Duration] can hold, values no longer than the server takes), the memory cap
    and the bytes the workload may write fit their types, and the host grants the tables
    and starts every child, the benchmark runs to its end and prints a full table: the
    cell of a policy and a pattern is the share of the reads of that workload that were
    answered with a value, on a server that was empty, had counted nothing, and ran under
    exactly that policy with room for [capacity] entries; each cell has the next port. *)
Theorem bench_table `{IndexMap} `{HashIter} powf (alloc : Z → bool) (child : bytes → Child) io read renv fs (args : list bytes) (cfg : Config) :
  bench_parse_args args = Some (Some cfg) → (∀ n, alloc n = true) → obliging child → sensible (params cfg) → 0 ≤ base_port (params cfg) < 65536 →
  ops (params cfg) * op_budget (params cfg) < i63 →
  let cap := capacity (params cfg) * bytes_per_entry (HitRatio.value_size (params cfg)) in cap ≤ u64_max →
  ∃ grid lines,
    bench_main powf alloc child io read renv fs args = Some (banner cfg cap :: lines ++ print_table cfg grid cap) ∧
    length grid = length (policies cfg) ∧
    ∀ pi pol, policies cfg !! pi = Some pol → ∃ row, grid !! pi = Some row ∧ length row = length (patterns cfg) ∧
      ∀ ti pattern, patterns cfg !! ti = Some pattern →
        ∃ ratio, row !! ti = Some (Some ratio) ∧
          cell_ok powf child (params cfg) cap pol pattern
            (local_addr (wrap16 (base_port (params cfg) + Z.of_nat (pi * length (patterns cfg) + ti)))) ratio.
Proof.
  intros Hargs Hal Ho Hp Hport Hb cap Hcap. unfold bench_main. rewrite Hargs. cbn [mbind option_bind]. fold cap.
  pose proof (ok_capacity _ Hp) as H1. pose proof (ok_value _ Hp) as H2.
  assert (Hcap0 : 0 ≤ cap) by (unfold cap, bytes_per_entry, PER_ENTRY_OVERHEAD; nia).
  replace (wrap64 cap) with cap by (unfold wrap64, u64_max in *; rewrite Z.mod_small; lia).
  rewrite build_cdfs_ok by done. cbn [mbind option_bind].
  destruct (bench_rows_ok powf child io read renv fs (params cfg) cap (patterns cfg) (policies cfg) (base_port (params cfg)))
    as (grid & lines & -> & Hg); [done|done|lia|done|unfold wrap16; by rewrite Z.mod_small by lia|].
  exists grid, lines. by split.
Qed.

(** Three reads over two keys, on servers with room for one. *)
Definition small_args : list bytes :=
  [str "--working-set"; str "2"; str "--capacity"; str "1"; str "--ops"; str "3"; str "--value-size"; str "1";
   str "--epochs"; str "1"; str "--policies"; str "lru"; str "--patterns"; str "scan"].
Definition calm_child (_ : bytes) : Child := {|
  ch_spawn := None; ch_ready := true; ch_connect := None; ch_clock := clock_at 0;
  ch_envs := λ op i, cmd_env_at (10 * op + Z.of_nat i); ch_peer := str "bench" |}.
Definition quiet_io : ReplayIo := {| io_open := None; io_fault := None; io_set_len := None; io_sync := None; io_alloc := λ _, true |}.
Definition small_config : Config := {|
  patterns := [Scan]; policies := [Lru];
  params := put_working_set 2 (put_capacity 1 (put_ops 3 (put_value_size 1 (put_epochs 1 default_params)))) |}.

Lemma bench_table_witness :
  ∃ grid lines,
    bench_main (λ x _, x) (λ _, true) calm_child quiet_io (λ _, Err []) (λ _, env_at 0) ∅ small_args
    = Some (banner small_config (bytes_per_entry 1) :: lines ++ print_table small_config grid (bytes_per_entry 1)) ∧
    ∃ row ratio, grid = [row] ∧ row = [Some ratio] ∧
      cell_ok (λ x _, x) calm_child (params small_config) (bytes_per_entry 1) Lru Scan (str "127.0.0.1:6391") ratio.
Proof.
  destruct (bench_table (λ x _, x) (λ _, true) calm_child quiet_io (λ _, Err []) (λ _, env_at 0) ∅ small_args small_config)
    as (grid & lines & Hm & Hg & Hcells).
  - vm_compute. reflexivity.
  - done.
  - by intros port.
  - split; vm_compute; repeat split; discriminate.
  - cbn; lia.
  - vm_compute. reflexivity.
  - vm_compute. discriminate.
  - exists grid, lines. split; [exact Hm|]. destruct (Hcells 0%nat Lru eq_refl) as (row & Hr & Hl & Hrow).
    destruct (Hrow 0%nat Scan eq_refl) as (ratio & Hx & Hok). exists row, ratio.
    destruct grid as [|g []]; [done| |done]. injection Hr as ->. destruct row as [|c []]; [done| |done].
    injection Hx as ->. split_and!; [done|done|exact Hok].
Defined.

(** A pace that is no duration is accepted, and stops the benchmark at its first workload. *)
Example endless_pace_panics :
  match bench_parse_args [str "--pace-ms"; str "inf"] with
  | Some (Some c) => pace (pace_ms (params c)) = None
  | _ => False
  end.
Proof. vm_compute. reflexivity. Qed.
