(* ===== verification/Process.v ===== *)
(** * The process (src/src/main.rs, [run_listener] of src/src/network/server.rs,
      [serve] of src/src/network/dashboard/mod.rs)

    Everything [main] sets going, on one engine: the accept loop with its clients, the
    sweeper thread, the dashboard thread, the rewrite workers and the signal handler;
    and how it ends: the accept loop sees the flag, the runtime is torn down, [main] joins
    the sweeper and returns, and the process is gone with every thread that is left. Each
    thread owns a handle of the engine; the last one that lets go of it drops the log's
    writer. The clock, the flag and the shared data are those of the sweeper's loop
    ([Background]), so a run of the process is a run of that loop with the other threads as
    its outside. A client's command that does not return within the half second of
    [shutdown_timeout] keeps its handle and runs on beside [main] (a step has the engine's
    lock from its beginning to its end, so such a command waits outside the lock, or between
    two of the rounds of its connection). The theorems: after a signal the process ends, in
    bounded time and steps, with success; and when nothing else is still running the log is
    complete. *)
From S2P Require Import Prelude Numeric Error Encoder Command Parser IndexMap Eviction Entry Aof Engine WriteGuard Commands EngineInv Server Connection Listener Dashboard Background Startup Restart.
From Stdlib Require Import ZArith Lia Strings.Byte.
From stdpp Require Import gmap strings numbers list.
Local Open Scope Z_scope.

(** ** Setting up *)

(** What the host answers to [run_listener] before it can accept: the message of a failed
    [set_nonblocking], of the runtime's builder and of [TcpListener::from_std]. *)
Record ListenHost := { lh_nonblocking : option bytes; lh_runtime : option bytes; lh_register : option bytes }.

Definition run_listener (h : ListenHost) : res () :=
  match lh_nonblocking h with
  | Some e => Err (IoError e)
  | None =>
      match lh_runtime h with
      | Some e => Err (Internal (str "failed to build tokio runtime: " ++ e))
      | None =>
          match lh_register h with
          | Some e => Err (Internal (str "TcpListener::from_std failed: " ++ e))
          | None => Ok tt
          end
      end
  end.

(** The same for [serve]: the builder, [TcpListener::bind] and [local_addr]. *)
Record DashHost := {
  dh_resolve : bytes → result bytes (list (bool * bytes));
  dh_runtime : option bytes;
  dh_bind : option bytes;
  dh_local_addr : option bytes;
}.

Definition serve (h : DashHost) (addr : bytes) (token : option bytes) : res () :=
  match check_bind_policy (dh_resolve h) addr token with
  | Err e => Err e
  | Ok _ =>
      match dh_runtime h with
      | Some e => Err (Internal (str "failed to build dashboard runtime: " ++ e))
      | None =>
          match dh_bind h with
          | Some e => Err (IoError e)
          | None => match dh_local_addr h with Some e => Err (IoError e) | None => Ok tt end
          end
      end
  end.

Section process.
Context `{IndexMap} `{HashIter}.

(** What the clients' tasks and the dashboard share; the answers of the dashboard so far. *)
Record Shared := { sh_server : ServerState; sh_answers : list ConnEnd }.
Abbreviation Thread := (Background.State (A := Shared)).

(** Where [main] is: in [run_listener], in [handle.shutdown()], or gone. *)
Inductive Main := Serving | Joining (code : ExitCode) | Gone (code : ExitCode).

(** Where the dashboard thread is; [Left] also when there is none. *)
Inductive Dash := Starting | Listening | Left.

(** [rewriters] are the running workers of [BGREWRITEAOF], before or after their snapshot.
    [stragglers] are the tasks that [shutdown_timeout] gave up on: in the middle of a command,
    on a worker of the runtime or in its blocking pool, they run on with their handle.
    [last_log] is the log as it stood when the last handle was dropped (for the statements). *)
Record State := {
  thread : Thread;
  main_at : Main;
  dash_at : Dash;
  rewriters : list (option (list (bytes * bytes * option Z)));
  stragglers : list nat;
  last_log : option AofWriter;
}.

Inductive Step :=
| Signal                                               (* the handler of SIGINT and SIGTERM *)
| Clock (n : Z)
| Sweeper                                              (* the next step of the sweeper *)
| Spurious
| Client (a : Action)                                  (* the accept loop or a client's task *)
| Poll                                                 (* the accept loop sees the flag *)
| Teardown (stuck : nat → bool)                        (* [shutdown_timeout], then the wake-up *)
| Straggle (i : nat) (ce : CmdEnv)                     (* a round of a task it gave up on *)
| Fade (i : nat)                                       (* such a task lets go of its handle *)
| Join
| DashStart
| DashRequest (de : DashEnv) (flag : nat → bool) (reads : list Read)
| DashStop
| Rewriter (i : nat) (c : Clock) (rename_err : bytes → FerrumError).

#[local] Instance Signal_dec (s : Step) : Decision (s = Signal).
Proof using Type. destruct s; ((left; done) || (right; done)). Defined.

Definition engine (st : State) : Engine := sv_engine (sh_server (data (thread st))).
Definition flagged (st : State) : bool := stop (thread st).

(** ** Ownership of the engine *)

Definition owners (st : State) : nat :=
  (match main_at st with Serving => 1 | _ => 0 end
   + match pc (thread st) with Exited => 0 | _ => 1 end
   + match dash_at st with Left => 0 | _ => 1 end
   + length (rewriters st) + length (stragglers st))%nat.

Definition with_server (f : ServerState → ServerState) (sh : Shared) : Shared :=
  {| sh_server := f (sh_server sh); sh_answers := sh_answers sh |}.
Definition with_sv_engine (e : Engine) (s : ServerState) : ServerState := {|
  sv_engine := e; sv_tasks := sv_tasks s; sv_active := sv_active s; sv_triggered := sv_triggered s;
  sv_accepting := sv_accepting s; sv_refused := sv_refused s |}.

(** [Drop for AofWriter] *)
Definition close_log (e : Engine) : Engine :=
  match e_aof e with Some w => set_aof (Some (writer_drop w).2) e | None => e end.

(** What other threads do to the shared data, as the sweeper's loop sees it. *)
Definition outside (f : Shared → Shared) (_ : Z) (sh : Shared) : Shared := f sh.

Definition alter_shared (f : Shared → Shared) (th : Thread) : Thread :=
  {| pc := pc th; stop := stop th; Background.guard := Background.guard th; now := now th; data := f (data th); Background.last := Background.last th; spent := spent th |}.

(** The last owner drops the writer. *)
Definition settle_owners (before : nat) (st : State) : State :=
  if (0 <? before)%nat && (owners st =? 0)%nat then
    {| thread := alter_shared (with_server (λ s, with_sv_engine (close_log (sv_engine s)) s)) (thread st);
       main_at := main_at st; dash_at := dash_at st; rewriters := rewriters st;
       stragglers := stragglers st; last_log := e_aof (engine st) |}
  else st.

(** ** Steps *)

Context (max sample : Z) (env : Z → Env) (slack : Z).
Context (INDEX_HTML : bytes) (token : option bytes) (dash_setup : res ()).

(** A round of the sweeper. *)
Definition sweep_shared (t : Z) (sh : Shared) : Shared * bool :=
  let '(e, more) := sweep_body sample env t (sv_engine (sh_server sh)) in
  (with_server (with_sv_engine e) sh, more).

Abbreviation bg_step := (Background.step sweep_shared outside SWEEP_ROUNDS DEFAULT_INTERVAL slack).

Definition with_thread (st : State) (th : Thread) : State :=
  {| thread := th; main_at := main_at st; dash_at := dash_at st; rewriters := rewriters st; stragglers := stragglers st; last_log := last_log st |}.
Definition at_main (m : Main) (st : State) : State :=
  {| thread := thread st; main_at := m; dash_at := dash_at st; rewriters := rewriters st; stragglers := stragglers st; last_log := last_log st |}.
Definition at_dash (d : Dash) (st : State) : State :=
  {| thread := thread st; main_at := main_at st; dash_at := d; rewriters := rewriters st; stragglers := stragglers st; last_log := last_log st |}.
Definition at_rewriters l (st : State) : State :=
  {| thread := thread st; main_at := main_at st; dash_at := dash_at st; rewriters := l; stragglers := stragglers st; last_log := last_log st |}.
Definition at_stragglers l (st : State) : State :=
  {| thread := thread st; main_at := main_at st; dash_at := dash_at st; rewriters := rewriters st; stragglers := l; last_log := last_log st |}.

Definition slot_taken (st : State) : bool := match e_aof (engine st) with Some w => w_rewriting w | None => false end.

(** A command that claims the rewrite slot starts a worker. *)
Definition spawn_worker (before : bool) (st : State) : State :=
  if negb before && slot_taken st then at_rewriters (rewriters st ++ [None]) st else st.

(** An action of the server on its own. *)
Definition of_server (a : Action) : bool := match a with Listener.Trigger | Listener.Sweep _ _ => false | _ => true end.

(** The tasks that are in the middle of their commands, and the command does not return
    within the timeout. *)
Definition left_running (stuck : nat → bool) (s : ServerState) : list nat :=
  List.filter (λ i, stuck i && match sv_tasks s !! i with Some t => is_draining (tk_phase t) | None => false end)
    (seq 0 (length (sv_tasks s))).

(** The other tasks are dropped where they wait. *)
Definition drop_task (t : Task) : Task := {| tk_conn := tk_conn t; tk_peer := tk_peer t; tk_phase := Ended (FClosed (Ok tt)) |}.
Definition aborted (stuck : nat → bool) (s : ServerState) : ServerState := {|
  sv_engine := sv_engine s;
  sv_tasks := imap (λ i t, if holds_slot (tk_phase t) && negb (stuck i && is_draining (tk_phase t)) then drop_task t else t)
                (sv_tasks s);
  sv_active := Z.of_nat (length (left_running stuck s));
  sv_triggered := sv_triggered s; sv_accepting := sv_accepting s; sv_refused := sv_refused s |}.
Definition deaf (s : ServerState) : ServerState := {|
  sv_engine := sv_engine s; sv_tasks := sv_tasks s; sv_active := sv_active s; sv_triggered := sv_triggered s;
  sv_accepting := false; sv_refused := sv_refused s |}.

Definition share (st : State) (f : Shared → Shared) : State := with_thread st (alter_shared f (thread st)).

(** The thread of [install_signal_handlers]: the flag is one, seen by the accept loop and by
    the sweeper. *)
Definition on_signal (st : State) : option State :=
  th ← bg_step Trigger (alter_shared (with_server (λ s, act max s Listener.Trigger)) (thread st)); Some (with_thread st th).

(** The accept loop of the dashboard: a connection, answered on the shared engine. *)
Definition dash_accept (de : DashEnv) (flag : nat → bool) (reads : list Read) (st : State) : option State :=
  match dash_at st with
  | Listening =>
      let '(x, e) := handle_conn INDEX_HTML de flag token reads (engine st) in
      Some (spawn_worker (slot_taken st)
        (share st (λ sh, {| sh_server := with_sv_engine e (sh_server sh); sh_answers := sh_answers sh ++ [x] |})))
  | _ => None
  end.

(** A rewrite worker: the snapshot, then the new file. *)
Definition rewriter_step (i : nat) (c : Entry.Clock) (err : bytes → FerrumError) (st : State) : option State :=
  let swap e := share st (with_server (with_sv_engine e)) in
  match rewriters st !! i with
  | None => None
  | Some None =>
      match rewrite_capture c (engine st) with
      | (Ok (Some snap), e) => Some (at_rewriters (<[i := Some snap]> (rewriters st)) (swap e))
      | (_, e) => Some (at_rewriters (delete i (rewriters st)) (swap e))
      end
  | Some (Some snap) => Some (at_rewriters (delete i (rewriters st)) (swap (rewrite_install err snap (engine st)).2))
  end.

(** A task that the timeout gave up on: the rounds it still gets through, until its worker
    comes back to the runtime and drops it. *)
Definition straggle (i : nat) (ce : CmdEnv) (st : State) : option State :=
  if bool_decide (i ∈ stragglers st) then
    Some (spawn_worker (slot_taken st) (share st (with_server (λ s, act max s (Round i ce)))))
  else None.
Definition fade (i : nat) (st : State) : option State :=
  if bool_decide (i ∈ stragglers st) then
    Some (at_stragglers (List.filter (λ j, negb (j =? i)%nat) (stragglers st))
      (share st (with_server (on_task i drop_task holds_slot))))
  else None.

Definition step1 (s : Step) (st : State) : option State :=
  match s with
  | Signal => on_signal st
  | Clock n => th ← bg_step (Time n) (thread st); Some (with_thread st th)
  | Sweeper => th ← bg_step Run (thread st); Some (with_thread st th)
  | Spurious => th ← bg_step Background.Spurious (thread st); Some (with_thread st th)
  | Client a =>
      match main_at st with
      | Serving => if of_server a then Some (spawn_worker (slot_taken st) (share st (with_server (λ s, act max s a)))) else None
      | _ => None
      end
  | Poll =>
      match main_at st with
      | Serving => if flagged st && sv_accepting (sh_server (data (thread st))) then Some (share st (with_server deaf)) else None
      | _ => None
      end
  | Teardown stuck =>
      match main_at st with
      | Serving =>
          let s := sh_server (data (thread st)) in
          if sv_accepting s then None
          else th ← bg_step Wake (alter_shared (with_server (aborted stuck)) (thread st));
               Some (at_stragglers (left_running stuck s) (at_main (Joining SUCCESS) (with_thread st th)))
      | _ => None
      end
  | Straggle i ce => straggle i ce st
  | Fade i => fade i st
  | Join =>
      match main_at st, pc (thread st) with Joining c, Exited => Some (at_main (Gone c) st) | _, _ => None end
  | DashStart =>
      match dash_at st with
      | Starting => Some (at_dash (match dash_setup with Ok _ => Listening | Err _ => Left end) st)
      | _ => None
      end
  | DashRequest de flag reads => dash_accept de flag reads st
  | DashStop => match dash_at st with Listening => if flagged st then Some (at_dash Left st) else None | _ => None end
  | Rewriter i c err => rewriter_step i c err st
  end.

(** Nothing runs once [main] has returned. *)
Definition step (s : Step) (st : State) : option State :=
  match main_at st with
  | Gone _ => None
  | _ => st' ← step1 s st; Some (settle_owners (owners st) st')
  end.

Fixpoint steps (l : list Step) (st : State) : option State :=
  match l with [] => Some st | s :: l => st' ← step s st; steps l st' end.

(** [main] when everything is set going. The engine goes to [run_listener], which drops it
    when it fails; then [main] joins the sweeper at once. *)
Definition launch (setup : res ()) (sweeper dashboard : bool) (e : Engine) (t : Z) : State :=
  settle_owners 1 {|
    thread := spawned (if sweeper then Testing else Exited) {| sh_server := listening e; sh_answers := [] |} t;
    main_at := match setup with Ok _ => Serving | Err _ => Joining FAILURE end;
    dash_at := if dashboard then Starting else Left;
    rewriters := []; stragglers := []; last_log := None |}.

(** ** The sweeper's view *)

Abbreviation bg_reach := (Background.reachable sweep_shared outside SWEEP_ROUNDS DEFAULT_INTERVAL slack).

Lemma bg_trans a b c : bg_reach a b → bg_reach b c → bg_reach a c.
Proof using Type. intros Hab Hbc. induction Hbc as [|y z m _ IH Hs]; [done|]. by eapply reach_step. Qed.
Lemma bg_one m a b : bg_step m a = Some b → bg_reach a b.
Proof using Type. intros Hs. eapply reach_step; [apply reach_start|exact Hs]. Qed.
Lemma bg_outside f a : bg_reach a (alter_shared f a).
Proof using Type. by apply (bg_one (Outside f)). Qed.
#[local] Hint Resolve bg_one bg_outside reach_start : core.

Lemma spawn_thread b st : thread (spawn_worker b st) = thread st.
Proof using Type. unfold spawn_worker. by destruct (_ && _). Qed.

(** A step, opened. *)
Tactic Notation "at_step" := cbn [step1]; unfold on_signal, dash_accept, rewriter_step, straggle, fade, share; cbn zeta beta.
Tactic Notation "at_step" "in" hyp(Hs) := cbn [step1] in Hs; unfold on_signal, dash_accept, rewriter_step, straggle, fade, share in Hs; cbn zeta beta in Hs.

(** A bind that succeeds, and a match that does. *)
Ltac unbind := repeat match goal with
  | H : (_ ≫= _) = Some _ |- _ => apply bind_Some in H as (? & ? & ?)
  | H : Some _ = Some _ |- _ => injection H as <-
  | H : match ?x with _ => _ end = Some _ |- _ => destruct x eqn:?; try discriminate H
  end.

Lemma step1_thread s st st' : step1 s st = Some st' → bg_reach (thread st) (thread st').
Proof using Type.
  intros Hs. destruct s; at_step in Hs; unbind; cbn [thread at_main at_dash at_rewriters at_stragglers with_thread]; rewrite ?spawn_thread;
    cbn [thread with_thread]; eauto using bg_trans.
Qed.

Lemma settle_thread n st : bg_reach (thread st) (thread (settle_owners n st)).
Proof using Type. unfold settle_owners. destruct (_ && _); [apply bg_outside|apply reach_start]. Qed.

Lemma process_step_inv s st st' :
  step s st = Some st' → (∀ c, main_at st ≠ Gone c) ∧ ∃ st1, step1 s st = Some st1 ∧ st' = settle_owners (owners st) st1.
Proof using Type. unfold step. destruct (main_at st) eqn:E; [| |done]; intros Hs; unbind; split; eauto; congruence. Qed.

Lemma steps_thread l st st' : steps l st = Some st' → bg_reach (thread st) (thread st').
Proof using Type.
  revert st. induction l as [|s l IH]; cbn; intros st Hl; [injection Hl as <-; apply reach_start|].
  unbind. eapply bg_trans; [|by apply IH].
  match goal with E : step s st = Some _ |- _ => apply process_step_inv in E as (_ & st1 & E1 & ->) end.
  eapply bg_trans; [by apply (step1_thread s)|apply settle_thread].
Qed.

Hypothesis slack_pos : 0 ≤ slack.

Abbreviation timely := (Background.timely SWEEP_ROUNDS DEFAULT_INTERVAL slack).

Lemma launch_timely setup sw d e t : timely (thread (launch setup sw d e t)).
Proof using H H0 sample env slack_pos.
  unfold launch. eapply reachable_timely; [by vm_compute|done|unfold SWEEP_ROUNDS; lia| |apply settle_thread].
  destruct sw; [apply spawned_timely; [by vm_compute|done|unfold SWEEP_ROUNDS; lia|by right]|]. by split; cbn; [lia|].
Qed.

Lemma steps_timely l st st' : timely (thread st) → steps l st = Some st' → timely (thread st').
Proof using H H0 sample env slack_pos.
  intros Ht Hl. eapply reachable_timely; [by vm_compute|done|unfold SWEEP_ROUNDS; lia|exact Ht|by eapply steps_thread].
Qed.

(** ** The end after a signal *)

(** How much is left to do: the steps of the sweeper and of [main]. *)
Definition thread_left (p : Pc) : nat :=
  match p with Working k => k + 4 | Locking => 3 | Waiting _ => 2 | Testing => 1 | Exited => 0 end.
Definition main_left (st : State) : nat :=
  match main_at st with
  | Serving => if sv_accepting (sh_server (data (thread st))) then 3 else 2
  | Joining _ => 1
  | Gone _ => 0
  end.
Definition left (st : State) : nat := thread_left (pc (thread st)) + main_left st.

(** The steps that end it. *)
Definition ending (s : Step) : bool := match s with Sweeper | Poll | Teardown _ | Join => true | _ => false end.

Lemma sweep_shared_accepting t sh : sv_accepting (sh_server (sweep_shared t sh).1) = sv_accepting (sh_server sh).
Proof using Type. unfold sweep_shared. by destruct (sweep_body _ _ _ _). Qed.

Lemma act_accepting s a : sv_accepting (act max s a) = true → sv_accepting s = true.
Proof using Type.
  destruct (sv_accepting s) eqn:E; [done|]. intros Hs. rewrite <- Hs. symmetry.
  destruct a; cbn [act]; try done; [by unfold accept; rewrite E|..]; unfold on_task; by repeat case_match.
Qed.

Lemma on_task_accepting i f p s : sv_accepting (on_task i f p s) = sv_accepting s.
Proof using Type. by apply on_task_cases. Qed.

Lemma bg_run_left th th' :
  stop th = true → bg_step Run th = Some th' →
  (thread_left (pc th') < thread_left (pc th))%nat ∧ stop th' = true ∧ sv_accepting (sh_server (data th')) = sv_accepting (sh_server (data th)).
Proof using Type.
  destruct th as [p b g t a la sp]. cbn. intros ->. unfold run. cbn. destruct p as [|d| |[|k]|]; cbn; try done.
  - intros [= <-]. cbn. split_and!; [lia|done..].
  - destruct (d <=? t); [|done]. intros [= <-]. cbn. split_and!; [lia|done..].
  - intros [= <-]. cbn. split_and!; [lia|done..].
  - intros [= <-]. cbn. split_and!; [lia|done..].
  - pose proof (sweep_shared_accepting t a) as Ha. destruct (sweep_shared t a) as [a' []]; cbn in Ha; intros [= <-]; cbn; split_and!; (lia || done).
Qed.

(** Steps that do not belong to the end do not put it off. *)
Lemma bg_other_left m th th' :
  stop th = true → (∀ f, m ≠ Outside f) → m ≠ Run → bg_step m th = Some th' →
  (thread_left (pc th') ≤ thread_left (pc th))%nat ∧ stop th' = true ∧ data th' = data th.
Proof using Type.
  destruct th as [p b g t a la sp]. cbn. intros -> Ho Hr. destruct m; try done; cbn.
  - destruct (n <? 0); [done|]. destruct p; try (destruct (_ <=? _); [|done]); intros [= <-]; cbn; split_and!; (lia || done).
  - destruct p; try done. intros [= <-]. cbn. split_and!; (lia || done).
  - intros [= <-]. cbn. split_and!; (lia || done).
  - destruct p; intros [= <-]; cbn; split_and!; (lia || done).
  - by destruct (Ho op).
Qed.

Lemma left_le st st' :
  (thread_left (pc (thread st')) ≤ thread_left (pc (thread st)))%nat → main_at st' = main_at st →
  (sv_accepting (sh_server (data (thread st'))) = true → sv_accepting (sh_server (data (thread st))) = true) →
  (left st' ≤ left st)%nat.
Proof using Type.
  intros Hp Hm Ha. unfold left, main_left. rewrite Hm. destruct (main_at st); [|lia..].
  destruct (sv_accepting (sh_server (data (thread st')))); [rewrite Ha by done; lia|]. case_match; lia.
Qed.

Lemma spawn_main b st : main_at (spawn_worker b st) = main_at st.
Proof using Type. unfold spawn_worker. by destruct (_ && _). Qed.

Lemma settle_same n st :
  main_at (settle_owners n st) = main_at st ∧ dash_at (settle_owners n st) = dash_at st ∧
  rewriters (settle_owners n st) = rewriters st ∧ stragglers (settle_owners n st) = stragglers st ∧ pc (thread (settle_owners n st)) = pc (thread st) ∧
  stop (thread (settle_owners n st)) = stop (thread st) ∧
  sv_accepting (sh_server (data (thread (settle_owners n st)))) = sv_accepting (sh_server (data (thread st))).
Proof using Type. unfold settle_owners. by destruct (_ && _). Qed.

Lemma step1_left s st st' :
  flagged st = true → step1 s st = Some st' →
  flagged st' = true ∧ (if ending s then left st' < left st else left st' ≤ left st)%nat.
Proof using Type.
  unfold flagged. intros Hf Hs. destruct s; at_step in Hs; cbn [ending]; unbind; rewrite ?spawn_thread; cbn [thread with_thread at_main at_dash at_rewriters at_stragglers].
  all: try match goal with Hb : bg_step Run _ = Some _ |- _ =>
    destruct (bg_run_left _ _ Hf Hb) as (? & ? & Hacc); split; [done|]; unfold left, main_left;
      cbn [thread main_at with_thread]; rewrite Hacc; lia end.
  all: try match goal with Hb : bg_step _ _ = Some _ |- _ =>
    apply bg_other_left in Hb as (Hp & Hst & Hd); [|exact Hf|by intros|done]; split; [exact Hst|] end.
  all: try (split; [exact Hf|]).
  all: try (apply left_le; cbn [thread main_at with_thread at_main at_dash at_rewriters at_stragglers alter_shared pc data];
    rewrite ?spawn_thread, ?spawn_main; cbn [thread main_at with_thread at_main at_dash at_rewriters at_stragglers alter_shared pc data]; [lia|done|];
    try done; try (rewrite Hd; done); try apply act_accepting; try (cbn [with_server sh_server]; by rewrite on_task_accepting)).
  - cbn [alter_shared pc] in Hp. apply left_le; cbn [thread main_at with_thread]; [lia|done|]. by rewrite Hd.
  - unfold flagged in *. unbind. unfold left, main_left. cbn [thread main_at with_thread alter_shared pc data].
    match goal with E : main_at st = Serving |- _ => rewrite E end.
    match goal with E : _ && _ = true |- _ => apply andb_prop in E as [_ E']; rewrite E' end. cbn. lia.
  - unfold left, main_left. cbn [thread main_at with_thread at_main at_stragglers alter_shared pc data] in *.
    match goal with E : main_at st = Serving |- _ => rewrite E end.
    match goal with E : sv_accepting _ = false |- _ => rewrite E end. lia.
  - unfold left, main_left. cbn [thread main_at at_main].
    match goal with E : main_at st = Joining _ |- _ => rewrite E end. lia.
Qed.

Lemma step_left s st st' :
  flagged st = true → step s st = Some st' →
  flagged st' = true ∧ (if ending s then left st' < left st else left st' ≤ left st)%nat.
Proof using Type.
  intros Hf Hs. apply process_step_inv in Hs as (_ & st1 & Hs & ->). destruct (step1_left s st st1 Hf Hs) as [Hf1 Hl].
  destruct (settle_same (owners st) st1) as (H1 & _ & _ & _ & H4 & H5 & H6).
  assert (left (settle_owners (owners st) st1) = left st1) as -> by (unfold left, main_left; by rewrite H1, H4, H6).
  unfold flagged in *. by rewrite H5.
Qed.

(** Each of these steps brings the end nearer, so there are only so many of them. *)
Lemma steps_left l st st' :
  flagged st = true → steps l st = Some st' →
  flagged st' = true ∧ (length (List.filter ending l) + left st' ≤ left st)%nat.
Proof using Type.
  revert st. induction l as [|s l IH]; intros st Hf Hl; cbn in Hl; unbind; [split; [done|cbn; lia]|].
  match goal with E : step s st = Some ?st1 |- _ => destruct (step_left s st st1 Hf E) as [Hf1 Hl1]; destruct (IH st1 Hf1) as [? ?]; [done|] end.
  split; [done|]. cbn. destruct (ending s); cbn; lia.
Qed.

Lemma left_bound st : timely (thread st) → (left st ≤ SWEEP_ROUNDS + 7)%nat.
Proof using Type.
  intros [_ Ht]. unfold left, main_left. destruct (pc (thread st)); cbn [thread_left];
    repeat case_match; unfold SWEEP_ROUNDS in *; lia.
Qed.

(** The clock may run until the sweeper's alarm. *)
Lemma clock_runs st n :
  timely (thread st) → (∀ c, main_at st ≠ Gone c) → 0 ≤ n →
  match pc (thread st) with Waiting d => now (thread st) + n ≤ d | _ => n = 0 end →
  ∃ st1, step (Clock n) st = Some st1 ∧ main_at st1 = main_at st ∧ pc (thread st1) = pc (thread st) ∧
    now (thread st1) = now (thread st) + n ∧ data (thread st1) = data (thread st) ∧ stop (thread st1) = stop (thread st).
Proof using Type.
  intros [Hs _] Hm Hn Hp.
  assert (Hb : ∃ th, bg_step (Time n) (thread st) = Some th ∧ pc th = pc (thread st) ∧ now th = now (thread st) + n ∧
    data th = data (thread st) ∧ stop th = stop (thread st)).
  { destruct (thread st) as [p b g t a la sp]. cbn in *. rewrite (proj2 (Z.ltb_ge n 0)) by lia.
    destruct p; [subst n; rewrite (proj2 (Z.leb_le _ _)) by lia|rewrite (proj2 (Z.leb_le _ _)) by lia
      |subst n; rewrite (proj2 (Z.leb_le _ _)) by lia|subst n; rewrite (proj2 (Z.leb_le _ _)) by lia|];
      eexists; split; try reflexivity; done. }
  destruct Hb as (th & Hb & H1 & H2 & H3 & H4). exists (with_thread st th).
  assert (Ho : owners (with_thread st th) = owners st) by (unfold owners; cbn [thread main_at dash_at rewriters with_thread]; by rewrite H1).
  unfold step. at_step. rewrite Hb. cbn [mbind option_bind]. split; [|done].
  assert (settle_owners (owners st) (with_thread st th) = with_thread st th) as ->.
  { unfold settle_owners. rewrite Ho. by destruct (owners st). }
  destruct (main_at st) eqn:E; [done|done|]. by destruct (Hm code).
Qed.

Lemma step_enabled s st : (∀ c, main_at st ≠ Gone c) → is_Some (step1 s st) → is_Some (step s st).
Proof using Type. intros Hm [st1 Hs]. unfold step. destruct (main_at st) eqn:E; [| |by destruct (Hm code)]; rewrite Hs; by eexists. Qed.

(** There is always a next step of the end, at the latest when the sweeper's alarm goes. *)
Lemma end_enabled st :
  timely (thread st) → flagged st = true → (∀ c, main_at st ≠ Gone c) →
  ∃ wait s st1, 0 ≤ wait ≤ DEFAULT_INTERVAL ∧ step (Clock wait) st = Some st1 ∧ ending s = true ∧ is_Some (step s st1).
Proof using Type.
  intros Ht Hf Hm. unfold flagged in Hf.
  set (wait := match main_at st, pc (thread st) with Joining _, Waiting d => d - now (thread st) | _, _ => 0 end).
  assert (Hw : 0 ≤ wait ≤ DEFAULT_INTERVAL ∧ match pc (thread st) with Waiting d => now (thread st) + wait ≤ d | _ => wait = 0 end).
  { destruct Ht as [_ Ht]. unfold wait, DEFAULT_INTERVAL in *. destruct (main_at st), (pc (thread st)); lia. }
  destruct Hw as [Hw Hp]. destruct (clock_runs st wait Ht Hm ltac:(lia) Hp) as (st1 & Hc & H1 & H2 & H3 & H4 & H5).
  assert (Hm1 : ∀ c, main_at st1 ≠ Gone c) by (by rewrite H1).
  assert (Hend : ∃ s, ending s = true ∧ is_Some (step1 s st1)).
  { destruct (main_at st) as [|c|c] eqn:Em; [| |by destruct (Hm c)].
    - destruct (sv_accepting (sh_server (data (thread st1)))) eqn:Ea.
      + exists Poll. split; [done|]. at_step. unfold flagged. rewrite H1, H5, Hf, Ea. by eexists.
      + exists (Teardown (λ _, false)). split; [done|]. at_step. rewrite H1, Ea. cbn. destruct (pc (thread st1)); by eexists.
    - destruct (pc (thread st)) as [|d| |k|] eqn:Ep.
      5: { exists Join. split; [done|]. at_step. rewrite H1, H2. by eexists. }
      all: exists Sweeper; split; [done|]; at_step; cbn; unfold run; rewrite H2; try (by eexists).
      + rewrite H3, (proj2 (Z.leb_le _ _)) by (unfold wait; lia). by eexists.
      + destruct k; [by eexists|]. destruct (sweep_shared _ _). by eexists. }
  destruct Hend as (s & He & Hs). exists wait, s, st1. split_and!; try done; [lia|lia|]. by apply step_enabled.
Qed.

(** ** Exit codes *)

Definition code_ok (setup : res ()) (st : State) : Prop :=
  match main_at st with
  | Serving => setup = Ok tt
  | Joining c | Gone c => c = match setup with Ok _ => SUCCESS | Err _ => FAILURE end
  end.

Lemma launch_code setup sw d e t : code_ok setup (launch setup sw d e t).
Proof using Type. unfold code_ok, launch. destruct (settle_same 1 {| thread := spawned (if sw then Testing else Exited) {| sh_server := listening e; sh_answers := [] |} t;
    main_at := match setup with Ok _ => Serving | Err _ => Joining FAILURE end;
    dash_at := if d then Starting else Left; rewriters := []; stragglers := []; last_log := None |}) as (-> & _). by destruct setup as [[]|]. Qed.

Lemma step_code setup s st st' : code_ok setup st → step s st = Some st' → code_ok setup st'.
Proof using Type.
  intros Hc Hs. apply process_step_inv in Hs as (Hm & st1 & Hs & ->). unfold code_ok in *.
  destruct (settle_same (owners st) st1) as (-> & _).
  destruct s; at_step in Hs; unbind; rewrite ?spawn_main; cbn [main_at with_thread at_main at_dash at_rewriters at_stragglers];
    try done; match goal with E : main_at st = _ |- _ => rewrite ?E; by rewrite Hc end.
Qed.

Lemma steps_code setup l st st' : code_ok setup st → steps l st = Some st' → code_ok setup st'.
Proof using Type.
  revert st. induction l as [|s l IH]; intros st Hc Hl; cbn in Hl; unbind; [done|]. eapply IH; [|done]. by eapply step_code.
Qed.
(** ** The log at the end *)

Definition saved (st : State) : Prop := e_aof (engine st) = (λ w, (writer_drop w).2) <$> last_log st.

Lemma settle_owned n st : owners (settle_owners n st) = owners st.
Proof using Type. unfold owners. destruct (settle_same n st) as (-> & -> & -> & -> & -> & _). done. Qed.

Lemma settle_saved n st : (0 < n)%nat → owners st = 0%nat → saved (settle_owners n st).
Proof using Type.
  intros Hn Ho. unfold settle_owners, saved. rewrite Ho, (proj2 (Nat.ltb_lt 0 n) Hn). cbn [Nat.eqb andb].
  change (e_aof (close_log (engine st)) = (λ w, (writer_drop w).2) <$> e_aof (engine st)).
  unfold close_log. destruct (e_aof (engine st)) as [w|] eqn:E; [done|exact E].
Qed.

(** Once nobody owns it the engine is out of reach. *)
Lemma unowned st s st' :
  owners st = 0%nat → step s st = Some st' →
  engine st' = engine st ∧ last_log st' = last_log st ∧ owners st' = 0%nat.
Proof using Type.
  intros Ho Hs. apply process_step_inv in Hs as (Hm & st1 & Hs & ->).
  unfold settle_owners. rewrite Ho. cbn [Nat.ltb Nat.leb andb].
  assert (Hp : pc (thread st) = Exited ∧ dash_at st = Left ∧ rewriters st = [] ∧ stragglers st = [] ∧ main_at st ≠ Serving).
  { unfold owners in Ho. destruct (main_at st), (pc (thread st)), (dash_at st), (rewriters st), (stragglers st); cbn in Ho; try lia; done. }
  destruct Hp as (Hpc & Hd & Hr & Hst & Hne). destruct st as [[p b g n a la sp] m d r sl ll].
  cbn in Hpc, Hd, Hr, Hst, Hne. subst p d r sl.
  destruct s; cbn in Hs; unbind; try done; by destruct m.
Qed.

Lemma steps_saved l st st' :
  (owners st = 0%nat → saved st) → steps l st = Some st' → owners st' = 0%nat → saved st'.
Proof using Type.
  revert st. induction l as [|s l IH]; intros st Hst Hl; cbn in Hl; unbind; [done|]. eapply IH; [|done].
  match goal with E : step s st = Some ?st1 |- _ => rename E into Hs; rename st1 into st1 end.
  intros Ho1. destruct (decide (owners st = 0%nat)) as [Ho|Ho].
  - unfold saved. destruct (unowned _ _ _ Ho Hs) as (-> & -> & _). by apply Hst.
  - apply process_step_inv in Hs as (_ & st2 & _ & ->). rewrite settle_owned in Ho1. apply settle_saved; [lia|done].
Qed.

(** [main] returns after the sweeper. *)
Definition joined (st : State) : Prop := ∀ c, main_at st = Gone c → pc (thread st) = Exited.

Lemma step_joined s st st' : step s st = Some st' → joined st'.
Proof using Type.
  intros Hs c Hc. apply process_step_inv in Hs as (Hm & st1 & Hs & ->).
  destruct (settle_same (owners st) st1) as (H1 & _ & _ & _ & -> & _). rewrite H1 in Hc.
  destruct s; at_step in Hs; unbind; rewrite ?spawn_main in Hc;
    cbn [main_at with_thread at_main at_dash at_rewriters at_stragglers] in Hc; try (by destruct (Hm c)); try done; congruence.
Qed.

Lemma steps_joined l st st' : joined st → steps l st = Some st' → joined st'.
Proof using Type.
  revert st. induction l as [|s l IH]; intros st Hj Hl; cbn in Hl; unbind; [done|]. eapply IH; [|done]. by eapply step_joined.
Qed.

Lemma launch_joined setup sw d e t : joined (launch setup sw d e t).
Proof using Type. intros c Hc. pose proof (launch_code setup sw d e t) as Hk. unfold launch in *. unfold settle_owners in *.
  destruct (_ && _), setup; done. Qed.

Lemma gone_unowned setup sweeper dashboard e t l st c :
  steps l (launch setup sweeper dashboard e t) = Some st → main_at st = Gone c → dash_at st = Left → rewriters st = [] →
  stragglers st = [] → owners st = 0%nat ∧ saved st.
Proof using Type.
  intros Hl Hm Hd Hr Hg.
  assert (Hp : pc (thread st) = Exited) by (by eapply steps_joined; [apply launch_joined|exact Hl|exact Hm]).
  assert (Ho : owners st = 0%nat) by (unfold owners; by rewrite Hm, Hp, Hd, Hr, Hg). split; [done|].
  eapply steps_saved; [|exact Hl|exact Ho]. intros Ho1. unfold launch in *. rewrite settle_owned in Ho1.
  apply settle_saved; [lia|exact Ho1].
Qed.

Lemma launch_time setup sweeper dashboard e t : now (thread (launch setup sweeper dashboard e t)) = t.
Proof using Type. unfold launch, settle_owners. by destruct (_ && _). Qed.

(** ** A listener that cannot be set up *)

Definition hanging (st : State) : Prop := main_at st = Joining FAILURE ∧ pc (thread st) ≠ Exited ∧ flagged st = false.

Lemma bg_quiet m th th' :
  m ≠ Trigger → bg_step m th = Some th' → pc th ≠ Exited → stop th = false → pc th' ≠ Exited ∧ stop th' = false.
Proof using Type.
  intros Hm Hs Hp Hf. apply (never_unasked sweep_shared outside SWEEP_ROUNDS DEFAULT_INTERVAL slack th [m]); [done|done|by constructor|].
  cbn. by rewrite Hs.
Qed.

Lemma step_hanging s st st' : s ≠ Signal → hanging st → step s st = Some st' → hanging st'.
Proof using Type.
  intros Hne (Hm & Hp & Hf) Hs. apply process_step_inv in Hs as (_ & st1 & Hs & ->). unfold hanging, flagged in *.
  destruct (settle_same (owners st) st1) as (-> & _ & _ & _ & -> & -> & _).
  destruct s; at_step in Hs; unbind; rewrite ?spawn_main, ?spawn_thread;
    cbn [main_at thread with_thread at_main at_dash at_rewriters at_stragglers]; try done; try congruence.
  all: split; [done|]; eapply bg_quiet; [|eassumption|done..]; done.
Qed.

Lemma steps_hanging l st0 st :
  Forall (λ s, s ≠ Signal) l → hanging st0 → steps l st0 = Some st → hanging st.
Proof using Type.
  intros Hl. revert st0. induction Hl as [|s l Hne Hl IH]; intros st0 Hh Hs; cbn in Hs; unbind; [done|].
  eapply IH; [|done]. by eapply step_hanging.
Qed.

(** Nobody sets the flag, and the sweeper is joined all the same: as long as no signal
    comes the process does not end. *)
Lemma failed_listener_hangs x d e t l st :
  Forall (λ s, s ≠ Signal) l → steps l (launch (Err x) true d e t) = Some st → main_at st = Joining FAILURE.
Proof using Type.
  intros Hl Hs. assert (H1 : hanging (launch (Err x) true d e t)).
  { unfold launch, hanging, flagged. destruct (settle_same 1 {|
      thread := spawned Testing {| sh_server := listening e; sh_answers := [] |} t; main_at := Joining FAILURE;
      dash_at := if d then Starting else Left; rewriters := []; stragglers := []; last_log := None |}) as (-> & _ & _ & _ & -> & -> & _). done. }
  by apply (steps_hanging _ _ _ Hl H1 Hs).
Qed.

(** ** From the command line *)

(** What [main] comes to when it serves: the engine it built, under [run_listener]'s
    [setup], with a sweeper if the thread starts and a dashboard if one is configured. *)
Definition boot (host : Host) (setup : res ()) (started : Started) (t : Z) : option State :=
  match started with
  | Served e _ dashboard _ => Some (launch setup (h_sweeper host) (bool_decide (is_Some dashboard)) e t)
  | Exit _ => None
  end.

(** The code [main] is said to end with is the one the process ends with; where none is
    said, it ends only after a signal. *)
Lemma boot_exit_code host setup e sc d t st0 l st c :
  h_server host = match setup with Ok _ => true | Err _ => false end →
  boot host setup (Served e sc d (exit_code host)) t = Some st0 → steps l st0 = Some st → main_at st = Gone c →
  match exit_code host with Some k => c = k | None => Exists (λ s, s = Signal) l ∧ c = FAILURE end.
Proof using Type.
  intros Hh [= <-] Hl Hc.
  assert (Hok : code_ok setup st) by (eapply steps_code; [apply launch_code|exact Hl]).
  unfold code_ok in Hok. rewrite Hc in Hok. unfold exit_code. rewrite Hh. destruct setup as [[]|x]; [done|].
  destruct (h_sweeper host) eqn:Ew; [|done]. split; [|done].
  destruct (decide (Forall (λ s, s ≠ Signal) l)) as [Hn|Hn].
  - by rewrite (failed_listener_hangs _ _ _ _ _ _ Hn Hl) in Hc.
  - apply not_Forall_Exists in Hn; [|apply _]. eapply Exists_impl; [exact Hn|]. intros s Hs. by destruct (decide (s = Signal)).
Qed.
End process.

(** C24: the process ends after a signal. From every state a running process can be in when
    the flag is set, whatever the clients, the dashboard, the rewrite workers and the clock
    do, at most [SWEEP_ROUNDS + 7] more steps of the accept loop, of [main] and of the
    sweeper are made; as long as [main] has not returned one of them can be made, at once
    or when the sweeper's alarm goes, an interval later at most; and the exit code is
    success exactly when the listener could be set up. *)
Theorem shutdown_completes `{IndexMap} `{HashIter} max sample env slack html token dash_setup setup sweeper dashboard e t l st l' st' :
  0 ≤ slack →
  steps max sample env slack html token dash_setup l (launch setup sweeper dashboard e t) = Some st → flagged st = true →
  steps max sample env slack html token dash_setup l' st = Some st' →
  (length (List.filter ending l') ≤ SWEEP_ROUNDS + 7)%nat ∧
  (∀ c, main_at st' = Gone c → c = match setup with Ok _ => SUCCESS | Err _ => FAILURE end) ∧
  ((∀ c, main_at st' ≠ Gone c) →
   ∃ wait s st1, 0 ≤ wait ≤ DEFAULT_INTERVAL ∧ step max sample env slack html token dash_setup (Clock wait) st' = Some st1 ∧
     ending s = true ∧ is_Some (step max sample env slack html token dash_setup s st1)).
Proof.
  intros Hs Hl Hf Hl'.
  assert (Ht : Background.timely SWEEP_ROUNDS DEFAULT_INTERVAL slack (thread st)).
  { eapply steps_timely; [exact Hs| |exact Hl]. by apply (launch_timely sample env slack Hs). }
  assert (Ht' : Background.timely SWEEP_ROUNDS DEFAULT_INTERVAL slack (thread st')) by (by eapply steps_timely).
  destruct (steps_left _ _ _ _ _ _ _ _ _ _ Hf Hl') as [Hf' Hn]. pose proof (left_bound _ _ Ht) as Hb.
  split; [lia|]. split; [|intros Hm; by apply end_enabled].
  intros c Hc. assert (Hok : code_ok setup st').
  { eapply steps_code; [|exact Hl']. eapply steps_code; [|exact Hl]. apply launch_code. }
  unfold code_ok in Hok. by rewrite Hc in Hok.
Qed.

(** C25: a process that leaves nothing behind leaves a complete log. When [main] has
    returned and nothing was still running beside it - not the dashboard's thread, not a
    rewrite worker, not a client's command that [shutdown_timeout] gave up waiting for - the
    writer has been dropped, after the last command: on a working disk every record is in
    the file and on the disk, whatever the fsync policy. *)
Theorem exit_saves_log `{IndexMap} `{HashIter} max sample env slack html token dash_setup setup sweeper dashboard e t l st c w :
  steps max sample env slack html token dash_setup l (launch setup sweeper dashboard e t) = Some st →
  main_at st = Gone c → dash_at st = Left → rewriters st = [] → stragglers st = [] → e_aof (engine st) = Some w →
  ∃ w0, last_log st = Some w0 ∧ w = (writer_drop w0).2 ∧
    (w_disk w0 = [] → f_data (w_inner w) = stream (w_inner w0) ∧ f_durable (w_inner w) = length (f_data (w_inner w))).
Proof.
  intros Hl Hm Hd Hr Hg Hw. eapply gone_unowned in Hl as [_ Hs]; [|done..]. unfold saved in Hs. rewrite Hw in Hs. destruct (last_log st) as [w0|]; [|done]. injection Hs as ->.
  exists w0. split; [done|]. split; [done|]. intros Hdisk.
  destruct (writer_drop_healthy w0 Hdisk) as [-> ->]. done.
Qed.

(** ** Runs *)

Definition stopping : list Step := [Poll; Teardown (λ _, false); Sweeper; Join].
Definition run_process (dashboard : bool) (e : Engine) (l : list Step) : option State :=
  steps 0 DEFAULT_SAMPLE (λ _, env_at 5) 0 [] None (Ok tt) l (launch (Ok tt) true dashboard e 0).

(** An engine with a log that is empty, and with one that has unwritten bytes. *)
Definition logged_engine : Engine := set_aof (Some (open EverySec [] [])) (engine_new (clock_at 0)).
Definition buffered_engine : Engine :=
  set_aof (Some (write_bytes (str "abc") (open EverySec [] [])).2) (engine_new (clock_at 0)).

(** What a run comes to. *)
Definition outcome (st : State) : Main * Dash * bool * nat * nat :=
  (main_at st, dash_at st, flagged st, length (rewriters st), length (stragglers st)).
Definition log_of (st : State) : option AofWriter := e_aof (engine st).

Lemma shutdown_completes_witness :
  ∃ st st', run_process true logged_engine [Signal] = Some st ∧ flagged st = true ∧
    steps 0 DEFAULT_SAMPLE (λ _, env_at 5) 0 [] None (Ok tt) [Poll] st = Some st' ∧
    ∃ wait s st1, 0 ≤ wait ≤ DEFAULT_INTERVAL ∧
      step 0 DEFAULT_SAMPLE (λ _, env_at 5) 0 [] None (Ok tt) (Clock wait) st' = Some st1 ∧ ending s = true.
Proof.
  assert (Ho : outcome <$> run_process true logged_engine [Signal] = Some (Serving, Starting, true, 0%nat, 0%nat)) by (vm_compute; reflexivity).
  assert (Ho' : outcome <$> (run_process true logged_engine [Signal] ≫= steps 0 DEFAULT_SAMPLE (λ _, env_at 5) 0 [] None (Ok tt) [Poll])
    = Some (Serving, Starting, true, 0%nat, 0%nat)) by (vm_compute; reflexivity).
  destruct (run_process true logged_engine [Signal]) as [st|] eqn:E; [|discriminate]. cbn [mbind option_bind] in Ho'.
  destruct (steps 0 DEFAULT_SAMPLE (λ _, env_at 5) 0 [] None (Ok tt) [Poll] st) as [st'|] eqn:E'; [|discriminate].
  injection Ho as _ _ Hf _ _. injection Ho' as Hm _ _ _ _.
  destruct (shutdown_completes 0 DEFAULT_SAMPLE (λ _, env_at 5) 0 [] None (Ok tt) (Ok tt) true true logged_engine 0
    [Signal] st [Poll] st' ltac:(lia) E Hf E') as (_ & _ & Hnext).
  destruct Hnext as (wait & s & st1 & H1 & H2 & H3 & _); [intros c; rewrite Hm; discriminate|].
  exists st, st'. split; [reflexivity|]. split; [exact Hf|]. split; [exact E'|]. exists wait, s, st1.
  split; [exact H1|]. split; [exact H2|exact H3].
Defined.

(** Without a dashboard the buffered bytes are on the disk when the process is gone. *)
Lemma exit_saves_log_witness :
  ∃ st w w0, run_process false buffered_engine (Signal :: stopping) = Some st ∧ log_of st = Some w ∧ last_log st = Some w0 ∧
    f_data (w_inner w) = stream (w_inner w0) ∧ length (f_data (w_inner w)) = 3%nat.
Proof.
  assert (Ho : outcome <$> run_process false buffered_engine (Signal :: stopping) = Some (Gone SUCCESS, Left, true, 0%nat, 0%nat)) by (vm_compute; reflexivity).
  assert (Hl : (λ st, (λ w, length (f_data (w_inner w))) <$> log_of st) <$> run_process false buffered_engine (Signal :: stopping) = Some (Some 3%nat))
    by (vm_compute; reflexivity).
  assert (Hk : (λ st, w_disk <$> last_log st) <$> run_process false buffered_engine (Signal :: stopping) = Some (Some [])) by (vm_compute; reflexivity).
  destruct (run_process false buffered_engine (Signal :: stopping)) as [st|] eqn:E; [|discriminate].
  injection Ho as Hm Hd _ Hr Hg. apply nil_length_inv in Hr, Hg. injection Hl as Hl. injection Hk as Hk.
  destruct (log_of st) as [w|] eqn:Ew; [|discriminate].
  destruct (exit_saves_log 0 DEFAULT_SAMPLE (λ _, env_at 5) 0 [] None (Ok tt) (Ok tt) true false buffered_engine 0
    (Signal :: stopping) st SUCCESS w E Hm Hd Hr Hg Ew) as (w0 & H1 & _ & H3).
  rewrite H1 in Hk. injection Hk as Hk. injection Hl as Hl.
  exists st, w, w0. split; [reflexivity|]. split; [exact Ew|]. split; [exact H1|]. split; [exact (proj1 (H3 Hk))|exact Hl].
Defined.

(** A client writes a key under [appendfsync everysec], then the process is told to stop. *)
Definition one_write : list Step :=
  [Client (Accept (Some (str "c")) []); Client (Deliver 0 (RBytes (encode_command [str "SET"; str "k"; str "v"])));
   Client (Round 0 (cmd_env_at 5)); Signal].

(** With the dashboard, which is on by default and which nobody joins, the process can be
    gone while its thread still holds the engine: the writer is never dropped, and the
    acknowledged record is not in the file although the process was stopped in order. *)
Example dashboard_outlives_log :
  (st ← run_process true logged_engine (one_write ++ stopping);
   w ← log_of st;
   Some (main_at st, f_data (w_inner w), length (f_buf (w_inner w)))) = Some (Gone SUCCESS, [], 27%nat).
Proof. vm_compute. reflexivity. Qed.

(** The same run without it: the record is in the file. *)
Example no_dashboard_saves_log :
  (st ← run_process false logged_engine (one_write ++ stopping);
   w ← log_of st;
   Some (main_at st, length (f_data (w_inner w)), f_buf (w_inner w))) = Some (Gone SUCCESS, 27%nat, []).
Proof. vm_compute. reflexivity. Qed.

(** Two commands wait in the socket's buffer when the process is told to stop; the first has
    run, the second is stuck when the timeout is over. *)
Definition set_command (k : bytes) : bytes := encode_command [str "SET"; k; str "v"].
Definition stuck_run : list Step :=
  [Client (Accept (Some (str "c")) []); Client (Deliver 0 (RBytes (set_command (str "k") ++ set_command (str "l"))));
   Client (Round 0 (cmd_env_at 5)); Signal; Poll; Teardown (λ _, true)].

(** If it does not come back in time, the process is gone with its handle, and the record
    of the command before it is lost with the writer's buffer, dashboard or no dashboard. *)
Example stuck_command_outlives_log :
  (st ← run_process false logged_engine (stuck_run ++ [Straggle 0 (cmd_env_at 5); Sweeper; Join]);
   w ← log_of st;
   Some (main_at st, stragglers st, f_data (w_inner w), length (f_buf (w_inner w)))) = Some (Gone SUCCESS, [0%nat], [], 54%nat).
Proof. vm_compute. reflexivity. Qed.

(** If it does, both are in the file. *)
Example late_command_saved :
  (st ← run_process false logged_engine (stuck_run ++ [Straggle 0 (cmd_env_at 5); Fade 0; Sweeper; Join]);
   w ← log_of st;
   Some (main_at st, stragglers st, length (f_data (w_inner w)), f_buf (w_inner w))) = Some (Gone SUCCESS, [], 54%nat, []).
Proof. vm_compute. reflexivity. Qed.
