(* ===== verification/EndToEnd.v ===== *)
(** * From the socket to the log

    The log stays in step with the store through every layer: the arms of
    [execute_command], the frames of a connection, the handlers of the dashboard, the
    actions of the accept loop, the rounds of the sweeper and the halves of the rewrite
    workers, in any order in which a process takes them. So the store that a process
    leaves behind is the one the next process starts with, whatever clients sent over
    their sockets. *)
From S2P Require Import Prelude Numeric Text Error Floats Encoder Command Parser IndexMap Eviction Entry Sieve AdaptiveClimb Aof ConfigFile Cli Engine WriteGuard Commands EngineInv Replay Startup Server Connection Listener Spec Refinement LogState Durability Restart Web Dashboard Background Process.
From Stdlib Require Import ZArith Lia Strings.Byte.
From stdpp Require Import gmap strings numbers list.
Local Open Scope Z_scope.

(** ** Deadlines a command asks for *)

Definition cmd_deadline (ce : CmdEnv) (cmd : Command) : option Z :=
  let from delta := sat_add_i64 (current_epoch_ms (ce_expire ce)) delta in
  match cmd with
  | CExpire _ secs => Some (match checked_seconds_to_ms secs with Some d => from d | None => current_epoch_ms (ce_expire ce) end)
  | CPExpire _ ms => Some (from ms)
  | CPExpireAt _ ms => Some ms
  | _ => None
  end.

Lemma sat_add_in_i64 a b : in_i64 (sat_add_i64 a b) = true.
Proof. unfold in_i64, sat_add_i64, i64_min, i64_max. apply andb_true_intro. split; apply Z.leb_le; lia. Qed.

Lemma epoch_in_i64 c : in_i64 (current_epoch_ms c) = true.
Proof.
  unfold current_epoch_ms. destruct (_ <? _); [done|]. unfold as_i64, wrap64, in_i64, i64_min, i64_max.
  pose proof (Z.mod_pos_bound (unix_ns c / 1000000) 18446744073709551616 ltac:(lia)).
  destruct (Z.leb_spec ((unix_ns c / 1000000) mod 18446744073709551616) 9223372036854775807);
    apply andb_true_intro; split; apply Z.leb_le; lia.
Qed.

Section layers.
Context `{IndexMap} `{HashIter} (off T : Z) (base : option (list LogRecord)) (c : Entry.Clock) (Hc : steady off c).

Abbreviation mirrored := (Durability.holds T base (inst c) (mirrors off T (inst c))).
Abbreviation keeps := (preserves (E := FerrumError) mirrored).

(** A deadline that has passed, or that is past the horizon. *)
Definition ahead (d : option Z) : Prop :=
  match d with Some abs => abs ≤ current_epoch_ms c ∨ T + 2 ≤ abs | None => True end.

(** A new rewrite only when no worker has a snapshot in hand, or when its slot is taken. *)
Definition claims_well (e : Engine) : Prop := base = None ∨ Durability.slot_taken e = true.

(** ** [execute_command] *)

Definition arm_keeps (a : Arm) : Prop := match a with Next s | Return s => mirrored s.1 | Panic => True end.

Lemma call_at {A} (m : SE Engine FerrumError A) render s : mirrored (m s.1).2 → mirrored (call m render s).1.
Proof using Type. destruct s as [e out]. unfold call. cbn [fst]. by destruct (m e) as [r e']. Qed.
Lemma call_keeps {A} (m : SE Engine FerrumError A) render s : keeps m → mirrored s.1 → mirrored (call m render s).1.
Proof using Type. intros Hm He. apply call_at. by apply Hm. Qed.

(** The calls that [Op] names. *)
Lemma op_keeps {A} (m : SE Engine FerrumError A) op :
  plain_op op → op_ahead T c op → run_op (env_of c) op = discard m → keeps m.
Proof using H H0 Hc.
  intros Hp Ho Hm e He. pose proof (logs_run_op off T base c Hc op Hp Ho e He) as Hk. rewrite Hm in Hk.
  unfold discard, mbind, se_bind in Hk. by destruct (m e) as [[a|x] e'].
Qed.
Lemma call_op {A} (m : SE Engine FerrumError A) op render s :
  plain_op op → op_ahead T c op → run_op (env_of c) op = discard m → mirrored s.1 → mirrored (call m render s).1.
Proof using H H0 Hc. intros Hp Ho Hm. apply call_keeps. by eapply op_keeps. Qed.

Lemma frame_keeps (f : Engine → Engine) e :
  e_aof (f e) = e_aof e → e_store (f e) = e_store e → mirrored e → mirrored (f e).
Proof using Type. intros Ha Hs. by apply holds_frame. Qed.

Lemma say_keeps f s : mirrored s.1 → mirrored (say f s).1.
Proof using Type. by destruct s. Qed.
#[local] Hint Resolve say_keeps : core.

Lemma config_set_keeps p x s : mirrored s.1 → mirrored (config_set p x s).1.
Proof using H H0 Hc.
  intros He. unfold config_set, fail, ok. destruct (negb _); [auto|]. destruct (negb _); [auto|].
  destruct (bytes_eqb _ _); [apply call_keeps; [|done]; by apply logs_frame|].
  destruct (config_set_eviction _ _ _) as [[cfg|]|]; [|auto|].
  - apply call_keeps; [apply logs_set_eviction_config|done].
  - destruct (bytes_eqb _ _).
    + destruct (parse_i64 _); [|auto]. apply say_keeps. by apply (frame_keeps (set_slowlog_slower_than_us _)).
    + destruct (bytes_eqb _ _); [|auto]. destruct (parse_u64 _); [|auto]. destruct (0 <? _); [|auto].
      apply say_keeps. by apply (frame_keeps (set_slowlog_max_len _)).
Qed.

Lemma config_arm_keeps sub args v s : mirrored s.1 → arm_keeps (config_arm sub args v s).
Proof using H H0 Hc.
  intros He. unfold config_arm. destruct (eq_ignore_ascii_case _ _); [destruct args; [done|]; by apply say_keeps|].
  destruct (eq_ignore_ascii_case _ _); [|by apply say_keeps]. destruct args as [|p [|x l]]; [done..|]. by apply config_set_keeps.
Qed.

Lemma slowlog_arm_keeps sub args s : mirrored s.1 → arm_keeps (slowlog_arm sub args s).
Proof using Type.
  intros He. unfold slowlog_arm, fail. destruct (eq_ignore_ascii_case sub (str "GET")).
  - destruct args as [|a l]; [by apply say_keeps|]. destruct (if utf8_valid a then _ else _); by apply say_keeps.
  - destruct (eq_ignore_ascii_case sub (str "LEN")); [by apply say_keeps|].
    destruct (eq_ignore_ascii_case sub (str "RESET")); [|by apply say_keeps]. apply call_keeps; [by apply logs_frame|done].
Qed.

Lemma expire_keeps ce k abs render s :
  ce_env ce = env_of c → in_i64 abs = true → ahead (Some abs) → mirrored s.1 →
  mirrored (call (expire_at_ms (ce_env ce) k abs) render s).1.
Proof using H H0 Hc. intros -> Hi Ha. by apply (call_op _ (OExpireAt k abs)). Qed.

Lemma dispatch_keeps ce v cmd s :
  ce_env ce = env_of c → wf_command cmd → ahead (cmd_deadline ce cmd) → claims_well s.1 →
  mirrored s.1 → arm_keeps (dispatch ce v cmd s).
Proof using H H0 Hc.
  intros He Hwf Ha Hr Hs.
  destruct cmd; cbn [dispatch arm_keeps]; unfold fail; try (by apply say_keeps); rewrite ?He.
  - by apply (call_op _ (OSet key value)).
  - by apply (call_op _ (OSetNx key value)).
  - apply call_keeps; [|done]. by apply (logs_run_op off T base c Hc (OMSet pairs)).
  - by apply (call_op _ (OMGet keys)).
  - by apply (call_op _ (OIncrBy key delta)).
  - by apply (call_op _ (OIncrByFloat key delta)).
  - by apply (call_op _ (OGet key)).
  - by apply (call_op _ (ODel keys)).
  - by apply (call_op _ (OExists keys)).
  - by destruct msg; apply say_keeps.
  - by apply (call_op _ (OAppend key value)).
  - by apply (call_op _ (OStrLen key)).
  - by apply (call_op _ ODbSize).
  - apply call_keeps; [|done]. by apply (logs_run_op off T base c Hc OFlushDb).
  - unfold expire_reply. apply expire_keeps; [done| |exact Ha|done]. destruct (checked_seconds_to_ms _); [apply sat_add_in_i64|].
    apply epoch_in_i64.
  - apply expire_keeps; [done|apply sat_add_in_i64|exact Ha|done].
  - rewrite <- He. by apply expire_keeps.
  - by apply (call_op _ (OPersist key)).
  - by apply (call_op _ (OTtl key)).
  - by apply (call_op _ (OTtl key)).
  - by apply (call_op _ (OMemoryUsage key)).
  - by apply config_arm_keeps.
  - by apply slowlog_arm_keeps.
  - apply call_at. by apply logs_rewrite_aof.
Qed.


Lemma before_keeps ce cmd client e : mirrored e → mirrored (before_dispatch ce cmd client e).
Proof using Type. unfold before_dispatch. case_match; apply holds_frame; done. Qed.

Lemma after_keeps ce cmd client armed e : mirrored e → mirrored (after_dispatch ce cmd client armed e).
Proof using Type.
  unfold after_dispatch, maybe_push_slowlog, modify. cbn [snd]. intros He. destruct (_ && _); [|done]. cbv beta zeta.
  repeat case_match; try done; by eapply holds_frame; [| |exact He].
Qed.

Lemma execute_keeps ce cmd client v s s' :
  ce_env ce = env_of c → wf_command cmd → ahead (cmd_deadline ce cmd) → claims_well s.1 →
  mirrored s.1 → execute_command ce cmd client v s = Some s' → mirrored s'.1.
Proof using H H0 Hc.
  intros He Hwf Ha Hr Hs. unfold execute_command.
  pose proof (dispatch_keeps ce v cmd (before_dispatch ce cmd client s.1, s.2) He Hwf Ha) as Hd.
  assert (Hr' : claims_well (before_dispatch ce cmd client s.1)).
  { unfold before_dispatch. by destruct (_ && _). }
  destruct (dispatch _ _ _ _) as [[e out]|s1|]; [| |done]; intros [= <-]; cbn [fst].
  - apply after_keeps, Hd; [exact Hr'|by apply before_keeps].
  - apply Hd; [exact Hr'|by apply before_keeps].
Qed.

(** ** Connections *)

Lemma flush_engine cn : cn_engine (flush cn).1 = cn_engine cn.
Proof using Type. unfold flush, write_out. by destruct (cn_writes cn) as [|[m|] ws]. Qed.
Lemma write_out_engine cn : cn_engine (write_out cn).2 = cn_engine cn.
Proof using Type. unfold write_out. by destruct (cn_writes cn) as [|[m|] ws]. Qed.
Lemma after_frame_engine n cn : cn_engine (after_frame n cn).1 = cn_engine cn.
Proof using Type. unfold after_frame. destruct (_ <=? _); [by rewrite flush_engine|done]. Qed.
Lemma settle_engine r : cn_engine (settle r).1 = cn_engine r.1.
Proof using Type.
  unfold settle. destruct r as [cn []]; try done. destruct (cn_outbuf cn) as [|b l].
  - destruct (_ <? _); cbn [fst]; [by rewrite write_out_engine|done].
  - pose proof (flush_engine cn) as Hf. destruct (flush cn) as [cn1 []]; try done. cbn [fst] in *.
    destruct (_ <? _); cbn [fst]; [by rewrite write_out_engine|done].
Qed.

(** What the next frame in a buffer asks for. *)
Definition frame_ahead (ce : CmdEnv) (buf : bytes) : Prop :=
  match parse_frame buf with Ok (Complete cmd _) => ahead (cmd_deadline ce cmd) | _ => True end.

Lemma run_command_keeps ce peer cmd cn :
  ce_env ce = env_of c → wf_command cmd → ahead (cmd_deadline ce cmd) → claims_well (cn_engine cn) →
  mirrored (cn_engine cn) → mirrored (cn_engine (run_command ce peer cmd cn).1).
Proof using H H0 Hc.
  intros He Hwf Ha Hr Hs. unfold run_command. destruct (_ && _); [done|].
  destruct (aof_barrier_blocks _).
  - destruct (execute_command ce cmd (Some peer) (cn_version cn) (cn_engine cn, [])) as [[e' r]|] eqn:E; [|done].
    by apply (execute_keeps _ _ _ _ (cn_engine cn, []) _ He Hwf Ha Hr Hs E).
  - destruct (execute_command ce cmd (Some peer) (cn_version cn) (cn_engine cn, cn_outbuf cn)) as [[e' r]|] eqn:E; [|done].
    by apply (execute_keeps _ _ _ _ (cn_engine cn, cn_outbuf cn) _ He Hwf Ha Hr Hs E).
Qed.

Lemma on_command_keeps ce peer cmd cn :
  ce_env ce = env_of c → wf_command cmd → ahead (cmd_deadline ce cmd) → claims_well (cn_engine cn) →
  mirrored (cn_engine cn) → mirrored (cn_engine (on_command ce peer cmd cn).1).
Proof using H H0 Hc.
  intros He Hwf Ha Hr Hs. destruct cmd; try (by apply run_command_keeps); unfold on_command.
  - by destruct (auth_reply _ _ _).
  - set (cn1 := set_outbuf _ cn). pose proof (write_out_engine cn1) as Hw.
    destruct (write_out cn1) as [[u|m] cn2]; cbn [fst snd] in *; [|by rewrite Hw].
    cbn. by apply holds_frame with (cn_engine cn).
  - done.
Qed.

Lemma round_keeps ce t :
  ce_env ce = env_of c → frame_ahead ce (cn_inbuf (tk_conn t)) → claims_well (cn_engine (tk_conn t)) →
  mirrored (cn_engine (tk_conn t)) → mirrored (cn_engine (tk_conn (Listener.round ce t))).
Proof using H H0 Hc.
  intros He Hf Hr Hs. unfold Listener.round, frame_ahead in *. set (cn := tk_conn t) in *. cbn [drain].
  destruct (parse_frame (cn_inbuf cn)) as [[cmd n|x n|]|x] eqn:Ep; cbn [tk_conn fst].
  - pose proof (parse_frame_wf _ _ _ Ep) as Hwf.
    pose proof (on_command_keeps ce (tk_peer t) cmd cn He Hwf Hf Hr Hs) as Hk.
    destruct (on_command ce (tk_peer t) cmd cn) as [cn1 []]; try exact Hk. cbn [fst] in Hk.
    pose proof (after_frame_engine n cn1) as Hfr. destruct (after_frame n cn1) as [cn2 []]; cbn [fst] in *; by rewrite Hfr.
  - set (cn1 := ran _ _ cn). pose proof (after_frame_engine n cn1) as Hfr.
    destruct (after_frame n cn1) as [cn2 []]; cbn [fst] in *; by rewrite Hfr.
  - by rewrite settle_engine.
  - by rewrite write_out_engine.
Qed.

(** ** The accept loop *)

(** What an action of the server may ask for: only a round runs a command. *)
Definition action_ahead (a : Action) (s : ServerState) : Prop :=
  match a with
  | Listener.Round i ce =>
      ce_env ce = env_of c ∧
      match sv_tasks s !! i with Some t => frame_ahead ce (cn_inbuf (tk_conn t)) | None => True end
  | _ => True
  end.

Lemma act_keeps max a s :
  of_server a = true → action_ahead a s → claims_well (sv_engine s) → mirrored (sv_engine s) → mirrored (sv_engine (act max s a)).
Proof using H H0 Hc.
  intros Ho Ha Hr Hs. destruct a; cbn [act]; try done.
  - unfold accept. by repeat case_match.
  - apply on_task_cases; [done|]. intros t _ _. cbn [moved sv_engine]. unfold deliver. cbn [tk_conn].
    destruct (sv_triggered s); [done|]. by case_match.
  - destruct Ha as [He Hf]. apply on_task_cases; [done|]. intros t Ht _. rewrite Ht in Hf. cbn [moved sv_engine]. by apply round_keeps.
  - by apply on_task_cases.
Qed.

(** ** The dashboard *)

(** The clocks of a request. *)
Definition request_on_time (de : DashEnv) : Prop := (∀ i, de_env de i = env_of c) ∧ ce_env (de_cmd de) = env_of c.

(** The deadline in a form, and the command in one. *)
Definition form_deadline (de : DashEnv) (body : bytes) : option Z :=
  ttl_str ← body_form body !! str "ttl"; ttl ← parse_i64 ttl_str;
  if 0 <? ttl then Some (sat_add_i64 (de_now_ms de) (sat_mul_i64 ttl 1000)) else None.
Definition form_ahead (de : DashEnv) (body : bytes) : Prop :=
  ahead (form_deadline de body) ∧
  (∀ command argv, body_form body !! str "command" = Some command → tokenize_command command = Some argv →
     frame_ahead (de_cmd de) (encode_resp_array argv)).

Lemma step_of {A} (m : SE Engine FerrumError A) e r e' : keeps m → m e = (r, e') → mirrored e → mirrored e'.
Proof using Type. intros Hm E He. specialize (Hm e He). by rewrite E in Hm. Qed.

Section requests.
Context (html : bytes) (de : DashEnv) (Hde : request_on_time de).

Lemma get_keeps i k : keeps (get (de_env de i) k).
Proof using H H0 Hc Hde. destruct Hde as [-> _]. by apply (op_keeps _ (OGet k)). Qed.
Lemma ttl_keeps i k : keeps (ttl_ms (de_env de i) k).
Proof using H H0 Hc Hde. destruct Hde as [-> _]. by apply (op_keeps _ (OTtl k)). Qed.
Lemma set_keeps i k v : keeps (set (de_env de i) k v).
Proof using H H0 Hc Hde. destruct Hde as [-> _]. by apply (op_keeps _ (OSet k v)). Qed.
Lemma del_keeps i k : keeps (del (de_env de i) k).
Proof using H H0 Hc Hde. destruct Hde as [-> _]. by apply logs_del. Qed.

Lemma or_default_keeps {A} (d : A) (m : SE Engine FerrumError A) e : keeps m → mirrored e → mirrored (or_default d m e).2.
Proof using Type. intros Hm He. unfold or_default. specialize (Hm e He). by destruct (m e). Qed.

Lemma key_items_keeps keys i e : mirrored e → mirrored (key_items de i keys e).2.
Proof using H H0 Hc Hde.
  revert i e. induction keys as [|k keys IH]; intros i e He; cbn [key_items]; [done|].
  destruct (ttl_ms (de_env de i) k e) as [r e1] eqn:E. specialize (IH (S i) e1 (step_of _ _ _ _ (ttl_keeps i k) E He)).
  by destruct (key_items de (S i) keys e1).
Qed.

Lemma apply_ttl_keeps key ttl_str e :
  ahead (ttl ← parse_i64 ttl_str; if 0 <? ttl then Some (sat_add_i64 (de_now_ms de) (sat_mul_i64 ttl 1000)) else None) →
  mirrored e → mirrored (apply_ttl de key ttl_str e).
Proof using H H0 Hc Hde.
  intros Ha He. unfold apply_ttl. destruct Hde as [Hd _]. rewrite !Hd. destruct (parse_i64 ttl_str) as [ttl|]; [|done].
  cbn [mbind option_bind] in Ha. destruct (0 <? ttl).
  - apply (op_keeps _ (OExpireAt key (sat_add_i64 (de_now_ms de) (sat_mul_i64 ttl 1000)))); try done. split; [apply sat_add_in_i64|done].
  - destruct (ttl =? 0); [|done]. by apply (op_keeps _ (OPersist key)).
Qed.

Lemma put_keeps key value body e (bad : FerrumError → Response) (yes : Response) :
  ahead (form_deadline de body) → mirrored e →
  mirrored (match set (de_env de 0) key value e with
    | (Err x, e) => (bad x, e)
    | (Ok _, e) => (yes, match body_form body !! str "ttl" with Some ttl_str => apply_ttl de key ttl_str e | None => e end)
    end).2.
Proof using H H0 Hc Hde.
  intros Ha He. destruct (set (de_env de 0) key value e) as [[u|x] e1] eqn:E; pose proof (step_of _ _ _ _ (set_keeps 0 key value) E He) as H1; [|done].
  cbn [snd]. unfold form_deadline in Ha. destruct (body_form body !! str "ttl") as [ttl_str|]; [|done]. by apply apply_ttl_keeps.
Qed.

Lemma console_keeps body e r : form_ahead de body → claims_well e → mirrored e → run_console de body e = Some r → mirrored r.2.
Proof using H H0 Hc Hde.
  intros [_ Hf] Hr He. unfold run_console. destruct (body_form body !! str "command") as [command|]; [|by intros [= <-]].
  destruct (tokenize_command command) as [argv|] eqn:Ea; [|by intros [= <-]].
  specialize (Hf command argv eq_refl Ea). unfold frame_ahead in Hf. destruct argv as [|a argv]; [by intros [= <-]|].
  destruct (parse_frame _) as [[cmd n|x n|]|x] eqn:Ep; try (by intros [= <-]).
  destruct (execute_command _ _ _ _ _) as [[e1 out]|] eqn:Ex; [|done]. intros [= <-].
  by apply (execute_keeps _ _ _ _ (e, []) (e1, out) (proj2 Hde) (parse_frame_wf _ _ _ Ep) Hf Hr He Ex).
Qed.

Lemma reads_keep query key e : mirrored e → mirrored (info_json de e).2 ∧ mirrored (keys_json de query e).2 ∧ mirrored (key_detail de key e).2.
Proof using H H0 Hc Hde.
  intros He. pose proof (proj1 Hde) as Hd. split_and!.
  - unfold info_json. rewrite !Hd. pose proof (or_default_keeps 0 (dbsize (env_of c)) e (preserves_gets _ _) He) as H1.
    destruct (or_default 0 (dbsize (env_of c)) e) as [total e1]. cbn [snd] in H1.
    pose proof (or_default_keeps (0, 0) (expire_stats (env_of c)) e1 (preserves_gets _ _) H1) as H2.
    by destruct (or_default (0, 0) (expire_stats (env_of c)) e1) as [[n avg] e2].
  - unfold keys_json. rewrite Hd.
    set (filter := default _ _). set (limit := default _ _). set (offset := default _ _).
    pose proof (or_default_keeps [] (scan_keys (env_of c) filter) e (preserves_gets _ _) He) as H1.
    destruct (or_default [] (scan_keys (env_of c) filter) e) as [all e1]. cbn [snd] in H1. cbv zeta.
    set (page := take _ _). pose proof (key_items_keeps page 1 e1 H1) as H2. by destruct (key_items de 1 page e1).
  - unfold key_detail. destruct (get (de_env de 0) key e) as [[[v|]|x] e1] eqn:E; pose proof (step_of _ _ _ _ (get_keeps 0 key) E He) as H1; try done.
    destruct (ttl_ms (de_env de 1) key e1) as [t e2] eqn:E2. by pose proof (step_of _ _ _ _ (ttl_keeps 1 key) E2 H1).
Qed.

Lemma writes_keep key body e :
  ahead (form_deadline de body) → mirrored e →
  mirrored (create_key de body e).2 ∧ mirrored (update_key de key body e).2 ∧ mirrored (delete_key de key e).2.
Proof using H H0 Hc Hde.
  intros Ha He. split_and!.
  - unfold create_key. destruct (form_bytes _ (str "key")) as [[|b k]|]; [done| |done]. by apply put_keeps.
  - unfold update_key. destruct (form_bytes _ (str "value")) as [v|]; [|done]. by apply put_keeps.
  - unfold delete_key. destruct (del (de_env de 0) key e) as [[[]|x] e1] eqn:E; by pose proof (step_of _ _ _ _ (del_keeps 0 key) E He).
Qed.

Lemma route_keeps req e r : form_ahead de (rq_body req) → claims_well e → mirrored e → route html de req e = Some r → mirrored r.2.
Proof using H H0 Hc Hde.
  intros Hf Hr He. pose proof (proj1 Hf) as Ha. unfold route. cbv zeta.
  destruct (bytes_eqb (rq_path req) (str "/")); [destruct (bytes_eqb _ _); by intros [= <-]|].
  destruct (bytes_eqb (rq_path req) (str "/api/info")).
  { destruct (bytes_eqb _ _); [|by intros [= <-]]. pose proof (proj1 (reads_keep [] [] e He)) as H1.
    destruct (info_json de e). by intros [= <-]. }
  destruct (bytes_eqb (rq_path req) (str "/api/keys")).
  { destruct (bytes_eqb _ (str "GET")).
    - pose proof (proj1 (proj2 (reads_keep (rq_query req) [] e He))) as H1. destruct (keys_json de (rq_query req) e). by intros [= <-].
    - destruct (bytes_eqb _ (str "POST")); intros [= <-]; [|done]. by apply (writes_keep [] (rq_body req) e). }
  destruct (bytes_eqb (rq_path req) (str "/api/command")); [destruct (bytes_eqb _ _); [by apply console_keeps|by intros [= <-]]|].
  destruct (str_strip_prefix _ _) as [raw|]; [|by intros [= <-]].
  destruct (bytes_eqb _ (str "GET")); [intros [= <-]; by apply (reads_keep [])|].
  destruct (bytes_eqb _ (str "DELETE")); [intros [= <-]; by apply (writes_keep _ (rq_body req))|].
  destruct (_ || _); intros [= <-]; [by apply writes_keep|done].
Qed.

(** What a connection to the dashboard asks for. *)
Definition request_ahead (flag : nat → bool) (reads : list Read) : Prop :=
  ∀ buf req, receive flag reads = inr buf → parse_request buf = Some req → form_ahead de (rq_body req).

Lemma handle_conn_keeps flag token reads e :
  request_ahead flag reads → claims_well e → mirrored e → mirrored (handle_conn html de flag token reads e).2.
Proof using H H0 Hc Hde.
  intros Ha Hr He. unfold handle_conn. destruct (receive flag reads) as [x|buf] eqn:Er; [done|].
  destruct (parse_request buf) as [req|] eqn:Ep; [|done]. destruct (authorize req token); [done|].
  destruct (route html de req e) as [[resp e1]|] eqn:E; [|done].
  by apply (route_keeps req e (resp, e1) (Ha buf req Er Ep) Hr He).
Qed.
End requests.
End layers.

(** ** The process *)

Section process.
Context `{IndexMap} `{HashIter} (off T max sample slack : Z) (html : bytes) (token : option bytes) (dash_setup : res ()).

(** The two clocks at an instant, in step. *)
Definition clock_of (t : Z) : Entry.Clock := {| inst := t; unix_ns := t + off |}.

Abbreviation bg_step := (Background.step (sweep_shared sample (λ t, env_of (clock_of t))) outside SWEEP_ROUNDS DEFAULT_INTERVAL slack).
Abbreviation step1 := (Process.step1 max sample (λ t, env_of (clock_of t)) slack html token dash_setup).
Abbreviation step := (Process.step max sample (λ t, env_of (clock_of t)) slack html token dash_setup).
Abbreviation steps := (Process.steps max sample (λ t, env_of (clock_of t)) slack html token dash_setup).
Abbreviation time st := (now (thread st)).

(** The snapshot of the worker, when there is at most one. *)
Definition snapshot (l : list (option (list (bytes * bytes * option Z)))) : option (option (list (bytes * bytes * option Z))) :=
  match l with [] | [None] => Some None | [Some snap] => Some (Some snap) | _ => None end.

(** The slot is taken as long as a worker runs: no rewrite was aborted under it. *)
Definition attached (st : Process.State) : Prop := rewriters st = [] ∨ Process.slot_taken st = true.

(** What a step asks for: every call reads the clocks of its instant, and no deadline
    between that instant and the horizon is asked for. *)
Definition step_ahead (s : Step) (st : Process.State) : Prop :=
  let c := clock_of (time st) in
  match s with
  | Client a => action_ahead T c a (sh_server (data (thread st)))
  | Straggle i ce => action_ahead T c (Listener.Round i ce) (sh_server (data (thread st)))
  | DashRequest de flag reads => request_on_time c de ∧ request_ahead T c de flag reads
  | Rewriter _ c' _ => c' = c
  | _ => True
  end.

Fixpoint run_ahead (l : list Step) (st : Process.State) : Prop :=
  match l with
  | [] => True
  | s :: l => attached st ∧ step_ahead s st ∧ match step s st with Some st' => run_ahead l st' | None => True end
  end.

Definition running (st : Process.State) : Prop :=
  ∃ worker, snapshot (rewriters st) = Some worker ∧ in_step off T (time st) (engine st, worker).

Lemma in_step_later (t t' : Z) (b : Busy) : t ≤ t' → in_step off T t b → in_step off T t' b.
Proof using Type. intros Ht [He Hs]. split; [by eapply holds_later|done]. Qed.

Lemma running_same st st' :
  engine st' = engine st → rewriters st' = rewriters st → time st ≤ time st' → running st → running st'.
Proof using Type. intros He Hr Ht (worker & Hw & Hs). exists worker. rewrite He, Hr. split; [done|]. by eapply in_step_later. Qed.

Lemma bg_quiet_data m th th' :
  m ≠ Run → (∀ f, m ≠ Outside f) → bg_step m th = Some th' → data th' = data th ∧ now th ≤ now th'.
Proof using Type.
  intros Hr Ho. destruct th as [p b g t a la sp]. destruct m; try done; cbn.
  - destruct (Z.ltb_spec n 0); [done|]. destruct p; try (destruct (_ <=? _); [|done]); intros [= <-]; cbn; split; (lia || done).
  - destruct p; try done. intros [= <-]. cbn. split; (lia || done).
  - intros [= <-]. cbn. split; (lia || done).
  - destruct p; intros [= <-]; cbn; split; (lia || done).
  - by destruct (Ho op).
Qed.

(** A round of the sweeper, or a move between rounds. *)
Lemma bg_run_data th th' :
  bg_step Run th = Some th' →
  now th' = now th ∧ (data th' = data th ∨ data th' = (sweep_shared sample (λ t, env_of (clock_of t)) (now th) (data th)).1).
Proof using Type.
  destruct th as [p b g t a la sp]. cbn. unfold Background.run. cbn. destruct p as [|d| |[|k]|]; cbn; try done.
  1,3,4: intros [= <-]; cbn; auto.
  - destruct (d <=? t); [|done]. intros [= <-]. cbn. auto.
  - destruct (sweep_shared sample _ t a) as [a' []] eqn:E; intros [= <-]; cbn; auto.
Qed.

Lemma reach_time th0 th :
  Background.reachable (sweep_shared sample (λ t, env_of (clock_of t))) outside SWEEP_ROUNDS DEFAULT_INTERVAL slack th0 th →
  now th0 ≤ now th.
Proof using Type.
  induction 1 as [|th th' m _ IH Hs]; [lia|]. etransitivity; [exact IH|].
  destruct m; try (by eapply bg_quiet_data in Hs as [_ ?]); [apply bg_run_data in Hs as [-> _]; lia|].
  cbn in Hs. injection Hs as <-. cbn. lia.
Qed.

Lemma steps_time l st st' : steps l st = Some st' → time st ≤ time st'.
Proof using Type. intros Hl. by eapply reach_time, steps_thread. Qed.

Section at_state.
Context (st : Process.State) (Hc : steady off (clock_of (time st))) (Hat : attached st).

Abbreviation mirrored_by worker := (Durability.holds T (compact <$> worker) (time st) (mirrors off T (time st))).

Lemma claims_attached worker : snapshot (rewriters st) = Some worker → mirrored_by worker (engine st) → claims_well (compact <$> worker) (engine st).
Proof using Hat.
  intros Hw (w & rs & ds & Ha & _). destruct Hat as [Hr|Hr].
  - left. rewrite Hr in Hw. by injection Hw as <-.
  - right. unfold Process.slot_taken in Hr. unfold Durability.slot_taken. by rewrite Ha in Hr |- *.
Qed.

(** A call on the engine, which may have claimed the slot. *)
Lemma running_call f :
  running st →
  (∀ worker, mirrored_by worker (engine st) → claims_well (compact <$> worker) (engine st) →
     mirrored_by worker (sv_engine (sh_server (f (data (thread st)))))) →
  running (spawn_worker (Process.slot_taken st) (share st f)).
Proof using Hat.
  intros (worker & Hw & He & Hs) Hf. specialize (Hf worker He (claims_attached worker Hw He)).
  unfold spawn_worker. destruct (negb _ && _) eqn:E.
  - apply andb_prop in E as [E _]. destruct Hat as [Hr|Hr]; [|by rewrite Hr in E].
    rewrite Hr in Hw. injection Hw as <-. exists None. cbn. rewrite Hr. done.
  - exists worker. split; [exact Hw|]. split; [exact Hf|exact Hs].
Qed.

Lemma running_sweep th' : running st → bg_step Run (thread st) = Some th' → running (with_thread st th').
Proof using Type.
  intros (worker & Hw & He & Hs) Hr. apply bg_run_data in Hr as [Hn Hd]. exists worker. split; [exact Hw|]. split; [|exact Hs].
  cbn [fst snd engine thread with_thread] in *. unfold engine. cbn [thread with_thread]. rewrite Hn.
  destruct Hd as [->| ->]; [exact He|]. unfold sweep_shared, sweep_body.
  pose proof (logs_sweep off T (compact <$> worker) (clock_of (time st)) (env_of (clock_of (time st))) sample (engine st) He) as Hk.
  unfold engine in Hk. by destruct (sweep_expired _ _ _) as [[stats|x] e'].
Qed.

Lemma running_rewriter i err st1 :
  running st → rewriter_step i (clock_of (time st)) err st = Some st1 → running st1.
Proof using Hc.
  intros (worker & Hw & He & Hs). unfold rewriter_step. cbn [fst snd] in *.
  destruct (rewriters st) as [|r [|]] eqn:Er; [done| |by destruct r].
  destruct i as [|i]; [|done]. cbn [lookup list_lookup]. destruct r as [snap|]; injection Hw as <-; cbn [fmap option_fmap option_map] in He.
  - intros [= <-]. exists None. split; [done|]. split; [|done]. by apply logs_install.
  - destruct (logs_capture off T (clock_of (time st)) (engine st) Hc He) as (captured & Hcap & Hk & Hok).
    rewrite Hcap. destruct captured as [snap|]; intros [= <-].
    + exists (Some snap). split; [done|]. by split.
    + exists None. by split.
Qed.
End at_state.

(** A move of the threads around the sweeper that leaves the engine alone. *)
Lemma running_quiet m st th (st1 : Process.State) :
  m ≠ Run → (∀ g, m ≠ Outside g) → now th = time st → sv_engine (sh_server (data th)) = engine st →
  bg_step m th = Some (thread st1) → rewriters st1 = rewriters st → running st → running st1.
Proof using Type.
  intros Hr Ho Hn He Hb Hw. apply bg_quiet_data in Hb as [Hd Ht]; [|done..].
  apply running_same; [|done|by rewrite <- Hn]. unfold engine at 1. by rewrite Hd.
Qed.

Lemma running_step1 s st st1 :
  steady off (clock_of (time st)) → attached st → step_ahead s st → running st → step1 s st = Some st1 → running st1.
Proof using Type.
  intros Hc Hat Hs Hr H1. destruct s; cbn [Process.step1 step_ahead] in *.
  - unfold on_signal in H1. apply bind_Some in H1 as (th & H1 & [= <-]). by apply (running_quiet Trigger st (alter_shared (with_server (λ s, act max s Listener.Trigger)) (thread st)) (with_thread st th) ltac:(done) ltac:(by intros) eq_refl eq_refl H1).
  - apply bind_Some in H1 as (th & H1 & [= <-]). by apply (running_quiet (Time n) st _ (with_thread st th) ltac:(done) ltac:(by intros) eq_refl eq_refl H1).
  - apply bind_Some in H1 as (th & H1 & [= <-]). by apply running_sweep.
  - apply bind_Some in H1 as (th & H1 & [= <-]). by apply (running_quiet Background.Spurious st _ (with_thread st th) ltac:(done) ltac:(by intros) eq_refl eq_refl H1).
  - destruct (main_at st); [|done..]. destruct (of_server a) eqn:Ea; [|done]. injection H1 as <-. apply running_call; [done..|].
    intros worker He Hcl. cbn [with_server sh_server]. by eapply (act_keeps off T _ (clock_of (time st))).
  - destruct (main_at st); [|done..]. destruct (_ && _); [|done]. injection H1 as <-. by apply (running_same st).
  - destruct (main_at st); [|done..]. destruct (sv_accepting _); [done|]. apply bind_Some in H1 as (th & H1 & [= <-]). by apply (running_quiet Wake st (alter_shared (with_server (aborted stuck)) (thread st)) (at_stragglers _ (at_main _ (with_thread st th))) ltac:(done) ltac:(by intros) eq_refl eq_refl H1).
  - unfold straggle in H1. destruct (bool_decide _); [|done]. injection H1 as <-. apply running_call; [done..|].
    intros worker He Hcl. by apply (act_keeps off T _ (clock_of (time st)) Hc max (Listener.Round i ce)).
  - unfold fade in H1. destruct (bool_decide _); [|done]. injection H1 as <-. apply (running_same st); try done.
    unfold engine. cbn. by apply on_task_cases.
  - destruct (main_at st); [done| |done]. destruct (pc (thread st)); try done. injection H1 as <-. by apply (running_same st).
  - destruct (dash_at st); [|done..]. injection H1 as <-. by apply (running_same st).
  - unfold dash_accept in H1. destruct (dash_at st); [done| |done]. destruct Hs as [Hde Ha].
    destruct (handle_conn html de flag token reads (engine st)) as [x e1] eqn:E. injection H1 as <-. apply running_call; [done..|].
    intros worker He Hcl. cbn [sh_server with_sv_engine sv_engine].
    pose proof (handle_conn_keeps off T (compact <$> worker) (clock_of (time st)) Hc html de Hde flag token reads (engine st) Ha Hcl He) as Hk.
    by rewrite E in Hk.
  - destruct (dash_at st); [done| |done]. destruct (flagged st); [|done]. injection H1 as <-. by apply (running_same st).
  - subst c. by eapply running_rewriter.
Qed.

(** When nobody owns the engine any more, its log was in step when it was dropped. *)
Definition ended (st : Process.State) : Prop :=
  ∃ w0, last_log st = Some w0 ∧ in_step off T (time st) (set_aof (Some w0) (engine st), None).
Definition sound (st : Process.State) : Prop := if decide (owners st = 0%nat) then ended st else running st.

Lemma settle_sound n st : (0 < n)%nat → running st → sound (settle_owners n st).
Proof using Type.
  intros Hn Hr. unfold sound. rewrite settle_owned. unfold settle_owners.
  destruct (decide (owners st = 0%nat)) as [Ho|Ho].
  - rewrite Ho, (proj2 (Nat.ltb_lt 0 n) Hn). cbn [Nat.eqb andb]. destruct Hr as (worker & Hw & He & Hs).
    assert (Hrw : rewriters st = []) by (unfold owners in Ho; destruct (rewriters st); [done|cbn in Ho; lia]).
    rewrite Hrw in Hw. injection Hw as <-. destruct He as (w & rs & ds & Ha & Hrest). cbn [fst snd] in *.
    exists w. split; [exact Ha|]. split; [|done]. exists w, rs, ds. split; [done|]. cbn [fst].
    change (view (set_aof (Some w) (engine _))) with (view (close_log (engine st))).
    unfold close_log. rewrite Ha. exact Hrest.
  - replace (_ && _) with false; [done|]. symmetry. apply andb_false_intro2. by apply Nat.eqb_neq.
Qed.

Lemma sound_step s st st' :
  steady off (clock_of (time st)) → attached st → step_ahead s st → sound st → step s st = Some st' → sound st'.
Proof using Type.
  intros Hc Hat Hs Hi Hst. unfold sound in Hi. destruct (decide (owners st = 0%nat)) as [Ho|Ho].
  - pose proof (steps_time [s] st st') as Ht. cbn in Ht. rewrite Hst in Ht. specialize (Ht eq_refl).
    destruct (unowned _ _ _ _ _ _ _ _ _ _ Ho Hst) as (He & Hl & Ho'). destruct Hi as (w0 & Hw & Hin).
    unfold sound. destruct (decide _); [|done]. exists w0. rewrite He, Hl. split; [done|]. by eapply in_step_later.
  - apply process_step_inv in Hst as (_ & st1 & Hst & ->). apply settle_sound; [lia|]. by apply (running_step1 s st).
Qed.

Lemma sound_steps l st st' :
  0 ≤ time st + off → time st' + off < (i64_max + 1) * 1000000 → run_ahead l st → steps l st = Some st' → sound st → sound st'.
Proof using Type.
  intros Hlo Hhi. revert st Hlo. induction l as [|s l IH]; intros st Hlo Ha Hl Hi; cbn in Hl; [by injection Hl as <-|].
  destruct Ha as (Hat & Hs & Ha). destruct (step s st) as [st1|] eqn:E; [|done]. cbn in Hl.
  pose proof (steps_time [s] st st1) as Ht. cbn in Ht. rewrite E in Ht. specialize (Ht eq_refl).
  pose proof (steps_time l st1 st' Hl) as Ht'. apply (IH st1); [lia|done..|].
  eapply sound_step; [|exact Hat|exact Hs|exact Hi|exact E]. split; [done|]. cbn. lia.
Qed.

Lemma launch_sound policy c0 setup sweeper dashboard t : sound (launch setup sweeper dashboard (fresh_engine policy c0) t).
Proof using Type.
  unfold launch. apply settle_sound; [lia|]. exists None. split; [done|]. apply fresh_in_step.
Qed.
End process.

(** C4: what clients were told is there after a restart. A process that starts on an empty
    log, serves any clients over any sockets, commands and dashboard requests and sweeps
    and rewrites interleaved in any way, and ends with nothing left running beside [main]
    (no dashboard thread, no rewrite worker, no command that [shutdown_timeout] gave up
    waiting for), leaves a file
    from which the next process, whatever its fsync policy and its clocks, builds an engine
    with the same keys, the same values and, to within two milliseconds, the same deadlines.
    The disk works, no rewrite is aborted under its worker, every call reads the two clocks
    at its instant, and no deadline asked for lies between that instant and the horizon [T]. *)
Theorem process_restarts `{IndexMap} `{HashIter} (off off' T max sample slack : Z) (html : bytes) (token : option bytes) (dash_setup : res ()) (policy : FsyncPolicy) (c0 : Entry.Clock)
    (setup : res ()) (sweeper dashboard : bool) (t : Z) (l : list Step) (st : Process.State) (code : ExitCode)
    (cl : Z → Entry.Clock) (t1 : Z) (c0' : Entry.Clock) (disk : list Disk) (cfg : AofConfig) (fs : Files) :
  steps max sample (λ t, env_of (clock_of off t)) slack html token dash_setup l
    (launch setup sweeper dashboard (fresh_engine policy c0) t) = Some st →
  run_ahead off T max sample slack html token dash_setup l (launch setup sweeper dashboard (fresh_engine policy c0) t) →
  0 ≤ t + off → now (thread st) + off < (T + 1) * 1000000 → T ≤ i64_max →
  main_at st = Gone code → dash_at st = Left → rewriters st = [] → stragglers st = [] →
  (∀ p, early off' T (cl p) ∧ inst (cl p) ≤ t1) → (∀ p q, p ≤ q → inst (cl p) ≤ inst (cl q)) →
  t1 + off' < (T + 1) * 1000000 →
  ∃ w e', e_aof (engine st) = Some w ∧
    let file := f_data (w_inner w) in
    build_engine io_fine None (λ p, env_of (cl p)) c0' disk (Some cfg) (<[cfg_path cfg := file]> fs)
    = Some (Ok e', <[cfg_path cfg := file]> fs) ∧
    recovered off off' (live (now (thread st)) (view (engine st))) (live t1 (view e')).
Proof.
  intros Hl Ha Hlo Hhi HT Hm Hd Hr Hg Hcl Hmono Ht1.
  pose proof Hl as Hend. eapply gone_unowned in Hend as [Ho Hs]; [|done..].
  assert (Hin : sound off T st).
  { eapply sound_steps; [|lia|exact Ha|exact Hl|apply launch_sound]. by rewrite launch_time. }
  unfold sound in Hin. destruct (decide (owners st = 0%nat)); [|done]. destruct Hin as (w0 & Hw0 & Hin).
  unfold Process.saved in Hs. rewrite Hw0 in Hs. cbn in Hs.
  destruct (dropped_log_restarts off off' T (now (thread st)) w0 (set_aof (Some w0) (engine st)) None cl t1 c0' disk cfg fs)
    as (e' & H1 & _ & H3); try done.
  exists (writer_drop w0).2, e'. done.
Qed.

(** ** A client, and the process after *)

Definition wall : Z := 1700000000000000000.
Definition cmd_env_of (c : Entry.Clock) : CmdEnv := {|
  ce_env := env_of c; ce_monitor := c; ce_expire := c; ce_elapsed_us := 0; ce_late := c;
  ce_spawn_error := None; ce_join_error := [] |}.

(** A client sets a key; the process is stopped. *)
Definition client_run : list Step :=
  [Client (Accept (Some (str "c")) []);
   Client (Deliver 0 (RBytes (encode_command [str "SET"; str "k"; str "v"])));
   Client (Round 0 (cmd_env_of (clock_of wall 0))); Signal; Poll; Teardown (λ _, false); Sweeper; Process.Join].
Abbreviation first_process := (launch (Ok tt) true false (fresh_engine EverySec (clock_at 0)) 0).
Abbreviation first_run := (steps 0 DEFAULT_SAMPLE (λ t, env_of (clock_of wall t)) 0 [] None (Ok tt) client_run first_process).

Lemma client_run_ahead : run_ahead wall 1700000001000 0 DEFAULT_SAMPLE 0 [] None (Ok tt) client_run first_process.
Proof. vm_compute. repeat (split; [first [left; reflexivity|exact I|split; [reflexivity|exact I]]|]). all: exact I. Qed.

(** The clock of the next process. *)
Definition next_clock : Entry.Clock := {| inst := 5000000; unix_ns := 1700000000900000000 |}.
Definition log_config : AofConfig := {| cfg_path := str "a.aof"; cfg_fsync := Always |}.
Lemma next_early : early 1700000000895000000 1700000001000 next_clock.
Proof. split; [by split|by vm_compute]. Qed.

(** What a run comes to. *)
Definition ending_of (st : Process.State) : Main * Dash * nat * nat * Z :=
  (main_at st, dash_at st, length (rewriters st), length (stragglers st), now (thread st)).

Lemma process_restarts_witness :
  ∃ st w e', first_run = Some st ∧ e_aof (engine st) = Some w ∧
    build_engine io_fine None (λ _, env_of next_clock) next_clock [] (Some log_config) (<[cfg_path log_config := f_data (w_inner w)]> ∅)
    = Some (Ok e', <[cfg_path log_config := f_data (w_inner w)]> ∅) ∧
    recovered wall 1700000000895000000 (live (now (thread st)) (view (engine st))) (live 6000000 (view e')).
Proof.
  assert (Ho : ending_of <$> first_run = Some (Gone SUCCESS, Left, 0%nat, 0%nat, 0)) by (vm_compute; reflexivity).
  destruct first_run as [st|] eqn:E; [|discriminate].
  injection Ho as Hm Hd Hr Hg Hn. apply nil_length_inv in Hr, Hg.
  destruct (process_restarts wall 1700000000895000000 1700000001000 0 DEFAULT_SAMPLE 0 [] None (Ok tt) EverySec (clock_at 0) (Ok tt)
    true false 0 client_run st SUCCESS (λ _, next_clock) 6000000 next_clock [] log_config ∅ E client_run_ahead) as (w & e' & H1 & H2 & H3).
  - vm_compute. discriminate.
  - rewrite Hn. vm_compute. reflexivity.
  - vm_compute. discriminate.
  - exact Hm.
  - exact Hd.
  - exact Hr.
  - exact Hg.
  - intros _. split; [exact next_early|]. vm_compute. discriminate.
  - intros. apply Z.le_refl.
  - vm_compute. reflexivity.
  - exists st, w, e'. split; [reflexivity|]. split; [exact H1|]. split; [exact H2|exact H3].
Defined.
